(* ===== verification/_CoqProject ===== *)
-Q . S2P
Prelude.v
Gob.v
Iface.v
RaftTypes.v
GobImpl.v
RaftPersist.v
RaftLog.v
RaftLogProps.v
RaftElection.v
RaftLeader.v
RaftPeer.v
RaftRecovery.v
RaftReplication.v
RaftCluster.v
RaftNet.v
RaftSafety.v
RaftMatch.v
RaftCommit.v
RaftAgree.v
KVServer.v
KVProps.v
KVReplica.v
KVClient.v
PorcBitset.v
PorcChecker.v
PorcLin.v
PorcList.v
PorcSearch.v
PorcSingle.v
PorcOps.v
PorcParallel.v
PorcKV.v
PorcProps.v
KVLin.v
Labrpc.v
LabrpcProps.v
Labgob.v
MRMaster.v
MRMasterProps.v
MRWorker.v
MRWorkerProps.v
MRApps.v
MRJob.v
MRJobProps.v
MRTestApps.v
Harness.v
RaftConfig.v
RaftConfigProps.v
RaftOracle.v
RaftApply.v
GroupHarness.v
GroupProps.v
GroupRun.v
ShardMaster.v
ServiceHarness.v
ShardKV.v
ShardConfig.v
ShardProps.v
PorcVisual.v
