(* ===== verification/Prelude.v ===== *)
(** * A verification library for the MIT 6.824 labs in Go

    The repository (Go code under [src/src]) holds Raft ([raft]), a key/value
    service replicated with it ([kvraft]), MapReduce ([mr], with its sequential
    counterpart [main/mrsequential.go] and the applications [mrapps]), the
    beginnings of a sharded store ([shardmaster], [shardkv]), and what the tests
    of these run on: the simulated network [labrpc], the harnesses ([config.go] of
    [raft], [kvraft], [shardmaster] and [shardkv]), and the linearizability
    checker [porcupine] with the key/value model [models/kv.go].  This library
    models them as executable functions and proves what makes them correct, and,
    where the code falls short, exhibits it.

    ** How the code is modelled

    - A Go struct is a record, a handler or a goroutine's critical section is a
      function from the state to an [option] of the new state and the reply;
      [None] is a run-time panic (an index or slice bound out of range, a nil
      pointer), a [log.Fatal], or a loop that ran out of fuel.  The key/value
      server distinguishes panics from blocked sends ([KVServer.res]).
    - A goroutine is cut where it releases its mutex.  Interleavings are
      sequences of such pieces ([RaftRecovery.peer_step], [RaftCluster.act],
      [MRJob.step], [Labrpc.exec], [RaftConfigProps.hstep], [GroupRun.lstep]).
    - Go's [int] is [Z]: the counters of these programs stay far below 2^63.
      Where the width matters (the 32-bit hash of the MapReduce worker, the
      64-bit words of porcupine's bit sets) the wrap-around is written out.
    - Random draws, the order of a [range] over a map, the result of an unstable
      sort, the network, and the arrival order of messages are arguments.
    - [encoding/gob] (through [labgob]) is a parameter with the law that what is
      written first is read first ([Gob.v]); [GobImpl.v] has an encoder that
      satisfies it, used by the concrete examples.  Peers and servers decode into new
      variables; the reply variable of a [Call] may have contents, with which [gob]
      merges what it reads ([LabrpcProps.coder]).

    ** The files

    Shared: [Prelude.v] (this file: record update, slices with Go's bounds
    checks, loops that may panic, stable sorting, counting, tactics, the hint
    databases [slices] and [zlen]); [Gob.v], [GobImpl.v]; [Iface.v] (values of
    type [interface{}], the operation [kvraft.Op]).

    Raft ([raft/raft.go], [raft/persister.go]):
    - [RaftTypes.v]: the peer [Raft], messages, [Persister]; [RaftPersist.v]:
      [persist], [readPersist], [Make]; [RaftLog.v]: [AppendEntries],
      [InstallSnapshot], [persistV2], [updateCommit], [findEntry], [findLast];
      [RaftElection.v]: [RequestVote], [oscillator], [startElection];
      [RaftLeader.v]: [Start] and [Append2], and [sync]/[catch_up], one follower
      and its leader run against each other.
    - [RaftLogProps.v]: the handlers are total on well-formed peers and keep
      them well-formed; log repair; the commit rules; compaction and snapshots.
      [RaftPeer.v]: what each operation does to term, vote and role.
      [RaftRecovery.v]: any sequence of steps leaves on disk what [Make] needs.
      [RaftReplication.v]: a leader brings a follower up to date in at most
      [next + 2] rounds, the fuel of [catch_up].
    - [RaftCluster.v], [RaftSafety.v]: a cluster with lost, delayed and
      reordered calls, crashes and restarts; at most one leader per term when
      the loop condition of [startElection] is checked with the mutex held, and
      a run with two leaders when it is not (the code).
    - [RaftNet.v]: the cluster with replication.  A [flight] is a goroutine of
      [Append2]; calls and answers are lost, delayed and overtaken.  A run in
      which a late heartbeat makes two peers apply different commands.
      [RaftMatch.v]: the history of a run (the logs peers and leaders had, the
      entries peers acknowledged) and log matching; [RaftCommit.v]: match indices
      stand for acknowledgements, and a leader that counts replicas commits an
      entry of its own term; [RaftAgree.v]: state machine safety with an odd number
      of peers when no such heartbeat is late ([on_time]).  Each file's invariant
      ([lay1], [lay2], [lay3]) uses the ones before.

    Key/value service ([kvraft]): [KVServer.v] (handlers, applier, snapshots,
    start-up), [KVClient.v] (the clerk's retry loops; its fuel is the number of
    calls), [KVProps.v] (at-most-once execution against a specification, what
    the applier sends, restarts, and four ways in which answers or state go
    wrong).  [KVReplica.v]: service and cluster together: the servers are copies
    of one server at different points of one sequence of commands.  [KVLin.v]: the calls a server answers from a log are linearizable,
    and the checker accepts them.

    MapReduce ([mr]): [MRMaster.v], [MRMasterProps.v] (the master's linked lists
    in a heap, task assignment; [find_fuel] covers the rest of the list and one
    whole turn); [MRWorker.v], [MRWorkerProps.v] (tasks on a file system,
    [Fscanf], FNV-1a; the fuel of the scanner is the length of the text plus
    one, that of the reduce loops the number of pairs plus one); [MRApps.v];
    [MRJob.v], [MRJobProps.v] (master, workers and files as a step relation with
    crashes: a job that is done has the sequential program's output);
    [MRTestApps.v] (the applications of the tests: a job whose workers exit in the
    middle of a task still has the sequential output; the count of workers at work).

    Linearizability checker ([porcupine], [models/kv.go]):
    - [PorcBitset.v]: the bit sets, with the words at 64 bits; [PorcChecker.v]:
      operations, events, models, the doubly linked list of entries in a heap of
      nodes, the search of [checkSingle] turn by turn, [checkParallel] and the
      functions of [porcupine.go].  The fuel of [checkSingle], [check_fuel], is
      one more than [turns n] for [n] operations, with
      [turns (n+1) = (n+1) * (turns n + 2)]: every operation that can be next
      costs a turn, the search below it, and a turn back.
    - [PorcLin.v]: linearizability of entries, by its definition and as the
      search builds it, and that they are the same; [PorcList.v]: [lift] and
      [unlift] on the linked list; [PorcSearch.v]: the search below a
      configuration, the cache; [PorcSingle.v]: [checkSingle] decides, and the
      partial linearizations; [PorcOps.v]: [makeEntries] and histories with
      times; [PorcParallel.v]: partitions in any order, the timeout.
    - [PorcKV.v]: the key/value model and the locality of linearizability;
      [PorcProps.v]: what the checker promises; [PorcVisual.v]: the data of the
      visualization, which every partial linearization of a check can be shown in.

    Simulated network ([labrpc/labrpc.go]): [Labrpc.v] (the network, servers and
    services, and a request as the goroutines of [processReq] and of the handler,
    steps of which are labels of [exec]), [LabrpcProps.v] (at most one run of a
    handler, no answer from a deleted server, every call returns, and on a
    reliable network a call is a call of the method).

    labgob ([labgob/labgob.go]): [Labgob.v] (the search of a type for lower-case
    fields, on recursive types too, and the check of values decoded into; its
    fuel is the number of types plus one).

    Sharded store: [ShardMaster.v], [ShardKV.v] (data, servers whose handlers do
    nothing yet, and the clerks; a value that the clerk returns comes from the
    group that owns the key; the rounds are the fuel of its loops).

    Test harnesses ([config.go]): the servers and persisters ever made are kept in
    lists, and a pointer is a place in one; so an old server goes on after it was
    replaced.
    - [Harness.v]: names on the network, [randstring], switching ends, outcomes of a
      test, and what a step of the network cannot change.
    - [RaftConfig.v]: the harness of the Raft tests; [RaftConfigProps.v]: the steps of
      harness, peers and network together ([hstep]), who reaches whom, restarts;
      [RaftOracle.v]: what the listeners' complaints, [nCommitted] and [one] mean;
      [RaftApply.v]: peers and listeners run together.  The rounds of [one] and [wait]
      and the polls are arguments, what fits into the time the code gives itself.
    - [GroupHarness.v]: the harness of a replicated service, for any kind of server;
      [GroupProps.v]: [random_handles], [make_partition], links; [GroupRun.v]: harness,
      servers and network together ([lstep]), partitions around the leader, servers
      that are shut down; [ServiceHarness.v]: the key/value and the shard-master
      harness as instances, and runs.
    - [ShardConfig.v], [ShardProps.v]: the harness of the sharded tests, and who is on
      the network under which name when it is made.
    ** Interfaces

    [RaftTypes.RaftCodec]: what persistence needs of the encoder.
    [MRWorkerProps.SortsByKey]: what [sort.Sort(ByKey(..))] promises.
    [MRJobProps.good_job]: what a job needs of an application, proved for word
    count in [MRApps.v].
    [PorcOps.SortsByTime]: what [sort.Sort(byTime(..))] promises.

    ** Not modelled

    - The encoder under [labgob] (a parameter), the servers and sockets of
      [net/rpc], [fmt] output, timers and sleeps: they decide when a step happens, not what
      it does.  Crashed goroutines, lost and late calls are steps of the models.
    - Steps that the code does not rule out but that its callers never make:
      [RaftCluster.run_op] and [RaftRecovery.peer_step] take a snapshot only with the
      index and term that are written in it, compact the log only up to the commit
      index, and ([peer_step]) ask for votes of positive terms only;
      [RaftConfigProps.hstep] connects only servers that have a Raft.
    - Pieces that are one step although the code releases a mutex in between: a handler
      that [labrpc] calls ([Labrpc.thread_step]; what happens meanwhile are steps of the
      objects), the applier's execution and delivery of a command and the two looks of
      [Get] at the maps ([KVServer.v]), [GroupHarness.ShutdownServer].
    - The mutexes themselves; a path of [Start] that returns with the mutex held
      is the flag [mu].
    - The page that porcupine's visualization is put into and its JSON, the
      programs and mains, the author's experiments, and dead code ([Append], [heartbeat], [checkSnapBytes], the
      [nrand] of the clerks).
    - Of the harnesses: the clock (the time limits bound loops whose numbers of
      rounds are arguments), [makeSeed], the number of processors, the tests
      themselves ([test_test.go]).  In [GroupRun.v] what a server does between
      two steps of the harness is arbitrary, but it writes only its own persister.
    - In [RaftNet.v], unlike in [RaftCluster.v], the log is not compacted and calls are
      handled once, as in the tests of Raft; the arguments of a call are encoded when
      they are built (the code encodes them a little later, without the mutex).  The
      argument [fresh] says whether the loop condition of [startElection] is looked at
      again when the mutex is taken.  The code does not; log matching, agreement and
      what follows from them are proved for the runs in which it still holds then.  With an even
      number of peers half of them are enough for the commit rule, so agreement is
      stated for odd numbers. *)
From Stdlib Require Import ZArith Lia.
From stdpp Require Export base list gmap strings sorting.
Open Scope Z_scope.

(** ** Record update

    [r <| f := v |>] is the record [r] with field [f] set to [v].  A record
    type provides its eta expansion as an instance of [Eta]; the setter of a
    field is then found by pattern matching on that expansion. *)

Class Eta (R : Type) := eta_of : R → R.

Class Setter {R T : Type} (proj : R → T) := over : (T → T) → R → R.

Ltac derive_setter :=
  lazymatch goal with
  | |- @Setter ?R ?T ?p =>
      let e := constr:(_ : Eta R) in
      let e := eval cbv delta [eta_of] in e in
      let e := lazymatch e with (fun x => _) => e | _ => eval hnf in e end in
      let e := eval pattern p in e in
      lazymatch e with
      | ?g _ =>
          let t := eval cbv beta in
            (fun (f : T → T) (r : R) => g (fun r' => f (p r')) r) in
          exact t
      end
  end.

#[export] Hint Extern 1 (Setter _) => derive_setter : typeclass_instances.

Declare Scope go_scope.
Delimit Scope go_scope with go.

Notation "r <| p := v |>" :=
  (over (proj := p) (fun _ => v) r)
    (at level 1, left associativity, p at next level, v at level 200,
     format "r  <| p  :=  v |>") : go_scope.
Open Scope go_scope.

(** ** Counters *)

(** [atomic.AddInt32] and [atomic.AddInt64] wrap around. *)
Definition AddInt32 (x d : Z) : Z := (x + d + 2 ^ 31) mod 2 ^ 32 - 2 ^ 31.
Definition AddInt64 (x d : Z) : Z := (x + d + 2 ^ 63) mod 2 ^ 64 - 2 ^ 63.

(** ** Go slices

    Indices are Go [int]s, kept as [Z].  An access that Go refuses at run time
    (an index or a slice bound out of range) is [None]: the operation panics. *)

Definition zlen {A} (l : list A) : Z := Z.of_nat (length l).

(** [l[i]] *)
Definition zget {A} (l : list A) (i : Z) : option A :=
  if decide (0 ≤ i) then l !! Z.to_nat i else None.

(** [l[i] = x] *)
Definition zset {A} (l : list A) (i : Z) (x : A) : option (list A) :=
  if decide (0 ≤ i < zlen l) then Some (<[Z.to_nat i := x]> l) else None.

(** [l[i:]] *)
Definition zfrom {A} (l : list A) (i : Z) : option (list A) :=
  if decide (0 ≤ i ≤ zlen l) then Some (drop (Z.to_nat i) l) else None.

(** [l[0:k]]; the code only re-slices within the length *)
Definition zto {A} (l : list A) (k : Z) : option (list A) :=
  if decide (0 ≤ k ≤ zlen l) then Some (take (Z.to_nat k) l) else None.

(** The integers [a, a+1, ..., b] of a loop [for i := a; i <= b; i++]. *)
Definition zrange (a b : Z) : list Z :=
  (λ k : nat, a + Z.of_nat k) <$> seq 0 (Z.to_nat (b + 1 - a)).

(** A loop whose body may panic: the first panic is the loop's. *)
Fixpoint foldM {A B} (f : A → B → option A) (a : A) (l : list B) : option A :=
  match l with
  | [] => Some a
  | x :: l' => a' ← f a x; foldM f a' l'
  end.

(** ** Stable sorting ([sort.SliceStable]) by insertion *)

Fixpoint stable_insert {A} (lt : A → A → bool) (x : A) (l : list A) : list A :=
  match l with
  | [] => [x]
  | y :: l' => if lt y x then y :: stable_insert lt x l' else x :: y :: l'
  end.

Fixpoint stable_sort {A} (lt : A → A → bool) (l : list A) : list A :=
  match l with
  | [] => []
  | x :: l' => stable_insert lt x (stable_sort lt l')
  end.

(** The number of elements that satisfy a boolean test. *)
Definition count_if {A} (f : A → bool) (l : list A) : nat :=
  length (List.filter f l).

(** ** Tactics *)

(** Case analysis on a boolean comparison of integers, with its meaning. *)
Ltac case_cmp :=
  match goal with
  | |- context [ (?a <? ?b)%Z ] => destruct (Z.ltb_spec a b)
  | |- context [ (?a <=? ?b)%Z ] => destruct (Z.leb_spec a b)
  | |- context [ (?a =? ?b)%Z ] => destruct (Z.eqb_spec a b)
  | H : context [ (?a <? ?b)%Z ] |- _ => destruct (Z.ltb_spec a b)
  | H : context [ (?a <=? ?b)%Z ] |- _ => destruct (Z.leb_spec a b)
  | H : context [ (?a =? ?b)%Z ] |- _ => destruct (Z.eqb_spec a b)
  end.

(** Turn the boolean hypotheses of the context into propositions. *)
Ltac to_prop :=
  repeat match goal with
  | H : (_ && _)%bool = true |- _ => apply andb_true_iff in H as [? ?]
  | H : (_ && _)%bool = false |- _ => apply andb_false_iff in H
  | H : (_ || _)%bool = true |- _ => apply orb_true_iff in H
  | H : (_ || _)%bool = false |- _ => apply orb_false_iff in H as [? ?]
  | H : negb _ = true |- _ => apply negb_true_iff in H
  | H : negb _ = false |- _ => apply negb_false_iff in H
  | H : (_ <? _) = true |- _ => apply Z.ltb_lt in H
  | H : (_ <? _) = false |- _ => apply Z.ltb_ge in H
  | H : (_ <=? _) = true |- _ => apply Z.leb_le in H
  | H : (_ <=? _) = false |- _ => apply Z.leb_gt in H
  | H : (_ =? _) = true |- _ => apply Z.eqb_eq in H
  | H : (_ =? _) = false |- _ => apply Z.eqb_neq in H
  end.

(** Read an equation [m ≫= k = Some r] backwards: [m] did not panic. *)
Ltac unbind :=
  repeat match goal with
  | H : (_ ≫= _) = Some _ |- _ =>
      apply bind_Some in H; destruct H as (? & ? & H)
  | H : Some _ = Some _ |- _ => injection H; clear H; intros; subst
  | H : None = Some _ |- _ => discriminate H
  end.

(** ** Lemmas on slices *)

Create HintDb slices discriminated.
Create Rewrite HintDb zlen.

Section slices.
Context {A : Type}.
Implicit Types (l k : list A) (x y : A) (i : Z).

Lemma zlen_nonneg l : 0 ≤ zlen l.
Proof. unfold zlen. lia. Qed.

Lemma zlen_nil : zlen (@nil A) = 0.
Proof. done. Qed.

Lemma zlen_cons x l : zlen (x :: l) = 1 + zlen l.
Proof. unfold zlen. simpl. lia. Qed.

Lemma zlen_app l k : zlen (l ++ k) = zlen l + zlen k.
Proof. unfold zlen. rewrite length_app. lia. Qed.

Lemma zlen_take n l : zlen (take n l) = Z.min (Z.of_nat n) (zlen l).
Proof. unfold zlen. rewrite length_take. lia. Qed.

Lemma zlen_drop n l : zlen (drop n l) = Z.max 0 (zlen l - Z.of_nat n).
Proof. unfold zlen. rewrite length_drop. lia. Qed.

Lemma zget_Some_range l i x : zget l i = Some x → 0 ≤ i < zlen l.
Proof.
  unfold zget, zlen. case_decide; [|done].
  intros Hx%lookup_lt_Some. lia.
Qed.

Lemma zget_is_Some l i : is_Some (zget l i) ↔ 0 ≤ i < zlen l.
Proof.
  split.
  - intros [x Hx]. by eapply zget_Some_range.
  - intros Hi. unfold zget, zlen in *. rewrite decide_True by lia.
    apply lookup_lt_is_Some. lia.
Qed.

Lemma zget_lt l i : 0 ≤ i < zlen l → ∃ x, zget l i = Some x.
Proof. intros H. by apply zget_is_Some in H. Qed.

Lemma zget_ge l i : zlen l ≤ i → zget l i = None.
Proof.
  intros Hi. unfold zget, zlen in *. case_decide; [|done].
  apply lookup_ge_None. lia.
Qed.

Lemma zget_neg l i : i < 0 → zget l i = None.
Proof. intros Hi. unfold zget. case_decide; [lia|done]. Qed.

Lemma zget_lookup l (n : nat) : zget l (Z.of_nat n) = l !! n.
Proof. unfold zget. rewrite decide_True by lia. by rewrite Nat2Z.id. Qed.

Lemma zget_app_l l k i : i < zlen l → zget (l ++ k) i = zget l i.
Proof.
  intros Hi. unfold zget, zlen in *. case_decide; [|done].
  apply lookup_app_l. lia.
Qed.

Lemma zget_app_r l k i : zlen l ≤ i → zget (l ++ k) i = zget k (i - zlen l).
Proof.
  intros Hi. unfold zget, zlen in *.
  rewrite !decide_True by lia. rewrite lookup_app_r by lia. f_equal. lia.
Qed.

Lemma zget_cons_pos x l i : 0 < i → zget (x :: l) i = zget l (i - 1).
Proof.
  intros Hi. change (x :: l) with ([x] ++ l).
  rewrite zget_app_r; [done|]. unfold zlen. simpl. lia.
Qed.

Lemma zget_take l i (n : nat) : i < Z.of_nat n → zget (take n l) i = zget l i.
Proof.
  intros Hi. unfold zget. case_decide; [|done]. apply lookup_take_lt. lia.
Qed.

Lemma zget_take_ge l i (n : nat) : Z.of_nat n ≤ i → zget (take n l) i = None.
Proof. intros Hi. apply zget_ge. rewrite zlen_take. lia. Qed.

Lemma zget_drop l i (n : nat) : 0 ≤ i → zget (drop n l) i = zget l (i + Z.of_nat n).
Proof.
  intros Hi. unfold zget. rewrite !decide_True by lia.
  rewrite lookup_drop. f_equal. lia.
Qed.

Lemma zget_last l x : zget (l ++ [x]) (zlen l) = Some x.
Proof. rewrite zget_app_r by lia. by rewrite Z.sub_diag. Qed.

Lemma zfrom_Some l i k :
  zfrom l i = Some k ↔ 0 ≤ i ≤ zlen l ∧ k = drop (Z.to_nat i) l.
Proof. unfold zfrom. case_decide; split; [intros [= <-]|intros [? ->]| |intros []]; done. Qed.

Lemma zto_Some l i k :
  zto l i = Some k ↔ 0 ≤ i ≤ zlen l ∧ k = take (Z.to_nat i) l.
Proof. unfold zto. case_decide; split; [intros [= <-]|intros [? ->]| |intros []]; done. Qed.

Lemma zset_Some l i x k :
  zset l i x = Some k ↔ 0 ≤ i < zlen l ∧ k = <[Z.to_nat i := x]> l.
Proof. unfold zset. case_decide; split; [intros [= <-]|intros [? ->]| |intros []]; done. Qed.

Lemma zset_lt l i x : 0 ≤ i < zlen l → zset l i x = Some (<[Z.to_nat i := x]> l).
Proof. intros Hi. by apply zset_Some. Qed.

Lemma zlen_zset l i x k : zset l i x = Some k → zlen k = zlen l.
Proof. intros [_ ->]%zset_Some. unfold zlen. by rewrite length_insert. Qed.

Lemma zget_zset_eq l i x k : zset l i x = Some k → zget k i = Some x.
Proof.
  intros [Hi ->]%zset_Some. unfold zget. rewrite decide_True by lia.
  apply list_lookup_insert_eq. unfold zlen in Hi. lia.
Qed.

Lemma zget_zset_ne l i j x k : zset l i x = Some k → i ≠ j → zget k j = zget l j.
Proof.
  intros [Hi ->]%zset_Some Hij. unfold zget. case_decide; [|done].
  apply list_lookup_insert_ne. lia.
Qed.

(** Slices with the same length and the same elements are equal. *)
Lemma zget_ext l k : (∀ i, 0 ≤ i → zget l i = zget k i) → l = k.
Proof.
  intros H. apply list_eq. intros n.
  specialize (H (Z.of_nat n)). rewrite !zget_lookup in H. apply H. lia.
Qed.
End slices.

#[export] Hint Resolve zlen_nonneg : slices.
#[export] Hint Rewrite @zlen_nil @zlen_cons @zlen_app @zlen_take @zlen_drop : zlen.

(** Arithmetic on lengths of slices. *)
Ltac zlen_nonneg_all :=
  repeat match goal with
  | |- context [ zlen ?l ] =>
      lazymatch goal with
      | _ : 0 ≤ zlen l |- _ => fail
      | _ => pose proof (zlen_nonneg l)
      end
  | _ : context [ zlen ?l ] |- _ =>
      lazymatch goal with
      | _ : 0 ≤ zlen l |- _ => fail
      | _ => pose proof (zlen_nonneg l)
      end
  end.

Ltac zlen_lia := autorewrite with zlen in *; zlen_nonneg_all; lia.

Lemma zrange_nil a b : b < a → zrange a b = [].
Proof. intros H. unfold zrange. by replace (Z.to_nat (b + 1 - a)) with 0%nat by lia. Qed.

Lemma zrange_cons a b : a ≤ b → zrange a b = a :: zrange (a + 1) b.
Proof.
  intros H. unfold zrange.
  replace (Z.to_nat (b + 1 - a)) with (S (Z.to_nat (b + 1 - (a + 1)))) by lia.
  simpl. f_equal; [lia|]. rewrite <- seq_shift, <- list_fmap_compose.
  apply list_fmap_ext. intros i x _. simpl. lia.
Qed.

Lemma zrange_snoc a b : a ≤ b + 1 → zrange a (b + 1) = zrange a b ++ [b + 1].
Proof.
  intros Hle. unfold zrange. replace (Z.to_nat (b + 1 + 1 - a)) with (Z.to_nat (b + 1 - a) + 1)%nat by lia.
  rewrite seq_app, fmap_app. cbn. do 2 f_equal. lia.
Qed.

Lemma elem_of_zrange a b i : i ∈ zrange a b ↔ a ≤ i ≤ b.
Proof.
  unfold zrange. rewrite list_elem_of_fmap. split.
  - intros (k & -> & Hk%elem_of_seq). lia.
  - intros Hi. exists (Z.to_nat (i - a)). rewrite elem_of_seq. lia.
Qed.

Lemma foldM_app {A B} (f : A → B → option A) a l k :
  foldM f a (l ++ k) = (foldM f a l ≫= λ a', foldM f a' k).
Proof.
  revert a. induction l as [|x l IH]; intros a; simpl; [done|].
  destruct (f a x); simpl; auto.
Qed.

(** [for i, _ := range l { l[i] = f(l[i]) }] *)
Lemma foldM_update_app {A} (f : A → A) (l k : list A) :
  foldM (λ l i, x ← zget l i; zset l i (f x)) (l ++ k)
    (zrange (zlen l) (zlen l + zlen k - 1)) = Some (l ++ (f <$> k)).
Proof.
  revert l. induction k as [|x k IH]; intros l.
  - rewrite zrange_nil by zlen_lia. done.
  - rewrite zrange_cons by zlen_lia. cbn [foldM].
    rewrite zget_app_r, Z.sub_diag by lia. cbn [zget decide mbind option_bind].
    replace (zget (x :: k) 0) with (Some x) by done. cbn [mbind option_bind].
    replace (zset (l ++ x :: k) (zlen l) (f x)) with (Some ((l ++ [f x]) ++ k)).
    2: { symmetry. apply zset_Some. split; [zlen_lia|]. unfold zlen. rewrite Nat2Z.id.
         rewrite insert_app_r_alt, Nat.sub_diag by lia. simpl. by rewrite <- (assoc_L (++)). }
    cbn [mbind option_bind].
    replace (zlen l + 1) with (zlen (l ++ [f x])) by zlen_lia.
    replace (zlen l + zlen (x :: k) - 1) with (zlen (l ++ [f x]) + zlen k - 1) by zlen_lia.
    rewrite IH. by rewrite <- (assoc_L (++)).
Qed.

Lemma foldM_update {A} (f : A → A) (l : list A) n :
  n = zlen l - 1 →
  foldM (λ l i, x ← zget l i; zset l i (f x)) l (zrange 0 n) = Some (f <$> l).
Proof.
  intros ->. pose proof (foldM_update_app f [] l) as H.
  cbn [app] in H. rewrite zlen_nil in H. exact H.
Qed.

(** ** Sorting and counting *)

Section sorting.
Context {A : Type} (lt : A → A → bool) (R : relation A) `{!Transitive R}.
Context (Hlt : ∀ x y, lt x y = true → R x y) (Hge : ∀ x y, lt x y = false → R y x).

Lemma stable_insert_Permutation x l : stable_insert lt x l ≡ₚ x :: l.
Proof using Type.
  induction l as [|y l IH]; simpl; [done|].
  destruct (lt y x); [|done]. rewrite IH. constructor.
Qed.

Lemma stable_sort_Permutation l : stable_sort lt l ≡ₚ l.
Proof using Type.
  induction l as [|x l IH]; simpl; [done|].
  by rewrite stable_insert_Permutation, IH.
Qed.

Lemma stable_insert_Sorted x l :
  StronglySorted R l → StronglySorted R (stable_insert lt x l).
Proof using All.
  induction 1 as [|y l Hl IH Hy]; simpl; [by repeat constructor|].
  destruct (lt y x) eqn:Hyx.
  - constructor; [done|]. rewrite stable_insert_Permutation. constructor; [by apply Hlt|done].
  - apply Hge in Hyx. constructor; [by constructor|]. constructor; [done|].
    eapply Forall_impl; [done|]. intros z Hz. by transitivity y.
Qed.

Lemma stable_sort_Sorted l : StronglySorted R (stable_sort lt l).
Proof using All. induction l; simpl; [constructor|by apply stable_insert_Sorted]. Qed.
End sorting.

(** Sorting by an integer key. *)
Lemma stable_sort_key_Sorted {A} (key : A → Z) l :
  StronglySorted (λ x y, key x ≤ key y) (stable_sort (λ x y, key x <? key y) l).
Proof.
  apply stable_sort_Sorted.
  - intros x y z. lia.
  - intros x y. case_cmp; [lia|done].
  - intros x y. case_cmp; [done|lia].
Qed.

Lemma count_if_Permutation {A} (f : A → bool) l k :
  l ≡ₚ k → count_if f l = count_if f k.
Proof.
  unfold count_if. induction 1; simpl; repeat case_match; simpl; lia.
Qed.

Lemma count_if_app {A} (f : A → bool) l k :
  count_if f (l ++ k) = (count_if f l + count_if f k)%nat.
Proof. unfold count_if. by rewrite List.filter_app, length_app. Qed.

Lemma count_if_le {A} (f : A → bool) l : (count_if f l ≤ length l)%nat.
Proof. unfold count_if. induction l; simpl; [lia|]. case_match; simpl; lia. Qed.

Lemma count_if_all {A} (f : A → bool) l :
  Forall (λ x, f x = true) l → count_if f l = length l.
Proof. unfold count_if. induction 1 as [|x l Hx _ IH]; simpl; [done|]. rewrite Hx. simpl. lia. Qed.

Lemma count_if_none {A} (f : A → bool) l :
  Forall (λ x, f x = false) l → count_if f l = 0%nat.
Proof. unfold count_if. induction 1 as [|x l Hx _ IH]; simpl; [done|]. by rewrite Hx. Qed.

Lemma count_if_fmap {A B} (f : B → bool) (g : A → B) l :
  count_if f (g <$> l) = count_if (λ x, f (g x)) l.
Proof.
  unfold count_if. induction l as [|x l IH]; [done|].
  rewrite fmap_cons. simpl. case_match; simpl; by rewrite IH.
Qed.

Lemma count_if_ext {A} (f g : A → bool) l :
  Forall (λ x, f x = g x) l → count_if f l = count_if g l.
Proof. unfold count_if. induction 1 as [|x l Hx _ IH]; simpl; [done|]. rewrite Hx. case_match; simpl; lia. Qed.

(** Switching the test on at one element adds one. *)
Lemma count_if_switch {A} (f g : A → bool) l x :
  NoDup l → x ∈ l → f x = false → g x = true → (∀ y, y ≠ x → f y = g y) →
  count_if g l = S (count_if f l).
Proof.
  intros Hnd Hx Hf Hg Heq. apply list_elem_of_split in Hx as (l1 & l2 & ->).
  apply NoDup_app in Hnd as (_ & Hl1 & Hl2). apply NoDup_cons in Hl2 as [Hl2 _].
  assert (∀ l, x ∉ l → count_if g l = count_if f l) as Hrest.
  { intros l Hl. apply count_if_ext, Forall_forall. intros y Hy. symmetry. apply Heq. by intros ->. }
  rewrite !count_if_app, (Hrest l1) by (intros Hx; by apply (Hl1 x Hx), list_elem_of_here).
  unfold count_if at 2 4. simpl. rewrite Hf, Hg. simpl. fold (count_if g l2) (count_if f l2).
  rewrite Hrest by done. lia.
Qed.

(** The elements that are counted. *)
Lemma count_if_filter {A} (f : A → bool) l :
  NoDup l → ∃ k, NoDup k ∧ length k = count_if f l ∧ ∀ x, x ∈ k → x ∈ l ∧ f x = true.
Proof.
  intros Hl. exists (List.filter f l). split_and!; [|done|].
  - apply NoDup_ListNoDup, List.NoDup_filter. by apply NoDup_ListNoDup.
  - intros x Hx. apply list_elem_of_In, List.filter_In in Hx as [Hx ?].
    by apply list_elem_of_In in Hx.
Qed.

Lemma StronglySorted_lookup {A} (R : relation A) l i j x y :
  StronglySorted R l → l !! i = Some x → l !! j = Some y → (i < j)%nat → R x y.
Proof.
  intros Hs. revert i j. induction Hs as [|z l Hs IH Hz]; intros [|i] [|j] Hi Hj ?;
    simpl in *; simplify_eq; try lia.
  - by eapply (Forall_lookup_1 (R x) l).
  - eapply IH; eauto. lia.
Qed.

(** In a list sorted by [key], the element at position [p] has at least
    [length l - p] elements at or above it, and at most that many lie
    strictly above any bound it is below. *)
Lemma StronglySorted_sublist {A} (R : relation A) l k :
  StronglySorted R l → k `sublist_of` l → StronglySorted R k.
Proof.
  intros Hs Hk. induction Hk as [|x k l Hk IH|x k l Hk IH]; [done|..];
    apply StronglySorted_inv in Hs as [Hs Hx]; [|by apply IH].
  constructor; [by apply IH|]. rewrite Forall_forall in Hx |- *. intros y Hy.
  apply Hx. by eapply elem_of_submseteq, sublist_submseteq.
Qed.

Lemma sorted_count_ge {A} (key : A → Z) (l : list A) p x :
  StronglySorted (λ x y, key x ≤ key y) l →
  l !! p = Some x →
  (length l - p ≤ count_if (λ y, key x <=? key y)%Z l)%nat.
Proof.
  intros Hs Hp. rewrite <- (take_drop p l) at 2. rewrite count_if_app.
  rewrite (count_if_all _ (drop p l)); [rewrite length_drop; lia|].
  apply Forall_lookup. intros i y Hy. rewrite lookup_drop in Hy.
  apply Z.leb_le. destruct i as [|i].
  - rewrite Nat.add_0_r in Hy. simplify_eq. lia.
  - eapply (StronglySorted_lookup (λ a b, key a ≤ key b) l p (p + S i)); eauto. lia.
Qed.

Lemma sorted_count_gt {A} (key : A → Z) (l : list A) p x v :
  StronglySorted (λ x y, key x ≤ key y) l →
  l !! p = Some x → key x < v →
  (count_if (λ y, v <=? key y)%Z l ≤ length l - S p)%nat.
Proof.
  intros Hs Hp Hv. rewrite <- (take_drop (S p) l) at 1. rewrite count_if_app.
  rewrite (count_if_none _ (take (S p) l)).
  - pose proof (count_if_le (λ y, v <=? key y)%Z (drop (S p) l)) as H.
    rewrite length_drop in H. lia.
  - apply Forall_lookup. intros i y Hy. apply lookup_take_Some in Hy as [Hy Hi].
    apply Z.leb_gt. destruct (decide (i = p)) as [->|Hne]; [simplify_eq; done|].
    assert (key y ≤ key x); [|lia].
    eapply (StronglySorted_lookup (λ a b, key a ≤ key b) l i p); eauto. lia.
Qed.

(** Two majorities of [n] voters share a voter. *)
Lemma majority_intersect (n : nat) (l k : list nat) :
  NoDup l → NoDup k →
  Forall (λ x, x < n)%nat l → Forall (λ x, x < n)%nat k →
  (n < 2 * length l)%nat → (n < 2 * length k)%nat →
  ∃ x, x ∈ l ∧ x ∈ k.
Proof.
  intros Hl Hk Hln Hkn Hlc Hkc.
  destruct (decide (Exists (λ x, x ∈ k) l)) as [Hex|Hno].
  { apply Exists_exists in Hex. naive_solver. }
  apply not_Exists_Forall in Hno; [|apply _].
  assert (length (l ++ k) ≤ length (seq 0 n))%nat as Hlen.
  { apply submseteq_length, NoDup_submseteq.
    - apply NoDup_app. split_and!; [done| |done].
      intros x Hx Hx'. rewrite Forall_forall in Hno. by apply (Hno x).
    - intros x. rewrite elem_of_app, elem_of_seq.
      rewrite Forall_forall in Hln, Hkn. intros [Hx|Hx].
      + specialize (Hln _ Hx). simpl in *. lia.
      + specialize (Hkn _ Hx). simpl in *. lia. }
  rewrite length_app, length_seq in Hlen. lia.
Qed.
