(* ===== verification/Gob.v ===== *)
(** The interface of [encoding/gob], the Go standard library encoder that
    [src/src/labgob/labgob.go] wraps and that Raft and the key/value server use
    for their persistent state.  The encoder itself is not code of the
    repository: a type that can be sent is an instance of [Gob], and the
    documented contract (the values of a stream are decoded in the order in
    which they were encoded) is the class [GobLaws].  Everything that
    encodes is stated for any encoder that satisfies the contract; [GobImpl.v]
    has a concrete one. *)
From S2P Require Import Prelude.
From Stdlib Require Import Strings.Byte.

Abbreviation bytes := (list byte).

(** [gob_enc a] are the bytes one [Encode] call appends to the stream;
    [gob_dec] reads one value and leaves the rest of the stream. *)
Class Gob (A : Type) := {
  gob_enc : A → bytes;
  gob_dec : bytes → option (A * bytes)
}.

#[export] Hint Mode Gob ! : typeclass_instances.

Class GobLaws (A : Type) `{!Gob A} := {
  gob_roundtrip (a : A) (rest : bytes) : gob_dec (gob_enc a ++ rest) = Some (a, rest);
  gob_nonempty (a : A) : gob_enc a ≠ []
}.

(** A decoder at the end of its stream returns the error [io.EOF]. *)
Class GobEof (A : Type) `{!Gob A} := {
  gob_eof : gob_dec (A := A) [] = None
}.

#[export] Instance byte_eq_dec : EqDecision byte := Byte.byte_eq_dec.
