(* ===== verification/Iface.v ===== *)
(** The values the repository passes as [interface{}]: Go's dynamic types are
    the constructors of one inductive type.  Raft never looks inside a command;
    the commands that reach it are the no-op strings of [startElection], the
    integers of the Raft tests and the [Op]s of the key/value server.  A
    snapshot travels on the apply channel as its encoded bytes. *)
From S2P Require Import Prelude Gob.
From Stdlib Require Import Strings.Byte.

(** [kvraft.Op] *)
Module Op.
Record t := mk {
  Id : Z;        (* client id *)
  Num : Z;       (* the number of the request *)
  Typ : Z;       (* 0: get, 1: put, 2: append, -1: no such key *)
  Key : string;
  Value : string
}.
#[global] Instance eta : Eta t := λ o, mk o.(Id) o.(Num) o.(Typ) o.(Key) o.(Value).
#[global] Instance eq_dec : EqDecision t.
Proof. solve_decision. Defined.
End Op.

Inductive iface :=
  | INil                      (* the nil interface *)
  | IString (s : string)
  | IInt (z : Z)
  | IOp (o : Op.t)
  | IBytes (b : bytes).

#[export] Instance iface_eq_dec : EqDecision iface.
Proof. solve_decision. Defined.
