(* ===== verification/RaftTypes.v ===== *)
(** The state of a Raft peer ([src/src/raft/raft.go], [persister.go]): its
    record, the messages of the protocol, persistence, start-up, and the small
    operations the handlers share.

    The effects of a peer on the world outside its memory are kept in order in
    the field [out]: every write of the persister and every message sent on
    [applych].  The mutex is the field [mu]: it is [true] when it stays locked
    after an operation has returned.  A draw of [rand.Intn] is an argument. *)
From S2P Require Import Prelude Gob Iface.
From stdpp Require Import pretty.

(** ** Messages and log entries *)

Module Log.
Record t := mk { Command : iface; Term : Z }.
#[global] Instance eq_dec : EqDecision t.
Proof. solve_decision. Defined.
End Log.

Module ApplyMsg.
Record t := mk { CommandValid : bool; Command : iface; CommandIndex : Z }.
End ApplyMsg.

Module RequestVoteArgs.
Record t := mk { Term : Z; CandidateId : Z; LastLogIndex : Z; LastLogTerm : Z }.
End RequestVoteArgs.

Module RequestVoteReply.
Record t := mk { Term : Z; VoteGranted : bool }.
End RequestVoteReply.

Module RequestAppendArgs.
Record t := mk {
  Term : Z;
  LeaderId : Z;
  PrevLogIndex : Z;
  PrevLogTerm : Z;
  Entries : list Log.t;
  LeaderCommit : Z
}.
End RequestAppendArgs.

Module RequestAppendReply.
Record t := mk {
  Term : Z;
  Success : bool;
  Miss : bool;
  TermConflict : Z;
  TermStart : Z;
  Len : Z
}.
#[global] Instance eta : Eta t :=
  λ r, mk r.(Term) r.(Success) r.(Miss) r.(TermConflict) r.(TermStart) r.(Len).
End RequestAppendReply.

Module SnapArg.
Record t := mk {
  Term : Z;
  LeaderId : Z;
  LastIncludedIndex : Z;
  LastIncludedTerm : Z;
  Data : bytes
}.
End SnapArg.

Module SnapReply.
Record t := mk { Term : Z }.
End SnapReply.

(** [raft.SnapShot]; a [nil] map is [None] *)
Module SnapShot.
Record t := mk {
  Mp : option (gmap string string);
  LastIndex : Z;
  LastTerm : Z;
  CliMap : option (gmap Z Z)
}.
#[global] Instance eta : Eta t :=
  λ s, mk s.(Mp) s.(LastIndex) s.(LastTerm) s.(CliMap).
(** [var snapshot SnapShot] *)
Definition zero : t := mk None 0 0 None.
End SnapShot.

(** ** The persister *)

Module Persister.
Record t := mk { raftstate : bytes; snapshot : bytes }.
#[global] Instance eta : Eta t := λ p, mk p.(raftstate) p.(snapshot).

Definition MakePersister : t := mk [] [].
Definition Copy (ps : t) : t :=
  MakePersister <| raftstate := ps.(raftstate) |> <| snapshot := ps.(snapshot) |>.
Definition SaveRaftState (state : bytes) (ps : t) : t := ps <| raftstate := state |>.
Definition ReadRaftState (ps : t) : bytes := ps.(raftstate).
Definition RaftStateSize (ps : t) : Z := zlen ps.(raftstate).
Definition SaveStateAndSnapshot (state snap : bytes) (ps : t) : t :=
  ps <| raftstate := state |> <| snapshot := snap |>.
Definition ReadSnapshot (ps : t) : bytes := ps.(snapshot).
Definition SnapshotSize (ps : t) : Z := zlen ps.(snapshot).
End Persister.

(** ** The peer *)

Inductive event :=
  | EvSave (p : Persister.t)        (* the persister now holds [p] *)
  | EvApply (m : ApplyMsg.t).       (* [rf.applych <- m] *)

Record Raft := mkRaft {
  mu : bool;                 (* left locked by an operation that returned *)
  peers : nat;               (* len(rf.peers) *)
  persister : Persister.t;
  me : Z;
  dead : bool;
  tp : Z;                    (* 0: follower, 1: candidate, 2: leader *)
  currentTerm : Z;
  votedFor : Z;
  log : list Log.t;
  commitIndex : Z;
  lastApplied : Z;
  nextIndex : list Z;
  matchIndex : list Z;
  voteCount : Z;
  timePassed : Z;
  timeout : Z;
  commitCount : list Z;
  startAppend : bool;
  snapshotIndex : Z;
  snapshotTerm : Z;
  Noop : bool;
  apps : list nat;           (* len(rf.apps[i]), channels of capacity 1 *)
  out : list event
}.

#[export] Instance eta_Raft : Eta Raft := λ r,
  mkRaft r.(mu) r.(peers) r.(persister) r.(me) r.(dead) r.(tp) r.(currentTerm)
    r.(votedFor) r.(log) r.(commitIndex) r.(lastApplied) r.(nextIndex)
    r.(matchIndex) r.(voteCount) r.(timePassed) r.(timeout) r.(commitCount)
    r.(startAppend) r.(snapshotIndex) r.(snapshotTerm) r.(Noop) r.(apps) r.(out).

(** [&Raft{}] with the fields [Make] sets first *)
Definition zero_Raft (n : nat) (me : Z) (p : Persister.t) : Raft :=
  mkRaft false n p me false 0 0 0 [] 0 0 [] [] 0 0 0 [] false 0 0 false [] [].

(** The dummy entry at index 0 of the log *)
Definition Log0 : Log.t := Log.mk INil 0.

(** ** Persistence

    What Raft needs of [encoding/gob]: integers, logs and snapshots can be
    written to a stream and read back, and an empty stream holds nothing. *)

Class RaftCodec := {
  rc_int :: Gob Z;
  rc_log :: Gob (list Log.t);
  rc_snap :: Gob SnapShot.t;
  rc_int_laws :: GobLaws Z;
  rc_log_laws :: GobLaws (list Log.t);
  rc_snap_laws :: GobLaws SnapShot.t;
  rc_snap_eof :: GobEof SnapShot.t
}.
