(* ===== verification/GobImpl.v ===== *)
(** A concrete encoder that satisfies the contract of [Gob.v]: every value is
    written with enough structure to be read back from the front of a stream.
    It is used where a closed instance is needed; nothing else depends on it. *)
From S2P Require Import Prelude Gob Iface RaftTypes.
From Stdlib Require Import Strings.Byte.

Module Impl.

(** ** A concrete encoder *)

Fixpoint nat_enc (n : nat) : bytes :=
match n with O => [x00] | S n => x01 :: nat_enc n end.

Fixpoint nat_dec (b : bytes) : option (nat * bytes) :=
match b with
| x00 :: b => Some (0%nat, b)
| x01 :: b => '(n, b) ← nat_dec b; Some (S n, b)
| _ => None
end.

#[export] Instance gob_nat : Gob nat := { gob_enc := nat_enc; gob_dec := nat_dec }.

#[export] Instance gob_Z : Gob Z := {
gob_enc z := (if 0 <=? z then x02 else x03) :: nat_enc (Z.abs_nat z);
gob_dec b :=
  match b with
  | x02 :: b => '(n, b) ← nat_dec b; Some (Z.of_nat n, b)
  | x03 :: b => '(n, b) ← nat_dec b; Some (- Z.of_nat n, b)
  | _ => None
  end
}.

#[export] Instance gob_bool : Gob bool := {
gob_enc z := [if z then x01 else x00];
gob_dec b :=
  match b with
  | x00 :: b => Some (false, b)
  | x01 :: b => Some (true, b)
  | _ => None
  end
}.

#[export] Instance gob_prod {A B} `{!Gob A, !Gob B} : Gob (A * B) := {
gob_enc p := gob_enc p.1 ++ gob_enc p.2;
gob_dec b := '(x, b) ← gob_dec b; '(y, b) ← gob_dec b; Some ((x, y), b)
}.

Fixpoint items_dec {A} `{!Gob A} (n : nat) (b : bytes) : option (list A * bytes) :=
match n with
| O => Some ([], b)
| S n => '(x, b) ← gob_dec b; '(l, b) ← items_dec n b; Some (x :: l, b)
end.

#[export] Instance gob_list {A} `{!Gob A} : Gob (list A) := {
gob_enc l := nat_enc (length l) ++ concat (gob_enc <$> l);
gob_dec b := '(n, b) ← nat_dec b; items_dec n b
}.

#[export] Instance gob_byte : Gob byte := {
gob_enc z := [z];
gob_dec b := match b with z :: b => Some (z, b) | [] => None end
}.

#[export] Instance gob_string : Gob string := {
gob_enc s := gob_enc (String.list_byte_of_string s);
gob_dec b := '(l, b) ← gob_dec (A := bytes) b; Some (String.string_of_list_byte l, b)
}.

#[export] Instance gob_gmap {K V} `{Countable K} `{!Gob K, !Gob V} : Gob (gmap K V) := {
gob_enc m := gob_enc (map_to_list m);
gob_dec b := '(l, b) ← gob_dec (A := list (K * V)) b; Some (list_to_map l, b)
}.

(** ** The encoder satisfies the contract *)

Lemma nat_dec_enc n rest : nat_dec (nat_enc n ++ rest) = Some (n, rest).
Proof. induction n as [|n IH]; simpl; [done|]. by rewrite IH. Qed.

Lemma nat_enc_nonempty n : nat_enc n ≠ [].
Proof. by destruct n. Qed.

#[export] Instance gob_nat_laws : GobLaws nat.
Proof. split; [apply nat_dec_enc|apply nat_enc_nonempty]. Qed.

#[export] Instance gob_Z_laws : GobLaws Z.
Proof.
split; simpl; [|done]. intros a rest. destruct (Z.leb_spec 0 a); simpl;
  rewrite nat_dec_enc; simpl; do 2 f_equal; lia.
Qed.

#[export] Instance gob_bool_laws : GobLaws bool.
Proof. split; by intros []. Qed.

#[export] Instance gob_byte_laws : GobLaws byte.
Proof. by split. Qed.

#[export] Instance gob_prod_laws {A B} `{!Gob A, !Gob B, !GobLaws A, !GobLaws B} :
GobLaws (A * B).
Proof.
split; simpl.
- intros [x y] rest. simpl. rewrite <- (assoc_L (++)).
  by rewrite gob_roundtrip; simpl; rewrite gob_roundtrip.
- intros [x y] [Hx _]%app_eq_nil. by apply gob_nonempty in Hx.
Qed.

Lemma items_dec_concat {A} `{!Gob A, !GobLaws A} (l : list A) rest :
items_dec (length l) (concat (gob_enc <$> l) ++ rest) = Some (l, rest).
Proof.
induction l as [|x l IH]; [done|].
rewrite fmap_cons. cbn [concat length items_dec].
by rewrite <- (assoc_L (++)), gob_roundtrip; simpl; rewrite IH.
Qed.

#[export] Instance gob_list_laws {A} `{!Gob A, !GobLaws A} : GobLaws (list A).
Proof.
split; simpl.
- intros l rest. rewrite <- (assoc_L (++)), nat_dec_enc. apply items_dec_concat.
- intros l [Hl _]%app_eq_nil. by apply nat_enc_nonempty in Hl.
Qed.

#[export] Instance gob_string_laws : GobLaws string.
Proof.
split; unfold gob_enc, gob_dec, gob_string.
- intros s rest. rewrite gob_roundtrip. simpl.
  by rewrite String.string_of_list_byte_of_string.
- intros s. apply gob_nonempty.
Qed.

#[export] Instance gob_gmap_laws {K V} `{Countable K} `{!Gob K, !Gob V, !GobLaws K, !GobLaws V} :
GobLaws (gmap K V).
Proof.
split; unfold gob_enc, gob_dec, gob_gmap.
- intros m rest. rewrite gob_roundtrip. simpl. by rewrite list_to_map_to_list.
- intros m. apply gob_nonempty.
Qed.
(** ** Commands, log entries and snapshots *)

#[export] Instance gob_Op : Gob Op.t := {
gob_enc o := gob_enc (o.(Op.Id), (o.(Op.Num), (o.(Op.Typ), (o.(Op.Key), o.(Op.Value)))));
gob_dec b :=
  '((i, (n, (t, (k, v)))), b) ← gob_dec (A := Z * (Z * (Z * (string * string)))) b;
  Some (Op.mk i n t k v, b)
}.

#[export] Instance gob_iface : Gob iface := {
gob_enc v :=
  match v with
  | INil => [x00]
  | IString s => x01 :: gob_enc s
  | IInt z => x02 :: gob_enc z
  | IOp o => x03 :: gob_enc o
  | IBytes l => x04 :: gob_enc l
  end;
gob_dec b :=
  match b with
  | x00 :: b => Some (INil, b)
  | x01 :: b => '(s, b) ← gob_dec (A := string) b; Some (IString s, b)
  | x02 :: b => '(z, b) ← gob_dec (A := Z) b; Some (IInt z, b)
  | x03 :: b => '(o, b) ← gob_dec (A := Op.t) b; Some (IOp o, b)
  | x04 :: b => '(l, b) ← gob_dec (A := bytes) b; Some (IBytes l, b)
  | _ => None
  end
}.

#[export] Instance gob_Op_laws : GobLaws Op.t.
Proof.
split; unfold gob_enc, gob_dec, gob_Op.
- intros [] rest. by rewrite gob_roundtrip.
- intros o. apply gob_nonempty.
Qed.

#[export] Instance gob_iface_laws : GobLaws iface.
Proof.
split.
- intros [] rest; cbn [gob_enc gob_dec gob_iface app]; rewrite ?gob_roundtrip; done.
- by intros [].
Qed.

#[export] Instance gob_Log : Gob Log.t := {
gob_enc e := gob_enc (e.(Log.Command), e.(Log.Term));
gob_dec b := '((c, t), b) ← gob_dec (A := iface * Z) b; Some (Log.mk c t, b)
}.

#[export] Instance gob_option {A} `{!Gob A} : Gob (option A) := {
gob_enc o := match o with None => gob_enc false | Some x => gob_enc true ++ gob_enc x end;
gob_dec b :=
  '(c, b) ← gob_dec (A := bool) b;
  if c : bool then '(x, b) ← gob_dec (A := A) b; Some (Some x, b) else Some (None, b)
}.

#[export] Instance gob_SnapShot : Gob SnapShot.t := {
gob_enc s := gob_enc (s.(SnapShot.Mp), (s.(SnapShot.LastIndex),
               (s.(SnapShot.LastTerm), s.(SnapShot.CliMap))));
gob_dec b :=
  '((m, (i, (t, c))), b) ←
    gob_dec (A := option (gmap string string) * (Z * (Z * option (gmap Z Z)))) b;
  Some (SnapShot.mk m i t c, b)
}.

#[export] Instance gob_Log_laws : GobLaws Log.t.
Proof.
split; unfold gob_enc, gob_dec, gob_Log.
- intros [] rest. by rewrite gob_roundtrip.
- intros o. apply gob_nonempty.
Qed.

Lemma option_dec_enc {A} `{!Gob A, !GobLaws A} (o : option A) rest :
gob_dec (gob_enc o ++ rest) = Some (o, rest).
Proof. destruct o; simpl; by rewrite ?gob_roundtrip. Qed.

#[export] Instance gob_option_laws {A} `{!Gob A, !GobLaws A} : GobLaws (option A).
Proof. split; [apply option_dec_enc|by intros []]. Qed.

#[export] Instance gob_SnapShot_laws : GobLaws SnapShot.t.
Proof.
split; unfold gob_enc, gob_dec, gob_SnapShot.
- intros [] rest. by rewrite gob_roundtrip.
- intros o. apply gob_nonempty.
Qed.

#[export] Instance gob_SnapShot_eof : GobEof SnapShot.t.
Proof. by split. Qed.

Definition codec : RaftCodec := {|
rc_int := gob_Z;
rc_log := gob_list;
rc_snap := gob_SnapShot;
rc_int_laws := _;
rc_log_laws := _;
rc_snap_laws := _;
rc_snap_eof := _
|}.

End Impl.

Definition codec : RaftCodec := Impl.codec.
