(* ===== verification/RaftPersist.v ===== *)
(** Persistence and start-up of a Raft peer ([src/src/raft/raft.go]): [persist],
    [readPersist], [readSnapRaft], [Make], and the small state updates that every
    handler uses.  The theorems say that what a peer has persisted is what it
    recovers with after a crash. *)
From S2P Require Import Prelude Gob Iface RaftTypes GobImpl.

Section ops.
Context `{!RaftCodec}.

(** *** Effects *)

Definition emit (e : event) (rf : Raft) : Raft := rf <| out := rf.(out) ++ [e] |>.

Definition save (p : Persister.t) (rf : Raft) : Raft :=
  emit (EvSave p) (rf <| persister := p |>).

(** The bytes of the persistent Raft state. *)
Definition statedata (rf : Raft) : bytes :=
  gob_enc rf.(currentTerm) ++ gob_enc rf.(votedFor) ++ gob_enc rf.(log).

Definition persist (rf : Raft) : Raft :=
  save (Persister.SaveRaftState (statedata rf) rf.(persister)) rf.

Definition saveStateAndSnapshot (snap : bytes) (rf : Raft) : Raft :=
  save (Persister.SaveStateAndSnapshot (statedata rf) snap rf.(persister)) rf.

(** *** Recovery *)

(** A failed decoding is [log.Fatalf]: the process is gone. *)
Definition readPersist (data : bytes) (rf : Raft) : option Raft :=
  if zlen data <? 1 then Some rf
  else
    '(term, rest) ← gob_dec (A := Z) data;
    '(vote, rest) ← gob_dec (A := Z) rest;
    '(l, _) ← gob_dec (A := list Log.t) rest;
    Some (rf <| currentTerm := term |> <| votedFor := vote |> <| log := l |>).

(** The error of [d.Decode(&snapshot)] is ignored: the snapshot stays zero. *)
Definition decodeSnapShot (data : bytes) : SnapShot.t :=
  match gob_dec (A := SnapShot.t) data with
  | Some (s, _) => s
  | None => SnapShot.zero
  end.

Definition readSnapRaft (data : bytes) (rf : Raft) : Raft :=
  let snapshot := decodeSnapShot data in
  rf <| snapshotIndex := snapshot.(SnapShot.LastIndex) |>
     <| snapshotTerm := snapshot.(SnapShot.LastTerm) |>.

(** *** Small updates *)

(** [600 + rand.Intn(600)] with the draw [r] *)
Definition resetTime (r : Z) (rf : Raft) : Raft :=
  rf <| timeout := 600 + r |> <| timePassed := 0 |>.

Definition termUpdate (newTerm tp' voteFor : Z) (rf : Raft) : Raft :=
  persist (rf <| currentTerm := newTerm |> <| tp := tp' |> <| votedFor := voteFor |>).

Definition GetState (rf : Raft) : Z * bool := (rf.(currentTerm), rf.(tp) =? 2).

Definition Kill (rf : Raft) : Raft := rf <| dead := true |>.
Definition killed (rf : Raft) : bool := rf.(dead).

(** The last index of the log, counted from the first entry ever. *)
Definition lastLogIndex (rf : Raft) : Z := zlen rf.(log) - 1 + rf.(snapshotIndex).

(** *** [Make] *)

(** Lines 642-651: the persisted state, or the initial one. *)
Definition Make_boot (rf : Raft) : option Raft :=
  rf ← readPersist rf.(persister).(Persister.raftstate) rf;
  let rf := if rf.(currentTerm) =? 0 then rf <| votedFor := -1 |> else rf in
  Some (if zlen rf.(log) =? 0 then rf <| log := rf.(log) ++ [Log0] |> else rf).

(** Lines 653-690. *)
Definition Make_init (r : Z) (rf : Raft) : option Raft :=
  let n := rf.(peers) in
  let rf := persist rf in
  let rf := rf <| nextIndex := replicate n (zlen rf.(log)) |>
               <| matchIndex := replicate n 0 |> in
  m ← zset rf.(matchIndex) rf.(me) (lastLogIndex rf);
  let rf := rf <| matchIndex := m |> in
  let rf := readSnapRaft (Persister.ReadSnapshot rf.(persister)) rf in
  let rf := rf <| commitIndex := rf.(snapshotIndex) |> <| lastApplied := 0 |> in
  let rf := resetTime r rf in
  Some (rf <| commitCount := [] |> <| apps := replicate n 0%nat |>).

Definition Make (n : nat) (me' : Z) (p : Persister.t) (r : Z) : option Raft :=
  rf ← Make_boot (zero_Raft n me' p);
  Make_init r rf.

(** ** What is on disk *)

(** The peer's persisted Raft state is its current one. *)
Definition durable (rf : Raft) : Prop :=
  rf.(persister).(Persister.raftstate) = statedata rf.

(** The last write of the persister is the last one in [out]. *)
Definition saves (evs : list event) : list Persister.t :=
  omap (λ e, match e with EvSave p => Some p | EvApply _ => None end) evs.

Definition applies (evs : list event) : list ApplyMsg.t :=
  omap (λ e, match e with EvSave _ => None | EvApply m => Some m end) evs.

(** *** Lemmas *)

Lemma durable_persist rf : durable (persist rf).
Proof. done. Qed.

Lemma applies_app l k : applies (l ++ k) = applies l ++ applies k.
Proof. apply omap_app. Qed.

Lemma applies_apply l : applies (EvApply <$> l) = l.
Proof. unfold applies. induction l as [|m l IH]; [done|]. cbn. by f_equal. Qed.

Lemma applies_persist rf : applies (persist rf).(out) = applies rf.(out).
Proof. cbn. rewrite applies_app. cbn. by rewrite app_nil_r. Qed.

Lemma durable_saveStateAndSnapshot s rf : durable (saveStateAndSnapshot s rf).
Proof. done. Qed.

Lemma durable_ext rf rf' :
  durable rf →
  rf'.(persister) = rf.(persister) → rf'.(currentTerm) = rf.(currentTerm) →
  rf'.(votedFor) = rf.(votedFor) → rf'.(log) = rf.(log) →
  durable rf'.
Proof. unfold durable, statedata. by intros ? -> -> -> ->. Qed.

Lemma statedata_nonempty rf : 1 ≤ zlen (statedata rf).
Proof.
  unfold statedata. rewrite zlen_app.
  assert (gob_enc rf.(currentTerm) ≠ []) by apply gob_nonempty.
  destruct (gob_enc rf.(currentTerm)); [done|]. zlen_lia.
Qed.

Lemma readPersist_statedata rf rf0 :
  readPersist (statedata rf) rf0 =
    Some (rf0 <| currentTerm := rf.(currentTerm) |>
              <| votedFor := rf.(votedFor) |> <| log := rf.(log) |>).
Proof.
  unfold readPersist. pose proof (statedata_nonempty rf).
  destruct (Z.ltb_spec (zlen (statedata rf)) 1); [lia|].
  unfold statedata. rewrite gob_roundtrip. simpl. rewrite gob_roundtrip. simpl.
  by rewrite <- (app_nil_r (gob_enc (log rf))), gob_roundtrip.
Qed.

Lemma decodeSnapShot_enc ss : decodeSnapShot (gob_enc ss) = ss.
Proof. unfold decodeSnapShot. by rewrite <- (app_nil_r (gob_enc ss)), gob_roundtrip. Qed.

Lemma decodeSnapShot_nil : decodeSnapShot [] = SnapShot.zero.
Proof. unfold decodeSnapShot. by rewrite gob_eof. Qed.

Lemma Make_init_spec r rf :
  0 ≤ rf.(me) < Z.of_nat rf.(peers) →
  ∃ rf0, Make_init r rf = Some rf0 ∧
    rf0.(currentTerm) = rf.(currentTerm) ∧ rf0.(votedFor) = rf.(votedFor) ∧
    rf0.(log) = rf.(log) ∧
    rf0.(snapshotIndex) =
      (decodeSnapShot rf.(persister).(Persister.snapshot)).(SnapShot.LastIndex) ∧
    rf0.(snapshotTerm) =
      (decodeSnapShot rf.(persister).(Persister.snapshot)).(SnapShot.LastTerm) ∧
    rf0.(commitIndex) = rf0.(snapshotIndex) ∧
    rf0.(tp) = rf.(tp) ∧ rf0.(voteCount) = rf.(voteCount) ∧ rf0.(me) = rf.(me) ∧
    rf0.(peers) = rf.(peers) ∧ length rf0.(nextIndex) = rf.(peers) ∧
    length rf0.(matchIndex) = rf.(peers) ∧
    rf0.(persister).(Persister.snapshot) = rf.(persister).(Persister.snapshot) ∧
    durable rf0.
Proof.
  intros Hme. unfold Make_init. cbn -[zset statedata decodeSnapShot zlen replicate lastLogIndex].
  set (last := lastLogIndex _).
  assert (zset (replicate (peers rf) 0) (me rf) last =
    Some (<[Z.to_nat (me rf) := last]> (replicate (peers rf) 0))) as ->.
  { apply zset_Some. split; [|done]. unfold zlen. rewrite length_replicate. lia. }
  cbn [mbind option_bind]. eexists. split; [done|].
  split_and!; try done; cbn; rewrite ?length_insert; by rewrite length_replicate.
Qed.

Lemma Make_boot_spec n me' p rf :
  p.(Persister.raftstate) = statedata rf → rf.(log) ≠ [] →
  Make_boot (zero_Raft n me' p) =
    Some ((zero_Raft n me' p) <| currentTerm := rf.(currentTerm) |>
      <| votedFor := (if rf.(currentTerm) =? 0 then -1 else rf.(votedFor)) |>
      <| log := rf.(log) |>).
Proof.
  intros Hp Hlog. unfold Make_boot. cbn [zero_Raft persister]. rewrite Hp, readPersist_statedata.
  cbn [mbind option_bind]. f_equal.
  assert ((zlen (log rf) =? 0) = false) as Hlen.
  { destruct (log rf); [done|]. apply Z.eqb_neq. zlen_lia. }
  cbn -[zlen]. destruct (currentTerm rf =? 0); cbn -[zlen]; by rewrite Hlen.
Qed.

(** What a new incarnation starts with. *)
Lemma Make_sends n me' p r rf : Make n me' p r = Some rf → applies rf.(out) = [].
Proof.
  unfold Make. intros (rf1 & Hb & Hi)%bind_Some.
  assert (rf1.(out) = []) as Ho.
  { unfold Make_boot in Hb. apply bind_Some in Hb as (rf0 & H0 & [= <-]).
    assert (rf0.(out) = []) as E0.
    { unfold readPersist in H0. destruct (_ <? _); [by injection H0 as <-|].
      apply bind_Some in H0 as ([] & _ & H0). apply bind_Some in H0 as ([] & _ & H0).
      apply bind_Some in H0 as ([] & _ & [= <-]). done. }
    by repeat case_match. }
  unfold Make_init in Hi. apply bind_Some in Hi as (m & _ & [= <-]). cbn. by rewrite Ho.
Qed.

Lemma Make_boot_fresh n me' :
  Make_boot (zero_Raft n me' Persister.MakePersister) =
    Some ((zero_Raft n me' Persister.MakePersister) <| votedFor := -1 |> <| log := [Log0] |>).
Proof. done. Qed.
End ops.

Arguments lastLogIndex : simpl never.

#[export] Hint Resolve durable_persist durable_saveStateAndSnapshot : slices.
