(* ===== verification/RaftLog.v ===== *)
(** Log replication on one peer ([src/src/raft/raft.go]): the handlers
    [AppendEntries] and [InstallSnapshot], log compaction [persistV2], the
    commit rule [updateCommit], and the searches [findEntry] and [findLast].

    The log is kept relative to the last snapshot: entry [i] of the log, for
    [1 <= i], has the absolute index [i + snapshotIndex]. *)
From S2P Require Import Prelude Gob Iface RaftTypes RaftPersist.

(** ** Searching the log *)

(** [for p >= 0 && rf.log[p].Term == term { res = p; p-- }], with [n = p + 1] *)
Fixpoint findEntry_loop (l : list Log.t) (term res : Z) (n : nat) : option Z :=
  match n with
  | O => Some res
  | S p =>
      e ← l !! p;
      if e.(Log.Term) =? term then findEntry_loop l term (Z.of_nat p) p else Some res
  end.

Definition findEntry (l : list Log.t) (p : Z) : option Z :=
  e ← zget l p;
  findEntry_loop l e.(Log.Term) 0 (Z.to_nat (p + 1)).

(** [for index := start; index >= 0; index-- { ... } return 0], with [n = index + 1] *)
Fixpoint findLast_loop (l : list Log.t) (t : Z) (n : nat) : option Z :=
  match n with
  | O => Some 0
  | S i =>
      e ← l !! i;
      if e.(Log.Term) =? t then Some (Z.of_nat i)
      else if e.(Log.Term) <? t then Some (-1)
      else findLast_loop l t i
  end.

Definition findLast (l : list Log.t) (t start : Z) : option Z :=
  findLast_loop l t (Z.to_nat (start + 1)).

Section log.
Context `{!RaftCodec}.

(** ** Delivery on the apply channel *)

(** [rf.applych <- ApplyMsg{true, rf.log[i].Command, i + rf.snapshotIndex}] *)
Definition applyAt (rf : Raft) (i : Z) : option Raft :=
  e ← zget rf.(log) i;
  Some (emit (EvApply (ApplyMsg.mk true e.(Log.Command) (i + rf.(snapshotIndex)))) rf).

(** The loop of [AppendEntries] sends every message twice. *)
Definition applyTwice (rf : Raft) (i : Z) : option Raft :=
  rf ← applyAt rf i; applyAt rf i.

(** ** AppendEntries *)

(** Lines 805-819: adopt a newer term, step down as a candidate. *)
Definition ae_term (args : RequestAppendArgs.t) (rf : Raft) : Raft :=
  if rf.(currentTerm) <? args.(RequestAppendArgs.Term) then
    termUpdate args.(RequestAppendArgs.Term) 0 (-1) rf
  else if (rf.(tp) =? 1) && (args.(RequestAppendArgs.Term) =? rf.(currentTerm)) then
    rf <| tp := 0 |>
  else rf.

(** [rf.log = append(base, entries...); rf.persist()] *)
Definition writeLog (base entries : list Log.t) (rf : Raft) : Raft :=
  persist (rf <| log := base ++ entries |>).

(** The test of line 835: the entry before the new ones is in the log. *)
Definition prevMatches (args : RequestAppendArgs.t) (rf : Raft) : option bool :=
  let prev := args.(RequestAppendArgs.PrevLogIndex) in
  if (rf.(snapshotIndex) <? prev) && (prev <? zlen rf.(log) + rf.(snapshotIndex)) then
    e ← zget rf.(log) (prev - rf.(snapshotIndex));
    Some (args.(RequestAppendArgs.PrevLogTerm) =? e.(Log.Term))
  else Some false.

(** [lastIndex < len(rf.log)-1+rf.snapshotIndex &&
    rf.log[lastIndex-rf.snapshotIndex].Term == args.Term] *)
Definition alreadyHave (args : RequestAppendArgs.t) (lastIndex : Z) (rf : Raft)
    : option bool :=
  if lastIndex <? zlen rf.(log) - 1 + rf.(snapshotIndex) then
    e ← zget rf.(log) (lastIndex - rf.(snapshotIndex));
    Some (e.(Log.Term) =? args.(RequestAppendArgs.Term))
  else Some false.

(** Lines 837-868: the previous entry is in the log. *)
Definition ae_match (args : RequestAppendArgs.t) (rf : Raft) : option Raft :=
  let prev := args.(RequestAppendArgs.PrevLogIndex) in
  let entries := args.(RequestAppendArgs.Entries) in
  let lastIndex := zlen entries + prev in
  if zlen rf.(log) - 1 + rf.(snapshotIndex) <=? lastIndex then
    temp ← zto rf.(log) (prev + 1 - rf.(snapshotIndex));
    Some (writeLog temp entries rf)
  else
    have ← alreadyHave args lastIndex rf;
    if have : bool then Some rf
    else
      temp ← zto rf.(log) (prev + 1 - rf.(snapshotIndex));
      Some (writeLog temp entries rf).

(** Lines 870-910: the previous entry is in the snapshot. *)
Definition ae_ahead (args : RequestAppendArgs.t) (rf : Raft) : option Raft :=
  let prev := args.(RequestAppendArgs.PrevLogIndex) in
  let entries := args.(RequestAppendArgs.Entries) in
  let lastIndex := zlen entries + prev in
  rf ←
    (if zlen entries - 1 <? rf.(snapshotIndex) - prev then Some rf
     else if zlen rf.(log) - 1 + rf.(snapshotIndex) <=? lastIndex then
       tail ← zfrom entries (rf.(snapshotIndex) - prev);
       Some (writeLog [Log0] tail rf)
     else
       have ← alreadyHave args lastIndex rf;
       if have : bool then Some rf
       else
         tail ← zfrom entries (rf.(snapshotIndex) - prev);
         Some (writeLog [Log0] tail rf));
  Some (persist rf).

(** Lines 914-941: the reply that lets the leader roll back. *)
Definition ae_conflict (args : RequestAppendArgs.t) (reply : RequestAppendReply.t)
    (rf : Raft) : option RequestAppendReply.t :=
  let prev := args.(RequestAppendArgs.PrevLogIndex) in
  let reply := reply <| RequestAppendReply.Success := false |> in
  if zlen rf.(log) + rf.(snapshotIndex) <=? prev then
    Some (reply <| RequestAppendReply.Miss := true |>
                <| RequestAppendReply.Len := zlen rf.(log) + rf.(snapshotIndex) |>)
  else
    e ← zget rf.(log) (prev - rf.(snapshotIndex));
    start ← findEntry rf.(log) (prev - rf.(snapshotIndex));
    Some (reply <| RequestAppendReply.TermConflict := e.(Log.Term) |>
                <| RequestAppendReply.TermStart := start + rf.(snapshotIndex) |>).

(** Lines 955-978: advance the commit index and apply. *)
Definition ae_commit (args : RequestAppendArgs.t) (rf : Raft) : option Raft :=
  if rf.(commitIndex) <? args.(RequestAppendArgs.LeaderCommit) then
    let pre := rf.(commitIndex) in
    let last := zlen rf.(log) - 1 + rf.(snapshotIndex) in
    let rf :=
      rf <| commitIndex :=
        if args.(RequestAppendArgs.LeaderCommit) <=? last
        then args.(RequestAppendArgs.LeaderCommit) else last |> in
    foldM applyTwice rf
      (zrange (pre + 1 - rf.(snapshotIndex)) (rf.(commitIndex) - rf.(snapshotIndex)))
  else Some rf.

Definition AppendEntries (r : Z) (args : RequestAppendArgs.t) (rf : Raft)
    : option (Raft * RequestAppendReply.t) :=
  let reply := RequestAppendReply.mk rf.(currentTerm) false false 0 0 0 in
  if args.(RequestAppendArgs.Term) <? rf.(currentTerm) then
    Some (rf, reply <| RequestAppendReply.Success := false |>)
  else
    let rf := ae_term args rf in
    m ← prevMatches args rf;
    if m : bool then
      rf ← ae_match args rf;
      rf ← ae_commit args rf;
      Some (resetTime r rf, reply <| RequestAppendReply.Success := true |>)
    else if args.(RequestAppendArgs.PrevLogIndex) <=? rf.(snapshotIndex) then
      rf ← ae_ahead args rf;
      rf ← ae_commit args rf;
      Some (resetTime r rf, reply <| RequestAppendReply.Success := true |>)
    else
      reply ← ae_conflict args reply rf;
      Some (resetTime r rf, reply).

(** ** InstallSnapshot *)

Definition is_term (args : SnapArg.t) (rf : Raft) : Raft :=
  if rf.(currentTerm) <? args.(SnapArg.Term) then
    termUpdate args.(SnapArg.Term) 0 (-1) rf
  else if (rf.(tp) =? 1) && (args.(SnapArg.Term) =? rf.(currentTerm)) then
    rf <| tp := 0 |>
  else rf.

(** The test of line 950: the log continues after the snapshot. *)
Definition snapMatches (args : SnapArg.t) (rf : Raft) : option bool :=
  if args.(SnapArg.LastIncludedIndex) <=? zlen rf.(log) - 1 + rf.(snapshotIndex) then
    e ← zget rf.(log) (args.(SnapArg.LastIncludedIndex) - rf.(snapshotIndex));
    Some (e.(Log.Term) =? args.(SnapArg.LastIncludedTerm))
  else Some false.

Definition InstallSnapshot (r : Z) (args : SnapArg.t) (rf : Raft)
    : option (Raft * SnapReply.t) :=
  let reply := SnapReply.mk rf.(currentTerm) in
  if args.(SnapArg.Term) <? rf.(currentTerm) then Some (rf, reply)
  else
    let rf := resetTime r rf in
    let rf := is_term args rf in
    if args.(SnapArg.LastIncludedIndex) <=? rf.(snapshotIndex) then Some (rf, reply)
    else
      let rf :=
        if rf.(commitIndex) <? args.(SnapArg.LastIncludedIndex)
        then rf <| commitIndex := args.(SnapArg.LastIncludedIndex) |> else rf in
      m ← snapMatches args rf;
      rf ←
        (if m : bool then
           tail ← zfrom rf.(log)
                    (args.(SnapArg.LastIncludedIndex) + 1 - rf.(snapshotIndex));
           Some (rf <| log := Log0 :: tail |>)
         else Some (persist (rf <| log := [Log0] |>)));
      let rf := saveStateAndSnapshot args.(SnapArg.Data) rf in
      let rf := rf <| snapshotIndex := args.(SnapArg.LastIncludedIndex) |>
                   <| snapshotTerm := args.(SnapArg.LastIncludedTerm) |> in
      Some (emit (EvApply (ApplyMsg.mk false (IBytes args.(SnapArg.Data)) 0)) rf, reply).

(** ** persistV2: discard the log a snapshot covers *)

Definition persistV2 (ss : SnapShot.t) (rf : Raft) : option Raft :=
  let last := ss.(SnapShot.LastIndex) in
  if last <=? rf.(snapshotIndex) then Some rf
  else if zlen rf.(log) - 1 <? last - rf.(snapshotIndex) then Some rf
  else
    e ← zget rf.(log) (last - rf.(snapshotIndex));
    let ss := ss <| SnapShot.LastTerm := e.(Log.Term) |> in
    tail ← zfrom rf.(log) (last - rf.(snapshotIndex) + 1);
    let rf := rf <| log := Log0 :: tail |> in
    next ← foldM (λ l i, x ← zget l i; zset l i (x + rf.(snapshotIndex) - last))
             rf.(nextIndex) (zrange 0 (Z.of_nat rf.(peers) - 1));
    let rf := rf <| nextIndex := next |> <| snapshotIndex := last |>
                 <| snapshotTerm := ss.(SnapShot.LastTerm) |> in
    Some (saveStateAndSnapshot (gob_enc ss) rf).

(** ** updateCommit *)

(** Lines 1790-1803: the match index at position [len(peers)/2] in increasing
    order. *)
Definition medianMatch (rf : Raft) : option Z :=
  let ps := zrange 0 (Z.of_nat rf.(peers) - 1) in
  _ ← mapM (zget rf.(matchIndex)) ps;   (* the comparisons index every element *)
  let key i := default 0 (zget rf.(matchIndex) i) in
  let ps := stable_sort (λ i j, key i <? key j) ps in
  i ← zget ps (Z.of_nat (rf.(peers) / 2));
  zget rf.(matchIndex) i.

Definition updateCommit (rf : Raft) : option Raft :=
  let pre := rf.(commitIndex) in
  temp ← medianMatch rf;
  let rf := if pre <? temp then rf <| commitIndex := temp |> else rf in
  if rf.(snapshotIndex) <=? pre then
    foldM applyAt rf
      (zrange (pre + 1 - rf.(snapshotIndex)) (rf.(commitIndex) - rf.(snapshotIndex)))
  else Some rf.

(** ** The log by absolute index *)

Definition absEntry (rf : Raft) (i : Z) : option Log.t :=
  if rf.(snapshotIndex) <? i then zget rf.(log) (i - rf.(snapshotIndex)) else None.

(** The term of the entry at an absolute index, the snapshot's last included. *)
Definition absTerm (rf : Raft) (i : Z) : option Z :=
  if i =? rf.(snapshotIndex) then Some rf.(snapshotTerm)
  else Log.Term <$> absEntry rf i.

(** What every operation of a peer maintains. *)
Record wf (rf : Raft) : Prop := {
  wf_log : ∃ l, rf.(log) = Log0 :: l;
  wf_snap : 0 ≤ rf.(snapshotIndex);
  wf_commit : rf.(snapshotIndex) ≤ rf.(commitIndex);
  wf_me : 0 ≤ rf.(me) < Z.of_nat rf.(peers);
  wf_next : length rf.(nextIndex) = rf.(peers);
  wf_match : length rf.(matchIndex) = rf.(peers)
}.

(** [rf'] is [rf] but for what the peer has emitted. *)
Definition same_state (rf rf' : Raft) : Prop := rf' <| out := rf.(out) |> = rf.
End log.

(** ** Lemmas on the searches *)

Lemma findEntry_loop_spec l term n s :
  findEntry_loop l term (Z.of_nat n) n = Some s →
  0 ≤ s ≤ Z.of_nat n ∧
  (∀ i, s ≤ i < Z.of_nat n → Log.Term <$> zget l i = Some term) ∧
  (s = 0 ∨ Log.Term <$> zget l (s - 1) ≠ Some term).
Proof.
  revert s. induction n as [|p IH]; intros s H; cbn [findEntry_loop] in H.
  - simplify_eq. split_and!; [lia|lia|intros; lia|by left].
  - apply bind_Some in H as (e & He & H). rewrite <- zget_lookup in He.
    destruct (Z.eqb_spec (Log.Term e) term) as [Heq|Hne].
    + apply IH in H as (H1 & H2 & H3). split_and!; [lia|lia| |done].
      intros i Hi. destruct (decide (i = Z.of_nat p)) as [->|]; [|apply H2; lia].
      rewrite He. simpl. by rewrite Heq.
    + simplify_eq. split_and!; [lia|lia|intros; lia|right].
      replace (Z.of_nat (S p) - 1) with (Z.of_nat p) by lia. rewrite He. simpl. congruence.
Qed.

Lemma findEntry_loop_total l term res n :
  (n ≤ length l)%nat → is_Some (findEntry_loop l term res n).
Proof.
  revert res. induction n as [|p IH]; intros res Hn; simpl; [by eexists|].
  destruct (lookup_lt_is_Some_2 l p) as [e ->]; [lia|]. simpl.
  case_match; [apply IH; lia|by eexists].
Qed.

(** The searched entry is in the block of its term that [findEntry] returns. *)
Lemma findEntry_total l p : 0 ≤ p < zlen l → is_Some (findEntry l p).
Proof.
  intros Hp. unfold findEntry. destruct (zget_lt l p Hp) as [e ->]. simpl.
  apply findEntry_loop_total. unfold zlen in Hp. lia.
Qed.

(** The first round of the loop always finds its own term. *)
Lemma findEntry_unfold l p e :
  zget l p = Some e →
  findEntry l p = findEntry_loop l e.(Log.Term) (Z.of_nat (Z.to_nat p)) (Z.to_nat p).
Proof.
  intros He. pose proof (zget_Some_range _ _ _ He). unfold findEntry. rewrite He.
  cbn [mbind option_bind]. replace (Z.to_nat (p + 1)) with (S (Z.to_nat p)) by lia.
  cbn [findEntry_loop]. rewrite <- zget_lookup, Z2Nat.id, He by lia.
  cbn [mbind option_bind]. by rewrite Z.eqb_refl.
Qed.

Lemma findEntry_bound l p s : findEntry l p = Some s → 0 ≤ s ≤ p.
Proof.
  intros Hs. destruct (zget l p) as [e|] eqn:He.
  - rewrite (findEntry_unfold _ _ _ He) in Hs. apply findEntry_loop_spec in Hs.
    apply zget_Some_range in He. lia.
  - unfold findEntry in Hs. by rewrite He in Hs.
Qed.

Lemma findLast_loop_total l t n :
  (n ≤ length l)%nat → is_Some (findLast_loop l t n).
Proof.
  induction n as [|p IH]; intros Hn; simpl; [by eexists|].
  destruct (lookup_lt_is_Some_2 l p) as [e ->]; [lia|]. simpl.
  repeat case_match; [by eexists..|apply IH; lia].
Qed.

Lemma findLast_total l t start : start < zlen l → is_Some (findLast l t start).
Proof. intros H. apply findLast_loop_total. unfold zlen in H. lia. Qed.

Lemma findLast_loop_bound l t n k :
  findLast_loop l t n = Some k → -1 ≤ k ∧ (k = 0 ∨ k < Z.of_nat n).
Proof.
  revert k. induction n as [|p IH]; intros k H; simpl in H; [simplify_eq; lia|].
  apply bind_Some in H as (e & He & H). repeat case_match; simplify_eq; [lia..|].
  apply IH in H. lia.
Qed.

Lemma findLast_bound l t start k :
  findLast l t start = Some k → 0 ≤ start → -1 ≤ k ≤ start.
Proof. intros H Hs. apply findLast_loop_bound in H. lia. Qed.

(** ** Delivery *)

Section delivery.
Context `{!RaftCodec}.

(** The message for the entry at position [i] of the log. *)
Definition applyMsg (l : list Log.t) (snap i : Z) : list ApplyMsg.t :=
  match zget l i with
  | Some e => [ApplyMsg.mk true e.(Log.Command) (i + snap)]
  | None => []
  end.

Lemma out_id rf : rf <| out := rf.(out) ++ [] |> = rf.
Proof. rewrite app_nil_r. by destruct rf. Qed.

Lemma foldM_emit (f : Raft → Z → option Raft) (g : list Log.t → Z → Z → list event) rf l :
  (∀ rf i, 0 ≤ i < zlen rf.(log) →
     f rf i = Some (rf <| out := rf.(out) ++ g rf.(log) rf.(snapshotIndex) i |>)) →
  Forall (λ i, 0 ≤ i < zlen rf.(log)) l →
  foldM f rf l =
    Some (rf <| out := rf.(out) ++ (l ≫= g rf.(log) rf.(snapshotIndex)) |>).
Proof.
  intros Hf. revert rf. induction l as [|i l IH]; intros rf Hl.
  - simpl. by rewrite out_id.
  - apply Forall_cons in Hl as [Hi Hl]. cbn [foldM].
    rewrite Hf by done. cbn [mbind option_bind]. rewrite IH by done. cbn.
    by rewrite <- (assoc_L (++)).
Qed.

Lemma applyAt_emit rf i :
  0 ≤ i < zlen rf.(log) →
  applyAt rf i =
    Some (rf <| out := rf.(out) ++
                  (EvApply <$> applyMsg rf.(log) rf.(snapshotIndex) i) |>).
Proof.
  intros Hi. unfold applyAt, applyMsg, emit. destruct (zget_lt _ _ Hi) as [e ->]. done.
Qed.

Lemma applyTwice_emit rf i :
  0 ≤ i < zlen rf.(log) →
  applyTwice rf i =
    Some (rf <| out := rf.(out) ++
                  (EvApply <$> (applyMsg rf.(log) rf.(snapshotIndex) i ++
                                applyMsg rf.(log) rf.(snapshotIndex) i)) |>).
Proof.
  intros Hi. unfold applyTwice. rewrite applyAt_emit by done. cbn -[applyAt].
  rewrite applyAt_emit by done. cbn. by rewrite fmap_app, <- (assoc_L (++)).
Qed.

Lemma zrange_Forall lo hi (n : Z) :
  0 ≤ lo → hi < n → Forall (λ i, 0 ≤ i < n) (zrange lo hi).
Proof. intros. apply Forall_forall. intros i Hi%elem_of_zrange. lia. Qed.

Lemma foldM_applyAt rf lo hi :
  0 ≤ lo → hi < zlen rf.(log) →
  foldM applyAt rf (zrange lo hi) =
    Some (rf <| out := rf.(out) ++
      (zrange lo hi ≫= λ i, EvApply <$> applyMsg rf.(log) rf.(snapshotIndex) i) |>).
Proof.
  intros. apply (foldM_emit _ (λ l s i, EvApply <$> applyMsg l s i)).
  - apply applyAt_emit.
  - by apply zrange_Forall.
Qed.

Lemma foldM_applyTwice rf lo hi :
  0 ≤ lo → hi < zlen rf.(log) →
  foldM applyTwice rf (zrange lo hi) =
    Some (rf <| out := rf.(out) ++
      (zrange lo hi ≫= λ i, EvApply <$> (applyMsg rf.(log) rf.(snapshotIndex) i ++
                                          applyMsg rf.(log) rf.(snapshotIndex) i)) |>).
Proof.
  intros. apply (foldM_emit _ (λ l s i, EvApply <$> (applyMsg l s i ++ applyMsg l s i))).
  - apply applyTwice_emit.
  - by apply zrange_Forall.
Qed.

(** *** The parts of [AppendEntries] *)

Lemma wf_log_len rf : wf rf → 1 ≤ zlen rf.(log).
Proof. intros [(l & ->) _ _ _ _ _]. zlen_lia. Qed.

Lemma ae_term_log args rf :
  (ae_term args rf).(log) = rf.(log) ∧
  (ae_term args rf).(snapshotIndex) = rf.(snapshotIndex) ∧
  (ae_term args rf).(commitIndex) = rf.(commitIndex).
Proof. unfold ae_term. repeat case_match; done. Qed.

Lemma ae_term_wf args rf : wf rf → wf (ae_term args rf).
Proof. intros []. unfold ae_term. repeat case_match; by split. Qed.

Lemma prevMatches_spec args rf :
  prevMatches args rf =
    Some (bool_decide (rf.(snapshotIndex) < args.(RequestAppendArgs.PrevLogIndex) ∧
            Log.Term <$> absEntry rf args.(RequestAppendArgs.PrevLogIndex) =
              Some args.(RequestAppendArgs.PrevLogTerm))).
Proof.
  unfold prevMatches, absEntry. set (prev := RequestAppendArgs.PrevLogIndex args).
  destruct (Z.ltb_spec (snapshotIndex rf) prev); simpl.
  - destruct (Z.ltb_spec prev (zlen (log rf) + snapshotIndex rf)).
    + destruct (zget_lt (log rf) (prev - snapshotIndex rf)) as [e ->]; [lia|]. simpl.
      f_equal. symmetry. destruct (Z.eqb_spec (RequestAppendArgs.PrevLogTerm args) (Log.Term e)).
      * apply bool_decide_true. split; [done|by f_equal].
      * apply bool_decide_false. intros [_ [= ?]]. congruence.
    + f_equal. symmetry. apply bool_decide_false. intros [_ Hs].
      rewrite zget_ge in Hs by lia. done.
  - f_equal. symmetry. apply bool_decide_false. lia.
Qed.

(** The log that [AppendEntries] leaves: unchanged, or cut after
    [PrevLogIndex] and continued with the new entries. *)
Definition ae_result (args : RequestAppendArgs.t) (rf rf' : Raft) : Prop :=
  (∀ i, i ≤ args.(RequestAppendArgs.PrevLogIndex) → absEntry rf' i = absEntry rf i) ∧
  ((rf'.(log) = rf.(log) ∧
    (zlen args.(RequestAppendArgs.Entries) + args.(RequestAppendArgs.PrevLogIndex)
       ≤ rf.(snapshotIndex) ∨
     zlen args.(RequestAppendArgs.Entries) + args.(RequestAppendArgs.PrevLogIndex)
       < lastLogIndex rf ∧
     Log.Term <$> absEntry rf (zlen args.(RequestAppendArgs.Entries) +
                               args.(RequestAppendArgs.PrevLogIndex)) =
       Some args.(RequestAppendArgs.Term))) ∨
   (∀ i, args.(RequestAppendArgs.PrevLogIndex) < i → rf.(snapshotIndex) < i →
      absEntry rf' i = zget args.(RequestAppendArgs.Entries)
                         (i - args.(RequestAppendArgs.PrevLogIndex) - 1))).

Lemma alreadyHave_spec args lastIndex rf :
  rf.(snapshotIndex) < lastIndex →
  alreadyHave args lastIndex rf =
    Some (bool_decide (lastIndex < lastLogIndex rf ∧
      Log.Term <$> absEntry rf lastIndex = Some args.(RequestAppendArgs.Term))).
Proof.
  intros Hs. unfold alreadyHave, absEntry, lastLogIndex.
  destruct (Z.ltb_spec (snapshotIndex rf) lastIndex); [|lia].
  destruct (Z.ltb_spec lastIndex (zlen (log rf) - 1 + snapshotIndex rf)).
  - destruct (zget_lt (log rf) (lastIndex - snapshotIndex rf)) as [e ->]; [lia|]. simpl.
    f_equal. symmetry. destruct (Z.eqb_spec (Log.Term e) (RequestAppendArgs.Term args)).
    + apply bool_decide_true. split; [lia|by f_equal].
    + apply bool_decide_false. intros [_ [= ?]]. congruence.
  - f_equal. symmetry. apply bool_decide_false. lia.
Qed.

Lemma applies_writeLog base entries rf :
  applies (writeLog base entries rf).(out) = applies rf.(out).
Proof. unfold writeLog. by rewrite applies_persist. Qed.

Lemma writeLog_wf base entries rf :
  (∃ l, base = Log0 :: l) → wf rf → wf (writeLog base entries rf).
Proof. intros [l ->] []. split; try done. by exists (l ++ entries). Qed.

Lemma ae_match_spec args rf :
  wf rf →
  rf.(snapshotIndex) < args.(RequestAppendArgs.PrevLogIndex) →
  args.(RequestAppendArgs.PrevLogIndex) < zlen rf.(log) + rf.(snapshotIndex) →
  ∃ rf', ae_match args rf = Some rf' ∧ wf rf' ∧ ae_result args rf rf' ∧
    rf'.(snapshotIndex) = rf.(snapshotIndex) ∧ rf'.(commitIndex) = rf.(commitIndex) ∧
    applies rf'.(out) = applies rf.(out).
Proof.
  intros Hwf Hlo Hhi. unfold ae_match.
  set (prev := RequestAppendArgs.PrevLogIndex args) in *.
  set (entries := RequestAppendArgs.Entries args).
  assert (zto (log rf) (prev + 1 - snapshotIndex rf) =
          Some (take (Z.to_nat (prev + 1 - snapshotIndex rf)) (log rf))) as Hto.
  { apply zto_Some. split; [lia|done]. }
  set (rfw := writeLog (take (Z.to_nat (prev + 1 - snapshotIndex rf)) (log rf)) entries rf).
  assert (wf rfw ∧ ae_result args rf rfw) as [Hw Hr].
  { split.
    - apply writeLog_wf; [|done]. destruct (wf_log _ Hwf) as [l ->].
      replace (Z.to_nat (prev + 1 - snapshotIndex rf))
        with (S (Z.to_nat (prev - snapshotIndex rf))) by lia. by eexists.
    - split; [|right]; intros i Hi; unfold absEntry; cbn.
      + destruct (Z.ltb_spec (snapshotIndex rf) i); [|done].
        rewrite zget_app_l, zget_take; [done|lia|rewrite zlen_take; lia].
      + intros Hs. destruct (Z.ltb_spec (snapshotIndex rf) i); [|lia].
        rewrite zget_app_r; rewrite zlen_take; [f_equal; lia|lia]. }
  rewrite Hto. case_match.
  { eexists. split_and!; [done..|]. apply applies_writeLog. }
  rewrite alreadyHave_spec by (pose proof (zlen_nonneg entries); lia).
  cbn [mbind option_bind]. case_bool_decide as Hd.
  2: { eexists. split_and!; [done..|]. apply applies_writeLog. }
  exists rf. split_and!; [done..| |done|done|done].
  split; [done|]. left. split; [done|]. right. exact Hd.
Qed.

Lemma ae_ahead_spec args rf :
  wf rf →
  args.(RequestAppendArgs.PrevLogIndex) ≤ rf.(snapshotIndex) →
  ∃ rf', ae_ahead args rf = Some rf' ∧ wf rf' ∧ ae_result args rf rf' ∧
    rf'.(snapshotIndex) = rf.(snapshotIndex) ∧ rf'.(commitIndex) = rf.(commitIndex) ∧
    applies rf'.(out) = applies rf.(out).
Proof.
  intros Hwf Hle. unfold ae_ahead.
  set (prev := RequestAppendArgs.PrevLogIndex args) in *.
  set (entries := RequestAppendArgs.Entries args).
  assert (∀ rf0, wf rf0 → ae_result args rf rf0 →
            snapshotIndex rf0 = snapshotIndex rf → commitIndex rf0 = commitIndex rf →
            applies (out rf0) = applies (out rf) →
            ∃ rf', Some (persist rf0) = Some rf' ∧ wf rf' ∧ ae_result args rf rf' ∧
              snapshotIndex rf' = snapshotIndex rf ∧ commitIndex rf' = commitIndex rf ∧
              applies (out rf') = applies (out rf))
    as Hfin.
  { intros rf0 Hw Hr Hs Hc Ho. eexists. split; [done|].
    split; [destruct Hw; by split|]. split_and!; [done..|]. by rewrite applies_persist. }
  destruct (Z.ltb_spec (zlen entries - 1) (snapshotIndex rf - prev)).
  { apply Hfin; [done| |done|done|done]. split; [done|].
    left. split; [done|]. left. subst prev entries. lia. }
  assert (zfrom entries (snapshotIndex rf - prev) =
          Some (drop (Z.to_nat (snapshotIndex rf - prev)) entries)) as Hfrom.
  { apply zfrom_Some. split; [lia|done]. }
  set (rfw := writeLog [Log0] (drop (Z.to_nat (snapshotIndex rf - prev)) entries) rf).
  assert (wf rfw ∧ ae_result args rf rfw) as [Hw Hr].
  { split; [apply writeLog_wf; [by eexists|done]|].
    split; [|right]; intros i Hi; unfold absEntry; cbn.
    - destruct (Z.ltb_spec (snapshotIndex rf) i); [subst prev; lia|done].
    - intros Hs. destruct (Z.ltb_spec (snapshotIndex rf) i); [|lia]. subst prev entries.
      rewrite zget_cons_pos, zget_drop by lia. f_equal. lia. }
  assert (applies (out rfw) = applies (out rf)) as Ho.
  { apply applies_writeLog. }
  rewrite Hfrom. case_match; [by apply Hfin|].
  rewrite alreadyHave_spec by lia. cbn [mbind option_bind].
  case_bool_decide as Hd; [|by apply Hfin].
  apply Hfin; [done| |done|done|done]. split; [done|]. left. split; [done|]. right. exact Hd.
Qed.

(** [ae_commit] cannot panic: the entries it applies are in the log. *)
Lemma ae_commit_spec args rf :
  wf rf →
  ∃ c evs, ae_commit args rf =
      Some (rf <| commitIndex := c |> <| out := rf.(out) ++ evs |>) ∧
    c = (if rf.(commitIndex) <? args.(RequestAppendArgs.LeaderCommit)
         then Z.min args.(RequestAppendArgs.LeaderCommit) (lastLogIndex rf)
         else rf.(commitIndex)) ∧
    rf.(snapshotIndex) ≤ c ∧
    evs = (zrange (rf.(commitIndex) + 1 - rf.(snapshotIndex)) (c - rf.(snapshotIndex)) ≫=
           λ i, EvApply <$> (applyMsg rf.(log) rf.(snapshotIndex) i ++
                             applyMsg rf.(log) rf.(snapshotIndex) i)).
Proof.
  intros Hwf. pose proof (wf_log_len _ Hwf). pose proof (wf_commit _ Hwf).
  unfold ae_commit, lastLogIndex.
  destruct (Z.ltb_spec (commitIndex rf) (RequestAppendArgs.LeaderCommit args)).
  - set (c := if _ <=? _ then _ else _).
    assert (c = Z.min (RequestAppendArgs.LeaderCommit args)
                  (zlen (log rf) - 1 + snapshotIndex rf)) as Hc.
    { subst c. case_match; to_prop; lia. }
    exists c. eexists. split_and!; [|done|lia|done].
    rewrite foldM_applyTwice; cbn -[zrange applyTwice]; [done|lia|lia].
  - exists (commitIndex rf), []. split_and!; [|done|done|].
    + rewrite app_nil_r. by destruct rf.
    + by rewrite zrange_nil by lia.
Qed.

(** The rollback information is always found: it concerns an entry of the log. *)
Lemma ae_conflict_total args reply rf :
  wf rf → rf.(snapshotIndex) < args.(RequestAppendArgs.PrevLogIndex) →
  ∃ reply', ae_conflict args reply rf = Some reply' ∧
    reply'.(RequestAppendReply.Success) = false ∧
    reply'.(RequestAppendReply.Term) = reply.(RequestAppendReply.Term).
Proof.
  intros Hwf Hs. unfold ae_conflict. case_match; to_prop; [by eexists|].
  destruct (zget_lt (log rf) (RequestAppendArgs.PrevLogIndex args - snapshotIndex rf))
    as [e ->]; [lia|].
  destruct (findEntry_total (log rf) (RequestAppendArgs.PrevLogIndex args - snapshotIndex rf))
    as [s ->]; [lia|]. by eexists.
Qed.

(** The leader's previous entry is in the snapshot or in the log. *)
Definition consistent (args : RequestAppendArgs.t) (rf : Raft) : Prop :=
  args.(RequestAppendArgs.PrevLogIndex) ≤ rf.(snapshotIndex) ∨
  Log.Term <$> absEntry rf args.(RequestAppendArgs.PrevLogIndex) =
    Some args.(RequestAppendArgs.PrevLogTerm).

#[global] Instance consistent_dec args rf : Decision (consistent args rf).
Proof. unfold consistent. apply _. Defined.

(** The messages [ae_commit] sends: every newly committed entry, twice. *)
Definition twice_msgs (l : list Log.t) (snap lo hi : Z) : list ApplyMsg.t :=
  zrange (lo - snap) (hi - snap) ≫= λ i, applyMsg l snap i ++ applyMsg l snap i.

Lemma applies_twice l snap js :
  applies (js ≫= λ i, EvApply <$> (applyMsg l snap i ++ applyMsg l snap i)) =
  js ≫= λ i, applyMsg l snap i ++ applyMsg l snap i.
Proof.
  induction js as [|i js IH]; [done|]. cbn [mbind list_bind].
  by rewrite applies_app, applies_apply, IH.
Qed.

(** What a successful [AppendEntries] does to the log, to the commit index
    and to the apply channel. *)
Definition accepted (args : RequestAppendArgs.t) (rf rf' : Raft) : Prop :=
  ae_result args rf rf' ∧
  rf'.(commitIndex) =
    (if rf.(commitIndex) <? args.(RequestAppendArgs.LeaderCommit)
     then Z.min args.(RequestAppendArgs.LeaderCommit) (lastLogIndex rf')
     else rf.(commitIndex)) ∧
  applies rf'.(out) = applies rf.(out) ++
    twice_msgs rf'.(log) rf'.(snapshotIndex) (rf.(commitIndex) + 1) rf'.(commitIndex).

Lemma ae_commit_accepted args rf rf2 :
  wf rf2 → ae_result args rf rf2 → rf2.(snapshotIndex) = rf.(snapshotIndex) →
  rf2.(commitIndex) = rf.(commitIndex) → applies rf2.(out) = applies rf.(out) →
  ∃ rf3, ae_commit args rf2 = Some rf3 ∧ wf rf3 ∧
    rf3.(snapshotIndex) = rf.(snapshotIndex) ∧ accepted args rf rf3.
Proof.
  intros Hwf Hr Hs2 Hc2 Ho2.
  destruct (ae_commit_spec args rf2 Hwf) as (c & evs & Heq & -> & Hcs & ->).
  eexists. split; [exact Heq|]. split; [destruct Hwf; by split|].
  split; [done|]. split; [exact Hr|]. cbn -[zrange applies]. split; [by rewrite Hc2|].
  rewrite applies_app, applies_twice, Ho2, Hc2. done.
Qed.

Lemma ae_term_accepted args rf rf' :
  accepted args (ae_term args rf) rf' → accepted args rf rf'.
Proof.
  destruct (ae_term_log args rf) as (Hl & Hs & Hc).
  assert (applies (out (ae_term args rf)) = applies (out rf)) as Ho.
  { unfold ae_term, termUpdate. repeat case_match; rewrite ?applies_persist; done. }
  unfold accepted, ae_result, absEntry, lastLogIndex. by rewrite Hl, Hs, Hc, Ho.
Qed.

(** [AppendEntries] from a peer that is not behind, on every branch. *)
Lemma AppendEntries_spec r args rf :
  wf rf → rf.(currentTerm) ≤ args.(RequestAppendArgs.Term) →
  ∃ rf' reply, AppendEntries r args rf = Some (rf', reply) ∧ wf rf' ∧
    rf'.(snapshotIndex) = rf.(snapshotIndex) ∧
    reply.(RequestAppendReply.Term) = rf.(currentTerm) ∧
    reply.(RequestAppendReply.Success) = bool_decide (consistent args rf) ∧
    if decide (consistent args rf) then accepted args rf rf'
    else
      rf'.(log) = rf.(log) ∧ rf'.(commitIndex) = rf.(commitIndex) ∧
      ae_conflict args (RequestAppendReply.mk rf.(currentTerm) false false 0 0 0) rf =
        Some reply.
Proof.
  intros Hwf Hterm. unfold AppendEntries.
  destruct (Z.ltb_spec (RequestAppendArgs.Term args) (currentTerm rf)); [lia|].
  destruct (ae_term_log args rf) as (Hl & Hs & Hc).
  pose proof (ae_term_wf args rf Hwf) as Hwf1.
  assert (∀ i, absEntry (ae_term args rf) i = absEntry rf i) as Habs.
  { intros i. unfold absEntry. by rewrite Hl, Hs. }
  rewrite prevMatches_spec. cbn [mbind option_bind]. rewrite Habs, Hs.
  case_bool_decide as Hm.
  - destruct (decide (consistent args rf)) as [Hcons|[]]; [|by right; apply Hm].
    rewrite (bool_decide_true _ Hcons).
    destruct (ae_match_spec args (ae_term args rf))
      as (rf2 & -> & Hw2 & Hr2 & Hs2 & Hc2 & Ho2); [done|lia| |].
    { destruct Hm as [Hlt Hm]. apply fmap_Some in Hm as (e & He & _). unfold absEntry in He.
      case_match; [|done]. apply zget_Some_range in He. rewrite Hl, Hs. lia. }
    destruct (ae_commit_accepted args (ae_term args rf) rf2)
      as (rf3 & Heq & Hw3 & Hs3 & Ha3); [done..|].
    cbn [mbind option_bind]. rewrite Heq. eexists _, _. split; [done|].
    split; [destruct Hw3; by split|]. split; [cbn; congruence|]. split; [done|]. split; [done|].
    apply ae_term_accepted, Ha3.
  - destruct (Z.leb_spec (RequestAppendArgs.PrevLogIndex args) (snapshotIndex rf)) as [Hle|Hgt].
    + destruct (decide (consistent args rf)) as [Hcons|[]]; [|by left].
      rewrite (bool_decide_true _ Hcons).
      destruct (ae_ahead_spec args (ae_term args rf))
        as (rf2 & -> & Hw2 & Hr2 & Hs2 & Hc2 & Ho2); [done|lia|].
      destruct (ae_commit_accepted args (ae_term args rf) rf2)
        as (rf3 & Heq & Hw3 & Hs3 & Ha3); [done..|].
      cbn [mbind option_bind]. rewrite Heq. eexists _, _. split; [done|].
      split; [destruct Hw3; by split|]. split; [cbn; congruence|]. split; [done|]. split; [done|].
      apply ae_term_accepted, Ha3.
    + destruct (decide (consistent args rf)) as [[?|?]|Hcons]; [lia|naive_solver|].
      rewrite (bool_decide_false _ Hcons).
      destruct (ae_conflict_total args
        (RequestAppendReply.mk rf.(currentTerm) false false 0 0 0) (ae_term args rf))
        as (reply & Hreply & Hsucc & Hterm'); [done|lia|].
      rewrite Hreply. cbn [mbind option_bind]. eexists _, _. split; [done|].
      split; [destruct Hwf1; by split|]. split_and!; [done|done|done|done|done|].
      unfold ae_conflict in *. by rewrite Hl, Hs in Hreply.
Qed.

Lemma applyMsg_abs rf i :
  rf.(snapshotIndex) < i ≤ lastLogIndex rf →
  ∃ m, applyMsg rf.(log) rf.(snapshotIndex) (i - rf.(snapshotIndex)) = [m] ∧
    m.(ApplyMsg.CommandIndex) = i ∧ m.(ApplyMsg.CommandValid) = true ∧
    Some m.(ApplyMsg.Command) = Log.Command <$> absEntry rf m.(ApplyMsg.CommandIndex).
Proof.
  intros Hi. unfold lastLogIndex in Hi. unfold applyMsg, absEntry.
  destruct (zget_lt (log rf) (i - snapshotIndex rf)) as [e He]; [lia|]. rewrite He.
  eexists. split; [done|]. cbn. rewrite Z.sub_simpl_r.
  destruct (Z.ltb_spec (snapshotIndex rf) i); [|lia]. by rewrite He.
Qed.

(** The indices and the commands of the delivered messages. *)
Lemma twice_msgs_list rf js :
  Forall (λ i, rf.(snapshotIndex) < i ≤ lastLogIndex rf) js →
  let msgs := js ≫= λ i, applyMsg rf.(log) rf.(snapshotIndex) (i - rf.(snapshotIndex)) ++
                         applyMsg rf.(log) rf.(snapshotIndex) (i - rf.(snapshotIndex)) in
  ApplyMsg.CommandIndex <$> msgs = (js ≫= λ i, [i; i]) ∧
  Forall (λ m, ApplyMsg.CommandValid m = true ∧
    Some (ApplyMsg.Command m) = Log.Command <$> absEntry rf (ApplyMsg.CommandIndex m)) msgs.
Proof.
  induction 1 as [|i js Hi _ [IH1 IH2]]; [done|]. cbn [mbind list_bind] in *.
  destruct (applyMsg_abs rf i Hi) as (m & -> & Hm & Hv & Hc).
  cbn [app]. rewrite !fmap_cons, IH1, Hm. split; [done|].
  repeat constructor; try done; by rewrite <- Hc.
Qed.

Lemma zrange_shift lo hi s : zrange (lo - s) (hi - s) = (λ i, i - s) <$> zrange lo hi.
Proof.
  unfold zrange. replace (hi - s + 1 - (lo - s)) with (hi + 1 - lo) by lia.
  rewrite <- list_fmap_compose. apply list_fmap_ext. intros i x _. simpl. lia.
Qed.

Lemma twice_msgs_spec rf lo hi :
  rf.(snapshotIndex) < lo → hi < lo ∨ hi ≤ lastLogIndex rf →
  let msgs := twice_msgs rf.(log) rf.(snapshotIndex) lo hi in
  ApplyMsg.CommandIndex <$> msgs = (zrange lo hi ≫= λ i, [i; i]) ∧
  Forall (λ m, ApplyMsg.CommandValid m = true ∧
    Some (ApplyMsg.Command m) = Log.Command <$> absEntry rf (ApplyMsg.CommandIndex m)) msgs.
Proof.
  intros Hlo Hhi. unfold twice_msgs. rewrite zrange_shift, list_fmap_bind.
  apply (twice_msgs_list rf). apply Forall_forall. intros i Hi%elem_of_zrange. lia.
Qed.
End delivery.
