(* ===== verification/RaftLogProps.v ===== *)
(** Properties of log replication: the searches, [AppendEntries], log
    compaction, snapshot installation and the commit rule of [RaftLog.v]. *)
From S2P Require Import Prelude Gob Iface RaftTypes RaftPersist RaftLog GobImpl.

Section snapshots.
Context `{!RaftCodec}.

(** ** Log compaction *)

(** The snapshot covers entries of the log that are past the last snapshot. *)
Definition compacts (ss : SnapShot.t) (rf : Raft) : Prop :=
  rf.(snapshotIndex) < ss.(SnapShot.LastIndex) ≤ lastLogIndex rf.

Lemma persistV2_skip ss rf : ¬ compacts ss rf → persistV2 ss rf = Some rf.
Proof.
  unfold compacts, persistV2, lastLogIndex. intros Hn. repeat case_match; to_prop; try done.
  lia.
Qed.

Lemma persistV2_spec ss rf :
  wf rf → compacts ss rf →
  ∃ e rf', persistV2 ss rf = Some rf' ∧
    absEntry rf ss.(SnapShot.LastIndex) = Some e ∧
    rf' = saveStateAndSnapshot
      (gob_enc (ss <| SnapShot.LastTerm := e.(Log.Term) |>))
      (rf <| log := Log0 :: drop (Z.to_nat (ss.(SnapShot.LastIndex) - rf.(snapshotIndex) + 1)) rf.(log) |>
          <| nextIndex := (λ x, x + rf.(snapshotIndex) - ss.(SnapShot.LastIndex)) <$> rf.(nextIndex) |>
          <| snapshotIndex := ss.(SnapShot.LastIndex) |>
          <| snapshotTerm := e.(Log.Term) |>).
Proof.
  intros Hwf [Hlo Hhi]. unfold lastLogIndex in Hhi. unfold persistV2, absEntry.
  set (last := SnapShot.LastIndex ss) in *.
  destruct (Z.leb_spec last (snapshotIndex rf)); [lia|].
  destruct (Z.ltb_spec (zlen (log rf) - 1) (last - snapshotIndex rf)); [lia|].
  destruct (Z.ltb_spec (snapshotIndex rf) last); [|lia].
  destruct (zget_lt (log rf) (last - snapshotIndex rf)) as [e He]; [lia|].
  rewrite He. cbn [mbind option_bind].
  assert (zfrom (log rf) (last - snapshotIndex rf + 1) =
    Some (drop (Z.to_nat (last - snapshotIndex rf + 1)) (log rf))) as ->.
  { apply zfrom_Some. split; [lia|done]. }
  cbn [mbind option_bind]. cbn -[zrange zget zset foldM].
  rewrite (foldM_update (λ x, x + snapshotIndex rf - last)).
  2: { pose proof (wf_next _ Hwf). unfold zlen. lia. }
  eexists _, _. done.
Qed.

Lemma absEntry_drop rf rf' last i :
  rf.(snapshotIndex) < last → last < i →
  rf'.(snapshotIndex) = last →
  rf'.(log) = Log0 :: drop (Z.to_nat (last - rf.(snapshotIndex) + 1)) rf.(log) →
  absEntry rf' i = absEntry rf i.
Proof.
  intros ?? Hs Hl. unfold absEntry. rewrite Hs, Hl.
  destruct (Z.ltb_spec last i), (Z.ltb_spec (snapshotIndex rf) i); [|lia..].
  rewrite zget_cons_pos, zget_drop by lia. f_equal. lia.
Qed.

Lemma persistV2_view ss rf rf' :
  wf rf → compacts ss rf → persistV2 ss rf = Some rf' →
  (∀ i, ss.(SnapShot.LastIndex) < i → absEntry rf' i = absEntry rf i) ∧
  (∀ i, ss.(SnapShot.LastIndex) ≤ i → absTerm rf' i = absTerm rf i) ∧
  lastLogIndex rf' = lastLogIndex rf.
Proof.
  intros Hwf Hc Heq. destruct (persistV2_spec ss rf Hwf Hc) as (e & rf1 & Heq1 & He & Hrf1).
  rewrite Heq in Heq1. injection Heq1 as <-. destruct Hc as [Hlo Hhi].
  assert (∀ i, ss.(SnapShot.LastIndex) < i → absEntry rf' i = absEntry rf i) as Habs.
  { intros i Hi. apply (absEntry_drop _ _ ss.(SnapShot.LastIndex)); by rewrite ?Hrf1. }
  split_and!; [done| |].
  - intros i Hi. unfold absTerm.
    replace (snapshotIndex rf') with ss.(SnapShot.LastIndex) by by rewrite Hrf1.
    destruct (Z.eqb_spec i (SnapShot.LastIndex ss)) as [->|Hne].
    + destruct (Z.eqb_spec (SnapShot.LastIndex ss) (snapshotIndex rf)); [lia|].
      rewrite He, Hrf1. done.
    + destruct (Z.eqb_spec i (snapshotIndex rf)); [lia|]. rewrite Habs by lia. done.
  - rewrite Hrf1. unfold lastLogIndex in *. cbn -[drop]. zlen_lia.
Qed.

Lemma persistV2_wf ss rf rf' :
  wf rf → ss.(SnapShot.LastIndex) ≤ rf.(commitIndex) →
  persistV2 ss rf = Some rf' → wf rf'.
Proof.
  intros Hwf Hc Heq.
  destruct (decide (compacts ss rf)) as [Hd|Hd].
  - destruct (persistV2_spec ss rf Hwf Hd) as (e & rf1 & Heq1 & He & Hrf1).
    rewrite Heq in Heq1. injection Heq1 as <-. subst rf'. destruct Hd, Hwf.
    split; cbn; rewrite ?length_fmap; try done; [by eexists|lia].
  - rewrite persistV2_skip in Heq by done. by simplify_eq.
Qed.
End snapshots.

Section install.
Context `{!RaftCodec}.

(** ** Snapshot installation *)

Lemma is_term_state args rf :
  (is_term args rf).(log) = rf.(log) ∧
  (is_term args rf).(snapshotIndex) = rf.(snapshotIndex) ∧
  (is_term args rf).(commitIndex) = rf.(commitIndex) ∧
  (is_term args rf).(persister).(Persister.snapshot) = rf.(persister).(Persister.snapshot) ∧
  applies (is_term args rf).(out) = applies rf.(out).
Proof.
  unfold is_term, termUpdate. repeat case_match; rewrite ?applies_persist; done.
Qed.

Lemma is_term_wf args rf : wf rf → wf (is_term args rf).
Proof. intros []. unfold is_term. repeat case_match; by split. Qed.

Lemma is_term_durable args rf : durable rf → durable (is_term args rf).
Proof. intros Hd. unfold is_term. repeat case_match; done. Qed.

Lemma snapMatches_spec args rf :
  rf.(snapshotIndex) < args.(SnapArg.LastIncludedIndex) →
  snapMatches args rf =
    Some (bool_decide (Log.Term <$> absEntry rf args.(SnapArg.LastIncludedIndex) =
                       Some args.(SnapArg.LastIncludedTerm))).
Proof.
  intros Hs. unfold snapMatches, absEntry.
  set (last := SnapArg.LastIncludedIndex args) in *.
  destruct (Z.ltb_spec (snapshotIndex rf) last); [|lia].
  destruct (Z.leb_spec last (zlen (log rf) - 1 + snapshotIndex rf)).
  - destruct (zget_lt (log rf) (last - snapshotIndex rf)) as [e ->]; [lia|]. simpl. f_equal.
    symmetry. destruct (Z.eqb_spec (Log.Term e) (SnapArg.LastIncludedTerm args)).
    + apply bool_decide_true. by f_equal.
    + apply bool_decide_false. intros [= ?]. congruence.
  - f_equal. symmetry. apply bool_decide_false. by rewrite zget_ge by lia.
Qed.

(** The state a peer has after the snapshot of [args] replaced its prefix. *)
Definition installed (args : SnapArg.t) (rf rf' : Raft) : Prop :=
  rf'.(snapshotIndex) = args.(SnapArg.LastIncludedIndex) ∧
  rf'.(snapshotTerm) = args.(SnapArg.LastIncludedTerm) ∧
  rf'.(commitIndex) = Z.max rf.(commitIndex) args.(SnapArg.LastIncludedIndex) ∧
  (∀ i, args.(SnapArg.LastIncludedIndex) < i →
     absEntry rf' i =
       if decide (Log.Term <$> absEntry rf args.(SnapArg.LastIncludedIndex) =
                  Some args.(SnapArg.LastIncludedTerm))
       then absEntry rf i else None) ∧
  durable rf' ∧ rf'.(persister).(Persister.snapshot) = args.(SnapArg.Data) ∧
  applies rf'.(out) =
    applies rf.(out) ++ [ApplyMsg.mk false (IBytes args.(SnapArg.Data)) 0].

Lemma InstallSnapshot_spec r args rf :
  wf rf → rf.(currentTerm) ≤ args.(SnapArg.Term) →
  rf.(snapshotIndex) < args.(SnapArg.LastIncludedIndex) →
  ∃ rf', InstallSnapshot r args rf = Some (rf', SnapReply.mk rf.(currentTerm)) ∧
    wf rf' ∧ installed args rf rf'.
Proof.
  intros Hwf Ht Hs. unfold InstallSnapshot.
  destruct (Z.ltb_spec (SnapArg.Term args) (currentTerm rf)); [lia|].
  assert (wf (resetTime r rf)) as Hwf0 by (destruct Hwf; by split).
  destruct (is_term_state args (resetTime r rf)) as (Hl & Hsn & Hc & Hp & Ho).
  pose proof (is_term_wf args _ Hwf0) as Hwf1.
  set (rf1 := is_term args (resetTime r rf)) in *. clearbody rf1.
  cbn -[applies] in Hl, Hsn, Hc, Hp, Ho. rewrite Hsn.
  destruct (Z.leb_spec (SnapArg.LastIncludedIndex args) (snapshotIndex rf)); [lia|].
  set (rf2 := if commitIndex rf1 <? _ then _ else _).
  assert (wf rf2 ∧ log rf2 = log rf ∧ snapshotIndex rf2 = snapshotIndex rf ∧
    commitIndex rf2 = Z.max rf.(commitIndex) args.(SnapArg.LastIncludedIndex) ∧
    applies (out rf2) = applies (out rf)) as (Hwf2 & Hl2 & Hs2 & Hc2 & Ho2).
  { subst rf2. rewrite <- Hl, <- Hsn, <- Hc, <- Ho.
    case_match; to_prop; (split; [destruct Hwf1; split; cbn; done || lia|]);
      split_and!; cbn -[applies]; done || lia. }
  clearbody rf2. rewrite snapMatches_spec by lia. cbn [mbind option_bind].
  assert (∀ i, absEntry rf2 i = absEntry rf i) as Habs.
  { intros i. unfold absEntry. by rewrite Hl2, Hs2. }
  rewrite Habs. case_bool_decide as Hm.
  - assert (args.(SnapArg.LastIncludedIndex) ≤ lastLogIndex rf2) as Hlast.
    { apply fmap_Some in Hm as (e & He & _). unfold absEntry, lastLogIndex in *.
      case_match; [|done]. apply zget_Some_range in He. rewrite Hl2, Hs2. lia. }
    unfold lastLogIndex in Hlast.
    assert (zfrom (log rf2) (SnapArg.LastIncludedIndex args + 1 - snapshotIndex rf2) = Some
      (drop (Z.to_nat (SnapArg.LastIncludedIndex args - snapshotIndex rf2 + 1)) (log rf2)))
      as ->.
    { apply zfrom_Some. split; [lia|]. f_equal. lia. }
    eexists. split; [done|]. split.
    { destruct Hwf2. split; try done; cbn; [by eexists|lia..]. }
    split_and!; try done.
    + intros i Hi. rewrite decide_True by done. rewrite <- Habs.
      by apply (absEntry_drop _ _ args.(SnapArg.LastIncludedIndex)); cbn; rewrite ?Hs2.
    + cbn. rewrite !applies_app, Ho2. cbn. by rewrite app_nil_r.
  - eexists. split; [done|]. split.
    { destruct Hwf2. split; try done; cbn; [by eexists|lia..]. }
    split_and!; try done.
    + intros i Hi. rewrite decide_False by done. unfold absEntry. cbn.
      case_match; to_prop; [|done]. apply zget_ge. cbn. unfold zlen. cbn. lia.
    + cbn. rewrite !applies_app, Ho2. cbn. by rewrite !app_nil_r.
Qed.

(** The branches that install nothing. *)
Lemma InstallSnapshot_skip r args rf :
  args.(SnapArg.Term) < rf.(currentTerm) ∨
  args.(SnapArg.LastIncludedIndex) ≤ rf.(snapshotIndex) →
  ∃ rf', InstallSnapshot r args rf = Some (rf', SnapReply.mk rf.(currentTerm)) ∧
    (wf rf → wf rf') ∧
    rf'.(log) = rf.(log) ∧ rf'.(snapshotIndex) = rf.(snapshotIndex) ∧
    rf'.(commitIndex) = rf.(commitIndex) ∧ applies rf'.(out) = applies rf.(out).
Proof.
  intros Hskip. unfold InstallSnapshot.
  destruct (Z.ltb_spec (SnapArg.Term args) (currentTerm rf)); [by eexists|].
  destruct (is_term_state args (resetTime r rf)) as (Hl & Hsn & Hc & Hp & Ho).
  cbn -[applies] in Hl, Hsn, Hc, Hp, Ho.
  destruct (Z.leb_spec (SnapArg.LastIncludedIndex args)
    (snapshotIndex (is_term args (resetTime r rf)))); [|lia].
  eexists. split; [done|]. split_and!; try done.
  intros Hwf. apply is_term_wf. destruct Hwf; by split.
Qed.
End install.

Section commit.
Context `{!RaftCodec}.

(** ** The commit rule *)

(** How many peers hold the log up to index [v]. *)
Definition replicas (rf : Raft) (v : Z) : nat := count_if (λ m, v <=? m) rf.(matchIndex).

Lemma matchIndex_range rf :
  length rf.(matchIndex) = rf.(peers) →
  (λ i, default 0 (zget rf.(matchIndex) i)) <$> zrange 0 (Z.of_nat rf.(peers) - 1) =
  rf.(matchIndex).
Proof.
  intros Hlen. unfold zrange. rewrite Z.sub_simpl_r, Z.sub_0_r, Nat2Z.id, <- Hlen.
  apply list_eq. intros i. rewrite !list_lookup_fmap.
  destruct (decide (i < length rf.(matchIndex))%nat) as [Hi|Hi].
  - rewrite lookup_seq_lt by done. cbn [fmap option_fmap option_map].
    rewrite Nat.add_0_l, Z.add_0_l, zget_lookup. by destruct (lookup_lt_is_Some_2 _ _ Hi) as [m ->].
  - rewrite lookup_seq_ge by lia. symmetry. apply lookup_ge_None. lia.
Qed.

Lemma medianMatch_spec rf :
  length rf.(matchIndex) = rf.(peers) → (0 < rf.(peers))%nat →
  ∃ temp, medianMatch rf = Some temp ∧
    (rf.(peers) - rf.(peers) / 2 ≤ replicas rf temp)%nat ∧
    (∀ v, (rf.(peers) / 2 < replicas rf v)%nat → v ≤ temp).
Proof.
  intros Hlen Hpos. unfold medianMatch.
  set (ps := zrange 0 (Z.of_nat (peers rf) - 1)).
  set (key := λ i, default 0 (zget (matchIndex rf) i)).
  assert (length ps = peers rf) as Hps.
  { unfold ps, zrange. rewrite length_fmap, length_seq. lia. }
  assert (∃ k, mapM (zget (matchIndex rf)) ps = Some k) as [k ->].
  { apply mapM_is_Some. apply Forall_forall. intros i Hi%elem_of_zrange.
    apply zget_is_Some. unfold zlen. lia. }
  cbn [mbind option_bind].
  pose proof (stable_sort_Permutation (λ x y, key x <? key y) ps) as Hperm.
  pose proof (stable_sort_key_Sorted key ps) as Hsorted. cbn in Hperm, Hsorted.
  set (qs := stable_sort _ ps) in *. clearbody qs.
  assert (length qs = peers rf) as Hqs by (rewrite <- Hps; by apply Permutation_length).
  pose proof (Nat.div_lt (peers rf) 2) as Hdiv.
  rewrite zget_lookup.
  destruct (lookup_lt_is_Some_2 qs (peers rf / 2)) as [i Hi]; [lia|].
  rewrite Hi. cbn [mbind option_bind].
  assert (i ∈ ps) as Hin by (rewrite <- Hperm; by eapply list_elem_of_lookup_2).
  apply elem_of_zrange in Hin.
  assert (zget (matchIndex rf) i = Some (key i)) as Hkey.
  { unfold key. destruct (zget_lt (matchIndex rf) i) as [m ->]; [unfold zlen; lia|done]. }
  assert (∀ v, replicas rf v = count_if (λ j, v <=? key j) qs) as Hrep.
  { intros v. unfold replicas. rewrite <- (matchIndex_range rf Hlen), count_if_fmap.
    symmetry. by apply count_if_Permutation. }
  exists (key i). split; [done|]. split.
  - rewrite Hrep. pose proof (sorted_count_ge key qs (peers rf / 2) i Hsorted Hi). lia.
  - intros v Hv. destruct (Z.leb_spec v (key i)) as [|Hlt]; [done|].
    rewrite Hrep in Hv.
    pose proof (sorted_count_gt key qs (peers rf / 2) i v Hsorted Hi Hlt).
    pose proof (Nat.div_mod_eq (peers rf) 2). pose proof (Nat.mod_upper_bound (peers rf) 2).
    lia.
Qed.

Lemma applies_once l snap js :
  applies (js ≫= λ i, EvApply <$> applyMsg l snap i) = js ≫= applyMsg l snap.
Proof.
  induction js as [|i js IH]; [done|]. cbn [mbind list_bind].
  by rewrite applies_app, applies_apply, IH.
Qed.

Lemma once_msgs_list rf js :
  Forall (λ i, rf.(snapshotIndex) < i ≤ lastLogIndex rf) js →
  let msgs := js ≫= λ i, applyMsg rf.(log) rf.(snapshotIndex) (i - rf.(snapshotIndex)) in
  ApplyMsg.CommandIndex <$> msgs = js ∧
  Forall (λ m, Some (ApplyMsg.Command m) =
    Log.Command <$> absEntry rf (ApplyMsg.CommandIndex m)) msgs.
Proof.
  induction 1 as [|i js Hi _ [IH1 IH2]]; [done|]. cbn [mbind list_bind] in *.
  destruct (applyMsg_abs rf i Hi) as (m & -> & Hm & Hv & Hc).
  cbn [app]. rewrite !fmap_cons, IH1, Hm. split; [done|]. by constructor.
Qed.

(** *** What the commit rule leaves alone *)

Lemma applyAt_frame rf l rf' :
  foldM applyAt rf l = Some rf' → rf' = rf <| out := rf'.(out) |>.
Proof.
  revert rf. induction l as [|i l IH]; intros rf Heq; cbn [foldM] in Heq.
  - simplify_eq. by destruct rf'.
  - apply bind_Some in Heq as (rf1 & H1 & H2). apply IH in H2.
    unfold applyAt in H1. unbind. by destruct rf.
Qed.

Lemma updateCommit_frame rf rf' :
  updateCommit rf = Some rf' →
  rf' = rf <| commitIndex := rf'.(commitIndex) |> <| out := rf'.(out) |>.
Proof.
  unfold updateCommit. intros Heq. apply bind_Some in Heq as (temp & _ & Heq).
  set (rf1 := if _ <? temp then _ else _) in *.
  assert (rf1 = rf <| commitIndex := rf1.(commitIndex) |>) as H1.
  { subst rf1. clear Heq. case_match; by destruct rf. }
  clearbody rf1. case_match.
  - apply applyAt_frame in Heq. rewrite Heq, H1. by destruct rf.
  - simplify_eq. rewrite H1. by destruct rf.
Qed.

(** A leader's match indices are within its log, so nothing panics. *)
Lemma updateCommit_spec rf :
  wf rf → Forall (λ m, m ≤ lastLogIndex rf) rf.(matchIndex) →
  ∃ temp rf', medianMatch rf = Some temp ∧ updateCommit rf = Some rf' ∧ wf rf' ∧
    rf'.(commitIndex) = Z.max rf.(commitIndex) temp ∧
    ∃ msgs, applies rf'.(out) = applies rf.(out) ++ msgs ∧
      ApplyMsg.CommandIndex <$> msgs = zrange (rf.(commitIndex) + 1) rf'.(commitIndex) ∧
      Forall (λ m, Some (ApplyMsg.Command m) =
        Log.Command <$> absEntry rf (ApplyMsg.CommandIndex m)) msgs.
Proof.
  intros Hwf Hm.
  destruct (medianMatch_spec rf) as (temp & Hmed & H1 & H2);
    [apply wf_match, Hwf|pose proof (wf_me _ Hwf); lia|].
  assert (temp ≤ lastLogIndex rf) as Hle.
  { unfold medianMatch in Hmed. unbind. unfold zget in Hmed. case_decide; [|done].
    by apply (Forall_lookup_1 _ _ _ _ Hm) in Hmed. }
  unfold updateCommit. rewrite Hmed. cbn [mbind option_bind].
  pose proof (wf_commit _ Hwf). pose proof (wf_log_len _ Hwf).
  set (c := Z.max (commitIndex rf) temp).
  set (rf1 := if _ <? _ then _ else rf).
  assert (rf1 = rf <| commitIndex := c |>) as ->.
  { subst rf1 c. case_match; to_prop; [by rewrite Z.max_r by lia|].
    rewrite Z.max_l by lia. by destruct rf. }
  rewrite (proj2 (Z.leb_le (snapshotIndex rf <| commitIndex := c |>) _)) by done.
  exists temp. destruct (Z.le_gt_cases temp (commitIndex rf)) as [Ht|Ht].
  - rewrite zrange_nil by (cbn; lia). eexists. split_and!; [done|done| |done|].
    + destruct Hwf. split; try done. cbn. lia.
    + exists []. rewrite app_nil_r, zrange_nil by (cbn; lia). done.
  - rewrite foldM_applyAt; unfold lastLogIndex in *; cbn -[zrange applyMsg applies]; [|lia..].
    eexists. split_and!; [done|done| |done|].
    + destruct Hwf. split; try done. cbn. lia.
    + cbn -[zrange applyMsg applies]. eexists. split.
      * by rewrite applies_app, applies_once.
      * rewrite zrange_shift, list_fmap_bind. apply (once_msgs_list rf).
        apply Forall_forall. intros i Hi%elem_of_zrange. unfold lastLogIndex. lia.
Qed.
End commit.

(** ** The properties *)

Section properties.
Context `{!RaftCodec}.

(** C38: On every well-formed peer and for every message, [AppendEntries]
    returns (no index or slice bound is out of range) and leaves the peer
    well-formed; a message of an older term changes nothing. *)
Theorem AppendEntries_total r args rf :
  wf rf →
  ∃ rf' reply, AppendEntries r args rf = Some (rf', reply) ∧ wf rf' ∧
    reply.(RequestAppendReply.Term) = rf.(currentTerm) ∧
    (args.(RequestAppendArgs.Term) < rf.(currentTerm) →
       rf' = rf ∧ reply.(RequestAppendReply.Success) = false).
Proof.
  intros Hwf. destruct (Z.lt_ge_cases (RequestAppendArgs.Term args) (currentTerm rf)) as [Hlt|Hge].
  - exists rf, (RequestAppendReply.mk rf.(currentTerm) false false 0 0 0).
    split_and!; [|done|done|done]. unfold AppendEntries.
    destruct (Z.ltb_spec (RequestAppendArgs.Term args) (currentTerm rf)); [done|lia].
  - destruct (AppendEntries_spec r args rf Hwf Hge) as (rf' & reply & Heq & Hwf' & _ & Hterm & _).
    exists rf', reply. split_and!; [done|done|done|lia].
Qed.

(** C14: The consistency check and the log repair of [AppendEntries]: a message
    that is not behind succeeds exactly when the entry before the new ones is
    in the snapshot or in the log with the leader's term; then the entries up
    to [PrevLogIndex] are kept, and the rest of the log is either unchanged
    (the new entries end inside the snapshot, or the log already has an entry
    of the leader's term where they end) or exactly the new entries.
    Otherwise the log and the commit index do not change. *)
Theorem AppendEntries_log_repair r args rf :
  wf rf → rf.(currentTerm) ≤ args.(RequestAppendArgs.Term) →
  ∃ rf' reply, AppendEntries r args rf = Some (rf', reply) ∧
    (reply.(RequestAppendReply.Success) = true ↔ consistent args rf) ∧
    (consistent args rf → ae_result args rf rf') ∧
    (¬ consistent args rf → rf'.(log) = rf.(log) ∧ rf'.(commitIndex) = rf.(commitIndex)).
Proof.
  intros Hwf Hge.
  destruct (AppendEntries_spec r args rf Hwf Hge) as (rf' & reply & Heq & _ & _ & _ & Hsucc & Hacc).
  exists rf', reply. split; [done|]. rewrite Hsucc. split; [apply bool_decide_eq_true|].
  destruct (decide (consistent args rf)) as [Hc|Hc]; split; try done.
  - intros _. apply Hacc.
  - intros _. destruct Hacc as (? & ? & _). done.
Qed.

(** The commit index of a follower: a successful [AppendEntries] raises it
    to the leader's, bounded by the end of the follower's log, and every
    newly committed entry goes to the apply channel in the order of the log,
    each one twice in a row (lines 971 and 974 both send it). *)
Theorem AppendEntries_applies_in_order r args rf rf' reply :
  wf rf → AppendEntries r args rf = Some (rf', reply) →
  reply.(RequestAppendReply.Success) = true →
  rf'.(commitIndex) =
    (if rf.(commitIndex) <? args.(RequestAppendArgs.LeaderCommit)
     then Z.min args.(RequestAppendArgs.LeaderCommit) (lastLogIndex rf')
     else rf.(commitIndex)) ∧
  ∃ msgs, applies rf'.(out) = applies rf.(out) ++ msgs ∧
    ApplyMsg.CommandIndex <$> msgs =
      (zrange (rf.(commitIndex) + 1) rf'.(commitIndex) ≫= λ i, [i; i]) ∧
    Forall (λ m, ApplyMsg.CommandValid m = true ∧
      Some (ApplyMsg.Command m) =
        Log.Command <$> absEntry rf' (ApplyMsg.CommandIndex m)) msgs.
Proof.
  intros Hwf Heq Hsucc.
  destruct (Z.lt_ge_cases (RequestAppendArgs.Term args) (currentTerm rf)) as [Hlt|Hge].
  { unfold AppendEntries in Heq.
    destruct (Z.ltb_spec (RequestAppendArgs.Term args) (currentTerm rf)); [|lia].
    by simplify_eq. }
  destruct (AppendEntries_spec r args rf Hwf Hge)
    as (rf1 & reply1 & Heq1 & Hwf' & Hs & _ & Hsucc1 & Hacc).
  rewrite Heq in Heq1. injection Heq1 as <- <-.
  rewrite Hsucc in Hsucc1. symmetry in Hsucc1. apply bool_decide_eq_true in Hsucc1.
  rewrite decide_True in Hacc by done. destruct Hacc as (_ & Hc & Ho).
  split; [done|]. eexists. split; [exact Ho|].
  apply twice_msgs_spec.
  - rewrite Hs. pose proof (wf_commit _ Hwf). lia.
  - rewrite Hc. case_match; to_prop; lia.
Qed.

(** A heartbeat cuts the log: if the entry at [PrevLogIndex] has an older
    term than the message, everything after [PrevLogIndex] is discarded, even
    entries that do not conflict with the leader's log and entries that were
    already committed.  A delayed heartbeat of the current leader has this
    effect on a follower that has since accepted, and acknowledged, more. *)
Theorem stale_heartbeat_truncates r args rf :
  wf rf → rf.(currentTerm) ≤ args.(RequestAppendArgs.Term) →
  args.(RequestAppendArgs.Entries) = [] →
  rf.(snapshotIndex) < args.(RequestAppendArgs.PrevLogIndex) →
  Log.Term <$> absEntry rf args.(RequestAppendArgs.PrevLogIndex) =
    Some args.(RequestAppendArgs.PrevLogTerm) →
  args.(RequestAppendArgs.PrevLogTerm) ≠ args.(RequestAppendArgs.Term) →
  ∃ rf' reply, AppendEntries r args rf = Some (rf', reply) ∧
    reply.(RequestAppendReply.Success) = true ∧
    ∀ i, args.(RequestAppendArgs.PrevLogIndex) < i → absEntry rf' i = None.
Proof.
  intros Hwf Hge He Hs Hp Hne.
  destruct (AppendEntries_spec r args rf Hwf Hge)
    as (rf' & reply & Heq & _ & Hsn & _ & Hsucc & Hacc).
  exists rf', reply. split; [done|].
  assert (consistent args rf) as Hc by by right.
  rewrite Hsucc. split; [by apply bool_decide_true|].
  rewrite decide_True in Hacc by done.
  destruct Hacc as [[_ [[_ [Hr|[_ Hr]]]|Hr]] _]; rewrite He in Hr.
  - rewrite zlen_nil in Hr. lia.
  - rewrite zlen_nil, Z.add_0_l in Hr. congruence.
  - intros i Hi. rewrite Hr by lia. unfold zget. by case_decide.
Qed.

(** Log compaction is invisible by absolute index: when the key/value
    server's snapshot covers applied entries of the log, [persistV2] keeps
    every later entry, the term at the snapshot's last index, the last log
    index and every follower's absolute next index; it stores the Raft state
    and the snapshot in one write, and they agree. *)
Theorem persistV2_preserves_view ss rf :
  wf rf → compacts ss rf → ss.(SnapShot.LastIndex) ≤ rf.(commitIndex) →
  ∃ rf', persistV2 ss rf = Some rf' ∧ wf rf' ∧
    rf'.(snapshotIndex) = ss.(SnapShot.LastIndex) ∧
    (∀ i, ss.(SnapShot.LastIndex) < i → absEntry rf' i = absEntry rf i) ∧
    (∀ i, ss.(SnapShot.LastIndex) ≤ i → absTerm rf' i = absTerm rf i) ∧
    lastLogIndex rf' = lastLogIndex rf ∧
    (λ x, x + rf'.(snapshotIndex)) <$> rf'.(nextIndex) =
      (λ x, x + rf.(snapshotIndex)) <$> rf.(nextIndex) ∧
    durable rf' ∧
    decodeSnapShot rf'.(persister).(Persister.snapshot) =
      ss <| SnapShot.LastTerm := rf'.(snapshotTerm) |> ∧
    saves rf'.(out) = saves rf.(out) ++ [rf'.(persister)].
Proof.
  intros Hwf Hc Hle. destruct (persistV2_spec ss rf Hwf Hc) as (e & rf' & Heq & He & Hrf').
  destruct (persistV2_view ss rf rf' Hwf Hc Heq) as (Hv1 & Hv2 & Hv3).
  exists rf'. split; [done|]. split; [by eapply persistV2_wf|].
  split; [by rewrite Hrf'|]. split_and!; [done..| | | |].
  - rewrite Hrf'. cbn. rewrite <- list_fmap_compose.
    apply list_fmap_ext. intros i x _. cbn. lia.
  - by rewrite Hrf'.
  - rewrite Hrf'. cbn -[gob_enc]. apply decodeSnapShot_enc.
  - rewrite Hrf'. unfold saves. cbn -[omap]. by rewrite omap_app.
Qed.

(** C37: [InstallSnapshot] is total on well-formed peers.  A message of an older
    term, or a snapshot that is not newer, keeps the log and the commit index;
    otherwise the snapshot replaces the prefix it covers, the rest of the log
    is kept exactly when the log has the snapshot's last entry, the state and
    the snapshot on disk agree, and the server is sent the snapshot. *)
Theorem InstallSnapshot_installs r args rf :
  wf rf →
  ∃ rf', InstallSnapshot r args rf = Some (rf', SnapReply.mk rf.(currentTerm)) ∧ wf rf' ∧
    if decide (rf.(currentTerm) ≤ args.(SnapArg.Term) ∧
               rf.(snapshotIndex) < args.(SnapArg.LastIncludedIndex))
    then installed args rf rf'
    else rf'.(log) = rf.(log) ∧ rf'.(snapshotIndex) = rf.(snapshotIndex) ∧
         rf'.(commitIndex) = rf.(commitIndex) ∧ applies rf'.(out) = applies rf.(out).
Proof.
  intros Hwf. case_decide as Hd.
  - destruct (InstallSnapshot_spec r args rf) as (rf' & ? & ? & ?); try easy. by exists rf'.
  - destruct (InstallSnapshot_skip r args rf) as (rf' & ? & Hwf' & ?); [lia|].
    exists rf'. auto.
Qed.

(** C28: The commit rule of a leader with an odd number of peers: [updateCommit]
    never lowers the commit index; a new commit index is held by a majority,
    no index held by a majority is above it, and every newly committed entry
    is sent to the server once, in the order of the log. *)
Theorem updateCommit_majority rf :
  wf rf → Nat.Odd rf.(peers) →
  Forall (λ m, m ≤ lastLogIndex rf) rf.(matchIndex) →
  ∃ rf', updateCommit rf = Some rf' ∧ wf rf' ∧ rf.(commitIndex) ≤ rf'.(commitIndex) ∧
    (rf.(commitIndex) < rf'.(commitIndex) →
       (rf.(peers) < 2 * replicas rf rf'.(commitIndex))%nat) ∧
    (∀ v, (rf.(peers) < 2 * replicas rf v)%nat → v ≤ rf'.(commitIndex)) ∧
    ∃ msgs, applies rf'.(out) = applies rf.(out) ++ msgs ∧
      ApplyMsg.CommandIndex <$> msgs = zrange (rf.(commitIndex) + 1) rf'.(commitIndex) ∧
      Forall (λ m, Some (ApplyMsg.Command m) =
        Log.Command <$> absEntry rf (ApplyMsg.CommandIndex m)) msgs.
Proof.
  intros Hwf Hodd Hm. destruct (updateCommit_spec rf Hwf Hm)
    as (temp & rf' & Hmed & Heq & Hwf' & Hc & Hmsgs).
  destruct (medianMatch_spec rf) as (temp' & Hmed' & H1 & H2);
    [apply wf_match, Hwf|pose proof (wf_me _ Hwf); lia|].
  rewrite Hmed in Hmed'. injection Hmed' as <-.
  destruct Hodd as [k Hk]. assert (peers rf / 2 = k)%nat as Hdiv.
  { rewrite Hk, Nat.add_comm, Nat.mul_comm, Nat.div_add by lia. done. }
  rewrite Hdiv in *.
  exists rf'. split_and!; [done|done|lia| | |done].
  - intros Hlt. replace (commitIndex rf') with temp by lia. lia.
  - intros v Hv. etrans; [apply H2|]; lia.
Qed.
End properties.

(** ** The searches *)

Section searches.
Implicit Types (l : list Log.t).

(** Terms never decrease along a log. *)
Definition sorted_terms l : Prop :=
  ∀ i j e e', i ≤ j → zget l i = Some e → zget l j = Some e' → e.(Log.Term) ≤ e'.(Log.Term).

(** [findEntry] returns the first entry of the block of equal terms that
    ends at the entry it is asked about. *)
Theorem findEntry_block l p :
  0 ≤ p < zlen l →
  ∃ s e, findEntry l p = Some s ∧ zget l p = Some e ∧ 0 ≤ s ≤ p ∧
    (∀ i, s ≤ i ≤ p → Log.Term <$> zget l i = Some e.(Log.Term)) ∧
    (s = 0 ∨ Log.Term <$> zget l (s - 1) ≠ Some e.(Log.Term)).
Proof.
  intros Hp. destruct (findEntry_total l p Hp) as [s Hs].
  destruct (zget_lt l p Hp) as [e He]. exists s, e. split; [done|]. split; [done|].
  rewrite (findEntry_unfold _ _ _ He) in Hs. apply findEntry_loop_spec in Hs.
  destruct Hs as (H1 & H2 & H3). split_and!; [lia|lia| |done].
  intros i Hi. destruct (decide (i = p)) as [->|]; [by rewrite He|apply H2; lia].
Qed.

(** A descending search in a log of sorted terms. *)
Lemma findLast_loop_spec l t n k :
  sorted_terms l → (∃ e, zget l 0 = Some e ∧ e.(Log.Term) < t) → (0 < n)%nat →
  findLast_loop l t n = Some k →
  (k = -1 ∧ ∀ i, i < Z.of_nat n → Log.Term <$> zget l i ≠ Some t) ∨
  (0 < k < Z.of_nat n ∧ Log.Term <$> zget l k = Some t ∧
     ∀ i, k < i < Z.of_nat n → Log.Term <$> zget l i ≠ Some t).
Proof.
  intros Hs (e0 & He0 & Ht0). induction n as [|p IH]; intros Hn Hk; [lia|].
  cbn [findLast_loop] in Hk. apply bind_Some in Hk as (e & He & Hk).
  rewrite <- zget_lookup in He.
  destruct (Z.eqb_spec (Log.Term e) t) as [Heq|Hne].
  - simplify_eq. right. split_and!; [|lia|by rewrite He|intros; lia].
    destruct p; [|lia]. change (Z.of_nat 0) with 0 in He. simplify_eq. lia.
  - destruct (Z.ltb_spec (Log.Term e) t) as [Hlt|Hge].
    + simplify_eq. left. split; [done|]. intros i Hi Hbad.
      apply fmap_Some in Hbad as (e' & He' & ->).
      assert (Log.Term e' ≤ Log.Term e) by (eapply Hs; [|done..]; lia). lia.
    + destruct p as [|p]; [change (Z.of_nat 0) with 0 in He; simplify_eq; lia|].
      assert (∀ i, i < Z.of_nat (S (S p)) → ¬ i < Z.of_nat (S p) →
                Log.Term <$> zget l i ≠ Some t) as Hlast.
      { intros i ??. replace i with (Z.of_nat (S p)) by lia. rewrite He. simpl. congruence. }
      destruct IH as [[-> IH]|(H1 & H2 & H3)]; [lia|done| |].
      * left. split; [done|]. intros i Hi.
        destruct (decide (i < Z.of_nat (S p))); auto.
      * right. split_and!; [lia|lia|done|]. intros i Hi.
        destruct (decide (i < Z.of_nat (S p))); [apply H3; lia|apply Hlast; lia].
Qed.

(** On a log of non-decreasing terms that starts below term [t],
    [findLast] returns the last entry of term [t] at or before [start], and -1
    when there is none. *)
Theorem findLast_correct l t start :
  sorted_terms l → (∃ e, zget l 0 = Some e ∧ e.(Log.Term) < t) → 0 ≤ start < zlen l →
  ∃ k, findLast l t start = Some k ∧
    ((k = -1 ∧ ∀ i, i ≤ start → Log.Term <$> zget l i ≠ Some t) ∨
     (0 < k ≤ start ∧ Log.Term <$> zget l k = Some t ∧
        ∀ i, k < i ≤ start → Log.Term <$> zget l i ≠ Some t)).
Proof.
  intros Hs H0 Hst. destruct (findLast_total l t start) as [k Hk]; [lia|].
  exists k. split; [done|].
  destruct (findLast_loop_spec l t (Z.to_nat (start + 1)) k Hs H0) as [[-> H]|(H1 & H2 & H3)];
    [lia|done| |].
  - left. split; [done|]. intros i Hi. apply H. lia.
  - right. split_and!; [lia|lia|done|]. intros i Hi. apply H3. lia.
Qed.
End searches.

(** ** Behaviours the protocol does not want *)

Section deviations.
Context `{!RaftCodec}.

(** When the log does not continue after the snapshot, [InstallSnapshot]
    writes to the disk twice: first the emptied log beside the old snapshot
    ([rf.persist()] on line 1963), then the new snapshot.  A crash between the
    two writes loses the log without having the snapshot that replaces it. *)
Theorem InstallSnapshot_crash_window r args rf :
  wf rf → rf.(currentTerm) ≤ args.(SnapArg.Term) →
  rf.(snapshotIndex) < args.(SnapArg.LastIncludedIndex) →
  Log.Term <$> absEntry rf args.(SnapArg.LastIncludedIndex) ≠
    Some args.(SnapArg.LastIncludedTerm) →
  ∃ rf' reply before p, InstallSnapshot r args rf = Some (rf', reply) ∧
    saves rf'.(out) = before ++ [p; rf'.(persister)] ∧
    p.(Persister.snapshot) = rf.(persister).(Persister.snapshot) ∧
    ∀ n, (0 < n)%nat → ∃ rf0, Make n 0 p r = Some rf0 ∧ rf0.(log) = [Log0] ∧
      rf0.(snapshotIndex) =
        (decodeSnapShot rf.(persister).(Persister.snapshot)).(SnapShot.LastIndex).
Proof.
  intros Hwf Ht Hs Hm. unfold InstallSnapshot.
  destruct (Z.ltb_spec (SnapArg.Term args) (currentTerm rf)); [lia|].
  destruct (is_term_state args (resetTime r rf)) as (Hl & Hsn & Hc & Hp & Ho).
  set (rf1 := is_term args (resetTime r rf)) in *. clearbody rf1.
  cbn -[applies] in Hl, Hsn, Hc, Hp, Ho. rewrite Hsn.
  destruct (Z.leb_spec (SnapArg.LastIncludedIndex args) (snapshotIndex rf)); [lia|].
  set (rf2 := if commitIndex rf1 <? _ then _ else _).
  assert (log rf2 = log rf ∧ snapshotIndex rf2 = snapshotIndex rf ∧
    persister rf2 = persister rf1) as (Hl2 & Hs2 & Hp2).
  { subst rf2. by case_match. }
  clearbody rf2. rewrite snapMatches_spec by lia. cbn [mbind option_bind].
  rewrite bool_decide_false. 2: { unfold absEntry in *. by rewrite Hl2, Hs2. }
  eexists _, _, (saves (out rf2)), _. split; [done|]. split_and!.
  - unfold saves. cbn -[omap statedata]. rewrite !omap_app, <- !(assoc_L (++)). done.
  - cbn -[statedata]. congruence.
  - intros n Hn. unfold Make.
    erewrite Make_boot_spec; [|reflexivity|done]. cbn [mbind option_bind].
    edestruct Make_init_spec as (rf0 & -> & _ & _ & Hlog & Hsnap & _); [cbn; lia|].
    exists rf0. split_and!; [done|exact Hlog|]. rewrite Hsnap. cbn -[decodeSnapShot statedata].
    by rewrite Hp2, Hp.
Qed.

(** With an even number of peers the commit rule needs only half of them:
    a leader of four peers commits an entry that two peers hold. *)
Theorem updateCommit_even_half :
  ∃ rf rf', wf rf ∧ rf.(peers) = 4%nat ∧ rf.(tp) = 2 ∧
    Forall (λ m, m ≤ lastLogIndex rf) rf.(matchIndex) ∧
    updateCommit rf = Some rf' ∧ rf.(commitIndex) < rf'.(commitIndex) ∧
    replicas rf rf'.(commitIndex) = 2%nat.
Proof.
  set (rf := mkRaft false 4 Persister.MakePersister 0 false 2 1 0
    [Log0; Log.mk (IInt 1) 1] 0 0 [2; 2; 1; 1] [1; 1; 0; 0] 3 0 600 [] true 0 0 true
    [0; 0; 0; 0]%nat []).
  eexists rf, _. split_and!; [|done|done| |by vm_compute|by vm_compute..].
  - split; cbn; try done; try lia; by eexists.
  - repeat constructor; by vm_compute.
Qed.

(** The commit rule does not look at terms: by itself it would let a leader of term
    3 commit an entry of term 2 by counting replicas.  [RaftCommit.v] shows that a
    leader of a cluster never comes into this state. *)
Theorem updateCommit_old_term :
  ∃ rf rf', wf rf ∧ rf.(peers) = 3%nat ∧ rf.(tp) = 2 ∧
    Forall (λ m, m ≤ lastLogIndex rf) rf.(matchIndex) ∧
    updateCommit rf = Some rf' ∧ rf.(commitIndex) < rf'.(commitIndex) ∧
    ∃ t, absTerm rf rf'.(commitIndex) = Some t ∧ t < rf.(currentTerm).
Proof.
  set (rf := mkRaft false 3 Persister.MakePersister 0 false 2 3 0
    [Log0; Log.mk (IInt 1) 2; Log.mk (IInt 2) 3] 0 0 [3; 2; 1] [2; 1; 0] 2 0 600 [] true 0 0
    true [0; 0; 0]%nat []).
  eexists rf, _. split_and!; [|done|done| |by vm_compute|by vm_compute|].
  - split; cbn; try done; try lia; by eexists.
  - repeat constructor; by vm_compute.
  - exists 2. split; [by vm_compute|cbn; lia].
Qed.
End deviations.

(** ** Concrete inputs *)

(** A follower of term 2 in a cluster of three, with three entries. *)
Definition ex_peer : Raft :=
  mkRaft false 3 Persister.MakePersister 0 false 0 2 (-1)
    [Log0; Log.mk (IInt 1) 1; Log.mk (IInt 2) 1; Log.mk (IInt 3) 2]
    2 0 [4; 4; 4] [0; 0; 0] 0 0 600 [] false 0 0 false [0; 0; 0]%nat [].

Lemma ex_peer_wf : wf ex_peer.
Proof. split; cbn; try done; try lia. by eexists. Defined.

(** One more entry after the last one. *)
Definition ex_append : RequestAppendArgs.t :=
  RequestAppendArgs.mk 2 1 3 2 [Log.mk (IInt 4) 2] 4.

Lemma AppendEntries_total_witness :
  ∃ rf' reply, @AppendEntries codec 0 ex_append ex_peer = Some (rf', reply).
Proof.
  destruct (@AppendEntries_total codec 0 ex_append ex_peer ex_peer_wf)
    as (rf' & reply & H & _). by exists rf', reply.
Defined.

Lemma AppendEntries_log_repair_witness :
  ∃ rf' reply, @AppendEntries codec 0 ex_append ex_peer = Some (rf', reply) ∧
    ae_result ex_append ex_peer rf'.
Proof.
  destruct (@AppendEntries_log_repair codec 0 ex_append ex_peer ex_peer_wf)
    as (rf' & reply & H & _ & Hr & _); [cbn; lia|].
  exists rf', reply. split; [exact H|]. apply Hr. right. by vm_compute.
Defined.

Lemma AppendEntries_applies_in_order_witness :
  ∃ rf' reply msgs, @AppendEntries codec 0 ex_append ex_peer = Some (rf', reply) ∧
    applies rf'.(out) = msgs ∧ ApplyMsg.CommandIndex <$> msgs = [3; 3; 4; 4].
Proof.
  destruct (@AppendEntries codec 0 ex_append ex_peer) as [[rf' reply]|] eqn:Heq;
    [|by vm_compute in Heq].
  destruct (@AppendEntries_applies_in_order codec 0 ex_append ex_peer rf' reply ex_peer_wf Heq)
    as (Hc & msgs & Ho & Hi & _).
  { vm_compute in Heq. by injection Heq as <- <-. }
  exists rf', reply, msgs. split; [done|]. split; [exact Ho|].
  rewrite Hi. vm_compute in Heq. by injection Heq as <- <-.
Defined.

(** A heartbeat of the leader of term 2 that was sent before the third entry;
    the third entry is committed. *)
Lemma stale_heartbeat_truncates_witness :
  let rf := ex_peer <| commitIndex := 3 |> in
  ∃ rf' reply, @AppendEntries codec 0 (RequestAppendArgs.mk 2 1 2 1 [] 3) rf = Some (rf', reply) ∧
    absEntry rf 3 = Some (Log.mk (IInt 3) 2) ∧ absEntry rf' 3 = None.
Proof.
  destruct (@stale_heartbeat_truncates codec 0 (RequestAppendArgs.mk 2 1 2 1 [] 3)
    (ex_peer <| commitIndex := 3 |>)) as (rf' & reply & H & _ & Ht); cbn; try done; try lia.
  { destruct ex_peer_wf. by split. }
  exists rf', reply. split; [exact H|]. split; [done|]. by apply Ht.
Defined.

Lemma persistV2_preserves_view_witness :
  ∃ rf', @persistV2 codec (SnapShot.mk (Some ∅) 2 0 (Some ∅)) ex_peer = Some rf' ∧
    absEntry rf' 3 = Some (Log.mk (IInt 3) 2) ∧ absTerm rf' 2 = Some 1.
Proof.
  destruct (@persistV2_preserves_view codec (SnapShot.mk (Some ∅) 2 0 (Some ∅)) ex_peer ex_peer_wf)
    as (rf' & Heq & _ & _ & Hv1 & Hv2 & _); [split; by vm_compute|by vm_compute|].
  exists rf'. split; [exact Heq|]. rewrite Hv1, Hv2 by (cbn; lia). done.
Defined.

Lemma InstallSnapshot_installs_witness :
  ∃ rf', @InstallSnapshot codec 0 (SnapArg.mk 3 1 9 2 []) ex_peer = Some (rf', SnapReply.mk 2) ∧
    @installed codec (SnapArg.mk 3 1 9 2 []) ex_peer rf'.
Proof.
  destruct (@InstallSnapshot_installs codec 0 (SnapArg.mk 3 1 9 2 []) ex_peer ex_peer_wf)
    as (rf' & H & _ & Hi). exists rf'. split; [exact H|].
  rewrite decide_True in Hi by (cbn; lia). exact Hi.
Defined.

Lemma updateCommit_majority_witness :
  ∃ rf', updateCommit (ex_peer <| matchIndex := [3; 3; 2] |>) = Some rf' ∧ 2 ≤ rf'.(commitIndex).
Proof.
  destruct (updateCommit_majority (ex_peer <| matchIndex := [3; 3; 2] |>))
    as (rf' & H & _ & Hle & _).
  - destruct ex_peer_wf. by split.
  - by exists 1%nat.
  - repeat constructor; by vm_compute.
  - exists rf'. split; [exact H|]. exact Hle.
Defined.

Lemma findEntry_block_witness : ∃ s, findEntry ex_peer.(log) 2 = Some s ∧ 0 ≤ s ≤ 2.
Proof.
  destruct (findEntry_block ex_peer.(log) 2) as (s & e & H & _ & Hs & _); [by vm_compute|].
  by exists s.
Defined.

Lemma findLast_correct_witness : ∃ k, findLast ex_peer.(log) 1 3 = Some k ∧ k = 2.
Proof.
  destruct (findLast_correct ex_peer.(log) 1 3) as (k & H & Hk).
  - intros i j e e' Hij Hi Hj.
    pose proof (zget_Some_range _ _ _ Hi). pose proof (zget_Some_range _ _ _ Hj).
    change (zlen (log ex_peer)) with 4 in *.
    assert (i = 0 ∨ i = 1 ∨ i = 2 ∨ i = 3) as Hi' by lia.
    assert (j = 0 ∨ j = 1 ∨ j = 2 ∨ j = 3) as Hj' by lia.
    destruct Hi' as [->|[->|[->| ->]]], Hj' as [->|[->|[->| ->]]];
      try lia; vm_compute in Hi, Hj; simplify_eq; cbn; lia.
  - by exists Log0.
  - by vm_compute.
  - exists k. split; [exact H|]. vm_compute in H. by injection H as <-.
Defined.

Lemma InstallSnapshot_crash_window_witness :
  ∃ rf' reply before p, @InstallSnapshot codec 0 (SnapArg.mk 3 1 9 2 []) ex_peer = Some (rf', reply) ∧
    saves rf'.(out) = before ++ [p; rf'.(persister)].
Proof.
  destruct (@InstallSnapshot_crash_window codec 0 (SnapArg.mk 3 1 9 2 []) ex_peer ex_peer_wf)
    as (rf' & reply & before & p & H & Hs & _); [by vm_compute..|].
  by exists rf', reply, before, p.
Defined.
