(* ===== verification/RaftElection.v ===== *)
(** Elections on one peer ([src/src/raft/raft.go]): the handler [RequestVote],
    the election timer [oscillator], and the goroutines of [startElection],
    split at the points where they release the mutex.

    [startElection] runs as: [startElection_begin] under the lock; then one
    goroutine per other peer, which builds its arguments under the lock
    ([voteArgs]), calls [RequestVote] with the lock released, and handles the
    reply under the lock ([voteReply]); and the loop that waits for the votes,
    whose condition ([electionGuard]) is read without the lock and whose body
    ([electionWin]) takes it. *)
From stdpp Require Import pretty.
From S2P Require Import Prelude Gob Iface RaftTypes RaftPersist RaftLog GobImpl.
Open Scope Z_scope.

Section election.
Context `{!RaftCodec}.

(** Lines 392-401 and 1039-1048. *)
Definition lastLogTerm (rf : Raft) : option Z :=
  if zlen rf.(log) =? 1 then Some rf.(snapshotTerm)
  else e ← zget rf.(log) (zlen rf.(log) - 1); Some e.(Log.Term).

(** Lines 379-388. *)
Definition rv_term (args : RequestVoteArgs.t) (rf : Raft) : Raft :=
  if rf.(currentTerm) <? args.(RequestVoteArgs.Term) then
    persist (rf <| currentTerm := args.(RequestVoteArgs.Term) |>
                <| tp := 0 |> <| votedFor := -1 |>)
  else rf.

(** Lines 403-404: the candidate's log is at least as up to date. *)
Definition upToDate (args : RequestVoteArgs.t) (termLast : Z) (rf : Raft) : bool :=
  (termLast <? args.(RequestVoteArgs.LastLogTerm)) ||
  ((args.(RequestVoteArgs.LastLogTerm) =? termLast) &&
   (zlen rf.(log) - 1 + rf.(snapshotIndex) <=? args.(RequestVoteArgs.LastLogIndex))).

Definition RequestVote (r : Z) (args : RequestVoteArgs.t) (rf : Raft)
    : option (Raft * RequestVoteReply.t) :=
  let term := rf.(currentTerm) in
  if args.(RequestVoteArgs.Term) <? rf.(currentTerm) then
    Some (rf, RequestVoteReply.mk term false)
  else
    let rf := rv_term args rf in
    if (rf.(votedFor) =? -1) || (rf.(votedFor) =? args.(RequestVoteArgs.CandidateId)) then
      termLast ← lastLogTerm rf;
      if upToDate args termLast rf then
        let rf := persist (rf <| votedFor := args.(RequestVoteArgs.CandidateId) |>) in
        Some (resetTime r rf, RequestVoteReply.mk term true)
      else Some (rf, RequestVoteReply.mk term false)
    else Some (rf, RequestVoteReply.mk term false).

(** *** The election timer *)

Inductive oscillation := OscStop | OscElect | OscIdle.

(** Lines 747-773: one look at the timer. *)
Definition oscillator_check (r : Z) (rf : Raft) : Raft * oscillation :=
  if killed rf then (rf, OscStop)
  else if rf.(tp) =? 2 then (rf, OscStop)
  else if rf.(timeout) <=? rf.(timePassed) then (resetTime r rf, OscElect)
  else (rf, OscIdle).

(** Lines 776-778, after a sleep of [inc = 10] milliseconds. *)
Definition oscillator_tick (rf : Raft) : Raft :=
  rf <| timePassed := rf.(timePassed) + 10 |>.

(** *** startElection *)

(** Lines 1006-1015; the election's term [termTemp] is the new term. *)
Definition startElection_begin (rf : Raft) : Raft :=
  let rf := rf <| currentTerm := rf.(currentTerm) + 1 |> <| votedFor := rf.(me) |> in
  let rf := persist rf in
  rf <| tp := 1 |> <| voteCount := 1 |>.

(** Lines 1037-1055. *)
Definition voteArgs (termTemp : Z) (rf : Raft) : option RequestVoteArgs.t :=
  termLast ← lastLogTerm rf;
  Some (RequestVoteArgs.mk termTemp rf.(me)
          (zlen rf.(log) - 1 + rf.(snapshotIndex)) termLast).

(** Lines 1065-1079. *)
Definition voteReply (r termTemp : Z) (ok : bool) (reply : RequestVoteReply.t)
    (rf : Raft) : Raft :=
  if termTemp <? rf.(currentTerm) then rf
  else if ok && (rf.(currentTerm) <? reply.(RequestVoteReply.Term)) then
    resetTime r (termUpdate reply.(RequestVoteReply.Term) 0 (-1) rf)
  else if ok && reply.(RequestVoteReply.VoteGranted) then
    rf <| voteCount := rf.(voteCount) + 1 |>
  else rf.

(** Line 1096, read without the lock. *)
Definition electionGuard (termTemp : Z) (rf : Raft) : bool :=
  (rf.(currentTerm) =? termTemp) && (rf.(tp) =? 1).

(** Lines 1113-1127. *)
Definition becomeLeader (rf : Raft) : Raft :=
  rf <| tp := 2 |>
     <| nextIndex := (λ _, zlen rf.(log)) <$> rf.(nextIndex) |>
     <| matchIndex := (λ _, 0) <$> rf.(nextIndex) |>
     <| commitCount := replicate (length rf.(log)) 0 |>
     <| startAppend := false |>.

(** Lines 1105-1158: with a majority the peer becomes leader, otherwise it
    waits for the next reply. *)
Definition electionWin (rf : Raft) : option Raft :=
  if Z.of_nat (rf.(peers) / 2) <? rf.(voteCount) then Some (becomeLeader rf) else None.

(** Line 1148: the first command of a leader. *)
Definition noopCommand (rf : Raft) : iface :=
  IString ("Term " +:+ pretty rf.(currentTerm) +:+ "no-op").

(** ** Lemmas *)

(** The vote of a peer depends on its log only through its last entry. *)
Lemma lastLogTerm_abs rf : wf rf → lastLogTerm rf = absTerm rf (lastLogIndex rf).
Proof.
  intros Hwf. pose proof (wf_log_len _ Hwf). unfold lastLogTerm, absTerm, absEntry, lastLogIndex.
  destruct (Z.eqb_spec (zlen (log rf)) 1).
  - destruct (Z.eqb_spec (zlen (log rf) - 1 + snapshotIndex rf) (snapshotIndex rf)); [done|lia].
  - destruct (Z.eqb_spec (zlen (log rf) - 1 + snapshotIndex rf) (snapshotIndex rf)); [lia|].
    destruct (Z.ltb_spec (snapshotIndex rf) (zlen (log rf) - 1 + snapshotIndex rf)); [|lia].
    rewrite Z.add_simpl_r. by destruct (zget (log rf) (zlen (log rf) - 1)).
Qed.

Lemma lastLogTerm_total rf : wf rf → is_Some (lastLogTerm rf).
Proof.
  intros Hwf. pose proof (wf_log_len _ Hwf). unfold lastLogTerm. case_match; to_prop; [by eexists|].
  destruct (zget_lt (log rf) (zlen (log rf) - 1)) as [e ->]; [lia|]. by eexists.
Qed.

Lemma rv_term_fields args rf :
  let rf1 := rv_term args rf in
  let newer := rf.(currentTerm) <? args.(RequestVoteArgs.Term) in
  rf1.(log) = rf.(log) ∧ rf1.(snapshotIndex) = rf.(snapshotIndex) ∧
  rf1.(snapshotTerm) = rf.(snapshotTerm) ∧
  rf1.(currentTerm) = Z.max rf.(currentTerm) args.(RequestVoteArgs.Term) ∧
  rf1.(tp) = (if newer then 0 else rf.(tp)) ∧
  rf1.(votedFor) = (if newer then -1 else rf.(votedFor)) ∧
  rf1.(me) = rf.(me) ∧ rf1.(peers) = rf.(peers) ∧ rf1.(voteCount) = rf.(voteCount) ∧
  (durable rf → durable rf1).
Proof. unfold rv_term. case_cmp; cbn -[statedata]; split_and!; try done; lia. Qed.

Lemma rv_term_wf args rf : wf rf → wf (rv_term args rf).
Proof. intros []. unfold rv_term. case_match; by split. Qed.

(** What [RequestVote] does, in every case. *)
Lemma RequestVote_spec r args rf :
  wf rf →
  ∃ rf' granted, RequestVote r args rf =
      Some (rf', RequestVoteReply.mk rf.(currentTerm) granted) ∧ wf rf' ∧
    rf'.(log) = rf.(log) ∧
    rf'.(currentTerm) = Z.max rf.(currentTerm) args.(RequestVoteArgs.Term) ∧
    rf'.(tp) = (if rf.(currentTerm) <? args.(RequestVoteArgs.Term) then 0 else rf.(tp)) ∧
    rf'.(votedFor) =
      (if granted then args.(RequestVoteArgs.CandidateId)
       else if rf.(currentTerm) <? args.(RequestVoteArgs.Term) then -1 else rf.(votedFor)) ∧
    rf'.(me) = rf.(me) ∧ rf'.(peers) = rf.(peers) ∧ rf'.(voteCount) = rf.(voteCount) ∧
    (durable rf → durable rf') ∧
    (granted = true ↔
      rf.(currentTerm) ≤ args.(RequestVoteArgs.Term) ∧
      (rf.(currentTerm) < args.(RequestVoteArgs.Term) ∨ rf.(votedFor) = -1 ∨
       rf.(votedFor) = args.(RequestVoteArgs.CandidateId)) ∧
      ∃ t, absTerm rf (lastLogIndex rf) = Some t ∧
        (t < args.(RequestVoteArgs.LastLogTerm) ∨
         t = args.(RequestVoteArgs.LastLogTerm) ∧
         lastLogIndex rf ≤ args.(RequestVoteArgs.LastLogIndex))).
Proof.
  intros Hwf. unfold RequestVote.
  destruct (Z.ltb_spec (RequestVoteArgs.Term args) (currentTerm rf)) as [Hlt|Hge].
  { exists rf, false. rewrite Z.max_l by lia.
    destruct (Z.ltb_spec (currentTerm rf) (RequestVoteArgs.Term args)); [lia|].
    split_and!; try done. lia. }
  pose proof (rv_term_wf args rf Hwf) as Hwf1.
  destruct (rv_term_fields args rf) as (Hl & Hs & Ht & Hc & Hp & Hv & Hm & Hps & Hvc & Hd).
  destruct (lastLogTerm_total (rv_term args rf) Hwf1) as [t Hlast].
  rewrite Hlast. rewrite (lastLogTerm_abs _ Hwf1) in Hlast.
  assert (absTerm rf (lastLogIndex rf) = Some t) as Habs.
  { rewrite <- Hlast. unfold absTerm, absEntry, lastLogIndex. by rewrite Hl, Hs, Ht. }
  assert (upToDate args t (rv_term args rf) = true ↔
    t < args.(RequestVoteArgs.LastLogTerm) ∨ t = args.(RequestVoteArgs.LastLogTerm) ∧
    lastLogIndex rf ≤ args.(RequestVoteArgs.LastLogIndex)) as Hup.
  { unfold upToDate, lastLogIndex. rewrite Hl, Hs.
    rewrite orb_true_iff, andb_true_iff, Z.ltb_lt, Z.eqb_eq, Z.leb_le. intuition congruence. }
  set (free := (votedFor (rv_term args rf) =? -1) ||
               (votedFor (rv_term args rf) =? RequestVoteArgs.CandidateId args)).
  assert (free = true ↔ currentTerm rf < RequestVoteArgs.Term args ∨ votedFor rf = -1 ∨
    votedFor rf = RequestVoteArgs.CandidateId args) as Hfree.
  { unfold free. rewrite Hv, orb_true_iff, !Z.eqb_eq. case_cmp; intuition lia. }
  cbn [mbind option_bind].
  destruct free; [destruct (upToDate args t (rv_term args rf))|].
  - eexists _, true. split; [done|]. split; [destruct Hwf1; by split|]. cbn -[statedata].
    split_and!; try done; try (rewrite Hc; lia).
    split; [intros _|done]. split_and!; [done|by apply Hfree|]. exists t. split; [done|]. by apply Hup.
  - eexists _, false. split; [done|]. split; [done|].
    split_and!; try done; try (rewrite Hc; lia).
    split; [done|]. intros (_ & _ & t' & Ht' & Hok). simplify_eq. by apply Hup.
  - eexists _, false. split; [done|]. split; [done|].
    split_and!; try done; try (rewrite Hc; lia).
    split; [done|]. intros (_ & Hok & _). by apply Hfree.
Qed.
End election.
