(* ===== verification/RaftLeader.v ===== *)
(** The leader's side of replication ([src/src/raft/raft.go]): [Start], and the
    goroutines of [Append2], split at the points where they release the mutex.

    [Append2] runs one goroutine per follower.  Each round of its loop looks at
    the peer under the lock ([Append2_top]) and starts a goroutine that sends
    either a snapshot ([installArgs], then [installReply] for the answer) or
    entries ([appendArgs], then [appendReply]).  The lock is free while the
    call is on its way, so other operations run between the two halves. *)
From S2P Require Import Prelude Gob Iface RaftTypes RaftPersist RaftLog RaftLogProps.

(** What one round of [Append2] does. *)
Inductive round :=
  | RdKilled      (* returns, with the mutex still locked *)
  | RdGiveUp      (* not a leader any more: starts the election timer *)
  | RdInstall     (* sends the snapshot *)
  | RdAppend.     (* sends entries, or a heartbeat *)

Section leader.
Context `{!RaftCodec}.

(** *** Start *)

(** Lines 524-530: wake every replication goroutine whose channel is empty. *)
Definition Start_wake (rf : Raft) : Raft :=
  rf <| apps := imap (λ i k, if (negb (Z.of_nat i =? rf.(me)) && (k =? 0)%nat)%bool
                             then 1%nat else k) rf.(apps) |>.

Definition Start (command : iface) (rf : Raft) : option (Raft * (Z * Z * bool)) :=
  if killed rf then Some (rf <| mu := true |>, (0, 0, false))
  else if negb (rf.(tp) =? 2) then Some (rf, (-1, -1, false))
  else
    let term := rf.(currentTerm) in
    let rf := rf <| log := rf.(log) ++ [Log.mk command rf.(currentTerm)] |> in
    let rf := persist rf in
    let index := lastLogIndex rf in
    m ← zset rf.(matchIndex) rf.(me) (lastLogIndex rf);
    let rf := rf <| matchIndex := m |> <| startAppend := true |> in
    Some (Start_wake rf, (index, term, true)).

(** *** One round of Append2 *)

(** Lines 1371-1401. *)
Definition Append2_top (server : Z) (rf : Raft) : option (Raft * round) :=
  if killed rf then Some (rf <| mu := true |>, RdKilled)
  else if negb (rf.(tp) =? 2) then Some (rf, RdGiveUp)
  else
    next ← zget rf.(nextIndex) server;
    Some (rf, if next <=? 0 then RdInstall else RdAppend).

(** The answer is ignored when the peer was killed or when the goroutine
    started another round ([count]) in the meantime. *)
Definition replyStale (count countTemp : Z) (rf : Raft) : bool :=
  killed rf || negb (count =? countTemp).

(** **** Sending a snapshot *)

Definition installArgs (rf : Raft) : SnapArg.t :=
  SnapArg.mk rf.(currentTerm) rf.(me) rf.(snapshotIndex) rf.(snapshotTerm)
    rf.(persister).(Persister.snapshot).

(** Lines 1438-1457. *)
Definition installReply (r server termTemp : Z) (ok : bool) (reply : SnapReply.t)
    (rf : Raft) : option Raft :=
  if termTemp <? rf.(currentTerm) then Some rf
  else if ok && (rf.(currentTerm) <? reply.(SnapReply.Term)) then
    Some (resetTime r (termUpdate reply.(SnapReply.Term) 0 (-1) rf))
  else if ok then
    next ← zset rf.(nextIndex) server 1;
    Some (rf <| nextIndex := next |>)
  else Some rf.

(** **** Sending entries *)

(** Lines 1500-1540; the inner [None] is the early return. *)
Definition appendArgs (server : Z) (rf : Raft) : option (option RequestAppendArgs.t) :=
  next ← zget rf.(nextIndex) server;
  if next <=? 0 then Some None
  else if negb (rf.(tp) =? 2) then Some None
  else
    entries ← zfrom rf.(log) next;
    argTerm ← (if next =? 1 then Some rf.(snapshotTerm)
               else e ← zget rf.(log) (next - 1); Some e.(Log.Term));
    Some (Some (RequestAppendArgs.mk rf.(currentTerm) rf.(me)
                  (next - 1 + rf.(snapshotIndex)) argTerm entries rf.(commitIndex))).

(** Lines 1606-1645: the follower refused; roll the next index back. *)
Definition appendRollback (server : Z) (args : RequestAppendArgs.t)
    (reply : RequestAppendReply.t) (rf : Raft) : option Raft :=
  next ← zget rf.(nextIndex) server;
  if next + rf.(snapshotIndex) =? args.(RequestAppendArgs.PrevLogIndex) + 1 then
    next ←
      (if reply.(RequestAppendReply.Miss) then
         zset rf.(nextIndex) server (reply.(RequestAppendReply.Len) - rf.(snapshotIndex))
       else
         index ← findLast rf.(log) reply.(RequestAppendReply.TermConflict)
                   (args.(RequestAppendArgs.PrevLogIndex) - rf.(snapshotIndex));
         if negb (index =? -1) then zset rf.(nextIndex) server index
         else zset rf.(nextIndex) server
                (reply.(RequestAppendReply.TermStart) - rf.(snapshotIndex)));
    Some (rf <| nextIndex := next |>)
  else Some rf.

(** Lines 1647-1675: the follower accepted the entries. *)
Definition appendSuccess (server : Z) (args : RequestAppendArgs.t) (rf : Raft)
    : option Raft :=
  let n := zlen args.(RequestAppendArgs.Entries) in
  next ← zget rf.(nextIndex) server;
  if (next + rf.(snapshotIndex) =? args.(RequestAppendArgs.PrevLogIndex) + 1) && (0 <? n)
  then
    let matchTemp := next - 1 + n + rf.(snapshotIndex) in
    old ← zget rf.(matchIndex) server;
    rf ← (if old <? matchTemp then
            m ← zset rf.(matchIndex) server (next - 1 + n + rf.(snapshotIndex));
            Some (rf <| matchIndex := m |>)
          else Some rf);
    nx ← zset rf.(nextIndex) server (next + n);
    updateCommit (rf <| nextIndex := nx |>)
  else Some rf.

(** Lines 1585-1677. *)
Definition appendReply (r server termTemp : Z) (ok : bool) (args : RequestAppendArgs.t)
    (reply : RequestAppendReply.t) (rf : Raft) : option Raft :=
  if negb rf.(startAppend) then Some rf
  else
    rf ←
      (if termTemp <? rf.(currentTerm) then Some rf
       else if ok && (rf.(currentTerm) <? reply.(RequestAppendReply.Term)) then
         Some (resetTime r (termUpdate reply.(RequestAppendReply.Term) 0 (-1) rf))
       else if ok && negb reply.(RequestAppendReply.Success) then
         appendRollback server args reply rf
       else if ok && reply.(RequestAppendReply.Success) then
         appendSuccess server args rf
       else Some rf);
    updateCommit rf.

(** *** Replication to one follower over a network that delivers

    [sync] is one round of [Append2] whose call reaches the follower [F] and
    whose answer comes back; [catch_up] repeats it until entries are accepted. *)
Definition sync (r server : Z) (L F : Raft) : option (Raft * Raft * bool) :=
  let termTemp := L.(currentTerm) in
  '(L, act) ← Append2_top server L;
  match act with
  | RdInstall =>
      '(F, reply) ← InstallSnapshot r (installArgs L) F;
      L ← installReply r server termTemp true reply L;
      Some (L, F, false)
  | RdAppend =>
      a ← appendArgs server L;
      match a with
      | Some args =>
          '(F, reply) ← AppendEntries r args F;
          L ← appendReply r server termTemp true args reply L;
          Some (L, F, reply.(RequestAppendReply.Success))
      | None => Some (L, F, false)
      end
  | _ => Some (L, F, false)
  end.

Fixpoint catch_up (fuel : nat) (r server : Z) (L F : Raft) : option (Raft * Raft * bool) :=
  match fuel with
  | O => Some (L, F, false)
  | S fuel =>
      '(L, F, done) ← sync r server L F;
      if done : bool then Some (L, F, true) else catch_up fuel r server L F
  end.
End leader.
