(* ===== verification/RaftPeer.v ===== *)
(** What the operations of a peer do to the state of elections
    ([src/src/raft/raft.go]): to the term, the vote and the role.  Every
    operation outside the election goroutines is [quiet]: it may only adopt a
    newer term as a follower that has not voted, or step back from candidate to
    follower; and what it leaves in memory is on disk. *)
From S2P Require Import Prelude Gob Iface RaftTypes RaftPersist RaftLog RaftLogProps RaftElection RaftLeader.

(** [rf'] is [rf] after an operation that carried the term [t]. *)
Record quiet (t : Z) (rf rf' : Raft) : Prop := {
  q_me : rf'.(me) = rf.(me);
  q_peers : rf'.(peers) = rf.(peers);
  q_dead : rf'.(dead) = rf.(dead);
  q_votes : rf'.(voteCount) = rf.(voteCount);
  q_term : rf'.(currentTerm) = Z.max rf.(currentTerm) t;
  q_vote : rf'.(votedFor) = if rf.(currentTerm) <? t then -1 else rf.(votedFor);
  q_tp : if rf.(currentTerm) <? t then rf'.(tp) = 0
         else rf'.(tp) = rf.(tp) ∨ rf.(tp) = 1 ∧ rf'.(tp) = 0
}.

Lemma quiet_refl t rf : t ≤ rf.(currentTerm) → quiet t rf rf.
Proof.
  intros H. split; try done; destruct (Z.ltb_spec (currentTerm rf) t); try lia; try done; by left.
Qed.

Lemma quiet_trans t rf1 rf2 rf3 : quiet t rf1 rf2 → quiet t rf2 rf3 → quiet t rf1 rf3.
Proof.
  intros [] []. split; try congruence; try lia.
  - repeat case_cmp; congruence || lia.
  - repeat case_cmp; try lia; intuition congruence.
Qed.

(** An operation that keeps the fields of elections. *)
Lemma quiet_fields t rf rf' :
  t ≤ rf.(currentTerm) →
  rf'.(me) = rf.(me) → rf'.(peers) = rf.(peers) → rf'.(dead) = rf.(dead) →
  rf'.(voteCount) = rf.(voteCount) → rf'.(currentTerm) = rf.(currentTerm) →
  rf'.(votedFor) = rf.(votedFor) → rf'.(tp) = rf.(tp) → quiet t rf rf'.
Proof.
  intros. split; try done; try lia; destruct (Z.ltb_spec (currentTerm rf) t); try lia;
    try done; by left.
Qed.

#[export] Hint Resolve quiet_refl : slices.

Section peer.
Context `{!RaftCodec}.

Lemma quiet_termUpdate t rf : rf.(currentTerm) < t → quiet t rf (termUpdate t 0 (-1) rf).
Proof.
  intros Ht. split; try done; cbn; [lia|..]; by destruct (Z.ltb_spec (currentTerm rf) t); [|lia].
Qed.

Lemma quiet_resetTime t r rf : t ≤ rf.(currentTerm) → quiet t rf (resetTime r rf).
Proof. intros. by apply quiet_fields. Qed.

Lemma quiet_stepdown t rf : t ≤ rf.(currentTerm) → rf.(tp) = 1 → quiet t rf (rf <| tp := 0 |>).
Proof.
  intros Hc Ht. split; try done; cbn; try lia;
    destruct (Z.ltb_spec (currentTerm rf) t); try lia; try done; by right.
Qed.

Lemma quiet_ge t rf rf' : quiet t rf rf' → t ≤ rf'.(currentTerm).
Proof. intros []. lia. Qed.

(** Everything after the term was dealt with keeps the fields. *)
Lemma quiet_then t rf rf1 rf2 :
  quiet t rf rf1 → (t ≤ rf1.(currentTerm) → quiet t rf1 rf2) → quiet t rf rf2.
Proof. intros H1 H2. eapply quiet_trans; [done|]. apply H2. by eapply quiet_ge. Qed.

Lemma quiet_ae_term args rf :
  rf.(currentTerm) ≤ args.(RequestAppendArgs.Term) →
  quiet args.(RequestAppendArgs.Term) rf (ae_term args rf).
Proof.
  intros Ht. unfold ae_term. repeat case_match; to_prop.
  - by apply quiet_termUpdate.
  - by apply quiet_stepdown.
  - by apply quiet_refl.
Qed.

Lemma quiet_is_term args rf :
  rf.(currentTerm) ≤ args.(SnapArg.Term) → quiet args.(SnapArg.Term) rf (is_term args rf).
Proof.
  intros Ht. unfold is_term. repeat case_match; to_prop.
  - by apply quiet_termUpdate.
  - by apply quiet_stepdown.
  - by apply quiet_refl.
Qed.

Lemma quiet_emit t e rf : t ≤ rf.(currentTerm) → quiet t rf (emit e rf).
Proof. intros. by apply quiet_fields. Qed.

Lemma quiet_applyAt t rf i rf' :
  applyAt rf i = Some rf' → t ≤ rf.(currentTerm) → quiet t rf rf'.
Proof. unfold applyAt. intros. unbind. by apply quiet_emit. Qed.

Lemma quiet_foldM {B} t (f : Raft → B → option Raft) rf l rf' :
  (∀ rf i rf', f rf i = Some rf' → t ≤ rf.(currentTerm) → quiet t rf rf') →
  foldM f rf l = Some rf' → t ≤ rf.(currentTerm) → quiet t rf rf'.
Proof.
  intros Hf. revert rf. induction l as [|x l IH]; intros rf Heq Ht; cbn [foldM] in Heq.
  - simplify_eq. by apply quiet_refl.
  - apply bind_Some in Heq as (rf1 & H1 & H2). eapply quiet_then; [by eapply Hf|]. auto.
Qed.

Lemma quiet_applyTwice t rf i rf' :
  applyTwice rf i = Some rf' → t ≤ rf.(currentTerm) → quiet t rf rf'.
Proof.
  unfold applyTwice. intros. unbind. eapply quiet_then; [by eapply quiet_applyAt|].
  by apply quiet_applyAt with i.
Qed.

Lemma quiet_ae_match t args rf rf' :
  ae_match args rf = Some rf' → t ≤ rf.(currentTerm) → quiet t rf rf'.
Proof. unfold ae_match. intros. repeat case_match; unbind; repeat case_match; unbind; by apply quiet_fields. Qed.

Lemma quiet_ae_ahead t args rf rf' :
  ae_ahead args rf = Some rf' → t ≤ rf.(currentTerm) → quiet t rf rf'.
Proof. unfold ae_ahead. intros. unbind. repeat case_match; unbind; repeat case_match; unbind; by apply quiet_fields. Qed.

Lemma quiet_ae_commit t args rf rf' :
  ae_commit args rf = Some rf' → t ≤ rf.(currentTerm) → quiet t rf rf'.
Proof.
  unfold ae_commit. intros. case_match; [|by simplify_eq; apply quiet_refl].
  eapply quiet_then; [|intros; by eapply quiet_foldM; [apply quiet_applyTwice|..]].
  by apply quiet_fields.
Qed.

Lemma quiet_AppendEntries r args rf rf' reply :
  AppendEntries r args rf = Some (rf', reply) →
  rf.(currentTerm) ≤ args.(RequestAppendArgs.Term) →
  quiet args.(RequestAppendArgs.Term) rf rf'.
Proof.
  unfold AppendEntries. intros Heq Hle. case_match; to_prop; [lia|].
  eapply quiet_then; [by apply quiet_ae_term|]. intros Ht.
  apply bind_Some in Heq as (m & _ & Heq).
  repeat case_match; unbind.
  - eapply quiet_then; [by eapply quiet_ae_match|]. intros.
    eapply quiet_then; [by eapply quiet_ae_commit|]. apply quiet_resetTime.
  - eapply quiet_then; [by eapply quiet_ae_ahead|]. intros.
    eapply quiet_then; [by eapply quiet_ae_commit|]. apply quiet_resetTime.
  - by apply quiet_resetTime.
Qed.

(** A message of an older term does nothing at all. *)
Lemma AppendEntries_old r args rf rf' reply :
  AppendEntries r args rf = Some (rf', reply) →
  args.(RequestAppendArgs.Term) < rf.(currentTerm) → rf' = rf.
Proof. unfold AppendEntries. intros. case_match; to_prop; [by simplify_eq|lia]. Qed.

Lemma quiet_InstallSnapshot r args rf rf' reply :
  InstallSnapshot r args rf = Some (rf', reply) →
  rf.(currentTerm) ≤ args.(SnapArg.Term) →
  quiet args.(SnapArg.Term) rf rf'.
Proof.
  unfold InstallSnapshot. intros Heq Hle. case_match; to_prop; [lia|].
  set (rf1 := is_term args (resetTime r rf)) in *.
  assert (quiet args.(SnapArg.Term) rf rf1) as Hq1.
  { destruct (quiet_is_term args (resetTime r rf) Hle). by split. }
  eapply quiet_then; [exact Hq1|]. intros Ht. clearbody rf1.
  case_match; [simplify_eq; by apply quiet_refl|].
  apply bind_Some in Heq as (m & _ & Heq). apply bind_Some in Heq as (rf3 & H3 & Heq).
  simplify_eq. set (rf2 := if _ <? _ then _ else rf1) in *.
  assert (quiet args.(SnapArg.Term) rf1 rf2) as Hq2.
  { subst rf2. clear H3. case_match; [by apply quiet_fields|by apply quiet_refl]. }
  eapply quiet_then; [exact Hq2|]. intros. clearbody rf2.
  destruct m; unbind; by apply quiet_fields.
Qed.

Lemma InstallSnapshot_old r args rf rf' reply :
  InstallSnapshot r args rf = Some (rf', reply) →
  args.(SnapArg.Term) < rf.(currentTerm) → rf' = rf.
Proof. unfold InstallSnapshot. intros. case_match; to_prop; [by simplify_eq|lia]. Qed.

Lemma quiet_persistV2 t ss rf rf' :
  persistV2 ss rf = Some rf' → t ≤ rf.(currentTerm) → quiet t rf rf'.
Proof.
  unfold persistV2. intros. repeat case_match; [simplify_eq; by apply quiet_refl..|].
  unbind. by apply quiet_fields.
Qed.

Lemma quiet_Start t cmd rf rf' res :
  Start cmd rf = Some (rf', res) → t ≤ rf.(currentTerm) → quiet t rf rf'.
Proof. unfold Start. intros. repeat case_match; unbind; by apply quiet_fields. Qed.

Lemma quiet_updateCommit t rf rf' :
  updateCommit rf = Some rf' → t ≤ rf.(currentTerm) → quiet t rf rf'.
Proof.
  unfold updateCommit. intros Heq Ht. apply bind_Some in Heq as (temp & _ & Heq).
  set (rf1 := if _ <? temp then _ else _) in *.
  assert (quiet t rf rf1) as Hq.
  { subst rf1. clear Heq. case_match; [by apply quiet_fields|by apply quiet_refl]. }
  eapply quiet_then; [exact Hq|]. intros. clearbody rf1.
  case_match; [by eapply quiet_foldM; [intros; by eapply quiet_applyAt|..]|].
  simplify_eq. by apply quiet_refl.
Qed.

Lemma quiet_appendRollback t server args reply rf rf' :
  appendRollback server args reply rf = Some rf' → t ≤ rf.(currentTerm) → quiet t rf rf'.
Proof.
  unfold appendRollback. intros Heq Ht. apply bind_Some in Heq as (next & _ & Heq).
  case_match; [unbind; by apply quiet_fields|simplify_eq; by apply quiet_refl].
Qed.

Lemma quiet_appendSuccess t server args rf rf' :
  appendSuccess server args rf = Some rf' → t ≤ rf.(currentTerm) → quiet t rf rf'.
Proof.
  unfold appendSuccess. intros Heq Ht. apply bind_Some in Heq as (next & _ & Heq).
  case_match; [|simplify_eq; by apply quiet_refl].
  apply bind_Some in Heq as (old & _ & Heq). apply bind_Some in Heq as (rf1 & H1 & Heq).
  apply bind_Some in Heq as (nx & _ & Heq).
  eapply (quiet_then _ _ (rf1 <| nextIndex := nx |>)).
  - case_match; unbind; by apply quiet_fields.
  - intros. by apply quiet_updateCommit.
Qed.

(** A reply carries a term to the leader only when it is newer. *)
Lemma quiet_appendReply r server termTemp ok args reply rf rf' :
  appendReply r server termTemp ok args reply rf = Some rf' →
  ∃ t, quiet t rf rf'.
Proof.
  unfold appendReply. intros Heq. case_match; [simplify_eq; by exists (currentTerm rf'); apply quiet_refl|].
  apply bind_Some in Heq as (rf1 & H1 & Heq).
  assert (∃ t, quiet t rf rf1) as (t & Hq).
  { repeat case_match; to_prop; simplify_eq;
      first [ eexists; eapply quiet_then; [by apply quiet_termUpdate|apply quiet_resetTime]
            | exists rf.(currentTerm);
              first [by eapply quiet_appendRollback | by eapply quiet_appendSuccess]
            | eexists; apply quiet_refl; reflexivity ]. }
  exists t. eapply quiet_then; [done|]. by apply quiet_updateCommit.
Qed.

Lemma quiet_installReply r server termTemp ok reply rf rf' :
  installReply r server termTemp ok reply rf = Some rf' → ∃ t, quiet t rf rf'.
Proof.
  unfold installReply. intros Heq. repeat case_match; to_prop; unbind.
  - by exists rf'.(currentTerm); apply quiet_refl.
  - eexists. eapply quiet_then; [by apply quiet_termUpdate|]. apply quiet_resetTime.
  - exists rf.(currentTerm). by apply quiet_fields.
  - by exists rf'.(currentTerm); apply quiet_refl.
Qed.
End peer.
