(* ===== verification/RaftRecovery.v ===== *)
(** Crash recovery of a Raft peer ([src/src/raft/raft.go]).

    [peer_step] is one atomic step of a peer: any handler with any arguments, a
    step of the election goroutines, of a replication goroutine, of the timer,
    log compaction, a command of the server, or a crash followed by [Make].
    The invariant [recoverable] says that what the peer needs after a crash is
    on disk at every point where the mutex is free. *)
From S2P Require Import Prelude Gob Iface RaftTypes RaftPersist RaftLog RaftLogProps RaftElection RaftLeader RaftPeer GobImpl.

Section recovery.
Context `{!RaftCodec}.

(** The snapshot on disk is the one the log starts after. *)
Definition snap_ok (rf : Raft) : Prop :=
  let ss := decodeSnapShot rf.(persister).(Persister.snapshot) in
  ss.(SnapShot.LastIndex) = rf.(snapshotIndex) ∧ ss.(SnapShot.LastTerm) = rf.(snapshotTerm).

(** A leader sends the snapshot it has on disk. *)
Definition snap_msg (args : SnapArg.t) : Prop :=
  let ss := decodeSnapShot args.(SnapArg.Data) in
  ss.(SnapShot.LastIndex) = args.(SnapArg.LastIncludedIndex) ∧
  ss.(SnapShot.LastTerm) = args.(SnapArg.LastIncludedTerm).

Inductive peer_step : Raft → Raft → Prop :=
  | ps_RequestVote r args rf rf' reply :
      0 < args.(RequestVoteArgs.Term) →
      RequestVote r args rf = Some (rf', reply) → peer_step rf rf'
  | ps_AppendEntries r args rf rf' reply :
      AppendEntries r args rf = Some (rf', reply) → peer_step rf rf'
  | ps_InstallSnapshot r args rf rf' reply :
      snap_msg args →
      InstallSnapshot r args rf = Some (rf', reply) → peer_step rf rf'
  | ps_persistV2 ss rf rf' :
      ss.(SnapShot.LastIndex) ≤ rf.(commitIndex) →
      persistV2 ss rf = Some rf' → peer_step rf rf'
  | ps_Start cmd rf rf' res :
      Start cmd rf = Some (rf', res) → peer_step rf rf'
  | ps_check r rf : peer_step rf (oscillator_check r rf).1
  | ps_tick rf : peer_step rf (oscillator_tick rf)
  | ps_begin rf : peer_step rf (startElection_begin rf)
  | ps_voteReply r termTemp ok reply rf : peer_step rf (voteReply r termTemp ok reply rf)
  | ps_win rf rf' : electionWin rf = Some rf' → peer_step rf rf'
  | ps_top server rf rf' act : Append2_top server rf = Some (rf', act) → peer_step rf rf'
  | ps_installReply r server termTemp ok reply rf rf' :
      installReply r server termTemp ok reply rf = Some rf' → peer_step rf rf'
  | ps_appendReply r server termTemp ok args reply rf rf' :
      appendReply r server termTemp ok args reply rf = Some rf' → peer_step rf rf'
  | ps_Kill rf : peer_step rf (Kill rf)
  | ps_crash r rf rf' :
      Make rf.(peers) rf.(me) rf.(persister) r = Some rf' → peer_step rf rf'.

Record recoverable (rf : Raft) : Prop := {
  rec_wf : wf rf;
  rec_durable : durable rf;
  rec_snap : snap_ok rf;
  rec_term : 0 ≤ rf.(currentTerm);
  rec_vote : rf.(currentTerm) = 0 → rf.(votedFor) = -1
}.

(** *** Operations that leave the snapshot alone *)

Record stable (rf rf' : Raft) : Prop := {
  st_durable : durable rf → durable rf';
  st_snap : rf'.(persister).(Persister.snapshot) = rf.(persister).(Persister.snapshot);
  st_index : rf'.(snapshotIndex) = rf.(snapshotIndex);
  st_term : rf'.(snapshotTerm) = rf.(snapshotTerm)
}.

#[local] Instance stable_preorder : PreOrder stable.
Proof. split; [by intros rf; split|]. intros x y z [] []; split; auto; congruence. Qed.

Lemma snap_ok_stable rf rf' : stable rf rf' → snap_ok rf → snap_ok rf'.
Proof. intros [_ H1 H2 H3]. unfold snap_ok. by rewrite H1, H2, H3. Qed.

Lemma stable_foldM {B} (f : Raft → B → option Raft) rf l rf' :
  (∀ rf i rf', f rf i = Some rf' → stable rf rf') → foldM f rf l = Some rf' → stable rf rf'.
Proof.
  intros Hf. revert rf. induction l as [|x l IH]; intros rf Heq; cbn [foldM] in Heq.
  - by simplify_eq.
  - apply bind_Some in Heq as (rf1 & H1 & H2). etrans; [by eapply Hf|]. auto.
Qed.

Lemma stable_applyAt rf i rf' : applyAt rf i = Some rf' → stable rf rf'.
Proof. unfold applyAt. intros. unbind. done. Qed.

Lemma stable_applyTwice rf i rf' : applyTwice rf i = Some rf' → stable rf rf'.
Proof. unfold applyTwice. intros. unbind. etrans; by eapply stable_applyAt. Qed.

Lemma stable_ae_term args rf : stable rf (ae_term args rf).
Proof. unfold ae_term. by repeat case_match. Qed.

Lemma stable_ae_match args rf rf' : ae_match args rf = Some rf' → stable rf rf'.
Proof. unfold ae_match. intros. repeat case_match; unbind; repeat case_match; unbind; done. Qed.

Lemma stable_ae_ahead args rf rf' : ae_ahead args rf = Some rf' → stable rf rf'.
Proof. unfold ae_ahead. intros. unbind. repeat case_match; unbind; repeat case_match; unbind; done. Qed.

Lemma stable_ae_commit args rf rf' : ae_commit args rf = Some rf' → stable rf rf'.
Proof.
  unfold ae_commit. intros. case_match; [|by simplify_eq].
  etrans; [|by eapply stable_foldM; [apply stable_applyTwice|]]. done.
Qed.

Lemma stable_AppendEntries r args rf rf' reply :
  AppendEntries r args rf = Some (rf', reply) → stable rf rf'.
Proof.
  unfold AppendEntries. intros Heq. case_match; [by simplify_eq|].
  etrans; [apply (stable_ae_term args)|]. apply bind_Some in Heq as (m & _ & Heq).
  repeat case_match; unbind.
  - etrans; [by eapply stable_ae_match|]. etrans; [by eapply stable_ae_commit|]. done.
  - etrans; [by eapply stable_ae_ahead|]. etrans; [by eapply stable_ae_commit|]. done.
  - done.
Qed.

Lemma stable_RequestVote r args rf rf' reply :
  RequestVote r args rf = Some (rf', reply) → stable rf rf'.
Proof.
  unfold RequestVote, rv_term. intros Heq. repeat case_match; unbind; repeat case_match; unbind; done.
Qed.

Lemma stable_updateCommit rf rf' : updateCommit rf = Some rf' → stable rf rf'.
Proof.
  unfold updateCommit. intros Heq. apply bind_Some in Heq as (temp & _ & Heq).
  case_match; [|by simplify_eq; case_match].
  etrans; [|by eapply stable_foldM; [apply stable_applyAt|]]. clear. by case_match.
Qed.

Lemma zset_length {A} (l k : list A) i x : zset l i x = Some k → length k = length l.
Proof. intros Hz%zlen_zset. unfold zlen in Hz. lia. Qed.

Lemma stable_appendRollback server args reply rf rf' :
  appendRollback server args reply rf = Some rf' → stable rf rf'.
Proof.
  unfold appendRollback. intros Heq. apply bind_Some in Heq as (next & _ & Heq).
  case_match; unbind; done.
Qed.

Lemma appendSuccess_commit server args rf rf' :
  appendSuccess server args rf = Some rf' →
  rf' = rf ∨ ∃ next m,
    length next = length rf.(nextIndex) ∧ length m = length rf.(matchIndex) ∧
    updateCommit (rf <| matchIndex := m |> <| nextIndex := next |>) = Some rf'.
Proof.
  unfold appendSuccess. intros Heq. apply bind_Some in Heq as (next & _ & Heq).
  case_match; [|simplify_eq; by left].
  apply bind_Some in Heq as (old & _ & Heq). apply bind_Some in Heq as (rf1 & H1 & Heq).
  apply bind_Some in Heq as (nx & Hnx & Heq). right.
  destruct (old <? _).
  - apply bind_Some in H1 as (m & Hm & [= <-]).
    exists nx, m. by rewrite (zset_length _ _ _ _ Hnx), (zset_length _ _ _ _ Hm).
  - injection H1 as <-. exists nx, rf.(matchIndex). rewrite (zset_length _ _ _ _ Hnx). split_and!; [done..|].
    rewrite <- Heq. by destruct rf.
Qed.

Lemma stable_appendReply r server termTemp ok args reply rf rf' :
  appendReply r server termTemp ok args reply rf = Some rf' → stable rf rf'.
Proof.
  unfold appendReply. intros Heq. case_match; [by simplify_eq|].
  apply bind_Some in Heq as (rf1 & H1 & Heq). etrans; [|by eapply stable_updateCommit].
  clear Heq. repeat case_match; simplify_eq; try done; [by eapply stable_appendRollback|].
  apply appendSuccess_commit in H1 as [->|(next & m & _ & _ & H1)]; [done|].
  etrans; [|by eapply stable_updateCommit]. done.
Qed.

(** *** Operations and well-formedness *)

Lemma wf_foldM {B} (f : Raft → B → option Raft) rf l rf' :
  (∀ rf i rf', f rf i = Some rf' → wf rf → wf rf') → foldM f rf l = Some rf' → wf rf → wf rf'.
Proof.
  intros Hf. revert rf. induction l as [|x l IH]; intros rf Heq ?; cbn [foldM] in Heq.
  - by simplify_eq.
  - apply bind_Some in Heq as (rf1 & H1 & H2). eauto.
Qed.

Lemma wf_updateCommit rf rf' : updateCommit rf = Some rf' → wf rf → wf rf'.
Proof.
  unfold updateCommit. intros Heq Hwf. apply bind_Some in Heq as (temp & _ & Heq).
  set (rf1 := if _ <? temp then _ else _) in *.
  assert (wf rf1) as Hwf1.
  { subst rf1. clear Heq. destruct Hwf. case_match; to_prop; split; cbn; try done. lia. }
  clearbody rf1. case_match; [|by simplify_eq].
  eapply wf_foldM; [|done..]. clear. unfold applyAt. intros rf i rf' Heq []. unbind. by split.
Qed.

Lemma appendRollback_wf server args reply rf rf' :
  appendRollback server args reply rf = Some rf' → wf rf → wf rf'.
Proof.
  unfold appendRollback. intros Heq []. apply bind_Some in Heq as (next & _ & Heq).
  case_match; [|by simplify_eq]. apply bind_Some in Heq as (nx & Hnx & [= <-]).
  assert (length nx = length rf.(nextIndex)) as Hlen.
  { destruct (RequestAppendReply.Miss reply); [by eapply zset_length, Hnx|].
    apply bind_Some in Hnx as (index & _ & Hnx). destruct (negb _); by eapply zset_length, Hnx. }
  split; cbn; congruence.
Qed.

Lemma wf_appendReply r server termTemp ok args reply rf rf' :
  appendReply r server termTemp ok args reply rf = Some rf' → wf rf → wf rf'.
Proof.
  unfold appendReply. intros Heq Hwf. case_match; [by simplify_eq|].
  apply bind_Some in Heq as (rf1 & H1 & Heq). eapply wf_updateCommit; [done|].
  clear Heq. repeat case_match; simplify_eq; try done.
  - destruct Hwf; by split.
  - apply appendRollback_wf in H1; auto.
  - apply appendSuccess_commit in H1 as [->|(next & m & Hn & Hm & H1)]; [done|].
    eapply wf_updateCommit; [done|]. destruct Hwf. split; cbn; congruence.
Qed.

Lemma wf_installReply r server termTemp ok reply rf rf' :
  installReply r server termTemp ok reply rf = Some rf' → wf rf → wf rf' ∧ stable rf rf'.
Proof.
  unfold installReply. intros Heq Hwf. destruct Hwf.
  repeat case_match; unbind; split; try done; split; cbn; try done.
  by erewrite zset_length by eassumption.
Qed.

Lemma wf_Start cmd rf rf' res :
  Start cmd rf = Some (rf', res) → wf rf → wf rf' ∧ stable rf rf'.
Proof.
  unfold Start. intros Heq Hwf. repeat case_match; simplify_eq; try done.
  - split; [destruct Hwf; by split|done].
  - apply bind_Some in Heq as (m & Hm & [= <- <-]). apply zset_length in Hm.
    change (length m = length rf.(matchIndex)) in Hm.
    split; [|done]. destruct Hwf as [[l Hl]]. split; cbn; try done; [|congruence].
    rewrite Hl. by eexists.
Qed.

Lemma wf_electionWin rf rf' :
  electionWin rf = Some rf' → wf rf → wf rf' ∧ stable rf rf'.
Proof.
  unfold electionWin. intros Heq Hwf. destruct Hwf. case_match; [|done]. simplify_eq.
  split; [|done]. split; cbn; try done; by rewrite length_fmap.
Qed.

Lemma wf_AppendEntries r args rf rf' reply :
  AppendEntries r args rf = Some (rf', reply) → wf rf → wf rf'.
Proof.
  intros Heq Hwf. destruct (Z.lt_ge_cases args.(RequestAppendArgs.Term) rf.(currentTerm)).
  - by rewrite (AppendEntries_old _ _ _ _ _ Heq).
  - destruct (AppendEntries_spec r args rf Hwf) as (? & ? & Heq' & ? & _); [done|].
    by simplify_eq.
Qed.

Lemma InstallSnapshot_recoverable r args rf rf' reply :
  InstallSnapshot r args rf = Some (rf', reply) → snap_msg args →
  wf rf → durable rf → snap_ok rf → wf rf' ∧ durable rf' ∧ snap_ok rf'.
Proof.
  intros Heq Hmsg Hwf Hd Hs.
  destruct (decide (rf.(currentTerm) ≤ args.(SnapArg.Term) ∧
               rf.(snapshotIndex) < args.(SnapArg.LastIncludedIndex))) as [[Ht Hi]|Hn].
  - destruct (InstallSnapshot_spec r args rf Hwf Ht Hi) as (rf1 & Heq1 & Hwf1 & Hin).
    simplify_eq. destruct Hin as (H1 & H2 & _ & _ & Hdu & Hp & _).
    split_and!; [done..|]. unfold snap_ok. by rewrite Hp, H1, H2.
  - destruct (InstallSnapshot_skip r args rf) as (rf1 & Heq1 & Hwf1 & _); [lia|].
    simplify_eq. split; [auto|]. clear Hwf1.
    assert (stable rf rf') as Hst; [|split; [by apply Hst|by eapply snap_ok_stable]].
    unfold InstallSnapshot in Heq. case_match; [by simplify_eq|].
    assert (stable rf (is_term args (resetTime r rf))) as Hst.
    { unfold is_term. by repeat case_match. }
    case_match; to_prop; [by simplify_eq|].
    destruct (is_term_state args (resetTime r rf)) as (_ & Hsn & _). rewrite Hsn in *.
    cbn in *. lia.
Qed.

Lemma persistV2_recoverable ss rf rf' :
  persistV2 ss rf = Some rf' → ss.(SnapShot.LastIndex) ≤ rf.(commitIndex) →
  wf rf → durable rf → snap_ok rf → wf rf' ∧ durable rf' ∧ snap_ok rf'.
Proof.
  intros Heq Hc Hwf Hd Hs. pose proof (persistV2_wf _ _ _ Hwf Hc Heq) as Hwf'.
  destruct (decide (compacts ss rf)) as [Hcom|Hn].
  - destruct (persistV2_spec ss rf Hwf Hcom) as (e & rf1 & Heq1 & _ & ->).
    simplify_eq. split_and!; [done|done|]. unfold snap_ok.
    cbn -[decodeSnapShot gob_enc]. by rewrite decodeSnapShot_enc.
  - rewrite persistV2_skip in Heq by done. by simplify_eq.
Qed.

(** *** The restart *)

(** [rf'] is what [Make] builds from the disk of [rf]. *)
Definition recovered (rf rf' : Raft) : Prop :=
  rf'.(currentTerm) = rf.(currentTerm) ∧ rf'.(votedFor) = rf.(votedFor) ∧
  rf'.(log) = rf.(log) ∧ rf'.(snapshotIndex) = rf.(snapshotIndex) ∧
  rf'.(snapshotTerm) = rf.(snapshotTerm) ∧
  rf'.(commitIndex) = rf.(snapshotIndex) ∧ rf'.(tp) = 0 ∧
  rf'.(me) = rf.(me) ∧ rf'.(peers) = rf.(peers).

Lemma Make_recoverable r rf :
  recoverable rf →
  ∃ rf', Make rf.(peers) rf.(me) rf.(persister) r = Some rf' ∧
    recovered rf rf' ∧ recoverable rf'.
Proof.
  intros [Hwf Hd Hs Ht Hv]. unfold Make.
  rewrite (Make_boot_spec _ _ _ rf); [|done|by destruct (wf_log _ Hwf) as [l ->]].
  cbn [mbind option_bind]. set (rf1 := _ <| log := log rf |>).
  destruct (Make_init_spec r rf1)
    as (rf2 & Heq & H1 & H2 & H3 & H4 & H5 & H6 & H7 & H8 & H9 & H10 & H11 & H12 & H13 & H14).
  { apply (wf_me _ Hwf). }
  exists rf2. split; [done|].
  assert (votedFor rf1 = votedFor rf) as Hvote.
  { subst rf1. cbn. case_match; to_prop; [by rewrite Hv|done]. }
  destruct Hs as [Hs1 Hs2].
  assert (recovered rf rf2) as Hr.
  { unfold recovered. rewrite H6, H4, H5, H7. split_and!; try done; congruence. }
  split; [done|]. destruct Hr as (E1 & E2 & E3 & E4 & E5 & E6 & E7 & E8 & E9).
  split; [|done| |by rewrite E1|by rewrite E1, E2].
  - destruct Hwf. split; [by rewrite E3|by rewrite E4|lia|by rewrite E8, E9|..]; congruence.
  - unfold snap_ok. rewrite H13, E4, E5. done.
Qed.

Lemma Make_fresh n me' r :
  0 ≤ me' < Z.of_nat n →
  ∃ rf, Make n me' Persister.MakePersister r = Some rf ∧ recoverable rf ∧
    rf.(currentTerm) = 0 ∧ rf.(votedFor) = -1 ∧ rf.(log) = [Log0] ∧ rf.(tp) = 0 ∧
    rf.(me) = me' ∧ rf.(peers) = n.
Proof.
  intros Hme. unfold Make. rewrite Make_boot_fresh. cbn [mbind option_bind].
  set (rf1 := _ <| log := [Log0] |>). destruct (Make_init_spec r rf1)
    as (rf2 & Heq & H1 & H2 & H3 & H4 & H5 & H6 & H7 & H8 & H9 & H10 & H11 & H12 & H13 & H14);
    [done|].
  cbn -[decodeSnapShot] in H4, H5, H13. rewrite decodeSnapShot_nil in H4, H5.
  exists rf2. split_and!; try done. split; [|done| |by rewrite H1|by rewrite H1, H2].
  - split; [by rewrite H3; eexists|by rewrite H4|lia|by rewrite H9, H10|..]; congruence.
  - unfold snap_ok. rewrite H13, decodeSnapShot_nil, H4, H5. done.
Qed.

Lemma Make_fresh_snap n me' r rf :
  0 ≤ me' < Z.of_nat n → Make n me' Persister.MakePersister r = Some rf →
  rf.(snapshotIndex) = 0 ∧ rf.(snapshotTerm) = 0 ∧ rf.(commitIndex) = 0.
Proof.
  intros Hme. unfold Make. rewrite Make_boot_fresh. cbn [mbind option_bind].
  set (rf1 := _ <| log := [Log0] |>). intros Hmake. destruct (Make_init_spec r rf1)
    as (rf2 & Heq & _ & _ & _ & H4 & H5 & H6 & _); [done|].
  cbn -[decodeSnapShot] in H4, H5. rewrite decodeSnapShot_nil in H4, H5.
  assert (rf = rf2) as -> by congruence. rewrite H6, H4, H5. done.
Qed.

(** *** The invariant *)

Lemma recoverable_quiet t rf rf' :
  quiet t rf rf' → wf rf' → durable rf' → snap_ok rf' → recoverable rf → recoverable rf'.
Proof.
  intros [] ??? [_ _ _ Ht Hv]. split; [done..|lia|].
  intros Hz. rewrite q_vote. case_cmp; [done|]. apply Hv. lia.
Qed.

Lemma recoverable_stable t rf rf' :
  quiet t rf rf' → (wf rf → wf rf') → stable rf rf' → recoverable rf → recoverable rf'.
Proof.
  intros Hq Hwf Hst Hr. pose proof Hr as []. eapply recoverable_quiet; [done|auto..|done].
  - by apply Hst.
  - by eapply snap_ok_stable.
Qed.

(** The operations on the timer, the role and the flags. *)
Lemma recoverable_same rf rf' :
  rf'.(persister) = rf.(persister) → rf'.(currentTerm) = rf.(currentTerm) →
  rf'.(votedFor) = rf.(votedFor) → rf'.(log) = rf.(log) →
  rf'.(snapshotIndex) = rf.(snapshotIndex) → rf'.(snapshotTerm) = rf.(snapshotTerm) →
  rf'.(commitIndex) = rf.(commitIndex) → rf'.(me) = rf.(me) → rf'.(peers) = rf.(peers) →
  rf'.(nextIndex) = rf.(nextIndex) → rf'.(matchIndex) = rf.(matchIndex) →
  recoverable rf → recoverable rf'.
Proof.
  intros Ep Et Ev El Ei Es Ec Em En Ex Ey [[] Hd Hs Ht Hv]. split.
  - split; [by rewrite El|by rewrite Ei|by rewrite Ei, Ec|by rewrite Em, En|congruence..].
  - by eapply durable_ext.
  - unfold snap_ok in *. congruence.
  - congruence.
  - by rewrite Et, Ev.
Qed.

Lemma recoverable_RequestVote r args rf rf' reply :
  0 < args.(RequestVoteArgs.Term) →
  RequestVote r args rf = Some (rf', reply) → recoverable rf → recoverable rf'.
Proof.
  intros Hpos Heq [Hwf Hd Hs Ht Hv].
  destruct (RequestVote_spec r args rf Hwf)
    as (rf1 & g & Heq1 & Hwf1 & _ & Hterm & _ & Hvote & _ & _ & _ & Hdur & Hg).
  simplify_eq. split; [done|auto| |lia|lia].
  eapply snap_ok_stable; [by eapply stable_RequestVote|done].
Qed.

Lemma recoverable_step rf rf' : peer_step rf rf' → recoverable rf → recoverable rf'.
Proof.
  intros Hstep Hr. pose proof Hr as [Hwf Hd Hs Ht Hv]. destruct Hstep as
    [?????? Heq|????? Heq|????? Hm Heq|??? Hc Heq|???? Heq| | | | |?? Heq|???? Heq
    |??????? Heq|???????? Heq| |??? Heq].
  - by eapply recoverable_RequestVote.
  - destruct (Z.lt_ge_cases args.(RequestAppendArgs.Term) rf.(currentTerm)).
    { by rewrite (AppendEntries_old _ _ _ _ _ Heq). }
    eapply recoverable_stable; [by eapply quiet_AppendEntries| |by eapply stable_AppendEntries|done].
    by eapply wf_AppendEntries.
  - destruct (InstallSnapshot_recoverable _ _ _ _ _ Heq Hm Hwf Hd Hs) as (? & ? & ?).
    destruct (Z.lt_ge_cases args.(SnapArg.Term) rf.(currentTerm)).
    { by rewrite (InstallSnapshot_old _ _ _ _ _ Heq). }
    by eapply recoverable_quiet; [by eapply quiet_InstallSnapshot|..].
  - destruct (persistV2_recoverable _ _ _ Heq Hc Hwf Hd Hs) as (? & ? & ?).
    by eapply recoverable_quiet; [by eapply quiet_persistV2|..].
  - destruct (wf_Start _ _ _ _ Heq Hwf). by eapply recoverable_stable; [by eapply quiet_Start|..].
  - unfold oscillator_check. repeat case_match; try done. by apply (recoverable_same rf).
  - by apply (recoverable_same rf).
  - split; [by destruct Hwf; split|done|exact Hs|cbn; lia|cbn; lia].
  - unfold voteReply. repeat case_match; to_prop; try done.
    + split; [by destruct Hwf; split|done|exact Hs|cbn; lia|done].
    + by apply (recoverable_same rf).
  - destruct (wf_electionWin _ _ Heq Hwf) as [? Hst]. unfold electionWin in Heq.
    case_match; [|done]. simplify_eq. by split.
  - unfold Append2_top in Heq. repeat case_match; unbind; try done. by apply (recoverable_same rf).
  - destruct (wf_installReply _ _ _ _ _ _ _ Heq Hwf). apply quiet_installReply in Heq as [t Hq].
    by eapply recoverable_stable.
  - pose proof (wf_appendReply _ _ _ _ _ _ _ _ Heq) as Hwf'.
    pose proof (stable_appendReply _ _ _ _ _ _ _ _ Heq).
    apply quiet_appendReply in Heq as [t Hq]. by eapply recoverable_stable.
  - by apply (recoverable_same rf).
  - destruct (Make_recoverable r _ Hr) as (? & ? & _ & ?). by simplify_eq.
Qed.

Lemma recoverable_rtc rf rf' : rtc peer_step rf rf' → recoverable rf → recoverable rf'.
Proof. induction 1; eauto using recoverable_step. Qed.

(** C5: Crash recovery: a peer that started from an empty disk and then took any
    sequence of steps can crash at any moment between two steps: [Make] succeeds on
    what it left on disk, and yields the same term, vote, log, snapshot index and
    snapshot term, as a follower whose commit index is the snapshot's. The steps
    ([peer_step]) are the handlers, elections, replication, [Start], [Kill], log
    compaction, crashes and restarts, with any arguments but for these: a vote is
    asked for a positive term (candidates count up from 0; a vote for term 0 would be
    forgotten, since [Make] takes term 0 for a new peer), a snapshot is received with
    the index and term that are written in it, as leaders send it, and the server
    compacts the log only up to the commit index. *)
Theorem crash_recovery n me' r0 r rf0 rf :
  0 ≤ me' < Z.of_nat n →
  Make n me' Persister.MakePersister r0 = Some rf0 → rtc peer_step rf0 rf →
  ∃ rf', Make rf.(peers) rf.(me) rf.(persister) r = Some rf' ∧ recovered rf rf' ∧ wf rf'.
Proof.
  intros Hme Hmk Hrtc. destruct (Make_fresh n me' r0 Hme) as (rf1 & H1 & Hr & _). simplify_eq.
  destruct (Make_recoverable r rf) as (rf' & ? & ? & []); [by eapply recoverable_rtc|]. eauto.
Qed.

(** C27: A vote survives a crash: a peer that granted its vote to a candidate (a peer's
    number, so not -1) in a positive term, then crashed and restarted, refuses every
    other candidate of that term.  (The peer was in a state that its steps reach,
    [recoverable].) *)
Theorem vote_survives_crash r args rf rf1 reply1 r1 rf2 r2 args2 :
  recoverable rf → 0 < args.(RequestVoteArgs.Term) →
  args.(RequestVoteArgs.CandidateId) ≠ -1 →
  RequestVote r args rf = Some (rf1, reply1) → reply1.(RequestVoteReply.VoteGranted) = true →
  Make rf1.(peers) rf1.(me) rf1.(persister) r1 = Some rf2 →
  args2.(RequestVoteArgs.Term) = args.(RequestVoteArgs.Term) →
  args2.(RequestVoteArgs.CandidateId) ≠ args.(RequestVoteArgs.CandidateId) →
  ∃ rf3 reply2, RequestVote r2 args2 rf2 = Some (rf3, reply2) ∧
    reply2.(RequestVoteReply.VoteGranted) = false.
Proof.
  intros Hr Hpos Hne Heq Hg Hmake Ht Hc.
  pose proof (recoverable_RequestVote _ _ _ _ _ Hpos Heq Hr) as Hr1.
  destruct (Make_recoverable r1 rf1 Hr1) as (rf2' & Hmake' & Hrec & Hr2). simplify_eq.
  destruct (RequestVote_spec r args rf (rec_wf _ Hr))
    as (rf1' & g & Heq1 & _ & _ & Hterm & _ & Hvote & _ & _ & _ & _ & Hiff). simplify_eq.
  cbn in Hg. subst g.
  destruct (RequestVote_spec r2 args2 rf2 (rec_wf _ Hr2))
    as (rf3 & g2 & Heq2 & _ & _ & _ & _ & _ & _ & _ & _ & _ & Hg2).
  exists rf3, (RequestVoteReply.mk (currentTerm rf2) g2). split; [done|]. cbn.
  destruct g2; [|done]. destruct Hrec as (E1 & E2 & _).
  destruct (proj1 Hg2 eq_refl) as (_ & [H2|[H2|H2]] & _).
  - destruct (proj1 Hiff eq_refl). lia.
  - congruence.
  - congruence.
Qed.

(** Log compaction does not change elections: before and after
    [persistV2], a peer answers every vote request the same way and ends in
    the same term with the same vote. *)
Theorem compaction_keeps_votes r args ss rf rf1 :
  wf rf → ss.(SnapShot.LastIndex) ≤ rf.(commitIndex) → persistV2 ss rf = Some rf1 →
  ∃ rf2 rf3 reply,
    RequestVote r args rf = Some (rf2, reply) ∧ RequestVote r args rf1 = Some (rf3, reply) ∧
    rf3.(currentTerm) = rf2.(currentTerm) ∧ rf3.(votedFor) = rf2.(votedFor).
Proof.
  intros Hwf Hc Heq. pose proof (persistV2_wf _ _ _ Hwf Hc Heq) as Hwf1.
  assert (currentTerm rf1 = currentTerm rf ∧ votedFor rf1 = votedFor rf ∧
    lastLogIndex rf1 = lastLogIndex rf ∧
    absTerm rf1 (lastLogIndex rf1) = absTerm rf (lastLogIndex rf)) as (Ht & Hv & Hl & Ha).
  { destruct (decide (compacts ss rf)) as [Hcom|Hn].
    - destruct (persistV2_view ss rf rf1 Hwf Hcom Heq) as (_ & Hv2 & Hv3).
      destruct (persistV2_spec ss rf Hwf Hcom) as (e & rf' & Heq1 & _ & Hrf').
      rewrite Heq in Heq1. injection Heq1 as <-. rewrite Hv3, Hv2 by apply Hcom. by rewrite Hrf'.
    - rewrite persistV2_skip in Heq by done. by simplify_eq. }
  destruct (RequestVote_spec r args rf Hwf)
    as (rf2 & g2 & Heq2 & _ & _ & Hterm2 & _ & Hvote2 & _ & _ & _ & _ & Hiff2).
  destruct (RequestVote_spec r args rf1 Hwf1)
    as (rf3 & g3 & Heq3 & _ & _ & Hterm3 & _ & Hvote3 & _ & _ & _ & _ & Hiff3).
  rewrite Ht, Hv, Ha, Hl in *.
  assert (g3 = g2) as ->.
  { apply eq_true_iff_eq. by rewrite Hiff2, Hiff3. }
  exists rf2, rf3, (RequestVoteReply.mk (currentTerm rf) g2). split_and!; congruence.
Qed.
End recovery.

(** ** Concrete inputs *)

(** A peer that voted in term 1, accepted an entry, compacted its log, and
    crashed. *)
Definition ex_boot : Raft := default ex_peer (@Make codec 3 0 Persister.MakePersister 5).

Definition ex_vote : RequestVoteArgs.t := RequestVoteArgs.mk 1 2 0 0.

Definition ex_voted : Raft :=
  default ex_peer (fst <$> @RequestVote codec 7 ex_vote ex_boot).

Lemma ex_boot_recoverable : @recoverable codec ex_boot.
Proof.
  destruct (@Make_fresh codec 3 0 5) as (rf & Heq & Hr & _); [lia|].
  unfold ex_boot. by rewrite Heq.
Defined.

Lemma crash_recovery_witness :
  ∃ rf', @Make codec 3 0 ex_voted.(persister) 9 = Some rf' ∧
    rf'.(votedFor) = 2 ∧ rf'.(currentTerm) = 1.
Proof.
  destruct (@crash_recovery codec 3 0 5 9 ex_boot ex_voted) as (rf' & H & Hrec & _).
  - lia.
  - by vm_compute.
  - apply rtc_once. apply (@ps_RequestVote codec 7 ex_vote ex_boot ex_voted (RequestVoteReply.mk 0 true)).
    + cbn. lia.
    + by vm_compute.
  - exists rf'. split; [exact H|]. destruct Hrec as (H1 & H2 & _). rewrite H1, H2. by vm_compute.
Defined.

Lemma vote_survives_crash_witness :
  ∃ rf2 rf3 reply2, @Make codec 3 0 ex_voted.(persister) 9 = Some rf2 ∧
    @RequestVote codec 4 (RequestVoteArgs.mk 1 1 8 8) rf2 = Some (rf3, reply2) ∧
    reply2.(RequestVoteReply.VoteGranted) = false.
Proof.
  destruct (@Make codec 3 0 ex_voted.(persister) 9) as [rf2|] eqn:Heq; [|by vm_compute in Heq].
  destruct (@vote_survives_crash codec 7 ex_vote ex_boot ex_voted (RequestVoteReply.mk 0 true)
    9 rf2 4 (RequestVoteArgs.mk 1 1 8 8)) as (rf3 & reply2 & H & Hg).
  - apply ex_boot_recoverable.
  - by vm_compute.
  - by vm_compute.
  - by vm_compute.
  - done.
  - exact Heq.
  - done.
  - done.
  - by exists rf2, rf3, reply2.
Defined.

Lemma compaction_keeps_votes_witness :
  ∃ rf1 rf3 reply, @persistV2 codec (SnapShot.mk (Some ∅) 2 0 (Some ∅)) ex_peer = Some rf1 ∧
    @RequestVote codec 4 (RequestVoteArgs.mk 3 1 3 2) rf1 = Some (rf3, reply) ∧
    reply.(RequestVoteReply.VoteGranted) = true.
Proof.
  destruct (@persistV2 codec (SnapShot.mk (Some ∅) 2 0 (Some ∅)) ex_peer) as [rf1|] eqn:Heq;
    [|by vm_compute in Heq].
  destruct (@compaction_keeps_votes codec 4 (RequestVoteArgs.mk 3 1 3 2)
    (SnapShot.mk (Some ∅) 2 0 (Some ∅)) ex_peer rf1 ex_peer_wf) as (rf2 & rf3 & reply & H2 & H3 & _).
  - by vm_compute.
  - exact Heq.
  - exists rf1, rf3, reply. split_and!; [done|exact H3|]. vm_compute in H2. by injection H2 as _ <-.
Defined.
