(* ===== verification/RaftReplication.v ===== *)
(** Replication from a leader to one follower ([src/src/raft/raft.go]): the two
    sides together.  [AppendEntries] of the follower, [appendArgs] and
    [appendReply] of the leader, and the snapshot path, are run against each
    other by [sync]; the leader rolls its next index back until the follower
    accepts, and then the follower holds the leader's log. *)
From S2P Require Import Prelude Gob Iface RaftTypes RaftPersist RaftLog RaftLogProps RaftLeader RaftPeer GobImpl.

Section replication.
Context `{!RaftCodec}.

(** *** The leader and the follower *)

(** A live leader whose next index for [server] is in its log. *)
Record leads (server next : Z) (L : Raft) : Prop := {
  ld_wf : wf L;
  ld_alive : L.(dead) = false;
  ld_tp : L.(tp) = 2;
  ld_start : L.(startAppend) = true;
  ld_match : Forall (λ m, m ≤ lastLogIndex L) L.(matchIndex);
  ld_next : zget L.(nextIndex) server = Some next;
  ld_last : next ≤ zlen L.(log)
}.

(** The Log Matching property of the two logs. *)
Definition log_matching (L F : Raft) : Prop :=
  ∀ i e e', absEntry L i = Some e → absEntry F i = Some e' → e.(Log.Term) = e'.(Log.Term) →
  ∀ j, L.(snapshotIndex) < j → F.(snapshotIndex) < j → j ≤ i → absEntry F j = absEntry L j.

(** The follower's entries of the leader's term come from the leader. *)
Definition leader_entries (L F : Raft) : Prop :=
  ∀ i e, L.(snapshotIndex) < i → absEntry F i = Some e →
  e.(Log.Term) = L.(currentTerm) → absEntry L i = Some e.

(** The follower holds every entry of the leader's log. *)
Definition holds_log (L F : Raft) : Prop :=
  ∀ i, L.(snapshotIndex) < i → F.(snapshotIndex) < i → i ≤ lastLogIndex L →
  absEntry F i = absEntry L i.

Record replicating (server next : Z) (L F : Raft) : Prop := {
  rp_leads : leads server next L;
  rp_wf : wf F;
  rp_term : F.(currentTerm) ≤ L.(currentTerm);
  rp_match : log_matching L F;
  rp_entries : leader_entries L F
}.

(** What the handling of a reply keeps of the leader. *)
Definition same_log (L L' : Raft) : Prop :=
  L'.(log) = L.(log) ∧ L'.(snapshotIndex) = L.(snapshotIndex) ∧
  L'.(currentTerm) = L.(currentTerm).

Lemma same_log_abs L L' : same_log L L' → ∀ i, absEntry L' i = absEntry L i.
Proof. intros (H1 & H2 & _) i. unfold absEntry. by rewrite H1, H2. Qed.

Lemma same_log_last L L' : same_log L L' → lastLogIndex L' = lastLogIndex L.
Proof. intros (H1 & H2 & _). unfold lastLogIndex. by rewrite H1, H2. Qed.

Lemma same_log_replicating server next next' L L' F :
  same_log L L' → leads server next' L' → replicating server next L F →
  replicating server next' L' F.
Proof.
  intros Hs Hl [_ Hwf Ht Hm He]. pose proof (same_log_abs _ _ Hs) as Habs.
  destruct Hs as (H1 & H2 & H3). split; [done|done|lia| |].
  - intros i e e'. rewrite H2. rewrite Habs. intros ???? j. rewrite Habs. by eapply Hm.
  - intros i e. rewrite H2, H3, Habs. apply He.
Qed.

(** The leader's commit rule runs, and keeps it a leader. *)
Lemma leads_updateCommit server next L :
  leads server next L →
  ∃ L', updateCommit L = Some L' ∧ leads server next L' ∧ same_log L L'.
Proof.
  intros [Hwf Ha Ht Hs Hm Hn Hl].
  destruct (updateCommit_spec L Hwf Hm) as (temp & L' & _ & Heq & Hwf' & _).
  exists L'. split; [done|]. apply updateCommit_frame in Heq. rewrite Heq in *.
  split; by try split.
Qed.

(** *** The messages *)

Lemma appendArgs_spec server next L :
  leads server next L → 0 < next →
  ∃ args, appendArgs server L = Some (Some args) ∧
    args.(RequestAppendArgs.Term) = L.(currentTerm) ∧
    args.(RequestAppendArgs.PrevLogIndex) = next - 1 + L.(snapshotIndex) ∧
    Some args.(RequestAppendArgs.PrevLogTerm) =
      absTerm L args.(RequestAppendArgs.PrevLogIndex) ∧
    args.(RequestAppendArgs.Entries) = drop (Z.to_nat next) L.(log).
Proof.
  intros [Hwf Ha Ht Hs Hm Hn Hl] Hpos. unfold appendArgs. rewrite Hn, Ht. cbn [mbind option_bind].
  destruct (Z.leb_spec next 0); [lia|]. cbn [negb Z.eqb Pos.eqb].
  rewrite (proj2 (zfrom_Some L.(log) next _)) by (split; [lia|done]). cbn [mbind option_bind].
  unfold absTerm, absEntry. destruct (Z.eqb_spec next 1) as [->|Hne].
  - cbn [mbind option_bind]. eexists. split; [done|]. cbn [RequestAppendArgs.Term
      RequestAppendArgs.PrevLogIndex RequestAppendArgs.PrevLogTerm RequestAppendArgs.Entries].
    split_and!; [done|done| |done]. by destruct (Z.eqb_spec (1 - 1 + snapshotIndex L) (snapshotIndex L)); [|lia].
  - destruct (zget_lt L.(log) (next - 1)) as [e He]; [lia|]. rewrite He. cbn [mbind option_bind].
    eexists. split; [done|]. cbn [RequestAppendArgs.Term
      RequestAppendArgs.PrevLogIndex RequestAppendArgs.PrevLogTerm RequestAppendArgs.Entries].
    split_and!; [done|done| |done].
    destruct (Z.eqb_spec (next - 1 + snapshotIndex L) (snapshotIndex L)); [lia|].
    destruct (Z.ltb_spec (snapshotIndex L) (next - 1 + snapshotIndex L)); [|lia].
    rewrite Z.add_simpl_r, He. done.
Qed.

(** *** The replies *)

(** A refusal makes the leader retry strictly earlier in its log. *)
Lemma appendRollback_spec server next args reply L F :
  leads server next L → 0 < next → wf F → F.(snapshotIndex) < next - 1 + L.(snapshotIndex) →
  args.(RequestAppendArgs.PrevLogIndex) = next - 1 + L.(snapshotIndex) →
  ae_conflict args (RequestAppendReply.mk F.(currentTerm) false false 0 0 0) F = Some reply →
  ∃ next' L', appendRollback server args reply L = Some L' ∧ next' < next ∧
    leads server next' L' ∧ same_log L L'.
Proof.
  intros [Hwf Ha Ht Hs Hm Hn Hl] Hpos HwfF Hsnap Hprev Hreply.
  assert (∃ next', next' < next ∧
    (if RequestAppendReply.Miss reply then
       zset (nextIndex L) server (RequestAppendReply.Len reply - snapshotIndex L)
     else
       index ← findLast (log L) (RequestAppendReply.TermConflict reply)
                 (RequestAppendArgs.PrevLogIndex args - snapshotIndex L);
       if negb (index =? -1) then zset (nextIndex L) server index
       else zset (nextIndex L) server (RequestAppendReply.TermStart reply - snapshotIndex L)) =
    zset (nextIndex L) server next') as (next' & Hlt & Hset).
  { unfold ae_conflict in Hreply. case_match; to_prop.
    - simplify_eq. cbn. eexists. split; [|done]. lia.
    - apply bind_Some in Hreply as (e & He & Hreply).
      apply bind_Some in Hreply as (start & Hstart & [= <-]). cbn.
      apply findEntry_bound in Hstart.
      destruct (findLast_total L.(log) e.(Log.Term)
        (args.(RequestAppendArgs.PrevLogIndex) - L.(snapshotIndex))) as [index Hindex]; [lia|].
      rewrite Hindex. cbn [mbind option_bind]. apply findLast_bound in Hindex; [|lia].
      destruct (Z.eqb_spec index (-1)); cbn [negb]; eexists; (split; [|done]); lia. }
  assert (∃ nx, zset (nextIndex L) server next' = Some nx) as [nx Hnx].
  { eexists. apply zset_lt. by eapply zget_Some_range. }
  exists next'. unfold appendRollback. rewrite Hn. cbn [mbind option_bind].
  destruct (Z.eqb_spec (next + snapshotIndex L) (RequestAppendArgs.PrevLogIndex args + 1)); [|lia].
  rewrite Hset, Hnx. cbn [mbind option_bind]. eexists. split; [done|]. split; [done|]. split; [|done].
  split; try done; cbn; [|by eapply zget_zset_eq|lia].
  destruct Hwf. split; try done. cbn. apply zlen_zset in Hnx. unfold zlen in Hnx. lia.
Qed.

(** An acceptance moves the next index to the end of the log. *)
Lemma appendSuccess_spec server next args L :
  leads server next L → 0 < next →
  args.(RequestAppendArgs.PrevLogIndex) = next - 1 + L.(snapshotIndex) →
  args.(RequestAppendArgs.Entries) = drop (Z.to_nat next) L.(log) →
  ∃ L', appendSuccess server args L = Some L' ∧
    leads server (zlen L.(log)) L' ∧ same_log L L'.
Proof.
  intros Hlead Hpos Hprev Hent. pose proof Hlead as [Hwf Ha Ht Hs Hm Hn Hl].
  assert (zlen args.(RequestAppendArgs.Entries) = zlen L.(log) - next) as Hlen.
  { rewrite Hent. zlen_lia. }
  pose proof (zget_Some_range _ _ _ Hn) as Hrange.
  assert (length L.(nextIndex) = length L.(matchIndex)) as Hsame.
  { rewrite (wf_next _ Hwf). symmetry. apply (wf_match _ Hwf). }
  unfold appendSuccess. rewrite Hn. cbn [mbind option_bind].
  destruct (Z.eqb_spec (next + snapshotIndex L) (RequestAppendArgs.PrevLogIndex args + 1)); [|lia].
  cbn [andb]. destruct (Z.ltb_spec 0 (zlen args.(RequestAppendArgs.Entries))).
  2: { exists L. split; [done|]. replace (zlen (log L)) with next by lia. done. }
  destruct (zget_lt L.(matchIndex) server) as [old ->]; [unfold zlen in *; lia|].
  cbn [mbind option_bind].
  replace (next - 1 + zlen (RequestAppendArgs.Entries args) + snapshotIndex L)
    with (lastLogIndex L) by (unfold lastLogIndex; lia).
  set (m' := if old <? lastLogIndex L
             then <[Z.to_nat server := lastLogIndex L]> L.(matchIndex) else L.(matchIndex)).
  assert ((if old <? lastLogIndex L then
    m ← zset (matchIndex L) server (lastLogIndex L);
    Some (L <| matchIndex := m |>) else Some L) = Some (L <| matchIndex := m' |>)) as ->.
  { subst m'. case_match; [|by destruct L]. by rewrite zset_lt by (unfold zlen in *; lia). }
  cbn [mbind option_bind].
  destruct (zset (nextIndex L) server (next + zlen (RequestAppendArgs.Entries args)))
    as [nx|] eqn:Hnx; [|unfold zset in Hnx; case_decide; [done|lia]].
  cbn. rewrite Hnx. cbn [mbind option_bind].
  assert (leads server (zlen L.(log)) (L <| matchIndex := m' |> <| nextIndex := nx |>)) as Hl1.
  { pose proof (zlen_zset _ _ _ _ Hnx). assert (length m' = length L.(matchIndex)) as Hm'.
    { subst m'. case_match; [apply length_insert|done]. }
    split; try done; cbn; [..|rewrite (zget_zset_eq _ _ _ _ Hnx); f_equal; lia].
    - destruct Hwf. split; try done; cbn; unfold zlen in *; lia.
    - subst m'. case_match; [|done]. apply Forall_insert; [done|]. unfold lastLogIndex. cbn. lia. }
  destruct (leads_updateCommit _ _ _ Hl1) as (L' & ? & ? & ?). by exists L'.
Qed.

(** *** The follower's log after a message *)

(** [F'] has the log of [F], or nothing, after a later snapshot. *)
Definition sub_log (F F' : Raft) : Prop :=
  F.(snapshotIndex) ≤ F'.(snapshotIndex) ∧
  ((∀ j, F'.(snapshotIndex) < j → absEntry F' j = absEntry F j) ∨ ∀ j, absEntry F' j = None).

Lemma absEntry_gt rf i e : absEntry rf i = Some e → rf.(snapshotIndex) < i.
Proof. unfold absEntry. case_match; to_prop; done. Qed.

Lemma sub_log_replicating server next L F F' :
  sub_log F F' → wf F' → F'.(currentTerm) ≤ L.(currentTerm) →
  replicating server next L F → replicating server next L F'.
Proof.
  intros [Hle [Hs|Hn]] Hwf Ht [Hl _ _ Hm He]; (split; [done..| |]).
  - intros i e e' Hi Hi' Heq j Hj Hj' Hji. pose proof (absEntry_gt _ _ _ Hi').
    rewrite Hs in Hi' |- * by lia. eapply Hm; [done..|lia|done].
  - intros i e Hi Hi'. pose proof (absEntry_gt _ _ _ Hi'). rewrite Hs in Hi' by lia. by apply He.
  - intros i e e' _ Hi'. by rewrite Hn in Hi'.
  - intros i e _ Hi'. by rewrite Hn in Hi'.
Qed.

Lemma installed_sub_log args F F' :
  F.(snapshotIndex) < args.(SnapArg.LastIncludedIndex) → installed args F F' → sub_log F F'.
Proof.
  intros Hlt (H1 & _ & _ & H4 & _). split; [lia|]. case_decide.
  - left. intros j Hj. apply H4. lia.
  - right. intros j. destruct (absEntry F' j) eqn:Hj; [|done].
    pose proof (absEntry_gt _ _ _ Hj). rewrite <- Hj. apply H4. lia.
Qed.

(** An accepted message leaves the leader's log on the follower. *)
Lemma accepted_holds server next args L F F' :
  replicating server next L F → 0 < next →
  args.(RequestAppendArgs.Term) = L.(currentTerm) →
  args.(RequestAppendArgs.PrevLogIndex) = next - 1 + L.(snapshotIndex) →
  Some args.(RequestAppendArgs.PrevLogTerm) = absTerm L args.(RequestAppendArgs.PrevLogIndex) →
  args.(RequestAppendArgs.Entries) = drop (Z.to_nat next) L.(log) →
  F'.(snapshotIndex) = F.(snapshotIndex) → consistent args F → ae_result args F F' →
  holds_log L F'.
Proof.
  intros [[_ _ _ _ _ _ Hlast] _ _ Hm He] Hpos Ht Hp Hpt Hent Hsn Hc [Hbefore Hafter] i HLi HFi Hi.
  set (prev := RequestAppendArgs.PrevLogIndex args) in *.
  assert (zlen args.(RequestAppendArgs.Entries) + prev = lastLogIndex L) as Hlen.
  { rewrite Hent. unfold lastLogIndex. zlen_lia. }
  assert (∀ j, L.(snapshotIndex) < j → F.(snapshotIndex) < j → j ≤ prev →
    absEntry F j = absEntry L j) as Hprefix.
  { intros j HLj HFj Hj. destruct Hc as [Hc|Hc]; [fold prev in Hc; lia|].
    fold prev in Hc. apply fmap_Some in Hc as (e' & He' & Hterm).
    assert (∃ e, absEntry L prev = Some e ∧ e.(Log.Term) = e'.(Log.Term)) as (e & HLe & Hee).
    { unfold absTerm in Hpt. destruct (Z.eqb_spec prev (snapshotIndex L)); [lia|].
      destruct (absEntry L prev) as [e|]; [|done]. exists e. split; [done|].
      cbn in Hpt. congruence. }
    by eapply Hm. }
  destruct Hafter as [[Hlog [Hsnap|[Hlt Hterm]]]|Hnew].
  - lia.
  - rewrite Hlen in *. apply fmap_Some in Hterm as (e' & He' & Hterm').
    assert (absEntry F' i = absEntry F i) as -> by (unfold absEntry; by rewrite Hlog, Hsn).
    assert (absEntry L (lastLogIndex L) = Some e') as HLe by (apply He; [lia|done|congruence]).
    eapply Hm; [exact HLe|exact He'|done|lia..].
  - destruct (Z.le_gt_cases i prev).
    + rewrite Hbefore by done. apply Hprefix; lia.
    + rewrite Hnew by lia. rewrite Hent, zget_drop by lia. unfold absEntry.
      destruct (Z.ltb_spec (snapshotIndex L) i); [|lia]. f_equal. lia.
Qed.

(** *** One round *)

Lemma sync_install r server next L F :
  replicating server next L F → next ≤ 0 →
  ∃ L' F', sync r server L F = Some (L', F', false) ∧ same_log L L' ∧
    replicating server 1 L' F' ∧ L.(snapshotIndex) ≤ F'.(snapshotIndex).
Proof.
  intros Hr Hle. pose proof Hr as [[Hwf Ha Ht Hs Hm Hn Hl] HwfF Hterm _ _].
  unfold sync, Append2_top, killed. rewrite Ha, Ht, Hn. cbn [mbind option_bind negb Z.eqb Pos.eqb].
  destruct (Z.leb_spec next 0); [|lia].
  destruct (InstallSnapshot_installs r (installArgs L) F HwfF) as (F' & Heq & HwfF' & Hin).
  rewrite Heq. cbn [mbind option_bind].
  assert (F'.(currentTerm) ≤ L.(currentTerm)) as Hterm'.
  { destruct (quiet_InstallSnapshot _ _ _ _ _ Heq); [done|]. cbn in q_term. lia. }
  assert (sub_log F F' ∧ L.(snapshotIndex) ≤ F'.(snapshotIndex)) as [Hsub Hsn].
  { case_decide as Hd.
    - destruct Hd. split; [by apply (installed_sub_log (installArgs L))|].
      destruct Hin as [-> _]. done.
    - destruct Hin as (H1 & H2 & _). split; [|cbn in Hd; lia]. split; [lia|]. left. intros j Hj.
      unfold absEntry. by rewrite H1, H2. }
  unfold installReply. cbn [SnapReply.Term].
  destruct (Z.ltb_spec (currentTerm L) (currentTerm L)); [lia|].
  destruct (Z.ltb_spec (currentTerm L) (currentTerm F)); [lia|]. cbn [andb].
  rewrite zset_lt by (by eapply zget_Some_range). cbn [mbind option_bind].
  eexists _, F'. split; [done|]. split; [done|]. split; [|done].
  apply (same_log_replicating server next 1 L);
    [by split| |by apply (sub_log_replicating _ _ _ F)].
  pose proof (wf_log_len _ Hwf). split; try done; [|].
  - destruct Hwf. split; try done. cbn. by rewrite length_insert.
  - eapply (zget_zset_eq L.(nextIndex)), zset_lt. by eapply zget_Some_range.
Qed.

Lemma sync_append r server next L F :
  replicating server next L F → 0 < next →
  ∃ L' F' done, sync r server L F = Some (L', F', done) ∧ same_log L L' ∧
    F'.(snapshotIndex) = F.(snapshotIndex) ∧ wf F' ∧
    (next = 1 → L.(snapshotIndex) ≤ F.(snapshotIndex) → done = true) ∧
    if done : bool then holds_log L F' ∧ leads server (zlen L.(log)) L'
    else ∃ next', next' < next ∧ replicating server next' L' F'.
Proof.
  intros Hr Hpos. pose proof Hr as [Hlead HwfF Hterm _ _]. pose proof Hlead as [Hwf Ha Ht Hs Hm Hn Hl].
  destruct (appendArgs_spec server next L Hlead Hpos) as (args & Hargs & A1 & A2 & A3 & A4).
  unfold sync, Append2_top, killed. rewrite Ha, Ht, Hn. cbn [mbind option_bind negb Z.eqb Pos.eqb].
  destruct (Z.leb_spec next 0); [lia|]. rewrite Hargs. cbn [mbind option_bind].
  destruct (AppendEntries_spec r args F HwfF) as (F' & reply & Heq & HwfF' & Hsn & R1 & R2 & Hres);
    [lia|].
  rewrite Heq. cbn [mbind option_bind]. unfold appendReply. rewrite Hs. cbn [negb].
  destruct (Z.ltb_spec (currentTerm L) (currentTerm L)); [lia|].
  destruct (Z.ltb_spec (currentTerm L) (RequestAppendReply.Term reply)); [lia|]. cbn [andb].
  rewrite R2. destruct (decide (consistent args F)) as [Hc|Hc].
  - rewrite (bool_decide_true _ Hc). cbn [negb].
    destruct (appendSuccess_spec server next args L Hlead Hpos A2 A4) as (L1 & -> & Hl1 & Hs1).
    cbn [mbind option_bind].
    destruct (leads_updateCommit _ _ _ Hl1) as (L2 & -> & Hl2 & Hs2). cbn [mbind option_bind].
    eexists L2, F', true. split; [done|]. split; [unfold same_log in *; intuition congruence|].
    split_and!; [done|done|done| |done].
    eapply accepted_holds; [done..|]. apply Hres.
  - rewrite (bool_decide_false _ Hc). cbn [negb]. destruct Hres as (F1 & F2 & Hconf).
    assert (F.(snapshotIndex) < next - 1 + L.(snapshotIndex)) as Hgt.
    { destruct (Z.le_gt_cases (next - 1 + L.(snapshotIndex)) F.(snapshotIndex)); [|lia].
      destruct Hc. left. lia. }
    destruct (appendRollback_spec server next args reply L F) as (next' & L1 & -> & Hlt & Hl1 & Hs1);
      [done..|].
    cbn [mbind option_bind].
    destruct (leads_updateCommit _ _ _ Hl1) as (L2 & -> & Hl2 & Hs2). cbn [mbind option_bind].
    assert (same_log L L2) as Hs12 by (unfold same_log in *; intuition congruence).
    eexists L2, F', false. split; [done|]. split_and!; [done|done|done|lia|].
    exists next'. split; [done|]. apply (same_log_replicating server next next' L); [done|done|].
    apply (sub_log_replicating _ _ _ F); [|done| |done].
    + split; [lia|]. left. intros j _. unfold absEntry. by rewrite F1, Hsn.
    + destruct (quiet_AppendEntries _ _ _ _ _ Heq); [lia|]. lia.
Qed.

(** *** Until the follower has caught up *)

Lemma same_log_holds L L' F : same_log L L' → holds_log L' F → holds_log L F.
Proof.
  intros Hs Hh i. rewrite <- (same_log_abs _ _ Hs), <- (same_log_last _ _ Hs).
  destruct Hs as (_ & <- & _). apply Hh.
Qed.

(** The round after a snapshot is accepted. *)
Lemma catch_up_snapshot fuel r server L F :
  replicating server 1 L F → L.(snapshotIndex) ≤ F.(snapshotIndex) →
  ∃ L' F', catch_up (S fuel) r server L F = Some (L', F', true) ∧ same_log L L' ∧
    wf F' ∧ holds_log L F'.
Proof.
  intros Hr Hle. destruct (sync_append r server 1 L F Hr)
    as (L' & F' & [] & Heq & Hs & Hsn & Hwf & Hone & Hres); [lia| |by discriminate Hone].
  exists L', F'. cbn [catch_up]. rewrite Heq. split; [done|]. by destruct Hres.
Qed.

Lemma catch_up_done k r server next L F :
  replicating server next L F → next ≤ Z.of_nat k →
  ∃ L' F', catch_up (k + 2) r server L F = Some (L', F', true) ∧ same_log L L' ∧
    wf F' ∧ holds_log L F'.
Proof.
  revert next L F. induction k as [|k IH]; intros next L F Hr Hk.
  - destruct (sync_install r server next L F Hr) as (L1 & F1 & Heq & Hs & Hr1 & Hsn); [lia|].
    destruct (catch_up_snapshot 0 r server L1 F1 Hr1) as (L' & F' & Heq' & Hs' & Hwf & Hh).
    { by destruct Hs as (_ & -> & _). }
    exists L', F'. cbn [Nat.add]. change (catch_up 2 r server L F) with
      ('(L, F, done) ← sync r server L F;
       if done : bool then Some (L, F, true) else catch_up 1 r server L F).
    rewrite Heq. cbn [mbind option_bind]. rewrite Heq'.
    split; [done|]. split; [unfold same_log in *; intuition congruence|].
    split; [done|]. by eapply same_log_holds.
  - cbn [Nat.add catch_up]. destruct (Z.le_gt_cases next 0) as [Hle|Hgt].
    + destruct (sync_install r server next L F Hr Hle) as (L1 & F1 & -> & Hs & Hr1 & Hsn).
      cbn [mbind option_bind]. rewrite Nat.add_comm.
      destruct (catch_up_snapshot (S k) r server L1 F1 Hr1) as (L' & F' & Heq' & Hs' & Hwf & Hh).
      { by destruct Hs as (_ & -> & _). }
      exists L', F'. split; [done|]. split; [unfold same_log in *; intuition congruence|].
      split; [done|]. by eapply same_log_holds.
    + destruct (sync_append r server next L F Hr Hgt)
        as (L1 & F1 & [] & -> & Hs & Hsn & Hwf & _ & Hres); cbn [mbind option_bind].
      { exists L1, F1. by destruct Hres. }
      destruct Hres as (next' & Hlt & Hr1).
      destruct (IH next' L1 F1 Hr1) as (L' & F' & Heq' & Hs' & Hwf' & Hh); [lia|].
      exists L', F'. split; [done|]. split; [unfold same_log in *; intuition congruence|].
      split; [done|]. by eapply same_log_holds.
Qed.

(** C4: Replication reaches its end when calls get through. Take a live leader on
    which [Start] was called ([startAppend]), whose match indices are not after its
    log's end and whose next index for the follower is not after it either, and a
    well-formed follower of the leader's term or an older one. The two logs have the
    Log Matching property, and every entry of the leader's term that the follower has
    is in the leader's log at that index. Then in a round a refusal makes the next
    index strictly smaller; when the next index is before the leader's log (not
    positive), the round sends the snapshot, after which the next index is 1 and the
    follower's log starts no earlier than the leader's. After at most [next + 2]
    rounds the follower has accepted; then it holds every entry of the leader's log
    that is after both snapshots, and the leader's log is unchanged. *)
Theorem replication_catches_up r server next L F :
  leads server next L → wf F → F.(currentTerm) ≤ L.(currentTerm) →
  log_matching L F → leader_entries L F →
  (∃ L1 F1 done, sync r server L F = Some (L1, F1, done) ∧
     if 0 <? next then
       done = false → ∃ next', zget L1.(nextIndex) server = Some next' ∧ next' < next
     else done = false ∧ zget L1.(nextIndex) server = Some 1 ∧ L.(snapshotIndex) ≤ F1.(snapshotIndex)) ∧
  ∃ L' F', catch_up (Z.to_nat next + 2) r server L F = Some (L', F', true) ∧
    L'.(log) = L.(log) ∧ wf F' ∧ holds_log L F'.
Proof.
  intros. assert (replicating server next L F) as Hr by by split. split.
  - destruct (Z.ltb_spec 0 next) as [Hpos|Hle].
    + destruct (sync_append r server next L F Hr Hpos) as (L1 & F1 & d & Heq & _ & _ & _ & _ & Hd).
      exists L1, F1, d. split; [done|]. intros ->. destruct Hd as (next' & Hlt & Hr1).
      exists next'. split; [|done]. apply (ld_next _ _ _ (rp_leads _ _ _ _ Hr1)).
    + destruct (sync_install r server next L F Hr Hle) as (L1 & F1 & Heq & _ & Hr1 & Hsn).
      exists L1, F1, false. split; [done|]. split; [done|]. split; [|done].
      apply (ld_next _ _ _ (rp_leads _ _ _ _ Hr1)).
  - destruct (catch_up_done (Z.to_nat next) r server next L F Hr)
      as (L' & F' & Heq & (Hlog & _) & Hwf & Hh); [lia|].
    by exists L', F'.
Qed.
End replication.

(** ** Concrete inputs *)

(** A leader of term 3, and a follower whose last two entries come from a
    deposed leader of term 1. *)
Definition ex_leader : Raft :=
  mkRaft false 3 Persister.MakePersister 0 false 2 3 0
    [Log0; Log.mk (IInt 1) 1; Log.mk (IInt 2) 2; Log.mk (IInt 3) 3]
    0 0 [4; 4; 4] [3; 0; 0] 2 0 600 [] true 0 0 false [0; 0; 0]%nat [].

Definition ex_follower : Raft :=
  mkRaft false 3 Persister.MakePersister 1 false 0 1 0
    [Log0; Log.mk (IInt 1) 1; Log.mk (IInt 8) 1; Log.mk (IInt 9) 1; Log.mk (IInt 10) 1]
    0 0 [1; 1; 1] [0; 0; 0] 0 0 600 [] false 0 0 false [0; 0; 0]%nat [].

Lemma replication_catches_up_witness :
  ∃ L' F', @catch_up codec 6 0 1 ex_leader ex_follower = Some (L', F', true) ∧
    F'.(log) = ex_leader.(log) ∧ wf F'.
Proof.
  destruct (@replication_catches_up codec 0 1 4 ex_leader ex_follower)
    as (_ & L' & F' & Heq & _ & Hwf & _).
  - split; try done; [|repeat constructor; by vm_compute].
    split; cbn; try done; try lia. by eexists.
  - split; cbn; try done; try lia. by eexists.
  - cbn. lia.
  - intros i e e' He He' Ht j Hj Hj' Hji. cbn in Hj, Hj'.
    pose proof He as HL. unfold absEntry in HL. case_match; [|done].
    apply zget_Some_range in HL. change (0 ≤ i - 0 < 4) in HL.
    assert (i = 1 ∨ i = 2 ∨ i = 3) as [->|[->| ->]] by lia.
    + by assert (j = 1) as -> by lia.
    + vm_compute in He, He'. by simplify_eq.
    + vm_compute in He, He'. by simplify_eq.
  - intros i e Hi He Ht. pose proof He as HF. unfold absEntry in HF. case_match; [|done].
    apply zget_Some_range in HF. change (0 ≤ i - 0 < 5) in HF. cbn in Hi.
    assert (i = 1 ∨ i = 2 ∨ i = 3 ∨ i = 4) as [->|[->|[->| ->]]] by lia;
      vm_compute in He; simplify_eq; done.
  - exists L', F'. split; [exact Heq|]. split; [|done]. vm_compute in Heq. by injection Heq as <- <-.
Defined.
