(* ===== verification/RaftCluster.v ===== *)
(** A cluster of Raft peers electing leaders ([src/src/raft/raft.go],
    [startElection] and [RequestVote]).

    The state is the peers, the vote goroutines of every election (one per
    candidate, term and voter), and the goroutines that wait for votes.  An
    [action] is one atomic step: one operation of a peer under its mutex, or one
    step of a goroutine between two points where it holds the mutex.  A call is
    delivered at most once and may be lost before or after it is handled, as in
    [labrpc].  Goroutines of a peer that crashed are not removed, and a goroutine
    may stop at any moment, so the model has more behaviours than the program.

    The waiting goroutine reads its loop condition without the mutex and takes
    the mutex afterwards.  [act true] is the program when the condition still
    holds once the mutex is taken; [act false] is the program. *)
From S2P Require Import Prelude Gob Iface RaftTypes RaftPersist RaftLog RaftLogProps RaftElection RaftLeader RaftPeer RaftRecovery GobImpl.

(** A vote goroutine; [VCounted] remembers the votes a candidate has counted. *)
Inductive vote :=
  | VStart
  | VSent (args : RequestVoteArgs.t)
  | VReplied (ok : bool) (reply : RequestVoteReply.t)
  | VCounted
  | VLost.

Record cluster := mkCluster {
  nodes : list Raft;
  votes : gmap (nat * Z * nat) vote;    (* candidate, term, voter *)
  waits : gmap (nat * Z) bool           (* has read a true loop condition *)
}.

#[export] Instance eta_cluster : Eta cluster :=
  λ c, mkCluster c.(nodes) c.(votes) c.(waits).

(** The operations of a peer outside its elections. *)
Inductive op :=
  | OpAppendEntries (r : Z) (args : RequestAppendArgs.t)
  | OpInstallSnapshot (r : Z) (args : SnapArg.t)
  | OpPersistV2 (ss : SnapShot.t)
  | OpStart (cmd : iface)
  | OpCheck (r : Z)
  | OpTick
  | OpTop (server : Z)
  | OpInstallReply (r server termTemp : Z) (ok : bool) (reply : SnapReply.t)
  | OpAppendReply (r server termTemp : Z) (ok : bool) (args : RequestAppendArgs.t)
      (reply : RequestAppendReply.t)
  | OpKill
  | OpCrash (r : Z).

Inductive action :=
  | ALocal (i : nat) (o : op)
  | ABegin (i : nat)                       (* startElection, under the lock *)
  | AArgs (i : nat) (T : Z) (j : nat)      (* a vote goroutine builds its arguments *)
  | AServe (r : Z) (i : nat) (T : Z) (j : nat)   (* the voter handles the call *)
  | ADrop (i : nat) (T : Z) (j : nat)      (* the call or its answer is lost *)
  | ACount (r : Z) (i : nat) (T : Z) (j : nat)   (* the candidate handles the answer *)
  | ACheck (i : nat) (T : Z)               (* the loop condition, without the lock *)
  | AEnter (i : nat) (T : Z).              (* the loop body, with the lock *)

Section cluster.
Context `{!RaftCodec}.

Definition run_op (o : op) (rf : Raft) : option Raft :=
  match o with
  | OpAppendEntries r args => fst <$> AppendEntries r args rf
  | OpInstallSnapshot r args =>
      if bool_decide (snap_msg args) then fst <$> InstallSnapshot r args rf else None
  | OpPersistV2 ss =>
      if ss.(SnapShot.LastIndex) <=? rf.(commitIndex) then persistV2 ss rf else None
  | OpStart cmd => fst <$> Start cmd rf
  | OpCheck r => Some (oscillator_check r rf).1
  | OpTick => Some (oscillator_tick rf)
  | OpTop server => fst <$> Append2_top server rf
  | OpInstallReply r server t ok reply => installReply r server t ok reply rf
  | OpAppendReply r server t ok args reply => appendReply r server t ok args reply rf
  | OpKill => Some (Kill rf)
  | OpCrash r => Make rf.(peers) rf.(me) rf.(persister) r
  end.

(** The goroutines [startElection] starts: one per other peer; the candidate has
    its own vote. *)
Definition election_votes (n i : nat) (T : Z) : gmap (nat * Z * nat) vote :=
  list_to_map ((λ j, ((i, T, j), if decide (j = i) then VCounted else VStart)) <$> seq 0 n).

Definition set_node (i : nat) (rf : Raft) (c : cluster) : cluster :=
  c <| nodes := <[i := rf]> c.(nodes) |>.

Definition set_vote (k : nat * Z * nat) (v : vote) (c : cluster) : cluster :=
  c <| votes := <[k := v]> c.(votes) |>.

Definition act (fresh : bool) (a : action) (c : cluster) : option cluster :=
  match a with
  | ALocal i o =>
      rf ← c.(nodes) !! i; rf' ← run_op o rf; Some (set_node i rf' c)
  | ABegin i =>
      rf ← c.(nodes) !! i;
      let rf' := startElection_begin rf in
      Some (set_node i rf' c
        <| votes := election_votes (length c.(nodes)) i rf'.(currentTerm) ∪ c.(votes) |>
        <| waits := <[(i, rf'.(currentTerm)) := false]> c.(waits) |>)
  | AArgs i T j =>
      v ← c.(votes) !! (i, T, j); rf ← c.(nodes) !! i;
      match v with
      | VStart => args ← voteArgs T rf; Some (set_vote (i, T, j) (VSent args) c)
      | _ => None
      end
  | AServe r i T j =>
      v ← c.(votes) !! (i, T, j); rf ← c.(nodes) !! j;
      match v with
      | VSent args =>
          '(rf', reply) ← RequestVote r args rf;
          Some (set_vote (i, T, j) (VReplied true reply) (set_node j rf' c))
      | _ => None
      end
  | ADrop i T j =>
      v ← c.(votes) !! (i, T, j);
      match v with
      | VSent _ | VReplied _ _ =>
          Some (set_vote (i, T, j) (VReplied false (RequestVoteReply.mk 0 false)) c)
      | VStart => Some (set_vote (i, T, j) VLost c)
      | _ => None
      end
  | ACount r i T j =>
      v ← c.(votes) !! (i, T, j); rf ← c.(nodes) !! i;
      match v with
      | VReplied ok reply =>
          let rf' := voteReply r T ok reply rf in
          Some (set_vote (i, T, j)
                 (if ok && reply.(RequestVoteReply.VoteGranted) &&
                     (rf.(voteCount) <? rf'.(voteCount)) then VCounted else VLost)
                 (set_node i rf' c))
      | _ => None
      end
  | ACheck i T =>
      w ← c.(waits) !! (i, T); rf ← c.(nodes) !! i;
      if electionGuard T rf then Some (c <| waits := <[(i, T) := true]> c.(waits) |>)
      else Some (c <| waits := delete (i, T) c.(waits) |>)
  | AEnter i T =>
      w ← c.(waits) !! (i, T); rf ← c.(nodes) !! i;
      if negb w then None
      else if fresh && negb (electionGuard T rf) then None
      else
        match electionWin rf with
        | Some rf' => Some (set_node i rf' c <| waits := delete (i, T) c.(waits) |>)
        | None => Some (c <| waits := <[(i, T) := false]> c.(waits) |>)
        end
  end.

Fixpoint acts (fresh : bool) (l : list action) (c : cluster) : option cluster :=
  match l with
  | [] => Some c
  | a :: l => c ← act fresh a c; acts fresh l c
  end.

(** [n] peers that start with empty disks. *)
Definition start (n : nat) (r : Z) : option cluster :=
  l ← mapM (λ i, Make n (Z.of_nat i) Persister.MakePersister r) (seq 0 n);
  Some (mkCluster l ∅ ∅).

Definition reachable (fresh : bool) (n : nat) (c : cluster) : Prop :=
  ∃ r c0 l, start n r = Some c0 ∧ acts fresh l c0 = Some c.

(** Two peers that are leaders of the same term are the same peer. *)
Definition one_leader (c : cluster) : Prop :=
  ∀ i j rf rf', c.(nodes) !! i = Some rf → c.(nodes) !! j = Some rf' →
  rf.(tp) = 2 → rf'.(tp) = 2 → rf.(currentTerm) = rf'.(currentTerm) → i = j.

End cluster.

Section deviation.
#[local] Existing Instance codec.

(** The loop condition of [startElection] is read without the mutex, and the
    body does not look at it again.  A candidate of term 1 with a majority that
    is overtaken between the two, by a vote for a candidate of term 2, becomes
    leader of term 2: with the winner of term 2 there are two leaders of one
    term. *)
Theorem stale_guard_two_leaders :
  ∃ c, reachable false 3 c ∧ ¬ one_leader c.
Proof.
  set (l := [ABegin 0; AArgs 0 1 1; AServe 0 0 1 1; ACount 0 0 1 1; ACheck 0 1;
             ABegin 1; AArgs 1 2 0; AServe 0 1 2 0; ACount 0 1 2 0; ACheck 1 2;
             AEnter 1 2; AEnter 0 1]%nat).
  destruct (start 3 0) as [c0|] eqn:H0; [|by vm_compute in H0].
  destruct (acts false l c0) as [c|] eqn:Hc.
  2: { vm_compute in H0. injection H0 as <-. by vm_compute in Hc. }
  exists c. split; [by exists 0, c0, l|]. intros Hone.
  vm_compute in H0. injection H0 as <-. vm_compute in Hc. injection Hc as <-.
  discriminate (Hone 0%nat 1%nat _ _ eq_refl eq_refl eq_refl eq_refl eq_refl).
Qed.
End deviation.
