(* ===== verification/RaftNet.v ===== *)
(** A cluster of Raft peers that replicate their logs ([src/src/raft/raft.go],
    [Append2], [AppendEntries], [InstallSnapshot]).

    The peers and their elections are those of [RaftCluster]; here the messages of
    replication are those that the goroutines of [Append2] build.  A [flight] is
    one such goroutine: it is started by a round of [Append2], builds its
    arguments under the mutex, calls the follower, and handles the answer under
    the mutex.  Calls may be lost, delayed and overtaken, before and after they
    are handled; a call is handled at most once, as in [labrpc].  The key/value
    server does not compact the log here, as in the tests of Raft.

    [counts] is the variable [count] of every [Append2]: an answer is handled when
    no later round of the same goroutine has built its arguments.  With
    [late = true] that test is left out, which gives more behaviours.  (The
    variable is read after the mutex was released, so the program has some of
    them.)  The arguments are encoded when they are built: in the program the
    slice [Entries] shares the array of the log until [Call] encodes it. *)
From S2P Require Import Prelude Gob Iface RaftTypes RaftPersist RaftLog RaftElection RaftLeader RaftCluster GobImpl.

Inductive fstate :=
  | FAppend                                 (* to send entries *)
  | FInstall                                (* to send the snapshot *)
  | FAppendSent (countTemp : Z) (args : RequestAppendArgs.t)
  | FInstallSent (countTemp : Z) (args : SnapArg.t)
  | FAppendReplied (countTemp : Z) (ok : bool) (args : RequestAppendArgs.t)
      (reply : RequestAppendReply.t)
  | FInstallReplied (countTemp : Z) (ok : bool) (reply : SnapReply.t)
  | FDone.

Record flight := mkFlight {
  f_leader : nat;
  f_server : nat;
  f_term : Z;            (* [termTemp] of the Append2 *)
  f_state : fstate
}.

#[export] Instance eta_flight : Eta flight :=
  λ f, mkFlight f.(f_leader) f.(f_server) f.(f_term) f.(f_state).

Record net := mkNet {
  cl : cluster;
  flights : gmap nat flight;
  counts : gmap (nat * Z * nat) Z           (* leader, term, follower *)
}.

Inductive naction :=
  | NBase (a : action)
  | NTop (i server : nat) (t : Z) (id : nat)   (* a round of an Append2 starts flight [id] *)
  | NArgs (id : nat)                           (* it builds its arguments *)
  | NServe (r : Z) (id : nat)                  (* the follower handles the call *)
  | NDrop (id : nat)                           (* the call or its answer is lost *)
  | NReply (r : Z) (id : nat).                 (* the leader handles the answer *)

(** The steps of [RaftCluster] that are not steps of a flight. *)
Definition base (a : action) : bool :=
  match a with
  | ALocal _ o =>
      match o with
      | OpAppendEntries _ _ | OpInstallSnapshot _ _ | OpPersistV2 _
      | OpInstallReply _ _ _ _ _ | OpAppendReply _ _ _ _ _ _ => false
      | _ => true
      end
  | _ => true
  end.

(** The index of the last entry of a message. *)
Definition lastOf (args : RequestAppendArgs.t) : Z :=
  args.(RequestAppendArgs.PrevLogIndex) + zlen args.(RequestAppendArgs.Entries).

Section net.
Context `{!RaftCodec}.

Definition set_cl (c : cluster) (s : net) : net := mkNet c s.(flights) s.(counts).

Definition set_flight (id : nat) (f : flight) (s : net) : net :=
  mkNet s.(cl) (<[id := f]> s.(flights)) s.(counts).

Definition count_of (f : flight) (s : net) : Z :=
  default 0 (s.(counts) !! (f.(f_leader), f.(f_term), f.(f_server))).

(** [count++] *)
Definition bump (f : flight) (s : net) : net :=
  mkNet s.(cl) s.(flights)
    (<[(f.(f_leader), f.(f_term), f.(f_server)) := count_of f s + 1]> s.(counts)).

(** An answer of the goroutine's last round. *)
Definition current (late : bool) (countTemp : Z) (f : flight) (s : net) : bool :=
  late || (count_of f s =? countTemp).

Definition nact (late fresh : bool) (a : naction) (s : net) : option net :=
  match a with
  | NBase a =>
      if base a then c ← act fresh a s.(cl); Some (set_cl c s) else None
  | NTop i server t id =>
      rf ← s.(cl).(nodes) !! i;
      if bool_decide (server ≠ i ∧ (server < length s.(cl).(nodes))%nat ∧
                      t ≤ rf.(currentTerm) ∧ s.(flights) !! id = None) then
        '(_, rd) ← Append2_top (Z.of_nat server) rf;
        match rd with
        | RdAppend => Some (set_flight id (mkFlight i server t FAppend) s)
        | RdInstall => Some (set_flight id (mkFlight i server t FInstall) s)
        | _ => None
        end
      else None
  | NArgs id =>
      f ← s.(flights) !! id; rf ← s.(cl).(nodes) !! f.(f_leader);
      match f.(f_state) with
      | FAppend =>
          a ← appendArgs (Z.of_nat f.(f_server)) rf;
          let st := match a with
                    | Some args => FAppendSent (count_of f s + 1) args
                    | None => FDone
                    end in
          Some (set_flight id (f <| f_state := st |>) (bump f s))
      | FInstall =>
          let st := FInstallSent (count_of f s + 1) (installArgs rf) in
          Some (set_flight id (f <| f_state := st |>) (bump f s))
      | _ => None
      end
  | NServe r id =>
      f ← s.(flights) !! id; rf ← s.(cl).(nodes) !! f.(f_server);
      match f.(f_state) with
      | FAppendSent k args =>
          '(rf', reply) ← AppendEntries r args rf;
          Some (set_flight id (f <| f_state := FAppendReplied k true args reply |>)
                  (set_cl (set_node f.(f_server) rf' s.(cl)) s))
      | FInstallSent k args =>
          '(rf', reply) ← InstallSnapshot r args rf;
          Some (set_flight id (f <| f_state := FInstallReplied k true reply |>)
                  (set_cl (set_node f.(f_server) rf' s.(cl)) s))
      | _ => None
      end
  | NDrop id =>
      f ← s.(flights) !! id;
      match f.(f_state) with
      | FAppend | FInstall => Some (set_flight id (f <| f_state := FDone |>) s)
      | FAppendSent k args | FAppendReplied k _ args _ =>
          Some (set_flight id (f <| f_state :=
            FAppendReplied k false args (RequestAppendReply.mk 0 false false 0 0 0) |>) s)
      | FInstallSent k _ | FInstallReplied k _ _ =>
          Some (set_flight id (f <| f_state := FInstallReplied k false (SnapReply.mk 0) |>) s)
      | FDone => None
      end
  | NReply r id =>
      f ← s.(flights) !! id; rf ← s.(cl).(nodes) !! f.(f_leader);
      let finish rf' := Some (set_flight id (f <| f_state := FDone |>)
                          (set_cl (set_node f.(f_leader) rf' s.(cl)) s)) in
      match f.(f_state) with
      | FAppendReplied k ok args reply =>
          if current late k f s && negb (killed rf) then
            rf' ← appendReply r (Z.of_nat f.(f_server)) f.(f_term) ok args reply rf; finish rf'
          else Some (set_flight id (f <| f_state := FDone |>) s)
      | FInstallReplied k ok reply =>
          if current late k f s && negb (killed rf) then
            rf' ← installReply r (Z.of_nat f.(f_server)) f.(f_term) ok reply rf; finish rf'
          else Some (set_flight id (f <| f_state := FDone |>) s)
      | _ => None
      end
  end.

Fixpoint nacts (late fresh : bool) (l : list naction) (s : net) : option net :=
  match l with
  | [] => Some s
  | a :: l => s ← nact late fresh a s; nacts late fresh l s
  end.

Definition nstart (n : nat) (r : Z) : option net :=
  c ← start n r; Some (mkNet c ∅ ∅).

Definition nreachable (late fresh : bool) (n : nat) (s : net) : Prop :=
  ∃ r s0 l, nstart n r = Some s0 ∧ nacts late fresh l s0 = Some s.

(** A command applied in the first state is the one applied at its index in the
    second. *)
Definition agree_between (s s' : net) : Prop :=
  ∀ i j rf rf' m m', s.(cl).(nodes) !! i = Some rf → s'.(cl).(nodes) !! j = Some rf' →
  m ∈ applies rf.(out) → m' ∈ applies rf'.(out) →
  m.(ApplyMsg.CommandIndex) = m'.(ApplyMsg.CommandIndex) →
  m.(ApplyMsg.CommandValid) = true → m'.(ApplyMsg.CommandValid) = true →
  m.(ApplyMsg.Command) = m'.(ApplyMsg.Command).

(** No two peers have applied different commands at the same index. *)
Definition agree_applied (s : net) : Prop := agree_between s s.

(** A heartbeat that says nothing of the leader's own term: a call without entries
    after an entry of an older term, as a leader sends them until [Start] is
    called. *)
Definition bare (args : RequestAppendArgs.t) : bool :=
  match args.(RequestAppendArgs.Entries) with
  | [] => negb (args.(RequestAppendArgs.PrevLogTerm) =? args.(RequestAppendArgs.Term))
  | _ => false
  end.

(** No such heartbeat is handled late, when the follower has entries of the
    heartbeat's term after the place it speaks of. *)
Definition on_time (s : net) (a : naction) : bool :=
  match a with
  | NServe _ id =>
      match s.(flights) !! id with
      | Some f =>
          match f.(f_state), s.(cl).(nodes) !! f.(f_server) with
          | FAppendSent _ args, Some rf =>
              negb (bare args) ||
              forallb (λ p, match zget rf.(log) p with
                            | Some e => negb (e.(Log.Term) =? args.(RequestAppendArgs.Term)) ||
                                        (p <=? lastOf args)
                            | None => true
                            end) (zrange 0 (zlen rf.(log) - 1))
          | _, _ => true
          end
      | None => true
      end
  | _ => true
  end.

(** The runs whose steps are all on time. *)
Fixpoint timely (late fresh : bool) (l : list naction) (s : net) : option net :=
  match l with
  | [] => Some s
  | a :: l => if on_time s a then s1 ← nact late fresh a s; timely late fresh l s1 else None
  end.

(** Two logs that have an entry of the same term at the same index agree up to
    there. *)
Definition log_match (l k : list Log.t) : Prop :=
  ∀ p e d, l !! p = Some e → k !! p = Some d → e.(Log.Term) = d.(Log.Term) →
  take (S p) l = take (S p) k.
End net.

Section deviation.
#[local] Existing Instance codec.

(** The steps by which [i] wins term [T] with the vote of [j]. *)
Definition wins (i : nat) (T : Z) (j : nat) : list naction :=
  NBase <$> [ABegin i; AArgs i T j; AServe 0 i T j; ACount 0 i T j; ACheck i T; AEnter i T].

Definition starts (i : nat) (cmd : Z) : list naction := [NBase (ALocal i (OpStart (IInt cmd)))].

(** Flight [id] from [i] to [j] in term [T], as far as the call. *)
Definition sends (i j : nat) (T : Z) (id : nat) : list naction := [NTop i j T id; NArgs id].

Definition answered (id : nat) : list naction := [NServe 0 id; NReply 0 id].

(** Peer 0 leads term 1 and replicates command 1 to peer 1; peer 1 leads term 2,
    sends peer 0 a heartbeat that is late, replicates command 2 to peer 0 and
    applies it.  The heartbeat arrives and peer 0 discards command 2; it leads
    term 3 and replicates command 3 to peer 2. *)
Definition late_heartbeat : list naction :=
  wins 0 1 1 ++ starts 0 1 ++ sends 0 1 1 0 ++ answered 0 ++
  wins 1 2 2 ++ sends 1 0 2 1 ++ starts 1 2 ++ sends 1 0 2 2 ++ answered 2 ++
  [NServe 0 1] ++
  wins 0 3 2 ++ starts 0 3 ++ sends 0 2 3 3 ++ answered 3 ++ sends 0 2 3 4 ++ answered 4.

(** C13: Three peers can apply different commands at the same index, without a crash
    and with every election guarded: the follower that handles a late heartbeat
    of the leader of its term discards what it acknowledged since, which the
    leader has applied; it can then win the next term without it. *)
Theorem late_heartbeat_loses_command :
  ∃ s, nreachable false true 3 s ∧ one_leader s.(cl) ∧ ¬ agree_applied s.
Proof.
  destruct (nstart 3 0) as [s0|] eqn:H0; [|by vm_compute in H0].
  destruct (nacts false true late_heartbeat s0) as [s|] eqn:Hs.
  2: { vm_compute in H0. injection H0 as <-. by vm_compute in Hs. }
  exists s. split; [by exists 0, s0, late_heartbeat|].
  vm_compute in H0. injection H0 as <-. vm_compute in Hs. injection Hs as <-. split.
  - intros i j rf rf' Hi Hj Hti Htj HT.
    destruct i as [|[|[|]]], j as [|[|[|]]]; cbn in Hi, Hj; try done; simplify_eq; done.
  - intros Hagree.
    specialize (Hagree 0%nat 1%nat _ _ (ApplyMsg.mk true (IInt 3) 2) (ApplyMsg.mk true (IInt 2) 2)
      eq_refl eq_refl).
    discriminate Hagree; try done; vm_compute; repeat constructor.
Qed.
End deviation.
