(* ===== verification/RaftSafety.v ===== *)
(** Election safety of the cluster of [RaftCluster.v]: when the condition of the
    waiting loop still holds under the mutex, at most one peer becomes leader in
    a term, whatever messages the peers receive, lose or delay, and whatever
    crashes happen. *)
From S2P Require Import Prelude Gob Iface RaftTypes RaftPersist RaftLog RaftLogProps RaftElection RaftLeader RaftPeer RaftRecovery RaftCluster GobImpl.

(** The voter granted this vote. *)
Definition granted (v : vote) : bool :=
  match v with
  | VCounted => true
  | VReplied ok reply => ok && reply.(RequestVoteReply.VoteGranted)
  | _ => false
  end.

Definition is_counted (v : option vote) : bool :=
  match v with Some VCounted => true | _ => false end.

(** How many votes the candidate [i] of term [T] has counted. *)
Definition counted (c : cluster) (i : nat) (T : Z) : nat :=
  count_if (λ j, is_counted (c.(votes) !! (i, T, j))) (seq 0 (length c.(nodes))).

Section safety.
Context `{!RaftCodec}.

Record inv (n : nat) (c : cluster) : Prop := {
  i_len : length c.(nodes) = n;
  i_node i rf : c.(nodes) !! i = Some rf →
    rf.(me) = Z.of_nat i ∧ rf.(peers) = n ∧ recoverable rf;
  i_vote i T j v : c.(votes) !! (i, T, j) = Some v →
    (i < n)%nat ∧ (j < n)%nat ∧ 0 < T ∧
    (∀ rf, c.(nodes) !! i = Some rf → T ≤ rf.(currentTerm)) ∧
    (∀ args, v = VSent args →
       args.(RequestVoteArgs.Term) = T ∧ args.(RequestVoteArgs.CandidateId) = Z.of_nat i);
  i_grant i T j v rf : c.(votes) !! (i, T, j) = Some v → granted v = true →
    c.(nodes) !! j = Some rf →
    T ≤ rf.(currentTerm) ∧ (rf.(currentTerm) = T → rf.(votedFor) = Z.of_nat i);
  i_unique i i' T j v v' : c.(votes) !! (i, T, j) = Some v → c.(votes) !! (i', T, j) = Some v' →
    granted v = true → granted v' = true → i = i';
  i_count i rf : c.(nodes) !! i = Some rf → rf.(tp) = 1 →
    rf.(voteCount) = Z.of_nat (counted c i rf.(currentTerm));
  i_leader i rf : c.(nodes) !! i = Some rf → rf.(tp) = 2 →
    (n < 2 * counted c i rf.(currentTerm))%nat
}.

(** *** One leader *)

(** The voters of a majority, as a list. *)
Lemma inv_voters n c i T :
  inv n c → (n < 2 * counted c i T)%nat →
  ∃ q, NoDup q ∧ (n < 2 * length q)%nat ∧ Forall (λ k, k < n)%nat q ∧
    ∀ k, k ∈ q → c.(votes) !! (i, T, k) = Some VCounted.
Proof.
  intros Hinv Hm.
  destruct (count_if_filter (λ j, is_counted (votes c !! (i, T, j)))
    (seq 0 (length (nodes c)))) as (q & Hnd & Hlen & Hq); [apply NoDup_seq|].
  exists q. unfold counted in Hm. split_and!; [done|lia| |].
  - apply Forall_forall. intros k Hk. apply Hq in Hk as [Hk _]. apply elem_of_seq in Hk.
    rewrite (i_len _ _ Hinv) in Hk. lia.
  - intros k Hk. apply Hq in Hk as [_ Hk]. unfold is_counted in Hk. by repeat case_match.
Qed.

Lemma inv_elected n c i j T :
  inv n c → (n < 2 * counted c i T)%nat → (n < 2 * counted c j T)%nat → i = j.
Proof.
  intros Hinv Hi Hj.
  destruct (inv_voters n c i T Hinv Hi) as (q & ? & ? & ? & Hqi).
  destruct (inv_voters n c j T Hinv Hj) as (q' & ? & ? & ? & Hqj).
  destruct (majority_intersect n q q') as (k & Hk & Hk'); [done..|].
  apply (i_unique _ _ Hinv i j T k VCounted VCounted); [by apply Hqi|by apply Hqj|done..].
Qed.

Lemma inv_one_leader n c : inv n c → one_leader c.
Proof.
  intros Hinv i j rf rf' Hi Hj Hti Htj HT.
  apply (inv_elected n c i j rf.(currentTerm)); [done|by apply (i_leader _ _ Hinv)|].
  rewrite HT. by apply (i_leader _ _ Hinv).
Qed.

(** *** Steps that change one peer *)

Lemma counted_set_node i rf c k T : counted (set_node i rf c) k T = counted c k T.
Proof. unfold counted, set_node. cbn. by rewrite length_insert. Qed.

Lemma inv_set_node n c i rf rf' :
  inv n c → c.(nodes) !! i = Some rf →
  rf'.(me) = rf.(me) → rf'.(peers) = rf.(peers) → recoverable rf' →
  rf.(currentTerm) ≤ rf'.(currentTerm) →
  (∀ k T v, c.(votes) !! (k, T, i) = Some v → granted v = true →
     rf'.(currentTerm) = T → rf'.(votedFor) = Z.of_nat k) →
  (rf'.(tp) = 1 → rf'.(voteCount) = Z.of_nat (counted c i rf'.(currentTerm))) →
  (rf'.(tp) = 2 → (n < 2 * counted c i rf'.(currentTerm))%nat) →
  inv n (set_node i rf' c).
Proof.
  intros Hinv Hi Hme Hp Hrec Hle Hv H1 H2.
  pose proof (lookup_lt_Some _ _ _ Hi) as Hlt.
  assert (∀ k rk, (set_node i rf' c).(nodes) !! k = Some rk →
    k = i ∧ rk = rf' ∨ k ≠ i ∧ c.(nodes) !! k = Some rk) as Hlook.
  { intros k rk. cbn. intros [(-> & <- & _)|[? ?]]%list_lookup_insert_Some; [by left|right]. auto. }
  split.
  - cbn. rewrite length_insert. apply (i_len _ _ Hinv).
  - intros k rk Hk. apply Hlook in Hk as [[-> ->]|[_ Hk]]; [|by eapply i_node].
    rewrite Hme, Hp. destruct (i_node _ _ Hinv i rf Hi) as (? & ? & _). done.
  - intros k T j v Hk. destruct (i_vote _ _ Hinv _ _ _ _ Hk) as (? & ? & ? & Ht & ?).
    split_and!; [done..| |done]. intros rk Hrk. apply Hlook in Hrk as [[-> ->]|[_ Hrk]]; [|by apply Ht].
    specialize (Ht _ Hi). lia.
  - intros k T j v rj Hk Hg Hj. apply Hlook in Hj as [[-> ->]|[_ Hj]]; [|by eapply i_grant].
    destruct (i_grant _ _ Hinv _ _ _ _ _ Hk Hg Hi). split; [lia|]. by eapply Hv.
  - exact (i_unique _ _ Hinv).
  - intros k rk Hk. rewrite counted_set_node. apply Hlook in Hk as [[-> ->]|[_ Hk]]; [done|].
    by apply i_count with n.
  - intros k rk Hk. rewrite counted_set_node. apply Hlook in Hk as [[-> ->]|[_ Hk]]; [done|].
    by apply i_leader.
Qed.

(** The vote of a peer in its term is the one it granted. *)
Lemma i_current n c i rf k T v :
  inv n c → c.(nodes) !! i = Some rf → c.(votes) !! (k, T, i) = Some v → granted v = true →
  rf.(currentTerm) = T → rf.(votedFor) = Z.of_nat k.
Proof. intros Hinv Hi Hk Hg. by apply (i_grant _ _ Hinv k T i v rf). Qed.

Lemma inv_quiet n c i rf rf' t :
  inv n c → c.(nodes) !! i = Some rf → quiet t rf rf' → recoverable rf' →
  inv n (set_node i rf' c).
Proof.
  intros Hinv Hi Hq Hrec. pose proof Hq as [].
  apply inv_set_node with rf; [done..|lia| | |].
  - intros k T v Hk Hg HT. destruct (i_grant _ _ Hinv _ _ _ _ _ Hk Hg Hi) as [? Hvote].
    rewrite q_vote. case_cmp; [lia|]. apply Hvote. lia.
  - intros Htp. case_cmp; [lia|]. destruct q_tp as [Ht|[? ?]]; [|lia].
    rewrite q_votes, (i_count _ _ Hinv i rf Hi) by lia. do 2 f_equal. lia.
  - intros Htp. case_cmp; [lia|]. destruct q_tp as [Ht|[? ?]]; [|lia].
    replace (currentTerm rf') with (currentTerm rf) by lia. apply (i_leader _ _ Hinv i rf Hi). lia.
Qed.

Lemma run_op_peer_step o rf rf' : run_op o rf = Some rf' → peer_step rf rf'.
Proof.
  unfold run_op. intros Heq. destruct o; simplify_eq;
    try (apply fmap_Some in Heq as ([rf1 x] & Heq & ->); by econstructor); try by econstructor.
  - case_bool_decide; [|done]. apply fmap_Some in Heq as ([rf1 x] & Heq & ->). by econstructor.
  - case_match; to_prop; [|done]. by econstructor.
Qed.

(** The operations outside elections are quiet, but for a crash. *)
Lemma run_op_quiet o rf rf' :
  run_op o rf = Some rf' →
  (∃ t, quiet t rf rf') ∨ rf' = Kill rf ∨
  ∃ r, Make rf.(peers) rf.(me) rf.(persister) r = Some rf'.
Proof.
  assert (∀ rf, ∃ t, quiet t rf rf) as Hrefl.
  { intros rf0. exists rf0.(currentTerm). by apply quiet_refl. }
  unfold run_op. intros Heq. destruct o.
  - apply fmap_Some in Heq as ([rf1 x] & Heq & ->). left.
    destruct (Z.lt_ge_cases args.(RequestAppendArgs.Term) rf.(currentTerm)).
    + by rewrite (AppendEntries_old _ _ _ _ _ Heq).
    + eexists. by eapply quiet_AppendEntries.
  - case_bool_decide; [|done]. apply fmap_Some in Heq as ([rf1 x] & Heq & ->). left.
    destruct (Z.lt_ge_cases args.(SnapArg.Term) rf.(currentTerm)).
    + by rewrite (InstallSnapshot_old _ _ _ _ _ Heq).
    + eexists. by eapply quiet_InstallSnapshot.
  - case_match; [|done]. left. exists rf.(currentTerm). by eapply quiet_persistV2.
  - apply fmap_Some in Heq as ([rf1 x] & Heq & ->). left. exists rf.(currentTerm).
    by eapply quiet_Start.
  - simplify_eq. left. unfold oscillator_check. repeat case_match; try apply Hrefl.
    exists rf.(currentTerm). by apply quiet_resetTime.
  - simplify_eq. left. exists rf.(currentTerm). by apply quiet_fields.
  - apply fmap_Some in Heq as ([rf1 x] & Heq & ->). left. unfold Append2_top in Heq.
    exists rf.(currentTerm). repeat case_match; unbind; by apply quiet_fields.
  - left. by eapply quiet_installReply.
  - left. by eapply quiet_appendReply.
  - simplify_eq. auto.
  - right. right. by exists r.
Qed.

Lemma inv_local n c i rf o rf' :
  inv n c → c.(nodes) !! i = Some rf → run_op o rf = Some rf' → inv n (set_node i rf' c).
Proof.
  intros Hinv Hi Hop. destruct (i_node _ _ Hinv i rf Hi) as (Hme & Hp & Hrec).
  assert (recoverable rf') as Hrec'.
  { eapply recoverable_step; [by eapply run_op_peer_step|done]. }
  destruct (run_op_quiet _ _ _ Hop) as [[t Hq]|[->|[r Hmake]]].
  - by eapply inv_quiet.
  - apply inv_set_node with rf; try done.
    + intros k T v Hk Hg HT. by apply (i_current n c i rf k T v).
    + exact (i_count _ _ Hinv i rf Hi).
    + exact (i_leader _ _ Hinv i rf Hi).
  - destruct (Make_recoverable r rf Hrec) as (rf1 & Hmake1 & Hr & _). simplify_eq.
    destruct Hr as (E1 & E2 & _ & _ & _ & _ & E7 & E8 & E9).
    apply inv_set_node with rf; try done; try lia.
    intros k T v Hk Hg HT. rewrite E2. rewrite E1 in HT. by apply (i_current _ _ _ _ _ _ _ Hinv Hi Hk Hg).
Qed.

(** *** Steps that change the votes *)

Lemma lookup_set_vote k v c k' v' :
  (set_vote k v c).(votes) !! k' = Some v' →
  k' = k ∧ v' = v ∨ k' ≠ k ∧ c.(votes) !! k' = Some v'.
Proof. cbn. intros [[-> <-]|[? ?]]%lookup_insert_Some; auto. Qed.

Lemma counted_set_vote k v c i T old :
  c.(votes) !! k = Some old → (v = VCounted ↔ old = VCounted) →
  counted (set_vote k v c) i T = counted c i T.
Proof.
  intros Hold Hiff. unfold counted. cbn. apply count_if_ext, Forall_forall. intros j _.
  destruct (decide ((i, T, j) = k)) as [<-|Hne].
  - rewrite lookup_insert_eq, Hold. destruct v, old; try done; intuition discriminate.
  - by rewrite lookup_insert_ne by done.
Qed.

Lemma counted_vote c i T j old rf k T' :
  c.(votes) !! (i, T, j) = Some old → old ≠ VCounted → (j < length c.(nodes))%nat →
  counted (set_vote (i, T, j) VCounted (set_node i rf c)) k T' =
    if decide ((k, T') = (i, T)) then S (counted c k T') else counted c k T'.
Proof.
  intros Hold Ho Hj. unfold counted, set_node. cbn. rewrite length_insert. case_decide as Hk.
  - injection Hk as -> ->. apply (count_if_switch _ _ _ j); [apply NoDup_seq|..].
    + apply elem_of_seq. lia.
    + rewrite Hold. by destruct old.
    + by rewrite lookup_insert_eq.
    + intros y Hy. rewrite lookup_insert_ne; [done|]. congruence.
  - apply count_if_ext, Forall_forall. intros y _. rewrite lookup_insert_ne; [done|]. congruence.
Qed.

(** A vote that does not become a counted one. *)
Lemma inv_set_vote n c i T j old v :
  inv n c → c.(votes) !! (i, T, j) = Some old → old ≠ VCounted → v ≠ VCounted →
  (∀ args, v = VSent args →
     args.(RequestVoteArgs.Term) = T ∧ args.(RequestVoteArgs.CandidateId) = Z.of_nat i) →
  (granted v = true →
     (∀ rf, c.(nodes) !! j = Some rf → T ≤ rf.(currentTerm) ∧
        (rf.(currentTerm) = T → rf.(votedFor) = Z.of_nat i)) ∧
     ∀ i' v', c.(votes) !! (i', T, j) = Some v' → granted v' = true → i' = i) →
  inv n (set_vote (i, T, j) v c).
Proof.
  intros Hinv Hold Ho Hv Hargs Hg.
  assert (∀ k T', counted (set_vote (i, T, j) v c) k T' = counted c k T') as Hcount.
  { intros k T'. by apply counted_set_vote with old. }
  split.
  - apply Hinv.
  - apply Hinv.
  - intros i1 T1 j1 v1 [[[= -> -> ->] ->]|[_ H1]]%lookup_set_vote; [|by apply (i_vote _ _ Hinv)].
    destruct (i_vote _ _ Hinv _ _ _ _ Hold) as (? & ? & ? & ? & _). done.
  - intros i1 T1 j1 v1 rf [[[= -> -> ->] ->]|[_ H1]]%lookup_set_vote Hg1 Hj.
    + by apply (proj1 (Hg Hg1)).
    + by apply (i_grant _ _ Hinv i1 T1 j1 v1).
  - intros i1 i2 T1 j1 v1 v2 [[[= -> -> ->] ->]|[_ H1]]%lookup_set_vote
      [[Heq ->]|[_ H2]]%lookup_set_vote Hg1 Hg2.
    + by injection Heq as ->.
    + symmetry. by apply (proj2 (Hg Hg1) i2 v2).
    + injection Heq as -> -> ->. by apply (proj2 (Hg Hg2) i1 v1).
    + by apply (i_unique _ _ Hinv i1 i2 T1 j1 v1 v2).
  - intros k rf. rewrite Hcount. apply (i_count _ _ Hinv).
  - intros k rf. rewrite Hcount. apply (i_leader _ _ Hinv).
Qed.

(** A granted vote that is counted: the count of its election grows by one, and
    the candidate's [voteCount] with it. *)
Lemma inv_count_vote n c i T j old rf :
  inv n c → c.(votes) !! (i, T, j) = Some old → old ≠ VCounted → granted old = true →
  c.(nodes) !! i = Some rf → rf.(currentTerm) = T →
  inv n (set_vote (i, T, j) VCounted (set_node i (rf <| voteCount := rf.(voteCount) + 1 |>) c)).
Proof.
  intros Hinv Hold Ho Hg Hi HT. set (rf' := rf <| voteCount := _ |>).
  destruct (i_node _ _ Hinv i rf Hi) as (Hme & Hp & Hrec).
  destruct (i_vote _ _ Hinv _ _ _ _ Hold) as (Hin & Hjn & Hpos & Hle & _).
  set (c' := set_vote _ _ _).
  assert (∀ k T', counted c' k T' =
    if decide ((k, T') = (i, T)) then S (counted c k T') else counted c k T') as Hcount.
  { intros k T'. apply counted_vote with old; [done..|]. by rewrite (i_len _ _ Hinv). }
  assert (∀ k rk, c'.(nodes) !! k = Some rk →
    k = i ∧ rk = rf' ∨ k ≠ i ∧ c.(nodes) !! k = Some rk) as Hlook.
  { intros k rk. cbn. intros [(-> & <- & _)|[? ?]]%list_lookup_insert_Some; [by left|right]. auto. }
  assert (∀ k rk, c'.(nodes) !! k = Some rk → ∃ r0, c.(nodes) !! k = Some r0 ∧
    rk.(currentTerm) = r0.(currentTerm) ∧ rk.(votedFor) = r0.(votedFor) ∧ rk.(tp) = r0.(tp))
    as Hsame.
  { intros k rk [[-> ->]|[_ Hk]]%Hlook; [by exists rf|by exists rk]. }
  assert (∀ i1 T1 j1 v1, c'.(votes) !! (i1, T1, j1) = Some v1 →
    (i1, T1, j1) = (i, T, j) ∧ v1 = VCounted ∨ c.(votes) !! (i1, T1, j1) = Some v1) as Hvotes.
  { intros i1 T1 j1 v1 [?|[_ ?]]%lookup_set_vote; [by left|by right]. }
  assert (∀ i1 T1 j1 v1, c'.(votes) !! (i1, T1, j1) = Some v1 → granted v1 = true →
    ∃ v0, c.(votes) !! (i1, T1, j1) = Some v0 ∧ granted v0 = true) as Hgrant.
  { intros i1 T1 j1 v1 [[[= -> -> ->] ->]|?]%Hvotes ?; [by exists old|by exists v1]. }
  split.
  - unfold c'. cbn. rewrite length_insert. apply (i_len _ _ Hinv).
  - intros k rk [[-> ->]|[_ Hk]]%Hlook; [|by apply (i_node _ _ Hinv)].
    split_and!; [done..|]. by apply (recoverable_same rf).
  - intros i1 T1 j1 v1 Hv1.
    assert (∀ rk, c'.(nodes) !! i1 = Some rk → T1 ≤ rk.(currentTerm)) as Hterm.
    { intros rk (r0 & H0 & -> & _)%Hsame. apply Hvotes in Hv1 as [[[= -> -> ->] _]|Hv1].
      - by apply Hle.
      - destruct (i_vote _ _ Hinv _ _ _ _ Hv1) as (_ & _ & _ & ? & _). auto. }
    apply Hvotes in Hv1 as [[[= -> -> ->] ->]|Hv1]; [done|].
    destruct (i_vote _ _ Hinv _ _ _ _ Hv1) as (? & ? & ? & _ & ?). done.
  - intros i1 T1 j1 v1 rk Hv1 Hg1 (r0 & H0 & -> & -> & _)%Hsame.
    destruct (Hgrant _ _ _ _ Hv1 Hg1) as (v0 & Hv0 & Hg0). by eapply i_grant.
  - intros i1 i2 T1 j1 v1 v2 H1 H2 Hg1 Hg2.
    destruct (Hgrant _ _ _ _ H1 Hg1) as (u1 & Hu1 & Hgu1).
    destruct (Hgrant _ _ _ _ H2 Hg2) as (u2 & Hu2 & Hgu2). by eapply (i_unique _ _ Hinv i1 i2).
  - intros k rk Hk Htp. rewrite Hcount. apply Hlook in Hk as [[-> ->]|[Hne Hk]].
    + rewrite decide_True by (cbn; congruence). cbn in *. rewrite (i_count _ _ Hinv i rf Hi Htp). lia.
    + rewrite decide_False by congruence. by apply (i_count _ _ Hinv).
  - intros k rk Hk Htp. rewrite Hcount. apply Hlook in Hk as [[-> ->]|[Hne Hk]].
    + pose proof (i_leader _ _ Hinv i rf Hi Htp). case_decide; cbn in *; lia.
    + rewrite decide_False by congruence. by apply (i_leader _ _ Hinv).
Qed.

(** *** A new election *)

Lemma election_votes_lookup n i T k v :
  election_votes n i T !! k = Some v ↔
  ∃ j, k = (i, T, j) ∧ (j < n)%nat ∧ v = if decide (j = i) then VCounted else VStart.
Proof.
  unfold election_votes. rewrite <- elem_of_list_to_map.
  - rewrite list_elem_of_fmap. split.
    + intros (j & [= -> ->] & Hj%elem_of_seq). exists j. split_and!; [done|lia|done].
    + intros (j & -> & Hj & ->). exists j. split; [done|]. apply elem_of_seq. lia.
  - rewrite <- list_fmap_compose. apply (NoDup_fmap_2_strong _); [|apply NoDup_seq].
    intros x y _ _ [= ->]. done.
Qed.

(** The new term has no votes yet. *)
Lemma inv_fresh n c i rf j :
  inv n c → c.(nodes) !! i = Some rf → c.(votes) !! (i, rf.(currentTerm) + 1, j) = None.
Proof.
  intros Hinv Hi. destruct (c.(votes) !! _) as [v|] eqn:Hv; [|done].
  destruct (i_vote _ _ Hinv _ _ _ _ Hv) as (_ & _ & _ & Hle & _). specialize (Hle _ Hi). lia.
Qed.

Definition begin_votes (c : cluster) (i : nat) (T : Z) : cluster :=
  c <| votes := election_votes (length c.(nodes)) i T ∪ c.(votes) |>.

Lemma lookup_begin_votes n c i rf k v :
  inv n c → c.(nodes) !! i = Some rf →
  (begin_votes c i (rf.(currentTerm) + 1)).(votes) !! k = Some v →
  (∃ j, k = (i, rf.(currentTerm) + 1, j) ∧ (j < n)%nat ∧
     v = if decide (j = i) then VCounted else VStart) ∨
  (∀ j, k ≠ (i, rf.(currentTerm) + 1, j)) ∧ c.(votes) !! k = Some v.
Proof.
  intros Hinv Hi. cbn. rewrite lookup_union_Some_raw. intros [Hk|[Hn Hk]].
  - apply election_votes_lookup in Hk as (j & -> & Hj & ->). left. exists j.
    by rewrite <- (i_len _ _ Hinv).
  - right. split; [|done]. intros j ->. by rewrite (inv_fresh _ _ _ _ _ Hinv Hi) in Hk.
Qed.

Lemma counted_begin n c i rf k T :
  inv n c → c.(nodes) !! i = Some rf →
  counted (begin_votes c i (rf.(currentTerm) + 1)) k T =
    if decide ((k, T) = (i, rf.(currentTerm) + 1)) then 1%nat else counted c k T.
Proof.
  intros Hinv Hi. unfold counted, begin_votes. cbn. set (T' := rf.(currentTerm) + 1).
  case_decide as Hk.
  - injection Hk as -> ->. pose proof (lookup_lt_Some _ _ _ Hi) as Hlt.
    assert (∀ j, (j < length (nodes c))%nat →
      (election_votes (length (nodes c)) i T' ∪ votes c) !! (i, T', j) =
      Some (if decide (j = i) then VCounted else VStart)) as Hj.
    { intros j Hj. apply lookup_union_Some_l, election_votes_lookup. by exists j. }
    transitivity (S (count_if (λ _ : nat, false) (seq 0 (length (nodes c)))));
      [apply (count_if_switch _ _ _ i)|by rewrite count_if_none by (by apply Forall_forall)].
    + apply NoDup_seq.
    + apply elem_of_seq. lia.
    + done.
    + rewrite Hj by done. by rewrite decide_True.
    + intros y Hy. destruct (decide (y < length (nodes c))%nat) as [Hyn|Hyn].
      * rewrite Hj by done. by rewrite decide_False.
      * rewrite lookup_union_r; [by rewrite (inv_fresh _ _ _ _ _ Hinv Hi)|].
        destruct (election_votes _ i T' !! _) eqn:He; [|done].
        apply election_votes_lookup in He as (j & [= <-] & ? & _). done.
  - apply count_if_ext, Forall_forall. intros j _. rewrite lookup_union_r; [done|].
    destruct (election_votes _ i T' !! _) eqn:He; [|done].
    apply election_votes_lookup in He as (j' & [= -> ->] & _). done.
Qed.

Lemma inv_begin n c i rf :
  inv n c → c.(nodes) !! i = Some rf →
  inv n (set_node i (startElection_begin rf)
           (begin_votes c i (startElection_begin rf).(currentTerm))).
Proof.
  intros Hinv Hi. set (rf' := startElection_begin rf).
  change (currentTerm rf') with (currentTerm rf + 1). set (T' := currentTerm rf + 1).
  pose proof (i_node _ _ Hinv i rf Hi) as (Hme & Hp & Hrec).
  pose proof (lookup_lt_Some _ _ _ Hi) as Hlt. rewrite (i_len _ _ Hinv) in Hlt.
  pose proof (rec_term _ Hrec) as Hpos.
  set (c' := set_node _ _ _).
  assert (∀ k rk, c'.(nodes) !! k = Some rk →
    k = i ∧ rk = rf' ∨ k ≠ i ∧ c.(nodes) !! k = Some rk) as Hlook.
  { intros k rk. cbn. intros [(-> & <- & _)|[? ?]]%list_lookup_insert_Some; [by left|right]. auto. }
  assert (∀ k T, counted c' k T =
    if decide ((k, T) = (i, T')) then 1%nat else counted c k T) as Hcount.
  { intros k T. unfold c'. rewrite counted_set_node. by apply counted_begin with n. }
  assert (∀ k v, c'.(votes) !! k = Some v →
    (∃ j, k = (i, T', j) ∧ (j < n)%nat ∧ v = if decide (j = i) then VCounted else VStart) ∨
    (∀ j, k ≠ (i, T', j)) ∧ c.(votes) !! k = Some v) as Hvotes.
  { intros k v. by apply lookup_begin_votes. }
  assert (∀ k T j v, c'.(votes) !! (k, T, j) = Some v → granted v = true →
    (k, T, j) = (i, T', i) ∨ c.(votes) !! (k, T, j) = Some v) as Hgrant.
  { intros k T j v [(j' & [= -> -> ->] & _ & ->)|[_ Hv]]%Hvotes Hg; [|by right].
    left. case_decide; [by subst|done]. }
  split.
  - unfold c'. cbn. rewrite length_insert. apply (i_len _ _ Hinv).
  - intros k rk [[-> ->]|[_ Hk]]%Hlook; [|by apply (i_node _ _ Hinv)].
    split_and!; [done..|]. eapply recoverable_step, Hrec. constructor.
  - intros k T j v [(j' & [= -> -> ->] & Hj & ->)|[_ Hv]]%Hvotes.
    + split_and!; [done..|lia| |by case_decide].
      intros rk [[_ ->]|[? ?]]%Hlook; [|done]. by change (currentTerm rf') with T'.
    + destruct (i_vote _ _ Hinv _ _ _ _ Hv) as (? & ? & ? & Hle & ?).
      split_and!; [done..| |done]. intros rk [[-> ->]|[_ Hk]]%Hlook; [|by apply Hle].
      specialize (Hle _ Hi). change (T ≤ T'). lia.
  - intros k T j v rj Hv Hg Hj. apply Hgrant in Hv as [[= -> -> ->]|Hv]; [| |done].
    + apply Hlook in Hj as [[_ ->]|[? _]]; [|done]. change (T' ≤ T' ∧ (T' = T' → me rf = Z.of_nat i)).
      split; [lia|done].
    + apply Hlook in Hj as [[-> ->]|[_ Hj]]; [|by apply (i_grant _ _ Hinv k T j v)].
      destruct (i_grant _ _ Hinv _ _ _ _ _ Hv Hg Hi) as [? _].
      change (T ≤ T' ∧ (T' = T → me rf = Z.of_nat k)). lia.
  - intros k1 k2 T j v1 v2 H1 H2 Hg1 Hg2.
    apply Hgrant in H1 as [[= -> -> ->]|H1]; [| |done];
      (apply Hgrant in H2 as [Heq|H2]; [| |done]).
    + by injection Heq as ->.
    + destruct (i_grant _ _ Hinv _ _ _ _ _ H2 Hg2 Hi). lia.
    + injection Heq as -> -> ->. destruct (i_grant _ _ Hinv _ _ _ _ _ H1 Hg1 Hi). lia.
    + by apply (i_unique _ _ Hinv k1 k2 T j v1 v2).
  - intros k rk Hk Htp. rewrite Hcount. apply Hlook in Hk as [[-> ->]|[Hne Hk]].
    + by rewrite decide_True.
    + rewrite decide_False by congruence. by apply (i_count _ _ Hinv).
  - intros k rk Hk Htp. rewrite Hcount. apply Hlook in Hk as [[-> ->]|[Hne Hk]]; [done|].
    rewrite decide_False by congruence. by apply (i_leader _ _ Hinv).
Qed.

(** *** Every action *)

Lemma inv_waits n c w : inv n c → inv n (c <| waits := w |>).
Proof. intros []. by split. Qed.

Lemma voteArgs_spec T rf args :
  voteArgs T rf = Some args →
  args.(RequestVoteArgs.Term) = T ∧ args.(RequestVoteArgs.CandidateId) = rf.(me).
Proof. unfold voteArgs. intros. by unbind. Qed.

Lemma inv_same_node n c i rf : inv n c → c.(nodes) !! i = Some rf → inv n (set_node i rf c).
Proof.
  intros Hinv Hi. apply inv_quiet with rf rf.(currentTerm); [done..|by apply quiet_refl|].
  by apply (i_node _ _ Hinv i).
Qed.

(** The voter answers. *)
Lemma inv_serve n c r i T j args rf rf' reply :
  inv n c → c.(votes) !! (i, T, j) = Some (VSent args) → c.(nodes) !! j = Some rf →
  RequestVote r args rf = Some (rf', reply) →
  inv n (set_vote (i, T, j) (VReplied true reply) (set_node j rf' c)).
Proof.
  intros Hinv Hv Hj Heq. destruct (i_node _ _ Hinv j rf Hj) as (Hme & Hp & Hrec).
  destruct (i_vote _ _ Hinv _ _ _ _ Hv) as (_ & _ & Hpos & _ & Hargs).
  destruct (Hargs args eq_refl) as [HT Hcand].
  pose proof (lookup_lt_Some _ _ _ Hj) as Hlt.
  assert (recoverable rf') as Hrec' by (eapply recoverable_RequestVote; [|done..]; lia).
  destruct (RequestVote_spec r args rf (rec_wf _ Hrec)) as (rf1 & g & Heq1 & _ & _ & Hterm & Htp &
    Hvote & Hme' & Hp' & Hvc & _ & Hg). simplify_eq. set (T := RequestVoteArgs.Term args) in *.
  assert (inv (peers rf) (set_node j rf' c)) as Hinv'.
  { apply inv_set_node with rf; try done; [lia|..].
    - intros k T1 v Hk Hgv HT1. destruct (i_grant _ _ Hinv _ _ _ _ _ Hk Hgv Hj) as [Hle Hcur].
      rewrite Hvote. destruct g.
      + destruct (proj1 Hg eq_refl) as (_ & [?|[?|Hsame]] & _); [lia| |].
        * rewrite Hcur in * by lia. lia.
        * rewrite <- Hsame. apply Hcur. lia.
      + case_cmp; [lia|]. apply Hcur. lia.
    - rewrite Htp, Hvc. case_cmp; [done|]. replace (currentTerm rf') with (currentTerm rf) by lia.
      by apply (i_count _ _ Hinv).
    - rewrite Htp. case_cmp; [done|]. replace (currentTerm rf') with (currentTerm rf) by lia.
      by apply (i_leader _ _ Hinv). }
  assert ((set_node j rf' c).(nodes) !! j = Some rf') as Hj' by by apply list_lookup_insert_eq.
  apply inv_set_vote with (VSent args); try done. intros Hgr. cbn in Hgr. subst g.
  destruct (proj1 Hg eq_refl) as (Hle & _). split.
  - intros rk Hrk. rewrite Hj' in Hrk. injection Hrk as <-. split; [lia|]. by rewrite Hvote, Hcand.
  - intros i' v' Hv' Hg'. destruct (i_grant _ _ Hinv' _ _ _ _ _ Hv' Hg' Hj') as [_ Hcur].
    specialize (Hcur ltac:(lia)). lia.
Qed.

(** The candidate handles an answer. *)
Lemma inv_answer n c r i T j ok reply rf :
  inv n c → c.(votes) !! (i, T, j) = Some (VReplied ok reply) → c.(nodes) !! i = Some rf →
  let rf' := voteReply r T ok reply rf in
  inv n (set_vote (i, T, j)
           (if ok && reply.(RequestVoteReply.VoteGranted) && (rf.(voteCount) <? rf'.(voteCount))
            then VCounted else VLost) (set_node i rf' c)).
Proof.
  intros Hinv Hv Hi rf'. destruct (i_node _ _ Hinv i rf Hi) as (Hme & Hp & Hrec).
  assert (∀ c', inv n c' → c'.(votes) = c.(votes) → inv n (set_vote (i, T, j) VLost c')) as Hlost.
  { intros c' Hc' Heq. apply inv_set_vote with (VReplied ok reply); try done. by rewrite Heq. }
  assert (recoverable rf') as Hrec'.
  { eapply recoverable_step, Hrec. constructor. }
  destruct (i_vote _ _ Hinv _ _ _ _ Hv) as (_ & _ & _ & Hle & _). specialize (Hle _ Hi).
  unfold rf', voteReply in *. destruct (Z.ltb_spec T (currentTerm rf)).
  - rewrite Z.ltb_irrefl, andb_false_r. apply Hlost; [by apply inv_same_node|done].
  - destruct (ok && (currentTerm rf <? RequestVoteReply.Term reply)) eqn:Hnew.
    + cbn [voteCount resetTime over]. rewrite Z.ltb_irrefl, andb_false_r. apply Hlost; [|done].
      to_prop. eapply inv_quiet; [done..| |done].
      eapply quiet_then; [by apply quiet_termUpdate|apply quiet_resetTime].
    + destruct (ok && RequestVoteReply.VoteGranted reply) eqn:Hg.
      * cbn [voteCount over]. destruct (Z.ltb_spec (voteCount rf) (voteCount rf + 1)); [|lia].
        cbn [andb]. apply (inv_count_vote n c i T j (VReplied ok reply)); try done. lia.
      * cbn [andb]. apply Hlost; [by apply inv_same_node|done].
Qed.

Lemma inv_win n c i T rf rf' :
  inv n c → c.(nodes) !! i = Some rf → electionGuard T rf = true →
  electionWin rf = Some rf' → inv n (set_node i rf' c).
Proof.
  intros Hinv Hi Hguard Hwin. destruct (i_node _ _ Hinv i rf Hi) as (Hme & Hp & Hrec).
  unfold electionGuard in Hguard. to_prop. pose proof (i_count _ _ Hinv i rf Hi ltac:(done)) as Hc.
  assert (recoverable rf') as Hrec' by (eapply recoverable_step, Hrec; by constructor).
  unfold electionWin in Hwin. case_match; [|done]. to_prop. simplify_eq.
  apply inv_set_node with rf; try done.
  - intros k T' v Hk Hg HT. by apply (i_current _ _ _ _ _ _ _ Hinv Hi Hk Hg).
  - intros _. cbn. pose proof (Nat.div_mod_eq (peers rf) 2).
    pose proof (Nat.mod_upper_bound (peers rf) 2 ltac:(done)). lia.
Qed.

Lemma inv_act n a c c' : inv n c → act true a c = Some c' → inv n c'.
Proof.
  intros Hinv Hact. destruct a; cbn [act] in Hact.
  - apply bind_Some in Hact as (rf & Hi & Hact). apply bind_Some in Hact as (rf' & Hop & [= <-]).
    by eapply inv_local.
  - apply bind_Some in Hact as (rf & Hi & [= <-]).
    apply (inv_waits _ (set_node i (startElection_begin rf) (begin_votes c i _))).
    by apply inv_begin.
  - apply bind_Some in Hact as (v & Hv & Hact). apply bind_Some in Hact as (rf & Hi & Hact).
    destruct v; try done. apply bind_Some in Hact as (args & Hargs & [= <-]).
    apply inv_set_vote with VStart; try done. intros args' [= <-].
    apply voteArgs_spec in Hargs as [? ->]. split; [done|]. by apply (i_node _ _ Hinv).
  - apply bind_Some in Hact as (v & Hv & Hact). apply bind_Some in Hact as (rf & Hj & Hact).
    destruct v; try done. apply bind_Some in Hact as ([rf' reply] & Heq & [= <-]).
    by eapply inv_serve.
  - apply bind_Some in Hact as (v & Hv & Hact).
    destruct v; try done; injection Hact as <-; eapply inv_set_vote; done.
  - apply bind_Some in Hact as (v & Hv & Hact). apply bind_Some in Hact as (rf & Hi & Hact).
    destruct v; try done. injection Hact as <-. by apply inv_answer.
  - apply bind_Some in Hact as (w & Hw & Hact). apply bind_Some in Hact as (rf & Hi & Hact).
    case_match; injection Hact as <-; by apply inv_waits.
  - apply bind_Some in Hact as (w & Hw & Hact). apply bind_Some in Hact as (rf & Hi & Hact).
    destruct w; [|done]. cbn [negb andb] in Hact.
    destruct (electionGuard T rf) eqn:Hg; [|done]. cbn [negb] in Hact.
    destruct (electionWin rf) as [rf'|] eqn:Hwin; injection Hact as <-; [|by apply inv_waits].
    apply (inv_waits n (set_node i rf' c)). by eapply inv_win.
Qed.

Lemma inv_start n r c : start n r = Some c → inv n c.
Proof.
  unfold start. intros Heq. apply bind_Some in Heq as (l & Hl & [= <-]).
  apply mapM_Some in Hl.
  assert (length l = n) as Hlen.
  { rewrite <- (Forall2_length _ _ _ Hl). apply length_seq. }
  assert (∀ i rf, l !! i = Some rf → recoverable rf ∧ rf.(tp) = 0 ∧
    rf.(me) = Z.of_nat i ∧ rf.(peers) = n) as Hnode.
  { intros i rf Hi. destruct (Forall2_lookup_r _ _ _ _ _ Hl Hi) as (k & Hk & Hmake).
    apply lookup_seq in Hk as [-> Hk].
    destruct (Make_fresh n (Z.of_nat i) r) as (rf1 & Hmake1 & Hrec & _ & _ & _ & Htp & Hme & Hp).
    { lia. }
    cbn in Hmake. rewrite Hmake in Hmake1. injection Hmake1 as <-. done. }
  split; cbn; try done.
  - intros i rf Hi. destruct (Hnode i rf Hi) as (? & ? & ? & ?). done.
  - intros i rf Hi Htp. destruct (Hnode i rf Hi) as (_ & Htp' & _). congruence.
  - intros i rf Hi Htp. destruct (Hnode i rf Hi) as (_ & Htp' & _). congruence.
Qed.

(** C1: Election safety: in every state a cluster can reach, two leaders of the
    same term are the same peer, provided that the condition of the waiting loop
    of [startElection] holds when the mutex is taken.  The peers may receive any
    [AppendEntries] messages, any [InstallSnapshot] messages with the index and term that
    their snapshot says, run any operation, crash and restart from disk; vote requests and answers may be delayed or lost. *)
Theorem election_safety n c : reachable true n c → one_leader c.
Proof.
  intros (r & c0 & l & Hstart & Hacts). apply inv_one_leader with n.
  apply inv_start in Hstart. revert c0 Hstart Hacts. induction l as [|a l IH]; intros c0 Hinv Hacts.
  - by injection Hacts as <-.
  - cbn [acts] in Hacts. apply bind_Some in Hacts as (c1 & H1 & Hacts).
    eapply IH; [|done]. by eapply inv_act.
Qed.
End safety.

(** ** A concrete run *)

(** Peer 0 wins term 1 and crashes; peer 2 fails in term 1 and wins term 2. *)
Lemma election_safety_witness :
  ∃ c, @reachable codec true 3 c ∧ one_leader c ∧
    (λ rf, (rf.(tp), rf.(currentTerm))) <$> c.(nodes) = [(0, 1); (0, 2); (2, 2)].
Proof.
  set (l := [ABegin 0; AArgs 0 1 1; AServe 0 0 1 1; ACount 0 0 1 1; ACheck 0 1; AEnter 0 1;
             ALocal 0 (OpCrash 0); ADrop 0 1 2;
             ABegin 2; ABegin 2; AArgs 2 2 1; AServe 0 2 2 1; ACount 0 2 2 1; ACheck 2 2; AEnter 2 2]%nat).
  destruct (@start codec 3 0) as [c0|] eqn:H0; [|by vm_compute in H0].
  destruct (@acts codec true l c0) as [c|] eqn:Hc.
  2: { vm_compute in H0. injection H0 as <-. by vm_compute in Hc. }
  assert (@reachable codec true 3 c) as Hr by by exists 0, c0, l.
  exists c. split; [exact Hr|]. split; [exact (@election_safety codec 3 c Hr)|].
  vm_compute in H0. injection H0 as <-. vm_compute in Hc. by injection Hc as <-.
Defined.
