(* ===== verification/RaftMatch.v ===== *)
(** Log matching of the cluster of [RaftNet]: the steps of a peer by what they do to
    its log, its role and its term; the history of a run; and the invariant that
    logs which share an entry of the same index and term are the same up to it. *)
From S2P Require Import Prelude Gob Iface RaftTypes RaftPersist RaftLog RaftLogProps RaftElection RaftLeader RaftPeer RaftRecovery RaftCluster RaftNet RaftSafety GobImpl.

Section elected.
Context `{!RaftCodec}.

(** The candidate [i] has a majority of the votes of term [T]. *)
Definition elected (n : nat) (c : cluster) (i : nat) (T : Z) : Prop :=
  (i < n)%nat ∧ (n < 2 * counted c i T)%nat.

Lemma count_if_mono {A} (f g : A → bool) l :
  (∀ x, f x = true → g x = true) → (count_if f l ≤ count_if g l)%nat.
Proof.
  intros Hfg. unfold count_if. induction l as [|x l IH]; [done|]. cbn.
  destruct (f x) eqn:Hf; [rewrite (Hfg x Hf); cbn; lia|]. destruct (g x); cbn; lia.
Qed.

Lemma act_length n a c c' : inv n c → act true a c = Some c' → length c'.(nodes) = n.
Proof. intros Hinv Hact. eapply i_len. by eapply inv_act. Qed.

(** Votes that were counted stay. *)
Lemma act_votes n a c c' k :
  inv n c → act true a c = Some c' → c.(votes) !! k = Some VCounted →
  c'.(votes) !! k = Some VCounted.
Proof.
  intros Hinv Hact Hk.
  assert (∀ k' v v' c1, c.(votes) !! k' = Some v → v ≠ VCounted → c1.(votes) = c.(votes) →
    (set_vote k' v' c1).(votes) !! k = Some VCounted) as Hset.
  { intros k' v v' c1 Hv Hne Heq. cbn. rewrite Heq, lookup_insert_ne; [done|]. intros ->. congruence. }
  destruct a as [i o|i|i T j|r i T j|i T j|r i T j|i T|i T]; cbn [act] in Hact.
  - apply bind_Some in Hact as (rf & Hi & Hact). by apply bind_Some in Hact as (rf' & _ & [= <-]).
  - apply bind_Some in Hact as (rf & Hi & [= <-]). cbn. apply lookup_union_Some_raw.
    destruct (election_votes _ _ _ !! k) as [v|] eqn:He; [|by right].
    apply election_votes_lookup in He as (j & -> & _).
    by rewrite (inv_fresh _ _ _ _ _ Hinv Hi) in Hk.
  - apply bind_Some in Hact as (v & Hv & Hact). apply bind_Some in Hact as (rf & Hi & Hact).
    destruct v; try done. apply bind_Some in Hact as (args & _ & [= <-]). by eapply Hset.
  - apply bind_Some in Hact as (v & Hv & Hact). apply bind_Some in Hact as (rf & Hi & Hact).
    destruct v; try done. apply bind_Some in Hact as ([rf' reply] & _ & [= <-]). by eapply Hset.
  - apply bind_Some in Hact as (v & Hv & Hact). destruct v; try done; injection Hact as <-; by eapply Hset.
  - apply bind_Some in Hact as (v & Hv & Hact). apply bind_Some in Hact as (rf & Hi & Hact).
    destruct v; try done. injection Hact as <-. by eapply Hset.
  - apply bind_Some in Hact as (w & Hw & Hact). apply bind_Some in Hact as (rf & Hi & Hact).
    case_match; by injection Hact as <-.
  - apply bind_Some in Hact as (w & Hw & Hact). apply bind_Some in Hact as (rf & Hi & Hact).
    repeat case_match; simplify_eq; done.
Qed.

Lemma act_elected n a c c' i T :
  inv n c → act true a c = Some c' → elected n c i T → elected n c' i T.
Proof.
  intros Hinv Hact [Hi Hc]. split; [done|]. eapply Nat.lt_le_trans; [exact Hc|].
  apply Nat.mul_le_mono_l. unfold counted.
  rewrite (act_length _ _ _ _ Hinv Hact), (i_len _ _ Hinv). apply count_if_mono.
  intros j Hj. unfold is_counted in *. repeat case_match; try done;
    by rewrite (act_votes _ _ _ _ _ Hinv Hact) in * by done.
Qed.

Lemma elected_unique n c i j T : inv n c → elected n c i T → elected n c j T → i = j.
Proof. intros Hinv [_ Hi] [_ Hj]. by eapply inv_elected. Qed.

Lemma leader_elected n c i rf :
  inv n c → c.(nodes) !! i = Some rf → rf.(tp) = 2 → elected n c i rf.(currentTerm).
Proof.
  intros Hinv Hi Htp. split; [|by apply (i_leader _ _ Hinv)].
  rewrite <- (i_len _ _ Hinv). by eapply lookup_lt_Some.
Qed.
End elected.

(** ** The steps of a peer *)

(** The term grows, a follower stays one within a term, and only a leader is one
    afterwards, of the same term. *)
Record calm (rf rf' : Raft) : Prop := {
  ca_log : rf'.(log) = rf.(log);
  ca_snap : rf'.(snapshotIndex) = rf.(snapshotIndex);
  ca_sterm : rf'.(snapshotTerm) = rf.(snapshotTerm);
  ca_term : rf.(currentTerm) ≤ rf'.(currentTerm);
  ca_cand : rf'.(tp) = 1 → rf'.(currentTerm) = rf.(currentTerm) → rf.(tp) = 1;
  ca_lead : rf'.(tp) = 2 → rf.(tp) = 2 ∧ rf'.(currentTerm) = rf.(currentTerm)
}.

Lemma calm_trans rf1 rf2 rf3 : calm rf1 rf2 → calm rf2 rf3 → calm rf1 rf3.
Proof.
  intros [E1 E2 E3 Ht Hc Hl] [E1' E2' E3' Ht' Hc' Hl'].
  split; try (etrans; eassumption).
  - intros H1 H2. assert (currentTerm rf3 = currentTerm rf2) as E by lia.
    apply Hc; [by apply Hc'|congruence].
  - intros H2. destruct (Hl' H2) as [H1 ->]. by apply Hl.
Qed.

(** The fields of replication are the same. *)
Record still (rf rf' : Raft) : Prop := {
  st_calm : calm rf rf';
  st_keep : rf.(tp) = 2 → rf'.(currentTerm) = rf.(currentTerm) → rf'.(tp) = 2;
  st_next : rf'.(nextIndex) = rf.(nextIndex);
  st_match : rf'.(matchIndex) = rf.(matchIndex);
  st_start : rf'.(startAppend) = rf.(startAppend);
  st_commit : rf'.(commitIndex) = rf.(commitIndex);
  st_applied : applies rf'.(out) = applies rf.(out)
}.

(** After a crash the peer is a follower that has committed nothing. *)
Record crashed (rf rf' : Raft) : Prop := {
  cr_calm : calm rf rf';
  cr_tp : rf'.(tp) = 0;
  cr_start : rf'.(startAppend) = false;
  cr_commit : rf'.(commitIndex) = rf.(snapshotIndex);
  cr_applied : applies rf'.(out) = []
}.

Section steps.
Context `{!RaftCodec}.

(** What a step of [RaftCluster] that is none of a flight does to a peer. *)
Inductive base_change (rf : Raft) : Raft → Prop :=
  | bc_still rf' : still rf rf' → base_change rf rf'
  | bc_crash rf' : crashed rf rf' → base_change rf rf'
  | bc_start cmd rf' res :
      rf.(dead) = false → rf.(tp) = 2 → Start cmd rf = Some (rf', res) → base_change rf rf'
  | bc_win : rf.(tp) = 1 → Z.of_nat (rf.(peers) / 2) < rf.(voteCount) →
      base_change rf (becomeLeader rf).

Lemma still_fields rf rf' :
  rf'.(log) = rf.(log) → rf'.(snapshotIndex) = rf.(snapshotIndex) →
  rf'.(snapshotTerm) = rf.(snapshotTerm) → rf'.(currentTerm) = rf.(currentTerm) →
  rf'.(tp) = rf.(tp) → rf'.(nextIndex) = rf.(nextIndex) → rf'.(matchIndex) = rf.(matchIndex) →
  rf'.(startAppend) = rf.(startAppend) → rf'.(commitIndex) = rf.(commitIndex) →
  applies rf'.(out) = applies rf.(out) → still rf rf'.
Proof.
  intros. split; [split|..]; try done; [lia|by intros; congruence|intros; split; congruence|congruence].
Qed.

Lemma still_refl rf : still rf rf.
Proof. by apply still_fields. Qed.

Lemma still_trans rf1 rf2 rf3 : still rf1 rf2 → still rf2 rf3 → still rf1 rf3.
Proof.
  intros [Hc1 Hk1 ?????] [Hc2 Hk2 ?????]. split; [by eapply calm_trans| |etrans; eassumption..].
  intros Htp Ht. pose proof (ca_term _ _ Hc1). pose proof (ca_term _ _ Hc2).
  apply Hk2; [apply Hk1; [done|lia]|lia].
Qed.

(** A newer term is adopted as a follower. *)
Lemma still_termUpdate rf t v : rf.(currentTerm) < t → still rf (termUpdate t 0 v rf).
Proof.
  intros Ht. unfold termUpdate.
  split; [split|..]; try done; [cbn; lia|cbn; lia|by rewrite applies_persist].
Qed.

Lemma still_resetTime rf r : still rf (resetTime r rf).
Proof. by apply still_fields. Qed.

Lemma still_stepdown rf : rf.(tp) = 1 → still rf (rf <| tp := 0 |>).
Proof. intros Ht. split; [split|..]; try done. congruence. Qed.

Lemma still_ae_term args rf : still rf (ae_term args rf).
Proof.
  unfold ae_term. repeat case_match; to_prop;
    [by apply still_termUpdate|by apply still_stepdown|apply still_refl].
Qed.

Lemma still_is_term args rf : still rf (is_term args rf).
Proof.
  unfold is_term. repeat case_match; to_prop;
    [by apply still_termUpdate|by apply still_stepdown|apply still_refl].
Qed.

Lemma still_persist rf rf1 : still rf rf1 → still rf (persist rf1).
Proof.
  intros H1. eapply still_trans; [exact H1|]. apply still_fields; try done. apply applies_persist.
Qed.

Lemma still_RequestVote r args rf rf' reply : RequestVote r args rf = Some (rf', reply) → still rf rf'.
Proof.
  unfold RequestVote. intros Heq. case_match; [simplify_eq; apply still_refl|].
  assert (still rf (rv_term args rf)) as H1.
  { clear Heq. unfold rv_term. destruct (Z.ltb_spec (currentTerm rf) (RequestVoteArgs.Term args));
      [by apply still_termUpdate|apply still_refl]. }
  set (rf1 := rv_term args rf) in *. clearbody rf1.
  case_match; [|by simplify_eq]. apply bind_Some in Heq as (t & _ & Heq).
  case_match; [|by simplify_eq]. simplify_eq. eapply still_trans; [|apply still_resetTime].
  eapply still_trans; [exact H1|]. apply still_persist. by apply still_fields.
Qed.

Lemma still_begin rf : still rf (startElection_begin rf).
Proof.
  unfold startElection_begin. set (rf1 := rf <| currentTerm := _ |> <| votedFor := _ |>).
  assert (applies (persist rf1).(out) = applies rf.(out)) as Ho by exact (applies_persist rf1).
  split; [split|..]; try done; cbn; intros; lia.
Qed.

Lemma still_voteReply r T ok reply rf : still rf (voteReply r T ok reply rf).
Proof.
  unfold voteReply. repeat case_match; to_prop; try apply still_refl; try by apply still_fields.
  eapply still_trans; [by apply still_termUpdate|apply still_resetTime].
Qed.

Lemma still_top server rf rf' act : Append2_top server rf = Some (rf', act) → still rf rf'.
Proof.
  unfold Append2_top. intros. repeat case_match; unbind; try apply still_refl; by apply still_fields.
Qed.

Lemma Make_startAppend n me' p r rf : Make n me' p r = Some rf → rf.(startAppend) = false.
Proof.
  unfold Make. intros Heq. apply bind_Some in Heq as (rf1 & H1 & H2).
  assert (startAppend rf1 = false) as Hs.
  { unfold Make_boot, readPersist in H1. apply bind_Some in H1 as (rf0 & H0 & H1).
    assert (startAppend rf0 = false) as Hs0.
    { destruct (_ <? _); [by injection H0 as <-|].
      apply bind_Some in H0 as ([] & _ & H0). apply bind_Some in H0 as ([] & _ & H0).
      by apply bind_Some in H0 as ([] & _ & [= <-]). }
    injection H1 as <-. by repeat case_match. }
  unfold Make_init in H2. by apply bind_Some in H2 as (m & _ & [= <-]).
Qed.

Lemma crashed_Make rf r rf' :
  recoverable rf → Make rf.(peers) rf.(me) rf.(persister) r = Some rf' → crashed rf rf'.
Proof.
  intros Hrec Heq. destruct (Make_recoverable r rf Hrec) as (rf1 & Heq1 & Hr & _). simplify_eq.
  destruct Hr as (E1 & E2 & E3 & E4 & E5 & E6 & E7 & E8 & E9).
  split; [split; try (intros; congruence); lia|done| |done|].
  - by eapply Make_startAppend.
  - by eapply Make_sends.
Qed.

Lemma run_op_change i o rf rf' :
  recoverable rf → base (ALocal i o) = true → run_op o rf = Some rf' → base_change rf rf'.
Proof.
  intros Hrec Hb Heq. destruct o; try done; cbn [run_op] in Heq.
  - apply fmap_Some in Heq as ([rf1 res] & Heq & ->). cbn [fst].
    destruct (dead rf) eqn:Hd; [|destruct (decide (tp rf = 2)) as [Ht|Ht]; [by eapply bc_start|]].
    + unfold Start, killed in Heq. rewrite Hd in Heq. simplify_eq. by apply bc_still, still_fields.
    + unfold Start, killed in Heq. rewrite Hd in Heq. cbn in Heq.
      destruct (Z.eqb_spec (tp rf) 2); [done|]. cbn in Heq. simplify_eq. apply bc_still, still_refl.
  - simplify_eq. apply bc_still. unfold oscillator_check.
    repeat case_match; try apply still_refl; apply still_resetTime.
  - simplify_eq. by apply bc_still, still_fields.
  - apply fmap_Some in Heq as ([rf1 res] & Heq & ->). apply bc_still. by eapply still_top.
  - simplify_eq. by apply bc_still, still_fields.
  - apply bc_crash. by eapply crashed_Make.
Qed.

(** Every action of [RaftCluster] changes one peer at most. *)
Lemma act_change n a c c' :
  inv n c → base a = true → act true a c = Some c' →
  c'.(nodes) = c.(nodes) ∨
  ∃ i rf rf', c.(nodes) !! i = Some rf ∧ c'.(nodes) = <[i := rf']> c.(nodes) ∧ base_change rf rf'.
Proof.
  intros Hinv Hb Hact.
  destruct a as [i o|i|i T j|r i T j|i T j|r i T j|i T|i T]; cbn [act] in Hact.
  - apply bind_Some in Hact as (rf & Hi & Hact). apply bind_Some in Hact as (rf' & Hop & [= <-]).
    right. exists i, rf, rf'. split_and!; [done..|]. eapply run_op_change; [|done..].
    by apply (i_node _ _ Hinv i rf).
  - apply bind_Some in Hact as (rf & Hi & [= <-]). right. eexists i, rf, _.
    split_and!; [done..|]. apply bc_still, still_begin.
  - apply bind_Some in Hact as (v & Hv & Hact). apply bind_Some in Hact as (rf & Hi & Hact).
    destruct v; try done. apply bind_Some in Hact as (args & _ & [= <-]). by left.
  - apply bind_Some in Hact as (v & Hv & Hact). apply bind_Some in Hact as (rf & Hi & Hact).
    destruct v; try done. apply bind_Some in Hact as ([rf' reply] & Heq & [= <-]).
    right. eexists j, rf, _. split_and!; [done..|]. apply bc_still. by eapply still_RequestVote.
  - apply bind_Some in Hact as (v & Hv & Hact). destruct v; try done; injection Hact as <-; by left.
  - apply bind_Some in Hact as (v & Hv & Hact). apply bind_Some in Hact as (rf & Hi & Hact).
    destruct v; try done. injection Hact as <-. right. eexists i, rf, _.
    split_and!; [done..|]. apply bc_still, still_voteReply.
  - apply bind_Some in Hact as (w & Hw & Hact). apply bind_Some in Hact as (rf & Hi & Hact).
    left. case_match; by injection Hact as <-.
  - apply bind_Some in Hact as (w & Hw & Hact). apply bind_Some in Hact as (rf & Hi & Hact).
    destruct w; [|done]. cbn [negb andb] in Hact.
    destruct (electionGuard T rf) eqn:Hg; [|done]. cbn [negb] in Hact.
    destruct (electionWin rf) as [rf'|] eqn:Hwin; injection Hact as <-; [|by left].
    right. exists i, rf, rf'. split_and!; [done..|]. unfold electionWin in Hwin.
    case_match; [|done]. injection Hwin as <-. unfold electionGuard in Hg. to_prop. by apply bc_win.
Qed.
End steps.

(** ** Messages of a log *)

(** The entries of the message are those of the log [l] after its previous entry. *)
Record from (l : list Log.t) (args : RequestAppendArgs.t) : Prop := {
  fr_prev : 0 ≤ args.(RequestAppendArgs.PrevLogIndex);
  fr_term : Log.Term <$> zget l args.(RequestAppendArgs.PrevLogIndex) =
              Some args.(RequestAppendArgs.PrevLogTerm);
  fr_entries : args.(RequestAppendArgs.Entries) =
                 drop (Z.to_nat (args.(RequestAppendArgs.PrevLogIndex) + 1)) l
}.

Lemma from_last l args : from l args → lastOf args = zlen l - 1.
Proof.
  intros [Hp Ht He]. unfold lastOf. rewrite He, zlen_drop.
  destruct (zget l _) as [e|] eqn:Hg; [|done]. apply zget_Some_range in Hg. lia.
Qed.

Lemma log_match_sym l k : log_match l k → log_match k l.
Proof. intros H p e d Hk Hl He. symmetry. by eapply H. Qed.

Lemma log_match_get l k p e d i :
  log_match l k → zget l p = Some e → zget k p = Some d → e.(Log.Term) = d.(Log.Term) →
  i ≤ p → zget l i = zget k i.
Proof.
  intros Hm Hl Hk Ht Hi. destruct (Z.lt_ge_cases i 0); [by rewrite !zget_neg|].
  pose proof (zget_Some_range _ _ _ Hl) as Hp.
  rewrite <- (Z2Nat.id p) in Hl, Hk by lia. rewrite zget_lookup in Hl, Hk.
  specialize (Hm _ _ _ Hl Hk Ht).
  assert (take (S (Z.to_nat p)) l !! Z.to_nat i = take (S (Z.to_nat p)) k !! Z.to_nat i) as Heq
    by by rewrite Hm.
  rewrite !lookup_take_lt in Heq by lia. rewrite <- !zget_lookup in Heq. by rewrite Z2Nat.id in Heq.
Qed.

Section append.
Context `{!RaftCodec}.

Definition dummy_first (l : list Log.t) : Prop := ∃ k, l = Log0 :: k.

Lemma absEntry_0 rf i : rf.(snapshotIndex) = 0 → 0 < i → absEntry rf i = zget rf.(log) i.
Proof. intros Hs Hi. unfold absEntry. rewrite Hs, Z.sub_0_r. by destruct (Z.ltb_spec 0 i); [|lia]. Qed.

Lemma list_elem_of_zget {A} (l : list A) i x : zget l i = Some x → x ∈ l.
Proof.
  intros Hx. pose proof (zget_Some_range _ _ _ Hx). rewrite <- (Z2Nat.id i), zget_lookup in Hx by lia.
  by eapply list_elem_of_lookup_2.
Qed.

(** A consistent message that the peer writes makes its log the one it came from. *)
Lemma written_log l args rf rf' :
  wf rf → wf rf' → rf.(snapshotIndex) = 0 → rf'.(snapshotIndex) = 0 →
  dummy_first l → log_match rf.(log) l → from l args → consistent args rf →
  (∀ i, i ≤ args.(RequestAppendArgs.PrevLogIndex) → absEntry rf' i = absEntry rf i) →
  (∀ i, args.(RequestAppendArgs.PrevLogIndex) < i → rf.(snapshotIndex) < i →
      absEntry rf' i = zget args.(RequestAppendArgs.Entries)
                         (i - args.(RequestAppendArgs.PrevLogIndex) - 1)) →
  rf'.(log) = l.
Proof.
  intros Hwf Hwf' Hs Hs' [k Hl] Hm [Hp Ht He] Hc Hbefore Hafter.
  destruct (wf_log _ Hwf') as [k' Hl']. apply zget_ext. intros i Hi.
  destruct (decide (i = 0)) as [->|Hi0]; [by rewrite Hl, Hl'|].
  rewrite <- (absEntry_0 rf') by lia.
  destruct (Z.le_gt_cases i args.(RequestAppendArgs.PrevLogIndex)) as [Hle|Hgt].
  - rewrite Hbefore, absEntry_0 by lia. destruct Hc as [?|Hc]; [lia|].
    rewrite absEntry_0 in Hc by lia.
    apply fmap_Some in Hc as (e & Hge & Het). apply fmap_Some in Ht as (d & Hgd & Hdt).
    eapply log_match_get; [done..|congruence|done].
  - rewrite Hafter, He, zget_drop by lia. f_equal. lia.
Qed.

(** What the handler does, for a message of a log that matches the peer's. *)
Lemma AppendEntries_from r l args rf rf' reply :
  wf rf → rf.(snapshotIndex) = 0 → dummy_first l → log_match rf.(log) l → from l args →
  AppendEntries r args rf = Some (rf', reply) → rf.(currentTerm) ≤ args.(RequestAppendArgs.Term) →
  if reply.(RequestAppendReply.Success) then
    (rf'.(log) = l ∨
     rf'.(log) = rf.(log) ∧
       (args.(RequestAppendArgs.Entries) = [] ∧ args.(RequestAppendArgs.PrevLogIndex) = 0 ∨
        Log.Term <$> zget rf.(log) (lastOf args) = Some args.(RequestAppendArgs.Term) ∧ 0 < lastOf args)) ∧
    rf'.(commitIndex) =
      (if rf.(commitIndex) <? args.(RequestAppendArgs.LeaderCommit)
       then Z.min args.(RequestAppendArgs.LeaderCommit) (zlen rf'.(log) - 1) else rf.(commitIndex)) ∧
    applies rf'.(out) = applies rf.(out) ++ twice_msgs rf'.(log) 0 (rf.(commitIndex) + 1) rf'.(commitIndex)
  else still rf rf'.
Proof.
  intros Hwf Hs Hl Hm Hf Heq Ht.
  destruct (AppendEntries_spec r args rf Hwf Ht)
    as (rf1 & reply1 & Heq1 & Hwf1 & Hs1 & _ & Hsucc & Hres).
  rewrite Heq in Heq1. injection Heq1 as <- <-. rewrite Hsucc. rewrite Hs in Hs1.
  destruct (decide (consistent args rf)) as [Hc|Hc]; [rewrite bool_decide_true by done|].
  - destruct Hres as ((Hbefore & Hafter) & Hci & Hap). unfold lastLogIndex in Hci.
    rewrite Hs1, Z.add_0_r in Hci. rewrite Hs1 in Hap. split; [|done].
    destruct Hafter as [[Hlog Hhave]|Hafter]; [right|left; by apply (written_log l args rf)].
    split; [done|]. pose proof (zlen_nonneg args.(RequestAppendArgs.Entries)) as Hn.
    pose proof (fr_prev _ _ Hf) as Hp. unfold lastOf. rewrite Z.add_comm.
    destruct Hhave as [Hle|[_ Hhave]]; [left|right].
    + rewrite Hs in Hle. split; [|lia]. destruct (RequestAppendArgs.Entries args); [done|]. zlen_lia.
    + unfold absEntry in Hhave. rewrite Hs, Z.sub_0_r in Hhave.
      destruct (Z.ltb_spec 0 (zlen (RequestAppendArgs.Entries args) + RequestAppendArgs.PrevLogIndex args));
        [|done]. by split.
  - rewrite bool_decide_false in Hsucc |- * by done. clear Hres.
    unfold AppendEntries in Heq. destruct (Z.ltb_spec (RequestAppendArgs.Term args) (currentTerm rf)); [lia|].
    apply bind_Some in Heq as (m & _ & Heq). destruct m.
    { apply bind_Some in Heq as (? & _ & Heq). apply bind_Some in Heq as (? & _ & Heq).
      injection Heq as _ <-. done. }
    destruct (_ <=? _).
    { apply bind_Some in Heq as (? & _ & Heq). apply bind_Some in Heq as (? & _ & Heq).
      injection Heq as _ <-. done. }
    apply bind_Some in Heq as (? & _ & Heq). injection Heq as <- _.
    eapply still_trans; [apply still_ae_term|apply still_resetTime].
Qed.
(** The role and the term after a message that is not old. *)
Lemma AppendEntries_role r args rf rf' reply :
  AppendEntries r args rf = Some (rf', reply) → rf.(currentTerm) ≤ args.(RequestAppendArgs.Term) →
  rf'.(snapshotIndex) = rf.(snapshotIndex) ∧ rf'.(snapshotTerm) = rf.(snapshotTerm) ∧
  rf'.(currentTerm) = args.(RequestAppendArgs.Term) ∧
  (rf'.(tp) = 1 → rf'.(currentTerm) = rf.(currentTerm) → rf.(tp) = 1) ∧
  (rf'.(tp) = 2 → rf.(tp) = 2 ∧ rf'.(currentTerm) = rf.(currentTerm)).
Proof.
  intros Heq Ht. destruct (quiet_AppendEntries _ _ _ _ _ Heq Ht) as [_ _ _ _ Hterm _ Htp].
  destruct (stable_AppendEntries _ _ _ _ _ Heq) as [_ _ H1 H2].
  split_and!; [done|done|lia|..]; intros Hrole; case_cmp; intuition (congruence || lia).
Qed.

Lemma InstallSnapshot_still r args rf rf' reply :
  args.(SnapArg.LastIncludedIndex) ≤ rf.(snapshotIndex) →
  InstallSnapshot r args rf = Some (rf', reply) → still rf rf'.
Proof.
  unfold InstallSnapshot. intros Hle Heq.
  destruct (Z.ltb_spec (SnapArg.Term args) (currentTerm rf)); [simplify_eq; apply still_refl|].
  pose proof (still_is_term args (resetTime r rf)) as Hst.
  pose proof (ca_snap _ _ (st_calm _ _ Hst)) as Hs. cbn in Hs. rewrite Hs in Heq.
  destruct (Z.leb_spec (SnapArg.LastIncludedIndex args) (snapshotIndex rf)); [|lia].
  injection Heq as <- _. eapply still_trans; [apply still_resetTime|exact Hst].
Qed.
End append.

(** ** The leader's side *)

Section leader.
Context `{!RaftCodec}.

Lemma appendArgs_from server rf args :
  wf rf → rf.(snapshotIndex) = 0 → rf.(snapshotTerm) = 0 →
  appendArgs server rf = Some (Some args) →
  rf.(tp) = 2 ∧ args.(RequestAppendArgs.Term) = rf.(currentTerm) ∧ from rf.(log) args ∧
  args.(RequestAppendArgs.LeaderCommit) = rf.(commitIndex) ∧
  zget rf.(nextIndex) server = Some (args.(RequestAppendArgs.PrevLogIndex) + 1).
Proof.
  intros Hwf Hs Hst Heq. unfold appendArgs in Heq.
  apply bind_Some in Heq as (next & Hnext & Heq).
  destruct (Z.leb_spec next 0); [done|]. destruct (Z.eqb_spec (tp rf) 2) as [Htp|]; [|done].
  apply bind_Some in Heq as (entries & Hent & Heq). apply bind_Some in Heq as (argTerm & Hterm & [= <-]).
  apply zfrom_Some in Hent as [_ ->]. cbn. rewrite Hs, Z.add_0_r, Z.sub_add. split_and!; [done|done| |done..].
  destruct (wf_log _ Hwf) as [l Hl]. split; cbn; [lia| |by rewrite Z.sub_add].
  destruct (Z.eqb_spec next 1) as [->|].
  - injection Hterm as <-. by rewrite Hl, Hst.
  - apply bind_Some in Hterm as (e & -> & [= <-]). done.
Qed.

Lemma installArgs_msg rf :
  snap_ok rf → rf.(snapshotIndex) = 0 →
  snap_msg (installArgs rf) ∧ (installArgs rf).(SnapArg.LastIncludedIndex) = 0.
Proof. intros [H1 H2] Hs. by split. Qed.

(** Calls of [updateCommit], at most two *)
Definition commits : relation Raft := rtc (λ rf rf', updateCommit rf = Some rf').

Lemma commits_frame rf rf' :
  commits rf rf' → rf' = rf <| commitIndex := rf'.(commitIndex) |> <| out := rf'.(out) |>.
Proof.
  induction 1 as [rf|rf rf1 rf2 H1 _ IH]; [by destruct rf|]. rewrite IH.
  apply updateCommit_frame in H1. rewrite H1. done.
Qed.

(** What an answer to [AppendEntries] changes before the commit rule *)
Inductive answer (server termTemp : Z) (args : RequestAppendArgs.t) (ok : bool)
    (reply : RequestAppendReply.t) (rf : Raft) : Raft → Prop :=
  | an_still rf' : still rf rf' → answer server termTemp args ok reply rf rf'
  | an_next next : length next = length rf.(nextIndex) →
      answer server termTemp args ok reply rf (rf <| nextIndex := next |>)
  | an_match m next :
      rf.(currentTerm) ≤ termTemp → ok = true → reply.(RequestAppendReply.Success) = true →
      args.(RequestAppendArgs.Entries) ≠ [] → length next = length rf.(nextIndex) →
      (m = rf.(matchIndex) ∨
       zset rf.(matchIndex) server (lastOf args) = Some m) →
      answer server termTemp args ok reply rf (rf <| matchIndex := m |> <| nextIndex := next |>).

Lemma appendSuccess_answer server termTemp ok args reply rf rf' :
  rf.(snapshotIndex) = 0 → rf.(currentTerm) ≤ termTemp → ok = true →
  reply.(RequestAppendReply.Success) = true → appendSuccess server args rf = Some rf' →
  ∃ rf0, answer server termTemp args ok reply rf rf0 ∧ commits rf0 rf'.
Proof.
  intros Hs Ht Hok Hsucc Heq. unfold appendSuccess in Heq. rewrite Hs in Heq.
  apply bind_Some in Heq as (next & Hnext & Heq).
  destruct ((_ =? _) && (0 <? _)) eqn:Hc; [|simplify_eq; exists rf'; split; [apply an_still, still_refl|done]].
  apply andb_true_iff in Hc as [Hn%Z.eqb_eq Hpos%Z.ltb_lt]. rewrite Z.add_0_r in *. subst next.
  apply bind_Some in Heq as (old & _ & Heq). apply bind_Some in Heq as (rf1 & H1 & Heq).
  apply bind_Some in Heq as (nx & Hnx & Heq).
  assert (args.(RequestAppendArgs.Entries) ≠ []) as Hne by by intros E; rewrite E in *.
  assert (length nx = length rf.(nextIndex)) as Hlen.
  { assert (rf1.(nextIndex) = rf.(nextIndex)) as En.
    { destruct (old <? _); [|by injection H1 as <-]. by apply bind_Some in H1 as (? & _ & [= <-]). }
    rewrite En in Hnx. by eapply zset_length, Hnx. }
  assert (∃ m, rf1 = rf <| matchIndex := m |> ∧
    (m = rf.(matchIndex) ∨ zset rf.(matchIndex) server (lastOf args) = Some m)) as (m & -> & Hm).
  { destruct (old <? _).
    - apply bind_Some in H1 as (m & Hm & [= <-]). exists m. split; [done|right].
      rewrite <- Hm. f_equal. unfold lastOf. lia.
    - injection H1 as <-. exists rf.(matchIndex). split; [by destruct rf|by left]. }
  exists (rf <| matchIndex := m |> <| nextIndex := nx |>). split; [by apply an_match|].
  eapply rtc_once. exact Heq.
Qed.

Lemma appendReply_answer r server termTemp ok args reply rf rf' :
  rf.(snapshotIndex) = 0 →
  appendReply r server termTemp ok args reply rf = Some rf' →
  rf.(startAppend) = false ∧ rf' = rf ∨
  rf.(startAppend) = true ∧
    ∃ rf0, answer server termTemp args ok reply rf rf0 ∧ commits rf0 rf'.
Proof.
  unfold appendReply. intros Hs Heq. destruct (startAppend rf); [right|left; cbn in Heq; split; congruence].
  cbn [negb] in Heq.
  split; [done|]. apply bind_Some in Heq as (rf1 & H1 & Heq).
  assert (∃ rf0, answer server termTemp args ok reply rf rf0 ∧ commits rf0 rf1) as (rf0 & Ha & Hc).
  { clear Heq. destruct (Z.ltb_spec termTemp (currentTerm rf)) as [|Hle].
    { simplify_eq. exists rf1. split; [apply an_still, still_refl|done]. }
    destruct (ok && (_ <? _)) eqn:Hnew.
    { simplify_eq. eexists. split; [|done]. apply an_still. to_prop.
      eapply still_trans; [by apply still_termUpdate|apply still_resetTime]. }
    destruct ok; cbn [andb] in H1; [|simplify_eq; exists rf1; split; [apply an_still, still_refl|done]].
    destruct (RequestAppendReply.Success reply) eqn:Hsucc; cbn [negb] in H1.
    - by eapply appendSuccess_answer.
    - unfold appendRollback in H1. apply bind_Some in H1 as (next & _ & H1).
      case_match; [|simplify_eq; exists rf1; split; [apply an_still, still_refl|done]].
      apply bind_Some in H1 as (nx & Hnx & [= <-]). eexists. split; [|done]. apply an_next.
      case_match; [by eapply zset_length, Hnx|].
      apply bind_Some in Hnx as (index & _ & Hnx). case_match; by eapply zset_length, Hnx. }
  exists rf0. split; [done|]. eapply rtc_r; [exact Hc|exact Heq].
Qed.

Lemma appendReply_calm r server termTemp ok args reply rf rf' :
  rf.(snapshotIndex) = 0 →
  appendReply r server termTemp ok args reply rf = Some rf' → calm rf rf'.
Proof.
  intros Hs Heq. destruct (appendReply_answer _ _ _ _ _ _ _ _ Hs Heq) as [[_ ->]|(_ & rf0 & Ha & Hc)];
    [by split|].
  apply commits_frame in Hc. rewrite Hc.
  destruct Ha as [rf1 [[] ? ? ? ? ? ?]|? ?|]; by split.
Qed.

Lemma installReply_calm r server termTemp ok reply rf rf' :
  installReply r server termTemp ok reply rf = Some rf' →
  still rf rf' ∨ rf.(currentTerm) ≤ termTemp ∧
    ∃ next, zset rf.(nextIndex) server 1 = Some next ∧ rf' = rf <| nextIndex := next |>.
Proof.
  unfold installReply. intros Heq. destruct (Z.ltb_spec termTemp (currentTerm rf)).
  { simplify_eq. left. apply still_refl. }
  destruct (ok && (_ <? _)) eqn:Hnew.
  { simplify_eq. left. to_prop. eapply still_trans; [by apply still_termUpdate|apply still_resetTime]. }
  destruct ok; [|simplify_eq; left; apply still_refl].
  apply bind_Some in Heq as (next & Hn & [= <-]). right. split; [done|]. by exists next.
Qed.
End leader.

(** ** The history of a run *)

(** The logs peers have had, the logs that leaders of a term have had, and the
    entries that peers have held in the term of the entry. *)
Record ghost := mkGhost {
  hist : list Log.t → Prop;
  leads : Z → list Log.t → Prop;
  ack : nat → Z → Z → Prop      (* peer, term, index *)
}.

Definition observe (g : ghost) (s : net) : ghost := {|
  hist l := g.(hist) l ∨ ∃ i rf, s.(cl).(nodes) !! i = Some rf ∧ l = rf.(log);
  leads T l := g.(leads) T l ∨
    ∃ i rf, s.(cl).(nodes) !! i = Some rf ∧ rf.(tp) = 2 ∧ T = rf.(currentTerm) ∧ l = rf.(log);
  ack j T p := g.(ack) j T p ∨
    ∃ rf e, s.(cl).(nodes) !! j = Some rf ∧ T = rf.(currentTerm) ∧ 0 < p ∧
      zget rf.(log) p = Some e ∧ e.(Log.Term) = T
|}.

Definition nothing : ghost := mkGhost (λ _, False) (λ _ _, False) (λ _ _ _, False).

Section history.
Context `{!RaftCodec}.

(** The states of the runs whose steps satisfy [P], with their history. *)
Inductive greach (P : net → naction → Prop) (n : nat) : ghost → net → Prop :=
  | greach_start r s : nstart n r = Some s → greach P n (observe nothing s) s
  | greach_step g s late a s' :
      greach P n g s → P s a → nact late true a s = Some s' → greach P n (observe g s') s'.

Lemma nreachable_greach late n s :
  nreachable late true n s → ∃ g, greach (λ _ _, True) n g s.
Proof.
  intros (r & s0 & l & Hstart & Hacts).
  assert (∃ g, greach (λ _ _, True) n g s0) as [g Hg] by (eexists; by eapply greach_start).
  clear Hstart. revert g s0 Hg Hacts. induction l as [|a l IH]; intros g s0 Hg Hacts.
  - injection Hacts as <-. by exists g.
  - cbn [nacts] in Hacts. apply bind_Some in Hacts as (s1 & H1 & Hacts).
    eapply IH; [|exact Hacts]. by eapply greach_step.
Qed.

(** What is known of a flight. *)
Definition flight_ok (n : nat) (g : ghost) (c : cluster) (f : flight) : Prop :=
  f.(f_server) ≠ f.(f_leader) ∧
  match f.(f_state) with
  | FAppendSent _ args =>
      elected n c f.(f_leader) args.(RequestAppendArgs.Term) ∧
      ∃ l, g.(leads) args.(RequestAppendArgs.Term) l ∧ from l args
  | FInstallSent _ args => snap_msg args ∧ args.(SnapArg.LastIncludedIndex) = 0
  | _ => True
  end.

Definition well_formed (l : list Log.t) : Prop :=
  dummy_first l ∧ (∀ p e, 0 < p → zget l p = Some e → 0 < e.(Log.Term)) ∧
  (∀ p q e d, p ≤ q → zget l p = Some e → zget l q = Some d → e.(Log.Term) ≤ d.(Log.Term)).

Definition terms_upto (l : list Log.t) (T : Z) : Prop :=
  ∀ p e, zget l p = Some e → e.(Log.Term) ≤ T.

Record lay1 (n : nat) (g : ghost) (s : net) : Prop := {
  l1_inv : inv n s.(cl);
  l1_snap i rf : s.(cl).(nodes) !! i = Some rf → rf.(snapshotIndex) = 0 ∧ rf.(snapshotTerm) = 0;
  l1_node i rf : s.(cl).(nodes) !! i = Some rf →
    g.(hist) rf.(log) ∧ terms_upto rf.(log) rf.(currentTerm) ∧
    (rf.(tp) = 2 → g.(leads) rf.(currentTerm) rf.(log));
  l1_form l : g.(hist) l → well_formed l;
  l1_match l k : g.(hist) l → g.(hist) k → log_match l k;
  l1_leads T l : g.(leads) T l →
    g.(hist) l ∧ terms_upto l T ∧
    ∃ i, elected n s.(cl) i T ∧ ∀ rf, s.(cl).(nodes) !! i = Some rf →
      T ≤ rf.(currentTerm) ∧ (T = rf.(currentTerm) → rf.(tp) ≠ 1 ∧ (rf.(tp) = 2 → l `prefix_of` rf.(log)));
  l1_chain T l k : g.(leads) T l → g.(leads) T k → l `prefix_of` k ∨ k `prefix_of` l;
  l1_own l p e : g.(hist) l → 0 < p → zget l p = Some e →
    ∃ L, g.(leads) e.(Log.Term) L ∧ zget L p = Some e;
  l1_flights id f : s.(flights) !! id = Some f → flight_ok n g s.(cl) f
}.

(** *** One peer changes *)

(** Every peer but [i0] is as before. *)
Definition others (i0 : nat) (s s' : net) : Prop :=
  ∀ i, i ≠ i0 → s'.(cl).(nodes) !! i = s.(cl).(nodes) !! i.

(** A change that makes no log and no leader. *)
Record pc_log (g : ghost) (rf rf' : Raft) : Prop := {
  pl_snap : rf'.(snapshotIndex) = rf.(snapshotIndex);
  pl_sterm : rf'.(snapshotTerm) = rf.(snapshotTerm);
  pl_term : rf.(currentTerm) ≤ rf'.(currentTerm);
  pl_hist : g.(hist) rf'.(log);
  pl_upto : terms_upto rf'.(log) rf'.(currentTerm);
  pl_lead : rf'.(tp) = 2 →
    rf.(tp) = 2 ∧ rf'.(currentTerm) = rf.(currentTerm) ∧ rf'.(log) = rf.(log);
  pl_cand : rf'.(tp) = 1 → rf'.(currentTerm) = rf.(currentTerm) → rf.(tp) = 1
}.

(** The invariant but for the history of the new state. *)
Record stepped (n : nat) (s s' : net) : Prop := {
  sd_inv : inv n s'.(cl);
  sd_elected i T : elected n s.(cl) i T → elected n s'.(cl) i T
}.

Lemma lay1_log n g s s' i0 :
  lay1 n g s → stepped n s s' → others i0 s s' →
  (∀ rf', s'.(cl).(nodes) !! i0 = Some rf' →
     ∃ rf, s.(cl).(nodes) !! i0 = Some rf ∧ pc_log g rf rf') →
  (∀ id f, s'.(flights) !! id = Some f → flight_ok n (observe g s') s'.(cl) f) →
  lay1 n (observe g s') s'.
Proof.
  intros H1 [Hinv Hel] Hoth Hi0 Hfl.
  assert (∀ i rf', s'.(cl).(nodes) !! i = Some rf' →
    ∃ rf, s.(cl).(nodes) !! i = Some rf ∧ pc_log g rf rf') as Hnode.
  { intros i rf' Hi. destruct (decide (i = i0)) as [->|Hne]; [by apply Hi0|].
    rewrite Hoth in Hi by done. exists rf'. split; [done|].
    destruct (l1_node _ _ _ H1 i rf' Hi) as (? & ? & _). split; done. }
  assert (∀ l, (observe g s').(hist) l → g.(hist) l) as Hhist.
  { intros l [Hl|(i & rf' & Hi & ->)]; [done|].
    destruct (Hnode i rf' Hi) as (rf & _ & Hpc). by apply (pl_hist _ _ _ Hpc). }
  assert (∀ T l, (observe g s').(leads) T l → g.(leads) T l) as Hleads.
  { intros T l [Hl|(i & rf' & Hi & Htp & -> & ->)]; [done|].
    destruct (Hnode i rf' Hi) as (rf & Hrf & Hpc).
    destruct (pl_lead _ _ _ Hpc Htp) as (Ht & -> & ->). by apply (l1_node _ _ _ H1 i rf Hrf). }
  split.
  - done.
  - intros i rf' Hi. destruct (Hnode i rf' Hi) as (rf & Hrf & [-> -> _ _ _ _ _]).
    by apply (l1_snap _ _ _ H1 i).
  - intros i rf' Hi. destruct (Hnode i rf' Hi) as (rf & Hrf & Hpc). split_and!.
    + right. by exists i, rf'.
    + apply (pl_upto _ _ _ Hpc).
    + intros Htp. right. by exists i, rf'.
  - intros l Hl%Hhist. by apply (l1_form _ _ _ H1).
  - intros l k Hl%Hhist Hk%Hhist. by apply (l1_match _ _ _ H1).
  - intros T l Hl%Hleads. destruct (l1_leads _ _ _ H1 T l Hl) as (Hh & Hu & i & Hi & Hrf).
    split_and!; [by left|done|]. exists i. split; [by apply Hel|].
    intros rf' Hrf'. destruct (Hnode i rf' Hrf') as (rf & Hrf0 & [_ _ Hle _ _ Hlead Hcand]).
    destruct (Hrf rf Hrf0) as [HT Hsame]. split; [lia|]. intros HTeq.
    destruct (Hsame ltac:(lia)) as [Hc Hp]. split.
    + intros Htp. apply Hc. apply Hcand; [done|lia].
    + intros Htp. destruct (Hlead Htp) as (Ht & _ & ->). by apply Hp.
  - intros T l k Hl%Hleads Hk%Hleads. by apply (l1_chain _ _ _ H1 T).
  - intros l p e Hl%Hhist Hp He. destruct (l1_own _ _ _ H1 l p e Hl Hp He) as (L & ? & ?).
    exists L. split; [by left|done].
  - exact Hfl.
Qed.

(** No log has led the term of a peer that is a candidate with a majority. *)
Lemma lay1_no_leads n g s s' i0 rf l :
  lay1 n g s → stepped n s s' → s.(cl).(nodes) !! i0 = Some rf → rf.(tp) = 1 →
  elected n s'.(cl) i0 rf.(currentTerm) → ¬ g.(leads) rf.(currentTerm) l.
Proof.
  intros H1 [Hinv Hel] Hi0 Htp He Hl.
  destruct (l1_leads _ _ _ H1 _ _ Hl) as (_ & _ & i & Hi & Hrf).
  assert (i = i0) as -> by (eapply elected_unique; [exact Hinv|by apply Hel|done]).
  destruct (Hrf rf Hi0) as [_ Hsame]. by destruct (Hsame eq_refl) as [Hn _].
Qed.
Lemma others_lookup s s' i0 rf' i r :
  others i0 s s' → s'.(cl).(nodes) !! i0 = Some rf' → s'.(cl).(nodes) !! i = Some r →
  i = i0 ∧ r = rf' ∨ i ≠ i0 ∧ s.(cl).(nodes) !! i = Some r.
Proof.
  intros Hoth Hi0 Hi. destruct (decide (i = i0)) as [->|Hne]; [left|right].
  - split; congruence.
  - split; [done|]. by rewrite <- Hoth.
Qed.

Lemma lay1_win n g s s' i0 rf rf' :
  lay1 n g s → stepped n s s' → others i0 s s' →
  s.(cl).(nodes) !! i0 = Some rf → s'.(cl).(nodes) !! i0 = Some rf' →
  rf'.(snapshotIndex) = rf.(snapshotIndex) → rf'.(snapshotTerm) = rf.(snapshotTerm) →
  rf'.(currentTerm) = rf.(currentTerm) → rf'.(log) = rf.(log) → rf.(tp) = 1 → rf'.(tp) = 2 →
  (∀ id f, s'.(flights) !! id = Some f → flight_ok n (observe g s') s'.(cl) f) →
  lay1 n (observe g s') s'.
Proof.
  intros H1 Hsd Hoth Hi0 Hi0' Hsn Hst Hterm Hlog Htp Htp' Hfl. pose proof Hsd as [Hinv Hel].
  pose proof (others_lookup s s' i0 rf') as Hnode.
  destruct (l1_node _ _ _ H1 i0 rf Hi0) as (Hh0 & Hu0 & _).
  pose proof (leader_elected n _ _ _ Hinv Hi0' Htp') as He0. rewrite Hterm in He0.
  assert (∀ l, (observe g s').(hist) l → g.(hist) l) as Hhist.
  { intros l [Hl|(i & r & Hi & ->)]; [done|].
    destruct (Hnode i r Hoth Hi0' Hi) as [[-> ->]|[_ Hi']]; [by rewrite Hlog|]. by apply (l1_node _ _ _ H1 i). }
  assert (∀ T l, (observe g s').(leads) T l →
    g.(leads) T l ∨ T = rf.(currentTerm) ∧ l = rf.(log)) as Hleads.
  { intros T l [Hl|(i & r & Hi & Hr & -> & ->)]; [by left|].
    destruct (Hnode i r Hoth Hi0' Hi) as [[-> ->]|[_ Hi']]; [right; by rewrite Hlog|left].
    by apply (l1_node _ _ _ H1 i). }
  pose proof (λ l, lay1_no_leads n g s s' i0 rf l H1 Hsd Hi0 Htp He0) as Hno.
  split.
  - done.
  - intros i r Hi. destruct (Hnode i r Hoth Hi0' Hi) as [[-> ->]|[_ Hi']]; [rewrite Hsn, Hst|];
      by eapply (l1_snap _ _ _ H1).
  - intros i r Hi. split_and!; [right; by exists i, r| |intros Hr; right; by exists i, r].
    destruct (Hnode i r Hoth Hi0' Hi) as [[-> ->]|[_ Hi']]; [by rewrite Hterm, Hlog|].
    by apply (l1_node _ _ _ H1 i).
  - intros l Hl%Hhist. by apply (l1_form _ _ _ H1).
  - intros l k Hl%Hhist Hk%Hhist. by apply (l1_match _ _ _ H1).
  - intros T l [Hl|[-> ->]]%Hleads.
    + destruct (l1_leads _ _ _ H1 T l Hl) as (Hh & Hu & i & Hi & Hrf).
      split_and!; [by left|done|]. exists i. split; [by apply Hel|]. intros r Hr.
      destruct (Hnode i r Hoth Hi0' Hr) as [[-> ->]|[_ Hr']]; [|by apply Hrf].
      destruct (Hrf rf Hi0) as [Hle Hsame]. rewrite Hterm. split; [done|]. intros HT.
      by destruct (Hsame HT) as [? _].
    + split_and!; [by left|done|]. exists i0. split; [done|]. intros r Hr.
      rewrite Hi0' in Hr. injection Hr as <-. rewrite Hterm, Hlog, Htp'. split; [lia|]. by intros _.
  - intros T l k [Hl|[-> ->]]%Hleads [Hk|[HT ->]]%Hleads.
    + by apply (l1_chain _ _ _ H1 T).
    + subst T. by apply Hno in Hl.
    + by apply Hno in Hk.
    + by left.
  - intros l p e Hl%Hhist Hp He. destruct (l1_own _ _ _ H1 l p e Hl Hp He) as (L & ? & ?).
    exists L. split; [by left|done].
  - exact Hfl.
Qed.

(** What a log of the history has of the term of a leader is in the leader's log. *)
Lemma lay1_own_leader n g s i rf l p e :
  lay1 n g s → s.(cl).(nodes) !! i = Some rf → rf.(tp) = 2 →
  g.(hist) l → 0 < p → zget l p = Some e → e.(Log.Term) = rf.(currentTerm) →
  zget rf.(log) p = Some e.
Proof.
  intros H1 Hi Htp Hl Hp He Ht. destruct (l1_own _ _ _ H1 l p e Hl Hp He) as (L & HL & HLp).
  rewrite Ht in HL. destruct (l1_leads _ _ _ H1 _ _ HL) as (_ & _ & j & Hj & Hrf).
  pose proof (leader_elected n _ _ _ (l1_inv _ _ _ H1) Hi Htp) as Hel.
  assert (j = i) as -> by (eapply elected_unique; [apply H1|exact Hj|exact Hel]).
  destruct (Hrf rf Hi) as [_ Hsame]. destruct (Hsame eq_refl) as [_ Hpre].
  destruct (Hpre Htp) as [k ->]. pose proof (zget_Some_range _ _ _ HLp). by rewrite zget_app_l by lia.
Qed.

Lemma well_formed_snoc l e T :
  well_formed l → terms_upto l T → e.(Log.Term) = T → 0 < T → well_formed (l ++ [e]).
Proof.
  intros ([k ->] & Hpos & Hsort) Hu He HT. split; [by eexists|].
  assert (∀ p d, zget ((Log0 :: k) ++ [e]) p = Some d →
    zget (Log0 :: k) p = Some d ∨ p = zlen (Log0 :: k) ∧ d = e) as Hget.
  { intros p d Hd. destruct (Z.lt_ge_cases p (zlen (Log0 :: k))) as [Hlt|Hge].
    - rewrite zget_app_l in Hd by done. by left.
    - rewrite zget_app_r in Hd by done. right. pose proof (zget_Some_range _ _ _ Hd) as Hr.
      change (zlen [e]) with 1 in Hr. assert (p = zlen (Log0 :: k)) as -> by lia.
      rewrite Z.sub_diag in Hd. by injection Hd as <-. }
  split.
  - intros p d Hp [Hd|[-> ->]]%Hget; [by eapply Hpos|lia].
  - intros p q d d' Hpq [Hd|[-> ->]]%Hget [Hd'|[-> ->]]%Hget.
    + by eapply Hsort.
    + rewrite He. by eapply Hu.
    + apply zget_Some_range in Hd'. lia.
    + done.
Qed.

Lemma log_match_snoc l k e :
  log_match l k → (∀ d, zget k (zlen l) = Some d → e.(Log.Term) ≠ d.(Log.Term)) →
  log_match (l ++ [e]) k.
Proof.
  intros Hm Hno p a b Ha Hb Hab. destruct (Nat.lt_ge_cases p (length l)) as [Hlt|Hge].
  - rewrite lookup_app_l in Ha by done. rewrite take_app_le by lia. by eapply Hm.
  - rewrite lookup_app_r in Ha by done. assert (p = length l) as -> by (apply lookup_lt_Some in Ha; cbn in Ha; lia).
    rewrite Nat.sub_diag in Ha. injection Ha as <-. exfalso. apply (Hno b); [|done].
    unfold zlen. by rewrite zget_lookup.
Qed.
Lemma elected_pos n c i T : inv n c → elected n c i T → 0 < T.
Proof.
  intros Hinv [_ Hc]. destruct (inv_voters n c i T Hinv Hc) as ([|k q] & _ & Hlen & _ & Hq); [cbn in Hlen; lia|].
  destruct (i_vote _ _ Hinv _ _ _ _ (Hq k (list_elem_of_here _ _))) as (_ & _ & ? & _). done.
Qed.

Lemma lay1_start n g s s' i0 rf rf' e :
  lay1 n g s → stepped n s s' → others i0 s s' →
  s.(cl).(nodes) !! i0 = Some rf → s'.(cl).(nodes) !! i0 = Some rf' →
  rf'.(snapshotIndex) = rf.(snapshotIndex) → rf'.(snapshotTerm) = rf.(snapshotTerm) →
  rf'.(currentTerm) = rf.(currentTerm) → rf'.(log) = rf.(log) ++ [e] →
  e.(Log.Term) = rf.(currentTerm) → rf.(tp) = 2 → rf'.(tp) = 2 →
  (∀ id f, s'.(flights) !! id = Some f → flight_ok n (observe g s') s'.(cl) f) →
  lay1 n (observe g s') s'.
Proof.
  intros H1 Hsd Hoth Hi0 Hi0' Hsn Hst Hterm Hlog He Htp Htp' Hfl. pose proof Hsd as [Hinv Hel].
  pose proof (others_lookup s s' i0 rf') as Hnode.
  destruct (l1_node _ _ _ H1 i0 rf Hi0) as (Hh0 & Hu0 & Hl0). specialize (Hl0 Htp).
  pose proof (leader_elected n _ _ _ (l1_inv _ _ _ H1) Hi0 Htp) as He0.
  pose proof (elected_pos _ _ _ _ (l1_inv _ _ _ H1) He0) as Hpos.
  assert (∀ l, (observe g s').(hist) l → g.(hist) l ∨ l = rf.(log) ++ [e]) as Hhist.
  { intros l [Hl|(i & r & Hi & ->)]; [by left|].
    destruct (Hnode i r Hoth Hi0' Hi) as [[-> ->]|[_ Hi']]; [by right|left]. by apply (l1_node _ _ _ H1 i). }
  assert (∀ T l, (observe g s').(leads) T l →
    g.(leads) T l ∨ T = rf.(currentTerm) ∧ l = rf.(log) ++ [e]) as Hleads.
  { intros T l [Hl|(i & r & Hi & Hr & -> & ->)]; [by left|].
    destruct (Hnode i r Hoth Hi0' Hi) as [[-> ->]|[_ Hi']]; [by right|left].
    by apply (l1_node _ _ _ H1 i). }
  assert ((observe g s').(leads) rf.(currentTerm) (rf.(log) ++ [e])) as Hnew.
  { right. exists i0, rf'. split_and!; by rewrite ?Hterm. }
  assert (∀ l, g.(leads) rf.(currentTerm) l → l `prefix_of` rf.(log)) as Hpre.
  { intros l Hl. destruct (l1_leads _ _ _ H1 _ _ Hl) as (_ & _ & j & Hj & Hrf).
    assert (j = i0) as -> by (eapply elected_unique; [apply H1|exact Hj|exact He0]).
    destruct (Hrf rf Hi0) as [_ Hsame]. by apply Hsame. }
  assert (∀ k, g.(hist) k → log_match (rf.(log) ++ [e]) k) as Hm.
  { intros k Hk. apply log_match_snoc; [by apply (l1_match _ _ _ H1)|]. intros d Hd Ht.
    assert (0 < zlen (log rf)) as Hlen.
    { destruct (l1_form _ _ _ H1 _ Hh0) as ([l ->] & _). zlen_lia. }
    pose proof (lay1_own_leader _ _ _ _ _ _ _ _ H1 Hi0 Htp Hk Hlen Hd ltac:(congruence)) as Hg.
    apply zget_Some_range in Hg. lia. }
  assert (terms_upto (rf.(log) ++ [e]) rf.(currentTerm)) as Hup.
  { intros p d Hd. destruct (Z.lt_ge_cases p (zlen (log rf))) as [Hlt|Hge].
    - rewrite zget_app_l in Hd by done. by eapply Hu0.
    - rewrite zget_app_r in Hd by done. apply list_elem_of_zget, list_elem_of_singleton in Hd as ->. lia. }
  split.
  - done.
  - intros i r Hi. destruct (Hnode i r Hoth Hi0' Hi) as [[-> ->]|[_ Hi']]; [rewrite Hsn, Hst|];
      by eapply (l1_snap _ _ _ H1).
  - intros i r Hi. split_and!; [right; by exists i, r| |intros Hr; right; by exists i, r].
    destruct (Hnode i r Hoth Hi0' Hi) as [[-> ->]|[_ Hi']]; [by rewrite Hterm, Hlog|].
    by apply (l1_node _ _ _ H1 i).
  - intros l [Hl| ->]%Hhist; [by apply (l1_form _ _ _ H1)|].
    eapply well_formed_snoc; [by apply (l1_form _ _ _ H1)|done..].
  - intros l k [Hl| ->]%Hhist [Hk| ->]%Hhist.
    + by apply (l1_match _ _ _ H1).
    + apply log_match_sym. by apply Hm.
    + by apply Hm.
    + by intros p a b Ha Hb _.
  - intros T l [Hl|[-> ->]]%Hleads.
    + destruct (l1_leads _ _ _ H1 T l Hl) as (Hh & Hu & i & Hi & Hrf).
      split_and!; [by left|done|]. exists i. split; [by apply Hel|]. intros r Hr.
      destruct (Hnode i r Hoth Hi0' Hr) as [[-> ->]|[_ Hr']]; [|by apply Hrf].
      destruct (Hrf rf Hi0) as [Hle Hsame]. rewrite Hterm, Hlog, Htp'. split; [done|]. intros HT.
      split; [done|]. intros _. apply prefix_app_r. by apply Hsame.
    + split_and!; [right; by exists i0, rf'|done|]. exists i0. split; [by apply Hel|]. intros r Hr.
      rewrite Hi0' in Hr. injection Hr as <-. rewrite Hterm, Hlog, Htp'. split; [lia|]. by intros _.
  - intros T l k [Hl|[-> ->]]%Hleads [Hk|[HT ->]]%Hleads.
    + by apply (l1_chain _ _ _ H1 T).
    + subst T. left. apply prefix_app_r. by apply Hpre.
    + right. apply prefix_app_r. by apply Hpre.
    + by left.
  - intros l p d [Hl| ->]%Hhist Hp Hd.
    + destruct (l1_own _ _ _ H1 l p d Hl Hp Hd) as (L & ? & ?). exists L. split; [by left|done].
    + destruct (Z.lt_ge_cases p (zlen (log rf))) as [Hlt|Hge].
      * rewrite zget_app_l in Hd by done. destruct (l1_own _ _ _ H1 _ p d Hh0 Hp Hd) as (L & ? & ?).
        exists L. split; [by left|done].
      * exists (rf.(log) ++ [e]). split; [|done]. rewrite zget_app_r in Hd by done.
        apply list_elem_of_zget, list_elem_of_singleton in Hd as ->. by rewrite He.
  - exact Hfl.
Qed.
(** *** Every action *)

Lemma nact_act n g late a s s' :
  lay1 n g s → nact late true a s = Some s' →
  s'.(cl) = s.(cl) ∨ ∃ b, act true b s.(cl) = Some s'.(cl).
Proof.
  intros H1 Hn. destruct a as [a|i server t id|id|r id|id|r id]; cbn [nact] in Hn.
  - destruct (base a); [|done]. apply bind_Some in Hn as (c & Hc & [= <-]). right. by exists a.
  - apply bind_Some in Hn as (rf & Hi & Hn). case_bool_decide; [|done].
    apply bind_Some in Hn as ([rf1 rd] & _ & Hn). destruct rd; simplify_eq; by left.
  - apply bind_Some in Hn as (f & Hf & Hn). apply bind_Some in Hn as (rf & Hi & Hn).
    destruct (f_state f); try done; [apply bind_Some in Hn as (a & _ & Hn)|]; simplify_eq; by left.
  - apply bind_Some in Hn as (f & Hf & Hn). apply bind_Some in Hn as (rf & Hi & Hn).
    pose proof (l1_flights _ _ _ H1 id f Hf) as [_ Hok].
    destruct (f_state f) as [| |k args|k args| | |]; try done;
      apply bind_Some in Hn as ([rf' reply] & Heq & [= <-]); right; cbn.
    + exists (ALocal f.(f_server) (OpAppendEntries r args)). cbn. rewrite Hi. cbn. by rewrite Heq.
    + exists (ALocal f.(f_server) (OpInstallSnapshot r args)). cbn. rewrite Hi. cbn.
      rewrite bool_decide_true by apply Hok. by rewrite Heq.
  - apply bind_Some in Hn as (f & Hf & Hn). destruct (f_state f); simplify_eq; by left.
  - apply bind_Some in Hn as (f & Hf & Hn). apply bind_Some in Hn as (rf & Hi & Hn).
    destruct (f_state f) as [| | | |k ok args reply|k ok reply|]; try done;
      (destruct (_ && _); [|simplify_eq; by left]);
      apply bind_Some in Hn as (rf' & Heq & [= <-]); right; cbn.
    + exists (ALocal f.(f_leader) (OpAppendReply r (Z.of_nat f.(f_server)) f.(f_term) ok args reply)).
      cbn. rewrite Hi. cbn. by rewrite Heq.
    + exists (ALocal f.(f_leader) (OpInstallReply r (Z.of_nat f.(f_server)) f.(f_term) ok reply)).
      cbn. rewrite Hi. cbn. by rewrite Heq.
Qed.

Lemma nact_stepped n g late a s s' : lay1 n g s → nact late true a s = Some s' → stepped n s s'.
Proof.
  intros H1 Hn. pose proof (l1_inv _ _ _ H1) as Hinv.
  destruct (nact_act _ _ _ _ _ _ H1 Hn) as [Heq|[b Hb]].
  - split; [by rewrite Heq|]. by rewrite Heq.
  - split; [by eapply inv_act|]. intros i T. by eapply act_elected.
Qed.

Lemma flight_mono n g s s' f :
  stepped n s s' → flight_ok n g s.(cl) f → flight_ok n (observe g s') s'.(cl) f.
Proof.
  intros [_ Hel] [Hne Hok]. split; [done|]. destruct (f_state f); try done.
  destruct Hok as [He (l & Hl & Hfr)]. split; [by apply Hel|]. exists l. split; [by left|done].
Qed.

(** The flights are as before, but for one. *)
Lemma flights_ok n g s s' id f :
  lay1 n g s → stepped n s s' → s'.(flights) = <[id := f]> s.(flights) →
  flight_ok n (observe g s') s'.(cl) f →
  ∀ id' f', s'.(flights) !! id' = Some f' → flight_ok n (observe g s') s'.(cl) f'.
Proof.
  intros H1 Hsd Heq Hf id' f'. rewrite Heq. intros [[<- <-]|[_ Hf']]%lookup_insert_Some; [done|].
  eapply flight_mono; [done|]. by apply (l1_flights _ _ _ H1 id').
Qed.

Lemma flights_same n g s s' :
  lay1 n g s → stepped n s s' → s'.(flights) = s.(flights) →
  ∀ id f, s'.(flights) !! id = Some f → flight_ok n (observe g s') s'.(cl) f.
Proof.
  intros H1 Hsd Heq id f. rewrite Heq. intros Hf. eapply flight_mono; [done|].
  by apply (l1_flights _ _ _ H1 id).
Qed.

Lemma calm_pc_log n g s i rf rf' :
  lay1 n g s → s.(cl).(nodes) !! i = Some rf → calm rf rf' → pc_log g rf rf'.
Proof.
  intros H1 Hi [Hlog Hs Hst Ht Hc Hl]. destruct (l1_node _ _ _ H1 i rf Hi) as (Hh & Hu & _).
  split; try done; [by rewrite Hlog| |].
  - rewrite Hlog. intros p e He. specialize (Hu p e He). lia.
  - intros Htp. by destruct (Hl Htp).
Qed.

(** A step that leaves the peers alone, or changes one calmly. *)
Lemma lay1_same n g s s' :
  lay1 n g s → stepped n s s' → s'.(cl).(nodes) = s.(cl).(nodes) →
  (∀ id f, s'.(flights) !! id = Some f → flight_ok n (observe g s') s'.(cl) f) →
  lay1 n (observe g s') s'.
Proof.
  intros H1 Hsd Heq Hfl. apply lay1_log with s 0%nat; [done..| | |done].
  - intros i _. by rewrite Heq.
  - rewrite Heq. intros rf' Hi. exists rf'. split; [done|]. eapply calm_pc_log; [done..|].
    by split.
Qed.

Lemma lay1_calm n g s s' i rf rf' :
  lay1 n g s → stepped n s s' → s.(cl).(nodes) !! i = Some rf →
  s'.(cl).(nodes) = <[i := rf']> s.(cl).(nodes) → calm rf rf' →
  (∀ id f, s'.(flights) !! id = Some f → flight_ok n (observe g s') s'.(cl) f) →
  lay1 n (observe g s') s'.
Proof.
  intros H1 Hsd Hi Heq Hc Hfl. apply lay1_log with s i; [done..| | |done].
  - intros k Hk. rewrite Heq. by rewrite list_lookup_insert_ne by done.
  - rewrite Heq. intros rk Hk. rewrite list_lookup_insert_eq in Hk by (by eapply lookup_lt_Some).
    injection Hk as <-. exists rf. split; [done|]. by eapply calm_pc_log.
Qed.
Lemma Start_log cmd rf rf' res :
  rf.(dead) = false → rf.(tp) = 2 → Start cmd rf = Some (rf', res) →
  rf'.(log) = rf.(log) ++ [Log.mk cmd rf.(currentTerm)] ∧
  rf'.(snapshotIndex) = rf.(snapshotIndex) ∧ rf'.(snapshotTerm) = rf.(snapshotTerm) ∧
  rf'.(currentTerm) = rf.(currentTerm) ∧ rf'.(tp) = 2 ∧ rf'.(nextIndex) = rf.(nextIndex) ∧
  rf'.(startAppend) = true ∧ rf'.(commitIndex) = rf.(commitIndex) ∧
  applies rf'.(out) = applies rf.(out) ∧
  zset rf.(matchIndex) rf.(me) (zlen rf.(log) + rf.(snapshotIndex)) = Some rf'.(matchIndex).
Proof.
  intros Hd Htp Heq. unfold Start, killed in Heq. rewrite Hd, Htp in Heq. cbn [negb Z.eqb Pos.eqb] in Heq.
  apply bind_Some in Heq as (m & Hm & Heq). injection Heq as <- _.
  split_and!; try done.
  - exact (applies_persist (rf <| log := log rf ++ [Log.mk cmd (currentTerm rf)] |>)).
  - etrans; [|exact Hm]. cbn. f_equal. unfold lastLogIndex. cbn. zlen_lia.
Qed.

(** The follower handles a message of a leader. *)
Lemma append_pc_log n g s id f k args i r rf rf' reply :
  lay1 n g s → s.(flights) !! id = Some f → f.(f_state) = FAppendSent k args →
  f.(f_server) = i → s.(cl).(nodes) !! i = Some rf →
  AppendEntries r args rf = Some (rf', reply) → pc_log g rf rf'.
Proof.
  intros H1 Hf Hst Hi0 Hi Heq. pose proof (l1_flights _ _ _ H1 id f Hf) as [Hne Hok]. rewrite Hst in Hok.
  destruct Hok as [He (l & Hl & Hfr)]. destruct (l1_node _ _ _ H1 i rf Hi) as (Hh & Hu & _).
  destruct (Z.lt_ge_cases args.(RequestAppendArgs.Term) rf.(currentTerm)) as [Hold|Hnew].
  { rewrite (AppendEntries_old _ _ _ _ _ Heq Hold). by split. }
  destruct (i_node _ _ (l1_inv _ _ _ H1) i rf Hi) as (_ & _ & Hrec).
  destruct (l1_snap _ _ _ H1 i rf Hi) as [Hs _].
  destruct (l1_leads _ _ _ H1 _ _ Hl) as (Hhl & Hul & _).
  destruct (AppendEntries_role _ _ _ _ _ Heq Hnew) as (E1 & E2 & Ht & Hc & Hlead).
  pose proof (AppendEntries_from _ l _ _ _ _ (rec_wf _ Hrec) Hs
    (proj1 (l1_form _ _ _ H1 l Hhl)) (l1_match _ _ _ H1 _ _ Hh Hhl) Hfr Heq Hnew) as Hres.
  assert (rf'.(log) = l ∨ rf'.(log) = rf.(log)) as Hlog.
  { destruct (RequestAppendReply.Success reply).
    - destruct Hres as ([?|[? _]] & _); auto.
    - right. apply Hres. }
  assert (rf'.(tp) ≠ 2) as Hnot.
  { intros Htp. destruct (Hlead Htp) as [Htp0 Hsame].
    pose proof (leader_elected n _ _ _ (l1_inv _ _ _ H1) Hi Htp0) as He'.
    rewrite <- Hsame, Ht in He'. apply Hne. rewrite Hi0. symmetry.
    eapply elected_unique; [apply H1|exact He|exact He']. }
  split; try done; [lia|destruct Hlog as [-> | ->]; done|].
  rewrite Ht. destruct Hlog as [-> | ->]; [done|]. intros p e Hpe. specialize (Hu p e Hpe). lia.
Qed.

(** A step of [RaftCluster]. *)
Lemma lay1_base n g late s s' a :
  lay1 n g s → stepped n s s' →
  nact late true (NBase a) s = Some s' → lay1 n (observe g s') s'.
Proof.
  intros H1 Hsd Hn. cbn [nact] in Hn.
  destruct (base a) eqn:Hb; [|done]. apply bind_Some in Hn as (c & Hc & [= <-]).
  pose proof (flights_same n g s (set_cl c s) H1 Hsd eq_refl) as Hfl.
  destruct (act_change n a _ _ (l1_inv _ _ _ H1) Hb Hc)
    as [Heq|(i & rf & rf' & Hi & Heq & Hch)]; [by apply lay1_same with s|].
  assert (c.(nodes) !! i = Some rf') as Hi'.
  { rewrite Heq. apply list_lookup_insert_eq. by eapply lookup_lt_Some. }
  assert (others i s (set_cl c s)) as Hoth.
  { intros k Hk. cbn. rewrite Heq. by rewrite list_lookup_insert_ne by done. }
  destruct Hch as [rf' Hst|rf' Hcr|cmd rf' res Hd Htp Hstart|Htp _].
  - eapply lay1_calm; [done..|apply Hst|done].
  - eapply lay1_calm; [done..|apply Hcr|done].
  - destruct (Start_log _ _ _ _ Hd Htp Hstart) as (? & ? & ? & ? & ? & _).
    by eapply (lay1_start n g s (set_cl c s) i rf rf').
  - by eapply (lay1_win n g s (set_cl c s) i rf).
Qed.

(** A round starts. *)
Lemma lay1_top n g late s s' i server t id :
  lay1 n g s → stepped n s s' →
  nact late true (NTop i server t id) s = Some s' → lay1 n (observe g s') s'.
Proof.
  intros H1 Hsd Hn. cbn [nact] in Hn.
  apply bind_Some in Hn as (rf & Hi & Hn). case_bool_decide as Hg; [|done].
  apply bind_Some in Hn as ([rf1 rd] & _ & Hn).
  destruct rd; simplify_eq; (eapply lay1_same; [done..|]); (eapply flights_ok; [done..|]); split;
    cbn; naive_solver.
Qed.

(** A call is built. *)
Lemma lay1_args n g late s s' id :
  lay1 n g s → stepped n s s' →
  nact late true (NArgs id) s = Some s' → lay1 n (observe g s') s'.
Proof.
  intros H1 Hsd Hn. cbn [nact] in Hn.
  apply bind_Some in Hn as (f & Hf & Hn). apply bind_Some in Hn as (rf & Hi & Hn).
  pose proof (l1_flights _ _ _ H1 id f Hf) as [Hne Hok].
  destruct (i_node _ _ (l1_inv _ _ _ H1) _ _ Hi) as (_ & _ & Hrec).
  destruct (l1_snap _ _ _ H1 _ _ Hi) as [Hs Hst].
  destruct (f_state f); try done; [apply bind_Some in Hn as (a & Ha & Hn)|]; simplify_eq.
  - eapply lay1_same; [done..|]. eapply flights_ok; [done..|]. split; [done|]. cbn.
    destruct a as [args|]; [|done].
    destruct (appendArgs_from _ _ _ (rec_wf _ Hrec) Hs Hst Ha) as (Htp & -> & Hfr & _).
    split; [apply leader_elected; [apply H1|done..]|]. exists rf.(log). split; [|done].
    left. by apply (l1_node _ _ _ H1 _ _ Hi).
  - eapply lay1_same; [done..|]. eapply flights_ok; [done..|]. split; [done|]. cbn.
    apply installArgs_msg; [apply Hrec|done].
Qed.

(** The follower handles a call. *)
Lemma lay1_serve n g late s s' r id :
  lay1 n g s → stepped n s s' →
  nact late true (NServe r id) s = Some s' → lay1 n (observe g s') s'.
Proof.
  intros H1 Hsd Hn. cbn [nact] in Hn.
  apply bind_Some in Hn as (f & Hf & Hn). apply bind_Some in Hn as (rf & Hi & Hn).
  pose proof (l1_flights _ _ _ H1 id f Hf) as [Hne Hok].
  destruct (f_state f) as [| |k args|k args| | |] eqn:Hst; try done;
    apply bind_Some in Hn as ([rf' reply] & Heq & [= <-]).
  - eapply (lay1_log n g s _ f.(f_server)); [done|done| | |by eapply flights_ok].
    { intros j Hj. cbn. by rewrite list_lookup_insert_ne by done. }
    intros rk Hk. cbn in Hk. rewrite list_lookup_insert_eq in Hk by (by eapply lookup_lt_Some).
    injection Hk as <-. exists rf. split; [done|]. by eapply append_pc_log.
  - eapply lay1_calm; [done..| |by eapply flights_ok].
    destruct Hok as [_ Hz]. destruct (l1_snap _ _ _ H1 _ _ Hi) as [Hs _].
    eapply st_calm, InstallSnapshot_still; [|exact Heq]. lia.
Qed.

(** A call or an answer is lost. *)
Lemma lay1_drop n g late s s' id :
  lay1 n g s → stepped n s s' →
  nact late true (NDrop id) s = Some s' → lay1 n (observe g s') s'.
Proof.
  intros H1 Hsd Hn. cbn [nact] in Hn.
  apply bind_Some in Hn as (f & Hf & Hn).
  pose proof (l1_flights _ _ _ H1 id f Hf) as [Hne Hok].
  destruct (f_state f); simplify_eq; (eapply lay1_same; [done..|]); (eapply flights_ok; [done..|]); done.
Qed.

(** The leader handles an answer. *)
Lemma lay1_reply n g late s s' r id :
  lay1 n g s → stepped n s s' →
  nact late true (NReply r id) s = Some s' → lay1 n (observe g s') s'.
Proof.
  intros H1 Hsd Hn. cbn [nact] in Hn.
  apply bind_Some in Hn as (f & Hf & Hn). apply bind_Some in Hn as (rf & Hi & Hn).
  pose proof (l1_flights _ _ _ H1 id f Hf) as [Hne Hok].
  destruct (l1_snap _ _ _ H1 _ _ Hi) as [Hs _].
  destruct (f_state f) as [| | | |k ok args reply|k ok reply|]; try done;
    (destruct (_ && _); [|simplify_eq; (eapply lay1_same; [done..|]); (by eapply flights_ok)]);
    apply bind_Some in Hn as (rf' & Heq & [= <-]).
  - eapply lay1_calm; [done..| |by eapply flights_ok]. by eapply appendReply_calm.
  - eapply lay1_calm; [done..| |by eapply flights_ok].
    destruct (installReply_calm _ _ _ _ _ _ _ Heq) as [Hst|(_ & next & _ & ->)]; [apply Hst|by split].
Qed.

Lemma lay1_nact n g late a s s' :
  lay1 n g s → nact late true a s = Some s' → lay1 n (observe g s') s'.
Proof.
  intros H1 Hn. pose proof (nact_stepped _ _ _ _ _ _ H1 Hn) as Hsd.
  destruct a; by eauto using lay1_base, lay1_top, lay1_args, lay1_serve, lay1_drop, lay1_reply.
Qed.
Lemma nstart_nodes n r s i rf :
  nstart n r = Some s → s.(cl).(nodes) !! i = Some rf →
  Make n (Z.of_nat i) Persister.MakePersister r = Some rf ∧ (i < n)%nat.
Proof.
  unfold nstart, start. intros Hs Hi. apply bind_Some in Hs as (c & Hc & [= <-]).
  apply bind_Some in Hc as (l & Hl & [= <-]). apply mapM_Some in Hl. cbn in Hi.
  destruct (Forall2_lookup_r _ _ _ _ _ Hl Hi) as (k & Hk & Hmake).
  apply lookup_seq in Hk as [-> Hk]. by cbn in Hmake.
Qed.

Lemma nstart_flights n r s : nstart n r = Some s → s.(flights) = ∅.
Proof. unfold nstart. intros Hs. by apply bind_Some in Hs as (c & _ & [= <-]). Qed.

Lemma Make_fresh_fields n i r rf :
  (i < n)%nat → Make n (Z.of_nat i) Persister.MakePersister r = Some rf →
  recoverable rf ∧ rf.(log) = [Log0] ∧ rf.(tp) = 0 ∧ rf.(snapshotIndex) = 0 ∧ rf.(snapshotTerm) = 0 ∧
  rf.(currentTerm) = 0 ∧ rf.(commitIndex) = 0 ∧ rf.(startAppend) = false ∧ applies rf.(out) = [].
Proof.
  intros Hi Hmake. destruct (Make_fresh n (Z.of_nat i) r) as (rf1 & Heq & Hrec & Ht & _ & Hl & Htp & _); [lia|].
  assert (rf1 = rf) as -> by congruence.
  destruct (Make_fresh_snap n (Z.of_nat i) r rf) as (Hs & Hst & Hc); [lia|done|].
  split_and!; try done; [by eapply Make_startAppend|by eapply Make_sends].
Qed.

Lemma lay1_init n r s : nstart n r = Some s → lay1 n (observe nothing s) s.
Proof.
  intros Hs.
  assert (∀ i rf, s.(cl).(nodes) !! i = Some rf →
    rf.(log) = [Log0] ∧ rf.(tp) = 0 ∧ rf.(snapshotIndex) = 0 ∧ rf.(snapshotTerm) = 0 ∧ rf.(currentTerm) = 0)
    as Hnode.
  { intros i rf Hi. destruct (nstart_nodes _ _ _ _ _ Hs Hi) as [Hmake Hlt].
    by destruct (Make_fresh_fields _ _ _ _ Hlt Hmake) as (_ & ? & ? & ? & ? & ? & _). }
  assert (∀ l, (observe nothing s).(hist) l → l = [Log0]) as Hhist.
  { intros l [[]|(i & rf & Hi & ->)]. by apply (Hnode i). }
  assert (∀ p e, zget [Log0] p = Some e → p = 0 ∧ e = Log0) as Hget.
  { intros p e He. pose proof (zget_Some_range _ _ _ He) as Hr. change (zlen [Log0]) with 1 in Hr.
    assert (p = 0) as -> by lia. by injection He as <-. }
  assert (∀ T l, ¬ (observe nothing s).(leads) T l) as Hno.
  { intros T l [[]|(i & rf & Hi & Htp & _)]. destruct (Hnode i rf Hi) as (_ & Ht & _). lia. }
  split.
  - unfold nstart in Hs. apply bind_Some in Hs as (c & Hc & [= <-]). by eapply inv_start.
  - intros i rf Hi. by destruct (Hnode i rf Hi) as (_ & _ & ? & ? & _).
  - intros i rf Hi. split_and!; [right; by exists i, rf| |intros; right; by exists i, rf].
    destruct (Hnode i rf Hi) as (-> & _ & _ & _ & ->). by intros p e [-> ->]%Hget.
  - intros l ->%Hhist. split_and!; [by eexists|by intros p e ? [-> ->]%Hget|].
    by intros p q e d _ [-> ->]%Hget [-> ->]%Hget.
  - intros l k ->%Hhist ->%Hhist. by intros p e d.
  - by intros T l ?%Hno.
  - by intros T l k ?%Hno.
  - intros l p e ->%Hhist Hp [-> ->]%Hget. lia.
  - intros id f Hf. rewrite (nstart_flights _ _ _ Hs) in Hf. by rewrite lookup_empty in Hf.
Qed.

Lemma greach_lay1 P n g s : greach P n g s → lay1 n g s.
Proof. induction 1; [by eapply lay1_init|by eapply lay1_nact]. Qed.

(** C11: Log matching: in every state that a cluster can reach by runs in which every
    election is won with the condition of the waiting loop of [startElection] (term
    and role) still true when the mutex is taken (the argument [fresh] is true; the
    code does not look again, and then two leaders of a term are possible,
    [RaftCluster.stale_guard_two_leaders]), if the logs of two peers have entries of
    the same term at the same index, they are the same up to that index; whatever
    calls were lost, delayed, overtaken or answered late, and whatever crashes
    happened. The log is not compacted by a key/value server, and a call is handled at
    most once. *)
Theorem log_matching late n s i j rf rf' :
  nreachable late true n s →
  s.(cl).(nodes) !! i = Some rf → s.(cl).(nodes) !! j = Some rf' →
  log_match rf.(log) rf'.(log).
Proof.
  intros [g Hg%greach_lay1]%nreachable_greach Hi Hj.
  apply (l1_match _ _ _ Hg); by eapply (l1_node _ _ _ Hg).
Qed.
End history.

(** The run of [late_heartbeat]: the logs of peers 0 and 1 share the entry of index 1. *)
Lemma log_matching_witness :
  ∃ s rf rf', @nreachable codec false true 3 s ∧
    s.(cl).(nodes) !! 0%nat = Some rf ∧ s.(cl).(nodes) !! 1%nat = Some rf' ∧
    log_match rf.(log) rf'.(log) ∧ length rf.(log) = 3%nat ∧ rf.(log) ≠ rf'.(log).
Proof.
  destruct (@nstart codec 3 0) as [s0|] eqn:H0; [|by vm_compute in H0].
  destruct (@nacts codec false true late_heartbeat s0) as [s|] eqn:Hs.
  2: { vm_compute in H0. injection H0 as <-. by vm_compute in Hs. }
  assert (@nreachable codec false true 3 s) as Hr by by exists 0, s0, late_heartbeat.
  pose proof (λ rf rf', @log_matching codec false 3 s 0 1 rf rf' Hr) as Hm.
  vm_compute in H0. injection H0 as <-. vm_compute in Hs. injection Hs as <-.
  eexists _, _, _. split; [exact Hr|]. split; [reflexivity|]. split; [reflexivity|].
  split; [apply Hm; reflexivity|]. split; [reflexivity|discriminate].
Defined.
