(* ===== verification/RaftCommit.v ===== *)
(** The commit rule in the cluster of [RaftNet].  A leader counts an answer only once
    [Start] was called in its term, and from then on its calls end with an entry
    of its term: so the entries it commits by counting replicas are entries of
    its own term, although [updateCommit] does not look at terms. *)
From S2P Require Import Prelude Gob Iface RaftTypes RaftPersist RaftLog RaftLogProps RaftElection RaftLeader RaftPeer RaftRecovery RaftCluster RaftNet RaftSafety RaftMatch GobImpl.

Section frames.
Context `{!RaftCodec}.

(** After the test of the term, [AppendEntries] touches neither the leader's
    bookkeeping nor the role. *)
Definition same_books (rf rf' : Raft) : Prop :=
  rf'.(nextIndex) = rf.(nextIndex) ∧ rf'.(matchIndex) = rf.(matchIndex) ∧
  rf'.(startAppend) = rf.(startAppend) ∧ rf'.(tp) = rf.(tp).

Lemma same_books_foldM {B} (f : Raft → B → option Raft) rf l rf' :
  (∀ rf x rf', f rf x = Some rf' → same_books rf rf') → foldM f rf l = Some rf' → same_books rf rf'.
Proof.
  intros Hf. revert rf. induction l as [|x l IH]; intros rf Heq; cbn [foldM] in Heq.
  - by injection Heq as <-.
  - apply bind_Some in Heq as (rf1 & H1 & H2). apply Hf in H1 as (? & ? & ? & ?).
    apply IH in H2 as (? & ? & ? & ?). split_and!; congruence.
Qed.

Lemma applyAt_books rf i rf' : applyAt rf i = Some rf' → same_books rf rf'.
Proof. unfold applyAt. intros. by unbind. Qed.

Lemma applyTwice_books rf i rf' : applyTwice rf i = Some rf' → same_books rf rf'.
Proof.
  unfold applyTwice. intros Heq. apply bind_Some in Heq as (rf1 & H1 & H2).
  apply applyAt_books in H1 as (? & ? & ? & ?). apply applyAt_books in H2 as (? & ? & ? & ?).
  split_and!; congruence.
Qed.

Lemma ae_match_books args rf rf' : ae_match args rf = Some rf' → same_books rf rf'.
Proof. unfold ae_match. intros. repeat case_match; unbind; repeat case_match; by unbind. Qed.

Lemma ae_ahead_books args rf rf' : ae_ahead args rf = Some rf' → same_books rf rf'.
Proof.
  unfold ae_ahead. intros Heq. apply bind_Some in Heq as (rf1 & H1 & [= <-]).
  repeat case_match; unbind; repeat case_match; by unbind.
Qed.

Lemma ae_commit_books args rf rf' : ae_commit args rf = Some rf' → same_books rf rf'.
Proof.
  unfold ae_commit. intros Heq. case_match; [|by simplify_eq].
  apply (same_books_foldM _ _ _ _ applyTwice_books) in Heq. done.
Qed.

Lemma AppendEntries_books r args rf rf' reply :
  AppendEntries r args rf = Some (rf', reply) →
  rf'.(nextIndex) = rf.(nextIndex) ∧ rf'.(matchIndex) = rf.(matchIndex) ∧
  rf'.(startAppend) = rf.(startAppend) ∧
  (rf.(currentTerm) ≤ args.(RequestAppendArgs.Term) → rf'.(tp) = (ae_term args rf).(tp)).
Proof.
  unfold AppendEntries. intros Heq.
  destruct (Z.ltb_spec args.(RequestAppendArgs.Term) rf.(currentTerm)); [simplify_eq; split_and!; try done; lia|].
  assert (same_books (ae_term args rf) rf') as (E1 & E2 & E3 & E4).
  { apply bind_Some in Heq as (m & _ & Heq). repeat case_match.
    - apply bind_Some in Heq as (rf1 & Hw1 & Heq). apply bind_Some in Heq as (rf2 & Hw2 & [= <- _]).
      apply ae_match_books in Hw1 as (? & ? & ? & ?). apply ae_commit_books in Hw2 as (? & ? & ? & ?).
      split_and!; cbn; congruence.
    - apply bind_Some in Heq as (rf1 & Hw1 & Heq). apply bind_Some in Heq as (rf2 & Hw2 & [= <- _]).
      apply ae_ahead_books in Hw1 as (? & ? & ? & ?). apply ae_commit_books in Hw2 as (? & ? & ? & ?).
      split_and!; cbn; congruence.
    - by apply bind_Some in Heq as (? & _ & [= <- _]). }
  rewrite E1, E2, E3, E4. unfold ae_term. by repeat case_match.
Qed.

Lemma AppendEntries_old_reply r args rf rf' reply :
  AppendEntries r args rf = Some (rf', reply) →
  args.(RequestAppendArgs.Term) < rf.(currentTerm) → reply.(RequestAppendReply.Success) = false.
Proof. unfold AppendEntries. intros. case_match; to_prop; [by simplify_eq|lia]. Qed.

(** A commit index that the commit rule raises is the median match index. *)
Lemma updateCommit_median rf rf' :
  updateCommit rf = Some rf' →
  ∃ temp, medianMatch rf = Some temp ∧ rf'.(commitIndex) = Z.max rf.(commitIndex) temp.
Proof.
  unfold updateCommit. intros Heq. apply bind_Some in Heq as (temp & Hm & Heq). exists temp.
  split; [done|]. set (rf1 := if _ <? temp then _ else _) in *.
  assert (rf1.(commitIndex) = Z.max rf.(commitIndex) temp) as <-.
  { subst rf1. clear Heq. destruct (Z.ltb_spec (commitIndex rf) temp); cbn; lia. }
  clearbody rf1. case_match; [|by simplify_eq]. apply applyAt_frame in Heq. by rewrite Heq.
Qed.

Lemma medianMatch_books rf rf' :
  rf'.(peers) = rf.(peers) → rf'.(matchIndex) = rf.(matchIndex) → medianMatch rf' = medianMatch rf.
Proof. unfold medianMatch. by intros -> ->. Qed.

Lemma commits_median rf rf' :
  commits rf rf' →
  rf'.(commitIndex) = rf.(commitIndex) ∨
  rf.(commitIndex) < rf'.(commitIndex) ∧ medianMatch rf = Some rf'.(commitIndex).
Proof.
  induction 1 as [rf|rf rf1 rf2 H1 _ IH]; [by left|].
  pose proof (updateCommit_frame _ _ H1) as Hf.
  destruct (updateCommit_median _ _ H1) as (temp & Hm & Hc).
  assert (medianMatch rf1 = Some temp) as Hm1.
  { rewrite <- Hm. apply medianMatch_books; by rewrite Hf. }
  rewrite Hm1 in IH. destruct (Z.le_gt_cases temp rf.(commitIndex)).
  - destruct IH as [->|[? [= ?]]]; [left|]; lia.
  - right. rewrite Hm. destruct IH as [->|[? [= ?]]]; split; try lia; f_equal; lia.
Qed.

Lemma medianMatch_member rf temp : medianMatch rf = Some temp → temp ∈ rf.(matchIndex).
Proof.
  unfold medianMatch. intros Heq. apply bind_Some in Heq as (? & _ & Heq).
  apply bind_Some in Heq as (i & _ & Heq). by eapply list_elem_of_zget.
Qed.
End frames.

(** ** The invariant *)

(** The match indices of peer [i] are 0 or entries of term [T] that the peers, and
    [i] itself, have held. *)
Definition acked (g : ghost) (i : nat) (T : Z) (m : list Z) : Prop :=
  ∀ j x, m !! j = Some x → x = 0 ∨ 0 < x ∧ g.(ack) j T x ∧ g.(ack) i T x.

Record books (g : ghost) (i : nat) (rf : Raft) : Prop := {
  bk_fresh : rf.(tp) = 2 → rf.(startAppend) = false →
    Forall (λ m, m = 0) rf.(matchIndex) ∧ Forall (λ x, x = zlen rf.(log)) rf.(nextIndex);
  bk_own : rf.(tp) = 2 → rf.(startAppend) = true →
    ∃ e, zget rf.(log) (zlen rf.(log) - 1) = Some e ∧ e.(Log.Term) = rf.(currentTerm);
  bk_match : rf.(startAppend) = true →
    ∃ T, T ≤ rf.(currentTerm) ∧ (rf.(tp) = 2 → T = rf.(currentTerm)) ∧ acked g i T rf.(matchIndex)
}.

(** The peer has led the term: in it, it still leads or counts no answers. *)
Definition led (T : Z) (rf : Raft) : Prop :=
  T ≤ rf.(currentTerm) ∧ (T = rf.(currentTerm) → rf.(tp) = 2 ∨ rf.(startAppend) = false).

(** A snapshot is sent in a term in which [Start] was called. *)
Definition installing (t : Z) (rf : Raft) : Prop :=
  t = rf.(currentTerm) → rf.(tp) ≠ 1 ∧ (rf.(tp) = 2 → rf.(startAppend) = true).

(** A call without entries, or that ends with an entry of its term *)
Definition own_end (g : ghost) (args : RequestAppendArgs.t) : Prop :=
  args.(RequestAppendArgs.Entries) = [] ∨
  ∃ l e, g.(leads) args.(RequestAppendArgs.Term) l ∧ from l args ∧
    zget l (lastOf args) = Some e ∧ e.(Log.Term) = args.(RequestAppendArgs.Term).

Definition flight_books (g : ghost) (s : net) (f : flight) : Prop :=
  (∀ rf, s.(cl).(nodes) !! f.(f_leader) = Some rf → f.(f_term) ≤ rf.(currentTerm)) ∧
  match f.(f_state) with
  | FInstall | FInstallSent _ _ | FInstallReplied _ _ _ =>
      ∀ rf, s.(cl).(nodes) !! f.(f_leader) = Some rf → installing f.(f_term) rf
  | FAppendSent _ args =>
      f.(f_term) ≤ args.(RequestAppendArgs.Term) ∧
      (∀ rf, s.(cl).(nodes) !! f.(f_leader) = Some rf → led args.(RequestAppendArgs.Term) rf) ∧
      own_end g args
  | FAppendReplied _ ok args reply =>
      f.(f_term) ≤ args.(RequestAppendArgs.Term) ∧
      (∀ rf, s.(cl).(nodes) !! f.(f_leader) = Some rf → led args.(RequestAppendArgs.Term) rf) ∧
      (ok = true → reply.(RequestAppendReply.Success) = true →
         args.(RequestAppendArgs.Entries) = [] ∨
         0 < lastOf args ∧ g.(ack) f.(f_server) args.(RequestAppendArgs.Term) (lastOf args))
  | _ => True
  end.

Record lay2 (n : nat) (g : ghost) (s : net) : Prop := {
  l2_ack j T p : g.(ack) j T p →
    (∃ rf, s.(cl).(nodes) !! j = Some rf ∧ T ≤ rf.(currentTerm)) ∧ 0 < p ∧
    ∃ L e, g.(leads) T L ∧ zget L p = Some e ∧ e.(Log.Term) = T ∧
      ∀ q d, 0 < q ≤ p → zget L q = Some d → d.(Log.Term) = T → g.(ack) j T q;
  l2_node i rf : s.(cl).(nodes) !! i = Some rf → books g i rf;
  l2_now i rf p e : s.(cl).(nodes) !! i = Some rf → 0 < p → zget rf.(log) p = Some e →
    e.(Log.Term) = rf.(currentTerm) → g.(ack) i rf.(currentTerm) p;
  l2_flight id f : s.(flights) !! id = Some f → flight_books g s f
}.

(** What a step of a peer keeps for its flights. *)
Record moved (rf rf' : Raft) : Prop := {
  mv_term : rf.(currentTerm) ≤ rf'.(currentTerm);
  mv_keep : rf'.(currentTerm) = rf.(currentTerm) → rf.(tp) = 2 → rf'.(tp) = 2 ∨ rf'.(startAppend) = false;
  mv_off : rf'.(currentTerm) = rf.(currentTerm) → rf.(startAppend) = false →
    rf'.(tp) = 2 ∨ rf'.(startAppend) = false;
  mv_cand : rf'.(currentTerm) = rf.(currentTerm) → rf'.(tp) = 1 → rf.(tp) = 1;
  mv_lead : rf'.(currentTerm) = rf.(currentTerm) → rf'.(tp) = 2 →
    rf.(tp) = 1 ∨ rf.(tp) = 2 ∧ (rf.(startAppend) = true → rf'.(startAppend) = true)
}.

Lemma moved_refl rf : moved rf rf.
Proof. split; auto; lia. Qed.

Lemma still_moved rf rf' : still rf rf' → moved rf rf'.
Proof.
  intros [[_ _ _ Ht Hc Hl] Hk _ _ Hs _ _]. split; auto.
  - intros _ H. right. congruence.
  - intros _ H. right. destruct (Hl H). split; [done|congruence].
Qed.

Lemma moved_led T rf rf' : moved rf rf' → led T rf → led T rf'.
Proof.
  intros [Ht Hk Ho _ _] [Hle Hs]. split; [lia|]. intros ->.
  destruct Hs as [H|H]; [lia|apply Hk; [lia|done]|apply Ho; [lia|done]].
Qed.

Lemma moved_installing t rf rf' :
  moved rf rf' → t ≤ rf.(currentTerm) → installing t rf → installing t rf'.
Proof.
  intros [Ht _ _ Hc Hl] Hle Hi Heq. destruct Hi as [H1 H2]; [lia|]. split.
  - intros H. apply H1, Hc; [lia|done].
  - intros H. destruct Hl as [?|[? ?]]; [lia|done|done|]. auto.
Qed.

Section steps.
Context `{!RaftCodec}.

Lemma acked_mono g s i T m : acked g i T m → acked (observe g s) i T m.
Proof.
  intros Hm j x Hx. destruct (Hm j x Hx) as [?|(? & ? & ?)]; [by left|right].
  split_and!; [done|by left..].
Qed.

Lemma books_mono g s i rf : books g i rf → books (observe g s) i rf.
Proof.
  intros [H1 H2 H3]. split; [done..|]. intros Hs. destruct (H3 Hs) as (T & ? & ? & ?).
  exists T. split_and!; [done..|by apply acked_mono].
Qed.

Lemma own_end_mono g s args : own_end g args → own_end (observe g s) args.
Proof. intros [?|(l & e & ? & ?)]; [by left|right]. exists l, e. split; [by left|done]. Qed.

(** What the peer holds of its own term is acknowledged. *)
Lemma ack_now g s j rf p e :
  s.(cl).(nodes) !! j = Some rf → 0 < p → zget rf.(log) p = Some e →
  e.(Log.Term) = rf.(currentTerm) → (observe g s).(ack) j rf.(currentTerm) p.
Proof. intros. right. by exists rf, e. Qed.

Lemma prefix_get {A} (l k : list A) p x : l `prefix_of` k → zget l p = Some x → zget k p = Some x.
Proof. intros [m ->] Hx. pose proof (zget_Some_range _ _ _ Hx). by rewrite zget_app_l by lia. Qed.

(** Two logs of leaders of a term agree where both are defined. *)
Lemma leads_agree n g s T l k p e d :
  lay1 n g s → g.(leads) T l → g.(leads) T k → zget l p = Some e → zget k p = Some d → e = d.
Proof.
  intros H1 Hl Hk He Hd. destruct (l1_chain _ _ _ H1 T l k Hl Hk) as [Hp|Hp].
  - pose proof (prefix_get _ _ _ _ Hp He). congruence.
  - pose proof (prefix_get _ _ _ _ Hp Hd). congruence.
Qed.

(** An entry of term [T] in a log of the history: the log is a log of the leader up
    to it. *)
Lemma own_prefix n g s l L p e d T :
  lay1 n g s → g.(hist) l → g.(leads) T L → 0 < p → zget l p = Some e → e.(Log.Term) = T →
  zget L p = Some d → ∀ q, q ≤ p → zget l q = zget L q.
Proof.
  intros H1 Hl HL Hp He Ht Hd q Hq.
  destruct (l1_own _ _ _ H1 l p e Hl Hp He) as (L' & HL' & He'). rewrite Ht in HL'.
  pose proof (leads_agree _ _ _ _ _ _ _ _ _ H1 HL HL' Hd He') as ->.
  eapply log_match_get; [|exact He|exact Hd|done|done].
  apply (l1_match _ _ _ H1); [done|]. by apply (l1_leads _ _ _ H1 T).
Qed.

Lemma lay2_step n g s s' i0 :
  lay1 n g s → lay1 n (observe g s') s' → lay2 n g s → others i0 s s' →
  (∀ rf, s.(cl).(nodes) !! i0 = Some rf →
     ∃ rf', s'.(cl).(nodes) !! i0 = Some rf' ∧ moved rf rf' ∧ books (observe g s') i0 rf') →
  (∀ id f, s'.(flights) !! id = Some f → flight_books (observe g s') s' f) →
  lay2 n (observe g s') s'.
Proof.
  intros H1 H1' H2 Hoth Hi0 Hfl.
  assert (∀ i rf, s.(cl).(nodes) !! i = Some rf →
    ∃ rf', s'.(cl).(nodes) !! i = Some rf' ∧ moved rf rf' ∧ books (observe g s') i rf') as Hnode.
  { intros i rf Hi. destruct (decide (i = i0)) as [->|Hne]; [by apply Hi0|].
    exists rf. rewrite Hoth by done. split_and!; [done|apply moved_refl|].
    by eapply books_mono, (l2_node _ _ _ H2). }
  assert (∀ i rf', s'.(cl).(nodes) !! i = Some rf' → ∃ rf, s.(cl).(nodes) !! i = Some rf) as Hback.
  { intros i rf' Hi. apply lookup_lt_is_Some_2. apply lookup_lt_Some in Hi.
    by rewrite (i_len _ _ (l1_inv _ _ _ H1)), <- (i_len _ _ (l1_inv _ _ _ H1')). }
  split; [|intros i rf' Hi|by intros i rf' p e Hi Hp He Ht; eapply ack_now|done].
  - intros j T p [Hack|(rf & e & Hj & -> & Hp & He & Het)].
    + destruct (l2_ack _ _ _ H2 j T p Hack) as ((rf & Hj & HT) & Hp & L & e & HL & He & Het & Hq).
      destruct (Hnode j rf Hj) as (rf' & Hj' & [] & _). split; [exists rf'; split; [done|lia]|].
      split; [done|]. exists L, e. split_and!; [by left|done..|]. intros q d Hqp Hd Hdt. left. by eapply Hq.
    + split; [by exists rf|]. split; [done|]. destruct (l1_node _ _ _ H1' j rf Hj) as (Hh & _ & _).
      destruct (l1_own _ _ _ H1' _ p e Hh Hp He) as (L & HL & HLe). rewrite Het in HL.
      exists L, e. split_and!; [done..|]. intros q d Hqp Hd Hdt.
      apply (ack_now g s' j rf q d); [done|lia| |done].
      by rewrite (own_prefix _ _ _ _ _ _ _ _ _ H1' Hh HL Hp He Het HLe) by lia.
  - destruct (Hback i rf' Hi) as [rf Hrf]. destruct (Hnode i rf Hrf) as (rf1 & Hrf1 & _ & Hb). by simplify_eq.
Qed.
Lemma flight_books_keep g s s' f :
  (∀ i rf', s'.(cl).(nodes) !! i = Some rf' →
     ∃ rf, s.(cl).(nodes) !! i = Some rf ∧ moved rf rf') →
  flight_books g s f → flight_books (observe g s') s' f.
Proof.
  intros Hnode [Ht Hst]. split.
  { intros rf' Hi. destruct (Hnode _ _ Hi) as (rf & Hrf & []). specialize (Ht rf Hrf). lia. }
  assert ((∀ rf, nodes (cl s) !! f_leader f = Some rf → installing (f_term f) rf) →
    ∀ rf, nodes (cl s') !! f_leader f = Some rf → installing (f_term f) rf) as Hinst.
  { intros Hin rf' Hi. destruct (Hnode _ _ Hi) as (rf & Hrf & Hm).
    eapply moved_installing; [done|by apply Ht|by apply Hin]. }
  assert (∀ T, (∀ rf, nodes (cl s) !! f_leader f = Some rf → led T rf) →
    ∀ rf, nodes (cl s') !! f_leader f = Some rf → led T rf) as Hled.
  { intros T Hl rf' Hi. destruct (Hnode _ _ Hi) as (rf & Hrf & Hm).
    eapply moved_led; [done|by apply Hl]. }
  destruct (f_state f); try by auto.
  - destruct Hst as (? & ? & ?). split_and!; [done|by apply Hled|by apply own_end_mono].
  - destruct Hst as (? & ? & Hack). split_and!; [done|by apply Hled|].
    intros Hok Hs. destruct (Hack Hok Hs) as [?|[? ?]]; [by left|right]. split; [done|by left].
Qed.

(** The peers of the states before and after a step that changes one. *)
Lemma back_moved n g s s' i0 :
  lay1 n g s → lay1 n (observe g s') s' → others i0 s s' →
  (∀ rf, s.(cl).(nodes) !! i0 = Some rf → ∃ rf', s'.(cl).(nodes) !! i0 = Some rf' ∧ moved rf rf') →
  ∀ i rf', s'.(cl).(nodes) !! i = Some rf' → ∃ rf, s.(cl).(nodes) !! i = Some rf ∧ moved rf rf'.
Proof.
  intros H1 H1' Hoth Hi0 i rf' Hi.
  destruct (lookup_lt_is_Some_2 s.(cl).(nodes) i) as [rf Hrf].
  { apply lookup_lt_Some in Hi. by rewrite (i_len _ _ (l1_inv _ _ _ H1)), <- (i_len _ _ (l1_inv _ _ _ H1')). }
  exists rf. split; [done|]. destruct (decide (i = i0)) as [->|Hne].
  - destruct (Hi0 rf Hrf) as (rf1 & Hrf1 & Hm). by simplify_eq.
  - rewrite Hoth in Hi by done. simplify_eq. apply moved_refl.
Qed.

(** A step in which one peer changes, and one flight at most. *)
Lemma lay2_one n g s s' i rf rf' :
  lay1 n g s → lay1 n (observe g s') s' → lay2 n g s →
  s.(cl).(nodes) !! i = Some rf → s'.(cl).(nodes) = <[i := rf']> s.(cl).(nodes) →
  moved rf rf' → books (observe g s') i rf' →
  (∀ id f, s'.(flights) !! id = Some f → s.(flights) !! id = Some f ∨ flight_books (observe g s') s' f) →
  lay2 n (observe g s') s'.
Proof.
  intros H1 H1' H2 Hi Heq Hm Hb Hfl.
  assert (others i s s') as Hoth.
  { intros k Hk. rewrite Heq. by rewrite list_lookup_insert_ne by done. }
  assert (s'.(cl).(nodes) !! i = Some rf') as Hi'.
  { rewrite Heq. apply list_lookup_insert_eq. by eapply lookup_lt_Some. }
  apply lay2_step with s i; [done..| |].
  - intros rf0 Hrf0. simplify_eq. by exists rf'.
  - intros id f Hf. destruct (Hfl id f Hf) as [Hold|?]; [|done].
    eapply flight_books_keep; [|by apply (l2_flight _ _ _ H2 id)].
    eapply back_moved; [done..|]. intros rf0 Hrf0. simplify_eq. by exists rf'.
Qed.

Lemma lay2_none n g s s' :
  lay1 n g s → lay1 n (observe g s') s' → lay2 n g s →
  s'.(cl).(nodes) = s.(cl).(nodes) →
  (∀ id f, s'.(flights) !! id = Some f → s.(flights) !! id = Some f ∨ flight_books (observe g s') s' f) →
  lay2 n (observe g s') s'.
Proof.
  intros H1 H1' H2 Heq Hfl.
  assert (others 0%nat s s') as Hoth by by intros k _; rewrite Heq.
  assert (∀ rf, s.(cl).(nodes) !! 0%nat = Some rf →
    ∃ rf', s'.(cl).(nodes) !! 0%nat = Some rf' ∧ moved rf rf') as Hm.
  { intros rf Hrf. exists rf. rewrite Heq. split; [done|apply moved_refl]. }
  apply lay2_step with s 0%nat; [done..| |].
  - intros rf Hrf. exists rf. rewrite Heq. split_and!; [done|apply moved_refl|].
    by eapply books_mono, (l2_node _ _ _ H2).
  - intros id f Hf. destruct (Hfl id f Hf) as [Hold|?]; [|done].
    eapply flight_books_keep; [|by apply (l2_flight _ _ _ H2 id)]. by eapply back_moved.
Qed.

(** *** The peer's books after its steps *)

Lemma books_still g i rf rf' : still rf rf' → books g i rf → books g i rf'.
Proof.
  intros [[Hl _ _ Ht _ Hlead] _ Hn Hm Hs _ _] [B1 B2 B3]. split.
  - intros Htp Hsa. destruct (Hlead Htp) as [? _]. rewrite Hm, Hn, Hl. apply B1; congruence.
  - intros Htp Hsa. destruct (Hlead Htp) as [? ->]. rewrite Hl. apply B2; congruence.
  - intros Hsa. rewrite Hm. destruct B3 as (T & ? & HT & ?); [congruence|]. exists T.
    split_and!; [lia| |done]. intros Htp. destruct (Hlead Htp) as [? ->]. auto.
Qed.

Lemma books_win g i rf : books g i (becomeLeader rf).
Proof.
  split; [|done|done]. intros _ _. cbn. split; apply Forall_fmap, Forall_true; by intros.
Qed.

Lemma books_start n g s s' i cmd rf rf' res :
  lay1 n g s → lay2 n g s → s.(cl).(nodes) !! i = Some rf → s'.(cl).(nodes) !! i = Some rf' →
  rf.(dead) = false → rf.(tp) = 2 → Start cmd rf = Some (rf', res) → books (observe g s') i rf'.
Proof.
  intros H1 H2 Hi Hi' Hd Htp Heq.
  destruct (Start_log _ _ _ _ Hd Htp Heq) as (Hlog & _ & _ & Ht & Htp' & _ & Hsa & _ & _ & Hm).
  destruct (l1_snap _ _ _ H1 i rf Hi) as [Hs _]. rewrite Hs, Z.add_0_r in Hm.
  destruct (i_node _ _ (l1_inv _ _ _ H1) i rf Hi) as (Hme & _ & Hrec).
  pose proof (wf_log_len _ (rec_wf _ Hrec)) as Hlen.
  assert (zget rf'.(log) (zlen rf.(log)) = Some (Log.mk cmd rf.(currentTerm))) as Hget.
  { rewrite Hlog. apply zget_last. }
  split; [congruence| |].
  - intros _ _. exists (Log.mk cmd rf.(currentTerm)). rewrite <- Hget, Hlog. split; [|by rewrite Ht].
    f_equal. zlen_lia.
  - intros _. exists rf.(currentTerm). rewrite Ht. split_and!; [lia|done|].
    assert (acked (observe g s') i rf.(currentTerm) rf.(matchIndex)) as Hold.
    { apply acked_mono. destruct (l2_node _ _ _ H2 i rf Hi) as [B1 _ B3].
      destruct (startAppend rf) eqn:Hsa0.
      - destruct (B3 eq_refl) as (T & _ & HT & Ha). by rewrite <- HT.
      - destruct (B1 Htp eq_refl) as [Hz _]. intros j x Hx. left. by eapply (Forall_lookup_1 _ _ _ _ Hz). }
    apply zset_Some in Hm as [Hr ->]. rewrite Hme, Nat2Z.id in *. intros j x Hx.
    apply list_lookup_insert_Some in Hx as [(<- & <- & _)|[_ Hx]]; [right|by apply Hold].
    assert ((observe g s').(ack) i rf.(currentTerm) (zlen rf.(log))).
    { rewrite <- Ht. eapply ack_now; [exact Hi'|lia|exact Hget|done]. }
    split_and!; [lia|done..].
Qed.
(** A message of a term is not for the leader of the term. *)
Lemma append_not_leader n g s id f k args rf :
  lay1 n g s → s.(flights) !! id = Some f → f.(f_state) = FAppendSent k args →
  s.(cl).(nodes) !! f.(f_server) = Some rf → rf.(currentTerm) = args.(RequestAppendArgs.Term) →
  rf.(tp) ≠ 2.
Proof.
  intros H1 Hf Hst Hi Ht Htp. pose proof (l1_flights _ _ _ H1 id f Hf) as [Hne Hok]. rewrite Hst in Hok.
  destruct Hok as [He _]. pose proof (leader_elected n _ _ _ (l1_inv _ _ _ H1) Hi Htp) as He'.
  rewrite Ht in He'. apply Hne. symmetry. eapply elected_unique; [apply H1|done..].
Qed.

Lemma append_moved n g s s' id f k args r rf rf' reply :
  lay1 n g s → lay2 n g s → s.(flights) !! id = Some f → f.(f_state) = FAppendSent k args →
  s.(cl).(nodes) !! f.(f_server) = Some rf → AppendEntries r args rf = Some (rf', reply) →
  moved rf rf' ∧ books (observe g s') f.(f_server) rf'.
Proof.
  intros H1 H2 Hf Hst Hi Heq.
  destruct (Z.lt_ge_cases args.(RequestAppendArgs.Term) rf.(currentTerm)) as [Hold|Hnew].
  { rewrite (AppendEntries_old _ _ _ _ _ Heq Hold). split; [apply moved_refl|].
    by eapply books_mono, (l2_node _ _ _ H2). }
  destruct (AppendEntries_role _ _ _ _ _ Heq Hnew) as (_ & _ & Ht & Hc & Hlead).
  destruct (AppendEntries_books _ _ _ _ _ Heq) as (_ & Hm & Hs & _).
  assert (rf.(currentTerm) = args.(RequestAppendArgs.Term) → rf.(tp) ≠ 2) as Hno
    by by eapply append_not_leader.
  assert (rf'.(tp) ≠ 2) as Hno'.
  { intros Htp. destruct (Hlead Htp) as [? E]. apply Hno; [congruence|done]. }
  split; split; try done; try lia.
  - intros _ Hoff. right. congruence.
  - intros Hsa. rewrite Hm. destruct (l2_node _ _ _ H2 _ rf Hi) as [_ _ B3].
    destruct B3 as (T & ? & _ & Ha); [congruence|]. exists T.
    split_and!; [lia|done|by apply acked_mono].
Qed.

Lemma books_commits g i rf rf' : commits rf rf' → books g i rf → books g i rf'.
Proof. intros Hc%commits_frame [B1 B2 B3]. rewrite Hc. by split. Qed.

Lemma moved_commits rf rf' : commits rf rf' → moved rf rf'.
Proof. intros Hc%commits_frame. rewrite Hc. split; cbn; auto; lia. Qed.

Lemma moved_trans rf1 rf2 rf3 : moved rf1 rf2 → moved rf2 rf3 → moved rf1 rf3.
Proof.
  intros [T1 K1 O1 C1 L1] [T2 K2 O2 C2 L2].
  assert (currentTerm rf3 = currentTerm rf1 →
    currentTerm rf2 = currentTerm rf1 ∧ currentTerm rf3 = currentTerm rf2) as Hsame by lia.
  split; [lia|..]; intros E; destruct (Hsame E) as [E1 E2]; intros Hx.
  - destruct (K1 E1 Hx); auto.
  - destruct (O1 E1 Hx); auto.
  - auto.
  - destruct (L2 E2 Hx) as [?|[Htp Hs]]; [left; auto|].
    destruct (L1 E1 Htp) as [?|[? ?]]; [by left|right]. auto.
Qed.

(** An acknowledged entry of the term of a leader is in its log. *)
Lemma ack_in_leader n g s i rf j p :
  lay1 n g s → lay2 n g s → s.(cl).(nodes) !! i = Some rf → rf.(tp) = 2 →
  g.(ack) j rf.(currentTerm) p →
  ∃ e, zget rf.(log) p = Some e ∧ e.(Log.Term) = rf.(currentTerm).
Proof.
  intros H1 H2 Hi Htp Hack. destruct (l2_ack _ _ _ H2 _ _ _ Hack) as (_ & Hp & L & e & HL & He & Het & _).
  exists e. split; [|done]. eapply lay1_own_leader; [done..| | | |done]; [|exact Hp|exact He].
  by apply (l1_leads _ _ _ H1 rf.(currentTerm)).
Qed.

(** The leader handles an answer to [AppendEntries]. *)
Lemma answer_books n g s id f k ok args reply rf rf0 :
  lay1 n g s → lay2 n g s → s.(flights) !! id = Some f → f.(f_state) = FAppendReplied k ok args reply →
  s.(cl).(nodes) !! f.(f_leader) = Some rf → rf.(startAppend) = true →
  answer (Z.of_nat f.(f_server)) f.(f_term) args ok reply rf rf0 →
  moved rf rf0 ∧ books g f.(f_leader) rf0.
Proof.
  intros H1 H2 Hf Hst Hi Hsa Ha. pose proof (l2_flight _ _ _ H2 id f Hf) as [Hft Hfl]. rewrite Hst in Hfl.
  destruct Hfl as (Hle & Hled & Hack). specialize (Hft rf Hi). specialize (Hled rf Hi).
  pose proof (l2_node _ _ _ H2 _ rf Hi) as Hb.
  destruct Ha as [rf0 Hstill|next Hn|m next Ht Hok Hsucc Hne Hn Hm].
  - split; [by apply still_moved|by eapply books_still].
  - split; [split; cbn; auto; lia|]. destruct Hb as [B1 B2 B3]. split; cbn; [congruence|done..].
  - split; [split; cbn; auto; lia|]. destruct Hb as [B1 B2 B3]. split; cbn; [congruence|done|].
    intros _. destruct Hled as [Hled1 Hled2].
    assert (rf.(tp) = 2) as Htp by (destruct Hled2; [lia|done|congruence]).
    destruct (B3 Hsa) as (T & HT & HTeq & Hold). exists T. split_and!; [done..|].
    destruct Hm as [->|Hm]; [done|]. apply zset_Some in Hm as [_ ->].
    rewrite Nat2Z.id. intros j x Hx.
    apply list_lookup_insert_Some in Hx as [(<- & <- & _)|[_ Hx]]; [right|by apply Hold].
    destruct (Hack Hok Hsucc) as [?|[? Hk]]; [done|].
    replace args.(RequestAppendArgs.Term) with rf.(currentTerm) in Hk by lia. rewrite (HTeq Htp).
    destruct (ack_in_leader n g s _ rf _ _ H1 H2 Hi Htp Hk) as (e & He & Het).
    split_and!; [done|done|]. by eapply (l2_now _ _ _ H2).
Qed.

Lemma appendReply_books n g s id f k ok args reply r rf rf' :
  lay1 n g s → lay2 n g s → s.(flights) !! id = Some f → f.(f_state) = FAppendReplied k ok args reply →
  s.(cl).(nodes) !! f.(f_leader) = Some rf →
  appendReply r (Z.of_nat f.(f_server)) f.(f_term) ok args reply rf = Some rf' →
  moved rf rf' ∧ books g f.(f_leader) rf'.
Proof.
  intros H1 H2 Hf Hst Hi Heq. destruct (l1_snap _ _ _ H1 _ rf Hi) as [Hs _].
  destruct (appendReply_answer _ _ _ _ _ _ _ _ Hs Heq) as [[_ ->]|(Hsa & rf0 & Ha & Hc)].
  { split; [apply moved_refl|by eapply (l2_node _ _ _ H2)]. }
  destruct (answer_books _ _ _ _ _ _ _ _ _ _ _ H1 H2 Hf Hst Hi Hsa Ha) as [Hm Hb].
  split; [|by eapply books_commits]. eapply moved_trans; [done|by apply moved_commits].
Qed.

Lemma installReply_books n g s id f k ok reply r rf rf' :
  lay2 n g s → s.(flights) !! id = Some f → f.(f_state) = FInstallReplied k ok reply →
  s.(cl).(nodes) !! f.(f_leader) = Some rf →
  installReply r (Z.of_nat f.(f_server)) f.(f_term) ok reply rf = Some rf' →
  moved rf rf' ∧ books g f.(f_leader) rf'.
Proof.
  intros H2 Hf Hst Hi Heq. pose proof (l2_flight _ _ _ H2 id f Hf) as [Hft Hfl]. rewrite Hst in Hfl.
  pose proof (l2_node _ _ _ H2 _ rf Hi) as Hb. specialize (Hft rf Hi).
  destruct (installReply_calm _ _ _ _ _ _ _ Heq) as [Hstill|(Ht & next & _ & ->)].
  - split; [by apply still_moved|by eapply books_still].
  - split; [split; cbn; auto; lia|]. destruct Hb as [B1 B2 B3]. split; cbn; [|done..].
    intros Htp Hsa. destruct (Hfl rf Hi ltac:(lia)) as [_ Hon]. specialize (Hon Htp). congruence.
Qed.
(** *** Flights *)

(** What a leader sends ends with an entry of its term, or is empty. *)
Lemma appendArgs_own_end n g s s' i rf server args :
  lay1 n g s → lay2 n g s → s.(cl).(nodes) !! i = Some rf →
  appendArgs server rf = Some (Some args) → own_end (observe g s') args.
Proof.
  intros H1 H2 Hi Heq. destruct (i_node _ _ (l1_inv _ _ _ H1) i rf Hi) as (_ & _ & Hrec).
  destruct (l1_snap _ _ _ H1 i rf Hi) as [Hs Hst].
  destruct (appendArgs_from _ _ _ (rec_wf _ Hrec) Hs Hst Heq) as (Htp & Ht & Hfr & _ & Hnext).
  destruct (l2_node _ _ _ H2 i rf Hi) as [B1 B2 _].
  destruct (startAppend rf) eqn:Hsa; [right|left].
  - destruct (B2 Htp eq_refl) as (e & He & Het). exists rf.(log), e.
    rewrite (from_last _ _ Hfr), Ht. split_and!; try done.
    left. by apply (l1_node _ _ _ H1 i rf Hi).
  - destruct (B1 Htp eq_refl) as [_ Hn]. apply list_elem_of_zget in Hnext.
    rewrite Forall_forall in Hn. apply Hn in Hnext. rewrite (fr_entries _ _ Hfr), Hnext.
    apply drop_ge. unfold zlen. lia.
Qed.

(** The follower's answer: what it accepted of the leader's term it holds. *)
Lemma append_ack n g s s' id f k args r rf rf' reply :
  lay1 n g s → lay2 n g s → s.(flights) !! id = Some f → f.(f_state) = FAppendSent k args →
  s.(cl).(nodes) !! f.(f_server) = Some rf → AppendEntries r args rf = Some (rf', reply) →
  s'.(cl).(nodes) !! f.(f_server) = Some rf' → reply.(RequestAppendReply.Success) = true →
  args.(RequestAppendArgs.Entries) = [] ∨
  0 < lastOf args ∧ (observe g s').(ack) f.(f_server) args.(RequestAppendArgs.Term) (lastOf args).
Proof.
  intros H1 H2 Hf Hst Hi Heq Hi' Hsucc.
  destruct (Z.lt_ge_cases args.(RequestAppendArgs.Term) rf.(currentTerm)) as [Hold|Hnew].
  { pose proof (AppendEntries_old_reply _ _ _ _ _ Heq Hold). congruence. }
  pose proof (l2_flight _ _ _ H2 id f Hf) as [_ Hfl]. rewrite Hst in Hfl.
  destruct Hfl as (_ & _ & [?|(l & e & Hl & Hfr & He & Het)]); [by left|].
  destruct (list_eq_dec args.(RequestAppendArgs.Entries) []) as [?|Hne]; [by left|right].
  destruct (i_node _ _ (l1_inv _ _ _ H1) _ rf Hi) as (_ & _ & Hrec).
  destruct (l1_snap _ _ _ H1 _ rf Hi) as [Hs _].
  destruct (l1_node _ _ _ H1 _ rf Hi) as (Hh & _ & _).
  destruct (l1_leads _ _ _ H1 _ _ Hl) as (Hhl & _ & _).
  pose proof (AppendEntries_from _ l _ _ _ _ (rec_wf _ Hrec) Hs
    (proj1 (l1_form _ _ _ H1 l Hhl)) (l1_match _ _ _ H1 _ _ Hh Hhl) Hfr Heq Hnew) as Hres.
  rewrite Hsucc in Hres. destruct Hres as [Hlog _].
  destruct (AppendEntries_role _ _ _ _ _ Heq Hnew) as (_ & _ & Ht & _).
  assert (0 < lastOf args) as Hpos.
  { unfold lastOf. pose proof (fr_prev _ _ Hfr). destruct (RequestAppendArgs.Entries args); [done|]. zlen_lia. }
  split; [done|]. rewrite <- Ht.
  assert (∃ d, zget rf'.(log) (lastOf args) = Some d ∧ d.(Log.Term) = rf'.(currentTerm)) as (d & Hd & Hdt).
  { destruct Hlog as [->|[-> [[? _]|[Hhave _]]]]; [exists e; by rewrite Ht|done|].
    apply fmap_Some in Hhave as (d & Hd & Hdt). exists d. split; [done|congruence]. }
  by eapply ack_now.
Qed.

(** A step of [RaftCluster]. *)
Lemma lay2_base n g late s s' a :
  lay1 n g s → lay1 n (observe g s') s' → lay2 n g s →
  nact late true (NBase a) s = Some s' → lay2 n (observe g s') s'.
Proof.
  intros H1 H1' H2 Hn. cbn [nact] in Hn.
  destruct (base a) eqn:Hb; [|done]. apply bind_Some in Hn as (c & Hc & [= <-]).
  assert (∀ id f, (set_cl c s).(flights) !! id = Some f → s.(flights) !! id = Some f ∨
    flight_books (observe g (set_cl c s)) (set_cl c s) f) as Hfl by (intros id f Hf; by left).
  destruct (act_change n a _ _ (l1_inv _ _ _ H1) Hb Hc)
    as [Heq|(i & rf & rf' & Hi & Heq & Hch)]; [by eapply lay2_none|].
  assert ((set_cl c s).(cl).(nodes) !! i = Some rf') as Hi'.
  { cbn. rewrite Heq. apply list_lookup_insert_eq. by eapply lookup_lt_Some. }
  eapply lay2_one; [done..| | |done]; destruct Hch as [rf' Hst|rf' Hcr|cmd rf' res Hd Htp Hstart|Htp _].
  - by apply still_moved.
  - destruct Hcr as [[_ _ _ Ht _ _] Htp Hs _ _]. split; auto; intros; congruence.
  - destruct (Start_log _ _ _ _ Hd Htp Hstart) as (_ & _ & _ & Ht & Htp' & _ & Hs & _).
    split; auto; [lia|intros; congruence].
  - split; cbn; auto; lia.
  - eapply books_still; [done|]. by eapply books_mono, (l2_node _ _ _ H2).
  - destruct Hcr as [_ Htp Hs _ _]. split; congruence.
  - by eapply books_start.
  - apply books_win.
Qed.

(** A round starts. *)
Lemma lay2_top n g late s s' i server t id :
  lay1 n g s → lay1 n (observe g s') s' → lay2 n g s →
  nact late true (NTop i server t id) s = Some s' → lay2 n (observe g s') s'.
Proof.
  intros H1 H1' H2 Hn. cbn [nact] in Hn.
  apply bind_Some in Hn as (rf & Hi & Hn). case_bool_decide as Hg; [|done].
  destruct Hg as (Hne & Hlt & Ht & Hnone).
  apply bind_Some in Hn as ([rf1 rd] & Htop & Hn).
  assert (∀ st, (st = FAppend ∨ st = FInstall ∧ rf.(tp) = 2 ∧ rf.(startAppend) = true) →
    lay1 n (observe g (set_flight id (mkFlight i server t st) s)) (set_flight id (mkFlight i server t st) s) →
    lay2 n (observe g (set_flight id (mkFlight i server t st) s)) (set_flight id (mkFlight i server t st) s)) as Hnew.
  { intros st Hst H1''. eapply lay2_none; [done..|]. intros id' f'. cbn.
    intros [[<- <-]|[_ ?]]%lookup_insert_Some; [right|by left]. split; cbn.
    - intros rf0 Hrf0. by simplify_eq.
    - destruct Hst as [->|(-> & Htp & Hsa)]; [done|]. intros rf0 Hrf0. simplify_eq.
      intros _. split; [congruence|done]. }
  destruct rd; simplify_eq; apply Hnew; try done; [right|by left]. split; [done|].
  unfold Append2_top in Htop. destruct (killed rf); [done|].
  destruct (Z.eqb_spec (tp rf) 2) as [Htp|]; [|done]. split; [done|].
  apply bind_Some in Htop as (next & Hnext & Htop). destruct (Z.leb_spec next 0); [|done].
  destruct (startAppend rf) eqn:Hsa; [done|]. exfalso.
  destruct (bk_fresh _ _ _ (l2_node _ _ _ H2 i rf Hi) Htp Hsa) as [_ Hf].
  apply list_elem_of_zget in Hnext. rewrite Forall_forall in Hf. apply Hf in Hnext.
  destruct (i_node _ _ (l1_inv _ _ _ H1) i rf Hi) as (_ & _ & Hrec).
  pose proof (wf_log_len _ (rec_wf _ Hrec)). lia.
Qed.

(** A call is built. *)
Lemma lay2_args n g late s s' id :
  lay1 n g s → lay1 n (observe g s') s' → lay2 n g s →
  nact late true (NArgs id) s = Some s' → lay2 n (observe g s') s'.
Proof.
  intros H1 H1' H2 Hn. cbn [nact] in Hn.
  apply bind_Some in Hn as (f & Hf & Hn). apply bind_Some in Hn as (rf & Hi & Hn).
  pose proof (l2_flight _ _ _ H2 id f Hf) as [Hft Hfl].
  destruct (i_node _ _ (l1_inv _ _ _ H1) _ _ Hi) as (_ & _ & Hrec).
  destruct (l1_snap _ _ _ H1 _ _ Hi) as [Hs Hst].
  destruct (f_state f) eqn:Hstate; try done; [apply bind_Some in Hn as (a & Ha & Hn)|]; simplify_eq;
    (eapply lay2_none; [done..|]); intros id' f'; cbn;
    intros [[<- <-]|[_ ?]]%lookup_insert_Some; [right|by left|right|by left]; (split; [exact Hft|]); cbn.
  - destruct a as [args|]; [|done].
    destruct (appendArgs_from _ _ _ (rec_wf _ Hrec) Hs Hst Ha) as (Htp & Ht & _). rewrite Ht.
    split_and!; [by apply Hft| |by eapply appendArgs_own_end].
    intros rf0 Hrf0. simplify_eq. split; [lia|]. intros _. by left.
  - exact Hfl.
Qed.

(** The follower handles a call. *)
Lemma lay2_serve n g late s s' r id :
  lay1 n g s → lay1 n (observe g s') s' → lay2 n g s →
  nact late true (NServe r id) s = Some s' → lay2 n (observe g s') s'.
Proof.
  intros H1 H1' H2 Hn. cbn [nact] in Hn.
  apply bind_Some in Hn as (f & Hf & Hn). apply bind_Some in Hn as (rf & Hi & Hn).
  pose proof (l2_flight _ _ _ H2 id f Hf) as [Hft Hfl].
  pose proof (l1_flights _ _ _ H1 id f Hf) as [Hne Hok].
  destruct (f_state f) as [| |k args|k args| | |] eqn:Hst; try done;
    apply bind_Some in Hn as ([rf' reply] & Heq & [= <-]).
  - destruct (append_moved n g s
      (set_flight id (f <| f_state := FAppendReplied k true args reply |>)
                (set_cl (set_node f.(f_server) rf' s.(cl)) s)) id f k args r rf rf' reply)
      as [Hm Hb]; [done..|].
    pose proof (append_ack n g s _ id f k args r rf rf' reply H1 H2 Hf Hst Hi Heq
      (list_lookup_insert_eq _ _ rf' (lookup_lt_Some _ _ _ Hi) :
        (set_flight id (f <| f_state := FAppendReplied k true args reply |>)
           (set_cl (set_node f.(f_server) rf' s.(cl)) s)).(cl).(nodes) !! f.(f_server) = Some rf')) as Hack.
    eapply lay2_one; [done..|]. intros id' f'. cbn.
    intros [[<- <-]|[_ ?]]%lookup_insert_Some; [right|by left].
    destruct Hfl as (Hle & Hled & _). split; cbn.
    + rewrite list_lookup_insert_ne by done. exact Hft.
    + rewrite list_lookup_insert_ne by done. split_and!; [done..|]. intros _ Hsucc.
      exact (Hack Hsucc).
  - destruct Hok as [_ Hz]. destruct (l1_snap _ _ _ H1 _ _ Hi) as [Hs _].
    assert (still rf rf') as Hstill by (eapply InstallSnapshot_still; [|exact Heq]; lia).
    eapply lay2_one; [done..|by apply still_moved| |].
    { eapply books_still; [done|]. by eapply books_mono, (l2_node _ _ _ H2). }
    intros id' f'. cbn. intros [[<- <-]|[_ ?]]%lookup_insert_Some; [right|by left].
    split; cbn; rewrite list_lookup_insert_ne by done; [exact Hft|exact Hfl].
Qed.

(** A call or an answer is lost. *)
Lemma lay2_drop n g late s s' id :
  lay1 n g s → lay1 n (observe g s') s' → lay2 n g s →
  nact late true (NDrop id) s = Some s' → lay2 n (observe g s') s'.
Proof.
  intros H1 H1' H2 Hn. cbn [nact] in Hn.
  apply bind_Some in Hn as (f & Hf & Hn).
  pose proof (l2_flight _ _ _ H2 id f Hf) as [Hft Hfl].
  destruct (f_state f) eqn:Hstate; simplify_eq; (eapply lay2_none; [done..|]); intros id' f'; cbn;
    (intros [[<- <-]|[_ ?]]%lookup_insert_Some; [right|by left]); (split; [exact Hft|]); cbn; try done.
  - by destruct Hfl as (? & ? & _).
  - by destruct Hfl as (? & ? & _).
Qed.

(** The leader handles an answer. *)
Lemma lay2_reply n g late s s' r id :
  lay1 n g s → lay1 n (observe g s') s' → lay2 n g s →
  nact late true (NReply r id) s = Some s' → lay2 n (observe g s') s'.
Proof.
  intros H1 H1' H2 Hn. cbn [nact] in Hn.
  apply bind_Some in Hn as (f & Hf & Hn). apply bind_Some in Hn as (rf & Hi & Hn).
  assert (∀ s1 st, s1.(flights) = <[id := f <| f_state := FDone |>]> s.(flights) →
    (∀ rf0, s1.(cl).(nodes) !! f.(f_leader) = Some rf0 → f.(f_term) ≤ rf0.(currentTerm)) →
    ∀ id' f', s1.(flights) !! id' = Some f' → s.(flights) !! id' = Some f' ∨ flight_books st s1 f') as Hdone.
  { intros s1 st Heq Hle id' f'. rewrite Heq.
    intros [[<- <-]|[_ ?]]%lookup_insert_Some; [right|by left]. split; [exact Hle|done]. }
  pose proof (proj1 (l2_flight _ _ _ H2 id f Hf)) as Hft.
  assert (∀ rf', moved rf rf' → ∀ rf0,
    <[f_leader f:=rf']> (nodes (cl s)) !! f.(f_leader) = Some rf0 → f.(f_term) ≤ rf0.(currentTerm)) as Hafter.
  { intros rf' Hm rf0 Hrf0. rewrite list_lookup_insert_eq in Hrf0 by (by eapply lookup_lt_Some).
    injection Hrf0 as <-. specialize (Hft rf Hi). pose proof (mv_term _ _ Hm). lia. }
  destruct (f_state f) as [| | | |k ok args reply|k ok reply|] eqn:Hst; try done;
    (destruct (_ && _); [|simplify_eq; (eapply lay2_none; [done..|]); by apply Hdone]);
    apply bind_Some in Hn as (rf' & Heq & [= <-]).
  - destruct (appendReply_books _ _ _ _ _ _ _ _ _ _ _ _ H1 H2 Hf Hst Hi Heq) as [Hm Hb].
    eapply lay2_one; [done..|by apply books_mono|]. apply Hdone; [done|by apply Hafter].
  - destruct (installReply_books _ _ _ _ _ _ _ _ _ _ _ H2 Hf Hst Hi Heq) as [Hm Hb].
    eapply lay2_one; [done..|by apply books_mono|]. apply Hdone; [done|by apply Hafter].
Qed.

Lemma lay2_nact n g late a s s' :
  lay1 n g s → lay2 n g s → nact late true a s = Some s' → lay2 n (observe g s') s'.
Proof.
  intros H1 H2 Hn. pose proof (lay1_nact _ _ _ _ _ _ H1 Hn) as H1'.
  destruct a; by eauto using lay2_base, lay2_top, lay2_args, lay2_serve, lay2_drop, lay2_reply.
Qed.
Lemma lay2_init n r s : nstart n r = Some s → lay2 n (observe nothing s) s.
Proof.
  intros Hs.
  assert (∀ i rf, s.(cl).(nodes) !! i = Some rf →
    rf.(log) = [Log0] ∧ rf.(tp) = 0 ∧ rf.(startAppend) = false) as Hnode.
  { intros i rf Hi. destruct (nstart_nodes _ _ _ _ _ Hs Hi) as [Hmake Hlt].
    by destruct (Make_fresh_fields _ _ _ _ Hlt Hmake) as (_ & ? & ? & _ & _ & _ & _ & ? & _). }
  split.
  - intros j T p [[]|(rf & e & Hj & -> & Hp & He & _)]. destruct (Hnode j rf Hj) as (Hl & _).
    rewrite Hl in He. apply zget_Some_range in He. change (zlen [Log0]) with 1 in He. lia.
  - intros i rf Hi. destruct (Hnode i rf Hi) as (_ & Htp & Hsa). split; congruence.
  - intros i rf p e Hi Hp He. destruct (Hnode i rf Hi) as (Hl & _). rewrite Hl in He.
    apply zget_Some_range in He. change (zlen [Log0]) with 1 in He. lia.
  - intros id f Hf. rewrite (nstart_flights _ _ _ Hs) in Hf. by rewrite lookup_empty in Hf.
Qed.

Lemma greach_lay2 P n g s : greach P n g s → lay2 n g s.
Proof.
  intros Hg. assert (lay1 n g s ∧ lay2 n g s) as [_ ?]; [|done].
  induction Hg as [r s Hs|g s late a s' Hg [IH1 IH2] _ Hn]; [split; [by eapply lay1_init|by eapply lay2_init]|].
  split; [by eapply lay1_nact|by eapply lay2_nact].
Qed.

(** *** Commits *)

Lemma answer_commit server t args ok reply rf rf0 :
  answer server t args ok reply rf rf0 → rf0.(commitIndex) = rf.(commitIndex).
Proof. intros [? []| |]; done. Qed.

(** An answer leaves the commit index, or raises it to the median match index. *)
Lemma appendReply_commit r server t ok args reply rf rf' :
  rf.(snapshotIndex) = 0 → appendReply r server t ok args reply rf = Some rf' →
  rf'.(commitIndex) = rf.(commitIndex) ∨
  rf.(commitIndex) < rf'.(commitIndex) ∧ medianMatch rf' = Some rf'.(commitIndex) ∧
    rf'.(startAppend) = true.
Proof.
  intros Hs Heq. destruct (appendReply_answer _ _ _ _ _ _ _ _ Hs Heq) as [[_ ->]|(Hsa & rf0 & Ha & Hc)];
    [by left|].
  rewrite <- (answer_commit _ _ _ _ _ _ _ Ha).
  destruct (commits_median _ _ Hc) as [?|[Hlt Hm]]; [by left|right]. split; [done|].
  pose proof (commits_frame _ _ Hc) as Hf.
  assert (rf0.(startAppend) = true) as Hsa0.
  { destruct Ha as [? []|? ?|]; [congruence|done..]. }
  split; [|by rewrite Hf]. rewrite <- Hm. apply medianMatch_books; by rewrite Hf.
Qed.

(** C12: In runs in which every election is won with the condition of the waiting loop
    of [startElection] (term and role) still true when the mutex is taken (the
    argument [fresh] is true; the code does not look again, and then two leaders of a
    term are possible, [RaftCluster.stale_guard_two_leaders]): when an answer makes a
    leader raise its commit index, the entry there is of the leader's own term, so
    counting replicas never commits an entry of an older term by itself. The log is
    not compacted by a key/value server, and a call is handled at most once. *)
Theorem commits_own_term late n s r id s' i rf rf' :
  nreachable late true n s → nact late true (NReply r id) s = Some s' →
  s.(cl).(nodes) !! i = Some rf → s'.(cl).(nodes) !! i = Some rf' →
  rf.(commitIndex) < rf'.(commitIndex) → rf'.(tp) = 2 →
  ∃ e, zget rf'.(log) rf'.(commitIndex) = Some e ∧ e.(Log.Term) = rf'.(currentTerm).
Proof.
  intros [g Hg]%nreachable_greach Hn Hi Hi' Hlt Htp.
  pose proof (greach_lay1 _ _ _ _ Hg) as H1. pose proof (greach_lay2 _ _ _ _ Hg) as H2.
  pose proof (lay1_nact _ _ _ _ _ _ H1 Hn) as H1'. pose proof (lay2_nact _ _ _ _ _ _ H1 H2 Hn) as H2'.
  assert (medianMatch rf' = Some rf'.(commitIndex) ∧ rf'.(startAppend) = true) as [Hm Hsa].
  { destruct (l1_snap _ _ _ H1 i rf Hi) as [Hs _]. clear H1' H2'. cbn [nact] in Hn.
    apply bind_Some in Hn as (f & Hf & Hn). apply bind_Some in Hn as (rf0 & Hrf0 & Hn).
    assert (∀ rf1, <[f.(f_leader) := rf1]> s.(cl).(nodes) !! i = Some rf' → rf = rf0 ∧ rf' = rf1) as Hsame.
    { intros rf1 Hrf1. destruct (decide (i = f.(f_leader))) as [->|Hne].
      - rewrite list_lookup_insert_eq in Hrf1 by (by eapply lookup_lt_Some). split; congruence.
      - rewrite list_lookup_insert_ne in Hrf1 by done. simplify_eq. lia. }
    destruct (f_state f) as [| | | |k ok args reply|k ok reply|]; try done;
      (destruct (_ && _); [|simplify_eq; cbn in Hi'; simplify_eq; lia]);
      apply bind_Some in Hn as (rf1 & Heq & [= <-]); destruct (Hsame rf1 Hi') as [-> ->].
    - destruct (appendReply_commit _ _ _ _ _ _ _ _ Hs Heq) as [?|(_ & ? & ?)]; [lia|done].
    - destruct (installReply_calm _ _ _ _ _ _ _ Heq) as [[]|(_ & next & _ & ->)]; [lia|cbn in Hlt; lia]. }
  apply medianMatch_member, list_elem_of_lookup in Hm as [j Hj].
  destruct (bk_match _ _ _ (l2_node _ _ _ H2' i rf' Hi') Hsa) as (T & _ & HT & Ha).
  rewrite (HT Htp) in Ha.
  destruct (i_node _ _ (l1_inv _ _ _ H1) i rf Hi) as (_ & _ & Hrec).
  pose proof (wf_commit _ (rec_wf _ Hrec)). pose proof (wf_snap _ (rec_wf _ Hrec)).
  destruct (Ha j _ Hj) as [?|(_ & Hack & _)]; [lia|]. by eapply ack_in_leader.
Qed.
End steps.

(** Peer 1 of [late_heartbeat] commits indices 1 and 2 in term 2. *)
Lemma commits_own_term_witness :
  ∃ s s' rf rf', @nreachable codec false true 3 s ∧
    @nact codec false true (NReply 0 2) s = Some s' ∧
    s.(cl).(nodes) !! 1%nat = Some rf ∧ s'.(cl).(nodes) !! 1%nat = Some rf' ∧
    rf.(commitIndex) = 0 ∧ rf'.(commitIndex) = 2 ∧
    ∃ e, zget rf'.(log) rf'.(commitIndex) = Some e ∧ e.(Log.Term) = rf'.(currentTerm).
Proof.
  destruct (@nstart codec 3 0) as [s0|] eqn:H0; [|by vm_compute in H0].
  destruct (@nacts codec false true (take 23 late_heartbeat) s0) as [s|] eqn:Hs.
  2: { vm_compute in H0. injection H0 as <-. by vm_compute in Hs. }
  assert (@nreachable codec false true 3 s) as Hr by by exists 0, s0, (take 23 late_heartbeat).
  destruct (@nact codec false true (NReply 0 2) s) as [s'|] eqn:Hn.
  2: { vm_compute in H0. injection H0 as <-. vm_compute in Hs. injection Hs as <-. by vm_compute in Hn. }
  pose proof (λ rf rf', @commits_own_term codec false 3 s 0 2 s' 1 rf rf' Hr Hn) as Hc.
  exists s, s'. vm_compute in H0. injection H0 as <-. vm_compute in Hs. injection Hs as <-.
  pose proof Hn as Hn'. vm_compute in Hn'. injection Hn' as <-.
  eexists _, _. split; [exact Hr|]. split; [exact Hn|]. split; [reflexivity|]. split; [reflexivity|].
  split; [reflexivity|]. split; [reflexivity|].
  apply (Hc _ _ eq_refl eq_refl); [by vm_compute|reflexivity].
Defined.
