(* ===== verification/RaftAgree.v ===== *)
(** State machine safety of the cluster of [RaftNet]: with an odd number of peers, the
    peers apply the same command at every index, in runs in which no heartbeat that
    a leader sent before its first [Start] is handled by a follower that has taken
    entries of this leader since ([on_time]).  [RaftNet] shows that the peers can
    disagree when such a heartbeat is late; all other calls may be.

    The proof follows the history of [RaftMatch]: an entry that a majority has
    acknowledged in its own term is in the log of every later leader, because a
    later leader was elected by a peer that held the entry when it voted, or by a
    majority that refuses it. *)
From S2P Require Import Prelude Gob Iface RaftTypes RaftPersist RaftLog RaftLogProps RaftElection RaftLeader RaftPeer RaftRecovery RaftCluster RaftNet RaftSafety RaftMatch RaftCommit GobImpl.

(** The log has an entry of term [T] at [p]. *)
Definition holds (l : list Log.t) (p T : Z) : Prop :=
  ∃ e, zget l p = Some e ∧ e.(Log.Term) = T.

(** The peers of a majority of [n]. *)
Definition majority (n : nat) (Q : nat → Prop) : Prop :=
  ∃ q, NoDup q ∧ (n < 2 * length q)%nat ∧ Forall (λ k, k < n)%nat q ∧ ∀ k, k ∈ q → Q k.

Lemma majority_meet n Q R : majority n Q → majority n R → ∃ k, (k < n)%nat ∧ Q k ∧ R k.
Proof.
  intros (q & ? & ? & Hn & Hq) (r & ? & ? & ? & Hr).
  destruct (majority_intersect n q r) as (k & Hk & Hk'); [done..|].
  exists k. rewrite Forall_forall in Hn. auto.
Qed.

Lemma majority_mono n (Q R : nat → Prop) : (∀ k, Q k → R k) → majority n Q → majority n R.
Proof. intros HQR (q & ? & ? & ? & Hq). exists q. split_and!; auto. Qed.

(** A majority has acknowledged the entry of term [T] at [p] in that term. *)
Definition committed (n : nat) (g : ghost) (T p : Z) : Prop := majority n (λ j, g.(ack) j T p).

(** A majority has left the term without it. *)
Definition refused (n : nat) (g : ghost) (s : net) (T p : Z) : Prop :=
  majority n (λ j, ¬ g.(ack) j T p ∧ ∃ rf, s.(cl).(nodes) !! j = Some rf ∧ T < rf.(currentTerm)).

Lemma committed_not_refused n g s T p : committed n g T p → ¬ refused n g s T p.
Proof. intros Hc Hr. destruct (majority_meet _ _ _ Hc Hr) as (k & _ & Ha & Hno & _). auto. Qed.

Definition safe (n : nat) (g : ghost) (s : net) (l : list Log.t) (p T : Z) : Prop :=
  holds l p T ∨ refused n g s T p.

(** The entry at [i] is decided, by a term up to [T0]: it is in a log of a leader that
    has committed an entry of its term at [i] or later. *)
Definition chosen (n : nat) (g : ghost) (T0 i : Z) (e : Log.t) : Prop :=
  ∃ T p L, T ≤ T0 ∧ committed n g T p ∧ g.(leads) T L ∧ holds L p T ∧ 0 < i ≤ p ∧ zget L i = Some e.

Definition told (n : nat) (g : ghost) (m : ApplyMsg.t) : Prop :=
  ∃ T0 e, chosen n g T0 m.(ApplyMsg.CommandIndex) e ∧ m.(ApplyMsg.Command) = e.(Log.Command).

(** What a peer has sent on its apply channel when its commit index is [c]: the
    message of every index up to [c], in order, once or twice. *)
Inductive stream : Z → list ApplyMsg.t → Prop :=
  | stream_nil : stream 0 []
  | stream_next c ms m ns :
      stream c ms → m.(ApplyMsg.CommandValid) = true → m.(ApplyMsg.CommandIndex) = c + 1 →
      ns = [m] ∨ ns = [m; m] → stream (c + 1) (ms ++ ns).

(** What a vote call says of the log. *)
Definition describes (args : RequestVoteArgs.t) (l : list Log.t) : Prop :=
  args.(RequestVoteArgs.LastLogIndex) = zlen l - 1 ∧
  Log.Term <$> zget l (zlen l - 1) = Some args.(RequestVoteArgs.LastLogTerm).

Record lay3 (n : nat) (g : ghost) (s : net) : Prop := {
  l3_dec j T p : g.(ack) j T p ∨ ¬ g.(ack) j T p;
  l3_held j rf T p : s.(cl).(nodes) !! j = Some rf → g.(ack) j T p → safe n g s rf.(log) p T;
  l3_leads T' L T p : g.(leads) T' L → T < T' → 0 < p → safe n g s L p T;
  l3_old T l k p e : g.(leads) T l → g.(leads) T k → zget k p = Some e → e.(Log.Term) < T →
    zget l p = Some e;
  l3_args k T j args rf : s.(cl).(votes) !! (k, T, j) = Some (VSent args) →
    s.(cl).(nodes) !! k = Some rf → rf.(tp) = 1 → rf.(currentTerm) = T → describes args rf.(log);
  l3_vote k T' j v rf T p : s.(cl).(votes) !! (k, T', j) = Some v → granted v = true →
    s.(cl).(nodes) !! k = Some rf → rf.(tp) = 1 → rf.(currentTerm) = T' →
    T < T' → g.(ack) j T p → safe n g s rf.(log) p T;
  l3_node j rf : s.(cl).(nodes) !! j = Some rf →
    (∀ c, 0 < c ≤ rf.(commitIndex) → ∃ e, zget rf.(log) c = Some e ∧ chosen n g rf.(currentTerm) c e) ∧
    (∀ m, m ∈ applies rf.(out) → told n g m);
  l3_stream j rf : s.(cl).(nodes) !! j = Some rf → stream rf.(commitIndex) (applies rf.(out));
  l3_flight id f k args : s.(flights) !! id = Some f → f.(f_state) = FAppendSent k args →
    ∃ l, g.(leads) args.(RequestAppendArgs.Term) l ∧ from l args ∧
      ∀ c, 0 < c ≤ args.(RequestAppendArgs.LeaderCommit) →
        ∃ e, zget l c = Some e ∧ chosen n g args.(RequestAppendArgs.Term) c e
}.

Section agree.
Context `{!RaftCodec}.

(** *** What stays *)

(** Terms only grow. *)
Definition onward (s s' : net) : Prop :=
  ∀ i rf, s.(cl).(nodes) !! i = Some rf →
    ∃ rf', s'.(cl).(nodes) !! i = Some rf' ∧ rf.(currentTerm) ≤ rf'.(currentTerm).

Lemma committed_mono n g s T p : committed n g T p → committed n (observe g s) T p.
Proof. apply majority_mono. intros k Hk. by left. Qed.

Lemma refused_mono n g s s' T p :
  onward s s' → refused n g s T p → refused n (observe g s') s' T p.
Proof.
  intros Hon. apply majority_mono. intros j (Hno & rf & Hj & Hlt).
  destruct (Hon j rf Hj) as (rf' & Hj' & Hle). split; [|exists rf'; split; [done|lia]].
  intros [Hack|(rf1 & e & Hj1 & -> & _)]; [done|]. simplify_eq. lia.
Qed.

Lemma safe_mono n g s s' l p T :
  onward s s' → safe n g s l p T → safe n (observe g s') s' l p T.
Proof. intros Hon [?|Hr]; [by left|right]. by eapply refused_mono. Qed.

Lemma chosen_mono n g s T0 T1 i e :
  T0 ≤ T1 → chosen n g T0 i e → chosen n (observe g s) T1 i e.
Proof.
  intros Hle (T & p & L & ? & ? & ? & ? & ? & ?). exists T, p, L.
  split_and!; [lia|by apply committed_mono|by left|done|lia..|done].
Qed.

Lemma told_mono n g s m : told n g m → told n (observe g s) m.
Proof. intros (T0 & e & Hc & ?). exists T0, e. split; [|done]. by eapply chosen_mono. Qed.

(** A new acknowledgement is of the peer's current term, and held. *)
Lemma ack_observe g s j T p rf :
  s.(cl).(nodes) !! j = Some rf → (observe g s).(ack) j T p →
  g.(ack) j T p ∨ T = rf.(currentTerm) ∧ holds rf.(log) p T.
Proof.
  intros Hj [?|(rf1 & e & Hj1 & ? & ? & ? & ?)]; [by left|right]. simplify_eq. split; [done|by exists e].
Qed.

Lemma ack_dec_observe g s :
  (∀ j T p, g.(ack) j T p ∨ ¬ g.(ack) j T p) →
  ∀ j T p, (observe g s).(ack) j T p ∨ ¬ (observe g s).(ack) j T p.
Proof.
  intros Hdec j T p. destruct (Hdec j T p) as [?|Hno]; [left; by left|].
  destruct (s.(cl).(nodes) !! j) as [rf|] eqn:Hj.
  2: { right. intros [?|(rf & e & Hj' & _)]; [done|congruence]. }
  destruct (zget rf.(log) p) as [e|] eqn:He.
  2: { right. intros [?|(rf' & e & Hj' & _ & _ & He' & _)]; [done|congruence]. }
  destruct (decide (T = rf.(currentTerm) ∧ 0 < p ∧ e.(Log.Term) = T)) as [(? & ? & ?)|Hn].
  - left. right. by exists rf, e.
  - right. intros [?|(rf' & e' & Hj' & ? & ? & He' & ?)]; [done|]. simplify_eq. by apply Hn.
Qed.

(** *** Decided entries are unique *)

Lemma holds_agree n g s l k p T i :
  lay1 n g s → g.(hist) l → g.(hist) k → holds l p T → holds k p T → i ≤ p → zget l i = zget k i.
Proof.
  intros H1 Hl Hk (e & He & Het) (d & Hd & Hdt) Hi.
  eapply log_match_get; [by apply (l1_match _ _ _ H1)|exact He|exact Hd|congruence|done].
Qed.

Lemma leads_hist n g s T l : lay1 n g s → g.(leads) T l → g.(hist) l.
Proof. intros H1 Hl. by apply (l1_leads _ _ _ H1 T). Qed.

(** A committed entry is in the logs of later leaders. *)
Lemma committed_leads n g s T T' p L :
  lay3 n g s → committed n g T p → g.(leads) T' L → T < T' → 0 < p → holds L p T.
Proof.
  intros H3 Hc HL Hlt Hp. destruct (l3_leads _ _ _ H3 T' L T p HL Hlt Hp) as [?|Hr]; [done|].
  by apply committed_not_refused in Hr.
Qed.

Lemma chosen_unique n g s T0 T1 i e d :
  lay1 n g s → lay3 n g s → chosen n g T0 i e → chosen n g T1 i d → e = d.
Proof.
  intros H1 H3.
  assert (∀ T T' p L L', committed n g T p → g.(leads) T L → holds L p T → g.(leads) T' L' →
    T < T' → 0 < i ≤ p → zget L i = Some e → zget L' i = Some d → e = d) as Hlt.
  { intros T T' p L L' Hc HL Hh HL' Hlt Hi He Hd.
    pose proof (committed_leads _ _ _ _ _ _ _ H3 Hc HL' Hlt ltac:(lia)) as Hh'.
    rewrite (holds_agree n g s L L' p T i) in He; [congruence|..|lia];
      try done; by eapply leads_hist. }
  intros (T & p & L & _ & Hc & HL & Hh & Hi & He) (T' & p' & L' & _ & Hc' & HL' & Hh' & Hi' & Hd).
  destruct (Z.lt_trichotomy T T') as [?|[<-|?]].
  - by eapply (Hlt T T' p L L').
  - by apply (leads_agree n g s T L L' i).
  - pose proof (committed_leads _ _ _ _ _ _ _ H3 Hc' HL ltac:(lia) ltac:(lia)) as Hh2.
    rewrite (holds_agree n g s L L' p' T' i) in He; [congruence|..|lia]; try done; by eapply leads_hist.
Qed.

(** *** One peer changes *)

Record change3 (n : nat) (g : ghost) (s s' : net) (i : nat) (rf rf' : Raft) : Prop := {
  c3_log T p : g.(ack) i T p → safe n g s rf.(log) p T → safe n (observe g s') s' rf'.(log) p T;
  c3_cand : rf'.(tp) = 1 → rf'.(currentTerm) = rf.(currentTerm) → rf.(tp) = 1 ∧ rf'.(log) = rf.(log);
  c3_commit c : 0 < c ≤ rf'.(commitIndex) →
    ∃ e, zget rf'.(log) c = Some e ∧ chosen n (observe g s') rf'.(currentTerm) c e;
  c3_applied m : m ∈ applies rf'.(out) → told n (observe g s') m;
  c3_stream : stream rf.(commitIndex) (applies rf.(out)) → stream rf'.(commitIndex) (applies rf'.(out))
}.

(** The history of the leaders grows by a log that is safe. *)
Definition leads_ok (n : nat) (g : ghost) (s : net) : Prop :=
  (∀ T' L T p, g.(leads) T' L → T < T' → 0 < p → safe n g s L p T) ∧
  (∀ T l k p e, g.(leads) T l → g.(leads) T k → zget k p = Some e → e.(Log.Term) < T → zget l p = Some e).

Definition args_ok (s s' : net) : Prop := ∀ k T j args,
  s'.(cl).(votes) !! (k, T, j) = Some (VSent args) →
  s.(cl).(votes) !! (k, T, j) = Some (VSent args) ∨
  ∀ rf, s'.(cl).(nodes) !! k = Some rf → rf.(tp) = 1 → rf.(currentTerm) = T → describes args rf.(log).

Definition votes_ok (n : nat) (g : ghost) (s s' : net) : Prop := ∀ k T' j v,
  s'.(cl).(votes) !! (k, T', j) = Some v → granted v = true →
  (∃ v0, s.(cl).(votes) !! (k, T', j) = Some v0 ∧ granted v0 = true) ∨
  ∀ rf T p, s'.(cl).(nodes) !! k = Some rf → rf.(tp) = 1 → rf.(currentTerm) = T' →
    T < T' → g.(ack) j T p → safe n g s rf.(log) p T.

Definition flights_ok3 (n : nat) (g : ghost) (s s' : net) : Prop := ∀ id f k args,
  s'.(flights) !! id = Some f → f.(f_state) = FAppendSent k args →
  s.(flights) !! id = Some f ∨
  ∃ l, g.(leads) args.(RequestAppendArgs.Term) l ∧ from l args ∧
    ∀ c, 0 < c ≤ args.(RequestAppendArgs.LeaderCommit) →
      ∃ e, zget l c = Some e ∧ chosen n g args.(RequestAppendArgs.Term) c e.

(** A peer that is a candidate was one before, in the same term, with the same log. *)
Lemma cand_back n g s s' i0 k rf' :
  lay1 n g s → lay1 n (observe g s') s' → others i0 s s' → onward s s' →
  (∀ rf rf', s.(cl).(nodes) !! i0 = Some rf → s'.(cl).(nodes) !! i0 = Some rf' →
     change3 n g s s' i0 rf rf') →
  s'.(cl).(nodes) !! k = Some rf' → rf'.(tp) = 1 →
  ∃ rf, s.(cl).(nodes) !! k = Some rf ∧ rf.(currentTerm) ≤ rf'.(currentTerm) ∧
    (rf'.(currentTerm) = rf.(currentTerm) → rf.(tp) = 1 ∧ rf'.(log) = rf.(log)).
Proof.
  intros H1 H1' Hoth Hon Hch Hk Htp.
  destruct (lookup_lt_is_Some_2 s.(cl).(nodes) k) as [rf Hrf].
  { apply lookup_lt_Some in Hk. by rewrite (i_len _ _ (l1_inv _ _ _ H1)), <- (i_len _ _ (l1_inv _ _ _ H1')). }
  exists rf. split; [done|]. destruct (Hon k rf Hrf) as (rf1 & Hrf1 & Hle). simplify_eq. split; [done|].
  intros Ht. destruct (decide (k = i0)) as [->|Hne].
  - by apply (c3_cand _ _ _ _ _ _ _ (Hch _ _ Hrf Hk)).
  - rewrite Hoth in Hk by done. by simplify_eq.
Qed.

Lemma lay3_step n g s s' i0 :
  lay1 n g s → lay1 n (observe g s') s' → lay3 n g s → others i0 s s' → onward s s' →
  (∀ rf rf', s.(cl).(nodes) !! i0 = Some rf → s'.(cl).(nodes) !! i0 = Some rf' →
     change3 n g s s' i0 rf rf') →
  leads_ok n (observe g s') s' → args_ok s s' → votes_ok n g s s' →
  flights_ok3 n (observe g s') s s' → lay3 n (observe g s') s'.
Proof.
  intros H1 H1' H3 Hoth Hon Hch [Hl1 Hl2] Hargs Hvotes Hfl.
  pose proof (l1_inv _ _ _ H1) as Hinv. pose proof (l1_inv _ _ _ H1') as Hinv'.
  pose proof (λ k rf', cand_back n g s s' i0 k rf' H1 H1' Hoth Hon Hch) as Hcand.
  assert (∀ i rf', s'.(cl).(nodes) !! i = Some rf' → ∃ rf, s.(cl).(nodes) !! i = Some rf) as Hback.
  { intros i rf' Hi. apply lookup_lt_is_Some_2. apply lookup_lt_Some in Hi.
    by rewrite (i_len _ _ Hinv), <- (i_len _ _ Hinv'). }
  split; [by apply ack_dec_observe, (l3_dec _ _ _ H3)| |done|done|..].
  - intros j rf' T p Hj Hack. destruct (ack_observe _ _ _ _ _ _ Hj Hack) as [Hold|[_ ?]]; [|by left].
    destruct (Hback j rf' Hj) as [rf Hrf]. pose proof (l3_held _ _ _ H3 j rf T p Hrf Hold) as Hs.
    destruct (decide (j = i0)) as [->|Hne].
    + by apply (c3_log _ _ _ _ _ _ _ (Hch _ _ Hrf Hj)).
    + rewrite Hoth in Hj by done. simplify_eq. by eapply safe_mono.
  - intros k T j args rf' Hv Hk Htp HT. destruct (Hargs _ _ _ _ Hv) as [Hold|Hnew]; [|by apply Hnew].
    destruct (Hcand k rf' Hk Htp) as (rf & Hrf & Hle & Hsame).
    destruct (i_vote _ _ Hinv _ _ _ _ Hold) as (_ & _ & _ & Hlt & _). specialize (Hlt rf Hrf).
    destruct Hsame as [Htp0 ->]; [lia|]. apply (l3_args _ _ _ H3 k T j args rf); [done..|lia].
  - intros k T' j v rf' T p Hv Hg Hk Htp HT Hlt Hack.
    assert (g.(ack) j T p) as Hold.
    { destruct (i_vote _ _ Hinv' _ _ _ _ Hv) as (_ & Hjn & _).
      rewrite <- (i_len _ _ Hinv') in Hjn. apply lookup_lt_is_Some_2 in Hjn as [rj Hj].
      destruct (i_grant _ _ Hinv' _ _ _ _ _ Hv Hg Hj) as [Hle _].
      destruct (ack_observe _ _ _ _ _ _ Hj Hack) as [?|[? _]]; [done|lia]. }
    apply safe_mono with s; [done|]. destruct (Hvotes _ _ _ _ Hv Hg) as [(v0 & Hv0 & Hg0)|Hnew];
      [|by eapply (Hnew rf')].
    destruct (Hcand k rf' Hk Htp) as (rf & Hrf & Hle & Hsame).
    destruct (i_vote _ _ Hinv _ _ _ _ Hv0) as (_ & _ & _ & Hle0 & _). specialize (Hle0 rf Hrf).
    destruct Hsame as [Htp0 ->]; [lia|]. apply (l3_vote _ _ _ H3 k T' j v0 rf); [done..|lia|done|done].
  - intros j rf' Hj. destruct (decide (j = i0)) as [->|Hne].
    + destruct (Hback _ _ Hj) as [rf Hrf]. destruct (Hch _ _ Hrf Hj). by split.
    + rewrite Hoth in Hj by done. destruct (l3_node _ _ _ H3 j rf' Hj) as [Hc Hm]. split.
      * intros c Hc0. destruct (Hc c Hc0) as (e & ? & ?). exists e. split; [done|]. by eapply chosen_mono.
      * intros m Hm0. by apply told_mono, Hm.
  - intros j rf' Hj. destruct (decide (j = i0)) as [->|Hne].
    + destruct (Hback _ _ Hj) as [rf Hrf]. apply (c3_stream _ _ _ _ _ _ _ (Hch _ _ Hrf Hj)).
      by apply (l3_stream _ _ _ H3 i0).
    + rewrite Hoth in Hj by done. by apply (l3_stream _ _ _ H3 j).
  - intros id f k args Hf Hst. destruct (Hfl _ _ _ _ Hf Hst) as [Hold|Hnew]; [|done].
    destruct (l3_flight _ _ _ H3 id f k args Hold Hst) as (l & Hl & Hfr & Hc).
    exists l. split_and!; [by left|done|]. intros c Hc0. destruct (Hc c Hc0) as (e & ? & ?).
    exists e. split; [done|]. by eapply chosen_mono.
Qed.

(** *** The steps of a peer outside calls *)

Lemma onward_one s s' i rf rf' :
  s.(cl).(nodes) !! i = Some rf → s'.(cl).(nodes) = <[i := rf']> s.(cl).(nodes) →
  rf.(currentTerm) ≤ rf'.(currentTerm) → onward s s'.
Proof.
  intros Hi Heq Hle k rk Hk. rewrite Heq. destruct (decide (k = i)) as [->|Hne].
  - rewrite list_lookup_insert_eq by (by eapply lookup_lt_Some). simplify_eq. by exists rf'.
  - rewrite list_lookup_insert_ne by done. exists rk. split; [done|lia].
Qed.

Lemma onward_same s s' : s'.(cl).(nodes) = s.(cl).(nodes) → onward s s'.
Proof. intros Heq k rk Hk. rewrite Heq. exists rk. split; [done|lia]. Qed.

(** Nothing is committed, or what was is forgotten. *)
Definition silent (rf rf' : Raft) : Prop :=
  rf'.(commitIndex) = rf.(commitIndex) ∧ applies rf'.(out) = applies rf.(out) ∨
  rf'.(commitIndex) = 0 ∧ applies rf'.(out) = [].

(** The log grows at its end, and nothing is committed. *)
Lemma change3_grow n g s s' i rf rf' k :
  lay3 n g s → s.(cl).(nodes) !! i = Some rf → onward s s' →
  rf'.(log) = rf.(log) ++ k → rf.(currentTerm) ≤ rf'.(currentTerm) →
  (rf'.(tp) = 1 → rf'.(currentTerm) = rf.(currentTerm) → rf.(tp) = 1 ∧ k = []) →
  silent rf rf' → change3 n g s s' i rf rf'.
Proof.
  intros H3 Hi Hon Hlog Hle Hc Hsil. destruct (l3_node _ _ _ H3 i rf Hi) as [Hcom Hm].
  assert (∀ p e, zget rf.(log) p = Some e → zget rf'.(log) p = Some e) as Hget.
  { intros p e He. pose proof (zget_Some_range _ _ _ He). rewrite Hlog. by rewrite zget_app_l by lia. }
  split.
  - intros T p Hack [(e & He & Het)|Hr]; [left|right; by eapply refused_mono].
    exists e. split; [by apply Hget|done].
  - intros Htp Ht. destruct (Hc Htp Ht) as [? ->]. by rewrite Hlog, app_nil_r.
  - intros c Hc0. destruct (Hcom c) as (e & He & Hch); [destruct Hsil as [[? _]|[? _]]; lia|]. exists e.
    split; [by apply Hget|]. by eapply chosen_mono.
  - intros m Hm0. destruct Hsil as [[_ E]|[_ E]]; rewrite E in Hm0; [|by apply elem_of_nil in Hm0].
    by apply told_mono, Hm.
  - destruct Hsil as [[-> ->]|[-> ->]]; [done|]. intros _. constructor.
Qed.

Lemma change3_quiet n g s s' i rf rf' :
  lay3 n g s → s.(cl).(nodes) !! i = Some rf → onward s s' → calm rf rf' →
  silent rf rf' → change3 n g s s' i rf rf'.
Proof.
  intros H3 Hi Hon [Hl _ _ Ht Hc _] Hsil. eapply (change3_grow n g s s' i rf rf' []); try done.
  - by rewrite app_nil_r.
  - intros Htp HT. split; [by apply Hc|done].
Qed.

Lemma change3_still n g s s' i rf rf' :
  lay3 n g s → s.(cl).(nodes) !! i = Some rf → onward s s' → still rf rf' → change3 n g s s' i rf rf'.
Proof.
  intros H3 Hi Hon [Hc _ _ _ _ Hci Hap]. apply change3_quiet; [done..|by left].
Qed.

(** *** The leaders of the history *)

Lemma leads_ok_same n g s s' :
  lay3 n g s → onward s s' → (∀ T L, (observe g s').(leads) T L → g.(leads) T L) →
  leads_ok n (observe g s') s'.
Proof.
  intros H3 Hon Hsame. split.
  - intros T' L T p HL%Hsame HT Hp. eapply safe_mono; [done|]. by eapply (l3_leads _ _ _ H3).
  - intros T l k p e Hl%Hsame Hk%Hsame. by apply (l3_old _ _ _ H3).
Qed.

(** The peers but one lead as before. *)
Lemma leads_others n g s s' i T L rf' :
  lay1 n g s → others i s s' → s'.(cl).(nodes) !! i = Some rf' → (observe g s').(leads) T L →
  g.(leads) T L ∨ rf'.(tp) = 2 ∧ T = rf'.(currentTerm) ∧ L = rf'.(log).
Proof.
  intros H1 Hoth Hi [?|(j & rj & Hj & Htp & -> & ->)]; [by left|].
  destruct (others_lookup _ _ _ _ _ _ Hoth Hi Hj) as [[-> ->]|[_ Hj']]; [by right|left].
  by apply (l1_node _ _ _ H1 j rj).
Qed.

Lemma leads_same n g s s' i rf rf' :
  lay1 n g s → others i s s' → s.(cl).(nodes) !! i = Some rf → s'.(cl).(nodes) !! i = Some rf' →
  (rf'.(tp) = 2 → rf.(tp) = 2 ∧ rf'.(currentTerm) = rf.(currentTerm) ∧ rf'.(log) = rf.(log)) →
  ∀ T L, (observe g s').(leads) T L → g.(leads) T L.
Proof.
  intros H1 Hoth Hi Hi' Hlead T L HL.
  destruct (leads_others _ _ _ _ _ _ _ _ H1 Hoth Hi' HL) as [?|(Htp & -> & ->)]; [done|].
  destruct (Hlead Htp) as (? & -> & ->). by apply (l1_node _ _ _ H1 i rf).
Qed.

Lemma leads_ok_start n g s s' i rf rf' d :
  lay1 n g s → lay3 n g s → onward s s' → others i s s' →
  s.(cl).(nodes) !! i = Some rf → s'.(cl).(nodes) !! i = Some rf' → rf.(tp) = 2 →
  rf'.(currentTerm) = rf.(currentTerm) → rf'.(log) = rf.(log) ++ [d] →
  d.(Log.Term) = rf.(currentTerm) → leads_ok n (observe g s') s'.
Proof.
  intros H1 H3 Hon Hoth Hi Hi' Htp Ht Hlog Hd.
  destruct (l1_node _ _ _ H1 i rf Hi) as (_ & _ & Hl). specialize (Hl Htp).
  assert (∀ T L, (observe g s').(leads) T L →
    g.(leads) T L ∨ T = rf.(currentTerm) ∧ L = rf.(log) ++ [d]) as Hleads.
  { intros T L HL. destruct (leads_others _ _ _ _ _ _ _ _ H1 Hoth Hi' HL) as [?|(_ & -> & ->)]; [by left|].
    right. split; [done|]. by rewrite Hlog. }
  assert (∀ p e, zget rf.(log) p = Some e → zget (rf.(log) ++ [d]) p = Some e) as Hget.
  { intros p e He. pose proof (zget_Some_range _ _ _ He). by rewrite zget_app_l by lia. }
  assert (∀ p e, zget (rf.(log) ++ [d]) p = Some e → e.(Log.Term) < rf.(currentTerm) →
    zget rf.(log) p = Some e) as Hold.
  { intros p e He Hlt. destruct (Z.lt_ge_cases p (zlen rf.(log))) as [|Hge].
    - by rewrite zget_app_l in He by done.
    - rewrite zget_app_r in He by done. apply list_elem_of_zget, list_elem_of_singleton in He as ->. lia. }
  split.
  - intros T' L T p [HL|[-> ->]]%Hleads HT Hp; (eapply safe_mono; [exact Hon|]).
    + by eapply (l3_leads _ _ _ H3).
    + destruct (l3_leads _ _ _ H3 _ _ T p Hl HT Hp) as [(e & He & Het)|?]; [left|by right].
      exists e. split; [by apply Hget|done].
  - intros T l k p e [Hl'|[-> ->]]%Hleads [Hk|[HT ->]]%Hleads He Hlt.
    + by eapply (l3_old _ _ _ H3).
    + subst T. eapply (l3_old _ _ _ H3); [done|exact Hl|by apply Hold|done].
    + apply Hget. by eapply (l3_old _ _ _ H3).
    + done.
Qed.

Lemma some_or_none {A} (P : A → Prop) (q : list A) :
  (∀ x, P x ∨ ¬ P x) → (∃ x, x ∈ q ∧ P x) ∨ ∀ x, x ∈ q → ¬ P x.
Proof.
  intros Hdec. induction q as [|x q IH]; [right; by intros x ?%elem_of_nil|].
  destruct (Hdec x) as [?|Hx]; [left; exists x; split; [by left|done]|].
  destruct IH as [(y & ? & ?)|Hq]; [left; exists y; split; [by right|done]|right].
  intros y [->|Hy]%elem_of_cons; [done|by apply Hq].
Qed.

(** A majority that voted for the new leader either knew of a committed entry, or
    refuses it. *)
Lemma leads_ok_win n g s s' i rf rf' :
  lay1 n g s → lay1 n (observe g s') s' → lay3 n g s → onward s s' → others i s s' →
  s.(cl).(nodes) !! i = Some rf → s'.(cl).(nodes) !! i = Some rf' → rf.(tp) = 1 → rf'.(tp) = 2 →
  rf'.(currentTerm) = rf.(currentTerm) → rf'.(log) = rf.(log) →
  elected n s.(cl) i rf.(currentTerm) → (∀ L, ¬ g.(leads) rf.(currentTerm) L) →
  leads_ok n (observe g s') s'.
Proof.
  intros H1 H1' H3 Hon Hoth Hi Hi' Htp Htp' Ht Hlog [_ Hel] Hno.
  pose proof (l1_inv _ _ _ H1) as Hinv.
  assert (∀ T L, (observe g s').(leads) T L →
    g.(leads) T L ∨ T = rf.(currentTerm) ∧ L = rf.(log)) as Hleads.
  { intros T L HL. destruct (leads_others _ _ _ _ _ _ _ _ H1 Hoth Hi' HL) as [?|(_ & -> & ->)]; [by left|].
    right. split; congruence. }
  split.
  - intros T' L T p [HL|[-> ->]]%Hleads HT Hp.
    { eapply safe_mono; [exact Hon|]. by eapply (l3_leads _ _ _ H3). }
    destruct (inv_voters n _ i _ Hinv Hel) as (q & Hnd & Hlen & Hqn & Hq).
    destruct (some_or_none (λ j, g.(ack) j T p) q) as [(j & Hj & Hack)|Hnone].
    { intros j. apply (l3_dec _ _ _ H3). }
    + eapply safe_mono; [exact Hon|]. by eapply (l3_vote _ _ _ H3 i _ j VCounted rf T p (Hq j Hj)).
    + right. exists q. split_and!; [done..|]. intros j Hj. rewrite Forall_forall in Hqn.
      specialize (Hnone j Hj). specialize (Hqn j Hj). rewrite <- (i_len _ _ Hinv) in Hqn.
      apply lookup_lt_is_Some_2 in Hqn as [rj Hrj]. destruct (Hon j rj Hrj) as (rj' & Hrj' & Hle).
      destruct (i_grant _ _ Hinv _ _ _ _ _ (Hq j Hj) eq_refl Hrj) as [Hle' _].
      split; [|exists rj'; split; [done|lia]]. intros Hack.
      destruct (ack_observe _ _ _ _ _ _ Hrj' Hack) as [?|[? _]]; [done|lia].
  - intros T l k p e [Hl'|[-> ->]]%Hleads [Hk|[HT ->]]%Hleads He Hlt.
    + by eapply (l3_old _ _ _ H3).
    + subst T. by apply Hno in Hl'.
    + by apply Hno in Hk.
    + done.
Qed.

(** *** Votes *)

Lemma absTerm_last rf :
  wf rf → rf.(snapshotIndex) = 0 → rf.(snapshotTerm) = 0 →
  absTerm rf (lastLogIndex rf) = Log.Term <$> zget rf.(log) (zlen rf.(log) - 1).
Proof.
  intros Hwf Hs Hst. destruct (wf_log _ Hwf) as [k Hk].
  unfold absTerm, absEntry, lastLogIndex. rewrite Hs, Hst, Z.add_0_r.
  destruct (Z.eqb_spec (zlen (log rf) - 1) 0) as [->|]; [by rewrite Hk|].
  rewrite Z.sub_0_r. destruct (Z.ltb_spec 0 (zlen (log rf) - 1)); [done|].
  pose proof (wf_log_len _ Hwf). lia.
Qed.

Lemma voteArgs_describes T rf args :
  wf rf → rf.(snapshotIndex) = 0 → rf.(snapshotTerm) = 0 → voteArgs T rf = Some args →
  describes args rf.(log).
Proof.
  intros Hwf Hs Hst Heq. unfold voteArgs in Heq. apply bind_Some in Heq as (t & Ht & [= <-]).
  rewrite lastLogTerm_abs, absTerm_last in Ht by done. split; cbn; [lia|done].
Qed.

Lemma wf_last l : well_formed l → ∃ e, zget l (zlen l - 1) = Some e ∧ 0 ≤ zlen l - 1 ∧ 0 ≤ e.(Log.Term).
Proof.
  intros ([k Hk] & Hpos & _).
  assert (0 < zlen l) as Hlen by (rewrite Hk; zlen_lia).
  destruct (zget_lt l (zlen l - 1)) as [e He]; [lia|]. exists e. split_and!; [done|lia|].
  destruct (decide (zlen l - 1 = 0)) as [E|]; [|pose proof (Hpos (zlen l - 1) e ltac:(lia) He); lia].
  rewrite E, Hk in He. by injection He as <-.
Qed.

(** Two logs whose last entries have the same term: the shorter is a part of the
    longer. *)
Lemma same_last_term n g s l k a b da db q :
  lay1 n g s → g.(hist) l → g.(hist) k → zget l a = Some da → zget k b = Some db →
  da.(Log.Term) = db.(Log.Term) → 0 < a → a ≤ b → q ≤ a → zget k q = zget l q.
Proof.
  intros H1 Hl Hk Ha Hb Ht Hpos Hab Hq.
  destruct (l1_own _ _ _ H1 l a da Hl Hpos Ha) as (L & HL & HLa).
  destruct (l1_own _ _ _ H1 k b db Hk ltac:(lia) Hb) as (L' & HL' & HLb). rewrite <- Ht in HL'.
  pose proof (zget_Some_range _ _ _ HLb) as Hr.
  destruct (zget_lt L' a) as [x Hx]; [lia|].
  pose proof (leads_agree _ _ _ _ _ _ _ _ _ H1 HL HL' HLa Hx) as <-.
  pose proof (own_prefix n g s k L' b db db _ H1 Hk HL' ltac:(lia) Hb (eq_sym Ht) HLb a Hab) as Hka.
  rewrite Hx in Hka. symmetry. eapply log_match_get; [by apply (l1_match _ _ _ H1)|exact Ha|exact Hka|done|done].
Qed.

(** The voter's acknowledged entries are safe in the log of the candidate. *)
Lemma vote_safe n g s j rf l args t T p :
  lay1 n g s → lay3 n g s → s.(cl).(nodes) !! j = Some rf → g.(hist) l → describes args l →
  Log.Term <$> zget rf.(log) (zlen rf.(log) - 1) = Some t →
  t < args.(RequestVoteArgs.LastLogTerm) ∨
    t = args.(RequestVoteArgs.LastLogTerm) ∧ zlen rf.(log) - 1 ≤ args.(RequestVoteArgs.LastLogIndex) →
  g.(ack) j T p → 0 < p → safe n g s l p T.
Proof.
  intros H1 H3 Hj Hl [Hix Hlt] Ht Hup Hack Hp.
  destruct (l3_held _ _ _ H3 j rf T p Hj Hack) as [(e & He & Het)|?]; [|by right].
  destruct (l1_node _ _ _ H1 j rf Hj) as (Hh & _ & _).
  destruct (l1_form _ _ _ H1 _ Hh) as (_ & Hpos & Hsort). specialize (Hpos p e Hp He).
  apply fmap_Some in Ht as (da & Ha & ->). apply fmap_Some in Hlt as (db & Hb & Hdb). rewrite Hdb, Hix in Hup.
  pose proof (zget_Some_range _ _ _ He) as Hpr.
  assert (T ≤ da.(Log.Term)) as HTa.
  { rewrite <- Het. by apply (Hsort p (zlen rf.(log) - 1)); [lia|..]. }
  destruct Hup as [Hlt|[Heq Hle]].
  - assert (0 < zlen l - 1) as Hb0.
    { destruct (l1_form _ _ _ H1 l Hl) as ([k Hk] & _). pose proof (zget_Some_range _ _ _ Hb).
      destruct (decide (zlen l - 1 = 0)) as [E|]; [|lia]. rewrite E, Hk in Hb. injection Hb as <-. cbn in *. lia. }
    destruct (l1_own _ _ _ H1 l _ db Hl Hb0 Hb) as (L & HL & HLb).
    destruct (l3_leads _ _ _ H3 _ L T p HL ltac:(lia) Hp) as [(x & Hx & Hxt)|?]; [left|by right].
    exists x. split; [|done]. rewrite <- Hx. destruct (l1_form _ _ _ H1 L) as (_ & _ & HLs); [by eapply leads_hist|].
    destruct (Z.le_gt_cases p (zlen l - 1)) as [Hpb|Hpb].
    + by apply (own_prefix _ _ _ _ _ _ _ _ _ H1 Hl HL Hb0 Hb eq_refl HLb).
    + specialize (HLs (zlen l - 1) p db x ltac:(lia) HLb Hx). lia.
  - left. exists e. split; [|done].
    by rewrite (same_last_term n g s rf.(log) l (zlen rf.(log) - 1) (zlen l - 1) da db p) by (done || lia).
Qed.

(** How a vote comes to be granted *)
Lemma act_grant n a c c' k T j v :
  inv n c → act true a c = Some c' → c'.(votes) !! (k, T, j) = Some v → granted v = true →
  (∃ v0, c.(votes) !! (k, T, j) = Some v0 ∧ granted v0 = true) ∨
  (∃ r args rf rf' reply, c.(votes) !! (k, T, j) = Some (VSent args) ∧ c.(nodes) !! j = Some rf ∧
     RequestVote r args rf = Some (rf', reply) ∧ reply.(RequestVoteReply.VoteGranted) = true) ∨
  j = k ∧ ∃ rf, c.(nodes) !! k = Some rf ∧ T = rf.(currentTerm) + 1 ∧
    c'.(nodes) !! k = Some (startElection_begin rf).
Proof.
  intros Hinv Hact Hv Hg.
  assert (∀ k' v' v0 c1, c.(votes) !! k' = Some v0 → (granted v' = true → granted v0 = true) →
    c1.(votes) = c.(votes) → (set_vote k' v' c1).(votes) !! (k, T, j) = Some v →
    ∃ v1, c.(votes) !! (k, T, j) = Some v1 ∧ granted v1 = true) as Hset.
  { intros k' v' v0 c1 Hv0 Hgv Heq Hl. cbn in Hl. rewrite Heq in Hl.
    apply lookup_insert_Some in Hl as [[<- <-]|[_ Hl]]; [exists v0; auto|by exists v]. }
  destruct a as [i o|i|i T1 j1|r i T1 j1|i T1 j1|r i T1 j1|i T1|i T1]; cbn [act] in Hact.
  - left. apply bind_Some in Hact as (rf & Hi & Hact). apply bind_Some in Hact as (rf' & _ & [= <-]). by exists v.
  - apply bind_Some in Hact as (rf & Hi & [= <-]).
    apply (lookup_begin_votes n c i rf (k, T, j) v Hinv Hi) in Hv as [(j' & [= -> -> ->] & _ & ->)|[_ Hv]];
      [|left; by exists v].
    right. right. case_decide; [subst|done]. split; [done|]. exists rf. split_and!; [done..|].
    cbn. apply list_lookup_insert_eq. by eapply lookup_lt_Some.
  - left. apply bind_Some in Hact as (v0 & Hv0 & Hact). apply bind_Some in Hact as (rf & Hi & Hact).
    destruct v0; try done. apply bind_Some in Hact as (args & _ & [= <-]).
    by apply (Hset (i, T1, j1) (VSent args) VStart c).
  - apply bind_Some in Hact as (v0 & Hv0 & Hact). apply bind_Some in Hact as (rf & Hi & Hact).
    destruct v0; try done. apply bind_Some in Hact as ([rf' reply] & Heq & [= <-]). cbn in Hv.
    apply lookup_insert_Some in Hv as [[[= -> -> ->] <-]|[_ Hv]]; [right; left|left; by exists v].
    cbn in Hg. by exists r, args, rf, rf', reply.
  - left. apply bind_Some in Hact as (v0 & Hv0 & Hact).
    destruct v0; try done; injection Hact as <-; (eapply (Hset _ _ _ c Hv0); [|done|exact Hv]; done).
  - left. apply bind_Some in Hact as (v0 & Hv0 & Hact). apply bind_Some in Hact as (rf & Hi & Hact).
    destruct v0 as [| |ok reply| |]; try done. injection Hact as <-.
    eapply (Hset _ _ _ (set_node i _ c) Hv0); [|done|exact Hv]. cbn.
    destruct (ok && _); [done|]. by rewrite andb_false_l.
  - left. apply bind_Some in Hact as (w & Hw & Hact). apply bind_Some in Hact as (rf & Hi & Hact).
    case_match; injection Hact as <-; by exists v.
  - left. apply bind_Some in Hact as (w & Hw & Hact). apply bind_Some in Hact as (rf & Hi & Hact).
    exists v. split; [|done]. repeat case_match; simplify_eq; done.
Qed.

Lemma act_args n g s a c :
  lay1 n g s → act true a s.(cl) = Some c → args_ok s (set_cl c s).
Proof.
  intros H1 Hact k T j args Hv. pose proof (l1_inv _ _ _ H1) as Hinv. cbn in Hv |- *.
  assert (∀ k' v' c1, (∀ args', v' ≠ VSent args') → c1.(votes) = s.(cl).(votes) →
    (set_vote k' v' c1).(votes) !! (k, T, j) = Some (VSent args) →
    s.(cl).(votes) !! (k, T, j) = Some (VSent args)) as Hset.
  { intros k' v' c1 Hne Heq Hl. cbn in Hl. rewrite Heq in Hl.
    apply lookup_insert_Some in Hl as [[_ Hl]|[_ Hl]]; [by destruct (Hne args Hl)|done]. }
  destruct a as [i o|i|i T1 j1|r i T1 j1|i T1 j1|r i T1 j1|i T1|i T1]; cbn [act] in Hact.
  - left. apply bind_Some in Hact as (rf & Hi & Hact). by apply bind_Some in Hact as (rf' & _ & [= <-]).
  - left. apply bind_Some in Hact as (rf & Hi & [= <-]).
    apply (lookup_begin_votes n s.(cl) i rf _ _ Hinv Hi) in Hv as [(j' & _ & _ & Hv)|[_ Hv]]; [|done].
    by case_decide.
  - apply bind_Some in Hact as (v0 & Hv0 & Hact). apply bind_Some in Hact as (rf & Hi & Hact).
    destruct v0; try done. apply bind_Some in Hact as (args1 & Hargs & [= <-]). cbn in Hv.
    apply lookup_insert_Some in Hv as [[[= -> -> ->] [= ->]]|[_ Hv]]; [right|by left].
    cbn. intros rf0 Hrf0 _ _. rewrite Hi in Hrf0. injection Hrf0 as <-.
    destruct (l1_snap _ _ _ H1 k rf Hi) as [Hs Hst]. destruct (i_node _ _ Hinv k rf Hi) as (_ & _ & Hrec).
    eapply voteArgs_describes; [apply (rec_wf _ Hrec)|done..].
  - left. apply bind_Some in Hact as (v0 & Hv0 & Hact). apply bind_Some in Hact as (rf & Hi & Hact).
    destruct v0; try done. apply bind_Some in Hact as ([rf' reply] & Heq & [= <-]).
    eapply (Hset _ _ (set_node j1 rf' s.(cl))); [|done|exact Hv]; done.
  - left. apply bind_Some in Hact as (v0 & Hv0 & Hact).
    destruct v0; try done; injection Hact as <-; (eapply (Hset _ _ s.(cl)); [|done|exact Hv]; done).
  - left. apply bind_Some in Hact as (v0 & Hv0 & Hact). apply bind_Some in Hact as (rf & Hi & Hact).
    destruct v0 as [| |ok reply| |]; try done. injection Hact as <-.
    eapply (Hset _ _ (set_node i _ s.(cl))); [|done|exact Hv]. cbn. by destruct (_ && _ && _).
  - left. apply bind_Some in Hact as (w & Hw & Hact). apply bind_Some in Hact as (rf & Hi & Hact).
    case_match; by injection Hact as <-.
  - left. apply bind_Some in Hact as (w & Hw & Hact). apply bind_Some in Hact as (rf & Hi & Hact).
    repeat case_match; simplify_eq; done.
Qed.

Lemma act_votes_ok n g s a c :
  lay1 n g s → lay2 n g s → lay3 n g s → act true a s.(cl) = Some c →
  (∀ k rf', c.(nodes) !! k = Some rf' → rf'.(tp) = 1 →
     ∃ rf, s.(cl).(nodes) !! k = Some rf ∧ rf.(currentTerm) ≤ rf'.(currentTerm) ∧
       (rf'.(currentTerm) = rf.(currentTerm) → rf.(tp) = 1 ∧ rf'.(log) = rf.(log))) →
  votes_ok n g s (set_cl c s).
Proof.
  intros H1 H2 H3 Hact Hcand k T' j v Hv Hg. pose proof (l1_inv _ _ _ H1) as Hinv.
  destruct (act_grant _ _ _ _ _ _ _ _ Hinv Hact Hv Hg)
    as [?|[(r & args & rf & rf1 & reply & Hsent & Hj & Heq & Hgr)|(-> & rf & Hk & -> & Hk')]]; [by left|right..].
  - intros rk' T p Hk Htp HT Hlt Hack.
    destruct (Hcand k rk' Hk Htp) as (rk & Hrk & Hle & Hsame).
    destruct (i_vote _ _ Hinv _ _ _ _ Hsent) as (_ & _ & _ & Hle0 & _). specialize (Hle0 rk Hrk).
    destruct Hsame as [Htp0 ->]; [lia|].
    destruct (i_node _ _ Hinv j rf Hj) as (_ & _ & Hrec). destruct (l1_snap _ _ _ H1 j rf Hj) as [Hs Hst].
    pose proof (l3_args _ _ _ H3 k T' j args rk Hsent Hrk Htp0 ltac:(lia)) as Hd.
    destruct (RequestVote_spec r args rf (rec_wf _ Hrec))
      as (rf2 & g2 & Heq2 & _ & _ & _ & _ & _ & _ & _ & _ & _ & Hiff).
    rewrite Heq in Heq2. injection Heq2 as <- Hrep. rewrite Hrep in Hgr. cbn in Hgr.
    destruct (proj1 Hiff Hgr) as (_ & _ & t & Ht & Hup).
    rewrite (absTerm_last rf (rec_wf _ Hrec) Hs Hst) in Ht. unfold lastLogIndex in Hup. rewrite Hs, Z.add_0_r in Hup.
    destruct (l2_ack _ _ _ H2 _ _ _ Hack) as (_ & Hp & _).
    destruct (l1_node _ _ _ H1 k rk Hrk) as (Hh & _ & _).
    by apply (vote_safe n g s j rf rk.(log) args t T p).
  - intros rk' T p Hk1 Htp HT Hlt Hack. cbn in Hk1. rewrite Hk' in Hk1. injection Hk1 as <-.
    by apply (l3_held _ _ _ H3 k rf).
Qed.

Lemma lay3_base n g s a c :
  lay1 n g s → lay2 n g s → lay3 n g s → base a = true → act true a s.(cl) = Some c →
  lay1 n (observe g (set_cl c s)) (set_cl c s) → lay3 n (observe g (set_cl c s)) (set_cl c s).
Proof.
  intros H1 H2 H3 Hb Hact H1'. pose proof (l1_inv _ _ _ H1) as Hinv.
  assert (∀ i0, others i0 s (set_cl c s) → onward s (set_cl c s) →
    (∀ rf rf', s.(cl).(nodes) !! i0 = Some rf → c.(nodes) !! i0 = Some rf' →
       change3 n g s (set_cl c s) i0 rf rf') →
    leads_ok n (observe g (set_cl c s)) (set_cl c s) → lay3 n (observe g (set_cl c s)) (set_cl c s)) as Hdone.
  { intros i0 Hoth Hon Hch Hl. apply (lay3_step n g s (set_cl c s) i0); try done.
    - by apply (act_args n g s a).
    - eapply act_votes_ok; [done..|]. intros k rf' Hk Htp. by eapply (cand_back n g s (set_cl c s) i0).
    - intros id f k args Hf _. by left. }
  destruct (act_change n a _ _ Hinv Hb Hact) as [Heq|(i & rf & rf' & Hi & Heq & Hch)].
  - assert (onward s (set_cl c s)) as Hon by by apply onward_same.
    apply (Hdone 0%nat); [by intros k _; cbn; rewrite Heq|done|..].
    + intros rf rf' Hrf Hrf'. rewrite Heq in Hrf'. simplify_eq.
      apply change3_still; [done..|apply still_refl].
    + apply (leads_ok_same n g s); [done..|]. intros T L [?|(j & rj & Hj & Htp & -> & ->)]; [done|].
      cbn in Hj. rewrite Heq in Hj. by apply (l1_node _ _ _ H1 j rj).
  - assert (c.(nodes) !! i = Some rf') as Hi'.
    { rewrite Heq. apply list_lookup_insert_eq. by eapply lookup_lt_Some. }
    assert (others i s (set_cl c s)) as Hoth.
    { intros k Hk. cbn. rewrite Heq. by rewrite list_lookup_insert_ne by done. }
    assert (∀ P : Raft → Raft → Prop, P rf rf' → ∀ r1 r2, s.(cl).(nodes) !! i = Some r1 →
      c.(nodes) !! i = Some r2 → P r1 r2) as Hat by (intros; by simplify_eq).
    pose proof (onward_one s (set_cl c s) i rf rf' Hi Heq) as Hon.
    destruct Hch as [rf' Hst|rf' Hcr|cmd rf' res Hd Htp Hstart|Htp Hmaj].
    + specialize (Hon (ca_term _ _ (st_calm _ _ Hst))).
      apply (Hdone i Hoth Hon); [apply (Hat (change3 n g s (set_cl c s) i)); by apply change3_still|].
      apply (leads_ok_same n g s); [done..|]. eapply leads_same; [done..|]. intros Htp'.
      destruct (ca_lead _ _ (st_calm _ _ Hst) Htp'). split_and!; [done..|apply (ca_log _ _ (st_calm _ _ Hst))].
    + destruct Hcr as [Hcalm Htp' _ Hci Hap]. specialize (Hon (ca_term _ _ Hcalm)).
      destruct (i_node _ _ Hinv i rf Hi) as (_ & _ & Hrec). pose proof (wf_commit _ (rec_wf _ Hrec)).
      apply (Hdone i Hoth Hon).
      * apply (Hat (change3 n g s (set_cl c s) i)). apply change3_quiet; [done..|]. right. destruct (l1_snap _ _ _ H1 i rf Hi) as [<- _]. done.
      * apply (leads_ok_same n g s); [done..|]. eapply leads_same; [done..|]. congruence.
    + destruct (Start_log _ _ _ _ Hd Htp Hstart) as (Hl & _ & _ & Ht & Htp' & _ & _ & Hci & Hap & _).
      specialize (Hon ltac:(lia)). apply (Hdone i Hoth Hon).
      * apply (Hat (change3 n g s (set_cl c s) i)). eapply change3_grow; [done..|lia|congruence|by left].
      * by eapply leads_ok_start.
    + specialize (Hon ltac:(done)). destruct (i_node _ _ Hinv i rf Hi) as (_ & Hp & _).
      apply (Hdone i Hoth Hon).
      * apply (Hat (change3 n g s (set_cl c s) i)). eapply (change3_grow _ _ _ _ _ _ _ []); [done..|by rewrite app_nil_r|done|done|by left].
      * assert (elected n s.(cl) i rf.(currentTerm)) as Hel.
        { split; [by rewrite <- (i_len _ _ Hinv); eapply lookup_lt_Some|].
          rewrite (i_count _ _ Hinv i rf Hi Htp), Hp in Hmaj.
          pose proof (Nat.div_mod_eq n 2). pose proof (Nat.mod_upper_bound n 2 ltac:(done)). lia. }
        eapply (leads_ok_win n g s _ i rf (becomeLeader rf)); try done.
        intros L. eapply (lay1_no_leads n g s (set_cl c s) i rf L); [done| |done..|].
        { split; [by eapply inv_act|]. intros. by eapply act_elected. }
        by eapply act_elected.
Qed.

(** *** The follower handles a call *)

Lemma on_time_spec s r id f k args rf p e :
  on_time s (NServe r id) = true → s.(flights) !! id = Some f → f.(f_state) = FAppendSent k args →
  s.(cl).(nodes) !! f.(f_server) = Some rf → bare args = true → zget rf.(log) p = Some e →
  e.(Log.Term) = args.(RequestAppendArgs.Term) → p ≤ lastOf args.
Proof.
  intros Hon Hf Hst Hi Hb He Ht. unfold on_time in Hon. rewrite Hf, Hst, Hi, Hb in Hon. cbn [negb orb] in Hon.
  rewrite forallb_forall in Hon. specialize (Hon p). rewrite He, Ht, Z.eqb_refl in Hon. cbn in Hon.
  apply Z.leb_le, Hon, list_elem_of_In, elem_of_zrange.
  pose proof (zget_Some_range _ _ _ He). lia.
Qed.

Lemma foldM_log {B} (h : Raft → B → option Raft) rf js rf' :
  (∀ rf x rf', h rf x = Some rf' → rf'.(log) = rf.(log)) → foldM h rf js = Some rf' → rf'.(log) = rf.(log).
Proof.
  intros Hh. revert rf. induction js as [|j js IH]; intros rf Heq; cbn [foldM] in Heq; [by injection Heq as <-|].
  apply bind_Some in Heq as (rf1 & Heq1 & Heq). rewrite (IH rf1 Heq). by apply Hh in Heq1.
Qed.

Lemma ae_commit_log args rf rf' : ae_commit args rf = Some rf' → rf'.(log) = rf.(log).
Proof.
  unfold ae_commit. intros Heq. case_match; [|by injection Heq as <-].
  apply foldM_log in Heq; [done|]. intros r1 x r2. unfold applyTwice, applyAt. intros. by unbind.
Qed.

(** A call whose last entry the follower has, of the call's term and not as its last,
    leaves the log alone. *)
Lemma AppendEntries_keeps r args rf rf' reply :
  AppendEntries r args rf = Some (rf', reply) → rf.(currentTerm) ≤ args.(RequestAppendArgs.Term) →
  rf.(snapshotIndex) = 0 → lastOf args < zlen rf.(log) - 1 →
  Log.Term <$> zget rf.(log) (lastOf args) = Some args.(RequestAppendArgs.Term) → rf'.(log) = rf.(log).
Proof.
  intros Heq Ht Hs Hlt Hlast. unfold lastOf in *. rewrite Z.add_comm in Hlt, Hlast.
  unfold AppendEntries in Heq. destruct (Z.ltb_spec args.(RequestAppendArgs.Term) rf.(currentTerm)); [lia|].
  destruct (ae_term_log args rf) as (Hl & Hs1 & _). rewrite <- Hl in Hlt, Hlast |- *. rewrite <- Hs1 in Hs.
  set (rf1 := ae_term args rf) in *. clearbody rf1.
  assert (alreadyHave args (zlen (RequestAppendArgs.Entries args) + RequestAppendArgs.PrevLogIndex args) rf1 =
    Some true) as Hhave.
  { unfold alreadyHave. rewrite Hs, Z.add_0_r, Z.sub_0_r, (proj2 (Z.ltb_lt _ _)) by done.
    apply fmap_Some in Hlast as (e & -> & ->). cbn. by rewrite Z.eqb_refl. }
  apply bind_Some in Heq as (m & _ & Heq). destruct m; [|destruct (_ <=? _)].
  - apply bind_Some in Heq as (rf2 & H2 & Heq). apply bind_Some in Heq as (rf3 & H3 & [= <- _]).
    apply ae_commit_log in H3. unfold ae_match in H2. rewrite Hhave, Hs, Z.add_0_r in H2.
    destruct (Z.leb_spec (zlen (log rf1) - 1) (zlen (RequestAppendArgs.Entries args) + RequestAppendArgs.PrevLogIndex args));
      [lia|]. cbn in H2. injection H2 as <-. exact H3.
  - apply bind_Some in Heq as (rf2 & H2 & Heq). apply bind_Some in Heq as (rf3 & H3 & [= <- _]).
    apply ae_commit_log in H3. unfold ae_ahead in H2. rewrite Hhave, Hs, Z.add_0_r in H2.
    apply bind_Some in H2 as (rf4 & H4 & [= <-]). cbn in H3 |- *. rewrite H3.
    destruct (Z.leb_spec (zlen (log rf1) - 1) (zlen (RequestAppendArgs.Entries args) + RequestAppendArgs.PrevLogIndex args));
      [lia|]. cbn in H4. by destruct (_ <? _); injection H4 as <-.
  - by apply bind_Some in Heq as (rp & _ & [= <- _]).
Qed.

(** A candidate that gets a call of its term steps down. *)
Lemma AppendEntries_not_cand r args rf rf' reply :
  AppendEntries r args rf = Some (rf', reply) → rf.(currentTerm) ≤ args.(RequestAppendArgs.Term) →
  rf'.(tp) ≠ 1.
Proof.
  intros Heq Ht. destruct (AppendEntries_books _ _ _ _ _ Heq) as (_ & _ & _ & ->); [|done].
  unfold ae_term. destruct (Z.ltb_spec rf.(currentTerm) args.(RequestAppendArgs.Term)); [done|].
  destruct (Z.eqb_spec rf.(tp) 1); [|done].
  by rewrite (proj2 (Z.eqb_eq _ _)) by lia.
Qed.

Lemma elem_of_twice_msgs l m lo hi :
  m ∈ twice_msgs l 0 lo hi →
  ∃ e, lo ≤ m.(ApplyMsg.CommandIndex) ≤ hi ∧ zget l m.(ApplyMsg.CommandIndex) = Some e ∧
    m.(ApplyMsg.Command) = e.(Log.Command).
Proof.
  unfold twice_msgs. rewrite !Z.sub_0_r. intros (c & Hm & Hc)%list_elem_of_bind.
  apply elem_of_zrange in Hc. assert (m ∈ applyMsg l 0 c) as Hm0 by (apply elem_of_app in Hm as [?|?]; done).
  unfold applyMsg in Hm0. destruct (zget l c) as [e|] eqn:He; [|by apply elem_of_nil in Hm0].
  apply list_elem_of_singleton in Hm0 as ->. exists e. cbn. by rewrite Z.add_0_r.
Qed.

Section call.
Context (n : nat) (g : ghost) (s : net) (id : nat) (f : flight) (k : Z) (args : RequestAppendArgs.t)
  (rf : Raft) (l : list Log.t).
Context (H1 : lay1 n g s) (H2 : lay2 n g s) (H3 : lay3 n g s).
Context (Hf : s.(flights) !! id = Some f) (Hst : f.(f_state) = FAppendSent k args).
Context (Hi : s.(cl).(nodes) !! f.(f_server) = Some rf).
Context (Hl : g.(leads) args.(RequestAppendArgs.Term) l) (Hfr : from l args).
Context (Hnew : rf.(currentTerm) ≤ args.(RequestAppendArgs.Term)).

(** The call's log has what the follower has of the term. *)
Definition covers : Prop := ∀ p e, 0 < p → zget rf.(log) p = Some e →
  e.(Log.Term) = args.(RequestAppendArgs.Term) → zget l p = Some e.

(** The follower has an entry of the call's term: its log is the leader's up to there. *)
Lemma call_agree p e q x :
  0 < p → zget rf.(log) p = Some e → e.(Log.Term) = args.(RequestAppendArgs.Term) →
  q ≤ p → zget l q = Some x → zget rf.(log) q = Some x.
Proof.
  intros Hp He Ht Hq Hx. destruct (l1_node _ _ _ H1 _ rf Hi) as (Hh & _ & _).
  destruct (l1_own _ _ _ H1 _ p e Hh Hp He) as (L & HL & HLe). rewrite Ht in HL.
  rewrite (own_prefix n g s rf.(log) L p e e _ H1 Hh HL Hp He Ht HLe q Hq).
  pose proof (zget_Some_range _ _ _ HLe). pose proof (zget_Some_range _ _ _ Hx).
  destruct (zget_lt L q) as [d Hd]; [lia|].
  by rewrite Hd, (leads_agree _ _ _ _ _ _ _ _ _ H1 HL Hl Hd Hx).
Qed.

(** A call that says something of its term ends with an entry of it. *)
Lemma call_end : bare args = false → ∃ e, zget l (lastOf args) = Some e ∧
  e.(Log.Term) = args.(RequestAppendArgs.Term).
Proof.
  intros Hb. pose proof (l2_flight _ _ _ H2 id f Hf) as [_ Hfl]. rewrite Hst in Hfl.
  destruct Hfl as (_ & _ & [Hnil|(l' & e & Hl' & Hfr' & He & Het)]).
  - unfold bare in Hb. rewrite Hnil in Hb. apply negb_false_iff, Z.eqb_eq in Hb.
    pose proof (fr_term _ _ Hfr) as Hp. apply fmap_Some in Hp as (e & He & Het). exists e.
    unfold lastOf. rewrite Hnil. change (zlen (A := Log.t) []) with 0. rewrite Z.add_0_r. split; [done|congruence].
  - exists e. split; [|done]. pose proof (from_last _ _ Hfr). pose proof (zget_Some_range _ _ _ He) as Hr.
    destruct (zget_lt l (lastOf args)) as [d Hd]; [lia|].
    by rewrite Hd, (leads_agree _ _ _ _ _ _ _ _ _ H1 Hl Hl' Hd He).
Qed.

Lemma call_kept r rf' reply :
  on_time s (NServe r id) = true → AppendEntries r args rf = Some (rf', reply) →
  rf'.(log) = rf.(log) ∨ covers.
Proof.
  intros Hon Heq. destruct (l1_node _ _ _ H1 _ rf Hi) as (Hh & Hup & _).
  destruct (l1_form _ _ _ H1 _ Hh) as (_ & _ & Hsort).
  destruct (wf_last _ (l1_form _ _ _ H1 _ Hh)) as (ea & Ha & Ha0 & _). set (a := zlen rf.(log) - 1) in *.
  destruct (decide (ea.(Log.Term) = args.(RequestAppendArgs.Term) ∧ lastOf args < a)) as [[Het Hlt]|Hno].
  - left. destruct (bare args) eqn:Hb.
    { pose proof (on_time_spec _ _ _ _ _ _ _ _ _ Hon Hf Hst Hi Hb Ha Het). lia. }
    destruct (call_end Hb) as (e & He & Hee). pose proof (zget_Some_range _ _ _ He).
    destruct (l1_snap _ _ _ H1 _ rf Hi) as [Hs _].
    eapply AppendEntries_keeps; [exact Heq|done..|].
    rewrite (call_agree a ea (lastOf args) e ltac:(lia) Ha Het ltac:(lia) He). cbn. by rewrite Hee.
  - right. intros p e Hp He Ht. pose proof (zget_Some_range _ _ _ He) as Hr.
    assert (ea.(Log.Term) = args.(RequestAppendArgs.Term)) as Het.
    { pose proof (Hsort p a e ea ltac:(lia) He Ha). specialize (Hup a ea Ha). lia. }
    assert (a ≤ lastOf args) as Hle by (apply Z.nlt_ge; naive_solver).
    rewrite (from_last _ _ Hfr) in Hle. destruct (zget_lt l p) as [d Hd]; [lia|].
    rewrite (call_agree p e p d Hp He Ht ltac:(lia) Hd) in He. congruence.
Qed.

(** It has what the follower has committed. *)
Lemma call_chosen c e :
  covers → 0 < c → zget rf.(log) c = Some e → chosen n g rf.(currentTerm) c e → zget l c = Some e.
Proof.
  intros Hcov Hc He (T & p & L & HT & Hcom & HL & Hh & Hcp & HLe).
  destruct (Z.lt_ge_cases T args.(RequestAppendArgs.Term)) as [Hlt|Hge].
  - pose proof (committed_leads _ _ _ _ _ _ _ H3 Hcom Hl Hlt ltac:(lia)) as Hh'.
    rewrite <- HLe. symmetry.
    apply (holds_agree n g s L l p T c); try done; [by eapply leads_hist..|lia].
  - assert (T = args.(RequestAppendArgs.Term)) as -> by lia.
    destruct (l1_leads _ _ _ H1 _ L HL) as (_ & Hup & _). specialize (Hup c e HLe).
    destruct (decide (e.(Log.Term) = args.(RequestAppendArgs.Term))) as [Ht|Ht].
    + by apply Hcov.
    + eapply (l3_old _ _ _ H3 args.(RequestAppendArgs.Term) l L); [done..|lia].
Qed.

Lemma call_safe s' T p :
  covers → onward s s' → g.(ack) f.(f_server) T p → safe n g s rf.(log) p T → safe n (observe g s') s' l p T.
Proof.
  intros Hcov Hw Hack Hs. destruct (l2_ack _ _ _ H2 _ _ _ Hack) as ((rf0 & Hrf0 & Hle) & Hp & _). simplify_eq.
  eapply safe_mono; [done|]. destruct (decide (T = args.(RequestAppendArgs.Term))) as [->|].
  - destruct Hs as [(e & He & Het)|?]; [left|by right]. exists e. split; [by apply Hcov|done].
  - eapply (l3_leads _ _ _ H3); [done|lia|done].
Qed.
End call.

Lemma stream_twice l c c' ms :
  stream c ms → c ≤ c' → (∀ i, c < i ≤ c' → is_Some (zget l i)) →
  stream c' (ms ++ twice_msgs l 0 (c + 1) c').
Proof.
  unfold twice_msgs. rewrite !Z.sub_0_r. remember (Z.to_nat (c' - c)) as d eqn:Hd. revert c ms Hd.
  induction d as [|d IH]; intros c ms Hd Hms Hle Hl.
  - rewrite zrange_nil by lia. cbn. rewrite app_nil_r. by assert (c' = c) as -> by lia.
  - rewrite zrange_cons by lia. cbn [mbind list_bind]. rewrite app_assoc.
    destruct (Hl (c + 1)) as [e He]; [lia|].
    assert (stream (c + 1) (ms ++ applyMsg l 0 (c + 1) ++ applyMsg l 0 (c + 1))) as H1.
    { unfold applyMsg. rewrite He. cbn. eapply stream_next; [done|..|by right]; cbn; [done|lia]. }
    apply (IH (c + 1)); [lia|done|lia|]. intros i Hi. apply Hl. lia.
Qed.

Lemma change3_append n g s s' r id f k args rf rf' reply :
  lay1 n g s → lay2 n g s → lay3 n g s → on_time s (NServe r id) = true →
  s.(flights) !! id = Some f → f.(f_state) = FAppendSent k args →
  s.(cl).(nodes) !! f.(f_server) = Some rf → AppendEntries r args rf = Some (rf', reply) →
  onward s s' → change3 n g s s' f.(f_server) rf rf'.
Proof.
  intros H1 H2 H3 Htime Hf Hst Hi Heq Hon.
  destruct (Z.lt_ge_cases args.(RequestAppendArgs.Term) rf.(currentTerm)) as [Hold|Hnew].
  { rewrite (AppendEntries_old _ _ _ _ _ Heq Hold). apply change3_still; [done..|apply still_refl]. }
  destruct (l3_flight _ _ _ H3 id f k args Hf Hst) as (l & Hl & Hfr & Hch).
  destruct (i_node _ _ (l1_inv _ _ _ H1) _ rf Hi) as (_ & _ & Hrec).
  destruct (l1_snap _ _ _ H1 _ rf Hi) as [Hs _]. destruct (l1_node _ _ _ H1 _ rf Hi) as (Hh & _ & _).
  pose proof (leads_hist _ _ _ _ _ H1 Hl) as Hhl.
  pose proof (AppendEntries_from _ l _ _ _ _ (rec_wf _ Hrec) Hs
    (proj1 (l1_form _ _ _ H1 l Hhl)) (l1_match _ _ _ H1 _ _ Hh Hhl) Hfr Heq Hnew) as Hres.
  destruct (AppendEntries_role _ _ _ _ _ Heq Hnew) as (_ & _ & Ht & _).
  destruct (RequestAppendReply.Success reply); [|by apply change3_still].
  destruct Hres as (Hlog & Hci & Hap). destruct (l3_node _ _ _ H3 _ rf Hi) as [Hcom Htold].
  pose proof (call_kept n g s id f k args rf l H1 H2 Hf Hst Hi Hl Hfr Hnew r rf' reply Htime Heq) as Hkept.
  pose proof (wf_commit _ (rec_wf _ Hrec)) as Hc0. rewrite Hs in Hc0.
  assert (∀ c e, 0 < c → zget rf.(log) c = Some e → chosen n g rf.(currentTerm) c e → zget rf'.(log) c = Some e)
    as Hkeep.
  { intros c e Hc He Hce. destruct Hkept as [->|Hcov]; [done|]. destruct Hlog as [->|[-> _]]; [|done].
    eapply (call_chosen n g s); eassumption. }
  assert (∀ c e, 0 < c ≤ args.(RequestAppendArgs.LeaderCommit) → zget l c = Some e → zget rf'.(log) c = Some e)
    as Hget.
  { intros c e Hc He. destruct Hlog as [->|[-> [[Hnil Hprev]|[Hlast _]]]]; [done|exfalso|].
    - pose proof (from_last _ _ Hfr) as Hll. unfold lastOf in Hll. rewrite Hnil, Hprev in Hll.
      change (zlen (A := Log.t) []) with 0 in Hll. pose proof (zget_Some_range _ _ _ He). lia.
    - apply fmap_Some in Hlast as (d & Hd & Hdt). pose proof (zget_Some_range _ _ _ He) as Hr.
      rewrite (from_last _ _ Hfr) in Hd. destruct (zget_lt l (zlen l - 1)) as [d' Hd']; [lia|].
      by rewrite (own_prefix n g s rf.(log) l (zlen l - 1) d d' _ H1 Hh Hl ltac:(lia) Hd (eq_sym Hdt) Hd') by lia. }
  assert (∀ c, 0 < c ≤ rf'.(commitIndex) → ∃ e, zget rf'.(log) c = Some e ∧
    chosen n (observe g s') rf'.(currentTerm) c e) as Hall.
  { intros c Hc. rewrite Ht. destruct (Z.le_gt_cases c rf.(commitIndex)) as [Hle|Hgt].
    - destruct (Hcom c) as (e & He & Hce); [lia|]. exists e. split; [apply Hkeep; [lia|done..]|].
      by eapply chosen_mono.
    - rewrite Hci in Hc. destruct (Z.ltb_spec rf.(commitIndex) args.(RequestAppendArgs.LeaderCommit)); [|lia].
      destruct (Hch c) as (e & He & Hce); [lia|]. exists e. split; [apply Hget; [lia|done]|].
      by (eapply chosen_mono; [|exact Hce]; lia). }
  split.
  - intros T p Hack Hsafe. destruct Hkept as [->|Hcov]; [by eapply safe_mono|].
    destruct Hlog as [->|[-> _]]; [|by eapply safe_mono].
    eapply (call_safe n g s); eassumption.
  - intros Htp. by destruct (AppendEntries_not_cand _ _ _ _ _ Heq Hnew).
  - exact Hall.
  - intros m Hm. rewrite Hap in Hm. apply elem_of_app in Hm as [Hm|Hm]; [by apply told_mono, Htold|].
    apply elem_of_twice_msgs in Hm as (e & Hm & He & Hcmd).
    destruct (Hall m.(ApplyMsg.CommandIndex)) as (d & Hd & Hce); [lia|].
    rewrite He in Hd. injection Hd as <-. by exists rf'.(currentTerm), e.
  - rewrite Hap. intros Hstr. apply stream_twice; [done| |].
    + rewrite Hci. destruct (Z.ltb_spec rf.(commitIndex) args.(RequestAppendArgs.LeaderCommit)); [|lia].
      pose proof (wf_log_len _ (rec_wf _ Hrec)).
      destruct (decide (rf.(commitIndex) = 0)) as [E|Hpos].
      * destruct Hlog as [Hlog|[Hlog _]]; rewrite Hlog; [|lia].
        destruct (l1_form _ _ _ H1 l Hhl) as ([q ->] & _). zlen_lia.
      * destruct (Hcom rf.(commitIndex)) as (e & He & Hce); [lia|].
        pose proof (zget_Some_range _ _ _ (Hkeep rf.(commitIndex) e ltac:(lia) He Hce)). lia.
    + intros c Hc. destruct (Hall c) as (e & He & _); [lia|]. by exists e.
Qed.

(** *** The leader handles an answer *)

Lemma count_if_index {A} (h : A → bool) (l : list A) :
  count_if h l = count_if (λ j, match l !! j with Some x => h x | None => false end) (seq 0 (length l)).
Proof.
  unfold count_if. induction l as [|x l IH] using rev_ind; [done|].
  rewrite length_app, seq_app, !List.filter_app, !length_app, IH. cbn [length seq List.filter].
  rewrite Nat.add_0_l, list_lookup_middle by done. f_equal; [|by destruct (h x)].
  f_equal. apply List.filter_ext_in. intros j Hj%in_seq. by rewrite lookup_app_l by lia.
Qed.

(** What the commit rule takes as committed is. *)
Lemma median_committed n g s i rf T temp :
  lay1 n g s → lay2 n g s → Nat.Odd n → rf.(peers) = n → length rf.(matchIndex) = n →
  acked g i T rf.(matchIndex) → medianMatch rf = Some temp → 0 < temp → committed n g T temp ∧ g.(ack) i T temp.
Proof.
  intros H1 H2 [h Hodd] Hp Hlen Hack Hm Hpos.
  assert (g.(ack) i T temp) as Hi.
  { apply medianMatch_member, list_elem_of_lookup in Hm as [j Hj].
    by destruct (Hack j _ Hj) as [?|(_ & _ & ?)]; [lia|]. }
  split; [|done].
  destruct (medianMatch_spec rf) as (temp' & Hm' & Hmaj & _); [congruence|lia|].
  rewrite Hm in Hm'. injection Hm' as <-.
  unfold replicas in Hmaj. rewrite count_if_index in Hmaj.
  set (h' := λ j, match rf.(matchIndex) !! j with Some x => _ | None => _ end) in Hmaj.
  destruct (count_if_filter h' (seq 0 (length rf.(matchIndex)))) as (q & Hnd & Hq & Hmem); [apply NoDup_seq|].
  assert (rf.(peers) / 2 = h)%nat as Hdiv.
  { rewrite Hp, Hodd, Nat.add_comm, Nat.mul_comm, Nat.div_add by lia. done. }
  exists q. split_and!; [done|lia| |].
  - apply Forall_forall. intros j Hj. apply Hmem in Hj as [Hj _]. apply elem_of_seq in Hj. lia.
  - intros j Hj. apply Hmem in Hj as [_ Hj]. unfold h' in Hj.
    destruct (rf.(matchIndex) !! j) as [x|] eqn:Hx; [|done]. apply Z.leb_le in Hj.
    destruct (Hack j x Hx) as [?|(_ & Hjx & _)]; [lia|].
    destruct (l2_ack _ _ _ H2 _ _ _ Hjx) as (_ & _ & L & e & HL & He & Het & Hall).
    destruct (l2_ack _ _ _ H2 _ _ _ Hi) as (_ & _ & L' & e' & HL' & He' & Het' & _).
    pose proof (zget_Some_range _ _ _ He). destruct (zget_lt L temp) as [d Hd]; [lia|].
    apply (Hall temp d); [lia|done|].
    by rewrite (leads_agree _ _ _ _ _ _ _ _ _ H1 HL HL' Hd He').
Qed.

(** What is committed is in the log of the peers that have acknowledged it. *)
Lemma committed_held n g s i rf T p c :
  lay1 n g s → lay2 n g s → lay3 n g s → s.(cl).(nodes) !! i = Some rf →
  committed n g T p → g.(ack) i T p → 0 < c ≤ p → ∃ e, zget rf.(log) c = Some e ∧ chosen n g T c e.
Proof.
  intros H1 H2 H3 Hi Hcom Hack Hc.
  destruct (l2_ack _ _ _ H2 _ _ _ Hack) as (_ & _ & L & e & HL & He & Het & _).
  assert (holds L p T) as HhL by by exists e.
  destruct (l3_held _ _ _ H3 i rf T p Hi Hack) as [Hh|Hr]; [|by apply committed_not_refused in Hr].
  pose proof (zget_Some_range _ _ _ He). destruct (zget_lt L c) as [d Hd]; [lia|]. exists d. split.
  - rewrite <- Hd. apply (holds_agree n g s rf.(log) L p T c); try done; [|by eapply leads_hist|lia].
    by apply (l1_node _ _ _ H1 i rf).
  - exists T, p, L. split_and!; [lia|done..|lia|lia|done].
Qed.

(** [m] was not applied before, or is the entry of [l] at its index, in the range. *)
Definition new_from (l : list Log.t) (lo hi : Z) (ms : list ApplyMsg.t) (m : ApplyMsg.t) : Prop :=
  m ∈ ms ∨ ∃ e, lo < m.(ApplyMsg.CommandIndex) ≤ hi ∧
    zget l m.(ApplyMsg.CommandIndex) = Some e ∧ m.(ApplyMsg.Command) = e.(Log.Command).

Lemma foldM_applyAt_new rf lo hi js rf' m :
  rf.(snapshotIndex) = 0 → Forall (λ j, lo < j ≤ hi) js → foldM applyAt rf js = Some rf' →
  m ∈ applies rf'.(out) → new_from rf.(log) lo hi (applies rf.(out)) m.
Proof.
  intros Hs Hjs. revert rf Hs. induction Hjs as [|j js Hj _ IH]; intros rf Hs Heq Hm; cbn [foldM] in Heq.
  { injection Heq as <-. by left. }
  apply bind_Some in Heq as (rf1 & H1 & Heq).
  unfold applyAt in H1. apply bind_Some in H1 as (e & He & [= <-]).
  match type of Heq with foldM _ ?rf1 _ = _ =>
    assert (snapshotIndex rf1 = 0) as Hs1 by done end.
  destruct (IH _ Hs1 Heq Hm) as [Hold|Hnew]; [|by right].
  cbn in Hold. rewrite applies_app in Hold. apply elem_of_app in Hold as [?|Hnew]; [by left|right].
  cbn in Hnew. apply list_elem_of_singleton in Hnew as ->. cbn. rewrite Hs, Z.add_0_r. by exists e.
Qed.

Lemma foldM_applyAt_stream rf c c' rf' :
  rf.(snapshotIndex) = 0 → c ≤ c' → foldM applyAt rf (zrange (c + 1) c') = Some rf' →
  stream c (applies rf.(out)) → stream c' (applies rf'.(out)).
Proof.
  remember (Z.to_nat (c' - c)) as d eqn:Hd. revert c rf Hd.
  induction d as [|d IH]; intros c rf Hd Hs Hle Heq Hstr.
  - rewrite zrange_nil in Heq by lia. injection Heq as <-. by assert (c' = c) as -> by lia.
  - rewrite zrange_cons in Heq by lia. cbn [foldM] in Heq. apply bind_Some in Heq as (rf1 & H1 & Heq).
    assert (rf1.(snapshotIndex) = 0 ∧ stream (c + 1) (applies rf1.(out))) as [Hs1 Hstr1].
    { clear Heq. unfold applyAt in H1. apply bind_Some in H1 as (e & He & [= <-]). split; [done|].
      cbn. rewrite applies_app. eapply stream_next; [done|..|by left]; cbn; [done|lia]. }
    by apply (IH (c + 1) rf1); [lia|done|lia|..].
Qed.

Lemma updateCommit_new rf rf' m :
  rf.(snapshotIndex) = 0 → updateCommit rf = Some rf' → m ∈ applies rf'.(out) →
  new_from rf.(log) rf.(commitIndex) rf'.(commitIndex) (applies rf.(out)) m.
Proof.
  intros Hs Heq Hm. destruct (updateCommit_median _ _ Heq) as (temp & Hmed & Hci).
  unfold updateCommit in Heq. rewrite Hmed in Heq. cbn [mbind option_bind] in Heq.
  set (rf1 := if _ <? temp then _ else _) in *.
  assert (rf1.(commitIndex) = rf'.(commitIndex) ∧ rf1.(log) = rf.(log) ∧ rf1.(out) = rf.(out) ∧
    rf1.(snapshotIndex) = 0) as (E1 & E2 & E3 & E4).
  { subst rf1. rewrite Hci. clear Heq Hci. destruct (Z.ltb_spec (commitIndex rf) temp); cbn; split_and!; try done; lia. }
  clearbody rf1. rewrite E4, !Z.sub_0_r, E1 in Heq. rewrite <- E2, <- E3.
  destruct (0 <=? commitIndex rf); [|injection Heq as <-; by left].
  eapply foldM_applyAt_new; [done| |exact Heq|done].
  apply Forall_forall. intros j Hj%elem_of_zrange. lia.
Qed.

Lemma updateCommit_stream rf rf' :
  rf.(snapshotIndex) = 0 → 0 ≤ rf.(commitIndex) → updateCommit rf = Some rf' →
  stream rf.(commitIndex) (applies rf.(out)) → stream rf'.(commitIndex) (applies rf'.(out)).
Proof.
  intros Hs H0 Heq Hstr. destruct (updateCommit_median _ _ Heq) as (temp & Hmed & Hci).
  unfold updateCommit in Heq. rewrite Hmed in Heq. cbn [mbind option_bind] in Heq.
  set (rf1 := if _ <? temp then _ else _) in *.
  assert (rf1.(commitIndex) = rf'.(commitIndex) ∧ rf1.(out) = rf.(out) ∧ rf1.(snapshotIndex) = 0) as (E1 & E3 & E4).
  { subst rf1. rewrite Hci. clear Heq Hci. destruct (Z.ltb_spec (commitIndex rf) temp); cbn; split_and!; try done; lia. }
  clearbody rf1. rewrite E4, !Z.sub_0_r, E1, (proj2 (Z.leb_le _ _)) in Heq by done.
  eapply foldM_applyAt_stream; [exact E4| |exact Heq|by rewrite E3]. lia.
Qed.

Lemma commits_stream rf rf' :
  commits rf rf' → rf.(snapshotIndex) = 0 → 0 ≤ rf.(commitIndex) →
  stream rf.(commitIndex) (applies rf.(out)) → stream rf'.(commitIndex) (applies rf'.(out)).
Proof.
  intros Hc. induction Hc as [rf|rf rf1 rf2 H1 Hc IH]; intros Hs H0 Hstr; [done|].
  pose proof (updateCommit_frame _ _ H1) as Hf. destruct (updateCommit_median _ _ H1) as (t & _ & Hci).
  apply IH; [by rewrite Hf|lia|]. by eapply updateCommit_stream.
Qed.

Lemma commits_new rf rf' m :
  commits rf rf' → rf.(snapshotIndex) = 0 → m ∈ applies rf'.(out) →
  new_from rf.(log) rf.(commitIndex) rf'.(commitIndex) (applies rf.(out)) m.
Proof.
  intros Hc. induction Hc as [rf|rf rf1 rf2 H1 Hc IH]; intros Hs Hm; [by left|].
  pose proof (updateCommit_frame _ _ H1) as Hf. destruct (updateCommit_median _ _ H1) as (t & _ & Hci).
  assert (rf1.(log) = rf.(log) ∧ rf1.(snapshotIndex) = 0) as [El Es] by (split; by rewrite Hf).
  assert (rf1.(commitIndex) ≤ rf2.(commitIndex)) as Hle by (destruct (commits_median _ _ Hc) as [?|[? _]]; lia).
  destruct (IH Es Hm) as [Hold|(e & Hr & He & ?)].
  - destruct (updateCommit_new rf rf1 m Hs H1 Hold) as [?|(e & Hr & ?)]; [by left|right].
    exists e. split; [lia|done].
  - right. exists e. rewrite El in He. split; [lia|done].
Qed.

Lemma appendReply_new r server t ok args reply rf rf' m :
  rf.(snapshotIndex) = 0 → appendReply r server t ok args reply rf = Some rf' → m ∈ applies rf'.(out) →
  new_from rf.(log) rf.(commitIndex) rf'.(commitIndex) (applies rf.(out)) m.
Proof.
  intros Hs Heq Hm. destruct (appendReply_answer _ _ _ _ _ _ _ _ Hs Heq) as [[_ ->]|(_ & rf0 & Ha & Hc)]; [by left|].
  assert (rf0.(log) = rf.(log) ∧ rf0.(snapshotIndex) = 0 ∧ applies rf0.(out) = applies rf.(out)) as (E1 & E2 & E3).
  { destruct Ha as [? [[] ? ? ? ? ? ?]|? ?|]; [|done..]. split_and!; [done|congruence|done]. }
  rewrite <- E1, <- E3, <- (answer_commit _ _ _ _ _ _ _ Ha). by apply commits_new.
Qed.

Lemma appendReply_stream r server t ok args reply rf rf' :
  rf.(snapshotIndex) = 0 → 0 ≤ rf.(commitIndex) → appendReply r server t ok args reply rf = Some rf' →
  stream rf.(commitIndex) (applies rf.(out)) → stream rf'.(commitIndex) (applies rf'.(out)).
Proof.
  intros Hs H0 Heq Hstr. destruct (appendReply_answer _ _ _ _ _ _ _ _ Hs Heq) as [[_ ->]|(_ & rf0 & Ha & Hc)]; [done|].
  pose proof (answer_commit _ _ _ _ _ _ _ Ha) as E1.
  assert (rf0.(snapshotIndex) = 0 ∧ applies rf0.(out) = applies rf.(out)) as [E2 E3].
  { destruct Ha as [? [[] ? ? ? ? ? ?]|? ?|]; [|done..]. split; [congruence|done]. }
  eapply commits_stream; [done..|lia|]. by rewrite E1, E3.
Qed.

Lemma change3_reply n g s s' id f k ok args reply r rf rf' :
  lay1 n g s → lay1 n (observe g s') s' → lay2 n g s → lay3 n g s → Nat.Odd n →
  s.(flights) !! id = Some f → f.(f_state) = FAppendReplied k ok args reply →
  s.(cl).(nodes) !! f.(f_leader) = Some rf → s'.(cl).(nodes) !! f.(f_leader) = Some rf' →
  appendReply r (Z.of_nat f.(f_server)) f.(f_term) ok args reply rf = Some rf' →
  onward s s' → change3 n g s s' f.(f_leader) rf rf'.
Proof.
  intros H1 H1' H2 H3 Hodd Hf Hst Hi Hi' Heq Hon. destruct (l1_snap _ _ _ H1 _ rf Hi) as [Hs _].
  pose proof (appendReply_calm _ _ _ _ _ _ _ _ Hs Heq) as [Hlog _ _ Hle Hc _].
  destruct (l3_node _ _ _ H3 _ rf Hi) as [Hcom Htold].
  assert (∀ c, 0 < c ≤ rf'.(commitIndex) → ∃ e, zget rf'.(log) c = Some e ∧
    chosen n (observe g s') rf'.(currentTerm) c e) as Hall.
  { intros c Hc0. rewrite Hlog.
    destruct (appendReply_commit _ _ _ _ _ _ _ _ Hs Heq) as [E|(Hlt & Hm & Hsa)].
    - rewrite E in Hc0. destruct (Hcom c Hc0) as (e & ? & ?). exists e. split; [done|]. by eapply chosen_mono.
    - destruct (appendReply_books _ _ _ _ _ _ _ _ _ _ _ _ H1 H2 Hf Hst Hi Heq) as [_ Hb].
      destruct (bk_match _ _ _ Hb Hsa) as (T & HT & _ & Hack).
      destruct (i_node _ _ (l1_inv _ _ _ H1') _ rf' Hi') as (_ & Hp & Hrec).
      destruct (median_committed n g s f.(f_leader) rf' T rf'.(commitIndex) H1 H2 Hodd Hp) as [Hcm Hme]; try done; [|lia|].
      { rewrite <- Hp. apply wf_match, (rec_wf _ Hrec). }
      destruct (committed_held n g s f.(f_leader) rf T rf'.(commitIndex) c H1 H2 H3 Hi Hcm Hme Hc0) as (e & ? & ?).
      exists e. split; [done|]. by eapply chosen_mono. }
  split.
  - intros T p _ Hsafe. rewrite Hlog. by eapply safe_mono.
  - intros Htp HT. split; [by apply Hc|done].
  - exact Hall.
  - intros m Hm. destruct (appendReply_new _ _ _ _ _ _ _ _ m Hs Heq Hm) as [Hold|(e & Hr & He & Hcmd)];
      [by apply told_mono, Htold|].
    destruct (i_node _ _ (l1_inv _ _ _ H1) _ rf Hi) as (_ & _ & Hrec). pose proof (wf_commit _ (rec_wf _ Hrec)).
    destruct (Hall m.(ApplyMsg.CommandIndex)) as (d & Hd & Hce); [lia|].
    rewrite Hlog, He in Hd. injection Hd as <-. by exists rf'.(currentTerm), e.
  - destruct (i_node _ _ (l1_inv _ _ _ H1) _ rf Hi) as (_ & _ & Hrec). pose proof (wf_commit _ (rec_wf _ Hrec)).
    by apply (appendReply_stream _ _ _ _ _ _ _ _ Hs ltac:(lia) Heq).
Qed.

(** *** Every step *)

(** A step of a flight: the votes are as before, one peer changes. *)
Lemma lay3_one n g s s' i rf rf' :
  lay1 n g s → lay1 n (observe g s') s' → lay3 n g s →
  s.(cl).(nodes) !! i = Some rf → s'.(cl).(nodes) = <[i := rf']> s.(cl).(nodes) →
  s'.(cl).(votes) = s.(cl).(votes) → rf.(currentTerm) ≤ rf'.(currentTerm) →
  (onward s s' → change3 n g s s' i rf rf') →
  (rf'.(tp) = 2 → rf.(tp) = 2 ∧ rf'.(currentTerm) = rf.(currentTerm) ∧ rf'.(log) = rf.(log)) →
  flights_ok3 n (observe g s') s s' → lay3 n (observe g s') s'.
Proof.
  intros H1 H1' H3 Hi Heq Hv Hle Hch Hlead Hfl.
  pose proof (onward_one s s' i rf rf' Hi Heq Hle) as Hon.
  assert (s'.(cl).(nodes) !! i = Some rf') as Hi'.
  { rewrite Heq. apply list_lookup_insert_eq. by eapply lookup_lt_Some. }
  assert (others i s s') as Hoth.
  { intros k Hk. rewrite Heq. by rewrite list_lookup_insert_ne by done. }
  apply (lay3_step n g s s' i); try done.
  - intros r1 r2 Hr1 Hr2. simplify_eq. by apply Hch.
  - apply (leads_ok_same n g s); [done..|]. by apply (leads_same n g s s' i rf rf').
  - intros k T j args Ha. left. by rewrite <- Hv.
  - intros k T j v Ha Hg. left. exists v. by rewrite <- Hv.
Qed.

Lemma lay3_none n g s s' :
  lay1 n g s → lay1 n (observe g s') s' → lay3 n g s → s'.(cl) = s.(cl) →
  flights_ok3 n (observe g s') s s' → lay3 n (observe g s') s'.
Proof.
  intros H1 H1' H3 Heq Hfl. assert (onward s s') as Hon by (apply onward_same; by rewrite Heq).
  apply (lay3_step n g s s' 0); try done.
  - intros k _. by rewrite Heq.
  - intros r1 r2 Hr1 Hr2. rewrite Heq in Hr2. simplify_eq. apply change3_still; [done..|apply still_refl].
  - apply (leads_ok_same n g s); [done..|]. intros T L [?|(j & rj & Hj & Htp & -> & ->)]; [done|].
    rewrite Heq in Hj. by apply (l1_node _ _ _ H1 j rj).
  - intros k T j args Ha. left. by rewrite <- Heq.
  - intros k T j v Ha Hg. left. exists v. by rewrite <- Heq.
Qed.

(** Flights but for one that is not a new call. *)
Lemma flights_ok3_insert n g s s' id f :
  s'.(flights) = <[id := f]> s.(flights) → (∀ k args, f.(f_state) ≠ FAppendSent k args) →
  flights_ok3 n g s s'.
Proof.
  intros Heq Hno id' f' k args. rewrite Heq. intros [[<- <-]|[_ ?]]%lookup_insert_Some Hst; [|by left].
  by destruct (Hno k args).
Qed.

(** A round starts. *)
Lemma lay3_top n g late s s' i server t id :
  Nat.Odd n → lay1 n g s → lay1 n (observe g s') s' → lay2 n g s → lay3 n g s → on_time s (NTop i server t id) = true →
  nact late true (NTop i server t id) s = Some s' → lay3 n (observe g s') s'.
Proof.
  intros Hodd H1 H1' H2 H3 Htime Hn. cbn [nact] in Hn.
  apply bind_Some in Hn as (rf & Hi & Hn). case_bool_decide as Hg; [|done].
  apply bind_Some in Hn as ([rf1 rd] & _ & Hn).
  destruct rd; simplify_eq; (eapply lay3_none; [done..|]); by eapply flights_ok3_insert.
Qed.

(** A call is built. *)
Lemma lay3_args n g late s s' id :
  Nat.Odd n → lay1 n g s → lay1 n (observe g s') s' → lay2 n g s → lay3 n g s → on_time s (NArgs id) = true →
  nact late true (NArgs id) s = Some s' → lay3 n (observe g s') s'.
Proof.
  intros Hodd H1 H1' H2 H3 Htime Hn. cbn [nact] in Hn.
  apply bind_Some in Hn as (f & Hf & Hn). apply bind_Some in Hn as (rf & Hi & Hn).
  destruct (i_node _ _ (l1_inv _ _ _ H1) _ _ Hi) as (_ & _ & Hrec).
  destruct (l1_snap _ _ _ H1 _ _ Hi) as [Hs Hst].
  destruct (f_state f); try done; [apply bind_Some in Hn as (a & Ha & Hn)|]; simplify_eq;
    (eapply lay3_none; [done..|]); [|by eapply flights_ok3_insert].
  destruct a as [args|]; [|by eapply flights_ok3_insert].
  intros id' f' k args'. cbn. intros [[<- <-]|[_ ?]]%lookup_insert_Some Hst'; [right|by left].
  cbn in Hst'. injection Hst' as <- <-.
  destruct (appendArgs_from _ _ _ (rec_wf _ Hrec) Hs Hst Ha) as (Htp & Ht & Hfr & Hlc & _).
  destruct (l3_node _ _ _ H3 _ rf Hi) as [Hcom _]. exists rf.(log). rewrite Ht, Hlc.
  split_and!; [left; by apply (l1_node _ _ _ H1 _ rf Hi)|done|].
  intros c Hc. destruct (Hcom c Hc) as (e & ? & ?). exists e. split; [done|]. by eapply chosen_mono.
Qed.

(** The follower handles a call. *)
Lemma lay3_serve n g late s s' r id :
  Nat.Odd n → lay1 n g s → lay1 n (observe g s') s' → lay2 n g s → lay3 n g s → on_time s (NServe r id) = true →
  nact late true (NServe r id) s = Some s' → lay3 n (observe g s') s'.
Proof.
  intros Hodd H1 H1' H2 H3 Htime Hn. cbn [nact] in Hn.
  apply bind_Some in Hn as (f & Hf & Hn). apply bind_Some in Hn as (rf & Hi & Hn).
  pose proof (l1_flights _ _ _ H1 id f Hf) as [_ Hok].
  destruct (f_state f) as [| |k args|k args| | |] eqn:Hst; try done;
    apply bind_Some in Hn as ([rf' reply] & Heq & [= <-]).
  - pose proof (append_pc_log _ _ _ _ _ _ _ _ _ _ _ _ H1 Hf Hst eq_refl Hi Heq) as [_ _ Hle _ _ Hlead _].
    eapply (lay3_one n g s _ f.(f_server) rf rf'); try done; [|by eapply flights_ok3_insert].
    intros Hon. by eapply change3_append.
  - destruct Hok as [_ Hz]. destruct (l1_snap _ _ _ H1 _ _ Hi) as [Hs _].
    assert (still rf rf') as Hstill by (eapply InstallSnapshot_still; [|exact Heq]; lia).
    pose proof (st_calm _ _ Hstill) as [Hlog _ _ Hle _ Hlead].
    eapply (lay3_one n g s _ f.(f_server) rf rf'); try done; [by intros; apply change3_still| |
      by eapply flights_ok3_insert].
    intros Htp. by destruct (Hlead Htp).
Qed.

(** A call or an answer is lost. *)
Lemma lay3_drop n g late s s' id :
  Nat.Odd n → lay1 n g s → lay1 n (observe g s') s' → lay2 n g s → lay3 n g s → on_time s (NDrop id) = true →
  nact late true (NDrop id) s = Some s' → lay3 n (observe g s') s'.
Proof.
  intros Hodd H1 H1' H2 H3 Htime Hn. cbn [nact] in Hn.
  apply bind_Some in Hn as (f & Hf & Hn).
  destruct (f_state f); simplify_eq; (eapply lay3_none; [done..|]); by eapply flights_ok3_insert.
Qed.

(** The leader handles an answer. *)
Lemma lay3_reply n g late s s' r id :
  Nat.Odd n → lay1 n g s → lay1 n (observe g s') s' → lay2 n g s → lay3 n g s → on_time s (NReply r id) = true →
  nact late true (NReply r id) s = Some s' → lay3 n (observe g s') s'.
Proof.
  intros Hodd H1 H1' H2 H3 Htime Hn. cbn [nact] in Hn.
  apply bind_Some in Hn as (f & Hf & Hn). apply bind_Some in Hn as (rf & Hi & Hn).
  destruct (l1_snap _ _ _ H1 _ _ Hi) as [Hs _].
  destruct (f_state f) as [| | | |k ok args reply|k ok reply|] eqn:Hst; try done;
    (destruct (_ && _); [|simplify_eq; (eapply lay3_none; [done..|]); by eapply flights_ok3_insert]);
    apply bind_Some in Hn as (rf' & Heq & [= <-]).
  - pose proof (appendReply_calm _ _ _ _ _ _ _ _ Hs Heq) as [Hlog _ _ Hle _ Hlead].
    eapply (lay3_one n g s _ f.(f_leader) rf rf'); try done; [| |by eapply flights_ok3_insert].
    + intros Hon. eapply (change3_reply n g s _ id f k ok args reply r); try done.
      cbn. apply list_lookup_insert_eq. by eapply lookup_lt_Some.
    + intros Htp. by destruct (Hlead Htp).
  - destruct (installReply_calm _ _ _ _ _ _ _ Heq) as [Hstill|(_ & next & _ & ->)].
    + pose proof (st_calm _ _ Hstill) as [Hlog _ _ Hle _ Hlead].
      eapply (lay3_one n g s _ f.(f_leader) rf rf'); try done; [by intros; apply change3_still| |
        by eapply flights_ok3_insert].
      intros Htp. by destruct (Hlead Htp).
    + eapply (lay3_one n g s _ f.(f_leader) rf); try done; [|by eapply flights_ok3_insert].
      intros Hon. apply change3_quiet; [done..|by left].
Qed.

Lemma lay3_nact n g late a s s' :
  Nat.Odd n → lay1 n g s → lay2 n g s → lay3 n g s → on_time s a = true →
  nact late true a s = Some s' → lay3 n (observe g s') s'.
Proof.
  intros Hodd H1 H2 H3 Htime Hn. pose proof (lay1_nact _ _ _ _ _ _ H1 Hn) as H1'.
  destruct a; try by eauto using lay3_top, lay3_args, lay3_serve, lay3_drop, lay3_reply.
  cbn [nact] in Hn. destruct (base a) eqn:Hb; [|done].
  apply bind_Some in Hn as (c & Hc & [= <-]). by eapply lay3_base.
Qed.

Lemma lay3_init n r s : nstart n r = Some s → lay3 n (observe nothing s) s.
Proof.
  intros Hs.
  assert (∀ i rf, s.(cl).(nodes) !! i = Some rf →
    rf.(log) = [Log0] ∧ rf.(tp) = 0 ∧ rf.(commitIndex) = 0 ∧ applies rf.(out) = []) as Hnode.
  { intros i rf Hi. destruct (nstart_nodes _ _ _ _ _ Hs Hi) as [Hmake Hlt].
    by destruct (Make_fresh_fields _ _ _ _ Hlt Hmake) as (_ & ? & ? & _ & _ & _ & ? & _ & ?). }
  assert (∀ j T p, ¬ (observe nothing s).(ack) j T p) as Hack.
  { intros j T p [[]|(rf & e & Hj & _ & Hp & He & _)]. destruct (Hnode j rf Hj) as (Hl & _).
    rewrite Hl in He. apply zget_Some_range in He. change (zlen [Log0]) with 1 in He. lia. }
  assert (∀ T L, ¬ (observe nothing s).(leads) T L) as Hleads.
  { intros T L [[]|(i & rf & Hi & Htp & _)]. destruct (Hnode i rf Hi) as (_ & Ht & _). lia. }
  assert (s.(cl).(votes) = ∅) as Hv.
  { unfold nstart, start in Hs. apply bind_Some in Hs as (c & Hc & [= <-]).
    by apply bind_Some in Hc as (l & _ & [= <-]). }
  split.
  - intros j T p. right. apply Hack.
  - by intros j rf T p _ ?%Hack.
  - by intros T' L T p ?%Hleads.
  - by intros T l k p e ?%Hleads.
  - intros k T j args rf Hk. by rewrite Hv, lookup_empty in Hk.
  - intros k T' j v rf T p Hk. by rewrite Hv, lookup_empty in Hk.
  - intros j rf Hj. destruct (Hnode j rf Hj) as (_ & _ & -> & ->). split; [lia|].
    by intros m ?%elem_of_nil.
  - intros j rf Hj. destruct (Hnode j rf Hj) as (_ & _ & -> & ->). constructor.
  - intros id f k args Hf. by rewrite (nstart_flights _ _ _ Hs), lookup_empty in Hf.
Qed.

(** *** Runs *)

(** The invariant, and what was applied on the way. *)
Definition layers (n : nat) (g : ghost) (s : net) : Prop := lay1 n g s ∧ lay2 n g s ∧ lay3 n g s.

(** What was applied at an index, at any time, is one command. *)
Lemma told_unique n g s m m' :
  layers n g s → told n g m → told n g m' → m.(ApplyMsg.CommandIndex) = m'.(ApplyMsg.CommandIndex) →
  m.(ApplyMsg.Command) = m'.(ApplyMsg.Command).
Proof.
  intros (H1 & _ & H3) (T & e & He & ->) (T' & d & Hd & ->) Hidx. rewrite Hidx in He.
  by rewrite (chosen_unique n g s T T' _ e d H1 H3 He Hd).
Qed.

Lemma layers_init n r s : nstart n r = Some s → layers n (observe nothing s) s.
Proof. intros Hs. split_and!; [by eapply lay1_init|by eapply lay2_init|by eapply lay3_init]. Qed.

Lemma layers_timely n late l g s s' :
  Nat.Odd n → layers n g s → timely late true l s = Some s' →
  ∃ g', layers n g' s' ∧ ∀ m, told n g m → told n g' m.
Proof.
  intros Hodd. revert g s. induction l as [|a l IH]; intros g s (H1 & H2 & H3) Heq; cbn [timely] in Heq.
  { injection Heq as <-. by exists g. }
  destruct (on_time s a) eqn:Htime; [|done]. apply bind_Some in Heq as (s1 & Hn & Heq).
  destruct (IH (observe g s1) s1) as (g' & Hg' & Htold); [|done|].
  - split_and!; [by eapply lay1_nact|by eapply lay2_nact|by eapply lay3_nact].
  - exists g'. split; [done|]. intros m Hm. by apply Htold, told_mono.
Qed.

(** C2: State machine safety, for a cluster of an odd number of peers, under two
    provisos: every election is won with the condition of the waiting loop of
    [startElection] (term and role) still true when the mutex is taken (the argument
    [fresh] is true; the code does not look again, and then two leaders of a term are
    possible, [RaftCluster.stale_guard_two_leaders]); and no heartbeat which a leader
    sent before its first [Start] is handled after the follower has taken entries of
    this leader ([on_time]). Then no two peers apply different commands at the same
    index, not even at different times of a run. All other calls, and all answers, may
    be lost, late and overtaken, and peers crash and restart. The log is not compacted
    by a key/value server, and a call is handled at most once. *)
Theorem state_machine_safety late n r s0 l s l' s' :
  Nat.Odd n → nstart n r = Some s0 →
  timely late true l s0 = Some s → timely late true l' s = Some s' → agree_between s s'.
Proof.
  intros Hodd Hs0%layers_init Hl Hl'.
  destruct (layers_timely _ _ _ _ _ _ Hodd Hs0 Hl) as (g & Hg & _).
  destruct (layers_timely _ _ _ _ _ _ Hodd Hg Hl') as (g' & Hg' & Htold).
  intros i j rf rf' m m' Hi Hj Hm Hm' Hidx _ _. apply (told_unique n g' s'); [done| | |done].
  - apply Htold. by apply (l3_node _ _ _ (proj2 (proj2 Hg)) i rf Hi).
  - by apply (l3_node _ _ _ (proj2 (proj2 Hg')) j rf' Hj).
Qed.
End agree.

(** The run of [late_heartbeat] without the late heartbeat: peers 0 and 1 apply
    command 2 at index 2, at different times. *)
Definition in_time : list naction :=
  wins 0 1 1 ++ starts 0 1 ++ sends 0 1 1 0 ++ answered 0 ++
  wins 1 2 2 ++ starts 1 2 ++ sends 1 0 2 2 ++ answered 2.

Lemma state_machine_safety_witness :
  ∃ s s' rf rf', @agree_between s s' ∧ s.(cl).(nodes) !! 1%nat = Some rf ∧
    s'.(cl).(nodes) !! 0%nat = Some rf' ∧
    ApplyMsg.mk true (IInt 2) 2 ∈ applies rf.(out) ∧ ApplyMsg.mk true (IInt 2) 2 ∈ applies rf'.(out).
Proof.
  destruct (@nstart codec 3 0) as [s0|] eqn:H0; [|by vm_compute in H0].
  destruct (@timely codec false true in_time s0) as [s|] eqn:Hs.
  2: { vm_compute in H0. injection H0 as <-. by vm_compute in Hs. }
  destruct (@timely codec false true (sends 1 0 2 3 ++ answered 3) s) as [s'|] eqn:Hs'.
  2: { vm_compute in H0. injection H0 as <-. vm_compute in Hs. injection Hs as <-. by vm_compute in Hs'. }
  assert (Nat.Odd 3) as Hodd by by exists 1%nat.
  pose proof (@state_machine_safety codec false 3 0 s0 in_time s _ s' Hodd H0 Hs Hs') as Hag.
  exists s, s'. vm_compute in H0. injection H0 as <-. vm_compute in Hs. injection Hs as <-.
  vm_compute in Hs'. injection Hs' as <-.
  eexists _, _. split; [exact Hag|]. split; [reflexivity|]. split; [reflexivity|].
  split; vm_compute; repeat constructor.
Defined.
