(* ===== verification/KVServer.v ===== *)
(** The replicated key/value server ([src/src/kvraft/server.go], [common.go]):
    the RPC handlers [Get] and [PutAppend], the goroutine [Applier] that executes
    what Raft commits, snapshots, and start-up.

    A handler runs as: [Get_start] (the call of [Start], under the lock of Raft);
    [Get_register] (under [mucli]: answer at once, or leave a channel); then it
    waits for the applier, and [Get_receive] makes the reply.  The applier sends
    on unbuffered channels while it holds [mucli]: a send to a channel nobody
    receives from blocks it for ever, and with it every handler.  A receiver of
    a channel receives once; the channels with a receiver are [waiting]. *)
From S2P Require Import Prelude Gob Iface RaftTypes RaftPersist RaftLog RaftLeader GobImpl.
Open Scope string_scope.
Open Scope list_scope.
Open Scope Z_scope.

(** ** Results: an operation returns, panics, or blocks for ever *)

Inductive res (A : Type) :=
  | Ret (a : A)
  | Panic
  | Block.
Arguments Ret {_} _.
Arguments Panic {_}.
Arguments Block {_}.

Definition rbind {A B} (m : res A) (k : A → res B) : res B :=
  match m with Ret a => k a | Panic => Panic | Block => Block end.

Notation "x <- m ;; k" := (rbind m (λ x, k))
  (at level 100, m at next level, right associativity, format "x  <-  m ;;  '//' k") : go_scope.

Fixpoint rfold {A B} (f : A → B → res A) (a : A) (l : list B) : res A :=
  match l with
  | [] => Ret a
  | b :: l => a <- f a b;; rfold f a l
  end.

(** ** The wire *)

Definition Err := string.
Definition OK : Err := "OK".
Definition ErrNoKey : Err := "ErrNoKey".
Definition ErrWrongLeader : Err := "ErrWrongLeader".

Module PutAppendArgs.
Record t := mk { Key : string; Value : string; Op : string; Num : Z; ClientId : Z }.
End PutAppendArgs.

Module GetArgs.
Record t := mk { Key : string; Num : Z; ClientId : Z }.
End GetArgs.

Module GetReply.
Record t := mk { Err : string; Value : string }.
(** A reply whose fields were not set. *)
Definition zero : t := mk "" "".
End GetReply.

(** ** The server *)

Definition gomap (K V : Type) `{Countable K} := option (gmap K V).

Record KVServer := mkKV {
  kv_me : Z;
  kv_rf : Raft;
  kv_dead : bool;
  maxraftstate : Z;
  mp : gomap string string;       (* a nil map is None *)
  ClientCh : gmap Z (list nat);   (* the channels that wait for an index *)
  CliMap : gomap Z Z;             (* the last request of every client *)
  kv_lastApplied : Z;
  waiting : gset nat;             (* channels with a receiver *)
  nextch : nat;                   (* channels made so far *)
  given : list (nat * Op.t)       (* what was sent on them *)
}.

#[export] Instance eta_KVServer : Eta KVServer := λ k,
  mkKV k.(kv_me) k.(kv_rf) k.(kv_dead) k.(maxraftstate) k.(mp) k.(ClientCh) k.(CliMap)
    k.(kv_lastApplied) k.(waiting) k.(nextch) k.(given).

(** [m[k]], with the zero value of a missing key *)
Definition map_get {K V} `{Countable K} (d : V) (m : gomap K V) (k : K) : V :=
  default d (m ≫= lookup k).

(** [v, ok := m[k]] *)
Definition map_find {K V} `{Countable K} (m : gomap K V) (k : K) : option V :=
  m ≫= lookup k.

(** [m[k] = v]: writing to a nil map panics *)
Definition map_set {K V} `{Countable K} (m : gomap K V) (k : K) (v : V) : res (gomap K V) :=
  match m with Some m => Ret (Some (<[k := v]> m)) | None => Panic end.

(** [info, okk := kv.CliMap[c]; okk && info >= num] *)
Definition executed (m : gomap Z Z) (c num : Z) : bool :=
  match map_find m c with Some info => num <=? info | None => false end.

Section kv.
Context `{!RaftCodec}.

(** *** The handlers *)

Definition Get_command (args : GetArgs.t) : Op.t :=
  Op.mk args.(GetArgs.ClientId) args.(GetArgs.Num) 0 args.(GetArgs.Key) "".

Definition PutAppend_command (args : PutAppendArgs.t) : Op.t :=
  Op.mk args.(PutAppendArgs.ClientId) args.(PutAppendArgs.Num)
    (if decide (args.(PutAppendArgs.Op) = "Put") then 1 else 2)
    args.(PutAppendArgs.Key) args.(PutAppendArgs.Value).

(** What a handler does after [Start]. *)
Inductive started :=
  | SKilled                  (* the reply stays empty *)
  | SWrongLeader
  | SIndex (index : Z).

(** [if kv.killed() ...; index, _, isLeader := kv.rf.Start(command)]; the panic
    of [Start] is the server's *)
Definition start_command (command : Op.t) (kv : KVServer) : res (KVServer * started) :=
  if kv.(kv_dead) then Ret (kv, SKilled)
  else
    match Start (IOp command) kv.(kv_rf) with
    | None => Panic
    | Some (rf, (index, _, isLeader)) =>
        let kv := kv <| kv_rf := rf |> in
        if isLeader : bool then Ret (kv, SIndex index) else Ret (kv, SWrongLeader)
    end.

Definition Get_start (args : GetArgs.t) : KVServer → res (KVServer * started) :=
  start_command (Get_command args).

Definition PutAppend_start (args : PutAppendArgs.t) : KVServer → res (KVServer * started) :=
  start_command (PutAppend_command args).

(** [ch := make(chan Op)], entered in [ClientCh]; its handler will receive *)
Definition add_channel (index : Z) (kv : KVServer) : KVServer * nat :=
  let ch := kv.(nextch) in
  let chs := match kv.(ClientCh) !! index with Some item => item ++ [ch] | None => [ch] end in
  (kv <| ClientCh := <[index := chs]> kv.(ClientCh) |>
      <| waiting := {[ch]} ∪ kv.(waiting) |> <| nextch := S ch |>, ch).

(** The left is an immediate reply, the right the channel to wait on.  The two looks at
    the maps, at the client's number and at the value, are one step here. *)
Definition Get_register (args : GetArgs.t) (index : Z) (kv : KVServer)
    : KVServer * (GetReply.t + nat) :=
  if executed kv.(CliMap) args.(GetArgs.ClientId) args.(GetArgs.Num) then
    (kv, inl (GetReply.mk OK (map_get "" kv.(mp) args.(GetArgs.Key))))
  else let '(kv, ch) := add_channel index kv in (kv, inr ch).

Definition PutAppend_register (args : PutAppendArgs.t) (index : Z) (kv : KVServer)
    : KVServer * (Err + nat) :=
  if executed kv.(CliMap) args.(PutAppendArgs.ClientId) args.(PutAppendArgs.Num) then
    (kv, inl OK)
  else let '(kv, ch) := add_channel index kv in (kv, inr ch).

(** The applier sent [cm] on the handler's channel. *)
Definition Get_receive (args : GetArgs.t) (cm : Op.t) (kv : KVServer) : GetReply.t :=
  let command := Get_command args in
  if kv.(kv_dead) then GetReply.zero
  else if cm.(Op.Typ) =? -1 then GetReply.mk ErrNoKey ""
  else if negb (cm.(Op.Typ) =? command.(Op.Typ)) || negb (cm.(Op.Id) =? args.(GetArgs.ClientId))
          || negb (cm.(Op.Num) =? args.(GetArgs.Num))
  then GetReply.mk "command fail" ""
  else GetReply.mk OK cm.(Op.Value).

Definition PutAppend_receive (args : PutAppendArgs.t) (cm : Op.t) (kv : KVServer) : Err :=
  let command := PutAppend_command args in
  if kv.(kv_dead) then ""
  else if cm.(Op.Typ) =? -3 then
    if executed kv.(CliMap) args.(PutAppendArgs.ClientId) args.(PutAppendArgs.Num)
    then OK else "discarded"
  else if negb (cm.(Op.Typ) =? command.(Op.Typ))
          || negb (cm.(Op.Id) =? args.(PutAppendArgs.ClientId))
          || negb (cm.(Op.Num) =? args.(PutAppendArgs.Num))
  then "command fail"
  else OK.

Definition kv_Kill (kv : KVServer) : KVServer :=
  kv <| kv_dead := true |> <| kv_rf := Kill kv.(kv_rf) |>.

Definition kv_killed (kv : KVServer) : bool := kv.(kv_dead).

(** *** The applier *)

(** [ch <- cm], with nobody else sending *)
Definition send (cm : Op.t) (kv : KVServer) (ch : nat) : res KVServer :=
  if decide (ch ∈ kv.(waiting)) then
    Ret (kv <| waiting := kv.(waiting) ∖ {[ch]} |> <| given := kv.(given) ++ [(ch, cm)] |>)
  else Block.

(** Lines 598-610: the type switch on the command. *)
Definition command_of (c : iface) : Op.t :=
  match c with
  | IString _ => Op.mk (-1) 0 (-2) "" ""
  | IOp o => o
  | _ => Op.mk 0 0 0 "" ""
  end.

(** Lines 625-687: execute a command, and record it for its client.  The
    returned command carries the result of a get. *)
Definition execute (cm : Op.t) (kv : KVServer) : res (KVServer * Op.t) :=
  let okk := executed kv.(CliMap) cm.(Op.Id) cm.(Op.Num) in
  if cm.(Op.Typ) =? 0 then
    let cm' := match map_find kv.(mp) cm.(Op.Key) with
               | None => cm <| Op.Typ := -1 |>
               | Some s => cm <| Op.Value := s |>
               end in
    c <- map_set kv.(CliMap) cm.(Op.Id) cm.(Op.Num);;
    Ret (kv <| CliMap := c |>, cm')
  else if cm.(Op.Typ) =? 1 then
    if okk then Ret (kv, cm)
    else
      m <- map_set kv.(mp) cm.(Op.Key) cm.(Op.Value);;
      c <- map_set kv.(CliMap) cm.(Op.Id) cm.(Op.Num);;
      Ret (kv <| mp := m |> <| CliMap := c |>, cm)
  else if cm.(Op.Typ) =? 2 then
    if okk then Ret (kv, cm)
    else
      m <- map_set kv.(mp) cm.(Op.Key)
             (match map_find kv.(mp) cm.(Op.Key) with
              | None => cm.(Op.Value)
              | Some s => s +:+ cm.(Op.Value)
              end);;
      c <- map_set kv.(CliMap) cm.(Op.Id) cm.(Op.Num);;
      Ret (kv <| mp := m |> <| CliMap := c |>, cm)
  else Ret (kv, cm).

(** Lines 598-724: the execution, under [mumap], and the delivery, under [mucli], as one
    step.  (In the code a handler can look at the maps and register in between.) *)
Definition Applier_command (msg : ApplyMsg.t) (kv : KVServer) : res KVServer :=
  let cm := command_of msg.(ApplyMsg.Command) in
  let kv := kv <| kv_lastApplied := msg.(ApplyMsg.CommandIndex) |> in
  r <- execute cm kv;;
  let '(kv, cm) := r in
  match kv.(ClientCh) !! msg.(ApplyMsg.CommandIndex) with
  | Some chs =>
      kv <- rfold (send cm) kv chs;;
      Ret (kv <| ClientCh := delete msg.(ApplyMsg.CommandIndex) kv.(ClientCh) |>)
  | None => Ret kv
  end.

(** Lines 543-594: [range kv.ClientCh] visits the indices in some order; [order]
    is a permutation of them. *)
Definition Applier_snapshot (order : list Z) (data : bytes) (kv : KVServer) : res KVServer :=
  let snapshot := decodeSnapShot data in
  let kv := kv <| mp := snapshot.(SnapShot.Mp) |> <| CliMap := snapshot.(SnapShot.CliMap) |> in
  let kv := if kv.(kv_lastApplied) <? snapshot.(SnapShot.LastIndex)
            then kv <| kv_lastApplied := snapshot.(SnapShot.LastIndex) |> else kv in
  rfold (λ kv k,
    if k <=? snapshot.(SnapShot.LastIndex) then
      rfold (send (Op.mk (-2) 0 (-3) "" "")) kv (default [] (kv.(ClientCh) !! k))
    else Ret kv) kv order.

(** One round of the loop; a message that is no command holds a snapshot. *)
Definition Applier (order : list Z) (msg : ApplyMsg.t) (kv : KVServer) : res KVServer :=
  if kv.(kv_dead) then Ret kv
  else if negb msg.(ApplyMsg.CommandValid) then
    match msg.(ApplyMsg.Command) with
    | IBytes sn => Applier_snapshot order sn kv
    | _ => Panic
    end
  else Applier_command msg kv.

(** *** Snapshots and start-up *)

Definition readSnap (data : bytes) (kv : KVServer) : KVServer :=
  let snapshot := decodeSnapShot data in
  let kv := match snapshot.(SnapShot.Mp) with Some _ => kv <| mp := snapshot.(SnapShot.Mp) |> | None => kv end in
  let kv := match snapshot.(SnapShot.CliMap) with
            | Some _ => kv <| CliMap := snapshot.(SnapShot.CliMap) |> | None => kv end in
  kv <| kv_lastApplied := snapshot.(SnapShot.LastIndex) |>.

(** Lines 458-498: when the log is too large, copy the maps and hand the
    snapshot to Raft. *)
Definition make_snapshot (kv : KVServer) : option SnapShot.t :=
  if negb (kv.(maxraftstate) =? -1) &&
     (Z.quot kv.(maxraftstate) 3 * 2 <? Persister.RaftStateSize kv.(kv_rf).(persister))
  then Some (SnapShot.mk (Some (default ∅ kv.(mp))) kv.(kv_lastApplied) 0
               (Some (default ∅ kv.(CliMap))))
  else None.

(** The goroutine of [Make] (raft.go) receives the snapshot, perhaps after other
    steps of the server, and runs [persistV2]. *)
Definition persist_snapshot (ss : SnapShot.t) (kv : KVServer) : res KVServer :=
  match persistV2 ss kv.(kv_rf) with
  | Some rf => Ret (kv <| kv_rf := rf |>)
  | None => Panic
  end.

(** [r] is the first draw of the election timer *)
Definition StartKVServer (n : nat) (me' : Z) (p : Persister.t) (max : Z) (r : Z) : res KVServer :=
  match Make n me' p r with
  | None => Panic
  | Some rf =>
      let kv := mkKV me' (rf <| Noop := true |>) false max (Some ∅) ∅ (Some ∅) 0 ∅ 0 [] in
      Ret (readSnap (Persister.ReadSnapshot p) kv)
  end.
End kv.
