(* ===== verification/KVProps.v ===== *)
(** Properties of the key/value server of [KVServer.v]: what the applier does with
    the log Raft delivers, at-most-once execution, snapshots and restarts, the
    answers of the handlers, and where they go wrong. *)
From S2P Require Import Prelude Gob Iface RaftTypes RaftPersist RaftLog RaftLogProps RaftRecovery KVServer GobImpl.
Open Scope string_scope.
Open Scope list_scope.
Open Scope Z_scope.

Section applier.
Context `{!RaftCodec}.

(** *** Small lemmas *)

Lemma map_set_Ret {K V} `{Countable K} (m m' : gomap K V) k v :
  map_set m k v = Ret m' → ∃ m0, m = Some m0 ∧ m' = Some (<[k := v]> m0).
Proof. destruct m as [m0|]; [|done]. intros [= <-]. by exists m0. Qed.

Lemma executed_set m c num : executed (Some (<[c := num]> m)) c num = true.
Proof. unfold executed, map_find. cbn. rewrite lookup_insert_eq. apply Z.leb_refl. Qed.

Lemma rfold_app {A B} (f : A → B → res A) a l k :
  rfold f a (l ++ k) = (x <- rfold f a l;; rfold f x k).
Proof. revert a. induction l as [|b l IH]; intros a; cbn; [done|]. destruct (f a b); cbn; auto. Qed.

(** *** What executing a command does *)

(** The write of a put or an append. *)
Definition write (cm : Op.t) (m : gmap string string) : gmap string string :=
  if cm.(Op.Typ) =? 1 then <[cm.(Op.Key) := cm.(Op.Value)]> m
  else <[cm.(Op.Key) := default "" (m !! cm.(Op.Key)) +:+ cm.(Op.Value)]> m.

Definition is_write (cm : Op.t) : bool := (cm.(Op.Typ) =? 1) || (cm.(Op.Typ) =? 2).

(** On maps that are not nil, a command never panics. *)
Lemma execute_spec cm kv m c :
  kv.(mp) = Some m → kv.(CliMap) = Some c →
  ∃ m' c' cm', execute cm kv = Ret (kv <| mp := Some m' |> <| CliMap := Some c' |>, cm') ∧
    (m', c') =
      (if cm.(Op.Typ) =? 0 then (m, <[cm.(Op.Id) := cm.(Op.Num)]> c)
       else if is_write cm && negb (executed (Some c) cm.(Op.Id) cm.(Op.Num))
       then (write cm m, <[cm.(Op.Id) := cm.(Op.Num)]> c) else (m, c)).
Proof.
  intros Hm Hc. destruct kv. cbn in Hm, Hc. subst. unfold execute, is_write, write. cbn.
  destruct (Z.eqb_spec (Op.Typ cm) 0) as [H0|H0]; [by eexists _, _, _|].
  destruct (Z.eqb_spec (Op.Typ cm) 1) as [H1|H1]; cbn [orb andb].
  { destruct (executed (Some c) _ _); by eexists _, _, _. }
  destruct (Z.eqb_spec (Op.Typ cm) 2) as [H2|H2]; cbn [orb andb]; [|by eexists _, _, _].
  destruct (executed (Some c) _ _); [by eexists _, _, _|].
  eexists _, _, _. split; [done|]. cbn. by destruct (m !! Op.Key cm).
Qed.

(** What the waiting handlers are sent: a get with the value of its key, or with type -1
    when there is none; any other command as it is. *)
Definition result_of (cm : Op.t) (m : gmap string string) : Op.t :=
  if cm.(Op.Typ) =? 0 then
    match m !! cm.(Op.Key) with
    | Some s => cm <| Op.Value := s |>
    | None => cm <| Op.Typ := -1 |>
    end
  else cm.

Lemma execute_result cm kv m kv' cm' :
  kv.(mp) = Some m → execute cm kv = Ret (kv', cm') → cm' = result_of cm m.
Proof.
  intros Hm Heq. unfold execute, result_of, rbind, map_find in *. rewrite Hm in Heq.
  cbn [mbind option_bind] in Heq. repeat case_match; congruence.
Qed.

Lemma execute_frame cm kv kv' cm' :
  execute cm kv = Ret (kv', cm') →
  kv' = kv <| mp := kv'.(mp) |> <| CliMap := kv'.(CliMap) |>.
Proof.
  unfold execute, rbind. intros Heq. destruct kv. cbn in Heq. repeat case_match; by simplify_eq.
Qed.

(** A command that was just executed changes nothing. *)
Lemma execute_again cm kv kv1 cm1 kv' :
  execute cm kv = Ret (kv1, cm1) → kv'.(mp) = kv1.(mp) → kv'.(CliMap) = kv1.(CliMap) →
  ∃ cm2, execute cm kv' = Ret (kv', cm2).
Proof.
  intros He Hm Hc. unfold execute in *.
  assert (∀ m c, CliMap kv = c → kv1.(mp) = m → kv1.(CliMap) = c → executed c (Op.Id cm) (Op.Num cm) = true →
    executed (CliMap kv') (Op.Id cm) (Op.Num cm) = true) as Hex by (intros m c; congruence).
  assert (∀ x, kv1.(CliMap) = Some (<[Op.Id cm := Op.Num cm]> x) →
    executed (CliMap kv') (Op.Id cm) (Op.Num cm) = true) as Hset.
  { intros x Hx. rewrite Hc, Hx. apply executed_set. }
  destruct (Op.Typ cm =? 0).
  - destruct (CliMap kv) as [c|]; [|done]. cbn in He. injection He as <- _. cbn in Hc.
    rewrite Hc. cbn [map_set rbind]. rewrite insert_insert_eq. rewrite <- Hc.
    eexists. do 2 f_equal. by destruct kv'.
  - destruct (executed (CliMap kv) _ _) eqn:He0.
    + assert (kv1 = kv) as -> by (repeat case_match; by injection He).
      rewrite (Hex _ _ eq_refl eq_refl eq_refl He0). repeat case_match; by eexists.
    + destruct (Op.Typ cm =? 1); [|destruct (Op.Typ cm =? 2); [|by eexists]];
        (destruct (mp kv) as [m|], (CliMap kv) as [c|]; try done);
        cbn in He; injection He as <- _; rewrite (Hset c eq_refl); by eexists.
Qed.

(** *** Sends *)

Lemma send_frame cm kv ch kv' :
  send cm kv ch = Ret kv' →
  ch ∈ kv.(waiting) ∧
  kv' = kv <| waiting := kv.(waiting) ∖ {[ch]} |> <| given := kv.(given) ++ [(ch, cm)] |>.
Proof. unfold send. intros Heq. case_decide; [|done]. by injection Heq as <-. Qed.

Lemma sends_frame cm chs kv kv' :
  rfold (send cm) kv chs = Ret kv' →
  kv' = kv <| waiting := kv'.(waiting) |> <| given := kv.(given) ++ ((λ ch, (ch, cm)) <$> chs) |> ∧
  ∀ ch, ch ∈ kv'.(waiting) ↔ ch ∈ kv.(waiting) ∧ ch ∉ chs.
Proof.
  revert kv. induction chs as [|ch chs IH]; intros kv Heq; cbn [rfold] in Heq.
  - injection Heq as <-. split; [|set_solver]. destruct kv. cbn. by rewrite app_nil_r.
  - destruct (send cm kv ch) as [kv1| |] eqn:H1; [|done..]. cbn [rbind] in Heq.
    apply send_frame in H1 as [Hin ->]. apply IH in Heq as [-> Hw]. cbn in Hw |- *. split.
    + destruct kv. cbn. by rewrite <- (assoc_L (++)).
    + intros ch'. rewrite Hw. set_solver.
Qed.

Lemma sends_total cm chs kv :
  NoDup chs → (∀ ch, ch ∈ chs → ch ∈ kv.(waiting)) → ∃ kv', rfold (send cm) kv chs = Ret kv'.
Proof.
  intros Hnd. revert kv. induction Hnd as [|ch chs Hch Hnd IH]; intros kv Hw; cbn [rfold];
    [by eexists|].
  unfold send at 1. rewrite decide_True by (apply Hw; set_solver). cbn [rbind].
  apply IH. intros ch' Hch'. cbn. apply elem_of_difference. split; [apply Hw; set_solver|set_solver].
Qed.

(** Executing a delivered command twice is executing it once: delivering the
    message again right after the first delivery changes nothing at all (the
    maps, the last applied index, and the channels). *)
Theorem Applier_idempotent order order' msg kv kv' :
  msg.(ApplyMsg.CommandValid) = true →
  Applier order msg kv = Ret kv' → Applier order' msg kv' = Ret kv'.
Proof.
  intros Hv. unfold Applier. rewrite Hv. cbn [negb].
  destruct (kv_dead kv) eqn:Hd; [by intros [= <-]; rewrite Hd|].
  unfold Applier_command. set (cm := command_of _). set (kv0 := kv <| kv_lastApplied := _ |>).
  destruct (execute cm kv0) as [[kv1 cm1]| |] eqn:He; [|done..]. cbn [rbind]. intros Hk.
  assert (kv_dead kv' = false ∧ kv'.(kv_lastApplied) = msg.(ApplyMsg.CommandIndex) ∧
    kv'.(mp) = kv1.(mp) ∧ kv'.(CliMap) = kv1.(CliMap) ∧
    kv'.(ClientCh) !! msg.(ApplyMsg.CommandIndex) = None) as (Hd' & Hl & Hm & Hc & Hch).
  { pose proof (execute_frame _ _ _ _ He) as Hf. rewrite Hf in Hk |- *.
    destruct (ClientCh _ !! _) as [chs|] eqn:Hlook.
    - destruct (rfold _ _ chs) as [kv2| |] eqn:Hs; [|done..]. injection Hk as <-.
      apply sends_frame in Hs as [Hs _]. rewrite Hs. cbn. split_and!; try done.
      apply lookup_delete_eq.
    - injection Hk as <-. done. }
  rewrite Hd'.
  assert (kv' <| kv_lastApplied := msg.(ApplyMsg.CommandIndex) |> = kv') as ->.
  { rewrite <- Hl. by destruct kv'. }
  destruct (execute_again _ _ _ _ kv' He Hm Hc) as [cm2 ->]. cbn [rbind]. by rewrite Hch.
Qed.
End applier.

(** ** Running the log *)

Section running.
Context `{!RaftCodec}.

(** The applier's loop on a sequence of committed commands. *)
Definition run (kv : KVServer) (msgs : list ApplyMsg.t) : res KVServer :=
  rfold (λ kv msg, Applier [] msg kv) kv msgs.

(** Followers and leaders reach the same server state: a follower's Raft sends
    every committed command twice in a row and a leader's sends it once, and the
    applier's state after the one sequence is its state after the other, panics
    and blocked sends included. *)
Theorem follower_agrees_with_leader kv msgs :
  Forall (λ m, m.(ApplyMsg.CommandValid) = true) msgs →
  run kv (msgs ≫= λ m, [m; m]) = run kv msgs.
Proof.
  intros Hv. revert kv. induction Hv as [|m msgs Hm _ IH]; intros kv; [done|].
  cbn [mbind list_bind app]. unfold run in *. cbn [rfold].
  destruct (Applier [] m kv) as [kv1| |] eqn:H1; [|done..]. cbn [rbind].
  rewrite (Applier_idempotent [] [] m kv kv1 Hm H1). apply IH.
Qed.

(** *** At-most-once execution

    The specification keeps the set of the requests it has seen and executes the
    write of a request when it sees it for the first time. *)

Record spec := mkSpec { smap : gmap string string; seen : gset (Z * Z) }.

Definition spec_step (s : spec) (op : Op.t) : spec :=
  if (op.(Op.Typ) =? 0) || is_write op then
    mkSpec (if is_write op && negb (bool_decide ((op.(Op.Id), op.(Op.Num)) ∈ s.(seen)))
            then write op s.(smap) else s.(smap))
      ({[(op.(Op.Id), op.(Op.Num))]} ∪ s.(seen))
  else s.

Definition spec_run (s : spec) (ops : list Op.t) : spec := foldl spec_step s ops.

(** A client numbers its requests upwards and starts one when the one before is
    done, so a request enters the log for the first time above the numbers of
    its client that are there; copies of it may follow at any later place.
    Copies of gets must not follow a later request. *)
Fixpoint in_order (past : gset (Z * Z)) (ops : list Op.t) : Prop :=
  match ops with
  | [] => True
  | op :: ops =>
      (op.(Op.Typ) = 0 ∨ (op.(Op.Id), op.(Op.Num)) ∉ past →
         ∀ num, (op.(Op.Id), num) ∈ past → num ≤ op.(Op.Num)) ∧
      in_order (if (op.(Op.Typ) =? 0) || is_write op
                then {[(op.(Op.Id), op.(Op.Num))]} ∪ past else past) ops
  end.

(** [CliMap] holds the largest number seen of every client. *)
Definition tracks (c : gmap Z Z) (past : gset (Z * Z)) : Prop :=
  (∀ id num, (id, num) ∈ past → ∃ info, c !! id = Some info ∧ num ≤ info) ∧
  (∀ id info, c !! id = Some info → (id, info) ∈ past).

Lemma tracks_executed c past id num :
  tracks c past → ((id, num) ∉ past → ∀ k, (id, k) ∈ past → k ≤ num) →
  executed (Some c) id num = bool_decide ((id, num) ∈ past).
Proof.
  intros [H1 H2] Hfresh. unfold executed, map_find. cbn. case_bool_decide as Hin.
  - destruct (H1 _ _ Hin) as (info & -> & Hle). by apply Z.leb_le.
  - destruct (c !! id) as [info|] eqn:Hc; [|done]. apply Z.leb_gt.
    assert (info ≤ num) by (apply Hfresh; auto).
    assert (info ≠ num) by (intros ->; apply Hin; auto). lia.
Qed.

Lemma tracks_insert c past id num :
  tracks c past → (∀ k, (id, k) ∈ past → k ≤ num) →
  tracks (<[id := num]> c) ({[(id, num)]} ∪ past).
Proof.
  intros [H1 H2] Hmax. split.
  - intros i k [[= -> ->]%elem_of_singleton|Hk]%elem_of_union.
    + exists num. by rewrite lookup_insert_eq.
    + destruct (decide (i = id)) as [->|Hne].
      * exists num. rewrite lookup_insert_eq. auto.
      * rewrite lookup_insert_ne by done. auto.
  - intros i info [[-> <-]|[? ?]]%lookup_insert_Some; set_solver.
Qed.

(** A copy of a write leaves everything as it is. *)
Lemma tracks_copy c past id num :
  tracks c past → (id, num) ∈ past → tracks c ({[(id, num)]} ∪ past).
Proof. intros Ht Hin. by replace ({[(id, num)]} ∪ past) with past by set_solver. Qed.

Lemma execute_refines op kv m c past :
  kv.(mp) = Some m → kv.(CliMap) = Some c → tracks c past →
  (op.(Op.Typ) = 0 ∨ (op.(Op.Id), op.(Op.Num)) ∉ past →
     ∀ num, (op.(Op.Id), num) ∈ past → num ≤ op.(Op.Num)) →
  ∃ m' c' op', execute op kv = Ret (kv <| mp := Some m' |> <| CliMap := Some c' |>, op') ∧
    m' = (spec_step (mkSpec m past) op).(smap) ∧
    tracks c' (spec_step (mkSpec m past) op).(seen).
Proof.
  intros Hm Hc Ht Hord. destruct (execute_spec op kv m c Hm Hc) as (m' & c' & op' & He & Heq).
  exists m', c', op'. split; [done|]. unfold spec_step. cbn [smap seen].
  unfold is_write in *. destruct (Z.eqb_spec (Op.Typ op) 0) as [H0|H0]; cbn [orb] in *.
  - rewrite H0 in *. injection Heq as -> ->. cbn. split; [done|]. apply tracks_insert; auto.
  - rewrite (tracks_executed c past) in Heq by auto.
    destruct ((Op.Typ op =? 1) || (Op.Typ op =? 2)); cbn [andb] in *; [|by injection Heq as -> ->].
    case_bool_decide as Hin; cbn [negb] in *; injection Heq as -> ->; cbn [smap seen].
    + split; [done|]. by apply tracks_copy.
    + split; [done|]. apply tracks_insert; auto.
Qed.

(** The commands of a list of log entries, as messages from index [i] on. *)
Fixpoint messages (i : Z) (ops : list Op.t) : list ApplyMsg.t :=
  match ops with
  | [] => []
  | op :: ops => ApplyMsg.mk true (IOp op) i :: messages (i + 1) ops
  end.

(** C7: At-most-once execution: on a log in which every request first appears in its
    client's order, and a get, copies of it included, never comes after a later
    request of its client ([in_order]; the code does not ensure this for late copies
    of gets, and without it a put or an append can be executed twice,
    [late_get_repeats_append]; copies of puts and appends may come anywhere later),
    the server's database is the one the specification computes, which executes every
    put and append exactly once however many copies of it the log has. The server is
    alive, nobody waits for an index, and its table of clients has the largest number
    seen of every client. *)
Theorem at_most_once i ops kv m c past :
  kv.(kv_dead) = false → kv.(ClientCh) = ∅ → kv.(mp) = Some m → kv.(CliMap) = Some c →
  tracks c past → in_order past ops →
  ∃ kv', run kv (messages i ops) = Ret kv' ∧
    kv'.(mp) = Some (spec_run (mkSpec m past) ops).(smap) ∧
    ∃ c', kv'.(CliMap) = Some c' ∧ tracks c' (spec_run (mkSpec m past) ops).(seen).
Proof.
  revert i kv m c past. induction ops as [|op ops IH]; intros i kv m c past Hd Hch Hm Hc Ht Hord.
  - exists kv. split; [done|]. split; [done|]. by exists c.
  - destruct Hord as [Ho Hord]. unfold run. cbn [messages rfold]. unfold Applier at 1. rewrite Hd.
    cbn [negb ApplyMsg.CommandValid]. unfold Applier_command. cbn [ApplyMsg.Command command_of
      ApplyMsg.CommandIndex].
    destruct (execute_refines op (kv <| kv_lastApplied := i |>) m c past)
      as (m' & c' & op' & -> & Hm' & Ht'); [done..|].
    cbn [rbind]. cbn [ClientCh over]. rewrite Hch, lookup_empty. cbn [rbind].
    destruct (IH (i + 1) (kv <| kv_lastApplied := i |> <| mp := Some m' |> <| CliMap := Some c' |>)
      m' c' (spec_step (mkSpec m past) op).(seen)) as (kv' & Hrun & Hmp & Hcli); try done.
    { unfold spec_step. cbn [seen]. by destruct (_ || _). }
    exists kv'. split; [exact Hrun|]. unfold spec_run in *. cbn [foldl]. rewrite Hm' in *.
    by destruct (spec_step (mkSpec m past) op).
Qed.
End running.

(** ** Channels *)

Section channels.
Context `{!RaftCodec}.

(** Every channel of [ClientCh] is in one place and has a receiver. *)
Record channels_ok (kv : KVServer) : Prop := {
  ch_nodup k chs : kv.(ClientCh) !! k = Some chs → NoDup chs;
  ch_waiting k chs ch : kv.(ClientCh) !! k = Some chs → ch ∈ chs → ch ∈ kv.(waiting);
  ch_disjoint k k' chs chs' ch : kv.(ClientCh) !! k = Some chs → kv.(ClientCh) !! k' = Some chs' →
    ch ∈ chs → ch ∈ chs' → k = k';
  ch_next ch : ch ∈ kv.(waiting) → (ch < kv.(nextch))%nat
}.

Lemma add_channel_ok index kv : channels_ok kv → channels_ok (add_channel index kv).1.
Proof.
  intros Hok. set (ch := kv.(nextch)).
  set (old := default [] (kv.(ClientCh) !! index)).
  assert ((add_channel index kv).1 = kv <| ClientCh := <[index := old ++ [ch]]> kv.(ClientCh) |>
    <| waiting := {[ch]} ∪ kv.(waiting) |> <| nextch := S ch |>) as ->.
  { unfold add_channel, old. by destruct (kv.(ClientCh) !! index). }
  assert (∀ k chs ch', kv.(ClientCh) !! k = Some chs → ch' ∈ chs → (ch' < ch)%nat) as Hlt.
  { intros k chs ch' Hk Hin. eapply (ch_next _ Hok), ch_waiting; done. }
  assert (NoDup old ∧ ∀ ch', ch' ∈ old → ∃ chs, kv.(ClientCh) !! index = Some chs ∧ ch' ∈ chs)
    as [Hnd Hold].
  { unfold old. destruct (kv.(ClientCh) !! index) as [chs|] eqn:Hi; cbn.
    - split; [by eapply ch_nodup|]. intros ch' ?. by exists chs.
    - split; [constructor|]. intros ch' []%not_elem_of_nil. }
  assert (∀ k chs ch', <[index := old ++ [ch]]> kv.(ClientCh) !! k = Some chs → ch' ∈ chs →
    (k = index ∧ ch' = ch) ∨ ∃ l, kv.(ClientCh) !! k = Some l ∧ ch' ∈ l) as Hin.
  { intros k chs ch' [[<- <-]|[_ Hk]]%lookup_insert_Some Hc; [|right; by exists chs].
    apply elem_of_app in Hc as [Hc| ->%list_elem_of_singleton]; [right; auto|by left]. }
  split; cbn.
  - intros k chs [[<- <-]|[_ Hk]]%lookup_insert_Some; [|by eapply ch_nodup].
    apply NoDup_app. split_and!; [done| |apply NoDup_singleton].
    intros ch' Hc ->%list_elem_of_singleton. destruct (Hold _ Hc) as (chs & Hk & Hc').
    specialize (Hlt _ _ _ Hk Hc'). lia.
  - intros k chs ch' Hk Hc. destruct (Hin _ _ _ Hk Hc) as [[_ ->]|(l & Hl & Hcl)]; [set_solver|].
    apply elem_of_union_r. by eapply ch_waiting.
  - intros k k' chs chs' ch' Hk Hk' Hc Hc'.
    destruct (Hin _ _ _ Hk Hc) as [[-> ->]|(l & Hl & Hcl)],
      (Hin _ _ _ Hk' Hc') as [[-> Heq]|(l' & Hl' & Hcl')].
    + done.
    + specialize (Hlt _ _ _ Hl' Hcl'). lia.
    + subst. specialize (Hlt _ _ _ Hl Hcl). lia.
    + by eapply (ch_disjoint _ Hok).
  - intros ch' [->%elem_of_singleton|Hc]%elem_of_union; [lia|].
    pose proof (ch_next _ Hok _ Hc). unfold ch. lia.
Qed.

(** C15: The applier serves every committed command: while it is alive, its maps are not
    nil and every registered channel has a receiver, it neither panics nor blocks.  A
    put or an append whose request number is above the client's last one is written
    to the database, any other leaves it as it is, and the number is recorded for
    gets and executed writes.  Every handler that registered for the index, and nobody else, is
    sent once the command with its result: a get with the value its key had, or with
    type -1 when it had none; any other command unchanged.  The index has no
    registered handler any more, and the channels are again as they have to be. *)
Theorem Applier_serves order msg kv m c :
  msg.(ApplyMsg.CommandValid) = true → kv.(kv_dead) = false →
  kv.(mp) = Some m → kv.(CliMap) = Some c → channels_ok kv →
  let cm := command_of msg.(ApplyMsg.Command) in
  let index := msg.(ApplyMsg.CommandIndex) in
  ∃ kv' m' c', Applier order msg kv = Ret kv' ∧ channels_ok kv' ∧
    kv'.(kv_lastApplied) = index ∧ kv'.(mp) = Some m' ∧ kv'.(CliMap) = Some c' ∧
    (m', c') =
      (if cm.(Op.Typ) =? 0 then (m, <[cm.(Op.Id) := cm.(Op.Num)]> c)
       else if is_write cm && negb (executed (Some c) cm.(Op.Id) cm.(Op.Num))
       then (write cm m, <[cm.(Op.Id) := cm.(Op.Num)]> c) else (m, c)) ∧
    kv'.(given) = kv.(given) ++
      ((λ ch, (ch, result_of cm m)) <$> default [] (kv.(ClientCh) !! index)) ∧
    kv'.(ClientCh) = delete index kv.(ClientCh).
Proof.
  intros Hv Hd Hm Hc Hok cm index. unfold Applier. rewrite Hd, Hv. cbn [negb].
  unfold Applier_command. fold index cm.
  destruct (execute_spec cm (kv <| kv_lastApplied := index |>) m c)
    as (m' & c' & cm' & He & Heff); [done..|]. rewrite He.
  apply (execute_result _ _ m) in He as ->; [|done].
  cbn [rbind]. set (kv1 := _ <| CliMap := Some c' |>).
  assert (channels_ok kv1) as Hok1 by (by destruct Hok; split).
  change (kv1.(ClientCh)) with kv.(ClientCh).
  destruct (kv.(ClientCh) !! index) as [chs|] eqn:Hchs; cbn [default].
  2: { exists kv1, m', c'. split_and!; try done; [cbn; by rewrite app_nil_r|].
       by rewrite delete_id. }
  destruct (sends_total (result_of cm m) chs kv1) as [kv2 Hs].
  { by eapply (ch_nodup _ Hok1). }
  { intros ch Hch. by eapply (ch_waiting _ Hok1 index). }
  rewrite Hs. cbn [rbind]. apply sends_frame in Hs as [Hkv2 Hw].
  exists (kv2 <| ClientCh := delete index kv2.(ClientCh) |>), m', c'. split; [done|].
  rewrite Hkv2. cbn. split_and!; try done.
  assert (∀ k l, delete index kv.(ClientCh) !! k = Some l → k ≠ index ∧ kv.(ClientCh) !! k = Some l)
    as Hdel by (intros k l [? ?]%lookup_delete_Some; done).
  split; cbn.
  - intros k l [_ Hk]%Hdel. by eapply ch_nodup.
  - intros k l ch [Hne Hk]%Hdel Hch. apply Hw. split; [by eapply (ch_waiting _ Hok)|].
    intros Hin. apply Hne. by eapply (ch_disjoint _ Hok k index l chs ch).
  - intros k k' l l' ch [_ Hk]%Hdel [_ Hk']%Hdel. by eapply ch_disjoint.
  - intros ch [Hch _]%Hw. by eapply (ch_next _ Hok).
Qed.

Lemma send_no_panic cm kv ch : send cm kv ch ≠ Panic.
Proof. unfold send. by case_decide. Qed.

(** A send to a channel without a receiver blocks, whatever is sent before. *)
Lemma sends_block cm chs kv ch :
  ch ∈ chs → ch ∉ kv.(waiting) → rfold (send cm) kv chs = Block.
Proof.
  revert kv. induction chs as [|ch' chs IH]; intros kv Hin Hw; [by apply not_elem_of_nil in Hin|].
  cbn [rfold]. unfold send at 1. case_decide as Hd; [|done]. cbn [rbind]. apply IH.
  - apply elem_of_cons in Hin as [->|?]; done.
  - cbn. set_solver.
Qed.

(** What one pass over [ClientCh] does. *)
Definition flush (last : Z) (kv : KVServer) (k : Z) : res KVServer :=
  if k <=? last then rfold (send (Op.mk (-2) 0 (-3) "" "")) kv (default [] (kv.(ClientCh) !! k))
  else Ret kv.

Lemma flush_frame last kv k kv' :
  flush last kv k = Ret kv' →
  kv'.(ClientCh) = kv.(ClientCh) ∧ (∀ ch, ch ∈ kv'.(waiting) → ch ∈ kv.(waiting)) ∧
  ∀ ch, k ≤ last → ch ∈ default [] (kv.(ClientCh) !! k) → ch ∉ kv'.(waiting).
Proof.
  unfold flush. case_cmp; intros Heq; [|injection Heq as <-; split_and!; auto; lia].
  apply sends_frame in Heq as [Heq Hw]. rewrite Heq. cbn. split_and!; [done| |].
  - intros ch Hch. rewrite Heq in Hw. cbn in Hw. by apply Hw.
  - intros ch _ Hin Hch. rewrite Heq in Hw. cbn in Hw. apply Hw in Hch as [_ []]. done.
Qed.

Lemma flushes_frame last order kv kv' :
  rfold (flush last) kv order = Ret kv' →
  kv'.(ClientCh) = kv.(ClientCh) ∧ (∀ ch, ch ∈ kv'.(waiting) → ch ∈ kv.(waiting)) ∧
  ∀ k ch, k ∈ order → k ≤ last → ch ∈ default [] (kv.(ClientCh) !! k) → ch ∉ kv'.(waiting).
Proof.
  revert kv. induction order as [|k0 order IH]; intros kv Heq; cbn [rfold] in Heq.
  - injection Heq as <-. split_and!; [done..|]. by intros k ch ?%not_elem_of_nil.
  - destruct (flush last kv k0) as [kv1| |] eqn:H1; [|done..]. cbn [rbind] in Heq.
    apply flush_frame in H1 as (F1 & F2 & F3). apply IH in Heq as (G1 & G2 & G3).
    split_and!; [congruence|auto|].
    intros k ch [->|Hk]%elem_of_cons Hle Hch; [by intros ?%G2; eapply F3|].
    eapply G3; [done..|]. by rewrite F1.
Qed.

Lemma flushes_block last order kv k ch :
  k ∈ order → k ≤ last → ch ∈ default [] (kv.(ClientCh) !! k) → ch ∉ kv.(waiting) →
  rfold (flush last) kv order = Block.
Proof.
  revert kv. induction order as [|k0 order IH]; intros kv Hk Hle Hch Hw;
    [by apply not_elem_of_nil in Hk|].
  cbn [rfold]. destruct (decide (k0 = k)) as [->|Hne].
  { unfold flush at 1. destruct (Z.leb_spec k last); [|lia]. by rewrite (sends_block _ _ _ ch). }
  destruct (flush last kv k0) as [kv1| |] eqn:H1; [|exfalso|done].
  - cbn [rbind]. apply flush_frame in H1 as (F1 & F2 & _).
    apply IH; [by apply elem_of_cons in Hk as [->|?]|done|by rewrite F1|auto].
  - unfold flush in H1. case_cmp; [|done]. revert H1. generalize (default [] (ClientCh kv !! k0)).
    intros chs. clear. revert kv. induction chs as [|ch chs IH]; intros kv; cbn [rfold]; [done|].
    destruct (send _ kv ch) eqn:Hs; cbn [rbind]; [apply IH|by apply send_no_panic in Hs|done].
Qed.

(** A second snapshot wedges the server: installing a snapshot wakes the
    handlers whose index it covers but leaves their channels in [ClientCh], so
    the next snapshot sends to channels nobody receives from any more and blocks
    for ever, holding the lock the handlers need. *)
Theorem second_snapshot_blocks order order' data data' kv kv' k ch :
  k ∈ order → k ∈ order' → ch ∈ default [] (kv.(ClientCh) !! k) →
  k ≤ (decodeSnapShot data).(SnapShot.LastIndex) →
  k ≤ (decodeSnapShot data').(SnapShot.LastIndex) →
  Applier_snapshot order data kv = Ret kv' →
  Applier_snapshot order' data' kv' = Block.
Proof.
  intros Hk Hk' Hch Hle Hle' Heq. unfold Applier_snapshot in Heq.
  fold (flush (decodeSnapShot data).(SnapShot.LastIndex)) in Heq.
  set (kv1 := if _ <? _ then _ else _) in Heq.
  assert (ClientCh kv1 = ClientCh kv) as H1 by (subst kv1; by case_match).
  clearbody kv1. apply flushes_frame in Heq as (F1 & _ & F3).
  unfold Applier_snapshot. fold (flush (decodeSnapShot data').(SnapShot.LastIndex)).
  set (kv2 := if _ <? _ then _ else _).
  assert (ClientCh kv2 = ClientCh kv ∧ waiting kv2 = waiting kv') as [H2 Hw].
  { subst kv2. rewrite <- H1, <- F1. by case_match. }
  clearbody kv2. apply flushes_block with k ch; [done..|by rewrite H2|].
  rewrite Hw. eapply F3; [done..|by rewrite H1].
Qed.
End channels.

(** ** Snapshots and restarts *)

Section restart.
Context `{!RaftCodec}.

(** C16: A restart finds what was snapshotted: the maps the server copied into a
    snapshot, handed to Raft and stored by [persistV2] (perhaps after more
    commands) are the maps a server started on that disk has, its last applied
    index is the snapshot's, and Raft's log continues right after it with the
    entries the old server had. *)
Theorem snapshot_restart kv ss kv1 kv2 max r :
  make_snapshot kv = Some ss →
  recoverable kv1.(kv_rf) → compacts ss kv1.(kv_rf) →
  ss.(SnapShot.LastIndex) ≤ kv1.(kv_rf).(commitIndex) →
  persist_snapshot ss kv1 = Ret kv2 →
  ∃ kv3, StartKVServer kv2.(kv_rf).(peers) kv2.(kv_rf).(me) kv2.(kv_rf).(persister) max r = Ret kv3 ∧
    kv3.(mp) = Some (default ∅ kv.(mp)) ∧ kv3.(CliMap) = Some (default ∅ kv.(CliMap)) ∧
    kv3.(kv_lastApplied) = kv.(kv_lastApplied) ∧
    kv3.(kv_rf).(snapshotIndex) = kv.(kv_lastApplied) ∧
    (∀ i, kv.(kv_lastApplied) < i → absEntry kv3.(kv_rf) i = absEntry kv1.(kv_rf) i).
Proof.
  intros Hss Hrec Hcom Hc Hp. unfold make_snapshot in Hss. case_match; [|done]. injection Hss as <-.
  set (ss := SnapShot.mk _ _ _ _) in *. unfold persist_snapshot in Hp.
  destruct (persistV2 ss (kv_rf kv1)) as [rf2|] eqn:Heq; [|done]. injection Hp as <-. cbn [kv_rf over].
  destruct Hrec as [Hwf Hd Hs Ht Hv].
  destruct (persistV2_recoverable ss _ rf2 Heq Hc Hwf Hd Hs) as (Hwf2 & Hd2 & Hs2).
  destruct (persistV2_view ss _ rf2 Hwf Hcom Heq) as (Habs & _ & _).
  destruct (persistV2_spec ss _ Hwf Hcom) as (e & rf2' & Heq' & _ & Hrf2).
  rewrite Heq in Heq'. injection Heq' as <-.
  assert (decodeSnapShot (Persister.ReadSnapshot (persister rf2)) =
    ss <| SnapShot.LastTerm := e.(Log.Term) |>) as Hdec.
  { rewrite Hrf2. unfold Persister.ReadSnapshot. cbn -[decodeSnapShot gob_enc].
    by rewrite decodeSnapShot_enc. }
  destruct (Make_recoverable r rf2) as (rf3 & Hmake & Hr3 & _).
  { split; try done; rewrite Hrf2; done. }
  unfold StartKVServer. rewrite Hmake. eexists. split; [done|].
  unfold readSnap. rewrite Hdec. cbn [SnapShot.Mp SnapShot.CliMap SnapShot.LastIndex ss over
    mp CliMap kv_lastApplied kv_rf].
  destruct Hr3 as (_ & _ & E3 & E4 & _). split_and!; [done..| |].
  - cbn. rewrite E4, Hrf2. done.
  - intros i Hi. rewrite <- Habs by done. unfold absEntry. cbn. by rewrite E3, E4.
Qed.

(** An old snapshot undoes commands for good: Raft accepts a snapshot that ends
    before its commit index and sends it to the server, which replaces its maps
    by the older ones; neither side goes back in its indices, so the commands
    after the snapshot are not delivered again, and the next snapshot would be
    recorded under the newer index. *)
Theorem old_snapshot_rolls_back r args kv rf :
  wf rf → rf.(currentTerm) ≤ args.(SnapArg.Term) →
  rf.(snapshotIndex) < args.(SnapArg.LastIncludedIndex) < rf.(commitIndex) →
  (decodeSnapShot args.(SnapArg.Data)).(SnapShot.LastIndex) = args.(SnapArg.LastIncludedIndex) →
  kv.(kv_dead) = false → kv.(kv_lastApplied) = rf.(commitIndex) →
  ∃ rf' m kv', InstallSnapshot r args rf = Some (rf', SnapReply.mk rf.(currentTerm)) ∧
    applies rf'.(out) = applies rf.(out) ++ [m] ∧ rf'.(commitIndex) = rf.(commitIndex) ∧
    Applier [] m kv = Ret kv' ∧
    kv'.(mp) = (decodeSnapShot args.(SnapArg.Data)).(SnapShot.Mp) ∧
    kv'.(kv_lastApplied) = rf.(commitIndex).
Proof.
  intros Hwf Ht [Hlo Hhi] Hdec Hd Hla.
  destruct (InstallSnapshot_spec r args rf Hwf Ht Hlo)
    as (rf' & Heq & _ & _ & _ & Hc & _ & _ & _ & Ho).
  eexists rf', _, _. split; [done|]. split; [done|]. split; [lia|].
  unfold Applier. rewrite Hd. cbn [negb ApplyMsg.CommandValid ApplyMsg.Command].
  unfold Applier_snapshot. rewrite Hdec. cbn [kv_lastApplied over rfold]. rewrite Hla.
  destruct (Z.ltb_spec (commitIndex rf) (SnapArg.LastIncludedIndex args)); [lia|].
  split; [done|]. done.
Qed.

(** ** The answers of the handlers *)

(** An answer [OK] to a get is the truth at the moment the request was
    executed: the command at the handler's index was the request itself, and the
    database held the value under the command's key. *)
Theorem Get_answers args cm kv kv1 cm1 kv2 v :
  execute cm kv = Ret (kv1, cm1) → Get_receive args cm1 kv2 = GetReply.mk OK v →
  cm.(Op.Id) = args.(GetArgs.ClientId) ∧ cm.(Op.Num) = args.(GetArgs.Num) ∧ cm.(Op.Typ) = 0 ∧
  map_find kv.(mp) cm.(Op.Key) = Some v.
Proof.
  intros He Hr. unfold Get_receive in Hr. destruct (kv_dead kv2); [done|].
  destruct (Z.eqb_spec (Op.Typ cm1) (-1)) as [|Hne]; [done|].
  destruct (negb _ || _ || _) eqn:Hg; [done|]. injection Hr as <-. to_prop. cbn in *.
  unfold execute, rbind in He. destruct (Z.eqb_spec (Op.Typ cm) 0) as [Hty|Hty].
  - destruct (map_set (CliMap kv) _ _); [|done..]. injection He as _ <-.
    by destruct (map_find (mp kv) (Op.Key cm)) eqn:Hf.
  - assert (cm1 = cm) as -> by (repeat case_match; congruence). done.
Qed.
End restart.

(** ** Where the server goes wrong *)

(** A server whose database has one key. *)
Definition ex_kv : KVServer :=
  mkKV 0 ex_peer false (-1) (Some {["k" := "x"]}) ∅ (Some ∅) 0 ∅ 0 [].

Definition ret_or (kv : KVServer) (m : res KVServer) : KVServer :=
  match m with Ret kv' => kv' | _ => kv end.

Section deviations.
#[local] Existing Instance codec.

(** A get lowers its client's entry of [CliMap]: a late copy of a get is
    followed by a late copy of the append after it, and the append is executed a
    second time. *)
Theorem late_get_repeats_append :
  let get := Op.mk 7 1 0 "k" "" in
  let app := Op.mk 7 2 2 "k" "y" in
  ∃ kv kv', run ex_kv (messages 1 [get; app]) = Ret kv ∧
    run ex_kv (messages 1 [get; app; get; app]) = Ret kv' ∧
    map_find kv.(mp) "k" = Some "xy" ∧ map_find kv'.(mp) "k" = Some "xyy".
Proof.
  set (get := Op.mk 7 1 0 "k" ""). set (app := Op.mk 7 2 2 "k" "y").
  exists (ret_or ex_kv (run ex_kv (messages 1 [get; app]))),
    (ret_or ex_kv (run ex_kv (messages 1 [get; app; get; app]))).
  split_and!; by vm_compute.
Qed.

(** A get can be told that its key does not exist when it does: the handler
    looks at the type of the command that was executed at its index before it
    checks whose command that was, so another client's get of a missing key
    answers it. *)
Theorem wrong_ErrNoKey :
  let args := GetArgs.mk "k" 1 7 in
  let other := Op.mk 8 1 0 "missing" "" in
  ∃ kv ch kv' cm, Get_register args 1 ex_kv = (kv, inr ch) ∧
    Applier [] (ApplyMsg.mk true (IOp other) 1) kv = Ret kv' ∧ kv'.(given) = [(ch, cm)] ∧
    Get_receive args cm kv' = GetReply.mk ErrNoKey "" ∧ map_find kv'.(mp) "k" = Some "x".
Proof.
  set (kv := (add_channel 1 ex_kv).1).
  set (kv' := ret_or ex_kv (Applier [] (ApplyMsg.mk true (IOp (Op.mk 8 1 0 "missing" "")) 1) kv)).
  exists kv, 0%nat, kv', (Op.mk 8 1 (-1) "missing" ""). split_and!; by vm_compute.
Qed.
End deviations.

(** ** Concrete inputs *)

(** An append of client 7, committed at index 1, with a handler waiting. *)
Definition ex_msg : ApplyMsg.t := ApplyMsg.mk true (IOp (Op.mk 7 1 2 "k" "y")) 1.

Definition ex_waiting : KVServer := (add_channel 1 ex_kv).1.

Lemma ex_waiting_ok : channels_ok ex_waiting.
Proof.
  apply add_channel_ok. by split.
Defined.

Lemma Applier_idempotent_witness :
  ∃ kv', @Applier codec [] ex_msg ex_waiting = Ret kv' ∧ @Applier codec [] ex_msg kv' = Ret kv' ∧
    map_find kv'.(mp) "k" = Some "xy".
Proof.
  destruct (@Applier codec [] ex_msg ex_waiting) as [kv'| |] eqn:Heq; [|by vm_compute in Heq..].
  exists kv'. split; [done|]. split.
  - exact (@Applier_idempotent codec [] [] ex_msg ex_waiting kv' eq_refl Heq).
  - vm_compute in Heq. by injection Heq as <-.
Defined.

Lemma follower_agrees_with_leader_witness :
  @run codec ex_waiting [ex_msg; ex_msg] = @run codec ex_waiting [ex_msg].
Proof.
  apply (@follower_agrees_with_leader codec ex_waiting [ex_msg]). apply Forall_singleton. done.
Defined.

(** The numbers a client has in a concrete set of past requests. *)
Ltac past_num :=
  intros _ num Hnum;
  repeat (apply elem_of_union in Hnum as [Hnum|Hnum]);
  (by apply not_elem_of_empty in Hnum) ||
  (apply elem_of_singleton in Hnum; simplify_eq; lia).

(** Two clients; the first append is in the log three times. *)
Lemma at_most_once_witness :
  let ops := [Op.mk 7 1 2 "k" "a"; Op.mk 8 1 2 "k" "b"; Op.mk 7 1 2 "k" "a"; Op.mk 7 2 0 "k" "";
              Op.mk 7 1 2 "k" "a"] in
  ∃ kv', @run codec ex_kv (messages 1 ops) = Ret kv' ∧ map_find kv'.(mp) "k" = Some "xab".
Proof.
  intros ops.
  destruct (@at_most_once codec 1 ops ex_kv {["k" := "x"]} ∅ ∅) as (kv' & Hrun & Hmp & _);
    [done..| | |].
  - split; [set_solver|]. intros id info. by rewrite lookup_empty.
  - cbn -[union singleton]. split_and!; try done; try past_num; intros [Hty|Hn]; try done;
      exfalso; apply Hn; set_solver.
  - exists kv'. split; [exact Hrun|]. rewrite Hmp. by vm_compute.
Defined.

Lemma Applier_serves_witness :
  ∃ kv', @Applier codec [] ex_msg ex_waiting = Ret kv' ∧
    kv'.(given) = [(0%nat, Op.mk 7 1 2 "k" "y")] ∧ map_find kv'.(mp) "k" = Some "xy".
Proof.
  destruct (@Applier_serves codec [] ex_msg ex_waiting {["k" := "x"]} ∅)
    as (kv' & m' & c' & Heq & _ & _ & Hm & _ & Heff & Hg & _); [done..|exact ex_waiting_ok|].
  exists kv'. split; [exact Heq|]. split; [rewrite Hg; by vm_compute|].
  rewrite Hm. vm_compute in Heff. injection Heff as -> _. by vm_compute.
Defined.

Lemma second_snapshot_blocks_witness :
  let data := @gob_enc _ (@rc_snap codec) (SnapShot.mk (Some ∅) 3 1 (Some ∅)) in
  let kv := ret_or ex_kv (@Applier_snapshot codec [1] data ex_waiting) in
  @Applier_snapshot codec [1] data kv = Block.
Proof.
  intros data kv.
  apply (@second_snapshot_blocks codec [1] [1] data data ex_waiting kv 1 0%nat).
  - apply list_elem_of_singleton. done.
  - apply list_elem_of_singleton. done.
  - apply list_elem_of_singleton. done.
  - by vm_compute.
  - by vm_compute.
  - by vm_compute.
Defined.

(** The peer of [ex_voted] after a command was replicated and applied. *)
Lemma snapshot_restart_witness :
  ∃ kv ss kv1 kv2 kv3, @make_snapshot kv = Some ss ∧ @persist_snapshot codec ss kv1 = Ret kv2 ∧
    @StartKVServer codec 3 0 kv2.(kv_rf).(persister) 3 5 = Ret kv3 ∧
    map_find kv3.(mp) "k" = Some "x" ∧ kv3.(kv_lastApplied) = 1.
Proof.
  set (rf := default ex_peer (fst <$> @AppendEntries codec 0
    (RequestAppendArgs.mk 2 1 0 0 [Log.mk (IOp (Op.mk 7 1 2 "k" "x")) 2; Log.mk (IInt 0) 2] 1) ex_voted)).
  set (kv := ex_kv <| kv_rf := rf |> <| maxraftstate := 3 |> <| kv_lastApplied := 1 |>).
  destruct (make_snapshot kv) as [ss|] eqn:Hss; [|by vm_compute in Hss].
  destruct (@persist_snapshot codec ss kv) as [kv2| |] eqn:Hp;
    [|vm_compute in Hss; injection Hss as <-; by vm_compute in Hp..].
  destruct (@snapshot_restart codec kv ss kv kv2 3 5)
    as (kv3 & Heq & Hm & _ & Hl & _); [exact Hss| | | |exact Hp|].
  - apply (@recoverable_step codec ex_voted).
    + apply (@ps_AppendEntries codec 0 (RequestAppendArgs.mk 2 1 0 0
        [Log.mk (IOp (Op.mk 7 1 2 "k" "x")) 2; Log.mk (IInt 0) 2] 1) ex_voted rf
        (RequestAppendReply.mk 1 true false 0 0 0)). by vm_compute.
    + apply (@recoverable_step codec ex_boot); [|exact ex_boot_recoverable].
      apply (@ps_RequestVote codec 7 ex_vote ex_boot ex_voted (RequestVoteReply.mk 0 true));
        by vm_compute.
  - vm_compute in Hss. injection Hss as <-. split; by vm_compute.
  - vm_compute in Hss. injection Hss as <-. by vm_compute.
  - exists kv, ss, kv, kv2, kv3. split_and!; [done|done| |by rewrite Hm|by rewrite Hl].
    replace 3%nat with kv2.(kv_rf).(peers). 2: { vm_compute in Hss. injection Hss as <-. vm_compute in Hp. by injection Hp as <-. }
    replace 0 with kv2.(kv_rf).(me) at 1; [exact Heq|].
    vm_compute in Hss. injection Hss as <-. vm_compute in Hp. by injection Hp as <-.
Defined.

Lemma old_snapshot_rolls_back_witness :
  let data := @gob_enc _ (@rc_snap codec) (SnapShot.mk (Some ∅) 1 1 (Some ∅)) in
  ∃ rf' kv' m, @InstallSnapshot codec 0 (SnapArg.mk 2 1 1 1 data) ex_peer = Some (rf', SnapReply.mk 2) ∧
    @Applier codec [] m (ex_kv <| kv_lastApplied := 2 |>) = Ret kv' ∧
    map_find kv'.(mp) "k" = None ∧ kv'.(kv_lastApplied) = 2.
Proof.
  intros data.
  destruct (@old_snapshot_rolls_back codec 0 (SnapArg.mk 2 1 1 1 data) (ex_kv <| kv_lastApplied := 2 |>) ex_peer)
    as (rf' & m & kv' & Heq & _ & _ & Ha & Hm & Hl).
  - exact ex_peer_wf.
  - cbn. lia.
  - cbn. lia.
  - by vm_compute.
  - done.
  - done.
  - exists rf', kv', m. split_and!; [exact Heq|exact Ha| |exact Hl]. rewrite Hm. by vm_compute.
Defined.

Lemma Get_answers_witness :
  let cm := Op.mk 7 1 0 "k" "" in
  ∃ kv1 cm1, execute cm ex_kv = Ret (kv1, cm1) ∧
    Get_receive (GetArgs.mk "k" 1 7) cm1 kv1 = GetReply.mk OK "x" ∧
    map_find ex_kv.(mp) "k" = Some "x".
Proof.
  intros cm. destruct (execute cm ex_kv) as [[kv1 cm1]| |] eqn:He; [|by vm_compute in He..].
  assert (Get_receive (GetArgs.mk "k" 1 7) cm1 kv1 = GetReply.mk OK "x") as Hr.
  { vm_compute in He. by injection He as <- <-. }
  exists kv1, cm1. split; [done|]. split; [exact Hr|].
  destruct (Get_answers (GetArgs.mk "k" 1 7) cm ex_kv kv1 cm1 kv1 "x" He Hr) as (_ & _ & _ & H).
  exact H.
Defined.
