(* ===== verification/KVReplica.v ===== *)
(** The key/value service on the cluster: the servers of [src/src/kvraft/server.go], each
    fed by the apply channel of its peer of [src/src/raft/raft.go], are copies of one
    server at different points of one sequence of commands. *)
From S2P Require Import Prelude Gob Iface RaftTypes RaftPersist RaftLog RaftCluster RaftNet RaftMatch RaftAgree KVServer KVProps GobImpl.

(** One message for every index up to [c]. *)
Definition indexed (c : Z) (ds : list ApplyMsg.t) : Prop :=
  ApplyMsg.CommandIndex <$> ds = zrange 1 c.

Section replica.
Context `{!RaftCodec}.

Lemma run_app kv ms ns : run kv (ms ++ ns) = (kv1 <- run kv ms;; run kv1 ns).
Proof.
  unfold run. revert kv. induction ms as [|m ms IH]; intros kv; [done|]. cbn.
  by destruct (Applier [] m kv) as [kv1| |]; cbn; [apply IH|..].
Qed.

(** A message that comes twice is applied once. *)
Lemma run_copies kv m ns :
  m.(ApplyMsg.CommandValid) = true → ns = [m] ∨ ns = [m; m] → run kv ns = run kv [m].
Proof.
  intros Hv [-> | ->]; [done|]. unfold run. cbn. destruct (Applier [] m kv) as [kv1| |] eqn:H1; [|done..].
  cbn. by rewrite (Applier_idempotent [] [] m kv kv1 Hv H1).
Qed.

(** What a peer has sent, without the copies. *)
Lemma stream_run c ms :
  stream c ms →
  0 ≤ c ∧ ∃ ds, indexed c ds ∧ (∀ d, d ∈ ds → d ∈ ms ∧ d.(ApplyMsg.CommandValid) = true) ∧
    ∀ kv, run kv ms = run kv ds.
Proof.
  induction 1 as [|c ms m ns _ (Hc & ds & Hix & Hin & Hrun) Hv Hm Hns].
  { split; [done|]. exists []. split_and!; [done|by intros d ?%elem_of_nil|done]. }
  split; [lia|]. exists (ds ++ [m]). split_and!.
  - unfold indexed in *. rewrite fmap_app, Hix, zrange_snoc by lia. cbn. by rewrite Hm.
  - intros d [Hd| ->%list_elem_of_singleton]%elem_of_app.
    + destruct (Hin d Hd). split; [apply elem_of_app; by left|done].
    + split; [apply elem_of_app; right; destruct Hns as [-> | ->]; by left|done].
  - intros kv. rewrite !run_app, Hrun. destruct (run kv ds) as [kv1| |]; [|done..]. cbn [rbind].
    by apply run_copies.
Qed.

Lemma indexed_take c c' ds : indexed c' ds → 0 ≤ c ≤ c' → indexed c (take (Z.to_nat c) ds).
Proof.
  unfold indexed. intros Hix Hc. rewrite fmap_take, Hix. unfold zrange. rewrite <- fmap_take, take_seq.
  do 2 f_equal. lia.
Qed.

Lemma indexed_lookup c ds k d :
  indexed c ds → ds !! k = Some d → d.(ApplyMsg.CommandIndex) = Z.of_nat k + 1.
Proof.
  unfold indexed, zrange. intros Hix Hd.
  assert ((ApplyMsg.CommandIndex <$> ds) !! k = Some d.(ApplyMsg.CommandIndex)) as Hk
    by by rewrite list_lookup_fmap, Hd.
  rewrite Hix, list_lookup_fmap in Hk. apply fmap_Some in Hk as (j & Hj & ->).
  apply lookup_seq in Hj as [-> _]. lia.
Qed.

Lemma indexed_length c ds : 0 ≤ c → indexed c ds → length ds = Z.to_nat c.
Proof.
  unfold indexed. intros Hc Hix. rewrite <- (length_fmap ApplyMsg.CommandIndex), Hix.
  unfold zrange. rewrite length_fmap, length_seq. lia.
Qed.

(** Two sequences of messages with the same commands *)
Lemma indexed_unique c ds es :
  0 ≤ c → indexed c ds → indexed c es →
  (∀ d e, d ∈ ds → e ∈ es → d.(ApplyMsg.CommandIndex) = e.(ApplyMsg.CommandIndex) → d = e) → ds = es.
Proof.
  intros Hc Hd He Hsame. apply list_eq_same_length with (length ds); [by rewrite !(indexed_length c)|done|].
  intros k d e _ Hkd Hke. apply Hsame; [by eapply list_elem_of_lookup_2..|].
  by rewrite (indexed_lookup c ds k d), (indexed_lookup c es k e).
Qed.

(** C3: The servers are replicas, for a cluster of an odd number of peers, under two
    provisos: every election is won with the condition of the waiting loop of
    [startElection] (term and role) still true when the mutex is taken (the argument
    [fresh] is true; the code does not look again, and then two leaders of a term are
    possible, [RaftCluster.stale_guard_two_leaders]); and no heartbeat which a leader
    sent before its first [Start] is handled after the follower has taken entries of
    this leader ([on_time]). At any two points of a run take two servers; if the first
    peer's commit index is not above the second's, there is one sequence of commands,
    one for every index, such that the second server, when it has executed what its
    peer sent it, is in the state after the sequence and the first in the state after
    a prefix of it. The servers may be leaders or followers, and may have crashed and
    applied their log again. The log is not compacted by a key/value server, and a
    call is handled at most once. *)
Theorem servers_are_replicas late n r s0 l s l' s' i j rf rf' :
  Nat.Odd n → nstart n r = Some s0 →
  timely late true l s0 = Some s → timely late true l' s = Some s' →
  s.(cl).(nodes) !! i = Some rf → s'.(cl).(nodes) !! j = Some rf' →
  rf.(commitIndex) ≤ rf'.(commitIndex) →
  ∃ ds, indexed rf'.(commitIndex) ds ∧ ∀ kv,
    run kv (applies rf'.(out)) = run kv ds ∧
    run kv (applies rf.(out)) = run kv (take (Z.to_nat rf.(commitIndex)) ds).
Proof.
  intros Hodd Hs0%layers_init Hl Hl' Hi Hj Hle.
  destruct (layers_timely _ _ _ _ _ _ Hodd Hs0 Hl) as (g & Hg & _).
  destruct (layers_timely _ _ _ _ _ _ Hodd Hg Hl') as (g' & Hg' & Htold).
  pose proof (proj2 (proj2 Hg)) as H3. pose proof (proj2 (proj2 Hg')) as H3'.
  destruct (stream_run _ _ (l3_stream _ _ _ H3 i rf Hi)) as (Hc & ds & Hix & Hin & Hrun).
  destruct (stream_run _ _ (l3_stream _ _ _ H3' j rf' Hj)) as (_ & es & Hix' & Hin' & Hrun').
  exists es. split; [done|]. intros kv. split; [done|]. rewrite Hrun. f_equal.
  eapply indexed_unique; [exact Hc|done|by eapply indexed_take|].
  intros d e Hd (q & He%list_elem_of_lookup_2 & _)%elem_of_take Hsame.
  destruct (Hin d Hd) as [Hdm Hv]. destruct (Hin' e He) as [Hem Hv'].
  assert (d.(ApplyMsg.Command) = e.(ApplyMsg.Command)) as Hcmd.
  { apply (told_unique n g' s'); [done| | |done].
    - apply Htold. by apply (l3_node _ _ _ H3 i rf Hi).
    - by apply (l3_node _ _ _ H3' j rf' Hj). }
  destruct d, e. cbn in *. congruence.
Qed.
End replica.

(** Two commands: the leader has applied the second when the follower has only been
    told of the first. *)
Module Pair.
Definition put : Op.t := Op.mk 7 1 1 "x" "1".
Definition more : Op.t := Op.mk 7 2 2 "x" "2".
Definition cmd (op : Op.t) : list naction := [NBase (ALocal 0 (OpStart (IOp op)))].
Definition both : list naction :=
  wins 0 1 1 ++ cmd put ++ sends 0 1 1 0 ++ answered 0 ++ cmd more ++ sends 0 1 1 1 ++ answered 1.
End Pair.

Lemma servers_are_replicas_witness :
  ∃ s rf rf', s.(cl).(nodes) !! 1%nat = Some rf ∧ s.(cl).(nodes) !! 0%nat = Some rf' ∧
    rf.(commitIndex) = 1 ∧ rf'.(commitIndex) = 2 ∧
    (∃ ds, indexed 2 ds ∧ ∀ kv, @run codec kv (applies rf'.(out)) = @run codec kv ds ∧
       @run codec kv (applies rf.(out)) = @run codec kv (take 1 ds)) ∧
    (∃ kv', @run codec (ex_kv <| mp := Some ∅ |>) (applies rf'.(out)) = Ret kv' ∧ kv'.(mp) = Some {["x" := "12"]}).
Proof.
  destruct (@nstart codec 3 0) as [s0|] eqn:H0; [|by vm_compute in H0].
  destruct (@timely codec false true Pair.both s0) as [s|] eqn:Hs.
  2: { vm_compute in H0. injection H0 as <-. by vm_compute in Hs. }
  assert (Nat.Odd 3) as Hodd by by exists 1%nat.
  pose proof (λ rf rf', @servers_are_replicas codec false 3 0 s0 Pair.both s [] s 1 0 rf rf' Hodd H0 Hs eq_refl) as Hrep.
  exists s. vm_compute in H0. injection H0 as <-. vm_compute in Hs. injection Hs as <-.
  eexists _, _. split; [reflexivity|]. split; [reflexivity|]. split; [reflexivity|]. split; [reflexivity|].
  split; [|eexists; split; vm_compute; reflexivity].
  destruct (Hrep _ _ eq_refl eq_refl) as (ds & Hix & Hrun); [by vm_compute|]. by exists ds.
Defined.
