(* ===== verification/KVClient.v ===== *)
(** The key/value client ([src/src/kvraft/client.go]): the retry loops of
    [Clerk.Get] and [Clerk.PutAppend].

    The network and the servers are a function: what the [k]-th call sees when it
    goes to a server, the flag [ok] and the reply variable as it is after the
    call.  A loop runs for a number of calls; [None] is a loop still running. *)
From S2P Require Import Prelude Gob Iface RaftTypes KVServer.
Open Scope string_scope.
Open Scope list_scope.
Open Scope Z_scope.

Record Clerk := mkClerk {
  servers : nat;     (* len(ck.servers) *)
  number : Z;        (* the number of the last request *)
  leader : Z;        (* the server that answered last *)
  ck_me : Z
}.

#[export] Instance eta_Clerk : Eta Clerk := λ c, mkClerk c.(servers) c.(number) c.(leader) c.(ck_me).

(** [id] is the package's counter of clients. *)
Definition MakeClerk (id : Z) (n : nat) : Z * Clerk :=
  (id + 1, mkClerk n 0 0 (id + 1 - 1)).

Definition next_server (n : nat) (l : Z) : Z := Z.rem (l + 1) (Z.of_nat n).

(** What a loop does with a reply. *)
Inductive verdict (A : Type) :=
  | Done (a : A)     (* return it, and remember the server *)
  | Rotate           (* try the next server *)
  | Again.           (* try the same server *)
Arguments Done {_} _.
Arguments Rotate {_}.
Arguments Again {_}.

Definition Get_verdict (ok : bool) (reply : GetReply.t) : verdict string :=
  let err := reply.(GetReply.Err) in
  if negb ok || bool_decide (err = ErrWrongLeader) || bool_decide (err = "command fail") then Rotate
  else if ok && bool_decide (err = ErrNoKey) then Done ""
  else if ok && bool_decide (err = OK) then Done reply.(GetReply.Value)
  else Again.

Definition PutAppend_verdict (ok : bool) (err : Err) : verdict unit :=
  if negb ok || bool_decide (err = ErrWrongLeader) then Rotate
  else if bool_decide (err = "command fail") then Rotate
  else if bool_decide (err = "Already") then Done tt
  else if ok && bool_decide (err = OK) then Done tt
  else Again.

(** [for { ok := ck.servers[leader].Call(...); ...; time.Sleep(...) }]; an index out
    of range panics, which is [None] as well. *)
Fixpoint clerk_loop {R A} (v : bool → R → verdict A) (n : nat) (net : nat → Z → bool * R)
    (calls : nat) (k : nat) (l : Z) : option (A * Z) :=
  match calls with
  | O => None
  | S calls =>
      if decide (0 ≤ l < Z.of_nat n) then
        let '(ok, reply) := net k l in
        match v ok reply with
        | Done a => Some (a, l)
        | Rotate => clerk_loop v n net calls (S k) (next_server n l)
        | Again => clerk_loop v n net calls (S k) l
        end
      else None
  end.

(** The arguments are built once: every retry sends the same request number. *)
Definition Clerk_Get (calls : nat) (net : GetArgs.t → nat → Z → bool * GetReply.t) (key : string)
    (ck : Clerk) : option (string * Clerk) :=
  let ck := ck <| number := ck.(number) + 1 |> in
  let arg := GetArgs.mk key ck.(number) ck.(ck_me) in
  '(v, l) ← clerk_loop Get_verdict ck.(servers) (net arg) calls 0 ck.(leader);
  Some (v, ck <| leader := l |>).

Definition Clerk_PutAppend (calls : nat) (net : PutAppendArgs.t → nat → Z → bool * Err)
    (key value op : string) (ck : Clerk) : option Clerk :=
  let ck := ck <| number := ck.(number) + 1 |> in
  let arg := PutAppendArgs.mk key value op ck.(number) ck.(ck_me) in
  '(_, l) ← clerk_loop PutAppend_verdict ck.(servers) (net arg) calls 0 ck.(leader);
  Some (ck <| leader := l |>).

Definition Clerk_Put calls net (key value : string) : Clerk → option Clerk :=
  Clerk_PutAppend calls net key value "Put".
Definition Clerk_Append calls net (key value : string) : Clerk → option Clerk :=
  Clerk_PutAppend calls net key value "Append".

(** ** Properties *)

Section clerk.
Context {R A : Type} (v : bool → R → verdict A) (n : nat) (net : nat → Z → bool * R).

Lemma next_server_range l : 0 ≤ l < Z.of_nat n → 0 ≤ next_server n l < Z.of_nat n.
Proof. intros Hl. unfold next_server. apply Z.rem_bound_pos; lia. Qed.

(** The number of steps from server [l] to server [s], going round. *)
Definition dist (l s : Z) : nat := Z.to_nat ((s - l) mod Z.of_nat n).

Lemma dist_next l s :
  0 ≤ l < Z.of_nat n → 0 ≤ s < Z.of_nat n → l ≠ s → dist l s = S (dist (next_server n l) s).
Proof.
  intros Hl Hs Hne. unfold dist, next_server.
  destruct (decide (l + 1 = Z.of_nat n)) as [Heq|Hlt].
  - rewrite Heq, Z.rem_same, Z.sub_0_r by lia. rewrite (Z.mod_small s) by lia.
    replace ((s - l) mod Z.of_nat n) with (s - l + Z.of_nat n); [lia|].
    rewrite <- (Z.mod_add _ 1), Z.mod_small by lia. lia.
  - rewrite Z.rem_small by lia. destruct (Z.lt_ge_cases s l).
    + replace ((s - l) mod Z.of_nat n) with (s - l + Z.of_nat n)
        by (rewrite <- (Z.mod_add _ 1), Z.mod_small by lia; lia).
      replace ((s - (l + 1)) mod Z.of_nat n) with (s - (l + 1) + Z.of_nat n)
        by (rewrite <- (Z.mod_add _ 1), Z.mod_small by lia; lia). lia.
    + rewrite !Z.mod_small by lia. lia.
Qed.

(** The loop goes round until it meets a server that answers. *)
Lemma clerk_loop_finds s a calls k l :
  0 ≤ l < Z.of_nat n → 0 ≤ s < Z.of_nat n → (dist l s < calls)%nat →
  (∀ k, v (net k s).1 (net k s).2 = Done a) →
  (∀ k l, l ≠ s → v (net k l).1 (net k l).2 = Rotate) →
  clerk_loop v n net calls k l = Some (a, s).
Proof.
  intros Hl Hs Hc Hdone Hrot. revert k l Hl Hc.
  induction calls as [|calls IH]; intros k l Hl Hc; [lia|]. cbn [clerk_loop].
  rewrite decide_True by done. specialize (Hdone k). specialize (Hrot k l).
  destruct (decide (l = s)) as [->|Hne].
  - destruct (net k s) as [ok r]. cbn in Hdone. by rewrite Hdone.
  - destruct (net k l) as [ok r]. cbn in Hrot. rewrite Hrot by done.
    apply IH; [by apply next_server_range|]. rewrite (dist_next l s Hl Hs Hne) in Hc. lia.
Qed.

Lemma dist_lt l s : 0 ≤ l < Z.of_nat n → (dist l s < n)%nat.
Proof. intros Hl. unfold dist. pose proof (Z.mod_pos_bound (s - l) (Z.of_nat n)). lia. Qed.
End clerk.

(** A clerk finds the leader: when one server answers and every other one is
    not the leader, fails or cannot be reached, a get returns that server's
    answer after at most as many calls as there are servers, with one request
    number for all of them, and the next request starts at that server. *)
Theorem Clerk_Get_finds_leader net key ck s reply :
  0 ≤ ck.(leader) < Z.of_nat ck.(servers) → 0 ≤ s < Z.of_nat ck.(servers) →
  reply.(GetReply.Err) = OK →
  (∀ arg k, net arg k s = (true, reply)) →
  (∀ arg k l, l ≠ s → (net arg k l).1 = false ∨
     (net arg k l).2.(GetReply.Err) = ErrWrongLeader ∨
     (net arg k l).2.(GetReply.Err) = "command fail") →
  Clerk_Get ck.(servers) net key ck =
    Some (reply.(GetReply.Value), ck <| number := ck.(number) + 1 |> <| leader := s |>).
Proof.
  intros Hl Hs Hok Hans Hoth. unfold Clerk_Get. cbn [servers leader number ck_me over].
  rewrite (clerk_loop_finds Get_verdict _ _ s reply.(GetReply.Value)); [done|done|done| | |].
  - by apply dist_lt.
  - intros k. rewrite Hans. unfold Get_verdict. cbn [fst snd]. by rewrite Hok.
  - intros k l Hne. unfold Get_verdict.
    destruct (Hoth (GetArgs.mk key (ck.(number) + 1) ck.(ck_me)) k l Hne) as [->|[->| ->]];
      [done|by rewrite orb_true_r|by rewrite orb_true_r].
Qed.

Lemma Clerk_Get_finds_leader_witness :
  Clerk_Get 3 (λ _ _ l, if l =? 2 then (true, GetReply.mk OK "x")
                        else (true, GetReply.mk ErrWrongLeader "")) "k" (mkClerk 3 4 0 1) =
    Some ("x", mkClerk 3 5 2 1).
Proof.
  apply (Clerk_Get_finds_leader
    (λ _ _ l, if l =? 2 then (true, GetReply.mk OK "x") else (true, GetReply.mk ErrWrongLeader ""))
    "k" (mkClerk 3 4 0 1) 2 (GetReply.mk OK "x")).
  - cbn. lia.
  - cbn. lia.
  - done.
  - done.
  - intros arg k l Hne. right. left. destruct (Z.eqb_spec l 2); done.
Defined.
