(* ===== verification/PorcBitset.v ===== *)
(** The bit sets of the linearizability checker ([src/src/porcupine/bitset.go]): a
    slice of 64-bit words.  A position out of range is [None]: it panics.  [set]
    and [clear] change the slice they are given and return it; [clone] makes the
    caller's copy, so a set that is kept is never one that changes. *)
From Stdlib Require Import ZArith Lia Btauto.
From S2P Require Import Prelude.
Open Scope Z_scope.

Abbreviation bitset := (list Z).

Definition newBitset (bits : Z) : bitset :=
  let extra := if negb (bits mod 64 =? 0) then 1 else 0 in
  replicate (Z.to_nat (bits / 64 + extra)) 0.

Definition clone (b : bitset) : bitset := b.

Definition bitsetIndex (pos : Z) : Z * Z := (pos / 64, pos mod 64).

Definition set (b : bitset) (pos : Z) : option bitset :=
  let '(major, minor) := bitsetIndex pos in
  v ← zget b major; zset b major (Z.lor v (Z.shiftl 1 minor)).

(** [b[major] &^= (1 << minor)] *)
Definition clear (b : bitset) (pos : Z) : option bitset :=
  let '(major, minor) := bitsetIndex pos in
  v ← zget b major; zset b major (Z.ldiff v (Z.shiftl 1 minor)).

Definition get (b : bitset) (pos : Z) : option bool :=
  let '(major, minor) := bitsetIndex pos in
  v ← zget b major; Some (negb (Z.land v (Z.shiftl 1 minor) =? 0)).

(** [bits.OnesCount64] *)
Definition OnesCount64 (v : Z) : Z :=
  Z.of_nat (count_if (λ i, Z.testbit v (Z.of_nat i)) (seq 0 64)).

Definition popcnt (b : bitset) : Z := foldl (λ total v, total + OnesCount64 v) 0 b.

Definition hash (b : bitset) : Z := foldl Z.lxor (popcnt b mod 2 ^ 64) b.

(** The loop of [equals], for slices of one length. *)
Fixpoint equals_loop (b b2 : bitset) : bool :=
  match b, b2 with
  | x :: b, y :: b2 => if negb (x =? y) then false else equals_loop b b2
  | _, _ => true
  end.

Definition equals (b b2 : bitset) : bool :=
  if negb (zlen b =? zlen b2) then false else equals_loop b b2.

(** ** The set of positions *)

(** [b] has room for the positions below [bits], in words of 64 bits. *)
Definition bits_ok (bits : Z) (b : bitset) : Prop :=
  bits ≤ 64 * zlen b ∧ Forall (λ v, 0 ≤ v < 2 ^ 64) b.

Definition has (b : bitset) (pos : Z) : bool :=
  match zget b (pos / 64) with Some v => Z.testbit v (pos mod 64) | None => false end.

Lemma word_bound v : 0 ≤ v < 2 ^ 64 ↔ 0 ≤ v ∧ ∀ i, 64 ≤ i → Z.testbit v i = false.
Proof.
  split.
  - intros Hv. split; [lia|]. intros i Hi. apply Z.bits_above_log2; [lia|].
    destruct (decide (v = 0)) as [->|]; [cbn; lia|].
    assert (Z.log2 v < 64) by (apply Z.log2_lt_pow2; lia). lia.
  - intros [Hv Hi]. split; [done|]. destruct (decide (v = 0)) as [->|Hne]; [lia|].
    apply Z.log2_lt_pow2; [lia|]. destruct (Z.lt_ge_cases (Z.log2 v) 64) as [|Hge]; [done|].
    pose proof (Z.bit_log2 v ltac:(lia)) as Hbit. by rewrite Hi in Hbit.
Qed.

Lemma testbit_one k i : 0 ≤ k → Z.testbit (Z.shiftl 1 k) i = (i =? k).
Proof.
  intros Hk. rewrite Z.shiftl_1_l. destruct (Z.eqb_spec i k) as [->|Hne].
  - by apply Z.pow2_bits_true.
  - by apply Z.pow2_bits_false.
Qed.

Lemma or_word v k : 0 ≤ v < 2 ^ 64 → 0 ≤ k < 64 → 0 ≤ Z.lor v (Z.shiftl 1 k) < 2 ^ 64.
Proof.
  rewrite !word_bound. intros [Hv Hi] Hk. split.
  - apply Z.lor_nonneg. split; [done|]. apply Z.shiftl_nonneg. lia.
  - intros i Hge. rewrite Z.lor_spec, Hi, testbit_one by lia. cbn. apply Z.eqb_neq. lia.
Qed.

Lemma ldiff_word v k : 0 ≤ v < 2 ^ 64 → 0 ≤ k → 0 ≤ Z.ldiff v (Z.shiftl 1 k) < 2 ^ 64.
Proof.
  rewrite !word_bound. intros [Hv Hi] Hk. split.
  - apply Z.ldiff_nonneg. by left.
  - intros i Hge. by rewrite Z.ldiff_spec, Hi by lia.
Qed.

Lemma bits_ok_zget bits b pos :
  bits_ok bits b → 0 ≤ pos < bits → ∃ v, zget b (pos / 64) = Some v ∧ 0 ≤ v < 2 ^ 64.
Proof.
  intros [Hlen Hall] Hpos. destruct (zget_lt b (pos / 64)) as [v Hv].
  - split; [by apply Z.div_pos; lia|]. apply Z.div_lt_upper_bound; lia.
  - exists v. split; [done|]. rewrite Forall_forall in Hall. apply Hall.
    unfold zget in Hv. case_decide; [|done]. by eapply list_elem_of_lookup_2.
Qed.

Lemma same_pos pos i : pos / 64 = i / 64 → pos mod 64 = i mod 64 → pos = i.
Proof. intros Hd Hm. rewrite (Z.div_mod pos 64), (Z.div_mod i 64) by lia. congruence. Qed.

(** An update of one word that changes one bit. *)
Lemma update_word bits b pos v v' k :
  bits_ok bits b → zget b (pos / 64) = Some v → zset b (pos / 64) v' = Some k →
  0 ≤ v' < 2 ^ 64 → (∀ j, Z.testbit v' j = if j =? pos mod 64 then Z.testbit v' j else Z.testbit v j) →
  bits_ok bits k ∧ ∀ i, has k i = if i =? pos then Z.testbit v' (pos mod 64) else has b i.
Proof.
  intros [Hlen Hall] Hv Hset Hw Hbits. split; [split|].
  - by rewrite (zlen_zset _ _ _ _ Hset).
  - apply zset_Some in Hset as [_ ->]. by apply Forall_insert.
  - intros i. unfold has. destruct (decide (i / 64 = pos / 64)) as [Hd|Hd].
    + rewrite Hd, (zget_zset_eq _ _ _ _ Hset), Hv. destruct (Z.eqb_spec i pos) as [->|Hne]; [done|].
      rewrite Hbits. destruct (Z.eqb_spec (i mod 64) (pos mod 64)); [|done].
      exfalso. by apply Hne, same_pos.
    + rewrite (zget_zset_ne _ _ _ _ _ Hset) by congruence.
      by destruct (Z.eqb_spec i pos) as [->|].
Qed.

Lemma set_ok bits b pos :
  bits_ok bits b → 0 ≤ pos < bits →
  ∃ k, set b pos = Some k ∧ bits_ok bits k ∧ ∀ i, has k i = (i =? pos) || has b i.
Proof.
  intros Hok Hpos. destruct (bits_ok_zget _ _ _ Hok Hpos) as (v & Hv & Hw).
  pose proof (Z.mod_pos_bound pos 64 ltac:(lia)) as Hm.
  unfold set, bitsetIndex. rewrite Hv. cbn [mbind option_bind].
  rewrite zset_lt by by eapply zget_Some_range. eexists. split; [done|].
  pose proof (zset_lt b (pos / 64) (Z.lor v (Z.shiftl 1 (pos mod 64))) (zget_Some_range _ _ _ Hv)) as Hset.
  destruct (update_word bits b pos v _ _ Hok Hv Hset) as [Hok' Hhas].
  - apply or_word; lia.
  - intros j. rewrite Z.lor_spec, testbit_one by lia. destruct (j =? _); [done|]. by rewrite orb_false_r.
  - split; [done|]. intros i. rewrite Hhas, Z.lor_spec, testbit_one, Z.eqb_refl, orb_true_r by lia.
    by destruct (i =? pos).
Qed.

Lemma clear_ok bits b pos :
  bits_ok bits b → 0 ≤ pos < bits →
  ∃ k, clear b pos = Some k ∧ bits_ok bits k ∧ ∀ i, has k i = negb (i =? pos) && has b i.
Proof.
  intros Hok Hpos. destruct (bits_ok_zget _ _ _ Hok Hpos) as (v & Hv & Hw).
  pose proof (Z.mod_pos_bound pos 64 ltac:(lia)) as Hm.
  unfold clear, bitsetIndex. rewrite Hv. cbn [mbind option_bind].
  rewrite zset_lt by by eapply zget_Some_range. eexists. split; [done|].
  pose proof (zset_lt b (pos / 64) (Z.ldiff v (Z.shiftl 1 (pos mod 64))) (zget_Some_range _ _ _ Hv)) as Hset.
  destruct (update_word bits b pos v _ _ Hok Hv Hset) as [Hok' Hhas].
  - apply ldiff_word; lia.
  - intros j. rewrite Z.ldiff_spec, testbit_one by lia. destruct (j =? _); [done|]. by rewrite andb_true_r.
  - split; [done|]. intros i. rewrite Hhas, Z.ldiff_spec, testbit_one, Z.eqb_refl, andb_false_r by lia.
    by destruct (i =? pos).
Qed.

Lemma get_ok bits b pos :
  bits_ok bits b → 0 ≤ pos < bits → get b pos = Some (has b pos).
Proof.
  intros Hok Hpos. destruct (bits_ok_zget _ _ _ Hok Hpos) as (v & Hv & Hw).
  pose proof (Z.mod_pos_bound pos 64 ltac:(lia)) as Hm.
  unfold get, bitsetIndex, has. rewrite Hv. cbn [mbind option_bind]. do 2 f_equal.
  destruct (Z.testbit v (pos mod 64)) eqn:Hb.
  - apply negb_true_iff, Z.eqb_neq. intros Hz.
    assert (Z.testbit (Z.land v (Z.shiftl 1 (pos mod 64))) (pos mod 64) = true) as Ht.
    { by rewrite Z.land_spec, Hb, testbit_one, Z.eqb_refl by lia. }
    by rewrite Hz, Z.bits_0 in Ht.
  - apply negb_false_iff, Z.eqb_eq. apply Z.bits_inj'. intros j Hj.
    rewrite Z.land_spec, testbit_one, Z.bits_0 by lia.
    destruct (Z.eqb_spec j (pos mod 64)) as [->|]; [by rewrite Hb|by rewrite andb_false_r].
Qed.

Lemma newBitset_ok bits : 0 ≤ bits → bits_ok bits (newBitset bits) ∧ ∀ i, has (newBitset bits) i = false.
Proof.
  intros Hbits. unfold newBitset. pose proof (Z.div_mod bits 64 ltac:(lia)) as Hdm.
  pose proof (Z.mod_pos_bound bits 64 ltac:(lia)) as Hm.
  pose proof (Z.div_pos bits 64 Hbits ltac:(lia)) as Hd. split; [split|].
  - unfold zlen. rewrite length_replicate. destruct (Z.eqb_spec (bits mod 64) 0); cbn [negb]; lia.
  - apply Forall_replicate. lia.
  - intros i. unfold has, zget. case_decide; [|done].
    destruct (replicate _ 0 !! _) eqn:Hl; [|done]. apply lookup_replicate in Hl as [-> _].
    apply Z.bits_0.
Qed.

Lemma equals_loop_spec b b2 : length b = length b2 → equals_loop b b2 = true ↔ b = b2.
Proof.
  revert b2. induction b as [|x b IH]; intros [|y b2] Hl; [done..|].
  cbn in Hl |- *. destruct (Z.eqb_spec x y) as [->|Hne]; cbn [negb].
  - rewrite IH by lia. split; [by intros ->|by intros [= ->]].
  - split; [done|]. intros [= ? _]. done.
Qed.

Lemma equals_spec b b2 : equals b b2 = true ↔ b = b2.
Proof.
  unfold equals. destruct (Z.eqb_spec (zlen b) (zlen b2)) as [Hl|Hl]; cbn [negb].
  - apply equals_loop_spec. unfold zlen in Hl. lia.
  - split; [done|]. by intros ->.
Qed.

(** Two sets of one size are equal when they have the same positions. *)
Lemma has_ext bits b b2 :
  bits_ok bits b → bits_ok bits b2 → zlen b = zlen b2 →
  (∀ i, 0 ≤ i < 64 * zlen b → has b i = has b2 i) → b = b2.
Proof.
  intros [_ Hb] [_ Hb2] Hl Hext. apply zget_ext. intros j Hj.
  destruct (Z.lt_ge_cases j (zlen b)) as [Hlt|Hge]; [|by rewrite !zget_ge by lia].
  destruct (zget_lt b j) as [v Hv]; [lia|]. destruct (zget_lt b2 j) as [w Hw]; [lia|].
  rewrite Hv, Hw. f_equal.
  assert (0 ≤ v < 2 ^ 64 ∧ 0 ≤ w < 2 ^ 64) as [Hvw Hww].
  { unfold zget in Hv, Hw. rewrite decide_True in Hv, Hw by done.
    rewrite Forall_forall in Hb, Hb2. split; [apply Hb|apply Hb2]; by eapply list_elem_of_lookup_2. }
  apply Z.bits_inj'. intros i Hi. destruct (Z.lt_ge_cases i 64) as [Hi64|Hi64].
  - specialize (Hext (64 * j + i) ltac:(lia)). unfold has in Hext.
    assert ((64 * j + i) / 64 = j) as Hd.
    { rewrite (Z.mul_comm 64 j), Z.div_add_l, Z.div_small by lia. lia. }
    assert ((64 * j + i) mod 64 = i) as Hm.
    { rewrite (Z.mul_comm 64 j), Z.add_comm, Z.mod_add, Z.mod_small by lia. lia. }
    by rewrite Hd, Hm, Hv, Hw in Hext.
  - apply word_bound in Hvw as [_ Hvw], Hww as [_ Hww]. by rewrite Hvw, Hww by lia.
Qed.
