(* ===== verification/PorcChecker.v ===== *)
(** The linearizability checker ([src/src/porcupine/checker.go], [model.go],
    [porcupine.go]) as it is written: the entries of a history in a doubly linked
    list, the search of [checkSingle] that lifts a call and its return out of the
    list and puts them back when it backtracks, the cache of configurations, and
    [checkParallel].

    The heap of nodes is a list, and a pointer a place in it: a node is allocated
    at the end.  A nil pointer that is followed, an index out of range and a loop
    out of fuel are [None].  An [interface{}] that holds an input or an output is
    [value]; a model's [Step] that is given the other one panics.  The results of
    [checkSingle] that are kept by reference ([*[]int]) are places in a list of
    the sequences allocated.  [sort.Sort(byTime(..))] is a parameter: it need not
    be stable. *)
From S2P Require Import Prelude PorcBitset.
Open Scope Z_scope.

(** ** Operations, events and entries *)

Inductive value (I O : Type) :=
  | VIn (i : I)
  | VOut (o : O).
Arguments VIn {_ _} _.
Arguments VOut {_ _} _.

Module Operation.
Record t (I O : Type) := mk { ClientId : Z; Input : I; Call : Z; Output : O; Return : Z }.
Arguments mk {_ _} _ _ _ _ _.
Arguments ClientId {_ _} _.
Arguments Input {_ _} _.
Arguments Call {_ _} _.
Arguments Output {_ _} _.
Arguments Return {_ _} _.
End Operation.

(** [entryKind] and [EventKind]: [false] is a call, [true] a return. *)
Abbreviation entryKind := bool.
Definition callEntry : entryKind := false.
Definition returnEntry : entryKind := true.

Module Event.
Record t (I O : Type) := mk { ClientId : Z; Kind : entryKind; Value : value I O; Id : Z }.
Arguments mk {_ _} _ _ _ _.
Arguments ClientId {_ _} _.
Arguments Kind {_ _} _.
Arguments Value {_ _} _.
Arguments Id {_ _} _.
End Event.

Module entry.
Record t (I O : Type) := mk {
  kind : entryKind; val : value I O; id : Z; time : Z; clientId : Z
}.
Arguments mk {_ _} _ _ _ _ _.
Arguments kind {_ _} _.
Arguments val {_ _} _.
Arguments id {_ _} _.
Arguments time {_ _} _.
Arguments clientId {_ _} _.
End entry.

(** A model; the functions that only describe are left out. *)
Module Model.
Record t (I O S : Type) := mk {
  Partition : option (list (Operation.t I O) → list (list (Operation.t I O)));
  PartitionEvent : option (list (Event.t I O) → list (list (Event.t I O)));
  Init : S;
  Step : S → I → O → bool * S;
  Equal : option (S → S → bool)
}.
Arguments mk {_ _ _} _ _ _ _ _.
Arguments Partition {_ _ _} _.
Arguments PartitionEvent {_ _ _} _.
Arguments Init {_ _ _} _.
Arguments Step {_ _ _} _.
Arguments Equal {_ _ _} _.
End Model.

Inductive CheckResult := Unknown | Ok | Illegal.
#[export] Instance CheckResult_eq_dec : EqDecision CheckResult.
Proof. solve_decision. Defined.

Section checker.
Context {In Out St : Type} `{!EqDecision St}.
Context (sort : list (entry.t In Out) → list (entry.t In Out)).
Local Abbreviation entry := (entry.t In Out).
Local Abbreviation operation := (Operation.t In Out).
Local Abbreviation event := (Event.t In Out).
Local Abbreviation model := (Model.t In Out St).

Definition NoPartition (history : list operation) : list (list operation) := [history].
Definition NoPartitionEvent (history : list event) : list (list event) := [history].
Definition ShallowEqual (state1 state2 : St) : bool := bool_decide (state1 = state2).

Definition fillDefault (m : model) : model :=
  Model.mk
    (Some (default NoPartition m.(Model.Partition)))
    (Some (default NoPartitionEvent m.(Model.PartitionEvent)))
    m.(Model.Init) m.(Model.Step)
    (Some (default ShallowEqual m.(Model.Equal))).

Definition makeEntries (history : list operation) : list entry :=
  sort (concat (imap (λ i elem,
    [entry.mk callEntry (VIn elem.(Operation.Input)) (Z.of_nat i) elem.(Operation.Call)
       elem.(Operation.ClientId);
     entry.mk returnEntry (VOut elem.(Operation.Output)) (Z.of_nat i) elem.(Operation.Return)
       elem.(Operation.ClientId)]) history)).

(** The state of the loop of [renumber]: the events so far, the map, the next id. *)
Definition renumber_step (st : list event * gmap Z Z * Z) (v : event) : list event * gmap Z Z * Z :=
  let '(e, m, id) := st in
  match m !! v.(Event.Id) with
  | Some r => (e ++ [Event.mk v.(Event.ClientId) v.(Event.Kind) v.(Event.Value) r], m, id)
  | None => (e ++ [Event.mk v.(Event.ClientId) v.(Event.Kind) v.(Event.Value) id],
             <[v.(Event.Id) := id]> m, id + 1)
  end.

Definition renumber (events : list event) : list event :=
  (foldl renumber_step ([], ∅, 0) events).1.1.

Definition convertEntries (events : list event) : list entry :=
  imap (λ i elem,
    entry.mk elem.(Event.Kind) elem.(Event.Value) elem.(Event.Id) (Z.of_nat i)
      elem.(Event.ClientId)) events.

(** ** The linked list *)

Abbreviation ptr := nat.

Record node := mkNode {
  nvalue : option (value In Out);    (* the head holds nil *)
  match_ : option ptr;            (* the return of a call *)
  nid : Z;
  next : option ptr;
  prev : option ptr
}.
#[local] Instance eta_node : Eta node :=
  λ n, mkNode n.(nvalue) n.(match_) n.(nid) n.(next) n.(prev).

Abbreviation heap := (list node).

(** [p.next = v] and [p.prev = v] *)
Definition set_next (p : option ptr) (v : option ptr) (h : heap) : option heap :=
  p ← p; n ← h !! p; Some (<[p := n <| next := v |>]> h).
Definition set_prev (p : option ptr) (v : option ptr) (h : heap) : option heap :=
  p ← p; n ← h !! p; Some (<[p := n <| prev := v |>]> h).

Definition insertBefore (n : ptr) (mark : option ptr) (h : heap) : option heap :=
  match mark with
  | None => Some h
  | Some m =>
      mn ← h !! m;
      let beforeMark := mn.(prev) in
      h ← set_prev mark (Some n) h;
      h ← set_next (Some n) mark h;
      match beforeMark with
      | None => Some h
      | Some _ => h ← set_prev (Some n) beforeMark h; set_next beforeMark (Some n) h
      end
  end.

Fixpoint length_loop (fuel : nat) (n : option ptr) (l : Z) (h : heap) : option Z :=
  match fuel with
  | O => None
  | S fuel =>
      match n with
      | None => Some l
      | Some p => nd ← h !! p; length_loop fuel nd.(next) (l + 1) h
      end
  end.

(** A list has at most every node of the heap. *)
Definition length (n : option ptr) (h : heap) : option Z :=
  length_loop (S (List.length h)) n 0 h.

(** One turn of the loop of [makeLinkedEntries]: the heap, the map, the root. *)
Definition link_entry (elem : entry) (st : heap * gmap Z ptr * option ptr)
    : option (heap * gmap Z ptr * option ptr) :=
  let '(h, m, root) := st in
  let p := List.length h in
  if elem.(entry.kind) then
    h ← insertBefore p root
          (h ++ [mkNode (Some elem.(entry.val)) None elem.(entry.id) None None]);
    Some (h, <[elem.(entry.id) := p]> m, Some p)
  else
    h ← insertBefore p root
          (h ++ [mkNode (Some elem.(entry.val)) (m !! elem.(entry.id)) elem.(entry.id) None None]);
    Some (h, m, Some p).

(** The loop runs from the last entry to the first. *)
Fixpoint link_entries (entries : list entry) : option (heap * gmap Z ptr * option ptr) :=
  match entries with
  | [] => Some ([], ∅, None)
  | elem :: entries => st ← link_entries entries; link_entry elem st
  end.

Definition makeLinkedEntries (entries : list entry) : option (heap * option ptr) :=
  '(h, _, root) ← link_entries entries; Some (h, root).

Definition lift (entry : ptr) (h : heap) : option heap :=
  e ← h !! entry;
  h ← set_next e.(prev) e.(next) h;
  e ← h !! entry;
  h ← set_prev e.(next) e.(prev) h;
  e ← h !! entry; m ← e.(match_);
  mn ← h !! m;
  h ← set_next mn.(prev) mn.(next) h;
  mn ← h !! m;
  match mn.(next) with
  | Some _ => set_prev mn.(next) mn.(prev) h
  | None => Some h
  end.

Definition unlift (entry : ptr) (h : heap) : option heap :=
  e ← h !! entry; m ← e.(match_);
  mn ← h !! m;
  h ← set_next mn.(prev) (Some m) h;
  mn ← h !! m;
  h ← match mn.(next) with
      | Some _ => set_prev mn.(next) (Some m) h
      | None => Some h
      end;
  e ← h !! entry;
  h ← set_next e.(prev) (Some entry) h;
  e ← h !! entry;
  set_prev e.(next) (Some entry) h.

(** ** The search *)

Abbreviation cacheEntry := (bitset * St)%type.

Definition cacheContains (m : model) (cache : gmap Z (list cacheEntry)) (entry : cacheEntry)
    : option bool :=
  eq ← m.(Model.Equal);
  Some (existsb (λ elem, equals entry.1 elem.1 && eq entry.2 elem.2)
    (default [] (cache !! hash entry.1))).

(** The variables of [checkSingle]; [seqs] holds the sequences allocated. *)
Record config := mkConfig {
  nodes : heap;
  entry_ : option ptr;
  linearized : bitset;
  cache : gmap Z (list cacheEntry);
  calls : list (ptr * St);
  state : St;
  longest : list (option nat);
  seqs : list (list Z)
}.
#[local] Instance eta_config : Eta config := λ c,
  mkConfig c.(nodes) c.(entry_) c.(linearized) c.(cache) c.(calls) c.(state) c.(longest) c.(seqs).

Definition call_ids (h : heap) (calls : list (ptr * St)) : option (list Z) :=
  mapM (λ v, nid <$> h !! v.1) calls.

(** Lines 213-226: the calls made so far are a longer prefix for the entries among
    them that have a shorter one; the sequence is allocated when it is needed. *)
Definition save_partial (c : config) : option config :=
  ids ← call_ids c.(nodes) c.(calls);
  '(l, _, ss) ← foldM (λ st id,
    let '(l, sq, ss) := st in
    old ← zget l id;
    shorter ← match old with
              | None => Some true
              | Some a => s ← ss !! a; Some (zlen s <? zlen c.(calls))
              end;
    if shorter : bool then
      let '(a, ss) := match sq with
                      | Some a => (a, ss)
                      | None => (List.length ss, ss ++ [ids])
                      end in
      l ← zset l id (Some a); Some (l, Some a, ss)
    else Some (l, sq, ss))
    (c.(longest), None, c.(seqs)) ids;
  Some (c <| longest := l |> <| seqs := ss |>).

Inductive outcome :=
  | Return (ok : bool) (c : config)
  | Continue (c : config).

(** Lines 191-208: a call; try the operation next. *)
Definition visit_call (m : model) (head p mp : ptr) (n : node) (c : config) : option outcome :=
  mn ← c.(nodes) !! mp;
  match n.(nvalue), mn.(nvalue) with
  | Some (VIn i), Some (VOut o) =>
      let '(ok, newState) := m.(Model.Step) c.(state) i o in
      let skip := Continue (c <| entry_ := n.(next) |>) in
      if ok : bool then
        newLinearized ← set (clone c.(linearized)) n.(nid);
        let newCacheEntry := (newLinearized, newState) in
        seen ← cacheContains m c.(cache) newCacheEntry;
        if negb seen then
          let hsh := hash newLinearized in
          let cch := <[hsh := default [] (c.(cache) !! hsh) ++ [newCacheEntry]]> c.(cache) in
          lin ← set c.(linearized) n.(nid);
          h ← lift p c.(nodes);
          hn ← h !! head;
          Some (Continue (c <| nodes := h |> <| entry_ := hn.(next) |> <| linearized := lin |>
                  <| cache := cch |> <| calls := c.(calls) ++ [(p, c.(state))] |>
                  <| state := newState |>))
        else Some skip
      else Some skip
  | _, _ => None
  end.

(** Lines 209-235: a return; undo the last call. *)
Definition visit_return (computePartial : bool) (c : config) : option outcome :=
  match last c.(calls) with
  | None => Some (Return false c)
  | Some (p, st) =>
      c ← (if computePartial then save_partial c else Some c);
      n ← c.(nodes) !! p;
      lin ← clear c.(linearized) n.(nid);
      h ← unlift p c.(nodes);
      n ← h !! p;
      Some (Continue (c <| nodes := h |> <| entry_ := n.(next) |> <| linearized := lin |>
              <| calls := take (List.length c.(calls) - 1) c.(calls) |> <| state := st |>))
  end.

(** Lines 238-247: everything is linearized. *)
Definition finish (n : Z) (c : config) : option outcome :=
  ids ← call_ids c.(nodes) c.(calls);
  Some (Return true (c <| longest := replicate (Z.to_nat n) (Some (List.length c.(seqs))) |>
                       <| seqs := c.(seqs) ++ [ids] |>)).

(** One turn of the loop; [killed] is what the load of the flag sees. *)
Definition turn (m : model) (computePartial killed : bool) (head : ptr) (n : Z) (c : config)
    : option outcome :=
  hn ← c.(nodes) !! head;
  match hn.(next) with
  | None => finish n c
  | Some _ =>
      if killed then Some (Return false c)
      else
        p ← c.(entry_);
        e ← c.(nodes) !! p;
        match e.(match_) with
        | Some mp => visit_call m head p mp e c
        | None => visit_return computePartial c
        end
  end.

Fixpoint search (fuel : nat) (m : model) (computePartial : bool) (kill : nat → bool) (head : ptr)
    (n : Z) (c : config) : option (bool * config) :=
  match fuel with
  | O => None
  | S fuel =>
      o ← turn m computePartial (kill fuel) head n c;
      match o with
      | Return ok c => Some (ok, c)
      | Continue c => search fuel m computePartial kill head n c
      end
  end.

(** Lines 175-187. *)
Definition check_start (m : model) (history : list entry) : option (ptr * Z * config) :=
  '(h, root) ← makeLinkedEntries history;
  len ← length root h;
  let n := Z.quot len 2 in
  let head := List.length h in
  h ← insertBefore head root (h ++ [mkNode None None (-1) None None]);
  Some (head, n, mkConfig h root (newBitset n) ∅ [] m.(Model.Init)
                   (replicate (Z.to_nat n) None) []).

Definition checkSingle (fuel : nat) (m : model) (history : list entry) (computePartial : bool)
    (kill : nat → bool) : option (bool * config) :=
  '(head, n, c) ← check_start m history;
  search fuel m computePartial kill head n c.

(** The turns a search of [n] operations may take: every operation that can be next
    costs a turn for the call, the search of the others, and a turn back. *)
Fixpoint turns (n : nat) : nat :=
  match n with O => 0 | S n' => (n * (turns n' + 2))%nat end.

Definition check_fuel (history : list entry) : nat := S (turns (Nat.div2 (List.length history))).

(** ** Partitions in parallel *)

(** What the [select] of [checkParallel] receives: the result of a partition, or the
    timeout. *)
Inductive arrival := Result (ok : bool) | TimedOut.

(** The loop of lines 286-304: the answers so far and whether it timed out; [None]
    waits for ever. *)
Fixpoint gather (computeInfo : bool) (len : Z) (arrivals : list arrival) (count : Z) (ok : bool)
    : option (bool * bool) :=
  match arrivals with
  | [] => None
  | Result r :: arrivals =>
      let count := count + 1 in
      let ok := ok && r in
      if negb ok && negb computeInfo then Some (ok, false)
      else if len <=? count then Some (ok, false)
      else gather computeInfo len arrivals count ok
  | TimedOut :: _ => Some (ok, true)
  end.

Record linearizationInfo := mkInfo {
  history_ : list (list entry);
  partialLinearizations : list (list (list Z))
}.

(** Lines 318-332: the different sequences among the longest ones; the map gives them
    in the order [shuffle]. *)
Definition unique_partials (shuffle : list nat → list nat) (c : config) : option (list (list Z)) :=
  mapM (λ a, c.(seqs) !! a)
    (shuffle (elements (list_to_set (omap (λ v, v) c.(longest)) : gset nat))).

(** The [select] receives the results of the partitions, and the timeout ([None]), in
    the order [order].  A partition that delivers its result before the loop ends saw
    no kill flag; for the ones that are waited for afterwards, [kill] says what the
    load of the flag sees at every turn. *)
Definition checkParallel (m : model) (history : list (list entry)) (computeInfo : bool)
    (order : list (option nat)) (kill : nat → nat → bool) (shuffle : list nat → list nat)
    : option (CheckResult * linearizationInfo) :=
  arrivals ← mapM (λ o, match o with
    | Some i => l ← history !! i;
                r ← checkSingle (check_fuel l) m l computeInfo (λ _, false);
                Some (Result r.1)
    | None => Some TimedOut
    end) order;
  '(ok, timedOut) ← gather computeInfo (zlen history) arrivals 0 true;
  info ← (if computeInfo then
            ps ← mapM (λ il, r ← checkSingle (check_fuel il.2) m il.2 computeInfo
                                   (if decide (Some il.1 ∈ order) then λ _, false else kill il.1);
                             unique_partials shuffle r.2)
                   (imap pair history);
            Some (mkInfo history ps)
          else Some (mkInfo [] []));
  Some (if negb ok then Illegal else if timedOut : bool then Unknown else Ok, info).

Section check.
Context (m : model) (verbose : bool).
Context (order : list (option nat)) (kill : nat → nat → bool) (shuffle : list nat → list nat).

Definition checkEvents (history : list event) : option (CheckResult * linearizationInfo) :=
  let m := fillDefault m in
  part ← m.(Model.PartitionEvent);
  checkParallel m (convertEntries ∘ renumber <$> part history) verbose order kill shuffle.

Definition checkOperations (history : list operation) : option (CheckResult * linearizationInfo) :=
  let m := fillDefault m in
  part ← m.(Model.Partition);
  checkParallel m (makeEntries <$> part history) verbose order kill shuffle.
End check.

(** [porcupine.go]; without a timeout, [order] has only partitions. *)
Definition CheckOperations (m : model) (history : list operation) order kill shuffle : option bool :=
  res ← checkOperations m false (Some <$> order) kill shuffle history; Some (bool_decide (res.1 = Ok)).

Definition CheckOperationsTimeout (m : model) (history : list operation) order kill shuffle
    : option CheckResult :=
  res ← checkOperations m false order kill shuffle history; Some res.1.

Definition CheckOperationsVerbose (m : model) (history : list operation) order kill shuffle
    : option (CheckResult * linearizationInfo) :=
  checkOperations m true order kill shuffle history.

Definition CheckEvents (m : model) (history : list event) order kill shuffle : option bool :=
  res ← checkEvents m false (Some <$> order) kill shuffle history; Some (bool_decide (res.1 = Ok)).

Definition CheckEventsTimeout (m : model) (history : list event) order kill shuffle
    : option CheckResult :=
  res ← checkEvents m false order kill shuffle history; Some res.1.

Definition CheckEventsVerbose (m : model) (history : list event) order kill shuffle
    : option (CheckResult * linearizationInfo) :=
  checkEvents m true order kill shuffle history.
End checker.
