(* ===== verification/PorcLin.v ===== *)
(** Linearizability of a history of calls and returns, twice: as the textbook defines
    it (a sequential order of the operations that the model accepts and that keeps
    the order of operations that do not overlap), and as the search of
    [checkSingle] builds it, one operation at a time, each with no return of another
    one before its call.  [linearizable_iff] says that they are the same. *)
From S2P Require Import Prelude PorcBitset PorcChecker.
Open Scope Z_scope.
Import entry.

(** ** The order of the elements of a list *)

Definition precedes {A} (x y : A) (l : list A) : Prop := ∃ l1 l2 l3, l = l1 ++ x :: l2 ++ y :: l3.

Section precedes.
Context {A : Type}.
Implicit Types (l : list A) (x y z : A).

Lemma app_split (X Y C D : list A) q r :
  X ++ q :: Y = C ++ r :: D →
  (∃ C2, C = X ++ q :: C2 ∧ Y = C2 ++ r :: D) ∨ (X = C ∧ q = r ∧ Y = D) ∨
  (∃ X2, X = C ++ r :: X2 ∧ D = X2 ++ q :: Y).
Proof.
  revert C. induction X as [|x X IH]; intros [|c C]; cbn; intros [= Hh Heq].
  - right; left. done.
  - left. exists C. by subst.
  - right; right. exists X. by subst.
  - subst c. destruct (IH C Heq) as [(C2 & -> & ->)|[(-> & -> & ->)|(X2 & -> & ->)]]; eauto 10.
Qed.

Lemma app_split_unique (X Y C D : list A) q :
  NoDup (X ++ q :: Y) → X ++ q :: Y = C ++ q :: D → X = C ∧ Y = D.
Proof.
  intros Hnd Heq. pose proof Heq as Heq'.
  apply app_split in Heq as [(C2 & -> & ->)|[(-> & _ & ->)|(X2 & -> & ->)]]; [|done|];
    apply NoDup_app in Hnd as (_ & HX & Hnd); apply NoDup_cons in Hnd as [Hnd _]; set_solver.
Qed.

Lemma precedes_remove x y z l l' :
  precedes x y (l ++ z :: l') → x ≠ z → y ≠ z → precedes x y (l ++ l').
Proof.
  intros (l1 & l2 & l3 & Heq) Hx Hy. symmetry in Heq.
  apply app_split in Heq as [(C2 & -> & Heq)|[(_ & ? & _)|(X2 & -> & ->)]]; [|done|].
  - apply app_split in Heq as [(C3 & -> & ->)|[(_ & ? & _)|(X2 & -> & ->)]]; [|done|].
    + exists l1, l2, (C3 ++ l'). by rewrite <- !app_assoc, <- app_comm_cons, <- app_assoc.
    + exists l1, (C2 ++ X2), l3. by rewrite <- !app_assoc.
  - exists (l ++ X2), l2, l3. by rewrite <- app_assoc.
Qed.

Lemma precedes_insert x y z l l' : precedes x y (l ++ l') → precedes x y (l ++ z :: l').
Proof.
  intros (l1 & l2 & l3 & Heq).
  assert (∀ p q, l ++ l' = p ++ q → ∃ p' q', l ++ z :: l' = p' ++ q' ∧
    ((p' = p ∧ ∃ a b, q = a ++ b ∧ q' = a ++ z :: b) ∨ (q' = q ∧ ∃ a b, p = a ++ b ∧ p' = a ++ z :: b))) as Hsplit.
  { intros p q H. apply app_eq_inv in H as [(k & -> & ->)|(k & -> & ->)].
    - exists p, (k ++ z :: l'). split; [by rewrite <- app_assoc|]. left. eauto 10.
    - exists (l ++ z :: k), q. split; [by rewrite <- app_assoc|]. right. eauto 10. }
  destruct (Hsplit (l1 ++ [x]) (l2 ++ y :: l3)) as (p & q & -> & [(-> & a & b & Hab & ->)|(-> & a & b & Hab & ->)]).
  { rewrite Heq. by rewrite <- app_assoc. }
  - destruct b as [|b0 b].
    + rewrite app_nil_r in Hab. subst a. exists l1, l2, (l3 ++ [z]). by rewrite <- !app_assoc.
    + apply app_split in Hab as [(C2 & -> & ->)|[(-> & -> & ->)|(X2 & -> & ->)]].
      * exists l1, l2, (C2 ++ z :: b0 :: b). by rewrite <- !app_assoc, <- app_comm_cons.
      * exists l1, (a ++ [z]), b. by rewrite <- !app_assoc.
      * exists l1, (a ++ z :: b0 :: X2), l3. by rewrite <- !app_assoc.
  - destruct b as [|b0 b] using rev_ind.
    + rewrite app_nil_r in Hab. subst a. exists l1, (z :: l2), l3. by rewrite <- !app_assoc.
    + rewrite app_assoc in Hab. apply app_inj_tail in Hab as [-> ->].
      exists (a ++ z :: b), l2, l3. rewrite <- !app_assoc. cbn. by rewrite <- !app_assoc.
Qed.

Lemma precedes_elem x y l : precedes x y l → x ∈ l ∧ y ∈ l.
Proof. intros (l1 & l2 & l3 & ->). set_solver. Qed.

Lemma precedes_cons x y z l : precedes x y (z :: l) ↔ (x = z ∧ y ∈ l) ∨ precedes x y l.
Proof.
  split.
  - intros ([|a l1] & l2 & l3 & Heq); simplify_eq/=; [left; set_solver|]. right. by exists l1, l2, l3.
  - intros [[-> (l1 & l2 & ->)%list_elem_of_split]|(l1 & l2 & l3 & ->)].
    + by exists [], l1, l2.
    + by exists (z :: l1), l2, l3.
Qed.

Lemma precedes_app_r x y l l' : precedes x y l' → precedes x y (l ++ l').
Proof. induction l as [|z l IH]; [done|]. intros H. apply precedes_cons. auto. Qed.

(** Of two elements of a list one is first. *)
Lemma precedes_total x y l : x ∈ l → y ∈ l → x ≠ y → precedes x y l ∨ precedes y x l.
Proof.
  intros (l1 & l2 & ->)%list_elem_of_split Hy Hne.
  apply elem_of_app in Hy as [Hy|Hy].
  - right. apply list_elem_of_split in Hy as (k1 & k2 & ->).
    exists k1, k2, l2. by rewrite <- app_assoc.
  - left. apply elem_of_cons in Hy as [->|Hy]; [done|]. apply precedes_app_r, precedes_cons. auto.
Qed.

Lemma precedes_asym x y l : NoDup l → precedes x y l → precedes y x l → False.
Proof.
  induction 1 as [|z l Hz Hnd IH]; [intros (l1 & l2 & l3 & ?); by destruct l1|].
  rewrite !precedes_cons. intros [[-> Hy]|H1] [[-> Hx]|H2]; try done.
  - by apply precedes_elem in H2 as [_ ?].
  - by apply precedes_elem in H1 as [_ ?].
  - auto.
Qed.

Lemma precedes_before x c l l' : NoDup (l ++ c :: l') → precedes x c (l ++ c :: l') → x ∈ l.
Proof.
  intros Hnd Hp. pose proof (precedes_elem _ _ _ Hp) as [Hx _].
  apply elem_of_app in Hx as [?|Hx]; [done|exfalso]. apply elem_of_cons in Hx as [->|Hx].
  - by eapply precedes_asym.
  - eapply precedes_asym; [exact Hnd|exact Hp|]. apply precedes_app_r, precedes_cons. auto.
Qed.
End precedes.

Lemma precedes_remove2 {A} (x y c r : A) l1 l2 l3 :
  precedes x y (l1 ++ c :: l2 ++ r :: l3) → x ≠ c → x ≠ r → y ≠ c → y ≠ r →
  precedes x y (l1 ++ l2 ++ l3).
Proof.
  intros Hp ????. apply precedes_remove in Hp; [|done..].
  rewrite app_assoc in Hp |- *. by apply precedes_remove in Hp.
Qed.

Lemma precedes_insert2 {A} (x y c r : A) l1 l2 l3 :
  precedes x y (l1 ++ l2 ++ l3) → precedes x y (l1 ++ c :: l2 ++ r :: l3).
Proof.
  intros Hp. apply precedes_insert. rewrite app_assoc in Hp |- *. by apply precedes_insert.
Qed.

Section histories.
Context {In Out : Type}.
Local Abbreviation entry := (entry.t In Out).

(** ** Histories *)

Definition is_call (e : entry) : Prop := e.(kind) = false.
Definition is_return (e : entry) : Prop := e.(kind) = true.
Definition ids (E : list entry) : list Z := id <$> E.

(** Every call is followed by its return, every return preceded by its call, once;
    calls carry inputs and returns outputs. *)
Record matched (E : list entry) : Prop := {
  m_nodup : NoDup ((λ e, (e.(kind), e.(id))) <$> E);
  m_call : ∀ c, c ∈ E → is_call c → ∃ r, is_return r ∧ r.(id) = c.(id) ∧ precedes c r E;
  m_return : ∀ r, r ∈ E → is_return r → ∃ c, is_call c ∧ c.(id) = r.(id) ∧ precedes c r E;
  m_typed : ∀ e, e ∈ E → if e.(kind) then ∃ o, e.(val) = VOut o else ∃ i, e.(val) = VIn i
}.

Lemma call_not_return e e' : is_call e → is_return e' → e ≠ e'.
Proof. unfold is_call, is_return. congruence. Qed.

(** An element is known by its kind and id. *)
Lemma matched_unique E e e' :
  matched E → e ∈ E → e' ∈ E → e.(kind) = e'.(kind) → e.(id) = e'.(id) → e = e'.
Proof.
  intros HE He He' Hk Hid. apply list_elem_of_lookup in He as [i Hi], He' as [j Hj].
  assert (i = j) as ->; [|rewrite Hi in Hj; by injection Hj].
  apply (NoDup_lookup _ _ _ (e.(kind), e.(id)) (m_nodup _ HE)); rewrite list_lookup_fmap.
  - by rewrite Hi.
  - rewrite Hj. cbn. by rewrite Hk, Hid.
Qed.

Lemma matched_NoDup E : matched E → NoDup E.
Proof. intros HE. eapply NoDup_fmap_1, m_nodup, HE. Qed.

(** A call is found with its return after it. *)
Lemma matched_split E c :
  matched E → c ∈ E → is_call c →
  ∃ A B r C, E = A ++ c :: B ++ r :: C ∧ is_return r ∧ r.(id) = c.(id).
Proof.
  intros HE Hc Hcall. destruct (m_call _ HE c Hc Hcall) as (r & Hr & Hid & A & B & C & ->).
  by exists A, B, r, C.
Qed.

(** Taking out an operation leaves a history. *)
Section remove.
Context (A B C : list entry) (c r : entry).
Hypothesis HE : matched (A ++ c :: B ++ r :: C).
Hypothesis Hc : is_call c.
Hypothesis Hr : is_return r.
Hypothesis Hid : r.(id) = c.(id).

Lemma remove_in e : e ∈ A ++ B ++ C ↔ e ∈ A ++ c :: B ++ r :: C ∧ e ≠ c ∧ e ≠ r.
Proof using All.
  pose proof (matched_NoDup _ HE) as Hnd. split.
  - intros He. split; [set_solver|]. apply NoDup_app in Hnd as (_ & HA & Hnd).
    apply NoDup_cons in Hnd as [Hc' Hnd]. apply NoDup_app in Hnd as (_ & HB & Hnd).
    apply NoDup_cons in Hnd as [Hr' _]. set_solver.
  - intros (He & H1 & H2). set_solver.
Qed.

Lemma remove_other e : e ∈ A ++ B ++ C → e.(id) ≠ c.(id).
Proof using All.
  intros He Heq. apply remove_in in He as (He & H1 & H2).
  destruct (kind e) eqn:Hk.
  - apply H2, (matched_unique _ e r HE); [done|set_solver| |congruence].
    unfold is_return in Hr. congruence.
  - apply H1, (matched_unique _ e c HE); [done|set_solver| |done].
    unfold is_call in Hc. congruence.
Qed.

Lemma remove_ids i : i ∈ ids (A ++ B ++ C) ↔ i ∈ ids (A ++ c :: B ++ r :: C) ∧ i ≠ c.(id).
Proof using All.
  unfold ids. rewrite !list_elem_of_fmap. split.
  - intros (e & -> & He). split; [|by apply remove_other]. apply remove_in in He as [He _]. eauto.
  - intros [(e & -> & He) Hne]. exists e. split; [done|]. apply remove_in.
    split; [done|]. split; intros ->; congruence.
Qed.

Lemma matched_remove : matched (A ++ B ++ C).
Proof using All.
  split.
  - eapply sublist_NoDup; [apply (m_nodup _ HE)|]. apply fmap_sublist.
    apply sublist_app; [done|]. apply sublist_cons, sublist_app; [done|]. by apply sublist_cons.
  - intros e He Hcall. pose proof (remove_other e He) as Hne.
    apply remove_in in He as (He & H1 & H2).
    destruct (m_call _ HE e He Hcall) as (r' & Hr' & Hid' & Hp). exists r'. do 2 (split; [done|]).
    eapply precedes_remove2; [exact Hp|done..| |].
    + intros ->. by apply (call_not_return c c).
    + intros ->. congruence.
  - intros e He Hret. pose proof (remove_other e He) as Hne.
    apply remove_in in He as (He & H1 & H2).
    destruct (m_return _ HE e He Hret) as (c' & Hc' & Hid' & Hp). exists c'. do 2 (split; [done|]).
    eapply precedes_remove2; [exact Hp| | |done..].
    + intros ->. congruence.
    + intros ->. by apply (call_not_return r r).
  - intros e He. apply remove_in in He as [He _]. by apply (m_typed _ HE).
Qed.
End remove.

(** The first entry is a call. *)
Lemma matched_head e E : matched (e :: E) → is_call e.
Proof.
  intros HE. unfold is_call. destruct (kind e) eqn:Hk; [|done].
  destruct (m_return _ HE e) as (c & Hc & _ & Hp); [by left|done|].
  apply precedes_cons in Hp as [[-> _]|Hp].
  - unfold is_call in Hc. congruence.
  - apply precedes_elem in Hp as [_ He]. pose proof (matched_NoDup _ HE) as Hnd.
    by apply NoDup_cons in Hnd as [? _].
Qed.

(** Calls at the start have their returns later. *)
Lemma matched_calls A B : matched (A ++ B) → Forall is_call A → (List.length A ≤ List.length B)%nat.
Proof.
  intros HM HA. rewrite Forall_forall in HA.
  rewrite <- (length_fmap id A), <- (length_fmap id B). apply submseteq_length, NoDup_submseteq.
  - apply NoDup_fmap_2_strong.
    + intros x y Hx Hy Hxy. apply (matched_unique _ x y HM); [set_solver..| |done].
      rewrite (HA x Hx). symmetry. by apply HA.
    + pose proof (matched_NoDup _ HM) as Hnd. by apply NoDup_app in Hnd as [? _].
  - intros i (c & -> & Hc)%list_elem_of_fmap.
    destruct (m_call _ HM c ltac:(set_solver) (HA c Hc)) as (r & Hr & <- & [_ Hin]%precedes_elem).
    apply list_elem_of_fmap_2. apply elem_of_app in Hin as [Hin|?]; [|done].
    by destruct (call_not_return r r (HA r Hin) Hr).
Qed.

End histories.

Section lin.
Context {In Out St : Type} (step : St → In → Out → bool * St).
Local Abbreviation entry := (entry.t In Out).

(** ** What the search builds *)

(** From the entries [E] in state [s], the operations [σ] can be next, one after the
    other, which leaves [E'] and the state [s']. *)
Inductive path : list entry → St → list Z → list entry → St → Prop :=
  | path_nil E s : path E s [] E s
  | path_cons A c B r C s i o s' σ E' s'' :
      Forall is_call A → is_call c → is_return r → r.(id) = c.(id) →
      c.(val) = VIn i → r.(val) = VOut o → step s i o = (true, s') →
      path (A ++ B ++ C) s' σ E' s'' →
      path (A ++ c :: B ++ r :: C) s (c.(id) :: σ) E' s''.

Definition lin (E : list entry) (s : St) : Prop := ∃ σ s', path E s σ [] s'.

Lemma path_trans E s σ E1 s1 σ' E2 s2 :
  path E s σ E1 s1 → path E1 s1 σ' E2 s2 → path E s (σ ++ σ') E2 s2.
Proof. induction 1; [done|]. intros Hp. cbn. econstructor; eauto. Qed.

(** The first step of a path, when the place of its operation is known. *)
Lemma path_first A c B r C s σ E' s' :
  matched (A ++ c :: B ++ r :: C) → is_call c → is_return r → r.(id) = c.(id) →
  path (A ++ c :: B ++ r :: C) s (c.(id) :: σ) E' s' →
  Forall is_call A ∧ ∃ i o s1, c.(val) = VIn i ∧ r.(val) = VOut o ∧ step s i o = (true, s1) ∧
    path (A ++ B ++ C) s1 σ E' s'.
Proof.
  intros HM Hc Hr Hid Hp. pose proof (matched_NoDup _ HM) as Hnd.
  inversion Hp as [|A' c' B' r' C' ? i o s1 ? ? ? HA Hc' Hr' Hid' Hi Ho Hs Hrest HE Hcid]; subst.
  assert (c' = c) as ->.
  { apply (matched_unique _ c' c HM); [rewrite <- HE; set_solver|set_solver| |done].
    unfold is_call in *. congruence. }
  assert (r' = r) as ->.
  { apply (matched_unique _ r' r HM); [rewrite <- HE; set_solver|set_solver| |congruence].
    unfold is_return in *. congruence. }
  rewrite <- HE in Hnd. apply app_split_unique in HE as [-> HE]; [|done].
  apply NoDup_app in Hnd as (_ & _ & Hnd). apply NoDup_cons in Hnd as [_ Hnd].
  apply app_split_unique in HE as [-> ->]; [|done]. split; [done|]. eauto 10.
Qed.

Lemma lin_nil s : lin [] s.
Proof. exists [], s. constructor. Qed.

(** ** The definition *)

(** The operation [i] of a history, its input and its output. *)
Definition op_of (E : list entry) (i : Z) (inp : In) (out : Out) : Prop :=
  ∃ c r, c ∈ E ∧ r ∈ E ∧ is_call c ∧ is_return r ∧ c.(id) = i ∧ r.(id) = i ∧
    c.(val) = VIn inp ∧ r.(val) = VOut out.

(** The model accepts the operations in this order. *)
Inductive accepts (E : list entry) : St → list Z → Prop :=
  | accepts_nil s : accepts E s []
  | accepts_cons s i inp out s' σ :
      op_of E i inp out → step s inp out = (true, s') → accepts E s' σ → accepts E s (i :: σ).

(** [σ] has every operation once, is accepted, and an operation that returned before
    another one was called is before it. *)
Record linearization (E : list entry) (s : St) (σ : list Z) : Prop := {
  l_once : NoDup σ;
  l_all : ∀ i, i ∈ σ ↔ i ∈ ids E;
  l_accepts : accepts E s σ;
  l_order : ∀ r c, is_return r → is_call c → precedes r c E → precedes r.(id) c.(id) σ
}.

Definition linearizable (E : list entry) (s : St) : Prop := ∃ σ, linearization E s σ.

(** The same for the operations in [σ] only: those that must be before one of them are
    in it as well. *)
Record partial_linearization (E : list entry) (s : St) (σ : list Z) : Prop := {
  p_once : NoDup σ;
  p_some : ∀ i, i ∈ σ → i ∈ ids E;
  p_accepts : accepts E s σ;
  p_order : ∀ r c, is_return r → is_call c → precedes r c E → c.(id) ∈ σ →
    precedes r.(id) c.(id) σ
}.

(** *** They are the same *)

Lemma accepts_mono E E' s σ :
  (∀ i inp out, i ∈ σ → op_of E i inp out → op_of E' i inp out) → accepts E s σ → accepts E' s σ.
Proof.
  intros Hsub. induction 1 as [|s i inp out s' σ Hop Hs _ IH]; [constructor|].
  econstructor; [apply Hsub; [by left|exact Hop]|exact Hs|].
  apply IH. intros j ? ? Hj. apply Hsub. by right.
Qed.

Lemma path_partial E s σ E' s' :
  matched E → path E s σ E' s' → partial_linearization E s σ.
Proof.
  intros HE Hp. revert HE.
  induction Hp as [E s|A c B r C s i o s' σ E' s'' HA Hc Hr Hid Hi Ho Hs _ IH]; intros HE.
  - split; [constructor|..].
    + intros i Hi. by apply elem_of_nil in Hi.
    + constructor.
    + intros r c _ _ _ Hi. by apply elem_of_nil in Hi.
  - destruct (IH (matched_remove A B C c r HE Hc Hr Hid)) as [Hnd Hall Hacc Hord].
    split.
    + constructor; [|done]. intros Hin. apply Hall in Hin.
      by apply (remove_ids A B C c r HE Hc Hr Hid) in Hin as [_ ?].
    + intros j [->|Hj]%elem_of_cons; [apply list_elem_of_fmap_2; set_solver|].
      apply Hall in Hj. by apply (remove_ids A B C c r HE Hc Hr Hid) in Hj as [? _].
    + econstructor; [|exact Hs|].
      * exists c, r. do 6 (split; [set_solver|]). done.
      * eapply accepts_mono; [|exact Hacc].
        intros j inp out _ (c' & r' & Hc' & Hr' & Hrest). exists c', r'.
        apply (remove_in A B C c r HE Hc Hr Hid) in Hc' as [Hc' _], Hr' as [Hr' _]. done.
    + intros r' c' Hr' Hc' Hpre Hin. pose proof (precedes_elem _ _ _ Hpre) as [Hin' Hinc'].
      pose proof (matched_NoDup _ HE) as HndE.
      assert (c' ≠ c) as Hcc.
      { intros ->. apply precedes_before in Hpre as HrA; [|done]. rewrite Forall_forall in HA.
        by apply (call_not_return r' r'); [apply HA| |]. }
      assert (c'.(id) ∈ σ) as Hc'σ.
      { apply elem_of_cons in Hin as [Heq|?]; [|done]. destruct Hcc.
        apply (matched_unique _ c' c HE); [done|set_solver| |done]. unfold is_call in *. congruence. }
      apply precedes_cons. destruct (decide (r'.(id) = c.(id))) as [Heq|Hne]; [by left|right].
      apply Hord; [done..| |done]. eapply precedes_remove2; [exact Hpre|..].
      * intros ->. by apply (call_not_return c c).
      * intros ->. congruence.
      * done.
      * by apply call_not_return.
Qed.

Lemma path_all E s σ E' s' i : path E s σ E' s' → i ∈ ids E → i ∈ σ ∨ i ∈ ids E'.
Proof.
  induction 1 as [|A c B r C s inp o s1 σ E' s' HA Hc Hr Hid Hi Ho Hs _ IH]; [by right|].
  intros Hin. destruct (decide (i = c.(id))) as [->|Hne]; [left; by left|].
  destruct IH as [?|?]; [|left; by right|by right].
  unfold ids in *. rewrite !fmap_app, fmap_cons, fmap_app, fmap_cons in Hin. set_solver.
Qed.

Lemma path_linearization E s σ s' :
  matched E → path E s σ [] s' → linearization E s σ.
Proof.
  intros HE Hp. destruct (path_partial _ _ _ _ _ HE Hp) as [Hnd Hsome Hacc Hord].
  assert (∀ i, i ∈ ids E → i ∈ σ) as Hall.
  { intros i Hi. destruct (path_all _ _ _ _ _ i Hp Hi) as [?|Hn]; [done|by apply elem_of_nil in Hn]. }
  split; [done|by split; auto|done|]. intros r c Hr Hc Hpre. apply Hord; [done..|].
  apply Hall, list_elem_of_fmap_2. by apply precedes_elem in Hpre as [_ ?].
Qed.

Lemma linearization_path E s σ :
  matched E → linearization E s σ → ∃ s', path E s σ [] s'.
Proof.
  revert E s. induction σ as [|i σ IH]; intros E s HE [Hnd Hall Hacc Hord].
  - exists s. assert (E = []) as ->; [|constructor]. destruct E as [|e E]; [done|].
    exfalso. eapply elem_of_nil, (Hall e.(id)). by left.
  - apply NoDup_cons in Hnd as [Hi Hnd].
    inversion Hacc as [|? ? inp out s1 ? (c & r & Hc & Hr & Hcall & Hret & <- & Hrid & Hvi & Hvo) Hs Hacc']; subst.
    destruct (matched_split E c HE Hc Hcall) as (A & B & r0 & C & -> & Hr0 & Hid0).
    assert (r0 = r) as ->.
    { apply (matched_unique _ r0 r HE); [set_solver|done| |congruence].
      unfold is_return in *. congruence. }
    assert (Forall is_call A) as HA.
    { apply Forall_forall. intros a Ha. unfold is_call. destruct (kind a) eqn:Hk; [exfalso|done].
      assert (precedes a c (A ++ c :: B ++ r :: C)) as Hp.
      { apply list_elem_of_split in Ha as (A1 & A2 & ->).
        exists A1, A2, (B ++ r :: C). by rewrite <- app_assoc. }
      apply (Hord a c Hk Hcall), precedes_cons in Hp as [[_ ?]|Hp]; [done|].
      by apply precedes_elem in Hp as [_ ?]. }
    assert (linearization (A ++ B ++ C) s1 σ) as Hrest.
    { split; [done|..].
      - intros j. rewrite (remove_ids A B C c r HE Hcall Hret Hid0), <- Hall, elem_of_cons.
        split; [intros Hj; split; [by right|by intros ->]|]. intros [[?|?] ?]; done.
      - eapply accepts_mono; [|exact Hacc'].
        intros j jin jout Hj (c' & r' & Hc' & Hr' & Hk & Hk' & <- & Hj' & Hv).
        exists c', r'. rewrite !(remove_in A B C c r HE Hcall Hret Hid0).
        assert (c'.(id) ≠ c.(id)) as Hne by (intros Heq; by rewrite Heq in Hj).
        split; [split; [done|]; split; [congruence|by apply call_not_return]|].
        split; [|done]. split; [done|]. split; [|congruence]. intros ->. by apply (call_not_return c c).
      - intros r' c' Hr' Hc' Hp. pose proof (precedes_elem _ _ _ Hp) as [Hin _].
        apply (precedes_insert2 _ _ c r) in Hp. apply (Hord r' c' Hr' Hc'), precedes_cons in Hp as [[Heq _]|Hp]; [|done].
        by destruct (remove_other A B C c r HE Hcall Hret Hid0 r' Hin). }
    destruct (IH _ _ (matched_remove A B C c r HE Hcall Hret Hid0) Hrest) as (s' & Hp).
    exists s'. by econstructor.
Qed.

Lemma linearizable_iff E s : matched E → linearizable E s ↔ lin E s.
Proof.
  intros HE. split.
  - intros [σ Hl]. exists σ. by apply linearization_path.
  - intros (σ & s' & Hp). exists σ. by eapply path_linearization.
Qed.
End lin.
