(* ===== verification/PorcList.v ===== *)
(** The linked list of [checkSingle] ([src/src/porcupine/checker.go]): [lift] takes a
    call and its return out of it, [unlift] puts back exactly what was there, and
    [makeLinkedEntries] builds the list of the entries, every call with a pointer to
    its return. *)
From S2P Require Import Prelude PorcBitset PorcChecker PorcLin.
Open Scope Z_scope.
Import entry.
#[local] Existing Instance eta_node.

Section list.
Context {In Out : Type}.
Local Abbreviation node := (@PorcChecker.node In Out).
Implicit Types (h : list node) (p q a : nat) (L : list nat).

(** [L] is a list of nodes linked both ways. *)
Definition linked h L : Prop :=
  NoDup L ∧ ∀ X q Y, L = X ++ q :: Y →
    ∃ nd, h !! q = Some nd ∧ nd.(next) = head Y ∧ nd.(prev) = last X.

(** What [lift] and [unlift] leave alone. *)
Definition static h : list (option (value In Out) * option nat * Z) :=
  (λ n, (n.(nvalue), n.(match_), n.(nid))) <$> h.

Lemma static_insert h p n n' :
  h !! p = Some n → n'.(nvalue) = n.(nvalue) → n'.(match_) = n.(match_) → n'.(nid) = n.(nid) →
  static (<[p := n']> h) = static h.
Proof.
  intros Hp H1 H2 H3. unfold static. rewrite list_fmap_insert, H1, H2, H3.
  apply list_insert_id. by rewrite list_lookup_fmap, Hp.
Qed.

Lemma static_lookup h h' p n :
  static h' = static h → h !! p = Some n →
  ∃ n', h' !! p = Some n' ∧ n'.(nvalue) = n.(nvalue) ∧ n'.(match_) = n.(match_) ∧ n'.(nid) = n.(nid).
Proof.
  intros Hs Hp. assert (static h' !! p = static h !! p) as Heq by congruence.
  unfold static in Heq. rewrite !list_lookup_fmap, Hp in Heq.
  destruct (h' !! p) as [n'|]; [|done]. injection Heq as H1 H2 H3. by exists n'.
Qed.

(** Take one node out, and put it back. *)
Definition unlink (p : nat) h : option (list node) :=
  n ← h !! p;
  h ← set_next n.(prev) n.(next) h;
  n ← h !! p;
  match n.(next) with Some _ => set_prev n.(next) n.(prev) h | None => Some h end.

Definition relink (p : nat) h : option (list node) :=
  n ← h !! p;
  h ← set_next n.(prev) (Some p) h;
  n ← h !! p;
  match n.(next) with Some _ => set_prev n.(next) (Some p) h | None => Some h end.

Lemma linked_node h A p B :
  linked h (A ++ p :: B) → ∃ nd, h !! p = Some nd ∧ nd.(next) = head B ∧ nd.(prev) = last A.
Proof. intros [_ Hl]. by apply Hl. Qed.

Lemma unlink_linked h h' A a p C (na : node) :
  linked h (A ++ a :: p :: C) → h !! a = Some na →
  h' !! a = Some (na <| next := head C |>) →
  (∀ d, head C = Some d → ∃ nd : node, h !! d = Some nd ∧ h' !! d = Some (nd <| prev := Some a |>)) →
  (∀ q, q ≠ a → head C ≠ Some q → h' !! q = h !! q) →
  linked h' (A ++ a :: C).
Proof.
  intros [Hnd Hl] Ha Ha' Hd Ho. split.
  { eapply sublist_NoDup; [exact Hnd|]. apply sublist_app; [done|]. by apply sublist_skip, sublist_cons. }
  intros X q Y Heq. symmetry in Heq.
  apply app_split in Heq as [(A2 & -> & ->)|[(-> & -> & ->)|(C1 & -> & ->)]].
  - assert (q ≠ a ∧ head C ≠ Some q) as [Hqa Hqd].
    { apply NoDup_app in Hnd as (_ & Hnd & _). specialize (Hnd q ltac:(set_solver)).
      split; [set_solver|]. destruct C; [done|]. cbn. intros [= ->]. set_solver. }
    rewrite Ho by done.
    destruct (Hl X q (A2 ++ a :: p :: C)) as (nd & Hq & Hn & Hp); [by rewrite <- app_assoc|].
    exists nd. split; [done|]. split; [|done]. rewrite Hn. by destruct A2.
  - destruct (Hl A a (p :: C) eq_refl) as (nd & Hq & _ & Hp). rewrite Ha in Hq. injection Hq as <-.
    exists (na <| next := head C |>). done.
  - destruct (Hl (A ++ a :: p :: C1) q Y) as (nd & Hq & Hn & Hp); [by rewrite <- app_assoc|].
    destruct C1 as [|d C1].
    + destruct (Hd q eq_refl) as (nd' & Hq' & ->). rewrite Hq in Hq'. injection Hq' as <-.
      exists (nd <| prev := Some a |>). split; [done|]. split; [done|]. cbn. by rewrite last_snoc.
    + rewrite Ho.
      * exists nd. split; [done|]. split; [done|]. rewrite Hp, !last_app. done.
      * intros ->. apply NoDup_app in Hnd as (_ & _ & Hnd). apply NoDup_cons in Hnd as [Hnd _]. set_solver.
      * cbn. intros [= ->]. apply NoDup_app in Hnd as (_ & _ & Hnd).
        apply NoDup_cons in Hnd as [_ Hnd]. apply NoDup_cons in Hnd as [_ Hnd].
        apply NoDup_cons in Hnd as [Hnd _]. set_solver.
Qed.

Lemma node_next_id (n : node) v : n.(next) = v → n <| next := v |> = n.
Proof. by intros <-; destruct n. Qed.
Lemma node_prev_id (n : node) v : n.(prev) = v → n <| prev := v |> = n.
Proof. by intros <-; destruct n. Qed.

Lemma unlink_ok h A a p C :
  linked h (A ++ a :: p :: C) →
  ∃ h', unlink p h = Some h' ∧ linked h' (A ++ a :: C) ∧ h' !! p = h !! p ∧
    relink p h' = Some h ∧ static h' = static h.
Proof.
  intros Hl. pose proof Hl as [Hnd _].
  destruct (linked_node h A a (p :: C) Hl) as (na & Ha & Hna & _).
  destruct (linked_node h (A ++ [a]) p C) as (np & Hp & Hnp & Hpp); [by rewrite <- app_assoc|].
  rewrite last_snoc in Hpp. apply NoDup_app in Hnd as (_ & _ & Hnd).
  apply NoDup_cons in Hnd as [Hap Hnd]. apply NoDup_cons in Hnd as [HpC _].
  assert (a ≠ p) as Hne by set_solver.
  set (h1 := <[a := na <| next := head C |>]> h).
  assert (h1 !! p = Some np) as Hp1 by (unfold h1; by rewrite list_lookup_insert_ne).
  assert (h1 !! a = Some (na <| next := head C |>)) as Ha1.
  { unfold h1. apply list_lookup_insert_eq. by eapply lookup_lt_Some. }
  assert (static h1 = static h) as Hs1 by (by eapply static_insert).
  assert (a < List.length h)%nat as Hla by by eapply lookup_lt_Some.
  assert (unlink p h = match head C with Some _ => set_prev (head C) (Some a) h1 | None => Some h1 end) as Hun.
  { unfold unlink. rewrite Hp. cbn [mbind option_bind]. unfold set_next. rewrite Hpp, Hnp.
    cbn [mbind option_bind]. rewrite Ha. cbn [mbind option_bind]. fold h1. rewrite Hp1.
    cbn [mbind option_bind]. by rewrite Hnp, Hpp. }
  destruct C as [|d C]; cbn [head] in *.
  - exists h1. split; [done|]. split; [|split; [congruence|split; [|done]]].
    + eapply unlink_linked; [exact Hl|exact Ha|..].
      * unfold h1. by apply list_lookup_insert_eq.
      * done.
      * intros q Hq _. unfold h1. by apply list_lookup_insert_ne.
    + unfold relink. rewrite Hp1. cbn [mbind option_bind]. unfold set_next. rewrite Hpp.
      cbn [mbind option_bind]. rewrite Ha1. cbn [mbind option_bind].
      rewrite list_lookup_insert_ne by done. rewrite Hp1. cbn [mbind option_bind]. rewrite Hnp.
      f_equal. unfold h1. rewrite list_insert_insert_eq. apply list_insert_id. rewrite Ha. f_equal. symmetry. by destruct na; cbn in *; subst.
  - destruct (linked_node h (A ++ [a; p]) d C) as (nd & Hd & Hnd' & Hpd); [by rewrite <- app_assoc|].
    rewrite last_app in Hpd. cbn in Hpd. assert (d ≠ a ∧ d ≠ p) as [Hda Hdp] by set_solver.
    assert (h1 !! d = Some nd) as Hd1 by (unfold h1; by rewrite list_lookup_insert_ne).
    set (h2 := <[d := nd <| prev := Some a |>]> h1).
    assert (h2 !! p = Some np) as Hp2 by (unfold h2; by rewrite list_lookup_insert_ne).
    assert (d < List.length h1)%nat as Hld by by eapply lookup_lt_Some.
    exists h2. split; [|split; [|split; [congruence|split]]].
    + rewrite Hun. unfold set_prev. cbn [mbind option_bind]. by rewrite Hd1.
    + eapply unlink_linked; [exact Hl|exact Ha|..].
      * unfold h2, h1. rewrite list_lookup_insert_ne by done. by apply list_lookup_insert_eq.
      * intros d' [= <-]. exists nd. split; [done|]. unfold h2. by apply list_lookup_insert_eq.
      * intros q Hq Hqd. cbn in Hqd. unfold h2, h1. rewrite !list_lookup_insert_ne; congruence.
    + unfold relink. rewrite Hp2. cbn [mbind option_bind]. unfold set_next. rewrite Hpp.
      cbn [mbind option_bind].
      assert (h2 !! a = Some (na <| next := Some d |>)) as Ha2.
      { unfold h2. by rewrite list_lookup_insert_ne. }
      assert (h2 !! d = Some (nd <| prev := Some a |>)) as Hd2.
      { unfold h2. by apply list_lookup_insert_eq. }
      rewrite Ha2. cbn [mbind option_bind].
      rewrite list_lookup_insert_ne by done. rewrite Hp2. cbn [mbind option_bind]. rewrite Hnp.
      unfold set_prev. cbn [mbind option_bind].
      rewrite list_lookup_insert_ne by done. rewrite Hd2. cbn [mbind option_bind]. f_equal. apply list_eq. intros q.
      destruct (decide (q = d)) as [->|Hqd].
      { rewrite list_lookup_insert_eq by (by rewrite length_insert; unfold h2; rewrite length_insert).
        rewrite Hd. f_equal. by destruct nd; cbn in *; subst. }
      rewrite list_lookup_insert_ne by done. destruct (decide (q = a)) as [->|Hqa].
      { rewrite list_lookup_insert_eq by (unfold h2, h1; by rewrite !length_insert).
        rewrite Ha. f_equal. by destruct na; cbn in *; subst. }
      rewrite list_lookup_insert_ne by done. unfold h2, h1. by rewrite !list_lookup_insert_ne.
    + unfold h2. rewrite <- Hs1. by eapply static_insert.
Qed.

Lemma lift_unlink h h1 c n1 m :
  unlink c h = Some h1 → h1 !! c = Some n1 → n1.(next) ≠ None → n1.(match_) = Some m →
  lift c h = unlink m h1.
Proof.
  unfold unlink at 1, lift. intros Hu Hc Hn Hm.
  destruct (h !! c) as [n|]; cbn [mbind option_bind] in *; [|done].
  destruct (set_next (prev n) (next n) h) as [hA|]; cbn [mbind option_bind] in *; [|done].
  destruct (hA !! c) as [n2|] eqn:Hc2; cbn [mbind option_bind] in *; [|done].
  destruct (next n2) eqn:Hn2.
  - rewrite Hu. cbn [mbind option_bind]. rewrite Hc. cbn [mbind option_bind]. by rewrite Hm.
  - injection Hu as ->. congruence.
Qed.

Lemma relink_unlift h' h1 h c n' n m :
  h' !! c = Some n' → n'.(match_) = Some m → relink m h' = Some h1 →
  h1 !! c = Some n → n.(next) ≠ None → relink c h1 = Some h →
  unlift c h' = Some h.
Proof.
  unfold relink, unlift. intros Hc Hm Hr Hc1 Hn Hr1. rewrite Hc. cbn [mbind option_bind]. rewrite Hm.
  cbn [mbind option_bind] in *.
  destruct (h' !! m) as [mn|]; cbn [mbind option_bind] in *; [|done].
  destruct (set_next (prev mn) (Some m) h') as [hA|]; cbn [mbind option_bind] in *; [|done].
  destruct (hA !! m) as [mn2|]; cbn [mbind option_bind] in *; [|done].
  rewrite Hr. cbn [mbind option_bind]. rewrite Hc1 in Hr1 |- *. cbn [mbind option_bind] in *.
  destruct (set_next (prev n) (Some c) h1) as [hB|] eqn:HB; cbn [mbind option_bind] in *; [|done].
  destruct (hB !! c) as [n2|] eqn:Hc2; cbn [mbind option_bind] in *; [|done].
  destruct (next n2) eqn:Hn2; [exact Hr1|exfalso].
  unfold set_next in HB. destruct (prev n) as [p|]; cbn [mbind option_bind] in HB; [|done].
  destruct (h1 !! p) as [pn|] eqn:Hp; cbn [mbind option_bind] in HB; [|done]. injection HB as <-.
  destruct (decide (p = c)) as [->|Hne].
  - rewrite list_lookup_insert_eq in Hc2 by by eapply lookup_lt_Some.
    injection Hc2 as <-. by cbn in Hn2.
  - rewrite list_lookup_insert_ne in Hc2 by done. congruence.
Qed.

(** [lift] takes out a call and its return; [unlift] undoes it. *)
Lemma lift_ok h A a c B r C nc :
  linked h (A ++ a :: c :: B ++ r :: C) → h !! c = Some nc → nc.(match_) = Some r →
  ∃ h', lift c h = Some h' ∧ linked h' (A ++ a :: B ++ C) ∧ unlift c h' = Some h ∧
    static h' = static h ∧ h !! c = Some nc ∧ nc.(next) = head (B ++ r :: C).
Proof.
  intros Hl Hc Hm.
  destruct (unlink_ok h A a c (B ++ r :: C) Hl) as (h1 & Hu1 & Hl1 & Hc1 & Hr1 & Hs1).
  assert (nc.(next) = head (B ++ r :: C)) as Hn.
  { destruct (linked_node h (A ++ [a]) c (B ++ r :: C)) as (nd & Hnd & Hn & _);
      [by rewrite <- app_assoc|congruence]. }
  assert (nc.(next) ≠ None) as Hnn by (rewrite Hn; by destruct B).
  assert (∃ A' a', A ++ a :: B = A' ++ [a']) as (A' & a' & HA').
  { destruct (exists_last (l := A ++ a :: B)) as (A' & a' & ->); [by destruct A|by eauto]. }
  assert (A ++ a :: B ++ r :: C = A' ++ a' :: r :: C) as HL.
  { change (a :: B ++ r :: C) with ((a :: B) ++ r :: C). rewrite app_assoc, HA'. by rewrite <- app_assoc. }
  rewrite HL in Hl1.
  destruct (unlink_ok h1 A' a' r C Hl1) as (h2 & Hu2 & Hl2 & _ & Hr2 & Hs2).
  rewrite Hc in Hc1. exists h2. split; [|split; [|split; [|split; [congruence|done]]]].
  - by rewrite (lift_unlink h h1 c nc r).
  - replace (A ++ a :: B ++ C) with (A' ++ a' :: C); [done|].
    change (a :: B ++ C) with ((a :: B) ++ C). rewrite app_assoc, HA'. by rewrite <- app_assoc.
  - destruct (static_lookup h1 h2 c nc Hs2 Hc1) as (n2 & Hc2 & _ & Hm2 & _).
    apply (relink_unlift h2 h1 h c n2 nc r); congruence.
Qed.

(** *** Building the list *)

Lemma insertBefore_new h L p n root :
  h !! p = Some n → n.(next) = None → n.(prev) = None → p ∉ L → root = head L →
  linked h L →
  ∃ h', insertBefore p root h = Some h' ∧ linked h' (p :: L) ∧ static h' = static h.
Proof.
  intros Hp Hn Hpr HpL -> [Hnd Hl]. destruct L as [|q L]; cbn [head insertBefore].
  - exists h. split; [done|]. split; [|done]. split; [by constructor; [|constructor]|].
    intros X x Y Heq. destruct X as [|? [|]]; simplify_eq/=. by exists n.
  - destruct (Hl [] q L eq_refl) as (nq & Hq & Hnq & Hpq). cbn in Hpq.
    assert (q ≠ p) as Hqp by set_solver. rewrite Hq. cbn [mbind option_bind].
    set (h1 := <[q := nq <| prev := Some p |>]> h).
    assert (h1 !! p = Some n) as Hp1 by (unfold h1; by rewrite list_lookup_insert_ne).
    set (h2 := <[p := n <| next := Some q |>]> h1).
    assert (h1 !! q = Some (nq <| prev := Some p |>)) as Hq1.
    { unfold h1. apply list_lookup_insert_eq. by eapply lookup_lt_Some. }
    exists h2. split; [|split].
    + unfold set_prev, set_next. cbn [mbind option_bind]. rewrite Hpq, Hq.
      cbn [mbind option_bind]. fold h1. rewrite Hp1. by cbn [mbind option_bind].
    + split; [by constructor|]. intros X x Y Heq. destruct X as [|p' X]; injection Heq as <- Heq.
      * exists (n <| next := Some q |>). subst Y. split; [|done]. unfold h2.
        apply list_lookup_insert_eq. by eapply lookup_lt_Some.
      * assert (x ≠ p) as Hxp by (intros ->; rewrite Heq in HpL; set_solver).
        destruct (Hl X x Y Heq) as (nd & Hx & Hxn & Hxp'). unfold h2.
        rewrite list_lookup_insert_ne by done. destruct X as [|q' X]; injection Heq as <- Heq.
        -- exists (nq <| prev := Some p |>). rewrite Hq in Hx. injection Hx as <-. done.
        -- exists nd. split; [|done]. unfold h1. rewrite list_lookup_insert_ne; [done|].
           intros ->. apply NoDup_cons in Hnd as [Hnd _]. set_solver.
    + unfold h2, h1. rewrite (static_insert _ p n) by done. by eapply static_insert.
Qed.

Lemma linked_alloc h L nd : linked h L → linked (h ++ [nd]) L.
Proof.
  intros [Hnd Hl]. split; [done|]. intros X q Y Heq. destruct (Hl X q Y Heq) as (n & Hq & ?).
  exists n. split; [|done]. by apply lookup_app_l_Some.
Qed.

Lemma linked_bound h L p : linked h L → p ∈ L → (p < List.length h)%nat.
Proof.
  intros [_ Hl] (X & Y & ->)%list_elem_of_split. destruct (Hl X p Y eq_refl) as (n & Hp & _).
  by eapply lookup_lt_Some.
Qed.
End list.

(** ** The list of a history *)

Section history.
Context {In Out : Type}.
Local Abbreviation node := (@PorcChecker.node In Out).
Local Abbreviation entry := (entry.t In Out).
Implicit Types (h : list node) (E : list entry) (full : list (nat * entry)).

(** What the search reads of the node of an entry, in the list [full]. *)
Record node_ok full (nd : node) (e : entry) : Prop := {
  no_value : nd.(nvalue) = Some e.(val);
  no_id : nd.(nid) = e.(id);
  no_match : if e.(kind) then nd.(match_) = None
    else ∃ q r, nd.(match_) = Some q ∧ (q, r) ∈ full ∧ is_return r ∧ r.(id) = e.(id)
}.

Definition nodes_ok full h : Prop :=
  ∀ p e, (p, e) ∈ full → ∃ nd, h !! p = Some nd ∧ node_ok full nd e.

Lemma node_ok_static full (nd nd' : node) e :
  nd'.(nvalue) = nd.(nvalue) → nd'.(match_) = nd.(match_) → nd'.(nid) = nd.(nid) →
  node_ok full nd e → node_ok full nd' e.
Proof.
  intros H1 H2 H3 [Hv Hi Hm]. split; [congruence..|]. by rewrite H2.
Qed.

Lemma nodes_ok_static full h h' : static h' = static h → nodes_ok full h → nodes_ok full h'.
Proof.
  intros Hs Hn p e Hpe. destruct (Hn p e Hpe) as (nd & Hp & Hnd).
  destruct (static_lookup h h' p nd Hs Hp) as (nd' & Hp' & ? & ? & ?).
  exists nd'. split; [done|]. by eapply node_ok_static.
Qed.

Lemma nodes_ok_mono full full' (e : entry) nd :
  (∀ x, x ∈ full → x ∈ full') → node_ok full nd e → node_ok full' nd e.
Proof.
  intros Hsub [Hv Hi Hm]. split; [done..|]. destruct (kind e); [done|].
  destruct Hm as (q & r & Hq & Hin & Hr). exists q, r. auto.
Qed.

(** The return of every call comes later. *)
Definition later E : Prop :=
  ∀ X c Y, E = X ++ c :: Y → is_call c → ∃ r, r ∈ Y ∧ is_return r ∧ r.(id) = c.(id).

Lemma later_cons e E : later (e :: E) → later E.
Proof. intros Hl X c Y ->. by apply (Hl (e :: X)). Qed.

Lemma matched_later E : matched E → later E.
Proof.
  intros HE X c Y Heq Hc.
  destruct (m_call _ HE c ltac:(subst; set_solver) Hc) as (r & Hr & Hid & Hp).
  exists r. split; [|done]. subst E.
  pose proof (matched_NoDup _ HE) as Hnd. pose proof (precedes_elem _ _ _ Hp) as [_ Hin].
  apply elem_of_app in Hin as [Hin|Hin].
  - exfalso. eapply precedes_asym; [exact Hnd|exact Hp|].
    apply list_elem_of_split in Hin as (X1 & X2 & ->).
    exists X1, X2, Y. by rewrite <- app_assoc.
  - apply elem_of_cons in Hin as [->|?]; [|done]. by destruct (call_not_return c c).
Qed.

(** The state of [link_entries]: the list, its nodes, and the map of the returns. *)
Record links full h (m : gmap Z nat) (root : option nat) : Prop := {
  lk_linked : linked h full.*1;
  lk_root : root = head full.*1;
  lk_nodes : nodes_ok full h;
  lk_map : ∀ i p, m !! i = Some p → ∃ r, (p, r) ∈ full ∧ is_return r ∧ r.(id) = i;
  lk_dom : ∀ p r, (p, r) ∈ full → is_return r → is_Some (m !! r.(id))
}.

Lemma link_node full h m root e nd :
  links full h m root →
  nd.(nvalue) = Some e.(val) → nd.(nid) = e.(id) → nd.(next) = None → nd.(prev) = None →
  node_ok ((List.length h, e) :: full) nd e →
  ∃ h', insertBefore (List.length h) root (h ++ [nd]) = Some h' ∧
    List.length h' = S (List.length h) ∧
    linked h' ((List.length h, e) :: full).*1 ∧ nodes_ok ((List.length h, e) :: full) h'.
Proof.
  intros [Hl Hroot Hn Hm Hd] Hv Hi Hnx Hpv Hnd.
  assert (List.length h ∉ full.*1) as Hfresh.
  { intros Hin. pose proof (linked_bound h _ _ Hl Hin). lia. }
  destruct (insertBefore_new (h ++ [nd]) full.*1 (List.length h) nd root) as (h' & Hins & Hl' & Hs);
    [by apply list_lookup_middle|done..|by apply linked_alloc|].
  exists h'. split; [done|]. split; [|split; [done|]].
  - assert (List.length (static h') = List.length (static (h ++ [nd]))) as Hlen by by rewrite Hs.
    unfold static in Hlen. rewrite !length_fmap, length_app in Hlen. cbn in Hlen. lia.
  - apply (nodes_ok_static _ (h ++ [nd])); [done|]. intros p e' [Heq|Hin]%elem_of_cons.
    + injection Heq as -> ->. exists nd. split; [by apply list_lookup_middle|done].
    + destruct (Hn p e' Hin) as (nd' & Hp & Hok). exists nd'. split; [by apply lookup_app_l_Some|].
      eapply nodes_ok_mono; [|exact Hok]. intros. by right.
Qed.

Lemma link_entries_ok E :
  later E →
  ∃ full h m root, link_entries E = Some (h, m, root) ∧ full.*2 = E ∧
    List.length h = List.length E ∧ links full h m root.
Proof.
  intros Hl. induction E as [|e E IH].
  - exists [], [], ∅, None. split; [done|]. split; [done|]. split; [done|]. split.
    + split; [constructor|]. intros X q Y Heq. by destruct X.
    + done.
    + intros p e Hin. by apply elem_of_nil in Hin.
    + intros i p Hm. by rewrite lookup_empty in Hm.
    + intros p r Hin. by apply elem_of_nil in Hin.
  - destruct (IH (later_cons e E Hl)) as (full & h & m & root & Heq & HE & Hlen & Hlk).
    cbn [link_entries]. rewrite Heq. cbn [mbind option_bind]. unfold link_entry.
    pose proof Hlk as [_ _ _ Hm Hd]. destruct (kind e) eqn:Hk.
    + destruct (link_node full h m root e (mkNode (Some (val e)) None (id e) None None) Hlk)
        as (h' & Hins & Hlen' & Hl' & Hn'); [done..| |].
      { split; [done..|]. by rewrite Hk. }
      rewrite Hins. cbn [mbind option_bind].
      exists ((List.length h, e) :: full), h', (<[id e := List.length h]> m), (Some (List.length h)).
      split; [done|]. split; [cbn; by rewrite HE|]. split; [cbn; lia|]. split; [done..| |].
      * intros i p Hi. destruct (decide (i = id e)) as [->|Hne].
        -- rewrite lookup_insert_eq in Hi. injection Hi as <-. exists e. split; [by left|done].
        -- rewrite lookup_insert_ne in Hi by done. destruct (Hm i p Hi) as (r & Hin & Hr).
           exists r. split; [by right|done].
      * intros p r [Hpr|Hin]%elem_of_cons Hr.
        -- injection Hpr as -> ->. by rewrite lookup_insert_eq.
        -- destruct (decide (id r = id e)) as [->|Hne]; [by rewrite lookup_insert_eq|].
           rewrite lookup_insert_ne by done. by eapply Hd.
    + destruct (Hl [] e E eq_refl Hk) as (r & Hr & Hret & Hid).
      rewrite <- HE in Hr. apply list_elem_of_fmap in Hr as ([q r'] & -> & Hin). cbn in *.
      destruct (Hd q r' Hin Hret) as [q' Hq']. rewrite Hid in Hq'.
      destruct (Hm _ _ Hq') as (r & Hin' & Hret' & Hid').
      destruct (link_node full h m root e (mkNode (Some (val e)) (m !! id e) (id e) None None) Hlk)
        as (h' & Hins & Hlen' & Hl' & Hn'); [done..| |].
      { split; [done..|]. rewrite Hk. exists q', r. split; [done|]. split; [by right|done]. }
      rewrite Hins. cbn [mbind option_bind].
      exists ((List.length h, e) :: full), h', m, (Some (List.length h)).
      split; [done|]. split; [cbn; by rewrite HE|]. split; [cbn; lia|]. split; [done..| |].
      * intros i p Hi. destruct (Hm i p Hi) as (r2 & ? & ?). exists r2. split; [by right|done].
      * intros p r2 [Hpr|Hin2]%elem_of_cons Hr2; [|by eapply Hd].
        injection Hpr as -> ->. unfold is_return in Hr2. congruence.
Qed.
End history.
