(* ===== verification/PorcSearch.v ===== *)
(** The search of [checkSingle] is right: on a history with matching calls and returns
    it ends, within [check_fuel] turns, and it answers [true] exactly when the history
    is linearizable.

    From a configuration at the start of the remaining entries the search either
    finishes, or comes back to the same configuration at a return, having shown that
    nothing can be linearized from there; the cache holds only configurations that
    lead nowhere. *)
From S2P Require Import Prelude PorcBitset PorcChecker PorcLin PorcList.
Open Scope Z_scope.
Import entry.
#[local] Existing Instance eta_node.
#[local] Existing Instance eta_config.

(** ** The search *)

Section search.
Context {In Out St : Type}.
Local Abbreviation node := (@PorcChecker.node In Out).
Local Abbreviation entry := (entry.t In Out).
Local Abbreviation config := (@PorcChecker.config In Out St).
Context (m : Model.t In Out St) (eq : St → St → bool).
Hypothesis Heq : m.(Model.Equal) = Some eq.
Local Abbreviation step := m.(Model.Step).

(** States that the model calls equal accept the same operations. *)
Hypothesis Hequal : ∀ s t i o, eq s t = true → (step s i o).1 = true →
  (step t i o).1 = true ∧ eq (step s i o).2 (step t i o).2 = true.

Lemma path_equal E s t σ E' s' :
  eq s t = true → path step E s σ E' s' → ∃ t', path step E t σ E' t'.
Proof using All.
  intros Hst Hp. revert t Hst. induction Hp as [|A c B r C s i o s1 σ E' s' HA Hc Hr Hid Hi Ho Hs _ IH]; intros t Hst.
  - exists t. constructor.
  - destruct (Hequal s t i o Hst) as [H1 H2]; [by rewrite Hs|]. rewrite Hs in H2. cbn in H2.
    destruct (IH _ H2) as (t' & Hp). exists t'. econstructor; try done.
    destruct (step t i o) as [b t1]. cbn in *. by subst b.
Qed.

Context (full : list (nat * entry)) (n : Z) (head_ : nat) (partial : bool).
Hypothesis Hmatched : matched full.*2.
Hypothesis Hids : ∀ e, e ∈ full.*2 → 0 ≤ e.(id) < n.

(** The entries whose operation is not in a set. *)
Definition rem (b : bitset) : list (nat * entry) := filter (λ pe, has b (id pe.2) = false) full.

Definition ops_ok (b : bitset) : Prop :=
  bits_ok n b ∧ zlen b = zlen (newBitset n) ∧ ∀ i, has b i = true → 0 ≤ i < n.

(** No way to go on from a configuration. *)
Definition dead (b : bitset) (t : St) : Prop := ¬ lin step (rem b).*2 t.

Definition cached (c : config) (b : bitset) (t : St) : Prop :=
  ∃ k l, c.(cache) !! k = Some l ∧ (b, t) ∈ l.

Definition above (b b' : bitset) : Prop :=
  (∀ i, has b i = true → has b' i = true) ∧ ∃ i, has b' i = true ∧ has b i = false.

(** A sequence kept for entry [i] is a start of a linearization that has [i] in it. *)
Definition partial_ok (i : nat) (σ : list Z) : Prop :=
  ∃ E' s', path step full.*2 m.(Model.Init) σ E' s' ∧ Z.of_nat i ∈ σ.

Definition longest_ok (l : list (option nat)) (ss : list (list Z)) : Prop :=
  zlen l = n ∧ ∀ i a, l !! i = Some (Some a) → ∃ σ, ss !! a = Some σ ∧ partial_ok i σ.

Record inv (c : config) : Prop := {
  i_linked : linked c.(nodes) (head_ :: (rem c.(linearized)).*1);
  i_nodes : nodes_ok full c.(nodes);
  i_set : ops_ok c.(linearized);
  i_calls : ∃ σ, call_ids c.(nodes) c.(calls) = Some σ ∧
    path step full.*2 m.(Model.Init) σ (rem c.(linearized)).*2 c.(state);
  i_cache : ∀ b t, cached c b t → ops_ok b;
  i_longest : longest_ok c.(longest) c.(seqs)
}.

Lemma path_matched E s σ E' s' : matched E → path step E s σ E' s' → matched E'.
Proof using All.
  intros HE Hp. induction Hp as [|A c B r C s i o s1 σ E' s' HA Hc Hr Hid Hi Ho Hs _ IH]; [done|].
  apply IH. by eapply matched_remove.
Qed.

Lemma path_ids E s σ E' s' : path step E s σ E' s' → ∀ i, i ∈ σ → i ∈ ids E.
Proof using All.
  induction 1 as [|A c B r C s i o s1 σ E' s' HA Hc Hr Hid Hi Ho Hs _ IH]; intros j Hj.
  - by apply elem_of_nil in Hj.
  - apply elem_of_cons in Hj as [->|Hj].
    + apply list_elem_of_fmap_2. set_solver.
    + apply IH in Hj. unfold ids in *. rewrite !fmap_app, ?fmap_cons, ?fmap_app in *. set_solver.
Qed.

Lemma call_ids_static (h h' : list node) (l : list (nat * St)) :
  static h' = static h → call_ids h' l = call_ids h l.
Proof using All.
  intros Hs. unfold call_ids. induction l as [|[p s] l IH]; [done|]. cbn [mapM fst].
  assert (nid <$> h' !! p = nid <$> h !! p) as ->; [|by rewrite IH].
  assert ((static h' !! p) = (static h !! p)) as Hp by congruence. unfold static in Hp.
  rewrite !list_lookup_fmap in Hp. destruct (h' !! p), (h !! p); cbn in *; congruence.
Qed.

Lemma inv_matched c : inv c → matched (rem c.(linearized)).*2.
Proof using All.
  intros Hc. destruct (i_calls c Hc) as (σ & _ & Hp). by eapply path_matched.
Qed.

(** *** The partial linearizations *)

Lemma save_partial_ok c :
  inv c → ∃ l ss, save_partial c = Some (c <| longest := l |> <| seqs := ss |>) ∧
    longest_ok l ss.
Proof using All.
  intros Hc. destruct (i_calls c Hc) as (σ & Hcalls & Hp).
  unfold save_partial. rewrite Hcalls. cbn [mbind option_bind].
  set (f := λ (st : list (option nat) * option nat * list (list Z)) id, _).
  assert (∀ τ l sq ss, (∀ i, i ∈ τ → i ∈ σ) → longest_ok l ss →
    (∀ a, sq = Some a → ss !! a = Some σ) →
    ∃ l' sq' ss', foldM f (l, sq, ss) τ = Some (l', sq', ss') ∧ longest_ok l' ss') as Hloop.
  { induction τ as [|i τ IH]; intros l sq ss Hτ Hl Hsq; [by exists l, sq, ss|].
    assert (0 ≤ i < n) as Hi.
    { pose proof (path_ids _ _ _ _ _ Hp i (Hτ i ltac:(by left))) as Hin.
      apply list_elem_of_fmap in Hin as (e & -> & He). by apply Hids. }
    assert (∃ l' sq' ss', f (l, sq, ss) i = Some (l', sq', ss') ∧ longest_ok l' ss' ∧
      ∀ a, sq' = Some a → ss' !! a = Some σ) as (l' & sq' & ss' & Hf & Hl' & Hsq').
    2: { cbn [foldM]. rewrite Hf. cbn [mbind option_bind].
         apply IH; [intros; apply Hτ; by right|done..]. }
    clear IH. pose proof Hl as [Hlen Hl']. unfold f. clear f.
    destruct (zget_lt l i) as [old Hold]; [lia|]. rewrite Hold. cbn [mbind option_bind].
    assert (∃ shorter : bool, match old with
      | None => Some true
      | Some a => s ← ss !! a; Some (zlen s <? zlen c.(calls))
      end = Some shorter) as [shorter Hshorter].
    { destruct old as [a|]; [|by eexists].
      unfold zget in Hold. rewrite decide_True in Hold by lia.
      destruct (Hl' _ _ Hold) as (τ' & -> & _). cbn [mbind option_bind]. by eexists. }
    setoid_rewrite Hshorter. cbn [mbind option_bind]. destruct shorter; [|by exists l, sq, ss].
    assert (∃ a ss', match sq with Some a => (a, ss) | None => (List.length ss, ss ++ [σ]) end = (a, ss')
      ∧ ss' !! a = Some σ ∧ ∀ b τ', ss !! b = Some τ' → ss' !! b = Some τ') as (a & ss' & -> & Ha & Hss).
    { destruct sq as [a|].
      - exists a, ss. split; [done|]. split; [by apply Hsq|done].
      - exists (List.length ss), (ss ++ [σ]). split; [done|]. split; [by apply list_lookup_middle|].
        intros b τ' Hb. by apply lookup_app_l_Some. }
    rewrite zset_lt by lia. cbn [mbind option_bind]. eexists _, _, _. split; [done|].
    split; [|by intros ? [= <-]]. split.
    - unfold zlen in *. by rewrite length_insert.
    - intros j b Hj. apply list_lookup_insert_Some in Hj as [(<- & [= <-] & _)|[_ Hj]].
      + exists σ. split; [done|]. eexists _, _. split; [exact Hp|].
        replace (Z.of_nat (Z.to_nat i)) with i by lia. apply Hτ. by left.
      + destruct (Hl' j b Hj) as (τ' & Hτ' & ?). exists τ'. eauto. }
  destruct (Hloop σ c.(longest) None c.(seqs)) as (l & sq & ss & -> & Hl);
    [done|by apply i_longest|done|].
  cbn [mbind option_bind]. by exists l, ss.
Qed.
(** *** Sets of operations *)

Lemma ops_set b i : ops_ok b → 0 ≤ i < n →
  ∃ b', set b i = Some b' ∧ ops_ok b' ∧ ∀ j, has b' j = (j =? i) || has b j.
Proof using All.
  intros (Hb & Hl & Hr) Hi. destruct (set_ok n b i Hb Hi) as (b' & Heq' & Hb' & Hhas).
  exists b'. split; [done|]. split; [|done]. split; [done|]. split.
  - unfold set, bitsetIndex in Heq'. destruct (zget b (i / 64)); [|done]. cbn in Heq'.
    by rewrite (zlen_zset _ _ _ _ Heq').
  - intros j. rewrite Hhas. intros [Hj|Hj]%orb_true_iff; [lia|auto].
Qed.

(** Clearing what was just set gives the set back. *)
Lemma ops_clear b b' i : ops_ok b → ops_ok b' → 0 ≤ i < n → has b i = false →
  (∀ j, has b' j = (j =? i) || has b j) → clear b' i = Some b.
Proof using All.
  intros (Hb & Hl & _) (Hb' & Hl' & _) Hi Hno Hhas.
  destruct (clear_ok n b' i Hb' Hi) as (b2 & Heq2 & Hb2 & Hhas2). rewrite Heq2. f_equal.
  apply (has_ext n); [done..| |].
  - unfold clear, bitsetIndex in Heq2. destruct (zget b' (i / 64)); [|done]. cbn in Heq2.
    rewrite (zlen_zset _ _ _ _ Heq2). congruence.
  - intros j _. rewrite Hhas2, Hhas. destruct (Z.eqb_spec j i) as [->|]; [done|]. done.
Qed.

Lemma rem_elem b p e : (p, e) ∈ rem b ↔ (p, e) ∈ full ∧ has b e.(id) = false.
Proof using All. unfold rem. rewrite list_elem_of_filter. cbn. naive_solver. Qed.

Lemma fmap_snd_elem (l : list (nat * entry)) p e : (p, e) ∈ l → e ∈ l.*2.
Proof using All. intros H. by apply (list_elem_of_fmap_2 snd) in H. Qed.

Lemma rem_set b b' A p c B q r C :
  rem b = A ++ (p, c) :: B ++ (q, r) :: C → matched (rem b).*2 → is_call c → is_return r →
  r.(id) = c.(id) → (∀ j, has b' j = (j =? c.(id)) || has b j) → rem b' = A ++ B ++ C.
Proof using All.
  intros Hrem HM Hc Hr Hid Hhas.
  assert (rem b' = filter (λ pe : nat * entry, pe.2.(id) ≠ c.(id)) (rem b)) as ->.
  { unfold rem. rewrite list_filter_filter. apply list_filter_iff. intros [x e]. cbn.
    rewrite Hhas, orb_false_iff, Z.eqb_neq. done. }
  rewrite Hrem in HM |- *. rewrite !fmap_app, fmap_cons, fmap_app, fmap_cons in HM. cbn in HM.
  assert (∀ x e, (x, e) ∈ A ++ B ++ C → e.(id) ≠ c.(id)) as Hother.
  { intros x e He. apply fmap_snd_elem in He. rewrite !fmap_app in He.
    by apply (remove_other A.*2 B.*2 C.*2 c r HM Hc Hr Hid). }
  assert (∀ l : list (nat * entry), (∀ x e, (x, e) ∈ l → e.(id) ≠ c.(id)) →
    filter (λ pe : nat * entry, pe.2.(id) ≠ c.(id)) l = l) as Hkeep.
  { induction l as [|[x e] l IH]; intros Hl; [done|].
    rewrite filter_cons_True by (apply (Hl x); by left). f_equal. apply IH. intros y e' H. apply (Hl y). by right. }
  rewrite filter_app, filter_cons_False, filter_app, filter_cons_False; cbn.
  - rewrite !Hkeep; [done|..]; intros x e He; apply (Hother x); rewrite !elem_of_app; auto.
  - intros Hne. by apply Hne.
  - intros Hne. by apply Hne.
Qed.

Lemma cached_insert (c : config) (b : bitset) (t : St) k b' t' :
  cached (c <| cache := <[k := default [] (c.(cache) !! k) ++ [(b, t)]]> c.(cache) |>) b' t' →
  (b', t') = (b, t) ∨ cached c b' t'.
Proof using All.
  intros (k' & l & Hl & Hin). cbn in Hl. destruct (decide (k' = k)) as [->|Hne].
  - rewrite lookup_insert_eq in Hl. injection Hl as <-.
    apply elem_of_app in Hin as [Hin|Hin%list_elem_of_singleton]; [right|by left].
    destruct (c.(cache) !! k) as [l|] eqn:Hk; [|by apply elem_of_nil in Hin]. by exists k, l.
  - rewrite lookup_insert_ne in Hl by done. right. by exists k', l.
Qed.

Lemma cacheContains_true (c : config) b t :
  cacheContains m c.(cache) (b, t) = Some true → ∃ t', cached c b t' ∧ eq t t' = true.
Proof using All.
  unfold cacheContains. rewrite Heq. cbn [mbind option_bind fst snd]. intros [= Hex].
  apply existsb_exists in Hex as ([b' t'] & Hin & Hb). cbn in Hb. to_prop.
  apply equals_spec in H as <-. exists t'. split; [|done].
  apply list_elem_of_In in Hin. destruct (c.(cache) !! hash b) as [l|] eqn:Hk; [by exists (hash b), l|].
  by apply elem_of_nil in Hin.
Qed.

Lemma cacheContains_total (c : config) b t : ∃ r, cacheContains m c.(cache) (b, t) = Some r.
Proof using All. unfold cacheContains. rewrite Heq. cbn. by eexists. Qed.
(** *** One turn *)

Local Abbreviation turn c := (turn m partial false head_ n c).
Local Abbreviation search fuel c := (search fuel m partial (λ _, false) head_ n c).

Lemma full_inj p q e : (p, e) ∈ full → (q, e) ∈ full → p = q.
Proof using All.
  intros Hp Hq. pose proof (matched_NoDup _ Hmatched) as Hnd.
  apply list_elem_of_lookup_1 in Hp as [i Hi], Hq as [j Hj].
  assert (i = j) as ->; [|rewrite Hi in Hj; by injection Hj].
  apply (NoDup_lookup _ _ _ e Hnd); by rewrite list_lookup_fmap, ?Hi, ?Hj.
Qed.

(** The head of the list leads to the first entry left. *)
Lemma head_next (h : list node) l :
  linked h (head_ :: l) → ∃ hn, h !! head_ = Some hn ∧ hn.(next) = head l.
Proof using All. intros [_ Hl]. destruct (Hl [] head_ l eq_refl) as (hn & ? & ? & _). eauto. Qed.

Lemma turn_call (c : config) A p e B q r C :
  inv c → rem c.(linearized) = A ++ (p, e) :: B ++ (q, r) :: C →
  is_call e → is_return r → r.(id) = e.(id) → c.(entry_) = Some p →
  ∃ i o s', e.(val) = VIn i ∧ r.(val) = VOut o ∧ (step c.(state) i o).2 = s' ∧
    let skip := c <| entry_ := head (B ++ (q, r) :: C).*1 |> in
    ((step c.(state) i o).1 = false ∧ turn c = Some (Continue skip)) ∨
    ((step c.(state) i o).1 = true ∧ ∃ b', ops_ok b' ∧
       (∀ j, has b' j = (j =? e.(id)) || has c.(linearized) j) ∧
       ((∃ t', cached c b' t' ∧ eq s' t' = true ∧ turn c = Some (Continue skip)) ∨
        (∃ h', unlift p h' = Some c.(nodes) ∧ linked h' (head_ :: (A ++ B ++ C).*1) ∧
           static h' = static c.(nodes) ∧
           turn c = Some (Continue (mkConfig h' (head (A ++ B ++ C).*1) b'
             (<[hash b' := default [] (c.(cache) !! hash b') ++ [(b', s')]]> c.(cache))
             (c.(calls) ++ [(p, c.(state))]) s' c.(longest) c.(seqs)))))).
Proof using All.
  intros Hc Hrem He Hr Hid Hentry. pose proof (i_linked c Hc) as Hl.
  destruct (head_next _ _ Hl) as (hn & Hhn & Hnext).
  assert ((p, e) ∈ full ∧ has c.(linearized) e.(id) = false) as [Hpe Hno].
  { apply (rem_elem c.(linearized)). rewrite Hrem. set_solver. }
  assert ((q, r) ∈ full) as Hqr by (apply (rem_elem c.(linearized)); rewrite Hrem; set_solver).
  destruct (i_nodes c Hc p e Hpe) as (nd & Hnd & Hok).
  pose proof (no_match full nd e Hok) as Hm. unfold is_call in He. rewrite He in Hm.
  destruct Hm as (q' & r' & Hmq & Hin & Hr' & Hid').
  assert (r' = r) as ->.
  { apply (matched_unique _ r' r Hmatched); [by eapply fmap_snd_elem..| |congruence].
    unfold is_return in *. congruence. }
  assert (q' = q) as -> by by eapply full_inj.
  destruct (i_nodes c Hc q r Hqr) as (nq & Hnq & Hokq).
  pose proof (m_typed _ Hmatched e ltac:(by eapply fmap_snd_elem)) as Hte. rewrite He in Hte.
  pose proof (m_typed _ Hmatched r ltac:(by eapply fmap_snd_elem)) as Htr.
  unfold is_return in Hr. rewrite Hr in Htr. destruct Hte as [i Hi], Htr as [o Ho].
  exists i, o, (step c.(state) i o).2. do 3 (split; [done|]). cbn zeta.
  (* the turn up to the answer of the model *)
  assert (turn c = visit_call m head_ p q nd c) as ->.
  { unfold PorcChecker.turn. rewrite Hhn. cbn [mbind option_bind]. rewrite Hnext, Hrem.
    assert (∃ x, head (A ++ (p, e) :: B ++ (q, r) :: C).*1 = Some x) as [x ->] by (destruct A; eauto).
    rewrite Hentry. cbn [mbind option_bind]. rewrite Hnd. cbn [mbind option_bind]. by rewrite Hmq. }
  destruct (exists_last (l := head_ :: A.*1)) as (X & a & HX); [done|].
  assert (linked c.(nodes) (X ++ a :: p :: B.*1 ++ q :: C.*1)) as Hl'.
  { replace (X ++ a :: p :: B.*1 ++ q :: C.*1) with (head_ :: (rem c.(linearized)).*1); [done|].
    rewrite Hrem, !fmap_app, fmap_cons, fmap_app, fmap_cons. cbn [fst].
    by rewrite (cons_middle a X), (app_assoc X [a]), <- HX. }
  destruct (lift_ok c.(nodes) X a p B.*1 q C.*1 nd Hl' Hnd Hmq) as (h' & Hlift & Hl2 & Hun & Hst & _ & Hndn).
  assert (head (B ++ (q, r) :: C).*1 = nd.(next)) as Hskip.
  { by rewrite Hndn, fmap_app, fmap_cons. }
  unfold visit_call. rewrite Hnq. cbn [mbind option_bind].
  rewrite (no_value _ _ _ Hok), (no_value _ _ _ Hokq), Hi, Ho.
  destruct (step c.(state) i o) as [ok s'] eqn:Hs. cbn [fst snd]. destruct ok; [right|left].
  2: { split; [done|]. by rewrite Hskip. }
  split; [done|]. rewrite (no_id _ _ _ Hok). unfold clone.
  destruct (ops_set c.(linearized) e.(id) (i_set c Hc)) as (b' & Hset & Hb' & Hhas).
  { apply Hids. by eapply fmap_snd_elem. }
  rewrite Hset. cbn [mbind option_bind]. exists b'. split; [done|]. split; [done|].
  destruct (cacheContains_total c b' s') as [seen Hseen]. rewrite Hseen. cbn [mbind option_bind].
  destruct seen; cbn [negb]; [left|right].
  - destruct (cacheContains_true c b' s' Hseen) as (t' & ? & ?). exists t'. do 2 (split; [done|]).
    by rewrite Hskip.
  - exists h'. split; [done|].
    assert (head_ :: (A ++ B ++ C).*1 = X ++ a :: B.*1 ++ C.*1) as HL.
    { rewrite !fmap_app. by rewrite (cons_middle a X), (app_assoc X [a]), <- HX. }
    rewrite HL. split; [done|]. split; [done|].
    rewrite Hlift. cbn [mbind option_bind]. rewrite <- HL in Hl2.
    destruct (head_next _ _ Hl2) as (hn' & -> & Hnext'). cbn [mbind option_bind].
    by rewrite Hnext'.
Qed.

Lemma turn_return (c : config) pr nd p st0 calls0 np h np' b :
  inv c → rem c.(linearized) ≠ [] → c.(entry_) = Some pr → c.(nodes) !! pr = Some nd →
  nd.(match_) = None → c.(calls) = calls0 ++ [(p, st0)] → c.(nodes) !! p = Some np →
  clear c.(linearized) np.(nid) = Some b → unlift p c.(nodes) = Some h → h !! p = Some np' →
  ∃ l ss, turn c = Some (Continue (mkConfig h np'.(next) b c.(cache) calls0 st0 l ss)) ∧
    longest_ok l ss.
Proof using All.
  intros Hc Hrem Hentry Hpr Hm Hcalls Hp Hclear Hun Hp'.
  destruct (head_next _ _ (i_linked c Hc)) as (hn & Hhn & Hnext).
  assert (turn c = visit_return partial c) as ->.
  { unfold PorcChecker.turn. rewrite Hhn. cbn [mbind option_bind]. rewrite Hnext.
    destruct (rem c.(linearized)) as [|x l]; [done|]. cbn [fmap list_fmap head].
    rewrite Hentry. cbn [mbind option_bind]. rewrite Hpr. cbn [mbind option_bind]. by rewrite Hm. }
  unfold visit_return. rewrite Hcalls, last_snoc.
  assert (∃ l ss, (if partial then save_partial c else Some c) = Some (c <| longest := l |> <| seqs := ss |>)
    ∧ longest_ok l ss) as (l & ss & Hsave & Hl).
  { destruct partial; [by apply save_partial_ok|]. exists c.(longest), c.(seqs).
    split; [by destruct c|]. by apply i_longest. }
  rewrite Hsave. cbn [mbind option_bind]. exists l, ss. split; [|done].
  set (c1 := c <| longest := l |> <| seqs := ss |>).
  change (c1.(nodes)) with c.(nodes). change (c1.(linearized)) with c.(linearized).
  rewrite Hp. cbn [mbind option_bind]. rewrite Hclear. cbn [mbind option_bind]. rewrite Hun.
  cbn [mbind option_bind]. rewrite Hp'. cbn [mbind option_bind].
  change (c1.(calls)) with c.(calls). rewrite Hcalls.
  rewrite length_app. cbn [List.length]. rewrite Nat.add_sub, take_app_length. by destruct c.
Qed.

(** *** The search below a configuration *)

(** No operation called in [A] can be next. *)
Definition tried (E : list entry) (s : St) (A : list (nat * entry)) : Prop :=
  ∀ i σ s', path step E s (i :: σ) [] s' → ∀ e, e ∈ A.*2 → e.(id) ≠ i.

(** The search came back to [c], at a return. *)
Record back (c c' : config) : Prop := {
  b_inv : inv c';
  b_nodes : c'.(nodes) = c.(nodes);
  b_lin : c'.(linearized) = c.(linearized);
  b_calls : c'.(calls) = c.(calls);
  b_state : c'.(state) = c.(state);
  b_entry : ∃ pr nd, c'.(entry_) = Some pr ∧ c'.(nodes) !! pr = Some nd ∧ nd.(match_) = None;
  b_rem : rem c.(linearized) ≠ [];
  b_cache : ∀ b t, cached c' b t → cached c b t ∨ dead b t;
  b_dead : dead c.(linearized) c.(state)
}.

(** The search answered [true]. *)
Definition found (r : config) : Prop :=
  lin step full.*2 m.(Model.Init) ∧ longest_ok r.(longest) r.(seqs).

Definition finds (j : nat) (c : config) : Prop :=
  ∃ r, (∀ f, search (j + S f) c = Some (true, r)) ∧ found r.

Definition returns (j : nat) (c c' : config) : Prop := ∀ f, search (j + f) c = search f c'.

Definition explored (j : nat) (c : config) : Prop :=
  finds j c ∨ ∃ c', back c c' ∧ returns j c c'.

Lemma search_step c c' : turn c = Some (Continue c') → ∀ f, search (S f) c = search f c'.
Proof using All. intros Ht f. cbn [PorcChecker.search]. by rewrite Ht. Qed.

Lemma returns_trans j1 j2 c c1 c2 : returns j1 c c1 → returns j2 c1 c2 → returns (j1 + j2) c c2.
Proof using All. intros H1 H2 f. by rewrite <- Nat.add_assoc, H1, H2. Qed.

Lemma returns_turn c c' : turn c = Some (Continue c') → returns 1 c c'.
Proof using All. intros Ht f. by apply search_step. Qed.

Lemma finds_trans j1 j2 c c1 : returns j1 c c1 → finds j2 c1 → finds (j1 + j2) c.
Proof using All.
  intros H1 (r & Hr & Hf). exists r. split; [|done]. intros f.
  by rewrite <- Nat.add_assoc, H1.
Qed.

Lemma rem_path b A e B r C (pe qr : nat) :
  rem b = A ++ (pe, e) :: B ++ (qr, r) :: C →
  (rem b).*2 = A.*2 ++ e :: B.*2 ++ r :: C.*2.
Proof using All. intros ->. by rewrite !fmap_app, fmap_cons, fmap_app, fmap_cons. Qed.

(** The head of what a path can begin with is before the first return. *)
Lemma tried_return b s A p e Bs :
  rem b = A ++ (p, e) :: Bs → matched (rem b).*2 → is_return e → tried (rem b).*2 s A → dead b s.
Proof using All.
  intros Hrem HM He Ht (σ & s' & Hp). pose proof Hp as Hp'.
  rewrite Hrem, fmap_app, fmap_cons in Hp. cbn [snd] in Hp.
  inversion Hp as [E s0 Hnil|A' c B r C ? i o s1 σ' ? ? HA Hc Hr Hid Hi Ho Hs Hrest HE]; subst.
  { by destruct (A.*2). }
  apply app_split in HE as [(C2 & HA2 & HB2)|[(_ & Hce & _)|(X2 & HX & _)]].
  - apply (Ht c.(id) σ' s' Hp' c); [|done]. rewrite HA2. set_solver.
  - by destruct (call_not_return c e).
  - rewrite HX, Forall_app, Forall_cons in HA. destruct HA as (_ & He' & _).
    by destruct (call_not_return e e).
Qed.

(** An operation that cannot be next joins the ones tried. *)
Lemma tried_snoc b s A p e B q r C :
  rem b = A ++ (p, e) :: B ++ (q, r) :: C → matched (rem b).*2 → is_call e → is_return r →
  r.(id) = e.(id) → tried (rem b).*2 s A →
  (∀ i o s', e.(val) = VIn i → r.(val) = VOut o → step s i o = (true, s') →
    ¬ lin step (A ++ B ++ C).*2 s') →
  tried (rem b).*2 s (A ++ [(p, e)]).
Proof using All.
  intros Hrem HM He Hr Hid Ht Hno j σ s' Hp x Hx Hxj.
  rewrite fmap_app in Hx. apply elem_of_app in Hx as [Hx|Hx%list_elem_of_singleton].
  { by apply (Ht j σ s' Hp x). }
  cbn in Hx. subst x j. pose proof (rem_path b A e B r C p q Hrem) as HE. rewrite HE in Hp, HM.
  apply path_first in Hp as (_ & i & o & s1 & Hi & Ho & Hs & Hp); [|done..].
  apply (Hno i o s1 Hi Ho Hs). exists σ, s'. by rewrite !fmap_app.
Qed.

Lemma inv_lift c A p e B q r C i o s' b' h' cch :
  inv c → rem c.(linearized) = A ++ (p, e) :: B ++ (q, r) :: C → Forall is_call A.*2 →
  is_call e → is_return r → r.(id) = e.(id) → e.(val) = VIn i → r.(val) = VOut o →
  step c.(state) i o = (true, s') → ops_ok b' →
  (∀ j, has b' j = (j =? e.(id)) || has c.(linearized) j) →
  linked h' (head_ :: (A ++ B ++ C).*1) → static h' = static c.(nodes) →
  (∀ b t k l, cch !! k = Some l → (b, t) ∈ l → ops_ok b) →
  inv (mkConfig h' (head (A ++ B ++ C).*1) b' cch (c.(calls) ++ [(p, c.(state))]) s'
         c.(longest) c.(seqs)).
Proof using All.
  intros Hc Hrem HA He Hr Hid Hi Ho Hs Hb' Hhas Hl Hst Hcch.
  assert (rem b' = A ++ B ++ C) as Hrem' by (by eapply rem_set; eauto using inv_matched).
  split; cbn [PorcChecker.nodes PorcChecker.linearized PorcChecker.calls PorcChecker.state
    PorcChecker.longest PorcChecker.seqs].
  - by rewrite Hrem'.
  - by eapply nodes_ok_static, i_nodes.
  - done.
  - destruct (i_calls c Hc) as (σ & Hcalls & Hp). exists (σ ++ [e.(id)]). split.
    + rewrite (call_ids_static _ _ _ Hst). unfold call_ids in *. rewrite mapM_Some in Hcalls |- *.
      apply Forall2_app; [done|]. constructor; [|constructor]. cbn [fst].
      assert ((p, e) ∈ full) as Hpe by (apply (rem_elem c.(linearized)); rewrite Hrem; set_solver).
      destruct (i_nodes c Hc p e Hpe) as (nd & -> & Hok). cbn. by rewrite (no_id _ _ _ Hok).
    + eapply path_trans; [exact Hp|]. rewrite Hrem', (rem_path _ A e B r C p q Hrem), !fmap_app.
      econstructor; [done..|]. constructor.
  - intros b t (k & l & Hk & Hin). by eapply Hcch.
  - by apply i_longest.
Qed.

Lemma inv_back c c' en l ss :
  inv c → (∀ b t, cached c' b t → ops_ok b) → longest_ok l ss →
  inv (mkConfig c.(nodes) en c.(linearized) c'.(cache) c.(calls) c.(state) l ss).
Proof using All.
  intros [Hl Hn Hs Hcl _ _] Hcch Hlg. split; cbn; try done.
Qed.

Hypothesis Hall : ∀ i, 0 ≤ i < n → i ∈ ids full.*2.

(** A finished search. *)
Lemma search_finish c : inv c → rem c.(linearized) = [] → finds 0 c.
Proof using All.
  intros Hc Hrem. destruct (head_next _ _ (i_linked c Hc)) as (hn & Hhn & Hnext).
  destruct (i_calls c Hc) as (σ & Hcalls & Hp). rewrite Hrem in Hnext, Hp. cbn in Hnext, Hp.
  eexists. split.
  - intros f. cbn [Nat.add PorcChecker.search]. unfold PorcChecker.turn. rewrite Hhn.
    cbn [mbind option_bind]. rewrite Hnext. unfold finish. rewrite Hcalls. cbn [mbind option_bind]. done.
  - split; [by exists σ, c.(state)|]. cbn. pose proof (i_longest c Hc) as [Hlen _].
    assert (0 ≤ n) by (rewrite <- Hlen; unfold zlen; lia). split.
    + unfold zlen. rewrite length_replicate. lia.
    + intros i a [Hi Hlt]%lookup_replicate. injection Hi as ->. exists σ.
      split; [by apply list_lookup_middle|]. exists [], c.(state). split; [done|].
      apply (l_all _ _ _ _ (path_linearization _ _ _ _ _ Hmatched Hp)), Hall. lia.
Qed.

(** The search is at [Bs]: no operation called in [A] can be next. *)
Record ready (k : nat) (c : config) (A Bs : list (nat * entry)) : Prop := {
  r_inv : inv c;
  r_rem : rem c.(linearized) = A ++ Bs;
  r_len : List.length (rem c.(linearized)) = (2 * k)%nat;
  r_calls : Forall is_call A.*2;
  r_tried : tried (rem c.(linearized)).*2 c.(state) A;
  r_entry : c.(entry_) = head Bs.*1;
  r_cache : ∀ b t, cached c b t → above c.(linearized) b → dead b t
}.

(** It ends in time. *)
Definition in_time (k : nat) (c : config) (A : list (nat * entry)) : Prop :=
  ∃ j, (j ≤ (k - List.length A) * (turns (k - 1) + 2))%nat ∧ explored j c.

Definition explores (k : nat) (Bs : list (nat * entry)) : Prop :=
  ∀ c A, ready k c A Bs → in_time k c A.

(** At a return there is nothing left to try. *)
Lemma explores_return (c : config) A p e Bs :
  inv c → rem c.(linearized) = A ++ (p, e) :: Bs → is_return e →
  tried (rem c.(linearized)).*2 c.(state) A → c.(entry_) = Some p → back c c.
Proof using All.
  intros Hc Hrem He Ht Hen. split; try done; [|by rewrite Hrem; destruct A|auto|].
  - exists p. assert ((p, e) ∈ full) as Hpe.
    { apply (rem_elem c.(linearized)). rewrite Hrem. set_solver. }
    destruct (i_nodes c Hc p e Hpe) as (nd & Hnd & Hok). exists nd. split; [done|]. split; [done|].
    pose proof (no_match _ _ _ Hok) as Hm. unfold is_return in He. by rewrite He in Hm.
  - by eapply tried_return; eauto using inv_matched.
Qed.

Lemma ready_calls k c A p e Bs : ready k c A ((p, e) :: Bs) → is_call e → (List.length A < k)%nat.
Proof using All.
  intros [Hc Hrem Hlen HA _ _ _] He. pose proof (inv_matched c Hc) as HM.
  rewrite Hrem, cons_middle, app_assoc, fmap_app in HM. apply matched_calls in HM.
  - rewrite !length_fmap, length_app in HM. rewrite Hrem, length_app in Hlen. cbn in HM, Hlen. lia.
  - rewrite fmap_app. apply Forall_app. split; [done|]. by constructor; [|constructor].
Qed.

(** The same place, but for the cache and the entry; the turns in between. *)
Record again (j0 : nat) (c c1 : config) : Prop := {
  a_returns : returns j0 c c1;
  a_inv : inv c1;
  a_nodes : c1.(nodes) = c.(nodes);
  a_lin : c1.(linearized) = c.(linearized);
  a_calls : c1.(calls) = c.(calls);
  a_state : c1.(state) = c.(state);
  a_cache : ∀ b t, cached c1 b t → cached c b t ∨ dead b t
}.

Lemma again_back j0 c c1 c' : again j0 c c1 → back c1 c' → back c c'.
Proof using All.
  intros [_ _ Hn Hl Hcl Hs Hcch] [H1 H2 H3 H4 H5 H6 H7 H8 H9]. split; try congruence.
  intros b t Hbt. destruct (H8 b t Hbt) as [Hbt1|?]; [by apply Hcch|by right].
Qed.

(** A call that is passed over, or was put back: the rest of the list is searched. *)
Lemma explores_next k c c1 j0 A p e B q r C i o :
  explores k (B ++ (q, r) :: C) →
  ready k c A ((p, e) :: B ++ (q, r) :: C) → again j0 c c1 → (j0 ≤ turns (k - 1) + 2)%nat →
  is_call e → is_return r → r.(id) = e.(id) → e.(val) = VIn i → r.(val) = VOut o →
  c1.(entry_) = head (B ++ (q, r) :: C).*1 →
  (∀ s1, step c.(state) i o = (true, s1) → ¬ lin step (A ++ B ++ C).*2 s1) →
  in_time k c A.
Proof using All.
  intros IH Hrd Hag Hj0 He Hr Hid Hi Ho Hen Hno. pose proof (ready_calls _ _ _ _ _ _ Hrd He) as Hlt.
  destruct Hrd as [Hc Hrem Hlen HA Ht _ Hcch].
  destruct (IH c1 (A ++ [(p, e)])) as (j & Hj & Hex).
  { split; rewrite ?(a_lin _ _ _ Hag), ?(a_state _ _ _ Hag); try done.
    - apply Hag.
    - by rewrite <- app_assoc.
    - rewrite fmap_app. apply Forall_app. split; [done|]. by constructor; [|constructor].
    - eapply tried_snoc; eauto using inv_matched. intros i' o' s1.
      rewrite Hi, Ho. intros [= <-] [= <-]. apply Hno.
    - intros b t Hbt Hab. destruct (a_cache _ _ _ Hag b t Hbt); [by apply Hcch|done]. }
  exists (j0 + j)%nat. split.
  { rewrite length_app in Hj. cbn in Hj.
    replace (k - List.length A)%nat with (S (k - (List.length A + 1))) by lia. cbn. lia. }
  destruct Hex as [Hf|(c' & Hb & Hret)]; [left; by eapply finds_trans, Hf; apply Hag|right].
  exists c'. split; [by eapply again_back|]. by eapply returns_trans, Hret; apply Hag.
Qed.

Lemma above_set b b' i : has b i = false → (∀ j, has b' j = (j =? i) || has b j) → above b b'.
Proof using All.
  intros Hi Hhas. split; [intros j Hj; by rewrite Hhas, Hj, orb_true_r|].
  exists i. by rewrite Hhas, Z.eqb_refl.
Qed.

Lemma above_trans b1 b2 b3 : above b1 b2 → above b2 b3 → above b1 b3.
Proof using All.
  intros [H1 (i & Hi & Hno)] [H2 _]. split; [by auto|]. exists i. auto.
Qed.

Lemma above_irrefl b : ¬ above b b.
Proof using All. intros [_ (i & Hi & Hno)]. congruence. Qed.

(** The turns below a call that is lifted, and the one that puts it back. *)
Lemma explores_lift k c A p e B q r C s' b' h' c1 :
  (∀ Bs, explores k Bs) → ready (S k) c A ((p, e) :: B ++ (q, r) :: C) →
  is_call e → is_return r → r.(id) = e.(id) →
  ops_ok b' → (∀ j, has b' j = (j =? e.(id)) || has c.(linearized) j) →
  unlift p h' = Some c.(nodes) → static h' = static c.(nodes) →
  turn c = Some (Continue c1) →
  c1 = mkConfig h' (head (A ++ B ++ C).*1) b'
    (<[hash b' := default [] (c.(cache) !! hash b') ++ [(b', s')]]> c.(cache))
    (c.(calls) ++ [(p, c.(state))]) s' c.(longest) c.(seqs) →
  inv c1 →
  ∃ j, (j ≤ turns k + 2)%nat ∧
    (finds j c ∨ dead b' s' ∧ ∃ c3, again j c c3 ∧ c3.(entry_) = head (B ++ (q, r) :: C).*1).
Proof using All.
  intros IH [Hc Hrem Hlen HA Ht Hen Hcch] He Hr Hid Hb' Hhas Hun Hst Hturn Hc1eq Hc1.
  assert ((p, e) ∈ full ∧ has c.(linearized) e.(id) = false) as [Hpe Hno].
  { apply (rem_elem c.(linearized)). rewrite Hrem. set_solver. }
  assert (rem b' = A ++ B ++ C) as Hrem' by (by eapply rem_set; eauto using inv_matched).
  assert (∀ b t, cached c1 b t → (b, t) = (b', s') ∨ cached c b t) as Hnew.
  { intros b t Hbt. subst c1. by apply (cached_insert c b' s' (hash b')). }
  destruct (IH (A ++ B ++ C) c1 []) as (j1 & Hj1 & Hex); [split|]; subst c1; cbn;
    [done|by rewrite Hrem'| |constructor|..].
  { rewrite Hrem in Hlen. rewrite Hrem'. rewrite !length_app in *. cbn in Hlen.
    rewrite length_app in Hlen. cbn in Hlen. lia. }
  { intros i σ t _ x Hx. by apply elem_of_nil in Hx. }
  { done. }
  { intros b t Hbt Hab. destruct (Hnew b t Hbt) as [[= -> ->]|Hold]; [by apply above_irrefl in Hab|].
    apply Hcch; [done|]. eapply above_trans; [by eapply above_set|done]. }
  cbn [List.length] in Hj1.
  assert (j1 ≤ turns k)%nat as Hjk.
  { destruct k; [cbn in *; lia|]. rewrite Nat.sub_0_r in Hj1. by rewrite Nat.sub_succ, Nat.sub_0_r in Hj1. }
  clear Hj1. destruct Hex as [Hf|(c2 & Hb & Hret)].
  { exists (1 + j1)%nat. split; [lia|]. left. eapply finds_trans; [by apply returns_turn|done]. }
  destruct Hb as [Hinv2 Hn2 Hl2 Hcl2 Hs2 (pr & nd2 & Hen2 & Hpr2 & Hm2) Hr2 Hc2 Hd2]. cbn in *.
  destruct (i_nodes c Hc p e Hpe) as (np & Hnp & Hok).
  destruct (static_lookup c.(nodes) h' p np Hst Hnp) as (np2 & Hnp2 & _ & _ & Hid2).
  destruct (turn_return c2 pr nd2 p c.(state) c.(calls) np2 c.(nodes) np c.(linearized))
    as (l & ss & Hturn3 & Hlg); try done; try congruence.
  { rewrite Hl2, Hid2, (no_id _ _ _ Hok).
    apply ops_clear; [by apply i_set|done| |done..]. apply Hids. by eapply fmap_snd_elem. }
  exists (1 + j1 + 1)%nat. split; [lia|]. right. split; [done|].
  exists (mkConfig c.(nodes) np.(next) c.(linearized) c2.(cache) c.(calls) c.(state) l ss).
  split; [split; try done|].
  - eapply returns_trans; [eapply returns_trans; [by apply returns_turn|exact Hret]|].
    by apply returns_turn.
  - eapply inv_back; [done|by apply (i_cache c2)|done].
  - intros b t Hbt. destruct (Hc2 b t Hbt) as [H|H]; [|by right].
    destruct (Hnew b t H) as [[= -> ->]|]; [by right|by left].
  - cbn. pose proof (i_linked c Hc) as Hl. rewrite Hrem, fmap_app, app_comm_cons, fmap_cons in Hl.
    destruct (linked_node _ _ _ _ Hl) as (np3 & Hnp3 & Hnext & _). cbn [fst] in Hnp3.
    rewrite Hnp in Hnp3. by injection Hnp3 as <-.
Qed.

(** The turn at a call: the operation is refused, or was tried before from an equal
    configuration, or the search goes on below it. *)
Lemma explores_call k A p e B q r C c :
  (∀ Bs, explores k Bs) → explores (S k) (B ++ (q, r) :: C) →
  is_call e → is_return r → r.(id) = e.(id) →
  ready (S k) c A ((p, e) :: B ++ (q, r) :: C) → in_time (S k) c A.
Proof using All.
  intros IHk IH He Hr Hid Hrd. pose proof Hrd as [Hc Hrem Hlen HA Ht Hen Hcch].
  destruct (turn_call c A p e B q r C) as (i & o & s' & Hi & Ho & Hs & Hturn); [done..|].
  pose proof (λ c1 j0, explores_next (S k) c c1 j0 A p e B q r C i o IH Hrd) as Hnext.
  rewrite Nat.sub_succ, Nat.sub_0_r in Hnext.
  set (skip := c <| entry_ := head (B ++ (q, r) :: C).*1 |>) in *.
  assert (turn c = Some (Continue skip) → again 1 c skip) as Hskip.
  { intros Hsk. split; [by apply returns_turn| |done..|by auto].
    by apply inv_back; [|apply (i_cache c)|apply i_longest]. }
  destruct Hturn as [[Hstep Hturn]|(Hstep & b' & Hb' & Hhas & Hcase)].
  { eapply (Hnext skip 1%nat); [by apply Hskip|lia|done..|]. intros s1 Hs1. by rewrite Hs1 in Hstep. }
  assert (step c.(state) i o = (true, s')) as Hst by (by rewrite <- Hs, <- Hstep, <- surjective_pairing).
  assert (rem b' = A ++ B ++ C) as Hrem' by (by eapply rem_set; eauto using inv_matched).
  destruct Hcase as [(t' & Hin & Heqs & Hturn)|(h' & Hun & Hl & Hsta & Hturn)].
  { eapply (Hnext skip 1%nat); [by apply Hskip|lia|done..|]. intros s1. rewrite Hst. intros [= <-] (σ & s2 & Hp).
    destruct (path_equal _ _ _ _ _ _ Heqs Hp) as (s3 & Hp').
    apply (Hcch b' t' Hin); [eapply above_set; [|exact Hhas]|].
    - apply (rem_elem c.(linearized) p e). rewrite Hrem. set_solver.
    - rewrite <- Hrem' in Hp'. by exists σ, s3. }
  edestruct (explores_lift k c A p e B q r C s' b' h') as (j & Hj & Hcase); try done.
  { eapply inv_lift; try done. intros b t k' l Hl' Hin'.
    destruct (cached_insert c b' s' (hash b') b t) as [[= -> ->]|Hold]; [by exists k', l|done|].
    by apply (i_cache c Hc b t). }
  destruct Hcase as [Hf|(Hd & c3 & Hag & H4)].
  - exists j. split; [|by left]. pose proof (ready_calls _ _ _ _ _ _ Hrd He) as Hlt.
    replace (S k - List.length A)%nat with (S (k - List.length A)) by lia.
    rewrite Nat.sub_succ, Nat.sub_0_r. etransitivity; [exact Hj|]. apply Nat.le_add_r.
  - apply (Hnext c3 j); try done. intros s1. rewrite Hst. intros [= <-]. by rewrite <- Hrem'.
Qed.

(** A call is found with its return after it. *)
Lemma rem_return c A p e Bs :
  inv c → rem c.(linearized) = A ++ (p, e) :: Bs → is_call e →
  ∃ B q r C, Bs = B ++ (q, r) :: C ∧ is_return r ∧ r.(id) = e.(id).
Proof using All.
  intros Hc Hrem He. pose proof (matched_later _ (inv_matched c Hc)) as Hlater.
  rewrite Hrem, fmap_app, fmap_cons in Hlater.
  destruct (Hlater _ _ _ eq_refl He) as (r & Hin & Hr & Hid).
  apply list_elem_of_fmap in Hin as ([q r'] & -> & (B & C & ->)%list_elem_of_split).
  by exists B, q, r', C.
Qed.

Lemma explore k Bs : explores k Bs.
Proof using All.
  revert Bs. induction k as [|k IHk].
  { intros Bs c A [Hc _ Hlen _ _ _ _]. exists 0%nat. split; [apply Nat.le_0_l|]. left.
    apply search_finish; [done|]. by apply nil_length_inv. }
  induction Bs as [|[p e] Bs IH]; intros c A Hrd; pose proof Hrd as [Hc Hrem Hlen HA Ht Hen Hcch].
  { exfalso. rewrite app_nil_r in Hrem. pose proof (inv_matched c Hc) as HM.
    rewrite Hrem, <- (app_nil_r A.*2) in HM. apply matched_calls in HM; [|done].
    rewrite length_fmap, <- Hrem, Hlen in HM. cbn in HM. lia. }
  destruct (kind e) eqn:He.
  - exists 0%nat. split; [apply Nat.le_0_l|]. right. exists c. by split; [eapply explores_return|].
  - destruct (rem_return c A p e Bs Hc Hrem He) as (B & q & r & C & -> & Hr & Hid).
    by eapply explores_call.
Qed.
End search.
