(* ===== verification/PorcSingle.v ===== *)
(** [checkSingle] ([src/src/porcupine/checker.go]) decides linearizability: the list it
    starts from, the number of turns it takes, its answer, and the partial
    linearizations it keeps. *)
From S2P Require Import Prelude PorcBitset PorcChecker PorcLin PorcList PorcSearch.
Open Scope Z_scope.
Import entry.
#[local] Existing Instance eta_node.
#[local] Existing Instance eta_config.

Section start.
Context {In Out St : Type}.
Local Abbreviation node := (@PorcChecker.node In Out).
Local Abbreviation entry := (entry.t In Out).
Implicit Types (E : list entry).

(** The ids are the numbers from 0 on, as [makeEntries] and [renumber] give them. *)
Definition numbered E : Prop := ∀ i, i ∈ ids E ↔ 0 ≤ i < zlen E / 2.

Lemma matched_even E : matched E → ∃ k, List.length E = (2 * k)%nat.
Proof.
  remember (List.length E) as l eqn:Hl. revert E Hl. induction (lt_wf l) as [l _ IH].
  intros [|e E] -> HE; [by exists 0%nat|].
  destruct (matched_split (e :: E) e HE) as (A & B & r & C & Heq & Hr & Hid); [by left|by eapply matched_head|].
  pose proof HE as HE'. rewrite Heq in HE'. apply matched_remove in HE'; [|by eapply matched_head|done..].
  destruct (IH (List.length (A ++ B ++ C))) with (E := A ++ B ++ C) as [k Hk]; [|done..|].
  - rewrite Heq, !length_app. cbn. rewrite length_app. cbn. lia.
  - exists (S k). rewrite Heq. rewrite !length_app in *. cbn. rewrite length_app. cbn. lia.
Qed.

Lemma length_loop_ok (h : list node) L fuel l :
  linked h L → ∀ X Y, L = X ++ Y → (List.length Y < fuel)%nat →
  length_loop fuel (head Y) l h = Some (l + zlen Y).
Proof.
  intros [_ Hl] X Y. revert X fuel l. induction Y as [|q Y IH]; intros X [|fuel] l HL Hf; cbn in Hf; try lia.
  - cbn. f_equal. unfold zlen. cbn. lia.
  - destruct (Hl X q Y HL) as (nd & Hq & Hn & _). cbn [length_loop head]. rewrite Hq.
    cbn [mbind option_bind]. rewrite Hn, (IH (X ++ [q])); [|by rewrite <- app_assoc|lia].
    f_equal. unfold zlen. cbn [List.length]. lia.
Qed.

Lemma not_cached (c : @config In Out St) b t : c.(cache) = ∅ → ¬ cached c b t.
Proof. intros Hc (k & l & Hk & _). by rewrite Hc, lookup_empty in Hk. Qed.

Lemma check_start_ok (m : Model.t In Out St) E :
  matched E → numbered E →
  ∃ full c, full.*2 = E ∧ check_start m E = Some (List.length E, zlen E / 2, c) ∧
    inv m full (zlen E / 2) (List.length E) c ∧ rem full c.(linearized) = full ∧
    c.(entry_) = head full.*1 ∧ c.(calls) = [] ∧ c.(state) = m.(Model.Init) ∧
    ∀ b t, ¬ cached c b t.
Proof.
  intros HE Hnum.
  destruct (link_entries_ok E (matched_later E HE)) as (full & h & mm & root & Hlk & Hfull & Hlen & Hlinks).
  destruct Hlinks as [Hl Hroot Hn _ _].
  assert (0 ≤ zlen E) as Hpos by (unfold zlen; lia).
  pose proof (Z.div_pos (zlen E) 2 Hpos ltac:(lia)) as Hdiv.
  destruct (newBitset_ok (zlen E / 2) Hdiv) as [Hbok Hbno].
  destruct (insertBefore_new (h ++ [mkNode None None (-1) None None]) full.*1 (List.length h)
    (mkNode None None (-1) None None) root) as (h' & Hins & Hl' & Hst);
    [by apply list_lookup_middle|done..| |done|by apply linked_alloc|].
  { intros Hin. pose proof (linked_bound h _ _ Hl Hin). lia. }
  assert (rem full (newBitset (zlen E / 2)) = full) as Hrem.
  { unfold rem. clear -Hbno.
    assert (∀ l : list (nat * entry), filter (λ pe, has (newBitset (zlen E / 2)) (id pe.2) = false) l = l) as Hall; [|apply Hall].
    induction l as [|y l IH]; [done|]. by rewrite filter_cons_True, IH. }
  exists full, (mkConfig h' root (newBitset (zlen E / 2)) ∅ [] m.(Model.Init)
    (replicate (Z.to_nat (zlen E / 2)) None) []).
  split; [done|]. split; [|split; [|split_and!; try done]].
  - unfold check_start, makeLinkedEntries. rewrite Hlk. cbn [mbind option_bind].
    unfold length. rewrite Hroot, (length_loop_ok h full.*1 _ 0 Hl [] full.*1 eq_refl).
    2: { rewrite length_fmap, Hlen, <- Hfull, length_fmap. lia. }
    cbn [mbind option_bind].
    assert (0 + zlen full.*1 = zlen E) as -> by (unfold zlen; rewrite <- Hfull, !length_fmap; lia).
    rewrite Z.quot_div_nonneg by lia. rewrite Hroot in Hins. rewrite Hins. cbn [mbind option_bind].
    by rewrite Hlen.
  - rewrite <- Hlen. split; cbn; try done.
    + by rewrite Hrem.
    + eapply nodes_ok_static; [exact Hst|]. intros p e Hpe. destruct (Hn p e Hpe) as (nd & Hp & Hok).
      exists nd. split; [|done]. by apply lookup_app_l_Some.
    + split; [done|]. split; [done|]. intros i Hi. by rewrite Hbno in Hi.
    + exists []. split; [done|]. rewrite Hrem. constructor.
    + intros b t Hbt. by apply (not_cached _ b t) in Hbt.
    + split; [unfold zlen at 1; rewrite length_replicate; lia|].
      by intros i a [? _]%lookup_replicate.
  - intros b t. by apply not_cached.
Qed.
End start.

(** ** The answer *)

Section answer.
Context {In Out St : Type} (m : Model.t In Out St) (eq : St → St → bool).
Hypothesis Heq : m.(Model.Equal) = Some eq.
Hypothesis Hequal : ∀ s t i o, eq s t = true → (m.(Model.Step) s i o).1 = true →
  (m.(Model.Step) t i o).1 = true ∧ eq (m.(Model.Step) s i o).2 (m.(Model.Step) t i o).2 = true.

(** The sequences kept are linearizations of some of the operations, with the one they
    are kept for. *)
Definition partials_ok (E : list (entry.t In Out)) (c : @config In Out St) : Prop :=
  zlen c.(longest) = zlen E / 2 ∧
  ∀ i a, c.(longest) !! i = Some (Some a) →
    ∃ σ, c.(seqs) !! a = Some σ ∧ Z.of_nat i ∈ σ ∧
      partial_linearization m.(Model.Step) E m.(Model.Init) σ.

Lemma longest_partials full E l ss c :
  full.*2 = E → matched E → longest_ok m full (zlen E / 2) l ss →
  c.(longest) = l → c.(seqs) = ss → partials_ok E c.
Proof using All.
  intros <- HE [Hlen Hl] <- <-. split; [done|]. intros i a Hi.
  destruct (Hl i a Hi) as (σ & Hσ & E' & s' & Hp & Hin). exists σ. split; [done|]. split; [done|].
  by eapply path_partial.
Qed.

(** A search that comes back to the start has no call to undo. *)
Lemma search_stops full n partial f (c : @config In Out St) :
  (∃ pr nd, c.(entry_) = Some pr ∧ c.(nodes) !! pr = Some nd ∧ nd.(match_) = None) →
  c.(calls) = [] → inv m full n (List.length full) c → rem full c.(linearized) ≠ [] →
  search (S f) m partial (λ _, false) (List.length full) n c = Some (false, c).
Proof using All.
  intros (pr & nd & Hen & Hnd & Hm) Hcl Hinv Hrem.
  destruct (linked_node c.(nodes) [] (List.length full) _ (i_linked _ _ _ _ _ Hinv))
    as (hn & Hhn & Hnext & _).
  cbn [search]. unfold turn. rewrite Hhn. cbn [mbind option_bind]. rewrite Hnext.
  destruct (rem full c.(linearized)); [done|]. cbn [fmap list_fmap head].
  rewrite Hen. cbn [mbind option_bind]. rewrite Hnd. cbn [mbind option_bind]. rewrite Hm.
  unfold visit_return. by rewrite Hcl.
Qed.

Lemma checkSingle_answers E partial :
  matched E → numbered E →
  ∃ ok c, checkSingle (check_fuel E) m E partial (λ _, false) = Some (ok, c) ∧
    (ok = true ↔ linearizable m.(Model.Step) E m.(Model.Init)) ∧ partials_ok E c.
Proof using All.
  intros HE Hnum. destruct (check_start_ok m E HE Hnum) as
    (full & c & Hfull & Hstart & Hinv & Hrem & Hen & Hcl & Hst & Hcch).
  destruct (matched_even E HE) as [k Hk].
  assert (List.length full = (2 * k)%nat) as Hlen by (by rewrite <- Hk, <- Hfull, length_fmap).
  assert (matched full.*2) as HM by by rewrite Hfull.
  unfold checkSingle. rewrite Hstart. cbn [mbind option_bind].
  destruct (explore m eq Heq Hequal full (zlen E / 2) (List.length E) partial HM) with
    (k := k) (Bs := full) (c := c) (A := @nil (nat * entry.t In Out)) as (j & Hj & Hex).
  { intros e He. apply Hnum. rewrite <- Hfull. by apply list_elem_of_fmap_2. }
  { intros i Hi. rewrite Hfull. by apply Hnum. }
  { split; rewrite ?Hrem; try done.
    - intros i σ s' _ e He. by apply elem_of_nil in He.
    - intros b t Hbt. by destruct (Hcch b t). }
  assert (j ≤ turns k)%nat as Hjk.
  { cbn [List.length] in Hj. rewrite Nat.sub_0_r in Hj. destruct k; [cbn in *; lia|].
    by rewrite Nat.sub_succ, Nat.sub_0_r in Hj. }
  assert (check_fuel E = S (turns k)) as -> by (unfold check_fuel; by rewrite Hk, Nat.div2_double).
  assert (Hiff := linearizable_iff m.(Model.Step) E m.(Model.Init) HE).
  assert (List.length E = List.length full) as HlenE by (by rewrite <- Hfull, length_fmap).
  rewrite HlenE in *.
  destruct Hex as [(r & Hr & Hlin & Hlg)|(c' & Hb & Hret)].
  - exists true, r. replace (S (turns k)) with (j + S (turns k - j))%nat by lia. rewrite Hr.
    split; [done|]. split; [|by eapply longest_partials].
    split; [|done]. intros _. apply Hiff. by rewrite <- Hfull.
  - exists false, c'. replace (S (turns k)) with (j + S (turns k - j))%nat by lia. rewrite Hret.
    destruct Hb as [Hinv' Hn Hl Hcl' Hs Hent Hr' _ Hd].
    split; [|split].
    + apply search_stops; [done|congruence|done|congruence].
    + split; [done|]. intros Hlin%Hiff. destruct Hd. by rewrite Hrem, Hst, Hfull.
    + eapply longest_partials; [done|done|by eapply i_longest|done..].
Qed.

(** A search that is killed does not answer [true] unless the whole one does. *)
Lemma search_killed fuel partial kill head n (c r : @config In Out St) :
  search fuel m partial kill head n c = Some (true, r) →
  search fuel m partial (λ _, false) head n c = Some (true, r).
Proof using Type.
  revert c. induction fuel as [|fuel IH]; intros c Hs; [done|]. cbn [search] in *.
  destruct (turn m partial (kill fuel) head n c) as [o|] eqn:Ht; cbn [mbind option_bind] in Hs; [|done].
  assert (turn m partial false head n c = Some o ∨ ∃ c', o = Return false c') as [->|[c' ->]]; [|..|done].
  - unfold turn in *. destruct (c.(nodes) !! head) as [hn|]; cbn [mbind option_bind] in *; [|done].
    destruct (next hn); [|by left]. destruct (kill fuel); [right|by left]. injection Ht as <-. by eexists.
  - cbn [mbind option_bind]. destruct o; [done|]. by apply IH.
Qed.

Lemma checkSingle_killed E partial kill r :
  matched E → numbered E →
  checkSingle (check_fuel E) m E partial kill = Some (true, r) →
  linearizable m.(Model.Step) E m.(Model.Init).
Proof using All.
  intros HE Hnum Hr. destruct (checkSingle_answers E partial HE Hnum) as (ok & c & Hc & Hok & _).
  unfold checkSingle in *. destruct (check_start m E) as [[[head n] c0]|]; cbn [mbind option_bind] in *; [|done].
  apply search_killed in Hr. rewrite Hr in Hc. injection Hc as <- <-. by apply Hok.
Qed.
End answer.
