(* ===== verification/PorcOps.v ===== *)
(** Linearizability of a history of operations, by their times of call and return, and
    that [makeEntries] ([src/src/porcupine/checker.go]) turns it into the
    linearizability of entries that [checkSingle] decides. *)
From S2P Require Import Prelude PorcBitset PorcChecker PorcLin PorcList PorcSearch PorcSingle.
Open Scope Z_scope.

(** What the code relies on of [sort.Sort(byTime(entries))]. *)
Class SortsByTime {In Out} (sort : list (entry.t In Out) → list (entry.t In Out)) := {
  sort_perm l : sort l ≡ₚ l;
  sort_sorted l : StronglySorted (λ a b, a.(entry.time) ≤ b.(entry.time)) (sort l)
}.

Section ops.
Context {In Out St : Type} (step : St → In → Out → bool * St).
Local Abbreviation entry := (entry.t In Out).
Local Abbreviation operation := (Operation.t In Out).
Implicit Types (E : list entry) (H L : list operation) (R : list (Z * operation)).
Import Operation.

(** ** The definition *)

(** The model accepts the operations in this order. *)
Fixpoint accepted (s : St) L : Prop :=
  match L with
  | [] => True
  | a :: L => ∃ s', step s a.(Input) a.(Output) = (true, s') ∧ accepted s' L
  end.

(** No operation is before one that had returned when it was called. *)
Definition in_real_time L : Prop := StronglySorted (λ a b, ¬ b.(Return) < a.(Call)) L.

Definition ops_linearizable H (s : St) : Prop :=
  ∃ L, L ≡ₚ H ∧ accepted s L ∧ in_real_time L.

(** The clock is fine enough: an operation takes time, and none is called at the very
    time another one returns. *)
Record timed H : Prop := {
  t_lasts : ∀ a, a ∈ H → a.(Call) < a.(Return);
  t_apart : ∀ a b, a ∈ H → b ∈ H → a.(Return) ≠ b.(Call)
}.

(** ** Entries *)

Definition call_of (x : Z * operation) : entry :=
  entry.mk callEntry (VIn x.2.(Input)) x.1 x.2.(Call) x.2.(ClientId).
Definition return_of (x : Z * operation) : entry :=
  entry.mk returnEntry (VOut x.2.(Output)) x.1 x.2.(Return) x.2.(ClientId).
Definition op_entries (x : Z * operation) : list entry := [call_of x; return_of x].

Definition sorted E : Prop := StronglySorted (λ a b, a.(entry.time) ≤ b.(entry.time)) E.

(** [E] are the entries of the operations [R], by time. *)
Record timeline R E : Prop := {
  tl_perm : E ≡ₚ concat (op_entries <$> R);
  tl_sorted : sorted E;
  tl_ids : NoDup R.*1;
  tl_timed : timed R.*2
}.

Lemma op_entries_elem R e :
  e ∈ concat (op_entries <$> R) ↔ ∃ x, x ∈ R ∧ (e = call_of x ∨ e = return_of x).
Proof.
  induction R as [|y R IH]; cbn.
  - split; [intros H; by apply elem_of_nil in H|intros (x & H & _); by apply elem_of_nil in H].
  - rewrite !elem_of_cons, IH. setoid_rewrite elem_of_cons. naive_solver.
Qed.

Lemma timeline_elem R E e :
  timeline R E → e ∈ E ↔ ∃ x, x ∈ R ∧ (e = call_of x ∨ e = return_of x).
Proof. intros [Hp _ _ _]. rewrite Hp. apply op_entries_elem. Qed.

(** A call in the list is that of an operation, found by its id. *)
Lemma timeline_call R E c : timeline R E → c ∈ E → is_call c → ∃ x, x ∈ R ∧ c = call_of x.
Proof.
  intros HT Hc Hk. apply (timeline_elem R E) in Hc as (x & Hx & [->| ->]); [|done..]. by exists x.
Qed.

Lemma timeline_return R E r : timeline R E → r ∈ E → is_return r → ∃ x, x ∈ R ∧ r = return_of x.
Proof.
  intros HT Hc Hk. apply (timeline_elem R E) in Hc as (x & Hx & [->| ->]); [done| |done]. by exists x.
Qed.

Lemma timeline_id R x y : NoDup R.*1 → x ∈ R → y ∈ R → x.1 = y.1 → x = y.
Proof.
  intros Hnd Hx Hy Heq. apply list_elem_of_lookup in Hx as [i Hi], Hy as [j Hj].
  assert (i = j) as ->; [|rewrite Hi in Hj; by injection Hj].
  apply (NoDup_lookup _ _ _ x.1 Hnd); rewrite list_lookup_fmap.
  - by rewrite Hi.
  - rewrite Hj. cbn. by rewrite Heq.
Qed.

Lemma sorted_precedes E (x y : entry) : sorted E → precedes x y E → x.(entry.time) ≤ y.(entry.time).
Proof.
  intros Hs (A & B & C & ->). apply StronglySorted_app_1_r in Hs.
  apply StronglySorted_inv in Hs as [_ Hall]. rewrite Forall_forall in Hall. apply Hall. set_solver.
Qed.

Lemma op_entries_nodup R :
  NoDup R.*1 → NoDup ((λ e, (e.(entry.kind), e.(entry.id))) <$> concat (op_entries <$> R)).
Proof.
  induction R as [|x R IH]; cbn; [constructor|]. intros [Hx Hnd]%NoDup_cons.
  assert (∀ k, (k, x.1) ∉ (λ e, (entry.kind e, entry.id e)) <$> concat (op_entries <$> R)) as Hno.
  { intros k (e & [= -> Hid] & (y & Hy & He)%op_entries_elem)%list_elem_of_fmap. apply Hx.
    rewrite Hid. destruct He as [-> | ->]; cbn; by apply list_elem_of_fmap_2. }
  constructor; [|constructor; [apply Hno|by apply IH]].
  intros [Heq|Hin]%elem_of_cons; [done|by apply Hno in Hin].
Qed.

Lemma timeline_before R E x : timeline R E → x ∈ R → precedes (call_of x) (return_of x) E.
Proof.
  intros HT Hx. assert (call_of x ∈ E ∧ return_of x ∈ E) as [Hc Hr].
  { split; apply (timeline_elem R E _ HT); eauto. }
  destruct (precedes_total _ _ _ Hc Hr) as [|Hp]; [done..|].
  apply (sorted_precedes _ _ _ (tl_sorted _ _ HT)) in Hp. cbn in Hp.
  pose proof (t_lasts _ (tl_timed _ _ HT) x.2 ltac:(by apply list_elem_of_fmap_2)). lia.
Qed.

Lemma timeline_matched R E : timeline R E → matched E.
Proof.
  intros HT. split.
  - rewrite (tl_perm _ _ HT). apply op_entries_nodup, HT.
  - intros c Hc Hk. destruct (timeline_call R E c HT Hc Hk) as (x & Hx & ->).
    exists (return_of x). split; [done|]. split; [done|]. by eapply timeline_before.
  - intros r Hr Hk. destruct (timeline_return R E r HT Hr Hk) as (x & Hx & ->).
    exists (call_of x). split; [done|]. split; [done|]. by eapply timeline_before.
  - intros e He. apply (timeline_elem R E) in He as (x & _ & [->| ->]); [| |done]; cbn; eauto.
Qed.

(** Taking out an operation. *)
Lemma timeline_remove R E x A B C :
  timeline (x :: R) E → E = A ++ call_of x :: B ++ return_of x :: C → timeline R (A ++ B ++ C).
Proof.
  intros [Hp Hs Hi Ht] ->. split.
  - cbn in Hp. rewrite <- Permutation_middle in Hp. apply Permutation_cons_inv in Hp.
    rewrite app_assoc, <- Permutation_middle in Hp. apply Permutation_cons_inv in Hp.
    by rewrite <- app_assoc in Hp.
  - eapply StronglySorted_sublist; [exact Hs|].
    apply sublist_app; [done|]. apply sublist_cons, sublist_app; [done|]. by apply sublist_cons.
  - by apply NoDup_cons in Hi as [_ ?].
  - destruct Ht as [H1 H2]. split; intros; [apply H1|apply H2]; by right.
Qed.

Lemma timed_perm H H' : H ≡ₚ H' → timed H → timed H'.
Proof. intros Hp [H1 H2]. split; intros *; rewrite <- Hp; eauto. Qed.

Lemma timeline_perm R R' E : R ≡ₚ R' → timeline R E → timeline R' E.
Proof.
  intros Hp [H1 H2 H3 H4]. split; [by rewrite H1, Hp|done|by rewrite <- Hp|].
  by eapply timed_perm; [|exact H4]; rewrite Hp.
Qed.

(** What the search builds is an order of the operations. *)
Lemma path_ops E s σ s' R :
  timeline R E → path step E s σ [] s' → ops_linearizable R.*2 s.
Proof.
  intros HT Hp. remember [] as E' eqn:HE'. revert R HT HE'.
  induction Hp as [E s|A c B r C s i o s1 σ E' s' HA Hc Hr Hid Hi Ho Hs _ IH]; intros R HT ->.
  - exists []. split; [|split; [done|constructor]]. destruct R as [|x R]; [done|].
    exfalso. eapply elem_of_nil, (timeline_elem (x :: R) [] (call_of x) HT). exists x. set_solver.
  - destruct (timeline_call R _ c HT) as (x & Hx & ->); [set_solver|done|].
    destruct (timeline_return R _ r HT) as (y & Hy & ->); [set_solver|done|].
    cbn in Hid. assert (y = x) as -> by (by eapply timeline_id; first apply HT). clear Hid Hy.
    apply elem_of_Permutation in Hx as [R' HR].
    pose proof (timeline_remove R' _ x A B C (timeline_perm _ _ _ HR HT) eq_refl) as HT'.
    destruct (IH R' HT' eq_refl) as (L & HL & Hacc & Hreal).
    cbn in Hi, Ho. injection Hi as <-. injection Ho as <-.
    exists (x.2 :: L). split; [by rewrite HL, HR|]. split; [by exists s1|].
    constructor; [done|]. rewrite Forall_forall. intros b Hb. rewrite HL in Hb.
    apply list_elem_of_fmap in Hb as (z & -> & Hz).
    assert (return_of z ∈ A ++ B ++ C) as Hin by (apply (timeline_elem R' _ _ HT'); eauto).
    assert ((call_of x).(entry.time) ≤ (return_of z).(entry.time)) as Hle; [|cbn in Hle; lia].
    apply (sorted_precedes _ _ _ (tl_sorted _ _ HT)), precedes_app_r, precedes_cons. left.
    split; [done|]. apply elem_of_app in Hin as [Hin|Hin]; [exfalso|set_solver].
    rewrite Forall_forall in HA. by apply HA in Hin.
Qed.

(** And an order of the operations is found by the search. *)
Lemma ops_path E s L R :
  timeline R E → L ≡ₚ R.*2 → accepted s L → in_real_time L → lin step E s.
Proof.
  revert R E s. induction L as [|a L IH]; intros R E s HT HL Hacc Hreal.
  - apply symmetry, Permutation_nil_r, fmap_nil_inv in HL as ->.
    assert (E = []) as ->; [|by apply lin_nil]. pose proof (tl_perm _ _ HT) as Hp. cbn in Hp.
    by apply Permutation_nil_r in Hp.
  - assert (∃ x R', R ≡ₚ x :: R' ∧ x.2 = a ∧ L ≡ₚ R'.*2) as (x & R' & HR & <- & HL').
    { assert (a ∈ R.*2) as (x & -> & Hx)%list_elem_of_fmap by (rewrite <- HL; set_solver).
      apply elem_of_Permutation in Hx as [R' HR]. exists x, R'. split; [done|]. split; [done|].
      rewrite HR in HL. cbn in HL. by apply Permutation_cons_inv in HL. }
    clear HL. apply (timeline_perm _ _ _ HR) in HT. clear HR R.
    assert (x ∈ x :: R') as Hx by set_solver.
    pose proof (timeline_before _ _ _ HT Hx) as (A & B & C & HE).
    pose proof (timeline_remove R' E x A B C HT HE) as HT'.
    destruct Hacc as (s1 & Hs & Hacc). apply StronglySorted_inv in Hreal as [Hreal Hfirst].
    destruct (IH R' _ s1 HT' HL' Hacc Hreal) as (σ & s' & Hp). exists (x.1 :: σ), s'. subst E.
    change x.1 with (call_of x).(entry.id). econstructor; try done.
    apply Forall_forall. intros e He. unfold is_call. destruct (entry.kind e) eqn:Hk; [exfalso|done].
    assert (e ∈ A ++ B ++ C) as Hin by set_solver.
    destruct (timeline_return R' _ e HT' Hin Hk) as (z & Hz & ->).
    assert ((return_of z).(entry.time) ≤ (call_of x).(entry.time)) as Hle.
    { apply (sorted_precedes _ _ _ (tl_sorted _ _ HT)).
      apply list_elem_of_split in He as (A1 & A2 & ->). exists A1, A2, (B ++ return_of x :: C).
      by rewrite <- app_assoc. }
    cbn in Hle. rewrite Forall_forall in Hfirst.
    pose proof (Hfirst z.2 ltac:(rewrite HL'; by apply list_elem_of_fmap_2)) as Hnot.
    pose proof (t_apart _ (tl_timed _ _ HT) z.2 x.2) as Hapart.
    rewrite fmap_cons, !elem_of_cons in Hapart.
    assert (z.2 ∈ R'.*2) by (by apply list_elem_of_fmap_2).
    specialize (Hapart ltac:(by right) ltac:(by left)). lia.
Qed.

Lemma ops_iff R E s : timeline R E → linearizable step E s ↔ ops_linearizable R.*2 s.
Proof.
  intros HT. rewrite linearizable_iff by by eapply timeline_matched. split.
  - intros (σ & s' & Hp). by eapply path_ops.
  - intros (L & HL & Hacc & Hreal). by eapply ops_path.
Qed.
End ops.

(** ** [makeEntries] *)

Section makeEntries.
Context {In Out St : Type} (step : St → In → Out → bool * St).
Context (sort : list (entry.t In Out) → list (entry.t In Out)) `{!SortsByTime sort}.
Local Abbreviation operation := (Operation.t In Out).
Implicit Types (H : list operation).

Definition numbers H : list (Z * operation) := imap (λ i a, (Z.of_nat i, a)) H.

Lemma numbers_snd H : (numbers H).*2 = H.
Proof.
  unfold numbers. rewrite fmap_imap. apply list_eq. intros i. rewrite list_lookup_imap.
  by destruct (H !! i).
Qed.

Lemma numbers_fst H : (numbers H).*1 = Z.of_nat <$> seq 0 (List.length H).
Proof.
  unfold numbers. rewrite fmap_imap. apply list_eq. intros i.
  rewrite list_lookup_imap, list_lookup_fmap. destruct (H !! i) eqn:Hi; cbn.
  - rewrite lookup_seq_lt; [done|]. by eapply lookup_lt_Some.
  - rewrite lookup_seq_ge; [done|]. by apply lookup_ge_None.
Qed.

Lemma makeEntries_timeline H : timed H → timeline (numbers H) (makeEntries sort H).
Proof.
  intros Ht. split.
  - unfold makeEntries. rewrite sort_perm. unfold numbers. by rewrite fmap_imap.
  - unfold sorted, makeEntries. apply sort_sorted.
  - rewrite numbers_fst. apply NoDup_fmap; [apply _|]. apply NoDup_seq.
  - by rewrite numbers_snd.
Qed.

Lemma makeEntries_numbered H : timed H → numbered (makeEntries sort H).
Proof.
  intros Ht i. pose proof (makeEntries_timeline H Ht) as HT.
  assert (zlen (makeEntries sort H) / 2 = zlen H) as ->.
  { unfold zlen. rewrite (Permutation_length (tl_perm _ _ HT)).
    assert (∀ R : list (Z * operation), List.length (concat (op_entries <$> R)) = (List.length R * 2)%nat) as Hlen.
    { induction R as [|x R IH]; [done|]. cbn. by rewrite IH. }
    rewrite Hlen, Nat2Z.inj_mul, Z.div_mul by done. by rewrite <- (length_fmap snd (numbers H)), numbers_snd. }
  assert (i ∈ ids (makeEntries sort H) ↔ i ∈ (numbers H).*1) as ->.
  { unfold ids. rewrite !list_elem_of_fmap. split.
    - intros (e & -> & (x & Hx & He)%(timeline_elem _ _ _ HT)). exists x. by destruct He as [-> | ->].
    - intros (x & -> & Hx). exists (call_of x). split; [done|]. apply (timeline_elem _ _ _ HT). eauto. }
  rewrite numbers_fst, list_elem_of_fmap. unfold zlen. setoid_rewrite elem_of_seq. split.
  - intros (k & -> & Hk). lia.
  - intros Hi. exists (Z.to_nat i). lia.
Qed.

Lemma makeEntries_linearizable H s :
  timed H → linearizable step (makeEntries sort H) s ↔ ops_linearizable step H s.
Proof.
  intros Ht. rewrite (ops_iff step _ _ s (makeEntries_timeline H Ht)). by rewrite numbers_snd.
Qed.
End makeEntries.
