(* ===== verification/PorcParallel.v ===== *)
(** [checkParallel] and the functions of [src/src/porcupine/porcupine.go]: whatever
    order the partitions answer in, and wherever the timeout comes, the answer is
    never wrong; without a timeout there is one, unless there is no partition. *)
From S2P Require Import Prelude PorcBitset PorcChecker PorcLin PorcList PorcSearch PorcSingle PorcOps.
Open Scope Z_scope.

(** ** The loop that listens *)

Lemma gather_spec ci len arr count ok ok' t :
  gather ci len arr count ok = Some (ok', t) →
  ∃ rs q, arr = (Result <$> rs) ++ q ∧ ok' = ok && forallb (λ r, r) rs ∧
    (t = false → ok' = false ∨ len ≤ count + zlen rs) ∧ (t = true → TimedOut ∈ arr).
Proof.
  revert count ok. induction arr as [|[r|] arr IH]; intros count ok Hg; cbn in Hg; [done|..].
  - destruct (negb (ok && r) && negb ci) eqn:Hbad; [injection Hg as <- <-|].
    { exists [r], arr. split; [done|]. split; [by cbn; rewrite andb_true_r|]. split; [|done].
      intros _. left. apply andb_true_iff in Hbad as [Hbad _]. by apply negb_true_iff in Hbad. }
    destruct (Z.leb_spec len (count + 1)).
    { injection Hg as <- <-. exists [r], arr. split; [done|]. split; [by cbn; rewrite andb_true_r|].
      split; [|done]. intros _. right. unfold zlen. cbn. lia. }
    destruct (IH _ _ Hg) as (rs & q & -> & -> & Ht & Hto). exists (r :: rs), q. split; [done|].
    split; [cbn; by rewrite andb_assoc|]. split; [|intros; right; by apply Hto]. intros Hf. destruct (Ht Hf) as [?|?]; [by left|right].
    unfold zlen in *. cbn [List.length]. lia.
  - injection Hg as <- <-. exists [], (TimedOut :: arr). split; [done|].
    split; [by rewrite andb_true_r|]. split; [done|]. by left.
Qed.

(** With every partition answering there is an answer. *)
Lemma gather_total ci len rs count ok :
  len ≤ count + zlen rs → rs ≠ [] →
  ∃ ok', gather ci len (Result <$> rs) count ok = Some (ok', false).
Proof.
  revert count ok. induction rs as [|r rs IH]; intros count ok Hlen Hne; [done|]. cbn.
  destruct (negb (ok && r) && negb ci); [by eexists|].
  destruct (Z.leb_spec len (count + 1)); [by eexists|]. unfold zlen in *. cbn [List.length] in *.
  apply IH; [lia|]. intros ->. cbn in *. lia.
Qed.

Section parallel.
Context {In Out St : Type} (m : Model.t In Out St) (eq : St → St → bool).
Hypothesis Heq : m.(Model.Equal) = Some eq.
Hypothesis Hequal : ∀ s t i o, eq s t = true → (m.(Model.Step) s i o).1 = true →
  (m.(Model.Step) t i o).1 = true ∧ eq (m.(Model.Step) s i o).2 (m.(Model.Step) t i o).2 = true.
Context (hs : list (list (entry.t In Out))).
Hypothesis Hhs : Forall (λ E, matched E ∧ numbered E) hs.
Local Abbreviation ok E := (linearizable m.(Model.Step) E m.(Model.Init)).

(** The answer of a partition. *)
Definition answer (partial : bool) (o : option nat) : option arrival :=
  match o with
  | Some i => l ← hs !! i;
              r ← checkSingle (check_fuel l) m l partial (λ _, false);
              Some (Result r.1)
  | None => Some TimedOut
  end.

Lemma answer_ok partial i E : hs !! i = Some E →
  ∃ r, answer partial (Some i) = Some (Result r) ∧ (r = true ↔ ok E).
Proof using All.
  intros Hi. rewrite Forall_forall in Hhs. destruct (Hhs E) as [HE Hn]; [by eapply list_elem_of_lookup_2|].
  destruct (checkSingle_answers m eq Heq Hequal E partial HE Hn) as (r & c & Hr & Hok & _).
  exists r. unfold answer. rewrite Hi. cbn [mbind option_bind]. by rewrite Hr.
Qed.

Lemma answer_inv partial o r : answer partial o = Some (Result r) →
  ∃ i E, o = Some i ∧ hs !! i = Some E ∧ (r = true ↔ ok E).
Proof using All.
  intros Hans. destruct o as [i|]; [|done]. destruct (hs !! i) as [E|] eqn:Hi.
  - destruct (answer_ok partial i E Hi) as (r' & Hr' & Hok). rewrite Hr' in Hans.
    injection Hans as ->. by exists i, E.
  - unfold answer in Hans. by rewrite Hi in Hans.
Qed.

(** The results received are those of the partitions at the start of [order]. *)
Lemma answers_inv partial order rs q :
  Forall2 (λ o a, answer partial o = Some a) order ((Result <$> rs) ++ q) →
  ∃ js order', order = (Some <$> js) ++ order' ∧
    Forall2 (λ i r, ∃ E, hs !! i = Some E ∧ (r = true ↔ ok E)) js rs.
Proof using All.
  revert order. induction rs as [|r rs IH]; intros order Hall.
  - exists [], order. split; [done|constructor].
  - apply Forall2_cons_inv_r in Hall as (o & order1 & Ho & Hall & ->).
    destruct (answer_inv _ _ _ Ho) as (i & E & -> & Hi & Hok).
    destruct (IH _ Hall) as (js & order' & -> & Hrs). exists (i :: js), order'. split; [done|].
    constructor; [by exists E|done].
Qed.

Lemma all_partitions (js : list nat) (rs : list bool) :
  NoDup js → Forall2 (λ i r, ∃ E, hs !! i = Some E ∧ (r = true ↔ ok E)) js rs →
  zlen hs ≤ zlen rs → forallb (λ r, r) rs = true → Forall (λ E, ok E) hs.
Proof using All.
  intros Hnd Hall Hlen Htrue. apply Forall_lookup. intros i E Hi.
  assert (i ∈ js) as Hin.
  { pose proof (Forall2_length _ _ _ Hall) as Hl. unfold zlen in Hlen.
    assert (js ⊆+ seq 0 (List.length hs)) as Hsub.
    { apply NoDup_submseteq; [done|]. intros j (k & Hk)%list_elem_of_lookup.
      destruct (Forall2_lookup_l _ _ _ _ _ Hall Hk) as (r & _ & E' & Hj & _).
      apply elem_of_seq. apply lookup_lt_Some in Hj. lia. }
    apply submseteq_length_Permutation in Hsub; [|rewrite length_seq; lia].
    rewrite Hsub. apply elem_of_seq. apply lookup_lt_Some in Hi. lia. }
  apply list_elem_of_lookup in Hin as [k Hk].
  destruct (Forall2_lookup_l _ _ _ _ _ Hall Hk) as (r & Hr & E' & Hi' & Hok).
  rewrite Hi in Hi'. injection Hi' as <-. apply Hok.
  rewrite forallb_forall in Htrue. apply Htrue, list_elem_of_In. by eapply list_elem_of_lookup_2.
Qed.

(** An answer is right, timeout or not. *)
Lemma checkParallel_right ci order kill shuffle res info :
  NoDup order → checkParallel m hs ci order kill shuffle = Some (res, info) →
  (res = Ok → Forall (λ E, ok E) hs) ∧ (res = Illegal → ¬ Forall (λ E, ok E) hs) ∧
  (None ∉ order → res ≠ Unknown).
Proof using All.
  intros Hnd Hcp. unfold checkParallel in Hcp.
  destruct (mapM _ order) as [arr|] eqn:Harr; cbn [mbind option_bind] in Hcp; [|done].
  destruct (gather ci (zlen hs) arr 0 true) as [[b t]|] eqn:Hg; cbn [mbind option_bind] in Hcp; [|done].
  destruct (if ci then _ else _) as [info'|]; cbn [mbind option_bind] in Hcp; [|done].
  injection Hcp as Hres _. apply mapM_Some in Harr. change (Forall2 (λ o a, answer ci o = Some a) order arr) in Harr.
  pose proof (gather_spec _ _ _ _ _ _ _ Hg) as (rs & q & Hq & Hb & Ht & Hto).
  assert (t = true → None ∈ order) as Hnone.
  { intros [k Hk]%Hto%list_elem_of_lookup. destruct (Forall2_lookup_r _ _ _ _ _ Harr Hk) as (o & Ho & Hans).
    destruct o as [i|]; [|by eapply list_elem_of_lookup_2]. cbn in Hans.
    destruct (hs !! i) as [l|]; [|done]. cbn in Hans. by destruct (checkSingle _ _ _ _ _). }
  rewrite Hq in Harr. destruct (answers_inv _ _ _ _ Harr) as (js & order' & -> & Hall). cbn in Hb.
  apply NoDup_app in Hnd as (Hnd & _ & _). apply NoDup_fmap_1 in Hnd.
  assert (b = false → ¬ Forall (λ E, ok E) hs) as Hbad.
  { intros Hbf Hf. rewrite Hbf in Hb. clear Hbf.
    assert (forallb (λ r, r) rs = true) as Htrue; [|congruence]. apply forallb_forall.
    intros r [k Hk]%list_elem_of_In%list_elem_of_lookup.
    destruct (Forall2_lookup_r _ _ _ _ _ Hall Hk) as (i & _ & E & Hi & Hok). apply Hok.
    rewrite Forall_forall in Hf. apply Hf. by eapply list_elem_of_lookup_2. }
  destruct b, t; cbn in Hres; subst res; split_and!; try done; try (by auto).
  intros _. destruct (Ht eq_refl) as [?|Hlen]; [done|]. by eapply all_partitions.
Qed.

(** Without a timeout, and with a partition, the loop ends. *)
Lemma partitions_heard ci order :
  hs ≠ [] → order ≡ₚ seq 0 (List.length hs) →
  ∃ rs b, mapM (answer ci) (Some <$> order) = Some (Result <$> rs) ∧
    gather ci (zlen hs) (Result <$> rs) 0 true = Some (b, false).
Proof using All.
  intros Hne Hp.
  assert (∃ rs, mapM (answer ci) (Some <$> order) = Some (Result <$> rs) ∧ List.length rs = List.length order)
    as (rs & Hrs & Hlen).
  { assert (∀ i, i ∈ order → i < List.length hs)%nat as Hin.
    { intros i. rewrite Hp, elem_of_seq. lia. }
    clear Hp. induction order as [|i order IH]; [by exists []|].
    destruct IH as (rs & Hrs & Hlen); [intros; apply Hin; by right|].
    destruct (lookup_lt_is_Some_2 hs i) as [E Hi]; [apply Hin; by left|].
    destruct (answer_ok ci i E Hi) as (r & Hr & _). exists (r :: rs). split; [|cbn; by rewrite Hlen].
    rewrite fmap_cons. cbn [mapM]. rewrite Hr. cbn [mbind option_bind]. by rewrite Hrs. }
  assert (List.length rs = List.length hs) as Hlen' by (by rewrite Hlen, Hp, length_seq).
  exists rs. destruct (gather_total ci (zlen hs) rs 0 true) as (b & Hg).
  - unfold zlen. lia.
  - intros ->. by destruct hs.
  - by exists b.
Qed.

Lemma checkParallel_answers order kill shuffle :
  hs ≠ [] → order ≡ₚ seq 0 (List.length hs) →
  ∃ res info, checkParallel m hs false (Some <$> order) kill shuffle = Some (res, info).
Proof using All.
  intros Hne Hp. destruct (partitions_heard false order Hne Hp) as (rs & b & Hrs & Hg).
  unfold checkParallel.
  change (mapM _ (Some <$> order)) with (mapM (answer false) (Some <$> order)).
  rewrite Hrs. cbn [mbind option_bind]. rewrite Hg. by eexists _, _.
Qed.

(** The sequences shown for a partition are linearizations of some of its operations. *)
Lemma unique_partials_ok E c shuffle :
  (∀ l : list nat, shuffle l ≡ₚ l) → partials_ok m E c →
  ∃ ps, unique_partials shuffle c = Some ps ∧
    Forall (partial_linearization m.(Model.Step) E m.(Model.Init)) ps.
Proof using All.
  intros Hsh [_ Hp]. unfold unique_partials.
  set (l := shuffle _).
  assert (∀ a, a ∈ l → ∃ σ, c.(seqs) !! a = Some σ ∧
    partial_linearization m.(Model.Step) E m.(Model.Init) σ) as Hl.
  { intros a Ha. subst l. rewrite Hsh, elem_of_elements, elem_of_list_to_set, list_elem_of_omap in Ha.
    destruct Ha as (x & (i & Hi)%list_elem_of_lookup & ->).
    destruct (Hp i a Hi) as (σ & ? & _ & ?). eauto. }
  clearbody l. induction l as [|a l IH]; [exists []; by split; [|constructor]|].
  destruct IH as (ps & Hps & Hall); [intros; apply Hl; by right|].
  destruct (Hl a) as (σ & Hσ & Hok); [by left|]. exists (σ :: ps). split; [|by constructor].
  cbn [mapM]. rewrite Hσ. cbn [mbind option_bind]. by rewrite Hps.
Qed.

Lemma checkParallel_partials order kill shuffle :
  hs ≠ [] → order ≡ₚ seq 0 (List.length hs) → (∀ l : list nat, shuffle l ≡ₚ l) →
  ∃ res info, checkParallel m hs true (Some <$> order) kill shuffle = Some (res, info) ∧
    info.(history_) = hs ∧
    Forall2 (λ E ps, Forall (partial_linearization m.(Model.Step) E m.(Model.Init)) ps)
      hs info.(partialLinearizations).
Proof using All.
  intros Hne Hp Hsh. destruct (partitions_heard true order Hne Hp) as (rs & b & Hrs & Hg).
  unfold checkParallel.
  change (mapM _ (Some <$> order)) with (mapM (answer true) (Some <$> order)).
  rewrite Hrs. cbn [mbind option_bind]. rewrite Hg. cbn [mbind option_bind].
  set (f := λ il : nat * list (entry.t In Out), _).
  assert (∃ ps, mapM f (imap pair hs) = Some ps ∧
    Forall2 (λ E ps, Forall (partial_linearization m.(Model.Step) E m.(Model.Init)) ps) hs ps)
    as (ps & Hps & Hall).
  { assert (∀ il, il ∈ imap pair hs → ∃ ps, f il = Some ps ∧
      Forall (partial_linearization m.(Model.Step) il.2 m.(Model.Init)) ps) as Hf.
    { intros il (i & E & -> & Hi)%elem_of_lookup_imap. subst f. cbn [fst snd].
      rewrite decide_True by (apply list_elem_of_fmap_2; rewrite Hp, elem_of_seq; apply lookup_lt_Some in Hi; lia).
      destruct (proj1 (Forall_forall _ _) Hhs E) as [HE Hn]; [by eapply list_elem_of_lookup_2|].
      destruct (checkSingle_answers m eq Heq Hequal E true HE Hn) as (r & c & -> & _ & Hok).
      cbn [mbind option_bind snd]. by eapply unique_partials_ok. }
    clearbody f.
    assert (∃ ps, mapM f (imap pair hs) = Some ps ∧
      Forall2 (λ E ps, Forall (partial_linearization m.(Model.Step) E m.(Model.Init)) ps)
        (imap pair hs).*2 ps) as (ps & Hps & Hall).
    { induction (imap pair hs) as [|il l IH]; [exists []; by split; [|constructor]|].
      destruct IH as (ps & Hps & Hall); [intros; apply Hf; by right|].
      destruct (Hf il) as (p & Hil & Hok); [by left|]. exists (p :: ps). split.
      - cbn [mapM]. rewrite Hil. cbn [mbind option_bind]. by rewrite Hps.
      - by constructor. }
    exists ps. split; [done|]. assert ((imap pair hs).*2 = hs) as Hsnd; [|by rewrite Hsnd in Hall].
    rewrite fmap_imap. apply list_eq. intros i. rewrite list_lookup_imap. by destruct (hs !! i). }
  rewrite Hps. cbn [mbind option_bind]. by eexists _, _.
Qed.
End parallel.

(** With no partition there is nothing to receive: the loop waits for ever. *)
Lemma no_partition_waits {In Out St} (m : Model.t In Out St) ci order kill shuffle :
  checkParallel m [] ci (Some <$> order) kill shuffle = None.
Proof. by destruct order. Qed.
