(* ===== verification/PorcKV.v ===== *)
(** The model of the key/value store that the tests give the checker
    ([src/src/models/kv.go]), which checks every key by itself, and that its answer
    is linearizability of the whole store: the locality of linearizability. *)
From stdpp Require Import sorting.
From S2P Require Import Prelude PorcBitset PorcChecker PorcLin PorcList PorcSearch PorcSingle PorcOps PorcParallel.
Open Scope Z_scope.

Module KvInput.
Record t := mk {
  Op : Z;        (* uint8; 0: get, 1: put, 2: append *)
  Key : string;
  Value : string
}.
End KvInput.

Module KvOutput.
Record t := mk { Value : string }.
End KvOutput.

Abbreviation kv_operation := (Operation.t KvInput.t KvOutput.t).

Definition key_of (v : kv_operation) : string := v.(Operation.Input).(KvInput.Key).

Module KvModel.
(** The map of lines 19-23. *)
Definition group (history : list kv_operation) : gmap string (list kv_operation) :=
  foldl (λ m v, <[key_of v := default [] (m !! key_of v) ++ [v]]> m) ∅ history.

Definition Partition (history : list kv_operation) : list (list kv_operation) :=
  let m := group history in
  let keys := merge_sort String.le (elements (dom m)) in
  (λ k, default [] (m !! k)) <$> keys.

Definition Init : string := "".

Definition Step (state : string) (inp : KvInput.t) (out : KvOutput.t) : bool * string :=
  if inp.(KvInput.Op) =? 0 then (bool_decide (out.(KvOutput.Value) = state), state)
  else if inp.(KvInput.Op) =? 1 then (true, inp.(KvInput.Value))
  else (true, (state +:+ inp.(KvInput.Value))%string).

Definition DescribeOperation (inp : KvInput.t) (out : KvOutput.t) : string :=
  let op := inp.(KvInput.Op) in
  if op =? 0 then "get('" +:+ inp.(KvInput.Key) +:+ "') -> '" +:+ out.(KvOutput.Value) +:+ "'"
  else if op =? 1 then "put('" +:+ inp.(KvInput.Key) +:+ "', '" +:+ inp.(KvInput.Value) +:+ "')"
  else if op =? 2 then "append('" +:+ inp.(KvInput.Key) +:+ "', '" +:+ inp.(KvInput.Value) +:+ "')"
  else "<invalid>".

Definition KvModel : Model.t KvInput.t KvOutput.t string :=
  Model.mk (Some Partition) None Init Step None.
End KvModel.

(** ** The store *)

(** The whole store, a missing key the empty string. *)
Definition kv_step (st : gmap string string) (inp : KvInput.t) (out : KvOutput.t)
    : bool * gmap string string :=
  let '(ok, v) := KvModel.Step (default "" (st !! inp.(KvInput.Key))) inp out in
  (ok, <[inp.(KvInput.Key) := v]> st).

Definition kv_linearizable (history : list kv_operation) : Prop :=
  ops_linearizable kv_step history ∅.

Definition of_key (k : string) (history : list kv_operation) : list kv_operation :=
  filter (λ v, key_of v = k) history.

(** ** Partitions *)

Lemma group_lookup history k :
  KvModel.group history !! k = (if decide (of_key k history = []) then None else Some (of_key k history)).
Proof.
  unfold KvModel.group. induction history as [|v history IH] using rev_ind.
  - cbn [foldl]. by rewrite lookup_empty.
  - rewrite foldl_app. cbn [foldl]. set (g := foldl _ _ _) in *. unfold of_key in *. rewrite filter_app.
    destruct (decide (key_of v = k)) as [<-|Hne].
    + rewrite lookup_insert_eq, IH. rewrite (filter_cons_True _ v) by done. cbn.
      destruct (decide (filter _ history = [])) as [->|]; cbn; [done|].
      rewrite decide_False; [done|]. by intros [_ ?]%app_eq_nil.
    + rewrite lookup_insert_ne by done. rewrite (filter_cons_False _ v) by done. cbn.
      by rewrite app_nil_r.
Qed.

Lemma Partition_elem history H :
  H ∈ KvModel.Partition history ↔ ∃ k, H = of_key k history ∧ of_key k history ≠ [].
Proof.
  unfold KvModel.Partition. rewrite list_elem_of_fmap. split.
  - intros (k & -> & Hk). rewrite merge_sort_Permutation, elem_of_elements, elem_of_dom in Hk.
    exists k. rewrite group_lookup in *. destruct (decide _) as [|Hne]; [by destruct Hk|done].
  - intros (k & -> & Hne). exists k. rewrite merge_sort_Permutation, elem_of_elements, elem_of_dom.
    by rewrite !group_lookup, !decide_False.
Qed.

Lemma Partition_ne history : history ≠ [] → KvModel.Partition history ≠ [].
Proof.
  destruct history as [|v history]; [done|]. intros _ Hnil.
  assert (of_key (key_of v) (v :: history) ∈ KvModel.Partition (v :: history)) as Hin.
  - apply Partition_elem. exists (key_of v). split; [done|]. unfold of_key.
    by rewrite filter_cons_True.
  - rewrite Hnil in Hin. by apply elem_of_nil in Hin.
Qed.

(** ** Locality *)

Definition value_of (st : gmap string string) (k : string) : string := default "" (st !! k).

Lemma kv_step_spec st inp out ok st' :
  kv_step st inp out = (ok, st') →
  KvModel.Step (value_of st inp.(KvInput.Key)) inp out = (ok, value_of st' inp.(KvInput.Key)) ∧
  ∀ k, k ≠ inp.(KvInput.Key) → value_of st' k = value_of st k.
Proof.
  unfold kv_step, value_of. destruct (KvModel.Step _ _ _) as [b v]. intros [= <- <-]. split.
  - by rewrite lookup_insert_eq.
  - intros k Hk. by rewrite lookup_insert_ne.
Qed.

(** The operations of one key, in the order of all. *)
Lemma accepted_key st L k :
  accepted kv_step st L → accepted KvModel.Step (value_of st k) (of_key k L).
Proof.
  revert st. induction L as [|a L IH]; intros st Hacc; [done|].
  destruct Hacc as (st' & Hs & Hacc). apply IH in Hacc.
  destruct (kv_step_spec _ _ _ _ _ Hs) as [Hk Ho]. unfold of_key.
  destruct (decide (key_of a = k)) as [<-|Hne].
  - rewrite filter_cons_True by done. by exists (value_of st' (key_of a)).
  - rewrite filter_cons_False by done. by rewrite <- Ho.
Qed.

(** Orders of the keys one by one give an order of all: next is the operation called
    first among those that can be next for their key. *)
Lemma first_call (l : list kv_operation) :
  l ≠ [] → ∃ a, a ∈ l ∧ ∀ b, b ∈ l → a.(Operation.Call) ≤ b.(Operation.Call).
Proof.
  induction l as [|a l IH]; [done|]. intros _. destruct (decide (l = [])) as [->|Hne].
  - exists a. split; [by left|]. by intros b ->%list_elem_of_singleton.
  - destruct (IH Hne) as (c & Hc & Hmin).
    destruct (Z.le_gt_cases a.(Operation.Call) c.(Operation.Call)).
    + exists a. split; [by left|]. intros b [->|Hb]%elem_of_cons; [lia|]. specialize (Hmin b Hb). lia.
    + exists c. split; [by right|]. intros b [->|Hb]%elem_of_cons; [lia|]. auto.
Qed.

Lemma merge_keys H (st : gmap string string) (f : string → list kv_operation) :
  (∀ a, a ∈ H → a.(Operation.Call) < a.(Operation.Return)) →
  (∀ k, f k ≡ₚ of_key k H ∧ accepted KvModel.Step (value_of st k) (f k) ∧ in_real_time (f k)) →
  ops_linearizable kv_step H st.
Proof.
  remember (List.length H) as n eqn:Hn. revert H st f Hn.
  induction n as [|n IH]; intros H st f Hn Hlast Hf.
  { exists []. symmetry in Hn. apply nil_length_inv in Hn as ->. split; [done|]. by split; [|constructor]. }
  assert (∀ b, b ∈ H → ∃ a L, f (key_of b) = a :: L ∧ a ∈ H ∧ key_of a = key_of b) as Hheads.
  { intros b Hb. destruct (Hf (key_of b)) as (Hp & _ & _).
    assert (b ∈ f (key_of b)) as Hin by (rewrite Hp; by apply list_elem_of_filter).
    destruct (f (key_of b)) as [|a L]; [by apply elem_of_nil in Hin|]. exists a, L. split; [done|].
    assert (a ∈ of_key (key_of b) H) as Ha by (rewrite <- Hp; by left).
    by apply list_elem_of_filter in Ha as [? ?]. }
  destruct (first_call (omap (λ b, head (f (key_of b))) H)) as (a & Ha & Hmin).
  { destruct H as [|b H]; [done|]. destruct (Hheads b) as (a & L & Heq & _); [by left|].
    cbn. by rewrite Heq. }
  apply list_elem_of_omap in Ha as (b & Hb & Hhead).
  destruct (Hheads b Hb) as (a' & L & Heq & HaH & Hkey). rewrite Heq in Hhead. injection Hhead as ->.
  rewrite <- Hkey in Heq. clear Hkey Hb b.
  destruct (Hf (key_of a)) as (Hp & Hacc & Hreal). rewrite Heq in Hp, Hacc, Hreal.
  destruct Hacc as (v & Hs & Hacc). apply StronglySorted_inv in Hreal as [Hreal _].
  pose proof HaH as (H' & HH)%elem_of_Permutation.
  set (st' := <[key_of a := v]> st).
  set (f' := λ k, if decide (k = key_of a) then L else f k).
  destruct (IH H' st' f') as (L' & HL' & Hacc' & Hreal').
  - rewrite HH in Hn. cbn in Hn. lia.
  - intros b Hb. apply Hlast. rewrite HH. by right.
  - intros k. unfold f', st', value_of. unfold of_key in *. destruct (decide (k = key_of a)) as [->|Hne].
    + rewrite lookup_insert_eq. split; [|done]. rewrite HH, filter_cons_True in Hp by done.
      by apply Permutation_cons_inv in Hp.
    + rewrite lookup_insert_ne by done. destruct (Hf k) as (Hpk & ? & ?). split; [|done].
      by rewrite Hpk, HH, filter_cons_False by congruence.
  - exists (a :: L'). split; [by rewrite HL', HH|]. split.
    + exists st'. split; [|done]. unfold kv_step. fold (value_of st (KvInput.Key (Operation.Input a))).
      change (KvInput.Key (Operation.Input a)) with (key_of a). by rewrite Hs.
    + constructor; [done|]. apply Forall_forall. intros b Hb Hlt. rewrite HL' in Hb.
      assert (b ∈ H) as HbH by (rewrite HH; by right).
      destruct (Hheads b HbH) as (c & Lc & Hc & HcH & Hkc).
      assert (a.(Operation.Call) ≤ c.(Operation.Call)) as Hac.
      { apply Hmin, list_elem_of_omap. exists b. by rewrite Hc. }
      destruct (Hf (key_of b)) as (Hpb & _ & Hrb). rewrite Hc in Hpb, Hrb.
      apply StronglySorted_inv in Hrb as [_ Hrb]. rewrite Forall_forall in Hrb.
      assert (b ∈ c :: Lc) as Hin by (rewrite Hpb; by apply list_elem_of_filter).
      apply elem_of_cons in Hin as [->|Hin]; [|specialize (Hrb b Hin); lia].
      specialize (Hlast c HcH). lia.
Qed.

Lemma kv_locality H :
  (∀ a, a ∈ H → a.(Operation.Call) < a.(Operation.Return)) →
  kv_linearizable H ↔ ∀ k, ops_linearizable KvModel.Step (of_key k H) "".
Proof.
  intros Hlast. split.
  - intros (L & HL & Hacc & Hreal) k. exists (of_key k L). split; [unfold of_key; by rewrite HL|].
    split.
    + change "" with (value_of ∅ k). by apply accepted_key.
    + eapply StronglySorted_sublist; [exact Hreal|]. apply sublist_filter.
  - intros Hk. assert (∀ ks : list string, ∃ f : string → list kv_operation, ∀ k,
      if decide (k ∈ ks) then f k ≡ₚ of_key k H ∧ accepted KvModel.Step "" (f k) ∧ in_real_time (f k)
      else f k = []) as Hchoice.
    { induction ks as [|k0 ks (f & Hf)].
      - exists (λ _, []). intros k. rewrite decide_False; [done|]. intros Hin. by apply elem_of_nil in Hin.
      - destruct (Hk k0) as (L & HL). exists (λ k, if decide (k = k0) then L else f k). intros k.
        specialize (Hf k). destruct (decide (k = k0)) as [->|Hne].
        + by rewrite decide_True by (by left).
        + destruct (decide (k ∈ ks)); [by rewrite decide_True by (by right)|].
          rewrite decide_False; [done|]. by intros [?|?]%elem_of_cons. }
    destruct (Hchoice (key_of <$> H)) as (f & Hf).
    apply (merge_keys H ∅ f Hlast). intros k. change (value_of ∅ k) with "".
    specialize (Hf k). destruct (decide (k ∈ key_of <$> H)) as [Hin|Hno]; [done|]. rewrite Hf.
    split; [|by split; [|constructor]]. unfold of_key.
    assert (filter (λ v, key_of v = k) H = []) as ->; [|done].
    destruct (filter (λ v, key_of v = k) H) as [|v l] eqn:Hfil; [done|].
    assert (v ∈ filter (λ v, key_of v = k) H) as Hv by (rewrite Hfil; by left).
    apply list_elem_of_filter in Hv as [<- Hv]. destruct Hno. by apply list_elem_of_fmap_2.
Qed.
