(* ===== verification/PorcProps.v ===== *)
(** What the linearizability checker promises ([src/src/porcupine], with the model of
    [src/src/models/kv.go]): its answer is linearizability of the history. *)
From stdpp Require Import sorting.
From S2P Require Import Prelude PorcBitset PorcChecker PorcLin PorcList PorcSearch PorcSingle PorcOps PorcParallel PorcKV.
Open Scope Z_scope.

(** A sort, for the examples. *)
Definition sort_by_time {In Out} : list (entry.t In Out) → list (entry.t In Out) :=
  stable_sort (λ a b, a.(entry.time) <? b.(entry.time)).

#[local] Instance sort_by_time_sorts {In Out} : SortsByTime (@sort_by_time In Out).
Proof.
  split; intros l; [apply stable_sort_Permutation|].
  apply (stable_sort_key_Sorted (λ e : entry.t In Out, e.(entry.time))).
Qed.

(** [ShallowEqual] tells states apart as the model does. *)
Lemma ShallowEqual_steps {In Out St} `{!EqDecision St} (step : St → In → Out → bool * St) s t i o :
  ShallowEqual s t = true → (step s i o).1 = true →
  (step t i o).1 = true ∧ ShallowEqual (step s i o).2 (step t i o).2 = true.
Proof.
  unfold ShallowEqual. rewrite !bool_decide_eq_true. by intros ->.
Qed.

Section kv.
Context (sort : list (entry.t KvInput.t KvOutput.t) → list (entry.t KvInput.t KvOutput.t)).
Context `{!SortsByTime sort}.
Context (H : list kv_operation) (Htimed : timed H).
Local Abbreviation hs := (makeEntries sort <$> KvModel.Partition H).
Local Abbreviation m := (fillDefault KvModel.KvModel).

Lemma timed_key k : timed (of_key k H).
Proof using All.
  destruct Htimed as [H1 H2]. unfold of_key.
  split; intros *; rewrite !list_elem_of_filter; naive_solver.
Qed.

Lemma kv_partitions : Forall (λ E, matched E ∧ numbered E) hs.
Proof using All.
  apply Forall_forall. intros E (P & -> & HP)%list_elem_of_fmap.
  apply Partition_elem in HP as (k & -> & _). pose proof (timed_key k) as Ht.
  split; [by eapply timeline_matched, makeEntries_timeline|by apply makeEntries_numbered].
Qed.

Lemma kv_hs_ne : H ≠ [] → hs ≠ [].
Proof using Type.
  intros Hne%Partition_ne Hnil. by apply fmap_nil_inv in Hnil.
Qed.

(** The partitions are linearizable when the store is. *)
Lemma kv_partitions_linearizable :
  Forall (λ E, linearizable KvModel.Step E KvModel.Init) hs ↔ kv_linearizable H.
Proof using All.
  rewrite (kv_locality H (t_lasts _ Htimed)), Forall_forall. split.
  - intros Hall k. destruct (decide (of_key k H = [])) as [->|Hne].
    { exists []. by split; [|split; [|constructor]]. }
    apply (makeEntries_linearizable KvModel.Step sort); [apply timed_key|]. apply Hall.
    apply list_elem_of_fmap_2, Partition_elem. eauto.
  - intros Hk E (P & -> & HP)%list_elem_of_fmap. apply Partition_elem in HP as (k & -> & _).
    apply makeEntries_linearizable; [done|apply timed_key|apply Hk].
Qed.

(** What [checkParallel] needs of the model. *)
Lemma kv_right ci order kill shuffle res info :
  NoDup order → checkOperations sort KvModel.KvModel ci order kill shuffle H = Some (res, info) →
  (res = Ok → kv_linearizable H) ∧ (res = Illegal → ¬ kv_linearizable H) ∧
  (None ∉ order → res ≠ Unknown).
Proof using All.
  intros Hnd Hcheck. rewrite <- kv_partitions_linearizable.
  exact (checkParallel_right m ShallowEqual eq_refl (ShallowEqual_steps KvModel.Step) hs
    kv_partitions ci order kill shuffle res info Hnd Hcheck).
Qed.
End kv.

(** A history that is written out has its times apart. *)
Ltac solve_timed :=
  split;
  [intros a Ha; repeat (apply elem_of_cons in Ha as [->|Ha]; [cbn; lia|]); by apply elem_of_nil in Ha
  |intros a b Ha Hb; repeat (apply elem_of_cons in Ha as [->|Ha];
     [repeat (apply elem_of_cons in Hb as [->|Hb]; [cbn; lia|]); by apply elem_of_nil in Hb|]);
   by apply elem_of_nil in Ha].

(** ** One history *)

(** C9: [checkSingle] ends, within [check_fuel] turns of its loop, on every history of
    matching calls and returns, and it answers [true] exactly when the history is
    linearizable: when there is an order of all its operations that the model accepts
    and in which an operation that returned before another one was called is before it.
    Lifting an operation out of the list and putting it back, and not looking again at
    a configuration that is in the cache, lose no order. *)
Theorem checkSingle_decides {In Out St} (m : Model.t In Out St) (eq : St → St → bool)
    (E : list (entry.t In Out)) (partial : bool) :
  m.(Model.Equal) = Some eq →
  (∀ s t i o, eq s t = true → (m.(Model.Step) s i o).1 = true →
    (m.(Model.Step) t i o).1 = true ∧ eq (m.(Model.Step) s i o).2 (m.(Model.Step) t i o).2 = true) →
  matched E → numbered E →
  ∃ ok c, checkSingle (check_fuel E) m E partial (λ _, false) = Some (ok, c) ∧
    (ok = true ↔ linearizable m.(Model.Step) E m.(Model.Init)).
Proof.
  intros Heq Hequal HE Hn.
  destruct (checkSingle_answers m eq Heq Hequal E partial HE Hn) as (ok & c & ? & ? & _). eauto.
Qed.

(** Two clients: one puts 1 and the other gets 1 while it does. *)
Definition example_history : list kv_operation :=
  [Operation.mk 0 (KvInput.mk 1 "x" "1") 0 (KvOutput.mk "") 10;
   Operation.mk 1 (KvInput.mk 0 "x" "") 5 (KvOutput.mk "1") 15;
   Operation.mk 1 (KvInput.mk 2 "y" "2") 16 (KvOutput.mk "") 20].

Lemma example_timed : timed example_history.
Proof. solve_timed. Qed.

Lemma checkSingle_decides_witness :
  ∃ ok c, let E := makeEntries sort_by_time (take 2 example_history) in
    checkSingle (check_fuel E) (fillDefault KvModel.KvModel) E true (λ _, false) = Some (ok, c) ∧
    (ok = true ↔ linearizable KvModel.Step E KvModel.Init).
Proof.
  assert (timed (take 2 example_history)) as Ht.
  { assert (∀ x, x ∈ take 2 example_history → x ∈ example_history) as Hsub.
    { intros x Hx. rewrite <- (take_drop 2 example_history). apply elem_of_app. by left. }
    destruct example_timed as [H1 H2]. split; eauto. }
  apply (checkSingle_decides (fillDefault KvModel.KvModel) ShallowEqual).
  - reflexivity.
  - apply ShallowEqual_steps.
  - apply (timeline_matched (numbers (take 2 example_history))).
    apply makeEntries_timeline; [apply _|exact Ht].
  - apply makeEntries_numbered; [apply _|exact Ht].
Defined.

(** ** The key/value store *)

(** [CheckOperations] answers, and rightly. *)
Lemma checkOperations_decides sort `{!SortsByTime sort} H order kill shuffle :
  H ≠ [] → timed H → order ≡ₚ seq 0 (List.length (KvModel.Partition H)) →
  ∃ ok, CheckOperations sort KvModel.KvModel H order kill shuffle = Some ok ∧
    (ok = true ↔ kv_linearizable H).
Proof.
  intros Hne Ht Hp.
  destruct (checkParallel_answers (fillDefault KvModel.KvModel) ShallowEqual eq_refl
    (ShallowEqual_steps KvModel.Step) (makeEntries sort <$> KvModel.Partition H)
    (kv_partitions sort H Ht) order kill shuffle) as (res & info & Hres).
  { by apply kv_hs_ne. }
  { by rewrite length_fmap. }
  change (checkOperations sort KvModel.KvModel false (Some <$> order) kill shuffle H = Some (res, info)) in Hres.
  unfold CheckOperations. rewrite Hres. cbn. eexists. split; [done|]. rewrite bool_decide_eq_true.
  assert (NoDup (Some <$> order)) as Hnd.
  { apply NoDup_fmap; [apply _|]. rewrite Hp. apply NoDup_seq. }
  destruct (kv_right sort H Ht _ _ _ _ _ _ Hnd Hres) as (Hok & Hill & Hunk).
  split; [by apply Hok|]. intros Hlin. destruct res; [|done|by destruct (Hill eq_refl)].
  destruct Hunk; [|done]. by intros (? & ? & _)%list_elem_of_fmap.
Qed.

(** C8: For a history of the key/value store that is not empty and whose times are
    apart ([timed]: an operation returns after it was called, and none is called at
    the very time an operation returns; with equal times the order of the unstable
    sort would matter), [CheckOperations] answers, whatever order the partitions
    answer in, and the answer is whether the store is linearizable: checking every key
    by itself, in parallel, misses nothing that happens across keys. *)
Theorem CheckOperations_kv sort `{!SortsByTime sort} H order kill shuffle :
  H ≠ [] → timed H → order ≡ₚ seq 0 (List.length (KvModel.Partition H)) →
  ∃ ok, CheckOperations sort KvModel.KvModel H order kill shuffle = Some ok ∧
    (ok = true ↔ kv_linearizable H).
Proof. apply checkOperations_decides, _. Qed.

Lemma CheckOperations_kv_witness :
  CheckOperations sort_by_time KvModel.KvModel example_history [1; 0]%nat (λ _ _, false) id = Some true ∧
  ∃ ok, CheckOperations sort_by_time KvModel.KvModel example_history [1; 0]%nat (λ _ _, false) id = Some ok ∧
    (ok = true ↔ kv_linearizable example_history).
Proof.
  split; [vm_compute; reflexivity|].
  apply CheckOperations_kv; [apply _|done|apply example_timed|].
  vm_compute. constructor.
Defined.

(** C32: With a timeout, wherever it comes, [CheckOperationsTimeout] is never wrong on
    a history of the key/value store whose times are apart ([timed]: an operation
    returns after it was called, and none is called at the very time an operation
    returns; with equal times the order of the unstable sort would matter), each
    partition answering at most once: [Ok] is for a linearizable history only,
    [Illegal] for one that is not; [Unknown] needs the timeout. *)
Theorem CheckOperationsTimeout_safe sort `{!SortsByTime sort} H order kill shuffle res :
  timed H → NoDup order →
  CheckOperationsTimeout sort KvModel.KvModel H order kill shuffle = Some res →
  (res = Ok → kv_linearizable H) ∧ (res = Illegal → ¬ kv_linearizable H) ∧
  (res = Unknown → None ∈ order).
Proof.
  intros Ht Hnd Hres. unfold CheckOperationsTimeout in Hres.
  destruct (checkOperations _ _ _ _ _ _ _) as [[res' info]|] eqn:Hcheck; cbn in Hres; [|done].
  injection Hres as <-. destruct (kv_right sort H Ht _ _ _ _ _ _ Hnd Hcheck) as (Hok & Hill & Hunk).
  split; [done|]. split; [done|]. intros ->. destruct (decide (None ∈ order)); [done|].
  by destruct Hunk.
Qed.

(** A get that misses the put before it. *)
Definition bad_history : list kv_operation :=
  [Operation.mk 0 (KvInput.mk 1 "x" "1") 0 (KvOutput.mk "") 10;
   Operation.mk 1 (KvInput.mk 0 "x" "") 15 (KvOutput.mk "") 20].

Lemma bad_timed : timed bad_history.
Proof. solve_timed. Qed.

Lemma CheckOperationsTimeout_safe_witness :
  (Illegal = Ok → kv_linearizable bad_history) ∧ (Illegal = Illegal → ¬ kv_linearizable bad_history) ∧
  (Illegal = Unknown → None ∈ [Some 0%nat; None]).
Proof.
  apply (CheckOperationsTimeout_safe sort_by_time bad_history [Some 0%nat; None] (λ _ _, false) id Illegal);
    [apply bad_timed|by repeat constructor; set_solver|vm_compute; reflexivity].
Defined.

(** [CheckOperationsVerbose] answers as well when no timeout comes, and every sequence
    of operations it gives for the visualization is a linearization of some of the
    operations of its key. *)
Theorem CheckOperationsVerbose_partials sort `{!SortsByTime sort} H order kill shuffle :
  H ≠ [] → timed H → order ≡ₚ seq 0 (List.length (KvModel.Partition H)) →
  (∀ l : list nat, shuffle l ≡ₚ l) →
  ∃ res info,
    CheckOperationsVerbose sort KvModel.KvModel H (Some <$> order) kill shuffle = Some (res, info) ∧
    (res = Ok ↔ kv_linearizable H) ∧
    info.(history_) = makeEntries sort <$> KvModel.Partition H ∧
    Forall2 (λ E ps, Forall (partial_linearization KvModel.Step E KvModel.Init) ps)
      info.(history_) info.(partialLinearizations).
Proof.
  intros Hne Ht Hp Hsh.
  destruct (checkParallel_partials (fillDefault KvModel.KvModel) ShallowEqual eq_refl
    (ShallowEqual_steps KvModel.Step) (makeEntries sort <$> KvModel.Partition H)
    (kv_partitions sort H Ht) order kill shuffle) as (res & info & Hres & Hh & Hps).
  { by apply kv_hs_ne. }
  { by rewrite length_fmap. }
  { done. }
  change (checkOperations sort KvModel.KvModel true (Some <$> order) kill shuffle H = Some (res, info)) in Hres.
  exists res, info. split; [done|]. split; [|by rewrite Hh].
  assert (NoDup (Some <$> order)) as Hnd.
  { apply NoDup_fmap; [apply _|]. rewrite Hp. apply NoDup_seq. }
  destruct (kv_right sort H Ht _ _ _ _ _ _ Hnd Hres) as (Hok & Hill & Hunk).
  split; [by apply Hok|]. intros Hlin. destruct res; [|done|by destruct (Hill eq_refl)].
  destruct Hunk; [|done]. by intros (? & ? & _)%list_elem_of_fmap.
Qed.

Lemma CheckOperationsVerbose_partials_witness :
  ∃ res info,
    CheckOperationsVerbose sort_by_time KvModel.KvModel example_history [Some 0%nat; Some 1%nat] (λ _ _, false) id
      = Some (res, info) ∧
    (res = Ok ↔ kv_linearizable example_history) ∧
    info.(history_) = makeEntries sort_by_time <$> KvModel.Partition example_history ∧
    Forall2 (λ E ps, Forall (partial_linearization KvModel.Step E KvModel.Init) ps)
      info.(history_) info.(partialLinearizations).
Proof.
  apply (CheckOperationsVerbose_partials sort_by_time example_history [0; 1]%nat);
    [done|apply example_timed|vm_compute; reflexivity|done].
Defined.

(** With an empty history there is no partition, and [CheckOperations] waits for ever. *)
Lemma empty_history_waits sort order kill shuffle :
  CheckOperations sort KvModel.KvModel [] order kill shuffle = None.
Proof. by destruct order. Qed.

(** ** The sets of operations *)

(** C33: The bit sets stay within their words: a position below the size is set, cleared
    and read without a panic, every word stays a 64-bit one, [set] and [clear] change
    that position alone, and [equals] is equality. *)
Theorem bitset_bounds bits b pos :
  bits_ok bits b → 0 ≤ pos < bits →
  (∃ k, set b pos = Some k ∧ bits_ok bits k ∧ get k pos = Some true ∧
    ∀ i, 0 ≤ i < bits → i ≠ pos → get k i = get b i) ∧
  (∃ k, clear b pos = Some k ∧ bits_ok bits k ∧ get k pos = Some false ∧
    ∀ i, 0 ≤ i < bits → i ≠ pos → get k i = get b i) ∧
  ∀ b2, equals b b2 = true ↔ b = b2.
Proof.
  intros Hb Hpos. split; [|split; [|apply equals_spec]].
  - destruct (set_ok bits b pos Hb Hpos) as (k & Hk & Hok & Hhas). exists k.
    split; [done|]. split; [done|]. split.
    + by rewrite (get_ok bits), Hhas, Z.eqb_refl by done.
    + intros i Hi Hne. rewrite !(get_ok bits), Hhas by done. by apply Z.eqb_neq in Hne as ->.
  - destruct (clear_ok bits b pos Hb Hpos) as (k & Hk & Hok & Hhas). exists k.
    split; [done|]. split; [done|]. split.
    + by rewrite (get_ok bits), Hhas, Z.eqb_refl by done.
    + intros i Hi Hne. rewrite !(get_ok bits), Hhas by done. by apply Z.eqb_neq in Hne as ->.
Qed.

Lemma bitset_bounds_witness :
  bits_ok 70 (newBitset 70) ∧
  ∃ k, set (newBitset 70) 69 = Some k ∧ bits_ok 70 k ∧ get k 69 = Some true ∧
    ∀ i, 0 ≤ i < 70 → i ≠ 69 → get k i = get (newBitset 70) i.
Proof.
  assert (bits_ok 70 (newBitset 70)) as Hok by (apply newBitset_ok; lia).
  split; [exact Hok|]. apply (bitset_bounds 70 (newBitset 70) 69 Hok). lia.
Defined.
