(* ===== verification/KVLin.v ===== *)
(** The key/value service and the checker together: a history of client calls that the
    server of [src/src/kvraft/server.go] answers from a log is linearizable, in the
    sense that the checker of [src/src/porcupine] decides with the model of
    [src/src/models/kv.go], and the checker accepts it. *)
From S2P Require Import Prelude Gob Iface RaftTypes RaftPersist KVServer KVProps GobImpl PorcBitset PorcChecker PorcLin PorcOps PorcKV PorcProps.
Open Scope string_scope.
Open Scope list_scope.
Open Scope Z_scope.

Section service.
Context `{!RaftCodec}.

(** A log entry, when it is applied, and the call that it answers, if any: copies of a
    request answer nobody, or a get that is asked again. *)
Record applied := mkApplied { a_index : Z; a_op : Op.t; a_time : Z; a_for : option kv_operation }.

(** What the applier sends back for a get: the client reads the value, or the empty
    string when there is no such key. *)
Definition answer_of (cm : Op.t) : string :=
  if cm.(Op.Typ) =? -1 then "" else cm.(Op.Value).

(** The call is the request of the entry, and under way when it is applied. *)
Record matches (op : Op.t) (time : Z) (a : kv_operation) : Prop := {
  s_op : a.(Operation.Input).(KvInput.Op) = op.(Op.Typ);
  s_key : key_of a = op.(Op.Key);
  s_value : is_write op = true → a.(Operation.Input).(KvInput.Value) = op.(Op.Value);
  s_time : a.(Operation.Call) < time < a.(Operation.Return)
}.

(** What the handlers, which run between two messages, leave alone. *)
Definition same_state (kv kv1 : KVServer) : Prop :=
  kv1.(mp) = kv.(mp) ∧ kv1.(CliMap) = kv.(CliMap) ∧ kv1.(kv_dead) = kv.(kv_dead).

(** The server [kv] applies the log and answers the calls: a write is the call of the
    first entry of its request; a get has the value the applier read. *)
Fixpoint serves_calls (kv : KVServer) (past : gset (Z * Z)) (now : Z) (log : list applied) : Prop :=
  match log with
  | [] => True
  | x :: log =>
      let op := x.(a_op) in
      let fresh := is_write op && negb (bool_decide ((op.(Op.Id), op.(Op.Num)) ∈ past)) in
      now < x.(a_time) ∧
      match x.(a_for) with
      | None => fresh = false
      | Some a =>
          matches op x.(a_time) a ∧
          (if op.(Op.Typ) =? 0
           then ∃ kv' cm, execute op kv = Ret (kv', cm) ∧ a.(Operation.Output).(KvOutput.Value) = answer_of cm
           else fresh = true)
      end ∧
      ∃ kv1 kv', same_state kv kv1 ∧
        Applier [] (ApplyMsg.mk true (IOp op) x.(a_index)) kv1 = Ret kv' ∧
        serves_calls kv' (if (op.(Op.Typ) =? 0) || is_write op
                          then {[(op.(Op.Id), op.(Op.Num))]} ∪ past else past) x.(a_time) log
  end.

Definition calls_of (log : list applied) : list kv_operation := omap a_for log.

(** The server's map and the store of the specification have the same values. *)
Definition same_values (m st : gmap string string) : Prop := ∀ k, value_of m k = value_of st k.

Lemma same_values_write op m st v :
  same_values m st → v = value_of (write op m) op.(Op.Key) → is_write op = true →
  same_values (write op m) (<[op.(Op.Key) := v]> st).
Proof.
  intros Hs -> Hw k. unfold value_of, write. destruct (decide (k = op.(Op.Key))) as [->|Hne].
  - by rewrite lookup_insert_eq.
  - rewrite (lookup_insert_ne st) by done. specialize (Hs k). unfold value_of in Hs.
    destruct (Op.Typ op =? 1); by rewrite lookup_insert_ne.
Qed.

Lemma same_values_read m st k v : same_values m st → v = value_of st k → same_values m (<[k := v]> st).
Proof.
  intros Hs -> j. unfold value_of. destruct (decide (j = k)) as [->|Hne].
  - rewrite lookup_insert_eq. apply Hs.
  - rewrite lookup_insert_ne by done. apply Hs.
Qed.

(** The step of the specification for a call that is answered. *)
Lemma kv_step_write op m st a :
  same_values m st → is_write op = true → a.(Operation.Input).(KvInput.Op) = op.(Op.Typ) →
  key_of a = op.(Op.Key) → a.(Operation.Input).(KvInput.Value) = op.(Op.Value) →
  ∃ st', kv_step st a.(Operation.Input) a.(Operation.Output) = (true, st') ∧ same_values (write op m) st'.
Proof.
  intros Hs Hw Hop Hk Hv. unfold kv_step. unfold key_of in Hk. rewrite Hk.
  unfold KvModel.Step. rewrite Hop, Hv. pose proof Hw as Hw'. unfold is_write in Hw'.
  destruct (Z.eqb_spec (Op.Typ op) 0) as [H0|H0]; [by rewrite H0 in Hw'|].
  destruct (Z.eqb_spec (Op.Typ op) 1) as [H1|H1]; eexists; (split; [done|]).
  - apply same_values_write; [done| |done].
    unfold write, value_of. rewrite (proj2 (Z.eqb_eq _ _) H1). by rewrite lookup_insert_eq.
  - apply same_values_write; [done| |done].
    unfold write, value_of. rewrite (proj2 (Z.eqb_neq _ _) H1), lookup_insert_eq. cbn.
    specialize (Hs (Op.Key op)). unfold value_of in Hs. by rewrite Hs.
Qed.

(** The answer to a get is what the specification reads. *)
Lemma kv_step_read op m c st kv kv' cm a :
  same_values m st → op.(Op.Typ) = 0 → kv.(mp) = Some m → kv.(CliMap) = Some c →
  execute op kv = Ret (kv', cm) → a.(Operation.Input).(KvInput.Op) = op.(Op.Typ) → key_of a = op.(Op.Key) →
  a.(Operation.Output).(KvOutput.Value) = answer_of cm →
  ∃ st', kv_step st a.(Operation.Input) a.(Operation.Output) = (true, st') ∧ same_values m st'.
Proof.
  intros Hs H0 Hm Hc He Hop Hk Hout. unfold kv_step. unfold key_of in Hk. rewrite Hk.
  unfold KvModel.Step. rewrite Hop, H0, Hout. cbn [Z.eqb].
  assert (answer_of cm = value_of st (Op.Key op)) as ->.
  { rewrite <- (Hs (Op.Key op)). unfold execute in He. rewrite H0, Hm, Hc in He. cbn in He.
    injection He as _ <-. unfold value_of, map_find, answer_of. cbn.
    destruct (m !! Op.Key op); [|done]. cbn. by rewrite H0. }
  rewrite bool_decide_eq_true_2 by done. eexists. split; [done|]. by apply same_values_read.
Qed.

(** One message of the applier on a server that waits for no index. *)
Lemma apply_entry op i kv kv1 kv' m c past :
  same_state kv kv1 → kv.(kv_dead) = false → kv.(mp) = Some m → kv.(CliMap) = Some c → tracks c past →
  (op.(Op.Typ) = 0 ∨ (op.(Op.Id), op.(Op.Num)) ∉ past → ∀ num, (op.(Op.Id), num) ∈ past → num ≤ op.(Op.Num)) →
  Applier [] (ApplyMsg.mk true (IOp op) i) kv1 = Ret kv' →
  kv'.(kv_dead) = false ∧ kv'.(mp) = Some (spec_step (mkSpec m past) op).(smap) ∧
  ∃ c', kv'.(CliMap) = Some c' ∧ tracks c' (spec_step (mkSpec m past) op).(seen).
Proof.
  intros (Hm1 & Hc1 & Hd1) Hd Hm Hc Ht Hord Happ. rewrite Hm in Hm1. rewrite Hc in Hc1. rewrite Hd in Hd1.
  unfold Applier in Happ. rewrite Hd1 in Happ.
  cbn [negb ApplyMsg.CommandValid] in Happ. unfold Applier_command in Happ.
  cbn [ApplyMsg.Command command_of ApplyMsg.CommandIndex] in Happ.
  destruct (execute_refines op (kv1 <| kv_lastApplied := i |>) m c past) as (m' & c' & op' & He & -> & Ht');
    [done..|].
  rewrite He in Happ. cbn [rbind] in Happ.
  match type of Happ with match ?x with _ => _ end = _ => destruct x as [chs|] end.
  - destruct (rfold (send op') _ chs) as [kv2| |] eqn:Hsend; cbn [rbind] in Happ; [|done..].
    injection Happ as <-. apply sends_frame in Hsend as [-> _].
    split; [done|]. split; [done|]. by exists c'.
  - injection Happ as <-. split; [done|]. split; [done|]. by exists c'.
Qed.

Lemma calls_accepted log : ∀ kv past now m c st,
  kv.(kv_dead) = false → kv.(mp) = Some m → kv.(CliMap) = Some c → tracks c past →
  in_order past (a_op <$> log) → serves_calls kv past now log → same_values m st →
  accepted kv_step st (calls_of log) ∧ in_real_time (calls_of log) ∧
  ∀ a, a ∈ calls_of log → now < a.(Operation.Return).
Proof.
  induction log as [|x log IH]; intros kv past now m c st Hd Hm Hc Ht Hord Hsv Hst.
  { split; [done|]. split; [constructor|]. intros a Ha. by apply elem_of_nil in Ha. }
  destruct Hord as [Ho Hord], Hsv as (Hnow & Hcall & kv1 & kv' & Hsame & Happ & Hsv).
  destruct (apply_entry _ _ kv kv1 kv' m c past Hsame Hd Hm Hc Ht Ho Happ) as (Hd' & Hm' & c' & Hc' & Ht').
  assert (tracks c' (if (Op.Typ (a_op x) =? 0) || is_write (a_op x)
    then {[(Op.Id (a_op x), Op.Num (a_op x))]} ∪ past else past)) as Ht2.
  { unfold spec_step in Ht'. cbn [seen smap] in Ht'. by destruct (_ || _). }
  assert (smap (spec_step (mkSpec m past) (a_op x)) =
    if is_write (a_op x) && negb (bool_decide ((Op.Id (a_op x), Op.Num (a_op x)) ∈ past))
    then write (a_op x) m else m) as Hsm.
  { unfold spec_step. cbn [smap seen]. destruct (is_write (a_op x)); [by rewrite orb_true_r|].
    cbn [andb]. by destruct (_ || _). }
  rewrite Hsm in Hm'. unfold calls_of in *. cbn [omap list_omap].
  destruct (a_for x) as [a|].
  - destruct Hcall as [[Hop Hk Hv Htm] Hcall].
    assert (∃ st', kv_step st a.(Operation.Input) a.(Operation.Output) = (true, st') ∧
      same_values (if is_write (a_op x) && negb (bool_decide ((Op.Id (a_op x), Op.Num (a_op x)) ∈ past))
        then write (a_op x) m else m) st') as (st' & Hstep & Hst').
    { destruct (Z.eqb_spec (Op.Typ (a_op x)) 0) as [H0|H0].
      - destruct Hcall as (kv2 & cm & He & Hout). unfold is_write. rewrite H0. cbn [Z.eqb orb andb].
        by eapply kv_step_read.
      - rewrite Hcall. apply andb_true_iff in Hcall as [Hw _]. eapply kv_step_write; auto. }
    destruct (IH kv' _ (a_time x) _ c' st' Hd' Hm' Hc' Ht2 Hord Hsv Hst') as (Hacc & Hreal & Hret).
    split; [by exists st'|]. split.
    + constructor; [done|]. apply Forall_forall. intros b Hb. specialize (Hret b Hb). lia.
    + intros b [->|Hb]%elem_of_cons; [lia|]. specialize (Hret b Hb). lia.
  - rewrite Hcall in Hm'.
    destruct (IH kv' _ (a_time x) _ c' st Hd' Hm' Hc' Ht2 Hord Hsv Hst) as (Hacc & Hreal & Hret).
    split; [done|]. split; [done|]. intros b Hb. specialize (Hret b Hb). lia.
Qed.
End service.


(** Two clients: a put, twice in the log, and two gets, one of a key that is missing. *)
Definition ex_put : kv_operation :=
  Operation.mk 7 (KvInput.mk 1 "x" "1") 0 (KvOutput.mk "") 10.
Definition ex_get : kv_operation :=
  Operation.mk 8 (KvInput.mk 0 "x" "") 2 (KvOutput.mk "1") 12.
Definition ex_missing : kv_operation :=
  Operation.mk 8 (KvInput.mk 0 "y" "") 15 (KvOutput.mk "") 30.
Definition ex_calls : list kv_operation := [ex_get; ex_put; ex_missing].

Definition ex_log : list applied :=
  [mkApplied 1 (Op.mk 7 1 1 "x" "1") 5 (Some ex_put); mkApplied 2 (Op.mk 8 1 0 "x" "") 8 (Some ex_get);
   mkApplied 3 (Op.mk 7 1 1 "x" "1") 9 None; mkApplied 4 (Op.mk 8 2 0 "y" "") 20 (Some ex_missing)].

Lemma ex_calls_timed : timed ex_calls.
Proof. solve_timed. Qed.

Definition ex_fresh : KVServer := ex_kv <| mp := Some ∅ |>.

(** When no handler runs in between. *)
Lemma serves_cons `{!RaftCodec} kv past now x log kv' :
  now < x.(a_time) →
  match x.(a_for) with
  | None => is_write x.(a_op) && negb (bool_decide ((x.(a_op).(Op.Id), x.(a_op).(Op.Num)) ∈ past)) = false
  | Some a =>
      matches x.(a_op) x.(a_time) a ∧
      (if x.(a_op).(Op.Typ) =? 0
       then ∃ kv' cm, execute x.(a_op) kv = Ret (kv', cm) ∧ a.(Operation.Output).(KvOutput.Value) = answer_of cm
       else is_write x.(a_op) && negb (bool_decide ((x.(a_op).(Op.Id), x.(a_op).(Op.Num)) ∈ past)) = true)
  end →
  Applier [] (ApplyMsg.mk true (IOp x.(a_op)) x.(a_index)) kv = Ret kv' →
  serves_calls kv' (if (x.(a_op).(Op.Typ) =? 0) || is_write x.(a_op)
                    then {[(x.(a_op).(Op.Id), x.(a_op).(Op.Num))]} ∪ past else past) x.(a_time) log →
  serves_calls kv past now (x :: log).
Proof. intros Hn Hc Ha Hs. split; [done|]. split; [done|]. exists kv, kv'. by split_and!. Qed.

Lemma ex_log_serves : @serves_calls codec ex_fresh ∅ 0 ex_log.
Proof.
  eapply serves_cons; [done|split; [by split; cbn; try lia|vm_compute; reflexivity]|vm_compute; reflexivity|].
  eapply serves_cons; [done|split; [by split; cbn; try lia|]|vm_compute; reflexivity|].
  { eexists _, _. split; vm_compute; reflexivity. }
  eapply serves_cons; [done|vm_compute; reflexivity|vm_compute; reflexivity|].
  eapply serves_cons; [done|split; [by split; cbn; try lia|]|vm_compute; reflexivity|done].
  eexists _, _. split; vm_compute; reflexivity.
Qed.

