(* ===== verification/Labrpc.v ===== *)
(** The simulated network of the tests ([src/src/labrpc/labrpc.go]).

    A value that is sent is a [V] with a type in [T], encoded by labgob: [encode],
    [decode] into a new variable, [decode_into] one that has contents.  The objects
    whose methods are called make up a state [W].  A pointer to a server is a place
    in the list of servers.  An RPC is a goroutine of [processReq], cut where it
    sleeps or waits, and one that runs the handler, which is one step; the steps of
    all of them, of the program that changes the network, and of the objects
    themselves (so also what a handler waits for) come in any order.  [None] is a panic or a [log.Fatal].  The
    random draws are arguments; how long a sleep takes is not modelled. *)
From Stdlib Require Import Ascii.
From S2P Require Import Prelude Gob.
Open Scope Z_scope.

Record replyMsg := mkReply { ok : bool; reply : bytes }.

Section labrpc.
Context {Name : Type} `{!EqDecision Name, !Countable Name}.
Context {V T W : Type} `{!EqDecision T}.
Context (typ : V → T) (encode : V → bytes) (decode : T → bytes → option V) (zero : T → V).

Record reqMsg := mkReq {
  endname : Name;
  svcMeth : string;
  argsType : T;
  args : bytes
}.

(** Lines 88-97: the request of a [Call]. *)
Definition make_req (e : Name) (meth : string) (v : V) : reqMsg := mkReq e meth (typ v) (encode v).

(** Lines 125-136: what [Call] returns for the answer, and the reply variable.  The
    decoder is given the variable with its old contents, which [gob] keeps where the
    reply has zeros; an error of the decoder is a [log.Fatal]. *)
Definition Call_return (decode_into : V → bytes → option V) (rep : replyMsg) (var : V)
    : option (bool * V) :=
  if rep.(ok) then v ← decode_into var rep.(reply); Some (true, v) else Some (false, var).

(** ** Servers *)

(** What reflection says of a method; [In2] is the type an argument that is a pointer
    points to. *)
Record method := mkMethod {
  mname : string;
  PkgPath : string;
  NumIn : Z;
  In1 : T;
  In2 : option T;
  NumOut : Z;
  Func : W → V → V → option (W * V)
}.

Record Service := mkService { sname : string; methods : gmap string method }.

Definition suitable (m : method) : bool :=
  negb (negb (bool_decide (m.(PkgPath) = "")) || negb (m.(NumIn) =? 3) ||
        negb (bool_decide (is_Some m.(In2))) || negb (m.(NumOut) =? 0)).

Definition MakeService (name : string) (ms : list method) : Service :=
  mkService name (foldl (λ t m, if suitable m then <[m.(mname) := m]> t else t) ∅ ms).

Record Server := mkServer { services : gmap string Service; scount : Z }.
#[local] Instance eta_Server : Eta Server := λ s, mkServer s.(services) s.(scount).

Definition MakeServer : Server := mkServer ∅ 0.
Definition AddService (svc : Service) (rs : Server) : Server :=
  rs <| services := <[svc.(sname) := svc]> rs.(services) |>.

(** A call of a handler: the request, the arguments, the reply, the state before and
    after. *)
Record run := mkRun { r_req : nat; r_args : V; r_reply : V; r_before : W; r_after : W }.

(** [Service.dispatch]; the error of the decoder is not looked at. *)
Definition Service_dispatch (svc : Service) (i : nat) (methname : string) (req : reqMsg) (w : W)
    : option (W * replyMsg * run) :=
  m ← svc.(methods) !! methname;
  let a := default (zero req.(argsType)) (decode req.(argsType) req.(args)) in
  replyType ← m.(In2);
  if decide (req.(argsType) = m.(In1)) then
    '(w', rep) ← m.(Func) w a (zero replyType);
    Some (w', mkReply true (encode rep), mkRun i a rep w w')
  else None.

(** [strings.LastIndex(s, ".")], -1 when there is none. *)
Fixpoint LastIndex_dot (s : string) : Z :=
  match s with
  | EmptyString => -1
  | String c s =>
      let r := LastIndex_dot s in
      if 0 <=? r then r + 1 else if bool_decide (c = "."%char) then 0 else -1
  end.

(** [s[:dot]] and [s[dot+1:]] *)
Definition split_at (dot : Z) (s : string) : option (string * string) :=
  if 0 <=? dot then
    Some (String.substring 0 (Z.to_nat dot) s,
          String.substring (Z.to_nat (dot + 1)) (String.length s - Z.to_nat (dot + 1)) s)
  else None.

Definition Server_dispatch (rs : Server) (i : nat) (req : reqMsg) (w : W)
    : option (Server * (W * replyMsg * run)) :=
  let rs := rs <| scount := rs.(scount) + 1 |> in
  '(serviceName, methodName) ← split_at (LastIndex_dot req.(svcMeth)) req.(svcMeth);
  service ← rs.(services) !! serviceName;
  r ← Service_dispatch service i methodName req w;
  Some (rs, r).

(** ** The network *)

Record Network := mkNetwork {
  reliable : bool;
  longDelays : bool;
  longReordering : bool;
  ends : gset Name;
  enabled : gmap Name bool;
  servers : gmap Name (option nat);
  connections : gmap Name (option Name);
  done : bool;
  count : Z;
  nbytes : Z
}.
#[local] Instance eta_Network : Eta Network := λ n,
  mkNetwork n.(reliable) n.(longDelays) n.(longReordering) n.(ends) n.(enabled) n.(servers)
    n.(connections) n.(done) n.(count) n.(nbytes).

Definition MakeNetwork : Network := mkNetwork true false false ∅ ∅ ∅ ∅ false 0 0.
Definition Cleanup (rn : Network) : option Network :=
  if rn.(done) then None else Some (rn <| done := true |>).
Definition Reliable (yes : bool) (rn : Network) : Network := rn <| reliable := yes |>.
Definition LongReordering (yes : bool) (rn : Network) : Network := rn <| longReordering := yes |>.
Definition LongDelays (yes : bool) (rn : Network) : Network := rn <| longDelays := yes |>.

Record endInfo := mkInfo_ {
  i_enabled : bool;
  i_servername : option Name;
  i_server : option nat;
  i_reliable : bool;
  i_longreordering : bool
}.

Definition readEndnameInfo (e : Name) (rn : Network) : endInfo :=
  let servername := default None (rn.(connections) !! e) in
  mkInfo_ (default false (rn.(enabled) !! e)) servername
    (sn ← servername; default None (rn.(servers) !! sn))
    rn.(reliable) rn.(longReordering).

Definition isServerDead (e sn : Name) (server : nat) (rn : Network) : bool :=
  negb (default false (rn.(enabled) !! e)) ||
  negb (bool_decide (default None (rn.(servers) !! sn) = Some server)).

Definition MakeEnd (e : Name) (rn : Network) : option Network :=
  if decide (e ∈ rn.(ends)) then None
  else Some (rn <| ends := {[e]} ∪ rn.(ends) |> <| enabled := <[e := false]> rn.(enabled) |>
                <| connections := <[e := None]> rn.(connections) |>).
Definition AddServer (sn : Name) (rs : nat) (rn : Network) : Network :=
  rn <| servers := <[sn := Some rs]> rn.(servers) |>.
Definition DeleteServer (sn : Name) (rn : Network) : Network :=
  rn <| servers := <[sn := None]> rn.(servers) |>.
Definition Connect (e sn : Name) (rn : Network) : Network :=
  rn <| connections := <[e := Some sn]> rn.(connections) |>.
Definition Enable (e : Name) (b : bool) (rn : Network) : Network :=
  rn <| enabled := <[e := b]> rn.(enabled) |>.

(** [GetCount] of a name without a server follows a nil pointer. *)
Definition GetCount (sn : Name) (rn : Network) (heap : list Server) : option Z :=
  p ← default None (rn.(servers) !! sn); scount <$> heap !! p.
Definition GetTotalCount (rn : Network) : Z := rn.(count).
Definition GetTotalBytes (rn : Network) : Z := rn.(nbytes).

(** ** A request *)

(** Where [processReq] is. *)
Inductive pc :=
  | Arrived
  | Checked (sn : Name) (sv : nat) (rel lr : bool)        (* the short delay *)
  | Waiting (sn : Name) (sv : nat) (rel lr : bool)        (* the loop of the select *)
  | Got (sn : Name) (sv : nat) (rel lr : bool) (r : replyMsg)
  | GaveUp (sn : Name) (sv : nat) (rel lr : bool)         (* the server is dead *)
  | Delayed (ms : Z) (r : replyMsg)                       (* a timer will answer *)
  | Replied (r : replyMsg).

(** Where the goroutine of the handler is. *)
Inductive handler := NotStarted | Started (sv : nat) | Returned (r : replyMsg) | Taken.

Definition no_reply : replyMsg := mkReply false [].

(** Lines 233-235 and 306-320. *)
Definition processReq_enter (req : reqMsg) (draw : Z) (rn : Network) : pc :=
  let i := readEndnameInfo req.(endname) rn in
  match i.(i_enabled), i.(i_servername), i.(i_server) with
  | true, Some sn, Some sv => Checked sn sv i.(i_reliable) i.(i_longreordering)
  | _, _, _ =>
      let ms := if rn.(longDelays) then Z.rem draw 7000 else Z.rem draw 100 in
      Delayed ms no_reply
  end.

(** Lines 242-256: drop the request, or start the handler. *)
Definition processReq_drop (sn : Name) (sv : nat) (rel lr : bool) (draw : Z) : pc * handler :=
  if negb rel && (Z.rem draw 1000 <? 100) then (Replied no_reply, NotStarted)
  else (Waiting sn sv rel lr, Started sv).

(** Lines 268-274: 100 milliseconds have passed. *)
Definition processReq_timer (req : reqMsg) (sn : Name) (sv : nat) (rel lr : bool) (rn : Network) : pc :=
  if isServerDead req.(endname) sn sv rn then GaveUp sn sv rel lr else Waiting sn sv rel lr.

(** Lines 284-305; [got] is the reply, when there is one. *)
Definition processReq_finish (req : reqMsg) (sn : Name) (sv : nat) (rel lr : bool)
    (got : option replyMsg) (draw1 draw2 draw3 draw4 : Z) (rn : Network) : Network * pc :=
  let serverDead := isServerDead req.(endname) sn sv rn in
  match got with
  | None => (rn, Replied no_reply)
  | Some r =>
      if serverDead then (rn, Replied no_reply)
      else if negb rel && (Z.rem draw1 1000 <? 100) then (rn, Replied no_reply)
      else if lr && (Z.rem draw2 900 <? 600) then
        (rn, Delayed (200 + Z.rem draw4 (1 + Z.rem draw3 2000)) r)
      else (rn <| nbytes := AddInt64 rn.(nbytes) (zlen r.(reply)) |>, Replied r)
  end.

(** ** The whole *)

Record thread := mkThread { t_req : reqMsg; t_pc : pc; t_handler : handler }.
#[local] Instance eta_thread : Eta thread := λ t, mkThread t.(t_req) t.(t_pc) t.(t_handler).

(** [ran] is a history of the handlers called; nothing reads it. *)
Record world := mkWorld {
  rn : Network;
  serving : bool;         (* the goroutine of [MakeNetwork] *)
  heap : list Server;
  threads : list thread;
  objects : W;
  ran : list run
}.
#[local] Instance eta_world : Eta world := λ w,
  mkWorld w.(rn) w.(serving) w.(heap) w.(threads) w.(objects) w.(ran).

Inductive netop :=
  | OCleanup | OReliable (b : bool) | OLongReordering (b : bool) | OLongDelays (b : bool)
  | OMakeEnd (e : Name) | OAddServer (sn : Name) (sv : nat) | ODeleteServer (sn : Name)
  | OConnect (e sn : Name) | OEnable (e : Name) (b : bool)
  | OMakeServer | OAddService (sv : nat) (svc : Service).

Definition do_netop (o : netop) (w : world) : option world :=
  match o with
  | OCleanup => n ← Cleanup w.(rn); Some (w <| rn := n |>)
  | OReliable b => Some (w <| rn := Reliable b w.(rn) |>)
  | OLongReordering b => Some (w <| rn := LongReordering b w.(rn) |>)
  | OLongDelays b => Some (w <| rn := LongDelays b w.(rn) |>)
  | OMakeEnd e => n ← MakeEnd e w.(rn); Some (w <| rn := n |>)
  | OAddServer sn sv => Some (w <| rn := AddServer sn sv w.(rn) |>)
  | ODeleteServer sn => Some (w <| rn := DeleteServer sn w.(rn) |>)
  | OConnect e sn => Some (w <| rn := Connect e sn w.(rn) |>)
  | OEnable e b => Some (w <| rn := Enable e b w.(rn) |>)
  | OMakeServer => Some (w <| heap := w.(heap) ++ [MakeServer] |>)
  | OAddService sv svc =>
      rs ← w.(heap) !! sv; Some (w <| heap := <[sv := AddService svc rs]> w.(heap) |>)
  end.

Inductive label :=
  | LCall (req : reqMsg)                       (* lines 168-171 *)
  | LStop                                      (* lines 172-173 *)
  | LEnter (i : nat) (draw : Z)
  | LDrop (i : nat) (draw : Z)
  | LHandler (i : nat)                         (* lines 253-255 *)
  | LTake (i : nat)                            (* lines 266-267 *)
  | LTimer (i : nat)
  | LDrain (i : nat)                           (* line 272 *)
  | LFinish (i : nat) (draw1 draw2 draw3 draw4 : Z)
  | LDeliver (i : nat)                         (* lines 298-301 and 318-320 *)
  | LNet (o : netop)
  | LObjects (w : W).                          (* the objects change by themselves *)

Definition set_thread (i : nat) (t : thread) (w : world) : world :=
  w <| threads := <[i := t]> w.(threads) |>.

(** One step of the goroutines of a request; [None]: it cannot make this one. *)
Definition thread_step (l : label) (i : nat) (t : thread) (w : world) : option world :=
  match l, t.(t_pc), t.(t_handler) with
  | LEnter _ d, Arrived, _ => Some (set_thread i (t <| t_pc := processReq_enter t.(t_req) d w.(rn) |>) w)
  | LDrop _ d, Checked sn sv rel lr, _ =>
      let '(p, h) := processReq_drop sn sv rel lr d in
      Some (set_thread i (t <| t_pc := p |> <| t_handler := h |>) w)
  | LHandler _, _, Started sv =>
      rs ← w.(heap) !! sv;
      '(rs, (o, r, e)) ← Server_dispatch rs i t.(t_req) w.(objects);
      Some (set_thread i (t <| t_handler := Returned r |>)
              (w <| heap := <[sv := rs]> w.(heap) |> <| objects := o |> <| ran := w.(ran) ++ [e] |>))
  | LTake _, Waiting sn sv rel lr, Returned r =>
      Some (set_thread i (t <| t_pc := Got sn sv rel lr r |> <| t_handler := Taken |>) w)
  | LTimer _, Waiting sn sv rel lr, _ =>
      Some (set_thread i (t <| t_pc := processReq_timer t.(t_req) sn sv rel lr w.(rn) |>) w)
  | LDrain _, (GaveUp _ _ _ _ | Replied _), Returned _ =>
      Some (set_thread i (t <| t_handler := Taken |>) w)
  | LFinish _ d1 d2 d3 d4, Got sn sv rel lr r, _ =>
      let '(n, p) := processReq_finish t.(t_req) sn sv rel lr (Some r) d1 d2 d3 d4 w.(rn) in
      Some (set_thread i (t <| t_pc := p |>) (w <| rn := n |>))
  | LFinish _ d1 d2 d3 d4, GaveUp sn sv rel lr, _ =>
      let '(n, p) := processReq_finish t.(t_req) sn sv rel lr None d1 d2 d3 d4 w.(rn) in
      Some (set_thread i (t <| t_pc := p |>) (w <| rn := n |>))
  | LDeliver _, Delayed _ r, _ =>
      Some (set_thread i (t <| t_pc := Replied r |>)
              (w <| rn := w.(rn) <| nbytes := AddInt64 w.(rn).(nbytes) (zlen r.(reply)) |> |>))
  | _, _, _ => None
  end.

Definition label_thread (l : label) : option nat :=
  match l with
  | LEnter i _ | LDrop i _ | LHandler i | LTake i | LTimer i | LDrain i | LFinish i _ _ _ _
  | LDeliver i => Some i
  | LCall _ | LStop | LNet _ | LObjects _ => None
  end.

Definition exec (l : label) (w : world) : option world :=
  match l with
  | LCall req =>
      if w.(serving) then
        Some (w <| rn := w.(rn) <| count := AddInt32 w.(rn).(count) 1 |>
                                <| nbytes := AddInt64 w.(rn).(nbytes) (zlen req.(args)) |> |>
                <| threads := w.(threads) ++ [mkThread req Arrived NotStarted] |>)
      else None
  | LStop => if w.(rn).(done) then Some (w <| serving := false |>) else None
  | LNet o => do_netop o w
  | LObjects o => Some (w <| objects := o |>)
  | _ => i ← label_thread l; t ← w.(threads) !! i; thread_step l i t w
  end.

Fixpoint execs (ls : list label) (w : world) : option world :=
  match ls with [] => Some w | l :: ls => w ← exec l w; execs ls w end.

Definition world_start (o : W) : world := mkWorld MakeNetwork true [] [] o [].
End labrpc.
