(* ===== verification/LabrpcProps.v ===== *)
(** What the simulated network promises ([src/src/labrpc/labrpc.go]): a call is run at
    most once and a positive answer is that of its run; no positive answer comes from
    a server that was deleted; every call returns once its handler does. *)
From Stdlib Require Import Ascii.
From S2P Require Import Prelude Gob Labrpc.
Open Scope Z_scope.
#[local] Existing Instances eta_Server eta_Network eta_thread eta_world.

Section props.
Context {Name : Type} `{!EqDecision Name, !Countable Name}.
Context {V T W : Type} `{!EqDecision T}.
Context (typ : V → T) (encode : V → bytes) (decode : T → bytes → option V) (zero : T → V).
Local Abbreviation reqMsg := (@reqMsg Name T).
Local Abbreviation world := (@world Name _ _ V T W).
Local Abbreviation thread := (@thread Name T).
Local Abbreviation label := (@label Name V T W).
Local Abbreviation run := (@run V W).
Local Abbreviation exec := (exec encode decode zero).
Local Abbreviation execs := (execs encode decode zero).
Local Abbreviation Server_dispatch := (Server_dispatch encode decode zero).
Implicit Types (w : world) (t : thread) (l : label) (e : run).

(** ** What a handler does *)

(** [e] is a run of the method [meth] on the arguments of the request. *)
Definition served (req : reqMsg) e : Prop :=
  ∃ sn mn (svc : @Service V T W) m rt,
    split_at (LastIndex_dot req.(svcMeth)) req.(svcMeth) = Some (sn, mn) ∧
    svc.(methods) !! mn = Some m ∧ m.(In1) = req.(argsType) ∧ m.(In2) = Some rt ∧
    e.(r_args) = default (zero req.(argsType)) (decode req.(argsType) req.(args)) ∧
    m.(Func) e.(r_before) e.(r_args) (zero rt) = Some (e.(r_after), e.(r_reply)).

Lemma Server_dispatch_served rs i req o rs' o' r e :
  Server_dispatch rs i req o = Some (rs', (o', r, e)) →
  e.(r_req) = i ∧ served req e ∧ r = mkReply true (encode e.(r_reply)).
Proof.
  unfold Labrpc.Server_dispatch, Service_dispatch. intros Hd.
  destruct (split_at _ _) as [[sn mn]|] eqn:Hsp; cbn [mbind option_bind] in Hd; [|done].
  cbn [services] in Hd. destruct (services _ !! sn) as [svc|]; cbn [mbind option_bind] in Hd; [|done].
  destruct (methods svc !! mn) as [m|] eqn:Hm; cbn [mbind option_bind] in Hd; [|done].
  destruct (In2 m) as [rt|] eqn:H2; cbn [mbind option_bind] in Hd; [|done].
  case_decide as Ht; [|done].
  destruct (Func m o _ _) as [[w' rep]|] eqn:Hf; cbn [mbind option_bind] in Hd; [|done].
  injection Hd as _ _ <- <-. split; [done|]. split; [|done]. by exists sn, mn, svc, m, rt.
Qed.

(** ** At most once *)

Definition runs_of (i : nat) (rs : list run) : list run := filter (λ e, e.(r_req) = i) rs.

Definition reply_of (p : @pc Name) : option replyMsg :=
  match p with Got _ _ _ _ r | Delayed _ r | Replied r => Some r | _ => None end.

Definition answers t (r : replyMsg) e : Prop :=
  served t.(t_req) e ∧ r = mkReply true (encode e.(r_reply)).

Record thread_ok (rs : list run) (i : nat) t : Prop := {
  k_early : match t.(t_pc) with
    | Arrived | Checked _ _ _ _ => t.(t_handler) = NotStarted
    | Waiting _ sv _ _ => t.(t_handler) = Started sv ∨ ∃ r, t.(t_handler) = Returned r
    | _ => True
    end;
  k_handler : match t.(t_handler) with
    | NotStarted | Started _ => runs_of i rs = []
    | Returned r => ∃ e, runs_of i rs = [e] ∧ answers t r e
    | Taken => ∃ e, runs_of i rs = [e]
    end;
  k_reply : ∀ r, reply_of t.(t_pc) = Some r → r = no_reply ∨ ∃ e, runs_of i rs = [e] ∧ answers t r e
}.

Record world_ok w : Prop := {
  k_threads : ∀ i t, w.(threads) !! i = Some t → thread_ok w.(ran) i t;
  k_ran : ∀ e, e ∈ w.(ran) → (e.(r_req) < List.length w.(threads))%nat
}.

Lemma runs_of_snoc i rs e :
  runs_of i (rs ++ [e]) = runs_of i rs ++ (if decide (e.(r_req) = i) then [e] else []).
Proof.
  unfold runs_of. by rewrite filter_app.
Qed.

(** A step of a thread that runs no handler. *)
Lemma quiet_step w w' i t t' :
  world_ok w → w.(threads) !! i = Some t → w'.(threads) = <[i := t']> w.(threads) →
  w'.(ran) = w.(ran) → (thread_ok w.(ran) i t → thread_ok w.(ran) i t') → world_ok w'.
Proof.
  intros [Hth Hran] Hi Hthr Hr Hok. split; rewrite Hthr, Hr.
  - intros j u [(<- & <- & _)|[_ Hj]]%list_lookup_insert_Some; [by apply Hok, Hth|by apply Hth].
  - intros e He. rewrite length_insert. by apply Hran.
Qed.

(** The step that runs the handler. *)
Lemma handler_step w w' i t t' sv e r :
  world_ok w → w.(threads) !! i = Some t → w'.(threads) = <[i := t']> w.(threads) →
  w'.(ran) = w.(ran) ++ [e] → t.(t_handler) = Started sv → e.(r_req) = i → answers t r e →
  t' = t <| t_handler := Returned r |> → world_ok w'.
Proof.
  intros [Hth Hran] Hi Hthr Hr Hh Hid Hans ->. split; rewrite Hthr, Hr.
  - destruct (Hth i t Hi) as [He Hha Hre]. rewrite Hh in Hha.
    intros j u [(<- & <- & _)|[Hne Hj]]%list_lookup_insert_Some.
    + assert (runs_of i (w.(ran) ++ [e]) = [e]) as Hruns by by rewrite runs_of_snoc, Hha, decide_True.
      split; cbn.
      * destruct (t_pc t); try done; try congruence. right. by exists r.
      * exists e. by split.
      * intros r' Hr'. destruct (Hre r' Hr') as [->|(e' & He' & _)]; [by left|congruence].
    + destruct (Hth j u Hj) as [H1 H2 H3].
      assert (runs_of j (w.(ran) ++ [e]) = runs_of j w.(ran)) as Hruns.
      { rewrite runs_of_snoc, decide_False by congruence. by rewrite app_nil_r. }
      by split; rewrite ?Hruns.
  - intros e' [He'|He'%list_elem_of_singleton]%elem_of_app; rewrite length_insert; [by apply Hran|].
    subst. by eapply lookup_lt_Some.
Qed.

Lemma processReq_enter_pc (rq : reqMsg) d (n : @Network Name _ _) :
  (∃ sn sv rel lr, processReq_enter rq d n = Checked sn sv rel lr ∧ n.(servers) !! sn = Some (Some sv)) ∨
  ∃ ms, processReq_enter rq d n = Delayed ms no_reply.
Proof.
  unfold processReq_enter, readEndnameInfo. cbn.
  destruct (default false _); [|right; by eexists].
  destruct (default None (connections n !! endname rq)) as [sn|]; cbn; [|right; by eexists].
  destruct (servers n !! sn) as [[sv|]|] eqn:Hs; cbn; [left|right; by eexists..].
  by exists sn, sv, (reliable n), (longReordering n).
Qed.

Lemma processReq_finish_pc rq sn sv rel lr got d1 d2 d3 d4 n n' (p : @pc Name) :
  processReq_finish (T := T) rq sn sv rel lr got d1 d2 d3 d4 n = (n', p) →
  p = Replied no_reply ∨
  ∃ r, got = Some r ∧ ((∃ ms, p = Delayed ms r) ∨ p = Replied r).
Proof.
  unfold processReq_finish. intros Hf. repeat case_match; injection Hf as _ <-; eauto 10.
Qed.

Lemma thread_step_ok l i t w w' :
  world_ok w → w.(threads) !! i = Some t → thread_step encode decode zero l i t w = Some w' → world_ok w'.
Proof.
  intros Hw Hi Hs. destruct t as [rq p h]; destruct l; cbn [thread_step t_pc t_handler t_req] in Hs; try done.
  - destruct p; try done. injection Hs as <-. eapply quiet_step; try done. intros [He Hh _]. cbn in *.
    split; cbn; [|done|].
    + unfold processReq_enter. repeat case_match; try done.
    + intros r. unfold processReq_enter. repeat case_match; cbn; try done; intros [= <-]; by left.
  - destruct p; try done. destruct (processReq_drop sn sv rel lr draw) as [p' h'] eqn:Hd.
    injection Hs as <-. eapply quiet_step; try done. intros [He Hh _]. cbn in *. subst h.
    unfold processReq_drop in Hd. destruct (_ && _); injection Hd as <- <-; split; cbn; try done; [|by left].
    intros r [= <-]. by left.
  - assert (∃ sv, h = Started sv) as [sv ->] by (destruct p, h; try done; by eexists).
    rename Hs into Hs'. destruct (w.(heap) !! sv) as [rs|]; cbn [mbind option_bind] in Hs'; [|done].
    destruct (Server_dispatch rs i rq w.(objects)) as [[rs' [[o r] e]]|] eqn:Hd;
      cbn [mbind option_bind] in Hs'; [|done].
    injection Hs' as <-. destruct (Server_dispatch_served _ _ _ _ _ _ _ _ Hd) as (Hid & Hsv & Hr).
    by eapply (handler_step w _ i (mkThread rq p (Started sv)) _ sv e r).
  - destruct p, h; try done. injection Hs as <-. eapply quiet_step; try done. intros [_ (e & He & Ha) _].
    split; cbn; [done|by exists e|]. intros r' [= <-]. right. by exists e.
  - assert (∃ sn sv rel lr, p = Waiting sn sv rel lr) as (sn & sv & rel & lr & ->) by (destruct p; eauto; done).
    injection Hs as <-. eapply quiet_step; try done. intros [He Hh _].
    unfold processReq_timer. split; cbn in *; [by destruct (isServerDead _ _ _ _)|done|].
    intros r. by destruct (isServerDead _ _ _ _).
  - assert (∃ r, h = Returned r) as [r ->] by (destruct p, h; try done; by eexists).
    assert (w' = set_thread i (mkThread rq p Taken) w) as -> by (destruct p; try done; by injection Hs).
    eapply quiet_step; try done. intros [He (e & Hr & Ha) Hre]. split; cbn in *.
    + by destruct p.
    + by exists e.
    + done.
  - destruct p as [| | |sn sv rel lr r|sn sv rel lr| |]; try done.
    + destruct (processReq_finish rq sn sv rel lr (Some r) draw1 draw2 draw3 draw4 (rn w)) as [n p] eqn:Hf.
      injection Hs as <-. apply processReq_finish_pc in Hf.
      eapply quiet_step; try done. intros [He Hh Hre]. cbn in *.
      destruct Hf as [->|(r' & [= <-] & Hp)].
      * split; cbn; [done|done|]. intros r' [= <-]. by left.
      * assert (reply_of p = Some r) as Hr by by destruct Hp as [[ms ->]| ->].
        split; cbn; [by destruct Hp as [[ms ->]| ->]|done|]. rewrite Hr. intros r' [= <-]. by apply Hre.
    + injection Hs as <-. eapply quiet_step; try done. intros [He Hh Hre]. cbn in *.
      split; cbn; [done|done|]. intros r' [= <-]. by left.
  - assert (∃ ms r, p = Delayed ms r) as (ms & r & ->) by (destruct p; eauto; done).
    injection Hs as <-. eapply quiet_step; try done. intros [He Hh Hre]. cbn in *.
    split; cbn; [done|done|]. intros r' [= <-]. by apply Hre.
Qed.

Lemma exec_ok l w w' : world_ok w → exec l w = Some w' → world_ok w'.
Proof.
  intros Hw Hs. unfold Labrpc.exec in Hs. destruct (label_thread l) as [i|] eqn:Hl.
  - assert ((t ← w.(threads) !! i; thread_step encode decode zero l i t w) = Some w') as Ht.
    { destruct l; try done; injection Hl as <-; exact Hs. }
    destruct (w.(threads) !! i) as [t|] eqn:Hi; cbn in Ht; [|done]. by eapply thread_step_ok.
  - destruct Hw as [Hth Hran]. destruct l; try done; cbn in Hs.
    + destruct (serving w); [|done]. injection Hs as <-. split; cbn.
      * intros i t [Hi|[Hi Ht]]%lookup_app_Some; [by apply Hth|].
        destruct (i - _)%nat as [|k] eqn:Hk; cbn in Ht; [|done]. injection Ht as <-.
        split; cbn; [done| |done]. unfold runs_of.
        destruct (filter _ (ran w)) as [|e es] eqn:Hf; [done|exfalso].
        assert (e ∈ filter (λ e, r_req e = i) (ran w)) as He by (rewrite Hf; by left).
        apply list_elem_of_filter in He as [Heq He]. apply Hran in He. lia.
      * intros e He. rewrite length_app. apply Hran in He. lia.
    + destruct (done (rn w)); [|done]. by injection Hs as <-.
    + destruct o; cbn in Hs; try (by injection Hs as <-).
      * destruct (Cleanup (rn w)); [|done]. by injection Hs as <-.
      * destruct (MakeEnd e (rn w)); [|done]. by injection Hs as <-.
      * destruct (heap w !! sv); [|done]. by injection Hs as <-.
    + by injection Hs as <-.
Qed.

Lemma execs_ok ls w w' : world_ok w → execs ls w = Some w' → world_ok w'.
Proof.
  revert w. induction ls as [|l ls IH]; intros w Hw Hs; cbn in Hs; [by injection Hs as <-|].
  destruct (exec l w) as [w1|] eqn:Hl; cbn in Hs; [|done]. eapply IH; [|exact Hs]. by eapply exec_ok.
Qed.

Lemma start_ok o : world_ok (world_start o).
Proof. split; [intros i t Hi; done|intros e He; by apply elem_of_nil in He]. Qed.

(** ** The servers that are gone *)

Definition waits_on (sn : Name) (sv : nat) t : Prop :=
  match t.(t_pc) with
  | Checked sn' sv' _ _ | Waiting sn' sv' _ _ | Got sn' sv' _ _ _ | GaveUp sn' sv' _ _ => sn' = sn ∧ sv' = sv
  | _ => False
  end.

Definition gone (sn : Name) (sv : nat) w : Prop := default None (w.(rn).(servers) !! sn) ≠ Some sv.

Definition unanswered (sn : Name) (sv : nat) (i : nat) w : Prop :=
  ∃ t, w.(threads) !! i = Some t ∧ (waits_on sn sv t ∨ t.(t_pc) = Replied no_reply).

Lemma thread_step_servers l i t w w' :
  thread_step encode decode zero l i t w = Some w' → w'.(rn).(servers) = w.(rn).(servers).
Proof.
  destruct t as [rq p h]. intros Hs.
  destruct l; cbn [thread_step t_pc t_handler t_req] in Hs; try done.
  - destruct p; try done. by injection Hs as <-.
  - destruct p; try done. destruct (processReq_drop _ _ _ _ _). by injection Hs as <-.
  - assert (∃ sv, h = Started sv) as [sv ->] by (destruct p, h; try done; by eexists).
    rename Hs into Hs'. destruct (w.(heap) !! sv) as [rs|]; cbn [mbind option_bind] in Hs'; [|done].
    destruct (Server_dispatch rs i rq w.(objects)) as [[rs' [[o r] e]]|]; cbn [mbind option_bind] in Hs'; [|done].
    by injection Hs' as <-.
  - destruct p, h; try done. by injection Hs as <-.
  - destruct p; try done. by injection Hs as <-.
  - destruct p, h; try done; by injection Hs as <-.
  - assert (∀ sn sv rel lr got n p, processReq_finish rq sn sv rel lr got draw1 draw2 draw3 draw4 w.(rn) = (n, p) →
      n.(servers) = w.(rn).(servers)) as Hfin.
    { unfold processReq_finish. intros * Hf. by repeat case_match; injection Hf as <- _. }
    destruct p; try done.
    + destruct (processReq_finish rq sn sv rel lr (Some r) draw1 draw2 draw3 draw4 (rn w)) as [n p] eqn:Hf.
      injection Hs as <-. by eapply Hfin.
    + by injection Hs as <-.
  - destruct p; try done. by injection Hs as <-.
Qed.

(** No step but [AddServer] changes the server of a name to [sv]. *)
Lemma exec_gone l w w' sn sv :
  exec l w = Some w' → l ≠ LNet (OAddServer sn sv) → gone sn sv w → gone sn sv w'.
Proof.
  unfold gone. intros Hs Hl Hg. destruct (label_thread l) as [i|] eqn:Hlt.
  - assert ((t ← w.(threads) !! i; thread_step encode decode zero l i t w) = Some w') as Ht.
    { destruct l; try done; injection Hlt as <-; exact Hs. }
    destruct (w.(threads) !! i) as [t|]; cbn [mbind option_bind] in Ht; [|done].
    by rewrite (thread_step_servers _ _ _ _ _ Ht).
  - destruct l; try done; cbn in Hs.
    + destruct (serving w); [|done]. by injection Hs as <-.
    + destruct (done (rn w)); [|done]. by injection Hs as <-.
    + destruct o; cbn in Hs; try (by injection Hs as <-).
      * unfold Cleanup in Hs. destruct (done (rn w)); [done|]. by injection Hs as <-.
      * unfold MakeEnd in Hs. destruct (decide _); [done|]. by injection Hs as <-.
      * injection Hs as <-. cbn. destruct (decide (sn0 = sn)) as [->|Hne].
        -- rewrite lookup_insert_eq. cbn. intros [= ->]. by destruct Hl.
        -- by rewrite lookup_insert_ne.
      * injection Hs as <-. cbn. destruct (decide (sn0 = sn)) as [->|Hne].
        -- by rewrite lookup_insert_eq.
        -- by rewrite lookup_insert_ne.
      * destruct (heap w !! sv0); [|done]. by injection Hs as <-.
    + by injection Hs as <-.
Qed.

Lemma finish_gone sn sv rq rel lr got d1 d2 d3 d4 w n (p : @pc Name) :
  gone sn sv w → processReq_finish (T := T) rq sn sv rel lr got d1 d2 d3 d4 w.(rn) = (n, p) → p = Replied no_reply.
Proof.
  intros Hg Hf. unfold processReq_finish in Hf.
  assert (isServerDead (endname rq) sn sv (rn w) = true) as Hd.
  { unfold isServerDead. apply orb_true_iff. right. apply negb_true_iff. by apply bool_decide_eq_false. }
  rewrite Hd in Hf. by destruct got; injection Hf as _ <-.
Qed.

Lemma thread_step_gone sn sv l i t w w' :
  thread_step encode decode zero l i t w = Some w' → gone sn sv w →
  ∃ t', w'.(threads) = <[i := t']> w.(threads) ∧
    (waits_on sn sv t ∨ t.(t_pc) = Replied no_reply → waits_on sn sv t' ∨ t'.(t_pc) = Replied no_reply).
Proof.
  destruct t as [rq p h]. intros Hs Hg.
  destruct l; cbn [thread_step t_pc t_handler t_req] in Hs; try done.
  - destruct p; try done. injection Hs as <-. eexists. split; [done|]. by intros [?|?].
  - destruct p; try done. destruct (processReq_drop sn0 sv0 rel lr draw) as [p' h'] eqn:Hd.
    injection Hs as <-. eexists. split; [done|]. unfold processReq_drop in Hd. intros [Hw|?]; [|done].
    destruct (_ && _); injection Hd as <- <-; [by right|left; exact Hw].
  - assert (∃ sv, h = Started sv) as [sv0 ->] by (destruct p, h; try done; by eexists).
    rename Hs into Hs'. destruct (w.(heap) !! sv0) as [rs|]; cbn [mbind option_bind] in Hs'; [|done].
    destruct (Server_dispatch rs i rq w.(objects)) as [[rs' [[o r] e]]|]; cbn [mbind option_bind] in Hs'; [|done].
    injection Hs' as <-. eexists. split; [done|]. intros Ht. exact Ht.
  - destruct p, h; try done. injection Hs as <-. eexists. split; [done|].
    intros [Hw|?]; [left; exact Hw|done].
  - destruct p; try done. injection Hs as <-. eexists. split; [done|]. intros [Hw|?]; [left|done].
    unfold waits_on, processReq_timer in *. cbn in *. by destruct (isServerDead _ _ _ _).
  - destruct p, h; try done; injection Hs as <-; (eexists; split; [done|]; intros Ht; exact Ht).
  - destruct p as [| | |sn1 sv1 rel lr r|sn1 sv1 rel lr| |]; try done.
    + destruct (processReq_finish rq sn1 sv1 rel lr (Some r) draw1 draw2 draw3 draw4 (rn w)) as [n p] eqn:Hf.
      injection Hs as <-. eexists. split; [done|]. intros [[-> ->]|?]; [right|done].
      by eapply finish_gone.
    + injection Hs as <-. eexists. split; [done|]. by right.
  - destruct p; try done. injection Hs as <-. eexists. split; [done|]. by intros [?|?].
Qed.

Lemma exec_unanswered l w w' sn sv i :
  exec l w = Some w' → gone sn sv w → unanswered sn sv i w → unanswered sn sv i w'.
Proof.
  intros Hs Hg (t & Hi & Ht). destruct (label_thread l) as [j|] eqn:Hlt.
  - assert ((t ← w.(threads) !! j; thread_step encode decode zero l j t w) = Some w') as Hj.
    { destruct l; try done; injection Hlt as <-; exact Hs. }
    destruct (w.(threads) !! j) as [u|] eqn:Hu; cbn [mbind option_bind] in Hj; [|done].
    destruct (thread_step_gone sn sv l j u w w' Hj Hg) as (u' & Hthr & Hu').
    destruct (decide (j = i)) as [->|Hne].
    + exists u'. rewrite Hthr, list_lookup_insert_eq by by eapply lookup_lt_Some.
      rewrite Hi in Hu. injection Hu as <-. auto.
    + exists t. by rewrite Hthr, list_lookup_insert_ne.
  - exists t. split; [|done]. destruct l; try done; cbn in Hs.
    + destruct (serving w); [|done]. injection Hs as <-. by apply lookup_app_l_Some.
    + destruct (done (rn w)); [|done]. by injection Hs as <-.
    + destruct o; cbn in Hs; try (by injection Hs as <-).
      * destruct (Cleanup (rn w)); [|done]. by injection Hs as <-.
      * destruct (MakeEnd e (rn w)); [|done]. by injection Hs as <-.
      * destruct (heap w !! sv0); [|done]. by injection Hs as <-.
    + by injection Hs as <-.
Qed.

Lemma execs_unanswered ls w w' sn sv i :
  execs ls w = Some w' → LNet (OAddServer sn sv) ∉ ls → gone sn sv w → unanswered sn sv i w →
  unanswered sn sv i w'.
Proof.
  revert w. induction ls as [|l ls IH]; intros w Hs Hl Hg Hu; cbn in Hs; [by injection Hs as <-|].
  destruct (exec l w) as [w1|] eqn:Hw1; cbn in Hs; [|done].
  rewrite elem_of_cons in Hl. eapply IH; [exact Hs|by auto| |by eapply exec_unanswered].
  eapply exec_gone; [exact Hw1|by intros ->; auto|done].
Qed.

(** ** A call returns *)

(** Every server the request can be sent to runs its method. *)
Definition serves (i : nat) (req : reqMsg) (sv : nat) w : Prop :=
  ∃ rs x, w.(heap) !! sv = Some rs ∧ Server_dispatch rs i req w.(objects) = Some x.

(** What [n] more steps of request [i] lead to. *)
Definition leads_to (i : nat) (ls : list label) w (r : replyMsg) (o : W) : Prop :=
  ∃ w' t, execs ls w = Some w' ∧ w'.(threads) !! i = Some t ∧ t.(t_pc) = Replied r ∧ w'.(objects) = o.

Lemma lookup_set_thread i t u w : w.(threads) !! i = Some u → (set_thread i t w).(threads) !! i = Some t.
Proof. intros Hi. cbn. apply list_lookup_insert_eq. by eapply lookup_lt_Some. Qed.

Lemma exec_thread l i t w :
  label_thread l = Some i → w.(threads) !! i = Some t →
  exec l w = thread_step encode decode zero l i t w.
Proof. intros Hl Hi. destruct l; try done; injection Hl as ->; cbn; by rewrite Hi. Qed.

Lemma leads_step l ls i w w1 r o : exec l w = Some w1 → leads_to i ls w1 r o → leads_to i (l :: ls) w r o.
Proof. intros Hl (w' & t & Hs & ?). exists w', t. cbn [Labrpc.execs]. by rewrite Hl. Qed.

Lemma leads_delayed i w t ms r :
  w.(threads) !! i = Some t → t.(t_pc) = Delayed ms r → leads_to i [LDeliver i] w r w.(objects).
Proof.
  intros Hi Hp. destruct t as [rq p h]; cbn in Hp; subst p.
  eapply leads_step; [by rewrite (exec_thread (LDeliver i) i _ w eq_refl Hi)|].
  eexists _, _. split; [done|]. split; [by eapply lookup_set_thread|]. done.
Qed.

Section draws.
Context (i : nat) (d0 d1 d2 d3 d4 d5 : Z).

(** The steps of a request, in their order. *)
Definition steps : list label :=
  [LEnter i d0; LDrop i d1; LHandler i; LTake i; LFinish i d2 d3 d4 d5; LDeliver i].

Definition returns (k : nat) w : Prop := ∃ ls r o, ls `sublist_of` drop k steps ∧ leads_to i ls w r o.

Lemma returns_mono j k w : (j ≤ k)%nat → returns k w → returns j w.
Proof.
  intros Hjk (ls & r & o & Hsub & Hlead). exists ls, r, o. split; [|done].
  etransitivity; [exact Hsub|]. replace k with ((k - j) + j)%nat by lia.
  rewrite Nat.add_comm, <- drop_drop. apply sublist_drop.
Qed.

Lemma returns_cons j l t w w1 :
  steps !! j = Some l → label_thread l = Some i → w.(threads) !! i = Some t →
  thread_step encode decode zero l i t w = Some w1 → returns (S j) w1 → returns j w.
Proof.
  intros Hj Hl Hi Hs (ls & r & o & Hsub & Hlead). exists (l :: ls), r, o. split.
  - rewrite (drop_S _ l) by done. by apply sublist_skip.
  - eapply leads_step; [|exact Hlead]. by rewrite (exec_thread l i t w).
Qed.

Lemma returns_replied k t r w : w.(threads) !! i = Some t → t.(t_pc) = Replied r → returns k w.
Proof.
  intros Hi Hp. exists [], r, w.(objects). split; [apply sublist_nil_l|]. by exists w, t.
Qed.

Lemma returns_delayed k t ms r w :
  (k ≤ 5)%nat → w.(threads) !! i = Some t → t.(t_pc) = Delayed ms r → returns k w.
Proof.
  intros Hk Hi Hp. apply (returns_mono k 5); [done|]. exists [LDeliver i], r, w.(objects).
  split; [done|]. by eapply leads_delayed.
Qed.

Lemma returns_finish t sn sv rel lr got w :
  w.(threads) !! i = Some t → (t.(t_pc) = GaveUp sn sv rel lr ∧ got = None ∨
    ∃ r, t.(t_pc) = Got sn sv rel lr r ∧ got = Some r) → returns 4 w.
Proof.
  intros Hi Hp. destruct t as [rq p h].
  destruct (processReq_finish rq sn sv rel lr got d2 d3 d4 d5 w.(rn)) as [n p'] eqn:Hf.
  assert (thread_step encode decode zero (LFinish i d2 d3 d4 d5) i (mkThread rq p h) w =
    Some (set_thread i (mkThread rq p' h) (w <| rn := n |>))) as Hs.
  { cbn in Hp. destruct Hp as [[-> ->]|(r & -> & ->)]; cbn [thread_step t_pc t_handler t_req]; by rewrite Hf. }
  eapply (returns_cons 4 _ _ w); [done|done|exact Hi|exact Hs|].
  assert ((set_thread i (mkThread rq p' h) (w <| rn := n |>)).(threads) !! i = Some (mkThread rq p' h)) as Hi'
    by by eapply lookup_set_thread.
  apply processReq_finish_pc in Hf as [->|(r & _ & [[ms ->]| ->])].
  - by eapply returns_replied.
  - by eapply returns_delayed.
  - by eapply returns_replied.
Qed.

Lemma returns_waiting t sn sv rel lr w :
  thread_ok w.(ran) i t → w.(threads) !! i = Some t → t.(t_pc) = Waiting sn sv rel lr →
  serves i t.(t_req) sv w → returns 2 w.
Proof.
  intros Hok Hi Hp (rs & [rs' [[o r] e]] & Hrs & Hd). destruct t as [rq p h]. cbn in Hp. subst p.
  assert (∀ r w, w.(threads) !! i = Some (mkThread rq (Waiting sn sv rel lr) (Returned r)) → returns 3 w) as Hret.
  { intros r1 w1 Hi1. eapply (returns_cons 3); [done|done|exact Hi1|done|].
    eapply returns_finish; [by eapply lookup_set_thread|]. right. by exists r1. }
  destruct (k_early _ _ _ Hok) as [Hh|[r1 Hh]]; cbn in Hh; subst h.
  - eapply (returns_cons 2); [done|done|exact Hi| |].
    + cbn [thread_step t_pc t_handler t_req]. rewrite Hrs. cbn [mbind option_bind]. cbn in Hd. by rewrite Hd.
    + apply (Hret r). by eapply lookup_set_thread.
  - apply (returns_mono 2 3); [lia|]. by eapply Hret.
Qed.

(** The request is with a server, or will be, that runs its method. *)
Definition reaches_handler (req : reqMsg) t w : Prop :=
  (∀ sn sv, w.(rn).(servers) !! sn = Some (Some sv) → serves i req sv w) ∧
  (∀ sn sv, waits_on sn sv t → serves i req sv w).

Lemma returns_checked t sn sv rel lr w :
  w.(threads) !! i = Some t → t.(t_pc) = Checked sn sv rel lr → thread_ok w.(ran) i t →
  serves i t.(t_req) sv w → returns 1 w.
Proof.
  intros Hi Hp Hok Hsv. destruct t as [rq p h]. cbn in Hp. subst p.
  pose proof (k_early _ _ _ Hok) as Hh. pose proof (k_handler _ _ _ Hok) as Hn. cbn in Hh. subst h. cbn in Hn.
  destruct (processReq_drop sn sv rel lr d1) as [p' h'] eqn:Hd.
  eapply (returns_cons 1); [done|done|exact Hi| |].
  { cbn [thread_step t_pc t_handler t_req]. by rewrite Hd. }
  unfold processReq_drop in Hd. destruct (_ && _); injection Hd as <- <-.
  - eapply returns_replied; [by eapply lookup_set_thread|done].
  - eapply returns_waiting; [|by eapply lookup_set_thread|done|exact Hsv].
    split; cbn; [by left|exact Hn|done].
Qed.

Lemma request_returns t w :
  world_ok w → w.(threads) !! i = Some t → reaches_handler t.(t_req) t w → returns 0 w.
Proof.
  intros Hw Hi [Hsv Hwait]. pose proof (k_threads _ Hw i t Hi) as Hok.
  destruct t as [rq p h]. cbn in Hsv, Hwait. destruct p as [|sn sv rel lr|sn sv rel lr|sn sv rel lr r|sn sv rel lr|ms r|r].
  - eapply (returns_cons 0); [done|done|exact Hi|done|].
    pose proof (k_handler _ _ _ Hok) as Hn. pose proof (k_early _ _ _ Hok) as Hh. cbn in Hh. subst h. cbn in Hn.
    destruct (processReq_enter_pc rq d0 w.(rn)) as [(sn & sv & rel & lr & He & Hs)|[ms He]].
    + eapply returns_checked; [by eapply lookup_set_thread|exact He| |by apply (Hsv sn sv)].
      split; cbn -[processReq_enter]; rewrite ?He; [done|exact Hn|done].
    + eapply (returns_delayed 1); [lia|by eapply lookup_set_thread|exact He].
  - apply (returns_mono 0 1); [lia|]. eapply returns_checked; [exact Hi|done|done|]. by apply (Hwait sn).
  - apply (returns_mono 0 2); [lia|]. eapply returns_waiting; [done|exact Hi|done|]. by apply (Hwait sn).
  - apply (returns_mono 0 4); [lia|]. eapply returns_finish; [exact Hi|]. right. by exists r.
  - apply (returns_mono 0 4); [lia|]. eapply returns_finish; [exact Hi|]. by left.
  - by eapply returns_delayed; [lia|exact Hi|].
  - by eapply returns_replied.
Qed.
End draws.

(** ** The name of a method *)

#[local] Arguments String.append : simpl nomatch.

Definition no_dot (s : string) : Prop := LastIndex_dot s = -1.

Lemma LastIndex_dot_app s mn : no_dot mn →
  LastIndex_dot (s +:+ String "." mn) = Z.of_nat (String.length s).
Proof.
  intros Hmn. induction s as [|c s IH].
  - cbn. by rewrite Hmn.
  - change (String c s +:+ String "." mn) with (String c (s +:+ String "." mn)).
    cbn [LastIndex_dot String.length]. rewrite IH, (proj2 (Z.leb_le _ _)) by lia. lia.
Qed.

Lemma substring_prefix s u : String.substring 0 (String.length s) (s +:+ u) = s.
Proof.
  induction s as [|c s IH]; [by destruct u|].
  change (String c s +:+ u) with (String c (s +:+ u)). cbn. by rewrite IH.
Qed.

Lemma substring_all u : String.substring 0 (String.length u) u = u.
Proof. induction u as [|c u IH]; [done|]. cbn. by rewrite IH. Qed.

Lemma substring_suffix s c u n :
  n = String.length u → String.substring (S (String.length s)) n (s +:+ String c u) = u.
Proof.
  intros ->. induction s as [|c' s IH].
  - cbn. apply substring_all.
  - change (String c' s +:+ String c u) with (String c' (s +:+ String c u)). cbn. exact IH.
Qed.

Lemma length_append (s u : string) : String.length (s +:+ u) = (String.length s + String.length u)%nat.
Proof.
  induction s as [|c s IH]; [done|].
  change (String c s +:+ u) with (String c (s +:+ u)). cbn. by rewrite IH.
Qed.

Lemma split_name sn mn : no_dot mn →
  split_at (LastIndex_dot (sn +:+ String "." mn)) (sn +:+ String "." mn) = Some (sn, mn).
Proof.
  intros Hmn. rewrite LastIndex_dot_app by done. unfold split_at.
  rewrite (proj2 (Z.leb_le _ _)) by lia. rewrite Nat2Z.id, substring_prefix.
  replace (Z.to_nat (Z.of_nat (String.length sn) + 1)) with (S (String.length sn)) by lia.
  rewrite substring_suffix; [done|]. rewrite length_append. cbn. lia.
Qed.
End props.

(** ** What the network promises *)

(** What the network relies on of [encoding/gob], under labgob: a value that is decoded
    into a variable of its type is merged with what is there, since the fields that are
    zero are not sent and not overwritten; a variable at its zero value becomes the
    value. *)
Record coder {V T} (typ : V → T) (zero : T → V) (encode : V → bytes)
    (decode_into : V → bytes → option V) (merge : V → V → V) : Prop := {
  c_zero t : typ (zero t) = t;
  c_merge old v : typ old = typ v → decode_into old (encode v) = Some (merge old v);
  c_fresh v : merge (zero (typ v)) v = v
}.

(** [reflect.New], and the decoder *)
Definition decode_new {V T} (zero : T → V) (decode_into : V → bytes → option V) (t : T) (b : bytes)
    : option V :=
  decode_into (zero t) b.

Lemma decode_new_encode {V T} typ (zero : T → V) encode decode_into merge v :
  coder typ zero encode decode_into merge → decode_new zero decode_into (typ v) (encode v) = Some v.
Proof. intros []. unfold decode_new. by rewrite c_merge0, c_fresh0. Qed.

(** What a caller makes of a reply. *)
Lemma merged_reply {V T} typ (zero : T → V) encode decode_into merge var rep :
  coder typ zero encode decode_into merge → typ var = typ rep →
  let got := v ← decode_into var (encode rep); Some (true, v) in
  got = Some (true, merge var rep) ∧ (var = zero (typ var) → got = Some (true, rep)).
Proof.
  intros [] Hty got. unfold got. rewrite c_merge0 by done. split; [done|].
  intros Hz. cbn. by rewrite Hz, Hty, c_fresh0.
Qed.

(** [x] is a run of the method [meth] on [v]. *)
Definition called {V T W} (typ : V → T) (zero : T → V) (meth : string) (v : V) (x : @run V W) : Prop :=
  ∃ sn mn (svc : @Service V T W) m rt,
    split_at (LastIndex_dot meth) meth = Some (sn, mn) ∧ svc.(methods) !! mn = Some m ∧
    m.(In1) = typ v ∧ m.(In2) = Some rt ∧ x.(r_args) = v ∧
    m.(Func) x.(r_before) v (zero rt) = Some (x.(r_after), x.(r_reply)).

(** C17: Whatever the network loses, delays or reorders, and however it is changed in the
    meantime, the handler of a call runs at most once.  A [Call] that returns [true]
    has the reply of that run, which was on the caller's arguments, decoded into the
    reply variable: merged with its old contents, so it is the reply when the
    variable was at its zero value.  One that returns [false] leaves the variable
    alone, whether the handler ran or not. *)
Theorem rpc_at_most_once {Name} `{!EqDecision Name, !Countable Name} {V T W} `{!EqDecision T}
    (typ : V → T) encode decode_into merge zero (o : W) ls w i t (e : Name) meth v :
  coder typ zero encode decode_into merge →
  execs encode (decode_new zero decode_into) zero ls (world_start o) = Some w →
  w.(threads) !! i = Some t → t.(t_req) = make_req typ encode e meth v →
  (List.length (runs_of i w.(ran)) ≤ 1)%nat ∧
  ∀ rep var, t.(t_pc) = Replied rep →
    if rep.(ok) then
      ∃ x, runs_of i w.(ran) = [x] ∧ called typ zero meth v x ∧
        (typ var = typ x.(r_reply) →
         Call_return decode_into rep var = Some (true, merge var x.(r_reply)) ∧
         (var = zero (typ var) → Call_return decode_into rep var = Some (true, x.(r_reply))))
    else Call_return decode_into rep var = Some (false, var).
Proof.
  intros Hlaw Hs Hi Hreq. pose proof (execs_ok _ _ _ _ _ _ (start_ok _ _ _ o) Hs) as [Hth _].
  destruct (Hth i t Hi) as [_ Hh Hrep]. split.
  { revert Hh. destruct (t_handler t); [intros ->..|intros (x & -> & _)|intros (x & ->)]; cbn; lia. }
  intros rep var Hp. unfold Call_return. destruct (ok rep) eqn:Hok; [|done].
  destruct (Hrep rep) as [->|(x & Hx & (sn & mn & svc & m & rt & Hsp & Hm & H1 & H2 & Ha & Hf) & ->)];
    [by rewrite Hp|done|].
  exists x. split; [done|]. rewrite Hreq in *. cbn in *.
  rewrite (decode_new_encode typ _ _ _ merge v Hlaw) in Ha. cbn in Ha. split.
  - rewrite Ha in Hf. by exists sn, mn, svc, m, rt.
  - intros Hty. by apply (merged_reply typ zero encode decode_into merge).
Qed.

(** A request that waits for a server that was deleted or replaced, and is not put back,
    is never answered by it: the only answer it can get is the failure.  (So a client
    never sees the success of an operation that a crashed server kept to itself.) *)
Theorem deleted_server_never_answers {Name} `{!EqDecision Name, !Countable Name} {V T W} `{!EqDecision T}
    encode decode (zero : T → V) ls (w w' : @world Name _ _ V T W) i t sn sv :
  w.(threads) !! i = Some t → waits_on sn sv t → w.(rn).(servers) !! sn ≠ Some (Some sv) →
  LNet (OAddServer sn sv) ∉ ls → execs encode decode zero ls w = Some w' →
  ∃ t', w'.(threads) !! i = Some t' ∧ (waits_on sn sv t' ∨ t'.(t_pc) = Replied no_reply).
Proof.
  intros Hi Ht Hg Hl Hs. eapply execs_unanswered; [exact Hs|done| |by exists t; auto].
  unfold gone. destruct (servers (rn w) !! sn) as [[sv'|]|]; cbn; congruence.
Qed.

(** C34: A [Call] always returns: wherever the request is, when the server it is sent to runs
    its method, then its own steps, at most six and whatever the random draws, lead to
    an answer. *)
Theorem call_returns {Name} `{!EqDecision Name, !Countable Name} {V T W} `{!EqDecision T}
    encode decode (zero : T → V) o ls (w : @world Name _ _ V T W) i t d0 d1 d2 d3 d4 d5 :
  execs encode decode zero ls (world_start o) = Some w →
  w.(threads) !! i = Some t → reaches_handler encode decode zero i t.(t_req) t w →
  ∃ ls' w' t' r, ls' `sublist_of` [LEnter i d0; LDrop i d1; LHandler i; LTake i; LFinish i d2 d3 d4 d5; LDeliver i] ∧
    execs encode decode zero ls' w = Some w' ∧ w'.(threads) !! i = Some t' ∧ t'.(t_pc) = Replied r.
Proof.
  intros Hs Hi Hr. pose proof (execs_ok _ _ _ _ _ _ (start_ok _ _ _ o) Hs) as Hw.
  destruct (request_returns _ _ _ i d0 d1 d2 d3 d4 d5 t w Hw Hi Hr) as (ls' & r & o' & Hsub & w' & t' & ? & ? & ? & _).
  eauto 10.
Qed.

(** C35: On a reliable network a call of a method that returns, on a server that is there,
    is a call of the method: the objects change as the method changes them, once, and
    the answer is its reply.  The caller's variable is merged with the reply, and is
    the reply when it was at its zero value.  (The network serves requests, does not
    reorder replies at length, the client's end is enabled and connected to the server,
    and nothing else happens until the answer is there.) *)
Theorem reliable_call {Name} `{!EqDecision Name, !Countable Name} {V T W} `{!EqDecision T}
    (typ : V → T) encode decode_into merge zero (w : @world Name _ _ V T W) (e sn : Name) sv rs svc sname mn m v rt o rep
    d0 d1 d2 d3 d4 d5 :
  coder typ zero encode decode_into merge → no_dot mn →
  w.(serving) = true → w.(rn).(reliable) = true → w.(rn).(longReordering) = false →
  w.(rn).(enabled) !! e = Some true → w.(rn).(connections) !! e = Some (Some sn) →
  w.(rn).(servers) !! sn = Some (Some sv) → w.(heap) !! sv = Some rs →
  rs.(services) !! sname = Some svc → svc.(methods) !! mn = Some m →
  m.(In1) = typ v → m.(In2) = Some rt → m.(Func) w.(objects) v (zero rt) = Some (o, rep) →
  let req := make_req typ encode e (sname +:+ String "." mn) v in
  let i := List.length w.(threads) in
  ∃ w' t, execs encode (decode_new zero decode_into) zero
      [LCall req; LEnter i d0; LDrop i d1; LHandler i; LTake i; LFinish i d2 d3 d4 d5] w = Some w' ∧
    w'.(objects) = o ∧ w'.(threads) !! i = Some t ∧ t.(t_pc) = Replied (mkReply true (encode rep)) ∧
    ∀ var, typ var = typ rep →
      Call_return decode_into (mkReply true (encode rep)) var = Some (true, merge var rep) ∧
      (var = zero (typ var) → Call_return decode_into (mkReply true (encode rep)) var = Some (true, rep)).
Proof.
  intros Hlaw Hdot Hserv Hrel Hlr Hen Hco Hsv Hrs Hsvc Hm H1 H2 Hf req i.
  set (th p h := mkThread req p h).
  set (w1 := w <| rn := w.(rn) <| count := AddInt32 w.(rn).(count) 1 |>
                               <| nbytes := AddInt64 w.(rn).(nbytes) (zlen req.(args)) |> |>
               <| threads := w.(threads) ++ [th Arrived NotStarted] |>).
  assert (w1.(threads) !! i = Some (th Arrived NotStarted)) as T1 by by apply list_lookup_middle.
  set (w2 := set_thread i (th (Checked sn sv true false) NotStarted) w1).
  pose proof (lookup_set_thread i (th (Checked sn sv true false) NotStarted) _ w1 T1) as T2. fold w2 in T2.
  set (w3 := set_thread i (th (Waiting sn sv true false) (Started sv)) w2).
  pose proof (lookup_set_thread i (th (Waiting sn sv true false) (Started sv)) _ w2 T2) as T3. fold w3 in T3.
  set (r := mkReply true (encode rep)).
  set (w4 := set_thread i (th (Waiting sn sv true false) (Returned r))
    (w3 <| heap := <[sv := rs <| scount := rs.(scount) + 1 |>]> w3.(heap) |> <| objects := o |>
        <| ran := w3.(ran) ++ [mkRun i v rep w.(objects) o] |>)).
  assert (w4.(threads) !! i = Some (th (Waiting sn sv true false) (Returned r))) as T4.
  { apply (lookup_set_thread i _ (th (Waiting sn sv true false) (Started sv))). exact T3. }
  set (w5 := set_thread i (th (Got sn sv true false r) Taken) w4).
  pose proof (lookup_set_thread i (th (Got sn sv true false r) Taken) _ w4 T4) as T5. fold w5 in T5.
  set (w6 := set_thread i (th (Replied r) Taken)
    (w5 <| rn := w5.(rn) <| nbytes := AddInt64 w5.(rn).(nbytes) (zlen r.(reply)) |> |>)).
  exists w6, (th (Replied r) Taken). split_and!; [| done | |done|].
  - cbn [execs]. assert (exec encode (decode_new zero decode_into) zero (LCall req) w = Some w1) as -> by (cbn; by rewrite Hserv).
    cbn [mbind option_bind]. rewrite (exec_thread _ _ _ (LEnter i d0) i _ w1 eq_refl T1).
    cbn [thread_step t_pc t_handler t_req th]. assert (processReq_enter req d0 w1.(rn) = Checked sn sv true false) as ->.
    { unfold processReq_enter, readEndnameInfo. cbn. rewrite Hen, Hco. cbn. by rewrite Hsv, Hrel, Hlr. }
    change (set_thread _ _ w1) with w2. cbn [mbind option_bind].
    rewrite (exec_thread _ _ _ (LDrop i d1) i _ w2 eq_refl T2). cbn [thread_step t_pc t_handler th].
    change (processReq_drop sn sv true false d1) with (@Waiting Name sn sv true false, Started sv).
    cbv beta iota. change (set_thread _ _ w2) with w3. cbn [mbind option_bind].
    rewrite (exec_thread _ _ _ (LHandler i) i _ w3 eq_refl T3). cbn [thread_step t_pc t_handler t_req th].
    change (heap w3) with (heap w). rewrite Hrs. cbn [mbind option_bind].
    assert (Server_dispatch encode (decode_new zero decode_into) zero rs i req w3.(objects) =
      Some (rs <| scount := rs.(scount) + 1 |>, (o, r, mkRun i v rep w.(objects) o))) as ->.
    { unfold Server_dispatch, Service_dispatch. change (svcMeth req) with (sname +:+ String "." mn).
         rewrite split_name by done. cbn. rewrite Hsvc. cbn. rewrite Hm. cbn. rewrite (decode_new_encode typ _ _ _ merge v Hlaw), H2. cbn.
         rewrite decide_True by done. by rewrite Hf. }
    cbn [mbind option_bind]. cbv beta iota. change (set_thread _ _ _) with w4.
    cbn [mbind option_bind].
    rewrite (exec_thread _ _ _ (LTake i) i _ w4 eq_refl T4). cbn [thread_step t_pc t_handler th].
    change (set_thread _ _ w4) with w5. cbn [mbind option_bind].
    rewrite (exec_thread _ _ _ (LFinish i d2 d3 d4 d5) i _ w5 eq_refl T5). cbn [thread_step t_pc t_handler t_req th].
    unfold processReq_finish, isServerDead. cbn -[zlen]. rewrite Hen, Hsv. cbn -[zlen].
    by rewrite bool_decide_eq_true_2.
  - apply (lookup_set_thread i _ (th (Got sn sv true false r) Taken)). exact T5.
  - intros var Hvar. by apply (merged_reply typ zero encode decode_into merge).
Qed.

(** ** An example *)

Module Demo.
Definition typ (b : bool) : unit := tt.
(** A struct with one field, which is sent when it is not zero. *)
Definition encode (b : bool) : bytes := if b then [Byte.x01] else [].
Definition decode_into (old : bool) (l : bytes) : option bool :=
  match l with [] => Some old | [Byte.x01] => Some true | _ => None end.
Definition zero (_ : unit) : bool := false.
Definition decode : unit → bytes → option bool := decode_new zero decode_into.

Lemma law : coder typ zero encode decode_into orb.
Proof. split; [by intros []|by intros [] []|by intros []]. Qed.

(** What [TestDefault] of labgob shows: a reply with zeros does not overwrite the variable. *)
Example stale_reply : Call_return decode_into (mkReply true (encode false)) true = Some (true, true).
Proof. reflexivity. Qed.

(** A method that counts its calls and negates its argument. *)
Definition Not : @method bool unit nat :=
  mkMethod "Not" "" 3 tt (Some tt) 0 (λ w a _, Some (S w, negb a)).
Definition svc : Service := MakeService "Demo" [Not].
Definition req := make_req typ encode 7%nat "Demo.Not" true.

Definition setup : list (@label nat bool unit nat) :=
  [LNet (OMakeEnd 7%nat); LNet OMakeServer; LNet (OAddService 0%nat svc);
   LNet (OAddServer 3%nat 0%nat); LNet (OConnect 7%nat 3%nat); LNet (OEnable 7%nat true)].
Definition run (ls : list label) := execs encode decode zero (setup ++ ls) (world_start 0%nat).
Definition call : list (@label nat bool unit nat) :=
  [LCall req; LEnter 0 0; LDrop 0 0; LHandler 0; LTake 0; LFinish 0 0 0 0 0].
Definition demo_world : Type := @world nat _ _ bool unit nat.
Definition world_of (o : option demo_world) : demo_world := default (world_start 0%nat) o.
Definition thread_of (w : demo_world) : @thread nat unit :=
  default (mkThread req Arrived NotStarted) (w.(threads) !! 0%nat).

(** The call, done; and the network when the server is deleted while the request waits
    for its answer. *)
Definition answered : demo_world := world_of (run call).
Definition deleted : demo_world := world_of (run (take 4 call ++ [LNet (ODeleteServer 3%nat)])).
Definition after_deleted : demo_world :=
  world_of (execs encode decode zero [LTake 0; LFinish 0 0 0 0 0] deleted).
End Demo.

Lemma rpc_at_most_once_witness :
  (List.length (runs_of 0 Demo.answered.(ran)) ≤ 1)%nat ∧
  ∀ rep var, (Demo.thread_of Demo.answered).(t_pc) = Replied rep →
    if rep.(ok) then
      ∃ x, runs_of 0 Demo.answered.(ran) = [x] ∧ called Demo.typ Demo.zero "Demo.Not" true x ∧
        (Demo.typ var = Demo.typ x.(r_reply) →
         Call_return Demo.decode_into rep var = Some (true, var || x.(r_reply)) ∧
         (var = Demo.zero (Demo.typ var) →
          Call_return Demo.decode_into rep var = Some (true, x.(r_reply))))
    else Call_return Demo.decode_into rep var = Some (false, var).
Proof.
  apply (rpc_at_most_once Demo.typ Demo.encode Demo.decode_into orb Demo.zero 0%nat (Demo.setup ++ Demo.call)
    Demo.answered 0 (Demo.thread_of Demo.answered) 7%nat "Demo.Not" true);
    [exact Demo.law|vm_compute; reflexivity..].
Defined.

Lemma deleted_server_never_answers_witness :
  ∃ t', Demo.after_deleted.(threads) !! 0%nat = Some t' ∧
    (waits_on 3%nat 0%nat t' ∨ t'.(t_pc) = Replied no_reply).
Proof.
  apply (deleted_server_never_answers Demo.encode Demo.decode Demo.zero [LTake 0; LFinish 0 0 0 0 0]
    Demo.deleted Demo.after_deleted 0 (Demo.thread_of Demo.deleted) 3%nat 0%nat).
  - vm_compute. reflexivity.
  - vm_compute. split; reflexivity.
  - vm_compute. discriminate.
  - set_solver.
  - vm_compute. reflexivity.
Defined.

Lemma call_returns_witness :
  ∃ ls' w' t' r, ls' `sublist_of` [LEnter 0 1; LDrop 0 2; LHandler 0; LTake 0; LFinish 0 3 4 5 6; LDeliver 0] ∧
    execs Demo.encode Demo.decode Demo.zero ls' (Demo.world_of (Demo.run (take 1 Demo.call))) = Some w' ∧
    w'.(threads) !! 0%nat = Some t' ∧ t'.(t_pc) = Replied r.
Proof.
  apply (call_returns Demo.encode Demo.decode Demo.zero 0%nat (Demo.setup ++ take 1 Demo.call) _ 0
    (Demo.thread_of (Demo.world_of (Demo.run (take 1 Demo.call))))).
  - vm_compute. reflexivity.
  - vm_compute. reflexivity.
  - split.
    + intros sn sv Hsn.
      assert ((Demo.world_of (Demo.run (take 1 Demo.call))).(rn).(servers) = <[3%nat := Some 0%nat]> ∅) as Heq
        by (vm_compute; reflexivity).
      rewrite Heq in Hsn. apply lookup_insert_Some in Hsn as [[_ [= <-]]|[_ Hsn]].
      * eexists _, _. split; vm_compute; reflexivity.
      * by rewrite lookup_empty in Hsn.
    + intros sn sv Hw. vm_compute in Hw. destruct Hw.
Defined.

Lemma reliable_call_witness :
  let w := Demo.world_of (Demo.run []) in
  ∃ w' t, execs Demo.encode Demo.decode Demo.zero
      [LCall Demo.req; LEnter 0 1; LDrop 0 2; LHandler 0; LTake 0; LFinish 0 3 4 5 6] w = Some w' ∧
    w'.(objects) = 1%nat ∧ w'.(threads) !! 0%nat = Some t ∧
    t.(t_pc) = Replied (mkReply true (Demo.encode false)) ∧
    ∀ var, Demo.typ var = Demo.typ false →
      Call_return Demo.decode_into (mkReply true (Demo.encode false)) var = Some (true, var || false) ∧
      (var = Demo.zero (Demo.typ var) →
       Call_return Demo.decode_into (mkReply true (Demo.encode false)) var = Some (true, false)).
Proof.
  apply (reliable_call Demo.typ Demo.encode Demo.decode_into orb Demo.zero (Demo.world_of (Demo.run [])) 7%nat 3%nat 0%nat
    (default MakeServer ((Demo.world_of (Demo.run [])).(heap) !! 0%nat)) Demo.svc "Demo" "Not" Demo.Not true tt 1%nat false);
    [exact Demo.law|vm_compute; reflexivity..].
Defined.
