(* ===== verification/Labgob.v ===== *)
(** The checks that [src/src/labgob/labgob.go] makes before it hands a value to
    [encoding/gob]: no lower-case field in a type that is sent, and no variable
    decoded into that is not at its zero value.

    A [reflect.Type] is a number; [types] says what each one is.  The checks keep the
    set of the types seen and count what they complain about.  Field names are
    ASCII, as they are in the repository. *)
From Stdlib Require Import Ascii.
From S2P Require Import Prelude Gob RaftTypes KVServer.
Open Scope string_scope.
Open Scope list_scope.
Open Scope Z_scope.

Abbreviation rtype := nat.

(** The kinds that [checkType] tells apart. *)
Inductive desc :=
  | Struct (fields : list (string * rtype))
  | Elem (t : rtype)                    (* slice, array, pointer *)
  | MapOf (elem key : rtype)
  | Basic.

(** [unicode.IsUpper] of the first rune. *)
Definition first_upper (name : string) : bool :=
  match name with
  | EmptyString => false
  | String c _ => ("A" <=? c)%char && (c <=? "Z")%char
  end.

(** The variables of the package, and what was printed: the fields complained about and
    the variables warned about. *)
Record labgob := mkLabgob { checked : gset rtype; errorCount : Z; printed : list string }.

Definition labgob_start : labgob := mkLabgob ∅ 0 [].

Section types.
Context (types : rtype → desc).

(** The recursion goes through the types not seen yet; [None] is out of fuel. *)
Fixpoint checkType (fuel : nat) (t : rtype) (st : labgob) : option labgob :=
  match fuel with
  | O => None
  | S fuel =>
      if decide (t ∈ st.(checked)) then Some st
      else
        let st := mkLabgob ({[t]} ∪ st.(checked)) st.(errorCount) st.(printed) in
        match types t with
        | Struct fields =>
            foldM (λ st f,
              let st := if first_upper f.1 then st
                        else mkLabgob st.(checked) (st.(errorCount) + 1) (st.(printed) ++ [f.1]) in
              checkType fuel f.2 st) st fields
        | Elem t => checkType fuel t st
        | MapOf elem key => st ← checkType fuel elem st; checkType fuel key st
        | Basic => Some st
        end
  end.

(** The types of what a type is made of. *)
Definition parts (t : rtype) : list rtype :=
  match types t with
  | Struct fields => fields.*2
  | Elem t => [t]
  | MapOf elem key => [elem; key]
  | Basic => []
  end.

Inductive reach : rtype → rtype → Prop :=
  | reach_refl t : reach t t
  | reach_step t u v : u ∈ parts t → reach u v → reach t v.

(** The fields of a type to complain about. *)
Definition lower_fields (t : rtype) : nat :=
  match types t with
  | Struct fields => count_if (λ f, negb (first_upper f.1)) fields
  | _ => 0
  end.

Definition lowers (ts : gset rtype) : nat := sum_list (lower_fields <$> elements ts).
End types.

(** ** [checkDefault] *)

(** A value, as far as the check looks at it: the names of the fields, and whether a
    basic value is the zero of its type. *)
Inductive rval :=
  | RStruct (fields : list (string * rval))
  | RPtr (v : option rval)
  | RBasic (tname : string) (is_zero : bool)
  | ROther.

(** [deep] is [4 - depth]: at depth 4 the check stops. *)
Fixpoint checkDefault1 (deep : nat) (v : rval) (name : string) (st : labgob) : labgob :=
  match deep with
  | O => st
  | S deep =>
      match v with
      | RStruct fields =>
          foldl (λ st f,
            checkDefault1 deep f.2 (if bool_decide (name = "") then f.1 else name +:+ "." +:+ f.1) st)
            st fields
      | RPtr None => st
      | RPtr (Some v) => checkDefault1 deep v name st
      | RBasic tname is_zero =>
          if is_zero : bool then st
          else
            let what := if bool_decide (name = "") then tname else name in
            mkLabgob st.(checked) (st.(errorCount) + 1)
              (if st.(errorCount) <? 1 then st.(printed) ++ [what] else st.(printed))
      | ROther => st
      end
  end.

Definition checkDefault (v : option rval) (st : labgob) : labgob :=
  match v with None => st | Some v => checkDefault1 3 v "" st end.

(** ** The encoder and the decoder *)

Section coders.
Context (types : rtype → desc) (fuel : nat).

Definition checkValue (t : rtype) (st : labgob) : option labgob := checkType types fuel t st.

(** [NewEncoder] of a buffer; what [gob] writes is that of [Gob]. *)
Definition Encode {A} `{!Gob A} (t : rtype) (e : A) (st : labgob) (buf : bytes)
    : option (labgob * bytes) :=
  st ← checkValue t st; Some (st, buf ++ gob_enc e).

(** [old] is the variable that is decoded into, and [view] how the check sees it.  [gob]
    does not send the zero fields of a value and leaves those of the variable as they
    were: [merge] is what it makes of the old value and the one that was sent.  An error
    ([None]) leaves the variable. *)
Definition Decode {A} `{!Gob A} (merge : A → A → A) (view : A → option rval) (t : rtype) (old : A)
    (st : labgob) (buf : bytes) : option (labgob * option (A * bytes)) :=
  st ← checkValue t st;
  Some (checkDefault (view old) st, '(v, rest) ← gob_dec buf; Some (merge old v, rest)).

Definition Register (t : rtype) (st : labgob) : option labgob := checkValue t st.
End coders.

(** The basic values that are not zero, down to a depth. *)
Fixpoint dirty (deep : nat) (v : rval) : nat :=
  match deep with
  | O => 0
  | S deep =>
      match v with
      | RStruct fields => sum_list ((λ f, dirty deep f.2) <$> fields)
      | RPtr None => 0
      | RPtr (Some v) => dirty deep v
      | RBasic _ z => if z : bool then 0 else 1
      | ROther => 0
      end
  end.

(** ** What the checks find *)

Section checkType.
Context (types : rtype → desc).
Local Abbreviation checkType := (checkType types).
Local Abbreviation parts := (parts types).
Local Abbreviation reach := (reach types).
Local Abbreviation lowers := (lowers types).

Lemma lowers_empty : lowers ∅ = 0%nat.
Proof. unfold Labgob.lowers. by rewrite elements_empty. Qed.

Lemma lowers_union X Y : X ## Y → lowers (X ∪ Y) = (lowers X + lowers Y)%nat.
Proof.
  intros Hd. unfold Labgob.lowers. rewrite elements_disj_union, fmap_app by done.
  generalize (lower_fields types <$> elements X) as l.
  induction l as [|x l IH]; cbn; [done|]. rewrite IH. lia.
Qed.

Lemma lowers_singleton t : lowers {[t]} = lower_fields types t.
Proof. unfold Labgob.lowers. rewrite elements_singleton. cbn. lia. Qed.

(** What a check of the types [ts] does, with [extra] complaints of its own. *)
Record visited (ts : list rtype) (extra : nat) (st st' : labgob) : Prop := {
  v_sub : st.(checked) ⊆ st'.(checked);
  v_all : ∀ t, t ∈ ts → t ∈ st'.(checked);
  v_reach : ∀ u, u ∈ st'.(checked) → u ∉ st.(checked) → ∃ t, t ∈ ts ∧ reach t u;
  v_closed : ∀ u v, u ∈ st'.(checked) → u ∉ st.(checked) → v ∈ parts u → v ∈ st'.(checked);
  v_count : st'.(errorCount) =
    st.(errorCount) + Z.of_nat extra + Z.of_nat (lowers (st'.(checked) ∖ st.(checked)))
}.

Lemma visited_nil st : visited [] 0 st st.
Proof.
  split; try set_solver. replace (checked st ∖ checked st) with (∅ : gset rtype) by set_solver.
  rewrite lowers_empty. lia.
Qed.

Lemma visited_complain st out : visited [] 1 st (mkLabgob st.(checked) (st.(errorCount) + 1) out).
Proof.
  split; try set_solver. cbn. replace (checked st ∖ checked st) with (∅ : gset rtype) by set_solver.
  rewrite lowers_empty. lia.
Qed.

Lemma visited_app ts1 ts2 e1 e2 st st1 st2 :
  visited ts1 e1 st st1 → visited ts2 e2 st1 st2 → visited (ts1 ++ ts2) (e1 + e2) st st2.
Proof.
  intros [S1 A1 R1 C1 N1] [S2 A2 R2 C2 N2]. split.
  - set_solver.
  - set_solver.
  - intros u Hu Hno. destruct (decide (u ∈ checked st1)) as [Hin|Hno1].
    + destruct (R1 u Hin Hno) as (t & Ht & Hr). exists t. set_solver.
    + destruct (R2 u Hu Hno1) as (t & Ht & Hr). exists t. set_solver.
  - intros u v Hu Hno Hv. destruct (decide (u ∈ checked st1)) as [Hin|Hno1].
    + apply S2. by eapply C1.
    + by eapply C2.
  - rewrite N2, N1.
    assert (checked st2 ∖ checked st = (checked st1 ∖ checked st) ∪ (checked st2 ∖ checked st1)) as ->.
    { apply set_eq. intros u. rewrite elem_of_union, !elem_of_difference.
      destruct (decide (u ∈ checked st1)); set_solver. }
    rewrite lowers_union by set_solver. lia.
Qed.

Lemma visited_seen t st : t ∈ st.(checked) → visited [t] 0 st st.
Proof.
  intros Ht. destruct (visited_nil st) as [H1 H2 H3 H4 H5]. split; try done.
  intros u ->%list_elem_of_singleton. done.
Qed.

(** A type that was not seen, when its parts are checked. *)
Lemma visited_node t st st' :
  t ∉ st.(checked) →
  visited (parts t) (lower_fields types t) (mkLabgob ({[t]} ∪ st.(checked)) st.(errorCount) st.(printed)) st' →
  visited [t] 0 st st'.
Proof.
  intros Hno [S1 A1 R1 C1 N1]. cbn in *. split.
  - set_solver.
  - set_solver.
  - intros u Hu Hnu. exists t. split; [by left|]. destruct (decide (u = t)) as [->|Hne]; [constructor|].
    destruct (R1 u Hu) as (v & Hv & Hr); [set_solver|]. by econstructor.
  - intros u v Hu Hnu Hv. destruct (decide (u = t)) as [->|Hne]; [by apply A1|].
    apply (C1 u v); [done|set_solver|done].
  - rewrite N1.
    assert (checked st' ∖ checked st = {[t]} ∪ (checked st' ∖ ({[t]} ∪ checked st))) as ->.
    { apply set_eq. intros u. rewrite elem_of_union, !elem_of_difference, elem_of_union, elem_of_singleton.
      destruct (decide (u = t)) as [->|]; set_solver. }
    rewrite lowers_union by set_solver. rewrite lowers_singleton. lia.
Qed.

Definition closed (D : gset rtype) : Prop := ∀ u v, u ∈ D → v ∈ parts u → v ∈ D.

Lemma checkType_ok D fuel : closed D → ∀ t st,
  t ∈ D → (size (D ∖ st.(checked)) < fuel)%nat →
  ∃ st', checkType fuel t st = Some st' ∧ visited [t] 0 st st'.
Proof.
  intros HD. induction fuel as [|fuel IH]; intros t st Ht Hf; [lia|]. cbn [Labgob.checkType].
  destruct (decide (t ∈ checked st)) as [Hin|Hno]; [by exists st; split; [|apply visited_seen]|].
  set (st0 := mkLabgob ({[t]} ∪ checked st) (errorCount st) (printed st)).
  assert (∀ u st1, u ∈ parts t → checked st0 ⊆ checked st1 →
    ∃ st', checkType fuel u st1 = Some st' ∧ visited [u] 0 st1 st') as Hpart.
  { intros u st1 Hu Hsub. apply IH; [by eapply HD|].
    enough (size (D ∖ checked st1) < size (D ∖ checked st))%nat by lia.
    apply subset_size. split; [set_solver|]. intros Hbad.
    assert (t ∈ D ∖ checked st1) as Hin; [apply Hbad|]; set_solver. }
  enough (∃ st', (match types t with
    | Struct fields => foldM (λ st f, let st := if first_upper f.1 then st
        else mkLabgob st.(checked) (st.(errorCount) + 1) (st.(printed) ++ [f.1]) in checkType fuel f.2 st) st0 fields
    | Elem t => checkType fuel t st0
    | MapOf elem key => st ← checkType fuel elem st0; checkType fuel key st
    | Basic => Some st0 end) = Some st' ∧ visited (parts t) (lower_fields types t) st0 st')
    as (st' & Heq & Hv).
  { exists st'. split; [exact Heq|]. by eapply visited_node. }
  unfold Labgob.parts, lower_fields in *. destruct (types t) as [fields|u|elem key|].
  - assert (checked st0 ⊆ checked st0) as Hsub by done. revert Hsub. generalize st0 at 2 3 4 as st1.
    induction fields as [|f fields IHf]; intros st1 Hsub.
    { exists st1. split; [done|]. apply visited_nil. }
    cbn [foldM fmap list_fmap]. set (st2 := if first_upper f.1 then st1 else _).
    assert (visited [] (if negb (first_upper f.1) then 1 else 0) st1 st2) as H12.
    { unfold st2. destruct (first_upper f.1); [apply visited_nil|apply visited_complain]. }
    assert (checked st0 ⊆ checked st2) as Hsub2 by (etransitivity; [exact Hsub|apply H12]).
    destruct (Hpart f.2 st2) as (st3 & -> & H23); [set_solver|done|]. cbn [mbind option_bind].
    destruct (IHf) with (st1 := st3) as (st' & -> & H3); [intros; apply Hpart; set_solver|..].
    { etransitivity; [exact Hsub2|apply H23]. }
    exists st'. split; [done|].
    pose proof (visited_app _ _ _ _ _ _ _ (visited_app _ _ _ _ _ _ _ H12 H23) H3) as Hall.
    cbn [app] in Hall. rewrite Nat.add_0_r in Hall.
    assert (count_if (λ f, negb (first_upper f.1)) (f :: fields) =
      ((if negb (first_upper f.1) then 1 else 0) + count_if (λ f, negb (first_upper f.1)) fields)%nat) as ->;
      [|exact Hall].
    unfold count_if. cbn. by destruct (first_upper f.1).
  - destruct (Hpart u st0) as (st' & -> & Hv); [set_solver|done|]. by exists st'.
  - destruct (Hpart elem st0) as (st1 & -> & H1); [set_solver|done|]. cbn [mbind option_bind].
    destruct (Hpart key st1) as (st' & -> & H2); [set_solver|apply H1|]. exists st'. split; [done|].
    by apply (visited_app _ _ _ _ _ _ _ H1 H2).
  - exists st0. split; [done|]. apply visited_nil.
Qed.

(** What was seen before is closed: then the check sees exactly what can be reached. *)
Lemma visited_exact t st st' :
  closed st.(checked) → visited [t] 0 st st' →
  closed st'.(checked) ∧ ∀ u, u ∈ st'.(checked) ↔ u ∈ st.(checked) ∨ reach t u.
Proof.
  intros Hc [S1 A1 R1 C1 _]. assert (closed (checked st')) as Hc'.
  { intros u v Hu Hv. destruct (decide (u ∈ checked st)); [apply S1; by eapply Hc|by eapply C1]. }
  split; [done|]. intros u. split.
  - intros Hu. destruct (decide (u ∈ checked st)); [by left|right].
    destruct (R1 u Hu) as (v & ->%list_elem_of_singleton & Hr); [done|]. done.
  - intros [Hu|Hr]; [by apply S1|]. assert (t ∈ checked st') as Ht by (apply A1; by left).
    clear A1 R1 C1. revert Ht. induction Hr as [|t u v Hu _ IH]; [done|]. intros Ht. apply IH. by eapply Hc'.
Qed.
End checkType.

(** [checkDefault] counts the basic values that are not zero. *)
Lemma checkDefault1_count deep v name st :
  (checkDefault1 deep v name st).(errorCount) = st.(errorCount) + Z.of_nat (dirty deep v).
Proof.
  revert v name st. induction deep as [|deep IH]; intros v name st; [cbn; lia|].
  destruct v as [fields|[v|]|tname z|]; cbn [checkDefault1 dirty]; [|apply IH|lia| |lia].
  - revert st. induction fields as [|f fields IHf]; intros st; cbn [foldl fmap list_fmap sum_list]; [cbn; lia|].
    rewrite IHf, IH. cbn. lia.
  - destruct z; cbn; lia.
Qed.

(** C36: The check of a type, on any set of types, recursive ones included, ends, looks at
    every type that the type is made of and that was not looked at before, once, and
    counts exactly the lower-case fields of these.  (Checks come one after the
    other: when one starts, the set of the types seen has with a type also its parts, as
    it has at the start of the program and after every check.) *)
Theorem checkType_exact types (D : gset rtype) t st :
  closed types D → t ∈ D → closed types st.(checked) →
  ∃ st', checkType types (S (size D)) t st = Some st' ∧ closed types st'.(checked) ∧
    (∀ u, u ∈ st'.(checked) ↔ u ∈ st.(checked) ∨ reach types t u) ∧
    st'.(errorCount) = st.(errorCount) + Z.of_nat (lowers types (st'.(checked) ∖ st.(checked))).
Proof.
  intros HD Ht Hc. destruct (checkType_ok types D (S (size D)) HD t st Ht) as (st' & Heq & Hv).
  { apply Nat.lt_succ_r, subseteq_size. set_solver. }
  exists st'. split; [done|]. destruct (visited_exact types t st st' Hc Hv) as [Hc' Hex].
  split; [done|]. split; [done|]. rewrite (v_count _ _ _ _ _ Hv). lia.
Qed.

(** ** The types that the programs send and store *)

(** 0 is [int], 1 [bool], 2 a string, 3 [interface{}], 4 [byte]; the structs and what
    they are made of have numbers from 10; 100 more is a pointer. *)
Module Wire.
Abbreviation fields := (list (string * rtype)).

(** [SnapShot] and [Log] *)
Definition state_types (t : rtype) : option fields :=
  match t with
  | 16%nat => Some [("Command", 3); ("Term", 0)]%nat
  | 17%nat => Some [("Mp", 22); ("LastIndex", 0); ("LastTerm", 0); ("CliMap", 23)]%nat
  | _ => None
  end.

(** The arguments and replies of [RequestVote] and [AppendEntries] *)
Definition rpc_types (t : rtype) : option fields :=
  match t with
  | 10%nat => Some [("Term", 0); ("CandidateId", 0); ("LastLogIndex", 0); ("LastLogTerm", 0)]%nat
  | 11%nat => Some [("Term", 0); ("VoteGranted", 1)]%nat
  | 12%nat => Some [("Term", 0); ("LeaderId", 0); ("PrevLogIndex", 0); ("PrevLogTerm", 0);
                    ("Entries", 20); ("LeaderCommit", 0)]%nat
  | 13%nat => Some [("Term", 0); ("Success", 1); ("Miss", 1); ("TermConflict", 0);
                    ("TermStart", 0); ("Len", 0)]%nat
  | _ => None
  end.

(** [SnapArg] and [SnapReply] *)
Definition snap_types (t : rtype) : option fields :=
  match t with
  | 14%nat => Some [("Term", 0); ("LeaderId", 0); ("LastIncludedIndex", 0);
                    ("LastIncludedTerm", 0); ("Data", 21)]%nat
  | 15%nat => Some [("Term", 0)]%nat
  | _ => None
  end.

(** [Op] of the key/value server *)
Definition op_types (t : rtype) : option fields :=
  match t with
  | 18%nat => Some [("Id", 0); ("Num", 0); ("Type", 0); ("Key", 2); ("Value", 2)]%nat
  | _ => None
  end.

(** The arguments and replies of the key/value service *)
Definition common_types (t : rtype) : option fields :=
  match t with
  | 30%nat => Some [("Key", 2); ("Value", 2); ("Op", 2); ("Num", 0); ("ClientId", 0)]%nat
  | 31%nat => Some [("Err", 2)]%nat
  | 32%nat => Some [("Key", 2); ("Num", 0); ("ClientId", 0)]%nat
  | 33%nat => Some [("Err", 2); ("Value", 2)]%nat
  | _ => None
  end.

Definition struct_of (t : rtype) : option fields :=
  match state_types t, rpc_types t, snap_types t, op_types t, common_types t with
  | Some f, _, _, _, _ | None, Some f, _, _, _ | None, None, Some f, _, _
  | None, None, None, Some f, _ | None, None, None, None, Some f => Some f
  | None, None, None, None, None => None
  end.

(** 20 is [[]Log], 21 [[]byte], 22 [map[string]string], 23 [map[int]int]. *)
Definition types (t : rtype) : desc :=
  match struct_of t, t with
  | Some f, _ => Struct f
  | None, 20%nat => Elem 16
  | None, 21%nat => Elem 4
  | None, 22%nat => MapOf 2 2
  | None, 23%nat => MapOf 0 0
  | None, _ => if decide (100 ≤ t)%nat then Elem (t - 100) else Basic
  end.

Definition all : gset rtype := list_to_set (seq 0 40 ++ ((λ t, 100 + t)%nat <$> seq 0 40)).

Lemma all_closed : closed types all.
Proof.
  assert (Forall (λ u, Forall (λ v, v ∈ all) (parts types u)) (elements all)) as Hall.
  { apply (bool_decide_unpack _). vm_compute. exact I. }
  intros u v Hu Hv. rewrite Forall_forall in Hall. specialize (Hall u). rewrite elem_of_elements in Hall.
  specialize (Hall Hu). rewrite Forall_forall in Hall. by apply Hall.
Qed.
End Wire.

(** The type of the arguments of [AppendEntries] has the log's in it. *)
Lemma checkType_exact_witness :
  ∃ st', checkType Wire.types (S (size Wire.all)) 112%nat labgob_start = Some st' ∧
    closed Wire.types st'.(checked) ∧
    (∀ u, u ∈ st'.(checked) ↔ u ∈ labgob_start.(checked) ∨ reach Wire.types 112%nat u) ∧
    st'.(errorCount) = labgob_start.(errorCount) +
      Z.of_nat (lowers Wire.types (st'.(checked) ∖ labgob_start.(checked))).
Proof.
  apply checkType_exact.
  - exact Wire.all_closed.
  - apply (bool_decide_unpack _). vm_compute. exact I.
  - intros u v Hu. by apply not_elem_of_empty in Hu.
Defined.
