(* ===== verification/MRMaster.v ===== *)
(** The MapReduce master ([src/src/mr/master.go], [rpc.go]): the circular doubly
    linked lists of unfinished tasks, [assignTask], and the RPC handler.

    The lists live in a heap; a pointer names a node by the list it was made for
    and its place there, 0 for the head.  [DeleteNode] does not clear the node it
    unlinks, and the master may still hold a pointer to it, so a node can be
    unlinked twice.  A nil or dangling pointer, an index out of range and a loop
    out of fuel are [None].  [os.Rename] is recorded in [renames]. *)
From stdpp Require Import pretty.
From S2P Require Import Prelude.
Open Scope Z_scope.

(** ** The wire *)

Module StateArgs.
Record t := mk {
  Cat : Z; TaskId : Z; Finished : bool; Idle : bool; WorkerId : Z; FileName : string
}.
End StateArgs.

Module StateReply.
Record t := mk {
  Cat : Z; TaskId : Z; FileName : string; Nreduce : Z; MapCount : Z; WorkerId : Z;
  FileNames : list Z
}.
#[global] Instance eta : Eta t := λ r,
  mk r.(Cat) r.(TaskId) r.(FileName) r.(Nreduce) r.(MapCount) r.(WorkerId) r.(FileNames).
Definition zero : t := mk 0 0 "" 0 0 0 [].
End StateReply.

(** ** The lists *)

Inductive kind := KMap | KReduce.
#[export] Instance kind_eq_dec : EqDecision kind.
Proof. solve_decision. Defined.
#[export] Instance kind_countable : Countable kind.
Proof.
  refine (inj_countable' (λ k, match k with KMap => true | KReduce => false end)
    (λ b : bool, if b then KMap else KReduce) _). by intros [].
Defined.

Abbreviation ptr := (kind * nat)%type.

Record TaskNode := mkNode { taskId : Z; next : option ptr; prev : option ptr }.
#[export] Instance eta_TaskNode : Eta TaskNode := λ n, mkNode n.(taskId) n.(next) n.(prev).

Abbreviation heap := (gmap ptr TaskNode).

Definition DeleteNode (node : ptr) (h : heap) : option heap :=
  n ← h !! node; temp ← n.(prev);
  tn ← h !! temp;
  let h := <[temp := tn <| next := n.(next) |>]> h in
  n ← h !! node; nx ← n.(next);
  nn ← h !! nx;
  Some (<[nx := nn <| prev := Some temp |>]> h).

Definition AddNode (head node : ptr) (h : heap) : option heap :=
  hd ← h !! head; temp ← hd.(prev);
  tn ← h !! temp;
  let h := <[temp := tn <| next := Some node |>]> h in
  n ← h !! node;
  let h := <[node := n <| prev := Some temp |> <| next := Some head |>]> h in
  hd ← h !! head;
  Some (<[head := hd <| prev := Some node |>]> h).

Definition InitHead (head : ptr) (h : heap) : option heap :=
  _ ← h !! head;
  Some (<[head := mkNode (-1) (Some head) (Some head)]> h).

(** ** The master *)

Record Master := mkMaster {
  hp : heap;
  MapTasks : list string;
  ReduceTasks : list Z;         (* the worker whose map output counts *)
  MapStatus : list bool;
  ReduceStatus : list bool;
  MapFinished : Z;              (* how many map tasks are not finished *)
  ReduceFinished : Z;
  MNreduce : Z;
  MapPointer : ptr;
  ReducePointer : ptr;
  workers : Z;
  renames : list (string * string)
}.
#[export] Instance eta_Master : Eta Master := λ m,
  mkMaster m.(hp) m.(MapTasks) m.(ReduceTasks) m.(MapStatus) m.(ReduceStatus) m.(MapFinished)
    m.(ReduceFinished) m.(MNreduce) m.(MapPointer) m.(ReducePointer) m.(workers) m.(renames).

Definition MapHead : ptr := (KMap, 0%nat).
Definition ReduceHead : ptr := (KReduce, 0%nat).

(** The loops of lines 110-121 and 133-150: pass the head, unlink finished tasks,
    stop at the first other one. *)
Fixpoint find_task (fuel : nat) (head : ptr) (status : list bool) (task : ptr) (h : heap)
    : option (heap * ptr) :=
  match fuel with
  | O => None
  | S fuel =>
      if decide (task = head) then
        n ← h !! task; nx ← n.(next); find_task fuel head status nx h
      else
        n ← h !! task; fin ← zget status n.(taskId);
        if fin : bool then
          h ← DeleteNode task h;
          n ← h !! task; nx ← n.(next); find_task fuel head status nx h
        else Some (h, task)
  end.

(** Enough for a walk to the end of the list and once more through it. *)
Definition find_fuel (status : list bool) : nat := 2 * length status + 4.

Definition assignTask (reply : StateReply.t) (m : Master) : option (Master * StateReply.t) :=
  if 0 <? m.(MapFinished) then
    let reply := reply <| StateReply.Cat := 1 |> in
    '(h, task) ← find_task (find_fuel m.(MapStatus)) MapHead m.(MapStatus) m.(MapPointer) m.(hp);
    n ← h !! task; nx ← n.(next);
    file ← zget m.(MapTasks) n.(taskId);
    Some (m <| hp := h |> <| MapPointer := nx |>,
          reply <| StateReply.TaskId := n.(taskId) |> <| StateReply.FileName := file |>
                <| StateReply.Nreduce := m.(MNreduce) |>)
  else if 0 <? m.(ReduceFinished) then
    let reply := reply <| StateReply.Cat := 2 |> in
    '(h, task) ← find_task (find_fuel m.(ReduceStatus)) ReduceHead m.(ReduceStatus)
                   m.(ReducePointer) m.(hp);
    n ← h !! task; nx ← n.(next);
    Some (m <| hp := h |> <| MapPointer := nx |>,
          reply <| StateReply.TaskId := n.(taskId) |> <| StateReply.Nreduce := m.(MNreduce) |>
                <| StateReply.MapCount := zlen m.(MapStatus) |>
                <| StateReply.FileNames := m.(ReduceTasks) |>)
  else Some (m, reply <| StateReply.Cat := 0 |>).

(** Lines 61-80: a worker reports a finished task. *)
Definition report (args : StateArgs.t) (m : Master) : option Master :=
  let id := args.(StateArgs.TaskId) in
  if args.(StateArgs.Finished) then
    ms ← (if args.(StateArgs.Cat) =? 1 then zget m.(MapStatus) id else Some true);
    if negb ms then
      st ← zset m.(MapStatus) id true;
      rt ← zset m.(ReduceTasks) id args.(StateArgs.WorkerId);
      Some (m <| MapStatus := st |> <| MapFinished := m.(MapFinished) - 1 |>
              <| ReduceTasks := rt |>)
    else
      rs ← (if args.(StateArgs.Cat) =? 2 then zget m.(ReduceStatus) id else Some true);
      if negb rs then
        st ← zset m.(ReduceStatus) id true;
        Some (m <| ReduceStatus := st |> <| ReduceFinished := m.(ReduceFinished) - 1 |>
                <| renames := m.(renames) ++ [(args.(StateArgs.FileName), "mr-out-" +:+ pretty id)] |>)
      else Some m
  else Some m.

Definition RequestHandler (args : StateArgs.t) (m : Master) : option (Master * StateReply.t) :=
  let reply := StateReply.zero <| StateReply.WorkerId := args.(StateArgs.WorkerId) |> in
  m ← report args m;
  if args.(StateArgs.Idle) then
    if args.(StateArgs.WorkerId) =? 0 then
      assignTask (reply <| StateReply.WorkerId := m.(workers) + 1 |>)
        (m <| workers := m.(workers) + 1 |>)
    else assignTask reply m
  else Some (m, reply).

Definition Done (m : Master) : bool := (m.(MapFinished) =? 0) && (m.(ReduceFinished) =? 0).

(** [for i := 0; i < n; i++ { AddNode(head, &TaskNode{taskId: i}) }] *)
Definition add_tasks (k : kind) (n : nat) (h : heap) : option heap :=
  foldM (λ h i, AddNode (k, 0%nat) (k, S i) (<[(k, S i) := mkNode (Z.of_nat i) None None]> h))
    h (seq 0 n).

Definition new_heads : heap :=
  <[MapHead := mkNode 0 None None]> (<[ReduceHead := mkNode 0 None None]> ∅).

Definition MakeMaster (files : list string) (nReduce : nat) : option Master :=
  h ← InitHead MapHead new_heads; h ← InitHead ReduceHead h;
  h ← add_tasks KMap (length files) h; h ← add_tasks KReduce nReduce h;
  mh ← h !! MapHead; mp ← mh.(next);
  rh ← h !! ReduceHead; rp ← rh.(next);
  Some (mkMaster h files (replicate (length files) 0) (replicate (length files) false)
          (replicate nReduce false) (zlen files) (Z.of_nat nReduce) (Z.of_nat nReduce)
          mp rp 0 []).
