(* ===== verification/MRMasterProps.v ===== *)
(** Properties of the MapReduce master of [MRMaster.v]: the invariant of its
    lists, what [assignTask] hands out, and the end of the job. *)
From stdpp Require Import pretty.
From S2P Require Import Prelude MRMaster.
Open Scope Z_scope.

(** ** The invariant of a list

    Places go from the head, 0, through the tasks [1..n]; the head is also the
    end, place [n + 1].  A [next] pointer leads forward and a [prev] pointer
    backward, and both pass over finished tasks only.  This holds for unlinked
    nodes too, which the master may still point to. *)

Section list.
Context (k : kind) (status : list bool).
Let n : nat := length status.

Definition finished (t : nat) : Prop := status !! (t - 1)%nat = Some true.

(** The place a pointer to [j] leads to, going forward. *)
Definition place (j : nat) : nat := if decide (j = 0)%nat then S n else j.

Definition skips (i j : nat) : Prop :=
  (i < j ≤ S n)%nat ∧ ∀ t, (i < t < j)%nat → finished t.

Definition node_ok (h : heap) (i : nat) : Prop :=
  ∃ node j l, h !! (k, i) = Some node ∧ node.(taskId) = Z.of_nat i - 1 ∧
    node.(next) = Some (k, j) ∧ (j ≤ n)%nat ∧ skips i (place j) ∧
    node.(prev) = Some (k, l) ∧ (l ≤ n)%nat ∧ skips l (place i).

Definition list_ok (h : heap) : Prop := ∀ i, (i ≤ n)%nat → node_ok h i.

(** An update of one pointer that keeps the two conditions. *)
Lemma node_ok_next h i j node :
  list_ok h → (i ≤ n)%nat → (j ≤ n)%nat → skips i (place j) → h !! (k, i) = Some node →
  list_ok (<[(k, i) := node <| next := Some (k, j) |>]> h).
Proof.
  intros Hok Hi Hj Hs Hnode i' Hi'. destruct (Hok i' Hi') as (node' & j' & l' & H1 & H2 & H3).
  destruct (decide (i' = i)) as [->|Hne].
  - rewrite Hnode in H1. injection H1 as <-. exists (node <| next := Some (k, j) |>), j, l'.
    rewrite lookup_insert_eq. destruct H3 as (? & ? & ? & ? & ? & ?). by split_and!.
  - exists node', j', l'. rewrite lookup_insert_ne by congruence. done.
Qed.

Lemma node_ok_prev h i l node :
  list_ok h → (i ≤ n)%nat → (l ≤ n)%nat → skips l (place i) → h !! (k, i) = Some node →
  list_ok (<[(k, i) := node <| prev := Some (k, l) |>]> h).
Proof.
  intros Hok Hi Hj Hs Hnode i' Hi'. destruct (Hok i' Hi') as (node' & j' & l' & H1 & H2 & H3).
  destruct (decide (i' = i)) as [->|Hne].
  - rewrite Hnode in H1. injection H1 as <-. exists (node <| prev := Some (k, l) |>), j', l.
    rewrite lookup_insert_eq. destruct H3 as (? & ? & ? & ? & ? & ?). by split_and!.
  - exists node', j', l'. rewrite lookup_insert_ne by congruence. done.
Qed.

(** Unlinking a finished task, even for the second time. *)
Lemma DeleteNode_ok h i :
  list_ok h → (1 ≤ i ≤ n)%nat → finished i →
  ∃ h', DeleteNode (k, i) h = Some h' ∧ list_ok h'.
Proof.
  intros Hok [Hi Hin] Hf.
  destruct (Hok i Hin) as (node & j & l & Hnode & _ & Hj & Hjn & Hsj & Hl & Hln & Hsl).
  assert (place i = i) as Hpi by (unfold place; case_decide; lia). rewrite Hpi in Hsl.
  assert (skips l (place j)) as Hlj.
  { destruct Hsj as [? Hsj], Hsl as [? Hsl]. split; [lia|]. intros t Ht.
    destruct (decide (t = i)) as [->|]; [done|]. destruct (decide (t < i)%nat).
    - apply Hsl. lia.
    - apply Hsj. lia. }
  unfold DeleteNode. rewrite Hnode. cbn [mbind option_bind]. rewrite Hl. cbn [mbind option_bind].
  destruct (Hok l Hln) as (tn & _ & _ & Htn & _). rewrite Htn. cbn [mbind option_bind]. rewrite Hj.
  set (h1 := <[_ := _]> h).
  assert (list_ok h1) as Hok1 by by apply node_ok_next.
  assert (h1 !! (k, i) = Some node) as ->.
  { unfold h1. rewrite lookup_insert_ne; [done|]. intros [= ->]. destruct Hsl; lia. }
  cbn [mbind option_bind]. rewrite Hj. cbn [mbind option_bind].
  destruct (Hok1 j Hjn) as (nn & _ & _ & Hnn & _). rewrite Hnn. cbn [mbind option_bind].
  eexists. split; [done|]. by apply node_ok_prev.
Qed.

(** Other lists are not touched. *)
Lemma DeleteNode_other h i h' k' i' :
  list_ok h → (i ≤ n)%nat → DeleteNode (k, i) h = Some h' → k' ≠ k → h' !! (k', i') = h !! (k', i').
Proof.
  intros Hok Hi Heq Hk. destruct (Hok i Hi) as (node & j & l & Hnode & _ & Hj & _ & _ & Hl & _).
  unfold DeleteNode in Heq. rewrite Hnode in Heq. cbn [mbind option_bind] in Heq.
  rewrite Hl in Heq. cbn [mbind option_bind] in Heq.
  apply bind_Some in Heq as (tn & Htn & Heq). apply bind_Some in Heq as (node' & Hn' & Heq).
  apply bind_Some in Heq as (nx & Hnx & Heq). apply bind_Some in Heq as (nn & Hnn & [= <-]).
  assert (∃ j', nx = (k, j')) as [j' ->].
  { destruct (decide ((k, l) = (k, i))) as [Heq|Hne].
    - injection Heq as ->. rewrite lookup_insert_eq in Hn'. injection Hn' as <-. cbn in Hnx.
      rewrite Hj in Hnx. injection Hnx as <-. by eexists.
    - rewrite lookup_insert_ne in Hn' by done. rewrite Hnode in Hn'. injection Hn' as <-.
      rewrite Hj in Hnx. injection Hnx as <-. by eexists. }
  by rewrite !lookup_insert_ne by congruence.
Qed.

(** ** The search for a task *)

Definition unfinished (t : nat) : Prop := (1 ≤ t)%nat ∧ status !! (t - 1)%nat = Some false.

Lemma unfinished_le t : unfinished t → (t ≤ n)%nat.
Proof. intros [? Ht]. apply lookup_lt_Some in Ht. unfold n. lia. Qed.

Lemma finished_dec t : (1 ≤ t ≤ n)%nat → finished t ∨ unfinished t.
Proof.
  intros Ht. unfold finished, unfinished.
  destruct (lookup_lt_is_Some_2 status (t - 1)) as [[] ->]; [unfold n in Ht; lia|by left|].
  right. split; [lia|done].
Qed.

(** What a search from place [i] finds. *)
Definition first_from (i t : nat) : Prop :=
  (i ≤ t)%nat ∧ unfinished t ∧ ∀ u, (i ≤ u < t)%nat → (1 ≤ u)%nat → finished u.

Lemma finished_unfinished t : finished t → unfinished t → False.
Proof. unfold finished, unfinished. intros H1 [_ H2]. congruence. Qed.

(** Searching up to the end of the list: it ends at the first unfinished task, or
    at the head when there is none. *)
Lemma find_task_up fuel i h :
  list_ok h → (1 ≤ i ≤ n)%nat → (n < fuel + i)%nat →
  (∃ h' t, first_from i t ∧ find_task fuel (k, 0%nat) status (k, i) h = Some (h', (k, t)) ∧
     list_ok h') ∨
  (∃ h' fuel', (∀ u, (i ≤ u ≤ n)%nat → finished u) ∧ list_ok h' ∧ (fuel ≤ fuel' + (S n - i))%nat ∧
     find_task fuel (k, 0%nat) status (k, i) h = find_task fuel' (k, 0%nat) status (k, 0%nat) h').
Proof.
  revert i h. induction fuel as [|fuel IH]; intros i h Hok Hi Hfuel; [lia|].
  destruct (Hok i ltac:(lia)) as (node & j & l & Hnode & Hid & Hj & Hjn & Hsj & _).
  cbn [find_task]. rewrite decide_False by (intros [= ->]; lia). rewrite Hnode.
  cbn [mbind option_bind]. rewrite Hid.
  replace (Z.of_nat i - 1) with (Z.of_nat (i - 1)) by lia. rewrite zget_lookup.
  destruct (finished_dec i Hi) as [Hf|Hu].
  2: { left. destruct Hu as [? Hu]. rewrite Hu. cbn [mbind option_bind]. exists h, i.
       split; [|done]. split; [lia|]. split; [done|]. intros u ? ?. lia. }
  unfold finished in Hf. rewrite Hf. cbn [mbind option_bind].
  destruct (DeleteNode_ok h i Hok Hi Hf) as (h1 & -> & Hok1). cbn [mbind option_bind].
  destruct (Hok1 i ltac:(lia)) as (node1 & j1 & l1 & -> & _ & Hj1 & Hjn1 & Hsj1 & _).
  cbn [mbind option_bind]. rewrite Hj1. cbn [mbind option_bind].
  assert (∀ u, (i ≤ u < place j1)%nat → finished u) as Hskip.
  { intros u Hu. destruct (decide (u = i)) as [->|]; [done|]. apply Hsj1. lia. }
  unfold place in *. case_decide as Hz.
  - subst j1. right. exists h1, fuel. split_and!; [|done|lia|done].
    intros u Hu. apply Hskip. lia.
  - destruct Hsj1 as [Hlt _].
    destruct (IH j1 h1 Hok1) as [(h2 & t & (Ht1 & Ht2 & Ht3) & Heq & Hok2)|
      (h2 & fuel' & Hall & Hok2 & Hfuel' & Heq)]; [lia|lia|left|right].
    + exists h2, t. split; [|done]. split; [lia|]. split; [done|]. intros u Hu Hu1.
      destruct (decide (u < j1)%nat); [apply Hskip; lia|apply Ht3; lia].
    + exists h2, fuel'. split_and!; [|done|lia|done]. intros u Hu.
      destruct (decide (u < j1)%nat); [apply Hskip; lia|apply Hall; lia].
Qed.

(** From the head, the search finds the first unfinished task of all. *)
Lemma find_task_head fuel h u :
  list_ok h → unfinished u → (n + 1 < fuel)%nat →
  ∃ h' t, first_from 1 t ∧ find_task fuel (k, 0%nat) status (k, 0%nat) h = Some (h', (k, t)) ∧
    list_ok h'.
Proof.
  intros Hok Hu Hfuel. destruct fuel as [|fuel]; [lia|].
  destruct (Hok 0%nat ltac:(lia)) as (node & j & l & Hnode & Hid & Hj & Hjn & [Hlt Hsj] & _).
  cbn [find_task]. rewrite decide_True by done. rewrite Hnode. cbn [mbind option_bind].
  rewrite Hj. cbn [mbind option_bind]. pose proof (unfinished_le _ Hu) as Hun.
  assert (¬ finished u) as Hnf by (intros Hf; by eapply finished_unfinished).
  destruct Hu as [Hu1 Hu]. unfold place in *. case_decide as Hz.
  { exfalso. apply Hnf, Hsj. lia. }
  destruct (find_task_up fuel j h Hok) as [(h2 & t & (Ht1 & Ht2 & Ht3) & Heq & Hok2)|
      (h2 & fuel' & Hall & _)]; [lia|lia| |].
  - exists h2, t. split; [|done]. split; [destruct Ht2; lia|]. split; [done|]. intros v Hv _.
    destruct (decide (v < j)%nat); [apply Hsj; lia|apply Ht3; lia].
  - exfalso. apply Hnf. destruct (decide (u < j)%nat); [apply Hsj; lia|apply Hall; lia].
Qed.

(** The first unfinished task from place [i] on, going round. *)
Definition next_task (i t : nat) : Prop :=
  first_from i t ∨ (∀ u, (i ≤ u ≤ n)%nat → (1 ≤ u)%nat → finished u) ∧ first_from 1 t.

(** The search of [assignTask] ends, and hands out an unfinished task. *)
Lemma find_task_spec i h u :
  list_ok h → (i ≤ n)%nat → unfinished u →
  ∃ h' t, next_task i t ∧
    find_task (find_fuel status) (k, 0%nat) status (k, i) h = Some (h', (k, t)) ∧ list_ok h'.
Proof.
  intros Hok Hi Hu. assert (find_fuel status = 2 * n + 4)%nat as Hff by done.
  destruct (decide (i = 0%nat)) as [->|Hne].
  - destruct (find_task_head (find_fuel status) h u) as (h' & t & Ht & Heq & Hok'); [done..|lia|].
    exists h', t. split; [|done]. left. destruct Ht as (? & ? & Hall). split; [lia|].
    split; [done|]. intros v ? ?. apply Hall; lia.
  - destruct (find_task_up (find_fuel status) i h Hok) as [(h2 & t & Ht & Heq & Hok2)|
      (h2 & fuel' & Hall & Hok2 & Hfuel' & ->)]; [lia|lia| |].
    + exists h2, t. split; [by left|done].
    + destruct (find_task_head fuel' h2 u) as (h' & t & Ht & Heq & Hok'); [done..|lia|].
      exists h', t. split; [|done]. right. split; [|done]. intros v ? ?. apply Hall. lia.
Qed.

(** Every pointer of the result is again one of the list. *)
Lemma find_task_other fuel head p i h h' k' i' :
  list_ok h → (i ≤ n)%nat → head = (k, 0%nat) →
  find_task fuel head status (k, i) h = Some (h', p) → k' ≠ k → h' !! (k', i') = h !! (k', i').
Proof.
  intros Hok Hi -> Heq Hk. revert i h Hok Hi Heq.
  induction fuel as [|fuel IH]; intros i h Hok Hi Heq; [done|]. cbn [find_task] in Heq.
  destruct (Hok i Hi) as (node & j & l & Hnode & Hid & Hj & Hjn & _).
  case_decide as Hd.
  - injection Hd as ->. rewrite Hnode in Heq. cbn [mbind option_bind] in Heq. rewrite Hj in Heq.
    by apply (IH j h).
  - rewrite Hnode in Heq. cbn [mbind option_bind] in Heq.
    assert (1 ≤ i)%nat as Hi1 by (destruct i; [done|lia]).
    rewrite Hid in Heq. replace (Z.of_nat i - 1) with (Z.of_nat (i - 1)) in Heq by lia.
    rewrite zget_lookup in Heq. apply bind_Some in Heq as ([] & Hfin & Heq).
    + destruct (DeleteNode_ok h i Hok) as (h1 & Hdel & Hok1); [lia|done|].
      rewrite Hdel in Heq. cbn [mbind option_bind] in Heq.
      destruct (Hok1 i Hi) as (node1 & j1 & l1 & Hn1 & _ & Hj1 & Hjn1 & _).
      rewrite Hn1 in Heq. cbn [mbind option_bind] in Heq. rewrite Hj1 in Heq.
      rewrite (IH j1 h1 Hok1 Hjn1 Heq). by apply (DeleteNode_other h i h1).
    + by injection Heq as <- <-.
Qed.
End list.

(** ** Building the lists *)

(** The [n] tasks of list [k] are linked in order. *)
Definition chain (k : kind) (n : nat) (h : heap) : Prop :=
  ∀ i, (i ≤ n)%nat →
    h !! (k, i) = Some (mkNode (Z.of_nat i - 1)
      (Some (k, if decide (i = n) then 0%nat else S i))
      (Some (k, if decide (i = 0%nat) then n else (i - 1)%nat))).

Lemma chain_list_ok k status h : chain k (length status) h → list_ok k status h.
Proof.
  intros Hc i Hi. eexists _, (if decide (i = length status) then 0%nat else S i),
    (if decide (i = 0%nat) then length status else (i - 1)%nat).
  split; [by apply Hc|]. split; [done|]. cbn [next prev]. unfold place, skips.
  repeat case_decide; split_and!; try done; try lia; intros t Ht; lia.
Qed.

Lemma AddNode_chain k n h :
  chain k n h →
  ∃ h', AddNode (k, 0%nat) (k, S n) (<[(k, S n) := mkNode (Z.of_nat n) None None]> h) = Some h' ∧
    chain k (S n) h' ∧ ∀ k' i, k' ≠ k → h' !! (k', i) = h !! (k', i).
Proof.
  intros Hc. unfold AddNode.
  rewrite lookup_insert_ne by congruence. rewrite (Hc 0%nat) by lia.
  cbn [mbind option_bind prev]. rewrite (decide_True (P := (0 = 0)%nat)) by done. cbn [mbind option_bind].
  rewrite lookup_insert_ne by (intros ?; simplify_eq; try lia). rewrite (Hc n) by lia.
  cbn [mbind option_bind].
  rewrite lookup_insert_ne by (intros ?; simplify_eq; try lia). rewrite lookup_insert_eq. cbn [mbind option_bind].
  rewrite lookup_insert_ne by congruence.
  destruct (decide (n = 0%nat)) as [->|Hn].
  - rewrite lookup_insert_eq. cbn [mbind option_bind]. eexists. split; [done|]. split.
    + intros i Hi. destruct (decide (i = 0%nat)) as [->|].
      * rewrite lookup_insert_eq. done.
      * assert (i = 1%nat) as -> by lia. rewrite lookup_insert_ne by congruence. by rewrite lookup_insert_eq.
    + intros k' i Hk. by rewrite !lookup_insert_ne by congruence.
  - rewrite !lookup_insert_ne by (intros ?; simplify_eq; try lia). rewrite (Hc 0%nat) by lia.
    cbn [mbind option_bind]. eexists. split; [done|]. split.
    + intros i Hi. destruct (decide (i = 0%nat)) as [->|].
      { rewrite lookup_insert_eq. cbn. by rewrite decide_False by lia. }
      rewrite lookup_insert_ne by congruence. destruct (decide (i = S n)) as [->|].
      { rewrite lookup_insert_eq. replace (Z.of_nat (S n) - 1) with (Z.of_nat n) by lia.
        by replace (S n - 1)%nat with n by lia. }
      rewrite lookup_insert_ne by congruence. destruct (decide (i = n)) as [->|].
      { rewrite lookup_insert_eq. done. }
      rewrite !lookup_insert_ne by congruence. rewrite (Hc i) by lia.
      by rewrite !decide_False by lia.
    + intros k' i Hk. by rewrite !lookup_insert_ne by congruence.
Qed.

Lemma add_tasks_chain k n h :
  chain k 0 h →
  ∃ h', add_tasks k n h = Some h' ∧ chain k n h' ∧ ∀ k' i, k' ≠ k → h' !! (k', i) = h !! (k', i).
Proof.
  intros Hc. unfold add_tasks.
  assert (∀ m a h, chain k a h → ∃ h', foldM (λ h i, AddNode (k, 0%nat) (k, S i)
    (<[(k, S i) := mkNode (Z.of_nat i) None None]> h)) h (seq a m) = Some h' ∧
    chain k (a + m) h' ∧ ∀ k' i, k' ≠ k → h' !! (k', i) = h !! (k', i)) as Hgen; [|by apply Hgen].
  clear. induction m as [|m IH]; intros a h Hc; cbn [seq foldM].
  - exists h. by rewrite Nat.add_0_r.
  - destruct (AddNode_chain k a h Hc) as (h1 & -> & Hc1 & Ho1). cbn [mbind option_bind].
    destruct (IH (S a) h1 Hc1) as (h2 & -> & Hc2 & Ho2). exists h2. split; [done|].
    rewrite Nat.add_succ_r. split; [done|]. intros k' i Hk. by rewrite Ho2, Ho1.
Qed.

(** ** The master *)

Record master_ok (m : Master) : Prop := {
  mk_map : list_ok KMap m.(MapStatus) m.(hp);
  mk_reduce : list_ok KReduce m.(ReduceStatus) m.(hp);
  mk_files : length m.(MapTasks) = length m.(MapStatus);
  mk_workers : length m.(ReduceTasks) = length m.(MapStatus);
  mk_mapf : m.(MapFinished) = Z.of_nat (count_if negb m.(MapStatus));
  mk_redf : m.(ReduceFinished) = Z.of_nat (count_if negb m.(ReduceStatus));
  mk_mapp : 0 < m.(MapFinished) →
    ∃ i, m.(MapPointer) = (KMap, i) ∧ (i ≤ length m.(MapStatus))%nat;
  mk_redp : ∃ i, m.(ReducePointer) = (KReduce, i) ∧ (i ≤ 1)%nat
}.

Lemma count_unfinished status :
  0 < Z.of_nat (count_if negb status) → ∃ t, unfinished status t.
Proof.
  intros Hc. destruct (decide (Exists (λ b, b = false) status)) as [He|He].
  - apply Exists_exists in He as (b & Hb & ->). apply list_elem_of_lookup in Hb as [i Hi].
    exists (S i). split; [lia|]. by replace (S i - 1)%nat with i by lia.
  - apply not_Exists_Forall in He; [|apply _]. rewrite count_if_none in Hc; [lia|].
    eapply Forall_impl; [done|]. intros [] Hb; [done|]. by destruct Hb.
Qed.

Lemma count_finished status :
  count_if negb status = 0%nat ↔ Forall (λ b, b = true) status.
Proof.
  unfold count_if. induction status as [|[] status IH]; cbn; [done|..].
  - rewrite IH, Forall_cons. intuition.
  - rewrite Forall_cons. split; [done|]. by intros [? _].
Qed.

(** Finishing a task that was not. *)
Lemma count_finish status i :
  status !! i = Some false →
  Z.of_nat (count_if negb (<[i := true]> status)) = Z.of_nat (count_if negb status) - 1.
Proof.
  intros Hi. rewrite <- (take_drop_middle status i false Hi) at 2.
  rewrite insert_take_drop by (by eapply lookup_lt_Some).
  rewrite !count_if_app. unfold count_if. cbn. lia.
Qed.

Lemma list_ok_finish k status i h :
  list_ok k status h → list_ok k (<[i := true]> status) h.
Proof.
  assert (∀ t, finished status t → finished (<[i := true]> status) t) as Hmono.
  { intros t Ht. unfold finished in *. destruct (decide (i = t - 1)%nat) as [->|].
    - apply list_lookup_insert_eq. by eapply lookup_lt_Some.
    - by rewrite list_lookup_insert_ne. }
  intros Hok i' Hi'. rewrite length_insert in Hi'.
  destruct (Hok i' Hi') as (node & j & l & H1 & H2 & H3 & H4 & [H5 H5'] & H6 & H7 & [H8 H8']).
  exists node, j, l. unfold skips, place in *. rewrite length_insert.
  split_and!; try done; try lia; auto.
Qed.

Definition valid_args (args : StateArgs.t) (m : Master) : Prop :=
  args.(StateArgs.Finished) = true →
  (args.(StateArgs.Cat) = 1 → 0 ≤ args.(StateArgs.TaskId) < zlen m.(MapStatus)) ∧
  (args.(StateArgs.Cat) = 2 → 0 ≤ args.(StateArgs.TaskId) < zlen m.(ReduceStatus)).

Lemma report_ok args m :
  master_ok m → valid_args args m → ∃ m', report args m = Some m' ∧ master_ok m'.
Proof.
  intros Hok Hva. unfold report. destruct (StateArgs.Finished args) eqn:Hf; [|by exists m].
  destruct (Hva Hf) as [Hmap Hred]. set (id := StateArgs.TaskId args) in *.
  destruct (Z.eqb_spec (StateArgs.Cat args) 1) as [H1|H1].
  - destruct (zget_lt m.(MapStatus) id) as [[] Hid]; [auto|..]; rewrite Hid; cbn [mbind option_bind negb].
    { rewrite H1. cbn. by exists m. }
    specialize (Hmap H1). rewrite (zset_lt _ _ _ Hmap). cbn [mbind option_bind].
    rewrite zset_lt by (pose proof (mk_workers _ Hok); unfold zlen in *; lia). cbn [mbind option_bind].
    eexists. split; [done|].
    assert (m.(MapStatus) !! Z.to_nat id = Some false) as Hst.
    { rewrite <- zget_lookup, Z2Nat.id by lia. done. }
    destruct Hok. split; cbn -[count_if Z.of_nat]; try done; try by rewrite ?length_insert.
    + by apply list_ok_finish.
    + rewrite mk_mapf0. by rewrite (count_finish _ _ Hst).
    + intros Hpos. rewrite length_insert. apply mk_mapp0. lia.
  - cbn [mbind option_bind negb].
    destruct (Z.eqb_spec (StateArgs.Cat args) 2) as [H2|H2]; [|by exists m].
    destruct (zget_lt m.(ReduceStatus) id) as [[] Hid]; [auto|..]; rewrite Hid; cbn [mbind option_bind negb];
      [by exists m|].
    specialize (Hred H2). rewrite (zset_lt _ _ _ Hred). cbn [mbind option_bind].
    eexists. split; [done|].
    assert (m.(ReduceStatus) !! Z.to_nat id = Some false) as Hst.
    { rewrite <- zget_lookup, Z2Nat.id by lia. done. }
    destruct Hok. split; cbn -[count_if Z.of_nat]; try done.
    + by apply list_ok_finish.
    + rewrite mk_redf0. by rewrite (count_finish _ _ Hst).
Qed.

(** [l'] is [l] with [x] at the index [i]. *)
Definition set_at {A} (i : Z) (x : A) (l l' : list A) : Prop :=
  length l' = length l ∧ zget l' i = Some x ∧ ∀ j, j ≠ i → zget l' j = zget l j.

Lemma zset_set_at {A} (l l' : list A) i x : zset l i x = Some l' → set_at i x l l'.
Proof.
  intros Hs. pose proof Hs as [Hi ->]%zset_Some. split; [apply length_insert|].
  split; [by eapply zget_zset_eq|]. intros j Hj. by eapply zget_zset_ne.
Qed.

(** What a report changes: the first of a task that is finished. *)
Definition reported (args : StateArgs.t) (m m' : Master) : Prop :=
  let id := args.(StateArgs.TaskId) in
  let first status := args.(StateArgs.Finished) ∧ zget status id = Some false in
  (args.(StateArgs.Cat) = 1 ∧ first m.(MapStatus) →
     set_at id true m.(MapStatus) m'.(MapStatus) ∧ m'.(MapFinished) = m.(MapFinished) - 1 ∧
     set_at id args.(StateArgs.WorkerId) m.(ReduceTasks) m'.(ReduceTasks) ∧
     m' = m <| MapStatus := m'.(MapStatus) |> <| MapFinished := m'.(MapFinished) |>
            <| ReduceTasks := m'.(ReduceTasks) |>) ∧
  (args.(StateArgs.Cat) = 2 ∧ first m.(ReduceStatus) →
     set_at id true m.(ReduceStatus) m'.(ReduceStatus) ∧
     m'.(ReduceFinished) = m.(ReduceFinished) - 1 ∧
     m'.(renames) = m.(renames) ++ [(args.(StateArgs.FileName), "mr-out-" +:+ pretty id)] ∧
     m' = m <| ReduceStatus := m'.(ReduceStatus) |> <| ReduceFinished := m'.(ReduceFinished) |>
            <| renames := m'.(renames) |>) ∧
  (¬ (args.(StateArgs.Cat) = 1 ∧ first m.(MapStatus)) →
   ¬ (args.(StateArgs.Cat) = 2 ∧ first m.(ReduceStatus)) → m' = m).

Lemma report_reported args m m' : report args m = Some m' → reported args m m'.
Proof.
  unfold report, reported. destruct (StateArgs.Finished args).
  2: { intros [= <-]. by split_and!; [intros (_ & [] & _)..|]. }
  destruct (Z.eqb_spec (StateArgs.Cat args) 1) as [H1|H1].
  - rewrite H1. destruct (zget (MapStatus m) _) as [[]|] eqn:Hst; cbn [mbind option_bind negb Z.eqb Pos.eqb].
    + intros [= <-]. split_and!; [by intros (_ & _ & ?)|by intros [? _]|done].
    + intros Heq. unbind. split_and!; [|by intros [? _]|intros Hno; by destruct Hno].
      intros _. split_and!; [by apply zset_set_at|done|by apply zset_set_at|done].
    + done.
  - cbn [mbind option_bind negb]. destruct (Z.eqb_spec (StateArgs.Cat args) 2) as [H2|H2].
    2: { intros [= <-]. by split_and!; [intros [? _]..|]. }
    destruct (zget (ReduceStatus m) _) as [[]|] eqn:Hst; cbn [mbind option_bind negb].
    + intros [= <-]. split_and!; [by intros [? _]|by intros (_ & _ & ?)|done].
    + intros Heq. unbind. split_and!; [by intros [? _]| |intros _ Hno; by destruct Hno].
      intros _. split_and!; [by apply zset_set_at|done..].
    + done.
Qed.

(** What an idle worker is told. *)
Definition assigned (m m' : Master) (reply : StateReply.t) : Prop :=
  if 0 <? m.(MapFinished) then
    ∃ i t, m.(MapPointer) = (KMap, i) ∧ next_task m.(MapStatus) i t ∧
      reply.(StateReply.Cat) = 1 ∧ reply.(StateReply.TaskId) = Z.of_nat t - 1 ∧
      zget m.(MapTasks) (Z.of_nat t - 1) = Some reply.(StateReply.FileName) ∧
      ∃ j, m'.(MapPointer) = (KMap, j) ∧ skips m.(MapStatus) t (place m.(MapStatus) j)
  else if 0 <? m.(ReduceFinished) then
    ∃ t, first_from m.(ReduceStatus) 1 t ∧
      reply.(StateReply.Cat) = 2 ∧ reply.(StateReply.TaskId) = Z.of_nat t - 1 ∧
      reply.(StateReply.MapCount) = zlen m.(MapStatus) ∧
      reply.(StateReply.FileNames) = m.(ReduceTasks)
  else reply.(StateReply.Cat) = 0.

(** What a request leaves alone. *)
Definition same_job (m m' : Master) : Prop :=
  m'.(MapStatus) = m.(MapStatus) ∧ m'.(ReduceStatus) = m.(ReduceStatus) ∧
  m'.(MapFinished) = m.(MapFinished) ∧ m'.(ReduceFinished) = m.(ReduceFinished) ∧
  m'.(ReduceTasks) = m.(ReduceTasks) ∧ m'.(MapTasks) = m.(MapTasks).

Lemma list_ok_other k status h h' :
  list_ok k status h → (∀ i, h' !! (k, i) = h !! (k, i)) → list_ok k status h'.
Proof.
  intros Hok Heq i Hi. destruct (Hok i Hi) as (node & j & l & H1 & H2). exists node, j, l.
  by rewrite Heq.
Qed.

Lemma assignTask_ok reply m :
  master_ok m →
  ∃ m' reply', assignTask reply m = Some (m', reply') ∧ master_ok m' ∧ same_job m m' ∧
    assigned m m' reply'.
Proof.
  intros Hok. pose proof Hok as []. unfold assignTask, assigned.
  destruct (Z.ltb_spec 0 (MapFinished m)) as [Hm|Hm].
  - destruct (mk_mapp0 Hm) as (i & Hp & Hi). destruct (count_unfinished m.(MapStatus)) as [u Hu]; [lia|].
    destruct (find_task_spec KMap m.(MapStatus) i m.(hp) u) as (h' & t & Ht & Heq & Hok'); [done..|].
    rewrite Hp. unfold MapHead. rewrite Heq. cbn [mbind option_bind].
    assert (unfinished m.(MapStatus) t) as Hut by (destruct Ht as [[_ [? _]]|[_ [_ [? _]]]]; done).
    pose proof (unfinished_le _ _ Hut) as Htn.
    destruct (Hok' t Htn) as (node & j & l & -> & Hid & Hj & Hjn & Hsj & _). cbn [mbind option_bind].
    rewrite Hj, Hid. cbn [mbind option_bind].
    destruct (zget_lt m.(MapTasks) (Z.of_nat t - 1)) as [file Hfile].
    { unfold zlen. destruct Hut. lia. }
    rewrite Hfile. cbn [mbind option_bind]. eexists _, _. split; [done|]. split; [|split; [done|]].
    + split; try done; cbn.
      * apply (list_ok_other KReduce _ m.(hp)); [done|]. intros i'.
        by apply (find_task_other KMap m.(MapStatus) (find_fuel m.(MapStatus)) (KMap, 0%nat)
          (KMap, t) i m.(hp)).
      * intros _. by exists j.
    + exists i, t. split_and!; try done. by exists j.
  - destruct (Z.ltb_spec 0 (ReduceFinished m)) as [Hr|Hr].
    + destruct mk_redp0 as (i & Hp & Hi).
      destruct (count_unfinished m.(ReduceStatus)) as [u Hu]; [lia|].
      pose proof (unfinished_le _ _ Hu) as Hun.
      destruct (find_task_spec KReduce m.(ReduceStatus) i m.(hp) u) as (h' & t & Ht & Heq & Hok');
        [done|destruct Hu; lia|done|].
      rewrite Hp. unfold ReduceHead. rewrite Heq. cbn [mbind option_bind].
      assert (first_from m.(ReduceStatus) 1 t) as Hft.
      { destruct Ht as [(H1 & H2 & H3)|[_ ?]]; [|done]. split; [by destruct H2|]. split; [done|].
        intros v ? ?. apply H3; lia. }
      destruct Hft as (? & Hut & ?). pose proof (unfinished_le _ _ Hut) as Htn.
      destruct (Hok' t Htn) as (node & j & l & -> & Hid & Hj & Hjn & Hsj & _). cbn [mbind option_bind].
      rewrite Hj, Hid. cbn [mbind option_bind].
      eexists _, _. split; [done|]. split; [|split; [done|]].
      * split; try done; cbn; [|lia|by exists i].
        apply (list_ok_other KMap _ m.(hp)); [done|]. intros i'.
        by apply (find_task_other KReduce m.(ReduceStatus) (find_fuel m.(ReduceStatus))
          (KReduce, 0%nat) (KReduce, t) i m.(hp)); [|lia|..].
      * by exists t.
    + eexists _, _. done.
Qed.

Lemma Done_spec m :
  master_ok m →
  Done m = true ↔ Forall (λ b, b = true) m.(MapStatus) ∧ Forall (λ b, b = true) m.(ReduceStatus).
Proof.
  intros []. unfold Done. rewrite andb_true_iff, !Z.eqb_eq, mk_mapf0, mk_redf0.
  rewrite <- !count_finished. lia.
Qed.

Lemma MakeMaster_ok files nReduce :
  ∃ m, MakeMaster files nReduce = Some m ∧ master_ok m ∧ m.(MapTasks) = files ∧
    m.(MapStatus) = replicate (length files) false ∧ m.(ReduceStatus) = replicate nReduce false.
Proof.
  unfold MakeMaster.
  destruct (InitHead MapHead new_heads ≫= InitHead ReduceHead) as [h0|] eqn:H0;
    [|by vm_compute in H0].
  assert (chain KMap 0 h0 ∧ chain KReduce 0 h0) as [Hcm Hcr].
  { vm_compute in H0. injection H0 as <-.
    split; intros i Hi; assert (i = 0%nat) as -> by lia; done. }
  apply bind_Some in H0 as (h1 & -> & H0). cbn [mbind option_bind]. rewrite H0.
  cbn [mbind option_bind].
  destruct (add_tasks_chain KMap (length files) h0 Hcm) as (h2 & -> & Hc2 & Ho2).
  cbn [mbind option_bind].
  assert (chain KReduce 0 h2) as Hcr2.
  { intros i Hi. rewrite Ho2 by done. by apply Hcr. }
  destruct (add_tasks_chain KReduce nReduce h2 Hcr2) as (h3 & -> & Hc3 & Ho3).
  cbn [mbind option_bind].
  assert (chain KMap (length files) h3) as Hc2'.
  { intros i Hi. rewrite Ho3 by done. by apply Hc2. }
  unfold MapHead, ReduceHead. rewrite (Hc2' 0%nat), (Hc3 0%nat) by lia. cbn [mbind option_bind next].
  eexists. split; [done|]. split; [|done].
  assert (∀ n, count_if negb (replicate n false) = n) as Hcount.
  { intros n. rewrite count_if_all; [apply length_replicate|]. by apply Forall_replicate. }
  split; cbn -[Z.of_nat count_if]; rewrite ?length_replicate, ?Hcount; try done.
  - apply chain_list_ok. by rewrite length_replicate.
  - apply chain_list_ok. by rewrite length_replicate.
  - intros _. eexists. split; [done|]. case_decide; lia.
  - eexists. split; [done|]. case_decide; lia.
Qed.

(** ** The properties *)

Lemma assignTask_frame reply m m' reply' :
  assignTask reply m = Some (m', reply') →
  renames m' = renames m ∧ workers m' = workers m ∧ MNreduce m' = MNreduce m ∧
  reply'.(StateReply.WorkerId) = reply.(StateReply.WorkerId) ∧
  (reply'.(StateReply.Cat) ≠ 0 → reply'.(StateReply.Nreduce) = MNreduce m).
Proof.
  unfold assignTask. case_match.
  - destruct (find_task _ _ _ _ _) as [[h task]|]; cbn [mbind option_bind]; [|done].
    destruct (h !! task) as [n|]; cbn [mbind option_bind]; [|done].
    destruct (next n); cbn [mbind option_bind]; [|done].
    destruct (zget _ _); cbn [mbind option_bind]; [|done]. by intros [= <- <-].
  - case_match.
    + destruct (find_task _ _ _ _ _) as [[h task]|]; cbn [mbind option_bind]; [|done].
      destruct (h !! task) as [n|]; cbn [mbind option_bind]; [|done].
      destruct (next n); cbn [mbind option_bind]; [|done]. by intros [= <- <-].
    + by intros [= <- <-].
Qed.

Lemma report_workers args m m' : report args m = Some m' → m'.(workers) = m.(workers).
Proof.
  unfold report. destruct (StateArgs.Finished args); [|by intros [= <-]].
  intros (b & _ & Heq)%bind_Some. destruct b; cbn [negb] in Heq; [|by unbind].
  apply bind_Some in Heq as (b & _ & Heq). destruct b; cbn [negb] in Heq; by unbind.
Qed.

(** [assignTask] on behalf of a worker *)
Lemma assign_told r m :
  master_ok m →
  ∃ m' reply, assignTask r m = Some (m', reply) ∧ master_ok m' ∧ same_job m m' ∧
    m'.(renames) = m.(renames) ∧ m'.(workers) = m.(workers) ∧
    reply.(StateReply.WorkerId) = r.(StateReply.WorkerId) ∧ assigned m m' reply ∧
    (reply.(StateReply.Cat) = 2 → Forall (λ b, b = true) m'.(MapStatus)).
Proof.
  intros Hok. destruct (assignTask_ok r m Hok) as (m' & reply & Heq & Hok' & Hs & Ha).
  pose proof (assignTask_frame _ _ _ _ Heq) as (Hr & Hw & _ & Hid & _).
  exists m', reply. split_and!; try done. intros Hcat. destruct Hs as (-> & _). unfold assigned in Ha.
  case_match; [destruct Ha as (? & ? & _ & _ & Hcat' & _); congruence|]. to_prop.
  apply count_finished. pose proof (mk_mapf _ Hok). lia.
Qed.

(** C29: The master never fails and never loops: in a well-formed state ([MakeMaster]
    makes one) the handler returns on every report of an existing task, and leaves a
    well-formed state.
    The first report of a finished map task marks it, counts it off and records the
    worker as the one whose output of the task counts; the first one of a finished reduce
    task marks it, counts it off and renames the worker's file; any other report
    changes nothing.  An idle worker gets a number of its own if it has none, and is
    told an unfinished map task (the next one from the task pointer, going round) while
    there is one, then the first unfinished reduce task together with the workers whose
    map output counts, and only then that there is nothing to do; a worker that is not
    idle is told nothing.  Reduce tasks are handed out only when every map task is
    finished, and the job is done exactly when all tasks are. *)
Theorem RequestHandler_correct args m :
  master_ok m → valid_args args m →
  ∃ m1 m' reply, reported args m m1 ∧ RequestHandler args m = Some (m', reply) ∧
    master_ok m' ∧ same_job m1 m' ∧ m'.(renames) = m1.(renames) ∧
    (let new := args.(StateArgs.Idle) && (args.(StateArgs.WorkerId) =? 0) in
     m'.(workers) = (if new then m.(workers) + 1 else m.(workers)) ∧
     reply.(StateReply.WorkerId) = (if new then m.(workers) + 1 else args.(StateArgs.WorkerId))) ∧
    (if args.(StateArgs.Idle) then assigned m1 m' reply
     else m' = m1 ∧ reply = StateReply.zero <| StateReply.WorkerId := args.(StateArgs.WorkerId) |>) ∧
    (reply.(StateReply.Cat) = 2 → Forall (λ b, b = true) m'.(MapStatus)) ∧
    (Done m' = true ↔
       Forall (λ b, b = true) m'.(MapStatus) ∧ Forall (λ b, b = true) m'.(ReduceStatus)).
Proof.
  intros Hok Hva. destruct (report_ok args m Hok Hva) as (m1 & Hrep & Hok1).
  pose proof (report_reported _ _ _ Hrep) as Hreported.
  assert (m1.(workers) = m.(workers)) as Hw by by apply (report_workers args).
  exists m1. unfold RequestHandler. rewrite Hrep. cbn [mbind option_bind].
  destruct (StateArgs.Idle args); cbn [andb].
  2: { eexists _, _. split; [done|]. split; [done|]. split_and!; try done; by apply Done_spec. }
  rewrite Hw. destruct (Z.eqb_spec (StateArgs.WorkerId args) 0) as [H0|H0].
  - destruct (assign_told (StateReply.zero <| StateReply.WorkerId := StateArgs.WorkerId args |>
      <| StateReply.WorkerId := m.(workers) + 1 |>) (m1 <| workers := m.(workers) + 1 |>))
      as (m' & reply & Heq & Hok' & Hs & Hr & Hw' & Hid & Ha & Hred); [destruct Hok1; by split|].
    exists m', reply. split_and!; try done; by apply Done_spec.
  - destruct (assign_told (StateReply.zero <| StateReply.WorkerId := StateArgs.WorkerId args |>) m1)
      as (m' & reply & Heq & Hok' & Hs & Hr & Hw' & Hid & Ha & Hred); [done|].
    exists m', reply. split_and!; try done; [congruence|by apply Done_spec..].
Qed.

(** Map tasks go round: two workers that ask one after the other during the map
    phase get different tasks, unless only one is unfinished. *)
Theorem map_tasks_rotate r1 r2 m m1 m2 a b u v :
  master_ok m → 0 < m.(MapFinished) →
  unfinished m.(MapStatus) u → unfinished m.(MapStatus) v → u ≠ v →
  assignTask r1 m = Some (m1, a) → assignTask r2 m1 = Some (m2, b) →
  a.(StateReply.TaskId) ≠ b.(StateReply.TaskId).
Proof.
  intros Hok Hpos Hu Hv Huv H1 H2.
  destruct (assignTask_ok r1 m Hok) as (m1' & a' & Heq1 & Hok1 & Hs1 & Ha). simplify_eq.
  destruct (assignTask_ok r2 m1 Hok1) as (m2' & b' & Heq2 & _ & _ & Hb). simplify_eq.
  unfold assigned in *. destruct Hs1 as (Hst & _ & Hmf & _). rewrite Hmf, Hst in Hb.
  destruct (Z.ltb_spec 0 (MapFinished m)); [|lia].
  destruct Ha as (i & t & _ & _ & _ & Hida & _ & j & Hp & Hsk).
  destruct Hb as (i' & t' & Hp' & Hnext & _ & Hidb & _). rewrite Hp in Hp'. injection Hp' as <-.
  rewrite Hida, Hidb. intros Heq. assert (t' = t) as -> by lia.
  assert (∃ w, unfinished m.(MapStatus) w ∧ w ≠ t) as (w & Hw & Hwt).
  { destruct (decide (u = t)) as [->|]; [by exists v|by exists u]. }
  eapply finished_unfinished; [|exact Hw].
  pose proof (unfinished_le _ _ Hw) as Hwn. destruct Hw as [Hw1 _].
  destruct Hsk as [Hlt Hsk]. unfold place in *.
  destruct (decide (w < t)%nat) as [Hwlt|Hwge].
  - destruct Hnext as [(Hle & _ & Hall)|[_ (_ & _ & Hall)]]; [|apply Hall; lia].
    case_decide; [apply Hall; lia|lia].
  - case_decide; [apply Hsk; lia|].
    destruct (decide (w < j)%nat); [apply Hsk; lia|].
    destruct Hnext as [(Hle & _)|[Hall _]]; [lia|]. apply Hall; lia.
Qed.

(** Reduce tasks do not go round: the reduce branch moves the pointer of the map
    list, so until the first unfinished reduce task is reported every idle
    worker is told that same task. *)
Theorem reduce_tasks_do_not_rotate r1 r2 m m1 m2 a b :
  master_ok m → m.(MapFinished) = 0 → 0 < m.(ReduceFinished) →
  assignTask r1 m = Some (m1, a) → assignTask r2 m1 = Some (m2, b) →
  a.(StateReply.Cat) = 2 ∧ b.(StateReply.Cat) = 2 ∧
  a.(StateReply.TaskId) = b.(StateReply.TaskId).
Proof.
  intros Hok H0 Hpos H1 H2.
  destruct (assignTask_ok r1 m Hok) as (m1' & a' & Heq1 & Hok1 & Hs1 & Ha). simplify_eq.
  destruct (assignTask_ok r2 m1 Hok1) as (m2' & b' & Heq2 & _ & _ & Hb). simplify_eq.
  unfold assigned in *. destruct Hs1 as (_ & Hst & Hmf & Hrf & _). rewrite Hmf, Hst, Hrf in Hb.
  rewrite H0 in *. destruct (Z.ltb_spec 0 0); [lia|].
  destruct (Z.ltb_spec 0 (ReduceFinished m)); [|lia].
  destruct Ha as (t & (Ht1 & Htu & Htall) & Ca & Ida & _).
  destruct Hb as (t' & (Ht1' & Htu' & Htall') & Cb & Idb & _).
  split; [done|]. split; [done|]. assert (t = t') as ->; [|lia].
  destruct (Nat.lt_trichotomy t t') as [Hlt|[?|Hlt]]; [exfalso|done|exfalso].
  - eapply finished_unfinished; [|exact Htu]. apply Htall'; lia.
  - eapply finished_unfinished; [|exact Htu']. apply Htall; lia.
Qed.

(** ** Concrete inputs *)

Definition ex_master : Master :=
  default (mkMaster ∅ [] [] [] [] 0 0 0 MapHead ReduceHead 0 []) (MakeMaster ["a"; "b"; "c"] 2).

Lemma ex_master_ok : master_ok ex_master.
Proof.
  destruct (MakeMaster_ok ["a"; "b"; "c"] 2) as (m & Heq & Hok & _). unfold ex_master.
  by rewrite Heq.
Defined.

(** A worker that finished map task 1 asks for another. *)
Definition ex_report : StateArgs.t := StateArgs.mk 1 1 true true 4 "".

Lemma RequestHandler_correct_witness :
  ∃ m' reply, RequestHandler ex_report ex_master = Some (m', reply) ∧
    reply.(StateReply.TaskId) = 0 ∧ m'.(MapStatus) = [false; true; false] ∧ Done m' = false.
Proof.
  destruct (RequestHandler_correct ex_report ex_master ex_master_ok)
    as (m1 & m' & reply & _ & Heq & _).
  - intros _. split; intros Hc; vm_compute in Hc |- *; [done|discriminate].
  - exists m', reply. split; [exact Heq|]. vm_compute in Heq. by injection Heq as <- <-.
Defined.

Lemma map_tasks_rotate_witness :
  ∃ m1 m2 a b, assignTask StateReply.zero ex_master = Some (m1, a) ∧
    assignTask StateReply.zero m1 = Some (m2, b) ∧ a.(StateReply.TaskId) ≠ b.(StateReply.TaskId).
Proof.
  destruct (assignTask StateReply.zero ex_master) as [[m1 a]|] eqn:H1; [|by vm_compute in H1].
  destruct (assignTask StateReply.zero m1) as [[m2 b]|] eqn:H2.
  2: { vm_compute in H1. injection H1 as <- <-. by vm_compute in H2. }
  exists m1, m2, a, b. split; [done|]. split; [done|].
  apply (map_tasks_rotate StateReply.zero StateReply.zero ex_master m1 m2 a b 1 2).
  - exact ex_master_ok.
  - by vm_compute.
  - split; [lia|by vm_compute].
  - split; [lia|by vm_compute].
  - done.
  - exact H1.
  - exact H2.
Defined.

(** The same master with every map task finished. *)
Definition ex_reducing : Master :=
  default ex_master (foldM (λ m i, report (StateArgs.mk 1 i true false 4 "") m) ex_master [0; 1; 2]).

Lemma ex_reducing_ok : master_ok ex_reducing.
Proof.
  unfold ex_reducing. cbn [foldM].
  assert (∀ i m, 0 ≤ i < 3 → zlen m.(MapStatus) = 3 → valid_args (StateArgs.mk 1 i true false 4 "") m) as Hva.
  { intros i m Hi Hl _. split; [intros _; cbn; lia|done]. }
  destruct (report_ok (StateArgs.mk 1 0 true false 4 "") ex_master) as (m1 & H1 & Hok1);
    [exact ex_master_ok|apply Hva; by vm_compute|].
  rewrite H1. cbn [mbind option_bind].
  destruct (report_ok (StateArgs.mk 1 1 true false 4 "") m1) as (m2 & H2 & Hok2);
    [exact Hok1|apply Hva; [lia|vm_compute in H1; injection H1 as <-; by vm_compute]|].
  rewrite H2. cbn [mbind option_bind].
  destruct (report_ok (StateArgs.mk 1 2 true false 4 "") m2) as (m3 & H3 & Hok3).
  - exact Hok2.
  - apply Hva; [lia|]. vm_compute in H1. injection H1 as <-. vm_compute in H2. injection H2 as <-.
    by vm_compute.
  - by rewrite H3.
Defined.

Lemma reduce_tasks_do_not_rotate_witness :
  ∃ m1 m2 a b, assignTask StateReply.zero ex_reducing = Some (m1, a) ∧
    assignTask StateReply.zero m1 = Some (m2, b) ∧ a.(StateReply.TaskId) = b.(StateReply.TaskId).
Proof.
  destruct (assignTask StateReply.zero ex_reducing) as [[m1 a]|] eqn:H1; [|by vm_compute in H1].
  destruct (assignTask StateReply.zero m1) as [[m2 b]|] eqn:H2.
  2: { vm_compute in H1. injection H1 as <- <-. by vm_compute in H2. }
  exists m1, m2, a, b. split; [done|]. split; [done|].
  destruct (reduce_tasks_do_not_rotate StateReply.zero StateReply.zero ex_reducing m1 m2 a b)
    as (_ & _ & H); [exact ex_reducing_ok|by vm_compute|by vm_compute|exact H1|exact H2|exact H].
Defined.
