(* ===== verification/MRWorker.v ===== *)
(** The MapReduce worker ([src/src/mr/worker.go]) and the sequential program it is
    checked against ([src/src/main/mrsequential.go]).

    A file system is a map from paths to contents; text is a string of bytes.
    A run-time panic and [log.Fatalf] are [None].  [fmt.Fscanf] is written out
    for the one format the code uses; its notion of space is the one of ASCII,
    and the theorems are about tokens of ASCII characters.  [os.Create] is
    taken to succeed ([MakeMaster] makes the directory). *)
From Stdlib Require Import Ascii.
From stdpp Require Import pretty.
From S2P Require Import Prelude MRMaster.
Open Scope string_scope. Open Scope list_scope. Open Scope Z_scope.

Module KeyValue.
Record t := mk { Key : string; Value : string }.
End KeyValue.

#[export] Instance eta_StateArgs : Eta StateArgs.t := λ a,
  StateArgs.mk a.(StateArgs.Cat) a.(StateArgs.TaskId) a.(StateArgs.Finished) a.(StateArgs.Idle)
    a.(StateArgs.WorkerId) a.(StateArgs.FileName).

Abbreviation FS := (gmap string string).

(** ** The text of a file *)

Definition nl : ascii := "010"%char.

Definition isSpace (c : ascii) : bool :=
  let n := N_of_ascii c in ((9 <=? n)%N && (n <=? 13)%N) || (n =? 32)%N.

(** [fmt.Fprintf(f, "%v %v\n", k, v)] *)
Definition line (k v : string) : string := k +:+ " " +:+ v +:+ String nl "".

(** Skip space; the flag says that a newline was met first. *)
Fixpoint SkipSpace (s : string) : bool * string :=
  match s with
  | EmptyString => (false, s)
  | String c s' =>
      if Ascii.eqb c nl then (true, s) else if isSpace c then SkipSpace s' else (false, s)
  end.

(** The next word: the characters before the next space. *)
Fixpoint token (s : string) : string * string :=
  match s with
  | EmptyString => ("", "")
  | String c s' =>
      if isSpace c then ("", s) else let '(w, r) := token s' in (String c w, r)
  end.

(** [fmt.Fscanf(file, "%s %s\n", &k, &v)]: the words, whether the call succeeded, and
    the rest of the file.  A newline of the format is met by the end of the file. *)
Definition Fscanf (s : string) : string * string * bool * string :=
  let '(b, s) := SkipSpace s in
  if b then ("", "", false, s) else
  let '(k, s) := token s in
  if String.eqb k "" then ("", "", false, s) else
  let '(b, s) := SkipSpace s in
  if b then (k, "", false, s) else
  let '(v, s) := token s in
  if String.eqb v "" then (k, "", false, s) else
  match SkipSpace s with
  | (true, String _ s) => (k, v, true, s)
  | (_, EmptyString) => (k, v, true, "")
  | (_, s) => (k, v, false, s)
  end.

(** ** Map tasks *)

(** FNV-1a ([hash/fnv], 32 bits). *)
Definition fnv_write (h : Z) (c : ascii) : Z :=
  (Z.lxor h (Z.of_N (N_of_ascii c)) * 16777619) mod 2 ^ 32.

Fixpoint fnv32a (h : Z) (s : string) : Z :=
  match s with EmptyString => h | String c s => fnv32a (fnv_write h c) s end.

Definition ihash (key : string) : Z := Z.land (fnv32a 2166136261 key) 2147483647.

Definition inter_path (taskId i worker : Z) : string :=
  "lab_interFiles/" +:+ "mr-" +:+ pretty taskId +:+ "-" +:+ pretty i +:+ "-" +:+ pretty worker.

Definition out_path (taskId worker : Z) : string :=
  "out-" +:+ pretty taskId +:+ "-" +:+ pretty worker.

(** The places of the pairs of each reduce task (lines 110-123). *)
Definition positions_of (kva : list KeyValue.t) (nreduce : Z) : option (list (list Z)) :=
  foldM (λ positions i,
    kv ← zget kva i;
    let hash := Z.rem (ihash kv.(KeyValue.Key)) nreduce in
    ps ← zget positions hash; zset positions hash (ps ++ [i]))
    (replicate (Z.to_nat nreduce) []) (zrange 0 (zlen kva - 1)).

(** The contents of one intermediate file (lines 138-142). *)
Definition print_at (kva : list KeyValue.t) (ps : list Z) : option string :=
  foldM (λ s p, kv ← zget kva p; Some (s +:+ line kv.(KeyValue.Key) kv.(KeyValue.Value))) "" ps.

Section tasks.
Variable mapf : string → string → list KeyValue.t.
Variable reducef : string → list string → string.
(** [sort.Sort(ByKey(kva))], which need not be stable *)
Variable sort : list KeyValue.t → list KeyValue.t.

Definition mapTask (filename : string) (nreduce taskId : Z) (fs : FS) (args : StateArgs.t)
    : option (FS * StateArgs.t) :=
  content ← fs !! filename;
  let intermediate := mapf filename content in
  positions ← positions_of intermediate nreduce;
  fs ← foldM (λ fs i,
         ps ← zget positions i; text ← print_at intermediate ps;
         Some (<[inter_path taskId i args.(StateArgs.WorkerId) := text]> (fs : FS)))
       fs (zrange 0 (nreduce - 1));
  Some (fs, args <| StateArgs.Finished := true |> <| StateArgs.Idle := true |>).

(** ** Reduce tasks *)

(** The loop of lines 212-220: scan until an error; the pair of the failed call is
    appended all the same. *)
Fixpoint scan_loop (fuel : nat) (s : string) (pairs : list KeyValue.t)
    : option (list KeyValue.t) :=
  match fuel with
  | O => None
  | S fuel =>
      let '(k, v, ok, s) := Fscanf s in
      let pairs := pairs ++ [KeyValue.mk k v] in
      if ok : bool then scan_loop fuel s pairs else Some pairs
  end.

Definition scan_fuel (s : string) : nat := S (String.length s).

Definition readInterFiles (taskId : Z) (FileNames : list Z) (fs : FS)
    : option (list KeyValue.t) :=
  foldM (λ pairs index,
    item ← zget FileNames index;
    text ← fs !! inter_path index taskId item;
    pairs ← scan_loop (scan_fuel text) text pairs;
    zto pairs (zlen pairs - 1))
    [] (zrange 0 (zlen FileNames - 1)).

(** The end [j] of the run of equal keys that starts at [i]. *)
Fixpoint run_end (fuel : nat) (l : list KeyValue.t) (i j : Z) : option Z :=
  match fuel with
  | O => None
  | S fuel =>
      if j <? zlen l then
        a ← zget l j; b ← zget l i;
        if String.eqb a.(KeyValue.Key) b.(KeyValue.Key) then run_end fuel l i (j + 1) else Some j
      else Some j
  end.

(** Call Reduce on each run, and print a line for it. *)
Fixpoint reduce_loop (fuel : nat) (l : list KeyValue.t) (i : Z) (out : string) : option string :=
  match fuel with
  | O => None
  | S fuel =>
      if i <? zlen l then
        j ← run_end (S (length l)) l i (i + 1);
        values ← mapM (λ k, KeyValue.Value <$> zget l k) (zrange i (j - 1));
        kv ← zget l i;
        reduce_loop fuel l j
          (out +:+ line kv.(KeyValue.Key) (reducef kv.(KeyValue.Key) values))
      else Some out
  end.

Definition reduce_all (l : list KeyValue.t) : option string :=
  let l := sort l in reduce_loop (S (length l)) l 0 "".

Definition reduceTask (reply : StateReply.t) (fs : FS) (args : StateArgs.t)
    : option (FS * StateArgs.t) :=
  intermediate ← readInterFiles reply.(StateReply.TaskId) reply.(StateReply.FileNames) fs;
  let oname := out_path reply.(StateReply.TaskId) reply.(StateReply.WorkerId) in
  text ← reduce_all intermediate;
  Some (<[oname := text]> fs,
        args <| StateArgs.Finished := true |> <| StateArgs.Idle := true |>
             <| StateArgs.FileName := oname |>).

(** ** The worker's loop *)

(** What it notes of a reply, before the task (lines 61-77). *)
Definition Worker_reply (args : StateArgs.t) (reply : StateReply.t) : StateArgs.t :=
  let args := args <| StateArgs.Cat := reply.(StateReply.Cat) |>
                   <| StateArgs.TaskId := reply.(StateReply.TaskId) |>
                   <| StateArgs.WorkerId := reply.(StateReply.WorkerId) |>
                   <| StateArgs.Finished := false |> in
  if (reply.(StateReply.Cat) =? 1) || (reply.(StateReply.Cat) =? 2)
  then args <| StateArgs.Idle := false |> else args.

(** The worker returns at a reply with no task. *)
Definition Worker_returns (reply : StateReply.t) : bool :=
  negb (reply.(StateReply.Cat) =? 1) && negb (reply.(StateReply.Cat) =? 2).

Definition Worker_task (reply : StateReply.t) (fs : FS) (args : StateArgs.t)
    : option (FS * StateArgs.t) :=
  if reply.(StateReply.Cat) =? 1 then
    mapTask reply.(StateReply.FileName) reply.(StateReply.Nreduce) reply.(StateReply.TaskId) fs args
  else if reply.(StateReply.Cat) =? 2 then reduceTask reply fs args
  else Some (fs, args).

(** ** The sequential program *)

Definition mrsequential (files : list string) (fs : FS) : option FS :=
  intermediate ← foldM (λ kva filename,
    content ← fs !! filename; Some (kva ++ mapf filename content)) [] files;
  text ← reduce_all intermediate;
  Some (<["mr-out-0" := text]> fs).
End tasks.

(** The global [args] of a fresh worker process. *)
Definition initial_args : StateArgs.t := StateArgs.mk 0 0 false true 0 "".
