(* ===== verification/MRWorkerProps.v ===== *)
(** What the tasks of [MRWorker] compute: the scanner reads back what the printer
    wrote, a map task fills the buckets of its reduce tasks, and a reduce task
    prints one line per distinct key of its bucket. *)
From Stdlib Require Import Ascii.
From stdpp Require Import pretty sorting.
From S2P Require Import Prelude MRMaster MRWorker.
Open Scope string_scope. Open Scope list_scope. Open Scope Z_scope.
Import KeyValue.
#[local] Arguments String.append : simpl nomatch.

(** ** Words and lines *)

(** The characters of a word are ASCII and not space. *)
Fixpoint plain (s : string) : bool :=
  match s with
  | EmptyString => true
  | String c s => negb (isSpace c) && (N_of_ascii c <? 128)%N && plain s
  end.

Definition word (s : string) : Prop := plain s = true ∧ s ≠ "".

Definition word_pair (kv : KeyValue.t) : Prop := word kv.(Key) ∧ word kv.(Value).

Definition cat (l : list string) : string := foldr String.append "" l.

Definition print (l : list KeyValue.t) : string := cat ((λ kv, line kv.(Key) kv.(Value)) <$> l).

Lemma string_app_assoc s1 s2 s3 : (s1 +:+ s2) +:+ s3 = s1 +:+ (s2 +:+ s3).
Proof. induction s1; simpl; congruence. Qed.

Lemma string_app_nil s : s +:+ "" = s.
Proof. induction s; simpl; congruence. Qed.

Lemma line_app k v r : line k v +:+ r = k +:+ String " " (v +:+ String nl r).
Proof. unfold line. by rewrite !string_app_assoc. Qed.

Lemma cat_app l k : cat (l ++ k) = cat l +:+ cat k.
Proof. induction l as [|s l IH]; simpl; [done|]. by rewrite IH, string_app_assoc. Qed.

Lemma isSpace_not_nl c : isSpace c = false → Ascii.eqb c nl = false.
Proof. intros Hc. destruct (Ascii.eqb_spec c nl) as [->|]; [by vm_compute in Hc|done]. Qed.

Lemma SkipSpace_word s r : word s → SkipSpace (s +:+ r) = (false, s +:+ r).
Proof.
  intros [Hp Hne]. destruct s as [|c s]; [done|]. cbn in *. to_prop.
  rewrite isSpace_not_nl by done. by case_match.
Qed.

Lemma token_word s c r :
  plain s = true → isSpace c = true → token (s +:+ String c r) = (s, String c r).
Proof.
  intros Hs Hc. induction s as [|a s IH]; cbn in *; [by rewrite Hc|]. to_prop.
  case_match; [congruence|]. by rewrite IH.
Qed.

Lemma word_eqb s : word s → String.eqb s "" = false.
Proof. intros [_ Hne]. by apply String.eqb_neq. Qed.

(** The scanner reads a printed line. *)
Lemma Fscanf_line k v r : word k → word v → Fscanf (line k v +:+ r) = (k, v, true, r).
Proof.
  intros Hk Hv. rewrite line_app. unfold Fscanf. rewrite SkipSpace_word by done.
  rewrite token_word by (done || apply Hk). rewrite word_eqb by done.
  change (SkipSpace (String " " (v +:+ String nl r))) with (SkipSpace (v +:+ String nl r)).
  rewrite SkipSpace_word by done.
  rewrite token_word by (done || apply Hv). by rewrite word_eqb by done.
Qed.

Lemma scan_loop_print fuel l pairs :
  Forall word_pair l → (length l < fuel)%nat →
  scan_loop fuel (print l) pairs = Some (pairs ++ l ++ [mk "" ""]).
Proof.
  intros Hl. revert fuel pairs. induction Hl as [|kv l [Hk Hv] Hl IH]; intros [|fuel] pairs Hf;
    cbn [length] in Hf; try lia; [done|].
  change (print (kv :: l)) with (line kv.(Key) kv.(Value) +:+ print l).
  cbn [scan_loop]. rewrite Fscanf_line by done. rewrite IH by lia. destruct kv. cbn.
  by rewrite <- app_assoc.
Qed.

Lemma string_length_app s r : String.length (s +:+ r) = (String.length s + String.length r)%nat.
Proof. induction s; simpl; congruence. Qed.

Lemma length_print l : (length l ≤ String.length (print l))%nat.
Proof.
  induction l as [|kv l IH]; [simpl; lia|].
  change (print (kv :: l)) with (line kv.(Key) kv.(Value) +:+ print l).
  rewrite line_app, string_length_app. cbn [String.length]. rewrite string_length_app. simpl. lia.
Qed.

Lemma SkipSpace_length s b r : SkipSpace s = (b, r) → (String.length r ≤ String.length s)%nat.
Proof.
  induction s as [|c s IH]; cbn; [by intros [= <- <-]|].
  repeat case_match; intros Heq; simplify_eq; cbn; try lia.
  specialize (IH Heq). lia.
Qed.

Lemma token_length s w r :
  token s = (w, r) → String.length s = (String.length w + String.length r)%nat.
Proof.
  revert w r. induction s as [|c s IH]; cbn; intros w r; [by intros [= <- <-]|].
  case_match; [by intros [= <- <-]|]. destruct (token s) as [w' r'] eqn:Ht. intros [= <- <-].
  cbn. by rewrite (IH w' r').
Qed.

(** A successful call consumes something, so the loop of [readInterFiles] ends. *)
Lemma Fscanf_progress s k v r : Fscanf s = (k, v, true, r) → (String.length r < String.length s)%nat.
Proof.
  unfold Fscanf. destruct (SkipSpace s) as [b s1] eqn:H1. destruct b; [done|].
  destruct (token s1) as [w s2] eqn:H2. case_match eqn:Hw; [done|].
  destruct (SkipSpace s2) as [b s3] eqn:H3. destruct b; [done|].
  destruct (token s3) as [w' s4] eqn:H4. case_match; [done|].
  destruct (SkipSpace s4) as [b s5] eqn:H5.
  apply SkipSpace_length in H1, H3, H5. apply token_length in H2, H4.
  apply String.eqb_neq in Hw. assert (0 < String.length w)%nat by (destruct w; cbn; [done|lia]).
  intros Heq. destruct b, s5; simplify_eq; cbn in *; lia.
Qed.

Lemma scan_loop_total fuel s pairs :
  (String.length s < fuel)%nat → ∃ l, scan_loop fuel s pairs = Some l ∧ l ≠ [].
Proof.
  revert s pairs. induction fuel as [|fuel IH]; intros s pairs Hf; [lia|]. cbn [scan_loop].
  destruct (Fscanf s) as [[[k v] ok] r] eqn:Hs. destruct ok.
  - apply Fscanf_progress in Hs. apply IH. lia.
  - eexists. split; [done|]. by destruct pairs.
Qed.

(** ** The names of files *)

Fixpoint nodash (s : string) : bool :=
  match s with EmptyString => true | String c s => negb (Ascii.eqb c "-") && nodash s end.

Lemma nodash_split a b r r' :
  nodash a = true → nodash b = true → a +:+ String "-" r = b +:+ String "-" r' → a = b ∧ r = r'.
Proof.
  revert b. induction a as [|c a IH]; intros [|d b] Ha Hb Heq; cbn in *; to_prop; simplify_eq/=; [done..|].
  by destruct (IH b) as [-> ->].
Qed.

Lemma pretty_N_go_nodash x s : nodash s = true → nodash (pretty_N_go x s) = true.
Proof.
  revert s. induction (N.lt_wf_0 x) as [x _ IH]; intros s Hs.
  assert (x = 0 ∨ 0 < x)%N as [->|?] by lia.
  - by rewrite pretty_N_go_0.
  - rewrite pretty_N_go_step by done. apply IH; [by apply N.div_lt|].
    cbn. rewrite Hs. unfold pretty_N_char. by repeat case_match.
Qed.

Lemma pretty_nodash (x : Z) : 0 ≤ x → nodash (pretty x) = true.
Proof.
  intros Hx. destruct x; [done| |lia]. cbn. unfold pretty, pretty_positive, pretty, pretty_N.
  case_decide; [done|]. by apply pretty_N_go_nodash.
Qed.

Lemma inter_path_inj t i w t' i' w' :
  0 ≤ t → 0 ≤ i → 0 ≤ t' → 0 ≤ i' →
  inter_path t i w = inter_path t' i' w' → t = t' ∧ i = i' ∧ w = w'.
Proof.
  intros Ht Hi Ht' Hi' Heq. unfold inter_path in Heq.
  do 2 apply (inj (String.append _)) in Heq.
  apply nodash_split in Heq as [Hpt Heq]; [|by apply pretty_nodash..].
  apply nodash_split in Heq as [Hpi Heq]; [|by apply pretty_nodash..].
  by apply (inj pretty) in Hpt, Hpi, Heq.
Qed.

Lemma out_path_inj t w t' w' :
  0 ≤ t → 0 ≤ t' → out_path t w = out_path t' w' → t = t' ∧ w = w'.
Proof.
  intros Ht Ht' Heq. unfold out_path in Heq. apply (inj (String.append _)) in Heq.
  apply nodash_split in Heq as [Hpt Heq]; [|by apply pretty_nodash..].
  by apply (inj pretty) in Hpt, Heq.
Qed.

Lemma out_path_inter_path r w t i w' : out_path r w ≠ inter_path t i w'.
Proof. done. Qed.

(** ** Map tasks *)

Lemma land_ones_bounds h : 0 ≤ Z.land h 2147483647 < 2 ^ 31.
Proof. change 2147483647 with (Z.ones 31). rewrite Z.land_ones by lia. by apply Z.mod_pos_bound. Qed.

Definition place_of (nreduce : Z) (kv : KeyValue.t) : Z := Z.rem (ihash kv.(Key)) nreduce.

Lemma place_of_bounds n kv : 0 < n → 0 ≤ place_of n kv < n.
Proof.
  intros Hn. unfold place_of. pose proof (land_ones_bounds (fnv32a 2166136261 kv.(Key))) as Hb.
  apply Z.rem_bound_pos; [|done]. unfold ihash. lia.
Qed.

(** The pairs of reduce task [i]. *)
Definition bucket (nreduce i : Z) (l : list KeyValue.t) : list KeyValue.t :=
  filter (λ kv, place_of nreduce kv = i) l.

(** [ps] lists, for every reduce task, the places of its pairs among the first of [kva]. *)
Definition placed (kva : list KeyValue.t) (n : Z) (l : list KeyValue.t) (ps : list (list Z)) : Prop :=
  zlen ps = n ∧ ∀ i, 0 ≤ i < n → ∃ js, zget ps i = Some js ∧ mapM (zget kva) js = Some (bucket n i l).

Lemma mapM_snoc {A B} (f : A → option B) l x :
  mapM f (l ++ [x]) = (ys ← mapM f l; y ← f x; Some (ys ++ [y])).
Proof.
  induction l as [|z l IH]; simpl; [by destruct (f x)|]. rewrite IH. destruct (f z); simpl; [|done].
  destruct (mapM f l); simpl; [|done]. by destruct (f x).
Qed.

Lemma positions_step kva n l x r ps :
  kva = l ++ x :: r → 0 < n → placed kva n l ps →
  ∃ ps', (kv ← zget kva (zlen l);
          let hash := Z.rem (ihash kv.(Key)) n in
          js ← zget ps hash; zset ps hash (js ++ [zlen l])) = Some ps' ∧
    placed kva n (l ++ [x]) ps'.
Proof.
  intros Hkva Hn [Hlen Hps]. pose proof (place_of_bounds n x Hn) as Hp.
  assert (zget kva (zlen l) = Some x) as Hx.
  { rewrite Hkva, zget_app_r, Z.sub_diag by lia. done. }
  rewrite Hx. cbn [mbind option_bind]. fold (place_of n x).
  destruct (Hps _ Hp) as (js & Hjs & Hm). rewrite Hjs. cbn [mbind option_bind].
  rewrite zset_lt by lia. eexists. split; [done|].
  assert (zset ps (place_of n x) (js ++ [zlen l])
    = Some (<[Z.to_nat (place_of n x) := js ++ [zlen l]]> ps)) as Hset by (apply zset_lt; lia).
  split; [by rewrite (zlen_zset _ _ _ _ Hset)|]. intros i Hi. unfold bucket.
  rewrite filter_app, filter_cons, filter_nil. case_decide as Hd.
  - subst i. exists (js ++ [zlen l]). split; [by eapply zget_zset_eq|].
    by rewrite mapM_snoc, Hm, Hx.
  - rewrite app_nil_r. destruct (Hps i Hi) as (js' & Hjs' & Hm'). exists js'.
    split; [|done]. by rewrite (zget_zset_ne _ _ _ _ _ Hset).
Qed.

Lemma positions_of_from kva n l r ps :
  kva = l ++ r → 0 < n → placed kva n l ps →
  ∃ ps', foldM (λ positions i,
      kv ← zget kva i;
      let hash := Z.rem (ihash kv.(Key)) n in
      ps ← zget positions hash; zset positions hash (ps ++ [i]))
      ps (zrange (zlen l) (zlen kva - 1)) = Some ps' ∧ placed kva n kva ps'.
Proof.
  revert l ps. induction r as [|x r IH]; intros l ps Hkva Hn Hps.
  - rewrite app_nil_r in Hkva. subst l. rewrite zrange_nil by lia. by exists ps.
  - assert (zlen kva = zlen l + zlen (x :: r)) as Hl by (by rewrite Hkva, zlen_app).
    rewrite zlen_cons in Hl. pose proof (zlen_nonneg r).
    rewrite zrange_cons by lia. cbn [foldM].
    destruct (positions_step kva n l x r ps Hkva Hn Hps) as (ps1 & Heq & Hps1).
    cbn zeta in Heq. rewrite Heq. cbn [mbind option_bind].
    destruct (IH (l ++ [x]) ps1) as (ps' & Heq' & Hps'); [by rewrite <- app_assoc|done..|].
    exists ps'. split; [|done]. rewrite <- Heq'. f_equal. f_equal. rewrite zlen_app. by cbn.
Qed.

Lemma positions_of_ok kva n :
  0 < n → ∃ ps, positions_of kva n = Some ps ∧ placed kva n kva ps.
Proof.
  intros Hn. apply (positions_of_from kva n [] kva); [done..|]. split.
  - unfold zlen. rewrite length_replicate. lia.
  - intros i Hi. exists []. split; [|done]. unfold zget. rewrite decide_True by lia.
    apply lookup_replicate. split; [done|lia].
Qed.

Lemma print_at_ok kva js l :
  mapM (zget kva) js = Some l → print_at kva js = Some (print l).
Proof.
  intros Hm. unfold print_at. change (print l) with ("" +:+ print l).
  generalize "". revert l Hm. induction js as [|j js IH]; intros l Hm s; simpl in Hm.
  - injection Hm as <-. cbn [foldM]. change (print []) with "". by rewrite string_app_nil.
  - destruct (zget kva j) as [kv|] eqn:Hj; simpl in Hm; [|done].
    destruct (mapM (zget kva) js) as [l'|] eqn:Hm'; simpl in Hm; [|done]. injection Hm as <-.
    cbn [foldM]. rewrite Hj. cbn [mbind option_bind]. rewrite (IH l') by done.
    change (print (kv :: l')) with (line kv.(Key) kv.(Value) +:+ print l').
    by rewrite string_app_assoc.
Qed.

(** A loop that writes one file per index. *)
Lemma write_files (path : Z → string) (text : Z → string) (f : Z → option string) fs a b :
  (∀ i j, a ≤ i ≤ b → a ≤ j ≤ b → path i = path j → i = j) →
  (∀ i, a ≤ i ≤ b → f i = Some (text i)) →
  ∃ fs', foldM (λ (fs : FS) i, s ← f i; Some (<[path i := s]> fs)) fs (zrange a b) = Some fs' ∧
    (∀ i, a ≤ i ≤ b → fs' !! path i = Some (text i)) ∧
    (∀ p, (∀ i, a ≤ i ≤ b → p ≠ path i) → fs' !! p = fs !! p).
Proof.
  remember (Z.to_nat (b + 1 - a)) as n eqn:Hn. revert a fs Hn.
  induction n as [|n IH]; intros a fs Hn Hinj Hf.
  - rewrite zrange_nil by lia. exists fs. split; [done|]. split; [intros; lia|done].
  - rewrite zrange_cons by lia. cbn [foldM]. rewrite Hf by lia. cbn [mbind option_bind].
    destruct (IH (a + 1) (<[path a := text a]> fs)) as (fs' & Heq & Hin & Hout); [lia|..].
    { intros i j ? ? Hp. apply Hinj; [lia|lia|done]. }
    { intros i ?. apply Hf. lia. }
    exists fs'. split; [done|]. split.
    + intros i Hi. destruct (decide (i = a)) as [->|]; [|apply Hin; lia].
      rewrite Hout; [by rewrite lookup_insert_eq|]. intros j Hj Hp. apply Hinj in Hp; lia.
    + intros p Hp. rewrite Hout by (intros; apply Hp; lia).
      rewrite lookup_insert_ne; [done|]. symmetry. apply Hp. lia.
Qed.

Lemma mapTask_ok mapf file content n t fs args :
  0 < n → 0 ≤ t → fs !! file = Some content →
  ∃ fs', mapTask mapf file n t fs args
    = Some (fs', args <| StateArgs.Finished := true |> <| StateArgs.Idle := true |>) ∧
    (∀ i, 0 ≤ i < n → fs' !! inter_path t i args.(StateArgs.WorkerId)
                      = Some (print (bucket n i (mapf file content)))) ∧
    (∀ p, (∀ i, 0 ≤ i < n → p ≠ inter_path t i args.(StateArgs.WorkerId)) → fs' !! p = fs !! p).
Proof.
  intros Hn Ht Hfile. unfold mapTask. rewrite Hfile. cbn [mbind option_bind].
  set (kva := mapf file content). destruct (positions_of_ok kva n Hn) as (ps & -> & _ & Hps).
  cbn [mbind option_bind].
  destruct (write_files (λ i, inter_path t i args.(StateArgs.WorkerId))
    (λ i, print (bucket n i kva)) (λ i, js ← zget ps i; print_at kva js) fs 0 (n - 1))
    as (fs' & Heq & Hin & Hout).
  - intros i j Hi Hj Hp. apply inter_path_inj in Hp; lia.
  - intros i Hi. destruct (Hps i ltac:(lia)) as (js & -> & Hm). by apply print_at_ok.
  - assert (∀ l fs0, foldM (λ (fs : FS) i, ps0 ← zget ps i; text ← print_at kva ps0;
        Some (<[inter_path t i args.(StateArgs.WorkerId) := text]> fs)) fs0 l
      = foldM (λ (fs : FS) i, s ← js ← zget ps i; print_at kva js;
        Some (<[inter_path t i args.(StateArgs.WorkerId) := s]> fs)) fs0 l) as Hext.
    { induction l as [|i l IH]; intros fs0; [done|]. cbn [foldM].
      destruct (zget ps i) as [js|]; [|done]. cbn [mbind option_bind].
      destruct (print_at kva js); [|done]. cbn [mbind option_bind]. apply IH. }
    rewrite Hext, Heq. cbn [mbind option_bind]. exists fs'. split; [done|].
    split; [intros; apply Hin; lia|intros p Hp; apply Hout; intros; apply Hp; lia].
Qed.

(** ** Reading the intermediate files *)

Lemma zto_drop_last {A} (l : list A) x : zto (l ++ [x]) (zlen (l ++ [x]) - 1) = Some l.
Proof.
  assert (zlen (l ++ [x]) - 1 = Z.of_nat (length l)) as ->.
  { rewrite zlen_app, zlen_cons, zlen_nil. unfold zlen. lia. }
  unfold zto. rewrite decide_True by (rewrite zlen_app; unfold zlen; simpl; lia).
  by rewrite Nat2Z.id, take_app_length.
Qed.

Lemma readInterFiles_from taskId names (fs : FS) (contents : nat → list KeyValue.t) pairs (a : nat) :
  (a ≤ length names)%nat →
  (∀ t w, names !! t = Some w →
     Forall word_pair (contents t) ∧
     fs !! inter_path (Z.of_nat t) taskId w = Some (print (contents t))) →
  foldM (λ pairs index,
    item ← zget names index;
    text ← fs !! inter_path index taskId item;
    pairs ← scan_loop (scan_fuel text) text pairs;
    zto pairs (zlen pairs - 1)) pairs (zrange (Z.of_nat a) (zlen names - 1))
  = Some (pairs ++ concat (contents <$> seq a (length names - a))).
Proof.
  remember (length names - a)%nat as n eqn:Hn. revert a pairs Hn.
  induction n as [|n IH]; intros a pairs Hn Ha Hc.
  - rewrite zrange_nil by (unfold zlen; lia). cbn. by rewrite app_nil_r.
  - rewrite zrange_cons by (unfold zlen; lia). cbn [foldM seq fmap list_fmap concat].
    rewrite zget_lookup. destruct (lookup_lt_is_Some_2 names a ltac:(lia)) as [w Hw].
    destruct (Hc _ _ Hw) as [Hwords Hf]. rewrite Hw. cbn [mbind option_bind]. rewrite Hf.
    cbn [mbind option_bind].
    rewrite scan_loop_print; [|done|unfold scan_fuel; pose proof (length_print (contents a)); lia].
    cbn [mbind option_bind]. rewrite app_assoc.
    rewrite zto_drop_last. cbn [mbind option_bind].
    replace (Z.of_nat a + 1) with (Z.of_nat (S a)) by lia.
    rewrite IH by (lia || done). by rewrite <- app_assoc.
Qed.

Lemma readInterFiles_ok taskId names (fs : FS) (contents : nat → list KeyValue.t) :
  (∀ t w, names !! t = Some w →
     Forall word_pair (contents t) ∧
     fs !! inter_path (Z.of_nat t) taskId w = Some (print (contents t))) →
  readInterFiles taskId names fs = Some (concat (contents <$> seq 0 (length names))).
Proof.
  intros Hc. unfold readInterFiles.
  pose proof (readInterFiles_from taskId names fs contents [] 0 ltac:(lia) Hc) as Hr.
  by rewrite Nat.sub_0_r in Hr.
Qed.

(** ** Reduce tasks *)

Definition key_le (x y : KeyValue.t) : Prop := String.le x.(Key) y.(Key).

#[export] Instance key_le_trans : Transitive key_le.
Proof. intros x y z. unfold key_le. apply transitivity. Qed.

(** What [sort.Sort(ByKey(l))] promises. *)
Class SortsByKey (sort : list KeyValue.t → list KeyValue.t) : Prop := {
  sort_perm : ∀ l, sort l ≡ₚ l;
  sort_sorted : ∀ l, StronglySorted key_le (sort l)
}.

(** Sorting by insertion is one way to do it. *)
Definition by_key : list KeyValue.t → list KeyValue.t :=
  stable_sort (λ x y, String.ltb x.(Key) y.(Key)).

#[export] Instance by_key_sorts : SortsByKey by_key.
Proof.
  split; intros l; [apply stable_sort_Permutation|].
  apply stable_sort_Sorted; [apply _|..]; intros x y; unfold key_le, String.le, String.ltb, String.leb;
    rewrite ?(String.compare_antisym y.(Key) x.(Key)); by destruct (String.compare _ _).
Qed.

(** The values of a key, and the line printed for it. *)
Definition vals (k : string) (l : list KeyValue.t) : list string :=
  Value <$> filter (λ kv, kv.(Key) = k) l.

Definition report_lines (reducef : string → list string → string) (l : list KeyValue.t)
    (ks : list string) : list string :=
  (λ k, line k (reducef k (vals k l))) <$> ks.

(** The keys printed: every key of [l], once. *)
Definition distinct_keys (l : list KeyValue.t) (ks : list string) : Prop :=
  NoDup ks ∧ ∀ k, k ∈ ks ↔ k ∈ Key <$> l.

Fixpoint same_run (k : string) (l : list KeyValue.t) : nat :=
  match l with
  | kv :: l => if String.eqb kv.(Key) k then S (same_run k l) else 0
  | [] => 0
  end.

Lemma same_run_le k l : (same_run k l ≤ length l)%nat.
Proof. induction l; simpl; [lia|]. case_match; lia. Qed.

Lemma run_end_ok fuel l i (j : nat) b :
  zget l i = Some b → (j ≤ length l)%nat → (length l - j < fuel)%nat →
  run_end fuel l i (Z.of_nat j) = Some (Z.of_nat (j + same_run b.(Key) (drop j l))).
Proof.
  intros Hb. revert j. induction fuel as [|fuel IH]; intros j Hj Hf; [lia|]. cbn [run_end].
  destruct (Z.ltb_spec (Z.of_nat j) (zlen l)) as [Hlt|Hge]; unfold zlen in *.
  - destruct (lookup_lt_is_Some_2 l j ltac:(lia)) as [a Ha].
    rewrite zget_lookup, Ha. cbn [mbind option_bind]. rewrite Hb. cbn [mbind option_bind].
    rewrite (drop_S l a j Ha). cbn [same_run]. case_match; [|by rewrite Nat.add_0_r].
    replace (Z.of_nat j + 1) with (Z.of_nat (S j)) by lia. rewrite IH by lia. do 2 f_equal. lia.
  - rewrite drop_ge by lia. by rewrite Nat.add_0_r.
Qed.

(** In a sorted list, the run at the head has all the pairs of its key. *)
Lemma run_split x l :
  StronglySorted key_le (x :: l) →
  Forall (λ kv, kv.(Key) = x.(Key)) (take (same_run x.(Key) l) l) ∧
  Forall (λ kv, kv.(Key) ≠ x.(Key)) (drop (same_run x.(Key) l) l).
Proof.
  induction l as [|y l IH]; intros Hs; [by split|]. cbn [same_run].
  apply StronglySorted_inv in Hs as [Hl Hx]. apply StronglySorted_inv in Hl as [Hl Hy].
  apply Forall_cons in Hx as [Hxy Hx]. destruct (String.eqb_spec y.(Key) x.(Key)) as [Heq|Hne].
  - destruct IH as [Ht Hd]; [by constructor|]. split; [by constructor|done].
  - cbn. split; [done|]. constructor; [done|]. eapply Forall_impl; [exact Hy|].
    intros z Hyz Hzx. apply Hne. unfold key_le in *. rewrite Hzx in Hyz.
    by apply (anti_symm String.le).
Qed.

Lemma run_values l (i n : nat) :
  (i + n ≤ length l)%nat →
  mapM (λ k, Value <$> zget l k) (zrange (Z.of_nat i) (Z.of_nat (i + n) - 1))
  = Some (Value <$> take n (drop i l)).
Proof.
  revert i. induction n as [|n IH]; intros i Hi.
  - by rewrite zrange_nil by lia.
  - rewrite zrange_cons by lia. cbn [mapM].
    destruct (lookup_lt_is_Some_2 l i ltac:(lia)) as [a Ha].
    rewrite zget_lookup, Ha, (drop_S l a i Ha). cbn [fmap option_fmap option_map mbind option_bind].
    replace (Z.of_nat i + 1) with (Z.of_nat (S i)) by lia.
    replace (i + S n)%nat with (S i + n)%nat by lia. by rewrite IH by lia.
Qed.

Lemma filter_none {A} (P : A → Prop) `{∀ x, Decision (P x)} l :
  Forall (λ x, ¬ P x) l → filter P l = [].
Proof. induction 1; [done|]. by rewrite filter_cons_False. Qed.

Lemma filter_all {A} (P : A → Prop) `{∀ x, Decision (P x)} l :
  Forall P l → filter P l = l.
Proof. induction 1; [done|]. rewrite filter_cons_True by done. by f_equal. Qed.

Lemma vals_run k l r :
  Forall (λ kv, kv.(Key) = k) l → Forall (λ kv, kv.(Key) ≠ k) r → vals k (l ++ r) = Value <$> l.
Proof.
  intros Hl Hr. unfold vals. rewrite filter_app, filter_all, filter_none by done.
  by rewrite app_nil_r.
Qed.

Lemma vals_rest k k' l r :
  Forall (λ kv, kv.(Key) = k') l → k ≠ k' → vals k (l ++ r) = vals k r.
Proof.
  intros Hl Hk. unfold vals. rewrite filter_app, (filter_none _ l); [done|].
  eapply Forall_impl; [exact Hl|]. cbn. congruence.
Qed.

(** One turn of the loop: the run at the head is one key with all its values. *)
Lemma distinct_keys_run k l r ks :
  l ≠ [] → Forall (λ kv, kv.(Key) = k) l → Forall (λ kv, kv.(Key) ≠ k) r →
  distinct_keys r ks → distinct_keys (l ++ r) (k :: ks).
Proof.
  intros Hne Hl Hr [Hnd Hks]. rewrite Forall_forall in Hr. split.
  - constructor; [|done]. rewrite Hks. intros (kv & Hk & Hin)%list_elem_of_fmap.
    by apply (Hr kv Hin).
  - intros k'. rewrite elem_of_cons, Hks, fmap_app, elem_of_app.
    assert (k' = k ↔ k' ∈ Key <$> l) as ->; [|done]. rewrite list_elem_of_fmap.
    rewrite Forall_forall in Hl. split.
    + intros ->. destruct l as [|a l]; [done|]. exists a.
      split; [symmetry; apply Hl|]; apply list_elem_of_here.
    + intros (kv & -> & Hin). by apply Hl.
Qed.

Lemma reduce_loop_ok reducef l fuel (i : nat) out :
  StronglySorted key_le l → (i ≤ length l)%nat → (length l - i < fuel)%nat →
  ∃ ks, distinct_keys (drop i l) ks ∧
    reduce_loop reducef fuel l (Z.of_nat i) out
    = Some (out +:+ cat (report_lines reducef (drop i l) ks)).
Proof.
  intros Hs. revert i out. induction fuel as [|fuel IH]; intros i out Hi Hf; [lia|].
  cbn [reduce_loop]. destruct (Z.ltb_spec (Z.of_nat i) (zlen l)) as [Hlt|Hge]; unfold zlen in *.
  2: { rewrite drop_ge by lia. exists []. split; [split; [constructor|done]|].
       by rewrite string_app_nil. }
  destruct (lookup_lt_is_Some_2 l i ltac:(lia)) as [x Hx].
  assert (zget l (Z.of_nat i) = Some x) as Hg by (by rewrite zget_lookup).
  set (n := same_run x.(Key) (drop (S i) l)).
  pose proof (same_run_le x.(Key) (drop (S i) l)) as Hn. fold n in Hn. rewrite length_drop in Hn.
  replace (Z.of_nat i + 1) with (Z.of_nat (S i)) by lia.
  rewrite (run_end_ok _ _ _ _ x) by (done || lia). fold n. cbn [mbind option_bind].
  replace (S i + n)%nat with (i + S n)%nat by lia. rewrite run_values by lia.
  cbn [mbind option_bind]. rewrite Hg. cbn [mbind option_bind].
  edestruct (IH (i + S n)%nat) as (ks & Hks & Heq); [lia|lia|rewrite Heq; clear Heq].
  assert (StronglySorted key_le (x :: drop (S i) l)) as Hsd.
  { rewrite <- (drop_S l x i Hx). rewrite <- (take_drop i l) in Hs.
    by apply StronglySorted_app_1_r in Hs. }
  destruct (run_split _ _ Hsd) as [Ht Hd]. fold n in Ht, Hd. rewrite drop_drop in Hd.
  replace (S i + n)%nat with (i + S n)%nat in Hd by lia.
  assert (drop i l = take (S n) (drop i l) ++ drop (i + S n) l) as Hsplit.
  { rewrite <- (take_drop (S n) (drop i l)) at 1. by rewrite drop_drop. }
  assert (Forall (λ kv, kv.(Key) = x.(Key)) (take (S n) (drop i l))) as Ht'.
  { rewrite (drop_S l x i Hx). by constructor. }
  assert (take (S n) (drop i l) ≠ []) as Hne by (by rewrite (drop_S l x i Hx)).
  remember (take (S n) (drop i l)) as run eqn:Hrun. clear Hrun.
  exists (x.(Key) :: ks). rewrite Hsplit. split; [by apply distinct_keys_run|].
  unfold report_lines. cbn [fmap list_fmap cat foldr]. rewrite vals_run by done.
  rewrite string_app_assoc. do 3 f_equal. f_equal. apply list_fmap_ext. intros j k Hk.
  rewrite vals_rest with (k' := x.(Key)); [done|done|]. intros ->.
  apply list_elem_of_lookup_2 in Hk. apply Hks in Hk as (kv & Hk & Hin)%list_elem_of_fmap.
  rewrite Forall_forall in Hd. by apply (Hd kv Hin).
Qed.

Lemma reduce_all_ok reducef sort `{!SortsByKey sort} l :
  ∃ ks, distinct_keys l ks ∧ reduce_all reducef sort l = Some (cat (report_lines reducef (sort l) ks)).
Proof.
  unfold reduce_all.
  destruct (reduce_loop_ok reducef (sort l) (S (length (sort l))) 0 "") as (ks & Hks & Heq);
    [apply sort_sorted|lia|lia|].
  exists ks. split; [|exact Heq]. destruct Hks as [Hnd Hks]. split; [done|].
  intros k. rewrite Hks, drop_0, !list_elem_of_fmap. by setoid_rewrite (sort_perm l).
Qed.

(** ** The lines of a file *)

(** A text cut after each newline. *)
Fixpoint lines (s : string) : list string :=
  match s with
  | EmptyString => []
  | String c s =>
      if Ascii.eqb c nl then String c "" :: lines s
      else match lines s with [] => [String c ""] | l :: ls => String c l :: ls end
  end.

Lemma lines_nl s r : lines (s +:+ String nl r) = lines (s +:+ String nl "") ++ lines r.
Proof.
  induction s as [|c s IH]; [done|]. cbn. destruct (Ascii.eqb c nl); [by rewrite IH|].
  rewrite IH. destruct (lines (s +:+ String nl "")) eqn:Hs; [|done].
  exfalso. destruct s as [|d s]; [done|]. cbn in Hs.
  destruct (Ascii.eqb d nl); [done|]. by destruct (lines _).
Qed.

Lemma lines_line k v s : lines (line k v +:+ s) = lines (line k v) ++ lines s.
Proof.
  assert (∀ r, line k v +:+ r = (k +:+ " " +:+ v) +:+ String nl r) as Hl.
  { intros r. rewrite line_app. by rewrite !string_app_assoc. }
  rewrite Hl, lines_nl. f_equal. by rewrite <- Hl, string_app_nil.
Qed.

Lemma lines_cat reducef l ks :
  lines (cat (report_lines reducef l ks)) = concat (lines <$> report_lines reducef l ks).
Proof.
  induction ks as [|k ks IH]; [done|]. unfold report_lines in *. cbn [fmap list_fmap cat foldr concat].
  rewrite lines_line. f_equal. exact IH.
Qed.

(** ** Keys and buckets *)

Lemma bucket_concat n i ls : bucket n i (concat ls) = concat (bucket n i <$> ls).
Proof.
  induction ls as [|l ls IH]; [done|]. cbn [concat fmap list_fmap]. unfold bucket in *.
  by rewrite filter_app, IH.
Qed.

Lemma vals_bucket n i k l :
  Z.rem (ihash k) n = i → vals k (bucket n i l) = vals k l.
Proof.
  intros Hk. unfold vals, bucket. f_equal. rewrite list_filter_filter.
  apply list_filter_iff. intros kv. unfold place_of. split; [by intros [? _]|].
  intros Heq. rewrite Heq. done.
Qed.

Lemma report_lines_perm reducef l l' ks :
  (∀ k vs vs', vs ≡ₚ vs' → reducef k vs = reducef k vs') →
  l ≡ₚ l' → report_lines reducef l ks = report_lines reducef l' ks.
Proof.
  intros Hr Hl. apply list_fmap_ext. intros _ k _. f_equal. apply Hr. unfold vals.
  by rewrite Hl.
Qed.

Lemma report_lines_bucket reducef n i l ks :
  distinct_keys (bucket n i l) ks →
  report_lines reducef (bucket n i l) ks = report_lines reducef l ks.
Proof.
  intros [_ Hks]. apply list_fmap_ext. intros j k Hk. apply list_elem_of_lookup_2 in Hk.
  apply Hks in Hk as (kv & -> & [Hp _]%list_elem_of_filter)%list_elem_of_fmap.
  by rewrite vals_bucket.
Qed.

Lemma NoDup_concat {A} (ls : list (list A)) :
  (∀ i l, ls !! i = Some l → NoDup l) →
  (∀ i j l k x, ls !! i = Some l → ls !! j = Some k → x ∈ l → x ∈ k → i = j) →
  NoDup (concat ls).
Proof.
  induction ls as [|l ls IH]; intros Hnd Hdis; [constructor|]. cbn [concat].
  apply NoDup_app. split; [by apply (Hnd 0%nat)|]. split.
  - intros x Hx Hin. apply list_elem_of_In, in_concat in Hin as (k & Hk & Hxk).
    apply list_elem_of_In in Hk, Hxk. apply list_elem_of_lookup_1 in Hk as [j Hj].
    by pose proof (Hdis 0%nat (S j) l k x eq_refl Hj Hx Hxk).
  - apply IH.
    + intros i k Hk. by apply (Hnd (S i)).
    + intros i j k k' x Hk Hk' Hx Hx'.
      pose proof (Hdis (S i) (S j) k k' x Hk Hk' Hx Hx'). lia.
Qed.

(** The buckets' keys together are all the keys. *)
Lemma distinct_keys_buckets n l ks kss :
  (0 < n)%nat → distinct_keys l ks → length kss = n →
  (∀ r ks, kss !! r = Some ks → distinct_keys (bucket (Z.of_nat n) (Z.of_nat r) l) ks) →
  concat kss ≡ₚ ks.
Proof.
  intros Hn [Hnd Hks] Hlen Hb. apply NoDup_Permutation; [|done|].
  - apply NoDup_concat; [intros r k Hk; apply (Hb r k Hk)|].
    intros i j k k' x Hk Hk' Hx Hx'.
    apply (Hb i k Hk) in Hx as (kv & Heq & [Hi _]%list_elem_of_filter)%list_elem_of_fmap.
    apply (Hb j k' Hk') in Hx' as (kv' & Heq' & [Hj _]%list_elem_of_filter)%list_elem_of_fmap.
    unfold place_of in *. rewrite <- Heq in Hi. rewrite <- Heq' in Hj. lia.
  - intros x. rewrite Hks. rewrite list_elem_of_In, in_concat. split.
    + intros (k & Hk & Hx). apply list_elem_of_In in Hk, Hx.
      apply list_elem_of_lookup_1 in Hk as [r Hr].
      apply (Hb r k Hr) in Hx as (kv & -> & [_ Hin]%list_elem_of_filter)%list_elem_of_fmap.
      by apply list_elem_of_fmap_2.
    + intros (kv & -> & Hin)%list_elem_of_fmap.
      pose proof (place_of_bounds (Z.of_nat n) kv ltac:(lia)) as Hp.
      destruct (lookup_lt_is_Some_2 kss (Z.to_nat (place_of (Z.of_nat n) kv)) ltac:(lia)) as [k Hk].
      exists k. rewrite <- !list_elem_of_In. split; [by eapply list_elem_of_lookup_2|].
      apply (Hb _ _ Hk), list_elem_of_fmap_2, list_elem_of_filter. split; [lia|done].
Qed.

(** A list of witnesses. *)
Lemma list_choice {A} (P : nat → A → Prop) n :
  (∀ r, (r < n)%nat → ∃ x, P r x) → ∃ xs, length xs = n ∧ ∀ r x, xs !! r = Some x → P r x.
Proof.
  induction n as [|n IH]; intros Hp; [by exists []|].
  destruct IH as (xs & Hlen & Hxs); [intros; apply Hp; lia|].
  destruct (Hp n ltac:(lia)) as [x Hx]. exists (xs ++ [x]). rewrite length_app. split; [simpl; lia|].
  intros r y Hr. apply lookup_app_Some in Hr as [Hr|[Hr Hy]]; [by apply Hxs|].
  apply list_lookup_singleton_Some in Hy as [Hy ->]. by replace r with n by lia.
Qed.

Lemma buckets_perm n (js : list Z) l :
  NoDup js → Forall (λ kv, place_of n kv ∈ js) l →
  concat ((λ i, bucket n i l) <$> js) ≡ₚ l.
Proof.
  intros Hnd. revert l. induction Hnd as [|i js Hi Hnd IH]; intros l Hl.
  - destruct l as [|kv l]; [done|]. by apply Forall_cons in Hl as [?%elem_of_nil _].
  - cbn [fmap list_fmap concat].
    assert (filter (λ kv, place_of n kv ≠ i) l ++ bucket n i l ≡ₚ l) as Hsplit.
    { unfold bucket. rewrite Permutation_app_comm. clear.
      induction l as [|kv l IH]; [done|]. rewrite !filter_cons.
      destruct (decide (place_of n kv = i)) as [He|He].
      - rewrite (decide_False (P := place_of n kv ≠ i)) by (intros H; by apply H).
        cbn. by rewrite IH.
      - rewrite (decide_True (P := place_of n kv ≠ i)) by done. by rewrite <- Permutation_middle, IH. }
    assert ((λ j, bucket n j l) <$> js = (λ j, bucket n j (filter (λ kv, place_of n kv ≠ i) l)) <$> js) as ->.
    { apply list_fmap_ext. intros k j Hj. apply list_elem_of_lookup_2 in Hj. unfold bucket.
      symmetry. apply list_filter_filter_l. intros kv ->. by intros ->. }
    rewrite IH; [by rewrite Permutation_app_comm|].
    apply Forall_forall. intros kv [Hne Hkv]%list_elem_of_filter. rewrite Forall_forall in Hl.
    by apply Hl in Hkv as [?|?]%elem_of_cons.
Qed.

(** ** The properties *)

(** C39: When there is a reduce task and the pairs that the map function emits are of
    ASCII words, not empty and without blanks ([word_pair]), a map task puts every
    pair in exactly one of its intermediate files, all pairs of a key in the same one,
    and whoever scans a file reads back the pairs that were put there (and one empty
    pair at the end, which [readInterFiles] drops); no other file changes. *)
Theorem mapTask_partitions mapf file content n t fs args :
  0 < n → 0 ≤ t → fs !! file = Some content → Forall word_pair (mapf file content) →
  ∃ fs' parts,
    mapTask mapf file n t fs args
      = Some (fs', args <| StateArgs.Finished := true |> <| StateArgs.Idle := true |>) ∧
    zlen parts = n ∧ concat parts ≡ₚ mapf file content ∧
    (∀ i part, zget parts i = Some part →
       Forall (λ kv, place_of n kv = i) part ∧
       ∃ text, fs' !! inter_path t i args.(StateArgs.WorkerId) = Some text ∧
         scan_loop (scan_fuel text) text [] = Some (part ++ [mk "" ""])) ∧
    (∀ p, (∀ i, 0 ≤ i < n → p ≠ inter_path t i args.(StateArgs.WorkerId)) → fs' !! p = fs !! p).
Proof.
  intros Hn Ht Hfile Hw.
  destruct (mapTask_ok mapf file content n t fs args Hn Ht Hfile) as (fs' & Heq & Hin & Hout).
  exists fs', ((λ i, bucket n i (mapf file content)) <$> zrange 0 (n - 1)).
  assert (zlen (zrange 0 (n - 1)) = n) as Hlen.
  { unfold zlen, zrange. rewrite length_fmap, length_seq. lia. }
  split; [exact Heq|]. split; [unfold zlen in *; by rewrite length_fmap|]. split; [|split; [|done]].
  - apply buckets_perm.
    + unfold zrange. apply NoDup_fmap_2; [|apply NoDup_seq]. intros i j. lia.
    + apply Forall_forall. intros kv _. apply elem_of_zrange.
      pose proof (place_of_bounds n kv Hn). lia.
  - intros i part Hpart. pose proof (zget_Some_range _ _ _ Hpart) as Hi.
    unfold zget in Hpart. case_decide; [|done]. rewrite list_lookup_fmap in Hpart.
    destruct (zrange 0 (n - 1) !! Z.to_nat i) as [i'|] eqn:Hr; [|done]. injection Hpart as <-.
    unfold zrange in Hr. rewrite list_lookup_fmap in Hr.
    destruct (seq 0 _ !! Z.to_nat i) as [k|] eqn:Hs; [|done]. injection Hr as <-.
    apply lookup_seq in Hs as [-> Hk]. replace (0 + Z.of_nat (0 + Z.to_nat i)) with i by lia.
    split; [apply Forall_forall; by intros kv [? _]%list_elem_of_filter|].
    exists (print (bucket n i (mapf file content))). split; [apply Hin; lia|].
    apply scan_loop_print; [|unfold scan_fuel; pose proof (length_print (bucket n i (mapf file content))); lia].
    rewrite Forall_forall in Hw |- *. intros kv [_ Hkv]%list_elem_of_filter. by apply Hw.
Qed.

Definition ex_map (f c : string) : list KeyValue.t := [mk "a" c; mk "b" c; mk "a" "z"].

Lemma mapTask_partitions_witness :
  ∃ fs' parts, mapTask ex_map "in" 2 3 {[ "in" := "x" ]} (StateArgs.mk 1 3 false false 5 "")
    = Some (fs', StateArgs.mk 1 3 true true 5 "") ∧ concat parts ≡ₚ ex_map "in" "x".
Proof.
  destruct (mapTask_partitions ex_map "in" "x" 2 3 {[ "in" := "x" ]} (StateArgs.mk 1 3 false false 5 ""))
    as (fs' & parts & Heq & _ & Hp & _).
  - lia.
  - lia.
  - by vm_compute.
  - by repeat constructor.
  - by exists fs', parts.
Defined.


Definition ex_pairs : list KeyValue.t := [mk "a" "1"; mk "b" "1"; mk "a" "1"].
Definition ex_fs : FS := {[ inter_path 0 0 7 := print ex_pairs ]}.


(** A key or a value with a space in it, or an empty one, makes the scanner stop: the
    rest of the intermediate file, with the pairs of other keys, is dropped without
    an error. *)
Theorem spaces_lose_pairs k v1 v2 rest pairs fuel :
  word k → word v1 → word v2 →
  scan_loop (S fuel) (print (mk k (v1 +:+ " " +:+ v2) :: rest)) pairs = Some (pairs ++ [mk k v1]) ∧
  scan_loop (S fuel) (print (mk k "" :: rest)) pairs = Some (pairs ++ [mk k ""]).
Proof.
  intros Hk H1 H2.
  assert (∀ v, print (mk k v :: rest) = k +:+ String " " (v +:+ String nl (print rest))) as Hp.
  { intros v. change (print (mk k v :: rest)) with (line k v +:+ print rest). by rewrite line_app. }
  assert (∀ v r, word v → ∃ s, SkipSpace (String " " (v +:+ r)) = (false, s) ∧ s = v +:+ r) as Hskip.
  { intros v r Hv. exists (v +:+ r). split; [|done].
    change (SkipSpace (String " " (v +:+ r))) with (SkipSpace (v +:+ r)). by apply SkipSpace_word. }
  split; rewrite Hp; cbn [scan_loop]; unfold Fscanf;
    rewrite SkipSpace_word, token_word, word_eqb by (done || apply Hk); [|done].
  rewrite string_app_assoc.
  destruct (Hskip v1 ((" " +:+ v2) +:+ String nl (print rest)) H1) as (s & -> & ->).
  change ((" " +:+ v2) +:+ String nl (print rest)) with (String " " (v2 +:+ String nl (print rest))).
  rewrite token_word, word_eqb by (done || apply H1).
  destruct (Hskip v2 (String nl (print rest)) H2) as (s & -> & ->).
  destruct H2 as [_ H2]. by destruct v2.
Qed.

Lemma spaces_lose_pairs_witness :
  scan_loop 9 (print [mk "k" "v w"; mk "a" "b"]) [] = Some [mk "k" "v"].
Proof. apply (spaces_lose_pairs "k" "v" "w" [mk "a" "b"] [] 8); by split. Defined.
