(* ===== verification/MRApps.v ===== *)
(** Two of the MapReduce applications ([src/src/mrapps/wc.go], [indexer.go]), on
    ASCII text: what [good_job] asks of a map and a reduce function holds for them.

    The indexer ranges over a Go map, in no particular order: [range] is any
    enumeration of the words collected. *)
From Stdlib Require Import Ascii.
From stdpp Require Import pretty sorting.
From S2P Require Import Prelude MRWorker MRWorkerProps.
Open Scope string_scope. Open Scope list_scope. Open Scope Z_scope.
#[local] Arguments String.append : simpl nomatch.

(** [unicode.IsLetter] on ASCII *)
Definition IsLetter (c : ascii) : bool :=
  let n := N_of_ascii c in
  ((65 <=? n) && (n <=? 90) || (97 <=? n) && (n <=? 122))%N%bool.

(** [strings.FieldsFunc]; [cur] is the field being read. *)
Fixpoint FieldsFunc (f : ascii → bool) (s cur : string) : list string :=
  match s with
  | EmptyString => if String.eqb cur "" then [] else [cur]
  | String c s =>
      if f c then
        if String.eqb cur "" then FieldsFunc f s "" else cur :: FieldsFunc f s ""
      else FieldsFunc f s (cur +:+ String c "")
  end.

Definition words (s : string) : list string := FieldsFunc (λ c, negb (IsLetter c)) s "".

Module WordCount.
Definition Map (filename contents : string) : list KeyValue.t :=
  (λ w, KeyValue.mk w "1") <$> words contents.

Definition Reduce (key : string) (values : list string) : string := pretty (length values).
End WordCount.

Module Indexer.
Section range.
Context (range : list string → list string).
Definition Map (document value : string) : list KeyValue.t :=
  (λ w, KeyValue.mk w document) <$> range (remove_dups (words value)).
End range.

Definition Reduce (key : string) (values : list string) : string :=
  pretty (length values) +:+ " " +:+ String.concat "," (merge_sort String.le values).
End Indexer.

(** ** Lemmas *)

Lemma plain_app s r : plain s = true → plain r = true → plain (s +:+ r) = true.
Proof.
  induction s as [|c s IH]; cbn; [done|]. intros [Hc Hs]%andb_true_iff Hr. by rewrite Hc, IH.
Qed.

Lemma IsLetter_plain c : IsLetter c = true → plain (String c "") = true.
Proof. destruct c as [[] [] [] [] [] [] [] []]; by vm_compute. Qed.

Lemma FieldsFunc_words s cur w :
  plain cur = true → w ∈ FieldsFunc (λ c, negb (IsLetter c)) s cur → word w.
Proof.
  revert cur. induction s as [|c s IH]; intros cur Hc Hw; cbn in Hw.
  - destruct (String.eqb_spec cur "") as [|Hne]; [by apply elem_of_nil in Hw|].
    apply list_elem_of_singleton in Hw as ->. by split.
  - destruct (IsLetter c) eqn:Hl; cbn [negb] in Hw.
    + apply IH in Hw; [done|]. by apply plain_app, IsLetter_plain.
    + destruct (String.eqb_spec cur "") as [|Hne]; [by apply IH in Hw|].
      apply elem_of_cons in Hw as [->|Hw]; [by split|by apply IH in Hw].
Qed.

Lemma words_word s w : w ∈ words s → word w.
Proof. by apply FieldsFunc_words. Qed.

Lemma one_word : word "1".
Proof. by split. Qed.

Lemma WordCount_words f c : Forall word_pair (WordCount.Map f c).
Proof.
  apply Forall_fmap, Forall_forall. intros w Hw. split; [by eapply words_word|exact one_word].
Qed.

Lemma WordCount_order k vs vs' : vs ≡ₚ vs' → WordCount.Reduce k vs = WordCount.Reduce k vs'.
Proof. intros Hp. unfold WordCount.Reduce. by rewrite (Permutation_length Hp). Qed.

Lemma Indexer_words range f c :
  (∀ l, range l ≡ₚ l) → word f → Forall word_pair (Indexer.Map range f c).
Proof.
  intros Hrange Hf. apply Forall_fmap, Forall_forall. intros w Hw.
  rewrite Hrange, elem_of_remove_dups in Hw. split; [by eapply words_word|done].
Qed.

Lemma Indexer_order k vs vs' : vs ≡ₚ vs' → Indexer.Reduce k vs = Indexer.Reduce k vs'.
Proof.
  intros Hp. unfold Indexer.Reduce. rewrite (Permutation_length Hp). do 3 f_equal.
  apply (StronglySorted_unique String.le); [apply StronglySorted_merge_sort; apply _..|].
  by rewrite !merge_sort_Permutation.
Qed.
