(* ===== verification/MRJob.v ===== *)
(** A whole MapReduce job: the master, any number of worker processes and the files
    they share, as a step relation.

    A worker process is either about to call the master or working on the task of
    a reply.  It may stop at any time (also after the master answered and before
    the worker heard of it), leaving anything in the files it was writing; new
    processes may start at any time.  Tasks of different processes touch different
    files, so each task is one step.  [os.Rename] is applied to the files when the
    master calls it. *)
From Stdlib Require Import Ascii.
From stdpp Require Import pretty sorting.
From S2P Require Import Prelude MRMaster MRMasterProps MRWorker MRWorkerProps.
Open Scope string_scope. Open Scope list_scope. Open Scope Z_scope.

Inductive proc :=
  | Asking (args : StateArgs.t)
  | Working (args : StateArgs.t) (reply : StateReply.t).

Definition args_of (pr : proc) : StateArgs.t :=
  match pr with Asking a => a | Working a _ => a end.

Definition wid (pr : proc) : Z := (args_of pr).(StateArgs.WorkerId).

Record Job := mkJob { master : Master; files : FS; procs : gmap nat proc }.

(** [os.Rename]; its error is ignored. *)
Definition rename (fs : FS) (r : string * string) : FS :=
  match fs !! r.1 with Some s => <[r.2 := s]> (delete r.1 fs) | None => fs end.

(** The renames the master made between two states. *)
Definition renamed (m m' : Master) : list (string * string) :=
  drop (length m.(renames)) m'.(renames).

Definition writes (pr : proc) (path : string) : Prop :=
  match pr with
  | Asking _ => False
  | Working args reply =>
      (reply.(StateReply.Cat) = 1 ∧
         ∃ i, 0 ≤ i ∧ path = inter_path reply.(StateReply.TaskId) i args.(StateArgs.WorkerId)) ∨
      (reply.(StateReply.Cat) = 2 ∧
         path = out_path reply.(StateReply.TaskId) args.(StateArgs.WorkerId))
  end.

Section job.
Context (mapf : string → string → list KeyValue.t) (reducef : string → list string → string).
Context (sort : list KeyValue.t → list KeyValue.t).

Inductive step : Job → Job → Prop :=
  | step_spawn m fs ps p :
      ps !! p = None → step (mkJob m fs ps) (mkJob m fs (<[p := Asking initial_args]> ps))
  | step_call m fs ps p args m' reply :
      ps !! p = Some (Asking args) →
      RequestHandler args m = Some (m', reply) →
      step (mkJob m fs ps)
        (mkJob m' (foldl rename fs (renamed m m'))
           (if Worker_returns reply then delete p ps
            else <[p := Working (Worker_reply args reply) reply]> ps))
  | step_work m fs ps p args reply fs' args' :
      ps !! p = Some (Working args reply) →
      Worker_task mapf reducef sort reply fs args = Some (fs', args') →
      step (mkJob m fs ps) (mkJob m fs' (<[p := Asking args']> ps))
  | step_crash m fs ps p pr fs' :
      ps !! p = Some pr →
      (∀ path, ¬ writes pr path → fs' !! path = fs !! path) →
      step (mkJob m fs ps) (mkJob m fs' (delete p ps)).

(** A job on the input files [inputs] (names and contents) with [R] reduce tasks. *)
Inductive started (inputs : list (string * string)) (R : nat) : Job → Prop :=
  | started_intro m fs :
      MakeMaster (fst <$> inputs) R = Some m →
      (∀ f c, (f, c) ∈ inputs → fs !! f = Some c) →
      started inputs R (mkJob m fs ∅).

Inductive reachable (inputs : list (string * string)) (R : nat) : Job → Prop :=
  | reach_start j : started inputs R j → reachable inputs R j
  | reach_step j j' : reachable inputs R j → step j j' → reachable inputs R j'.

(** The steps as functions, for running a job. *)
Inductive action := Spawn (p : nat) | Call (p : nat) | Work (p : nat) | Crash (p : nat).

Definition act (a : action) (j : Job) : option Job :=
  let '(mkJob m fs ps) := j in
  match a with
  | Spawn p =>
      match ps !! p with
      | None => Some (mkJob m fs (<[p := Asking initial_args]> ps))
      | Some _ => None
      end
  | Call p =>
      match ps !! p with
      | Some (Asking args) =>
          '(m', reply) ← RequestHandler args m;
          Some (mkJob m' (foldl rename fs (renamed m m'))
            (if Worker_returns reply then delete p ps
             else <[p := Working (Worker_reply args reply) reply]> ps))
      | _ => None
      end
  | Work p =>
      match ps !! p with
      | Some (Working args reply) =>
          '(fs', args') ← Worker_task mapf reducef sort reply fs args;
          Some (mkJob m fs' (<[p := Asking args']> ps))
      | _ => None
      end
  | Crash p => _ ← ps !! p; Some (mkJob m fs (delete p ps))
  end.

Fixpoint acts (l : list action) (j : Job) : option Job :=
  match l with [] => Some j | a :: l => j ← act a j; acts l j end.

Lemma act_step a j j' : act a j = Some j' → step j j'.
Proof.
  destruct j as [m fs ps], a as [p|p|p|p]; cbn.
  - destruct (ps !! p) eqn:Hp; [done|]. intros [= <-]. by constructor.
  - destruct (ps !! p) as [[args|]|] eqn:Hp; [|done..].
    destruct (RequestHandler args m) as [[m' reply]|] eqn:Heq; cbn; [|done].
    intros [= <-]. by econstructor.
  - destruct (ps !! p) as [[|args reply]|] eqn:Hp; [done| |done].
    destruct (Worker_task _ _ _ _ _ _) as [[fs' args']|] eqn:Heq; cbn; [|done].
    intros [= <-]. by econstructor.
  - destruct (ps !! p) as [pr|] eqn:Hp; cbn; [|done]. intros [= <-]. by econstructor.
Qed.

Lemma acts_reachable inputs R l j j' :
  reachable inputs R j → acts l j = Some j' → reachable inputs R j'.
Proof.
  revert j. induction l as [|a l IH]; cbn; intros j Hj Hacts; [by injection Hacts as <-|].
  destruct (act a j) as [j1|] eqn:Hact; cbn in Hacts; [|done].
  eapply IH; [|exact Hacts]. eapply reach_step; [exact Hj|]. by eapply act_step.
Qed.
End job.

(** ** The invariant *)

Definition mr_out (r : Z) : string := "mr-out-" +:+ pretty r.

(** The names the programs write to. *)
Definition reserved (path : string) : Prop :=
  (∃ t i w, path = inter_path t i w) ∨ (∃ r w, path = out_path r w) ∨ (∃ r, path = mr_out r).

Section invariant.
Context (mapf : string → string → list KeyValue.t) (reducef : string → list string → string).
Context (sort : list KeyValue.t → list KeyValue.t).
Context (inputs : list (string * string)) (R : nat).

(** What the map function emits for input [t]. *)
Definition kvs (t : nat) : list KeyValue.t :=
  match inputs !! t with Some (f, c) => mapf f c | None => [] end.

Definition all_pairs : list KeyValue.t := concat (kvs <$> seq 0 (length inputs)).

(** What reduce task [r] has to print. *)
Definition output (r : Z) : option string :=
  reduce_all reducef sort
    (concat ((λ t, bucket (Z.of_nat R) r (kvs t)) <$> seq 0 (length inputs))).

Definition map_done (fs : FS) (t : nat) (w : Z) : Prop :=
  ∀ i, 0 ≤ i < Z.of_nat R →
    fs !! inter_path (Z.of_nat t) i w = Some (print (bucket (Z.of_nat R) i (kvs t))).

(** What a worker has to show for the task it reports. *)
Definition evidence (fs : FS) (a : StateArgs.t) : Prop :=
  (a.(StateArgs.Cat) = 1 ∧ ∃ t, a.(StateArgs.TaskId) = Z.of_nat t ∧ (t < length inputs)%nat ∧
     map_done fs t a.(StateArgs.WorkerId)) ∨
  (a.(StateArgs.Cat) = 2 ∧ ∃ r, a.(StateArgs.TaskId) = Z.of_nat r ∧ (r < R)%nat ∧
     a.(StateArgs.FileName) = out_path (Z.of_nat r) a.(StateArgs.WorkerId) ∧
     fs !! out_path (Z.of_nat r) a.(StateArgs.WorkerId) = output (Z.of_nat r)).

(** A task handed out, and the worker it went to. *)
Definition handed_out (m : Master) (w : Z) (reply : StateReply.t) : Prop :=
  (reply.(StateReply.Cat) = 1 ∧ ∃ t c, reply.(StateReply.TaskId) = Z.of_nat t ∧
     inputs !! t = Some (reply.(StateReply.FileName), c) ∧
     reply.(StateReply.Nreduce) = Z.of_nat R ∧
     ¬ (m.(MapStatus) !! t = Some true ∧ m.(ReduceTasks) !! t = Some w)) ∨
  (reply.(StateReply.Cat) = 2 ∧ ∃ r, reply.(StateReply.TaskId) = Z.of_nat r ∧ (r < R)%nat ∧
     reply.(StateReply.FileNames) = m.(ReduceTasks) ∧
     Forall (λ b, b = true) m.(MapStatus)).

Definition proc_ok (m : Master) (fs : FS) (pr : proc) : Prop :=
  match pr with
  | Asking a =>
      a.(StateArgs.Idle) = true ∧ 0 ≤ a.(StateArgs.WorkerId) ≤ m.(workers) ∧
      if a.(StateArgs.Finished) then a.(StateArgs.WorkerId) ≠ 0 ∧ evidence fs a
      else a.(StateArgs.WorkerId) = 0
  | Working a reply =>
      0 < a.(StateArgs.WorkerId) ≤ m.(workers) ∧
      a.(StateArgs.WorkerId) = reply.(StateReply.WorkerId) ∧
      a.(StateArgs.Cat) = reply.(StateReply.Cat) ∧ a.(StateArgs.TaskId) = reply.(StateReply.TaskId) ∧
      handed_out m a.(StateArgs.WorkerId) reply
  end.

Record inv (j : Job) : Prop := {
  inv_master : master_ok j.(master);
  inv_tasks : j.(master).(MapTasks) = fst <$> inputs;
  inv_R : length j.(master).(ReduceStatus) = R;
  inv_nreduce : j.(master).(MNreduce) = Z.of_nat R;
  inv_workers : 0 ≤ j.(master).(workers);
  inv_inputs : ∀ f c, (f, c) ∈ inputs → j.(files) !! f = Some c;
  inv_maps : ∀ t w, j.(master).(MapStatus) !! t = Some true →
    j.(master).(ReduceTasks) !! t = Some w → map_done j.(files) t w;
  inv_reduces : ∀ r, j.(master).(ReduceStatus) !! r = Some true →
    j.(files) !! mr_out (Z.of_nat r) = output (Z.of_nat r);
  inv_procs : ∀ p pr, j.(procs) !! p = Some pr → proc_ok j.(master) j.(files) pr;
  inv_unique : ∀ p q pr qr, j.(procs) !! p = Some pr → j.(procs) !! q = Some qr → p ≠ q →
    wid pr ≠ 0 → wid pr ≠ wid qr
}.
End invariant.
