(* ===== verification/MRJobProps.v ===== *)
(** The correctness of a MapReduce job: no process fails, and when the master says
    that the job is done its output files hold, up to the order of the lines, what
    the sequential program prints. *)
From Stdlib Require Import Ascii.
From stdpp Require Import pretty sorting.
From S2P Require Import Prelude MRMaster MRMasterProps MRWorker MRWorkerProps MRApps MRJob.
Open Scope string_scope. Open Scope list_scope. Open Scope Z_scope.
Import KeyValue.
#[local] Arguments String.append : simpl nomatch.

(** ** The kinds of file are told apart by their names *)

Lemma mr_out_inter_path r t i w : mr_out r ≠ inter_path t i w.
Proof. done. Qed.

Lemma mr_out_out_path r r' w : mr_out r ≠ out_path r' w.
Proof. done. Qed.

Lemma mr_out_inj r r' : mr_out r = mr_out r' → r = r'.
Proof. intros Heq. unfold mr_out in Heq. by apply (inj (String.append _)), (inj pretty) in Heq. Qed.

Section preservation.
Context (mapf : string → string → list KeyValue.t) (reducef : string → list string → string).
Context (sort : list KeyValue.t → list KeyValue.t) `{!SortsByKey sort}.
Context (inputs : list (string * string)) (R : nat).
Hypothesis HR : (0 < R)%nat.
Hypothesis Hnames : ∀ f c, (f, c) ∈ inputs → ¬ reserved f.
Hypothesis Hwords : ∀ f c, (f, c) ∈ inputs → Forall word_pair (mapf f c).

Local Abbreviation inv := (inv mapf reducef sort inputs R).
Local Abbreviation proc_ok := (proc_ok mapf reducef sort inputs R).
Local Abbreviation evidence := (evidence mapf reducef sort inputs R).
Local Abbreviation handed_out := (handed_out inputs R).
Local Abbreviation map_done := (map_done mapf inputs R).
Local Abbreviation output := (output mapf reducef sort inputs R).

(** ** Changes of files *)

Lemma map_done_frame (fs fs' : FS) t w :
  (∀ i, 0 ≤ i < Z.of_nat R →
     fs' !! inter_path (Z.of_nat t) i w = fs !! inter_path (Z.of_nat t) i w) →
  map_done fs t w → map_done fs' t w.
Proof. intros Hf Hd i Hi. rewrite Hf by done. by apply Hd. Qed.

Lemma proc_ok_frame m (fs fs' : FS) pr :
  (∀ t i, 0 ≤ t → 0 ≤ i → fs' !! inter_path t i (wid pr) = fs !! inter_path t i (wid pr)) →
  (∀ r, 0 ≤ r → fs' !! out_path r (wid pr) = fs !! out_path r (wid pr)) →
  proc_ok m fs pr → proc_ok m fs' pr.
Proof.
  intros Hi Ho. destruct pr as [a|a reply]; [|done]. intros (Hid & Hw & Hev).
  split; [done|]. split; [done|]. destruct (StateArgs.Finished a); [|done].
  destruct Hev as [Hw0 Hev]. split; [done|].
  destruct Hev as [(Hc & t & Ht & Hlt & Hd)|(Hc & r & Hr & Hlt & Hn & Hf)]; [left|right].
  - split; [done|]. exists t. split; [done|]. split; [done|].
    apply (map_done_frame fs); [|done]. intros i Hi'. apply Hi; lia.
  - split; [done|]. exists r. split; [done|]. split; [done|]. split; [done|].
    rewrite <- Hf. apply Ho. lia.
Qed.

(** Files may change that nobody counts on. *)
Lemma inv_frame m (fs fs' : FS) ps :
  inv (mkJob m fs ps) →
  (∀ f, ¬ reserved f → fs' !! f = fs !! f) →
  (∀ t w i, m.(MapStatus) !! t = Some true → m.(ReduceTasks) !! t = Some w → 0 ≤ i →
     fs' !! inter_path (Z.of_nat t) i w = fs !! inter_path (Z.of_nat t) i w) →
  (∀ r, m.(ReduceStatus) !! r = Some true →
     fs' !! mr_out (Z.of_nat r) = fs !! mr_out (Z.of_nat r)) →
  (∀ p pr, ps !! p = Some pr →
     (∀ t i, 0 ≤ t → 0 ≤ i → fs' !! inter_path t i (wid pr) = fs !! inter_path t i (wid pr)) ∧
     (∀ r, 0 ≤ r → fs' !! out_path r (wid pr) = fs !! out_path r (wid pr))) →
  inv (mkJob m fs' ps).
Proof using HR Hnames.
  intros Hinv Hin Hmap Hred Hps. destruct Hinv. cbn in *. constructor; cbn; try done.
  - intros f c Hfc. rewrite Hin by by eapply Hnames. by apply inv_inputs.
  - intros t w Ht Hw. apply (map_done_frame fs); [|by apply inv_maps].
    intros i Hi. apply Hmap; [done|done|lia].
  - intros r Hr. rewrite Hred by done. by apply inv_reduces.
  - intros p pr Hp. destruct (Hps p pr Hp). apply (proc_ok_frame m fs); [done..|].
    by apply (inv_procs p).
Qed.

(** What a process writes while it works disturbs nobody else. *)
Lemma inv_write m fs fs' ps p pr :
  inv (mkJob m fs ps) → ps !! p = Some pr →
  (∀ path, ¬ writes pr path → fs' !! path = fs !! path) →
  inv (mkJob m fs' (delete p ps)).
Proof using HR Hnames.
  intros Hinv Hp Hw.
  assert (inv (mkJob m fs (delete p ps))) as Hinv'.
  { destruct Hinv. constructor; cbn in *; try done.
    - intros q qr [Hqp Hq]%lookup_delete_Some. by apply (inv_procs q).
    - intros q q' qr qr' [_ Hq]%lookup_delete_Some [_ Hq']%lookup_delete_Some.
      by apply (inv_unique q q'). }
  destruct pr as [a|a reply].
  { eapply inv_frame; [exact Hinv'|intros; apply Hw; intros []..|]. intros; split; intros; apply Hw; intros []. }
  pose proof (inv_procs _ _ _ _ _ _ Hinv p _ Hp) as (Hwid & _ & _ & _ & Hout).
  eapply inv_frame; [exact Hinv'|..]; cbn.
  - intros f Hf. apply Hw. intros [(_ & i & _ & ->)|[_ ->]]; apply Hf; [left|right; left]; eauto.
  - intros t w i Ht Hrt Hi. apply Hw. intros [(Hc & i' & Hi' & Heq)|[_ Heq]]; [|done].
    destruct Hout as [(_ & t' & c & Htid & _ & _ & Hno)|[? _]]; [|congruence].
    rewrite Htid in Heq. apply inter_path_inj in Heq as (Heq & _ & ->); [|lia..].
    apply Nat2Z.inj in Heq. subst t'. by apply Hno.
  - intros r _. apply Hw. intros [(_ & i & _ & ?)|[_ ?]]; done.
  - intros q qr [Hqp Hq]%lookup_delete_Some.
    pose proof (inv_unique _ _ _ _ _ _ Hinv p q _ qr Hp Hq Hqp) as Hu.
    cbn in Hu. unfold wid at 1 2 in Hu. cbn in Hu.
    assert (0 ≤ reply.(StateReply.TaskId)) as Hpos.
    { destruct Hout as [(_ & t & c & -> & _)|(_ & r & -> & _)]; lia. }
    split; intros t; intros; apply Hw; intros [(_ & i' & Hi' & Heq)|[_ Heq]]; try done.
    + apply inter_path_inj in Heq; lia.
    + apply out_path_inj in Heq; lia.
Qed.

Lemma inv_insert m fs ps p pr :
  inv (mkJob m fs ps) → ps !! p = None → proc_ok m fs pr →
  (∀ q qr, ps !! q = Some qr → wid pr = wid qr → wid pr = 0) →
  inv (mkJob m fs (<[p := pr]> ps)).
Proof using Type.
  intros Hinv Hp Hpr Hu. destruct Hinv. constructor; cbn in *; try done.
  - intros q qr [[<- <-]|[_ Hq]]%lookup_insert_Some; [done|by apply (inv_procs q)].
  - intros q q' qr qr' [[<- <-]|[_ Hq]]%lookup_insert_Some
      [[<- <-]|[_ Hq']]%lookup_insert_Some Hne Hz Heq; [done|..].
    + by apply Hz, (Hu q' qr').
    + rewrite Heq in Hz. by apply Hz, (Hu q qr).
    + by apply (inv_unique q q' qr qr').
Qed.

(** ** Working *)

Lemma kvs_words t : Forall word_pair (kvs mapf inputs t).
Proof using HR Hwords.
  unfold kvs. destruct (inputs !! t) as [[f c]|] eqn:Ht; [|done].
  apply Hwords. by eapply list_elem_of_lookup_2.
Qed.

Lemma inv_lengths j : inv j →
  length (MapStatus (master j)) = length inputs ∧ length (ReduceTasks (master j)) = length inputs.
Proof using Type.
  intros [Hm Ht _ _ _ _ _ _ _ _]. destruct Hm. rewrite mk_workers, <- mk_files, Ht.
  by rewrite length_fmap.
Qed.

Lemma read_bucket j r :
  inv j → Forall (λ b, b = true) (MapStatus (master j)) → (r < R)%nat →
  readInterFiles (Z.of_nat r) (ReduceTasks (master j)) (files j)
  = Some (concat ((λ t, bucket (Z.of_nat R) (Z.of_nat r) (kvs mapf inputs t))
                  <$> seq 0 (length inputs))).
Proof using HR Hwords.
  intros Hinv Hall Hr. destruct (inv_lengths j Hinv) as [Hms Hrt]. rewrite <- Hrt.
  apply (readInterFiles_ok _ _ _ (λ t, bucket (Z.of_nat R) (Z.of_nat r) (kvs mapf inputs t))).
  intros t w Hw. split.
  - apply Forall_forall. intros kv [_ Hkv]%list_elem_of_filter.
    pose proof (kvs_words t) as Hk. rewrite Forall_forall in Hk. by apply Hk.
  - pose proof (lookup_lt_Some _ _ _ Hw) as Hlt.
    destruct (lookup_lt_is_Some_2 (MapStatus (master j)) t ltac:(lia)) as [b Hb].
    pose proof (Forall_lookup_1 _ _ _ _ Hall Hb) as ->.
    apply (inv_maps _ _ _ _ _ _ Hinv t w Hb Hw). lia.
Qed.

Lemma output_is_Some r : is_Some (output r).
Proof using All.
  unfold MRJob.output.
  destruct (reduce_all_ok reducef sort (concat ((λ t, bucket (Z.of_nat R) r (kvs mapf inputs t))
    <$> seq 0 (length inputs)))) as (ks & _ & ->). by eexists.
Qed.

Lemma work_ok m fs ps p a reply :
  inv (mkJob m fs ps) → ps !! p = Some (Working a reply) →
  ∃ fs' a', Worker_task mapf reducef sort reply fs a = Some (fs', a') ∧
    (∀ path, ¬ writes (Working a reply) path → fs' !! path = fs !! path) ∧
    proc_ok m fs' (Asking a') ∧ wid (Asking a') = wid (Working a reply).
Proof using All.
  intros Hinv Hp. pose proof (inv_procs _ _ _ _ _ _ Hinv p _ Hp) as (Hw & Hwr & Hc & Hid & Hout).
  cbn in Hw, Hout. unfold Worker_task. destruct Hout as [(Hcat & t & c & Htid & Hin & Hn & Hno)
    |(Hcat & r & Htid & Hr & Hnames' & Hall)]; rewrite Hcat; cbn [Z.eqb Pos.eqb].
  - rewrite Hn, Htid. pose proof (list_elem_of_lookup_2 _ _ _ Hin) as Hel.
    destruct (mapTask_ok mapf (StateReply.FileName reply) c (Z.of_nat R) (Z.of_nat t) fs a)
      as (fs' & Heq & Hfs & Hsame); [lia|lia|by apply (inv_inputs _ _ _ _ _ _ Hinv)|].
    rewrite Heq. eexists _, _. split; [done|]. split.
    { intros path Hnw. apply Hsame. intros i Hi ->. apply Hnw. left. split; [done|].
      rewrite Htid. exists i. split; [lia|done]. }
    split; [|done]. split; [done|]. cbn. split; [lia|]. split; [lia|]. left. cbn.
    split; [congruence|]. exists t. split; [congruence|]. split; [by eapply lookup_lt_Some|].
    intros i Hi. etrans; [exact (Hfs i Hi)|]. unfold kvs. by rewrite Hin.
  - unfold reduceTask. rewrite Htid, Hnames'. 
    pose proof (read_bucket _ r Hinv Hall Hr) as Hread. cbn in Hread. rewrite Hread.
    cbn [mbind option_bind]. destruct (output_is_Some (Z.of_nat r)) as [text Htext].
    unfold MRJob.output in Htext. rewrite Htext. cbn [mbind option_bind].
    eexists _, _. split; [done|]. split.
    { intros path Hnw. apply lookup_insert_ne. intros <-. apply Hnw. right. split; [done|].
      by rewrite Htid, Hwr. }
    split; [|done]. split; [done|]. cbn. split; [lia|]. split; [lia|]. right. cbn.
    split; [congruence|]. exists r. split; [congruence|]. split; [done|].
    rewrite Hwr. split; [done|]. rewrite lookup_insert_eq. by unfold MRJob.output.
Qed.

Lemma inv_work m fs ps p a reply fs' a' :
  inv (mkJob m fs ps) → ps !! p = Some (Working a reply) →
  Worker_task mapf reducef sort reply fs a = Some (fs', a') →
  inv (mkJob m fs' (<[p := Asking a']> ps)).
Proof using All.
  intros Hinv Hp Heq. destruct (work_ok m fs ps p a reply Hinv Hp) as (fs2 & a2 & Heq2 & Hw & Hok & Hwid).
  rewrite Heq in Heq2. injection Heq2 as <- <-. rewrite <- insert_delete_eq.
  apply inv_insert; [by eapply inv_write|apply lookup_delete_eq|done|].
  intros q qr [Hpq Hq]%lookup_delete_Some Hww. rewrite Hwid in Hww |- *.
  destruct (decide (wid (Working a reply) = 0)) as [|Hne]; [done|].
  by destruct (inv_unique _ _ _ _ _ _ Hinv p q _ qr Hp Hq Hpq Hne).
Qed.
(** ** Calling the master *)

Lemma report_cases a m m1 :
  report a m = Some m1 →
  m1 = m ∨
  (a.(StateArgs.Finished) = true ∧ a.(StateArgs.Cat) = 1 ∧
     zget m.(MapStatus) a.(StateArgs.TaskId) = Some false ∧
     ∃ st rt, zset m.(MapStatus) a.(StateArgs.TaskId) true = Some st ∧
       zset m.(ReduceTasks) a.(StateArgs.TaskId) a.(StateArgs.WorkerId) = Some rt ∧
       m1 = m <| MapStatus := st |> <| MapFinished := m.(MapFinished) - 1 |> <| ReduceTasks := rt |>) ∨
  (a.(StateArgs.Finished) = true ∧ a.(StateArgs.Cat) = 2 ∧
     zget m.(ReduceStatus) a.(StateArgs.TaskId) = Some false ∧
     ∃ st, zset m.(ReduceStatus) a.(StateArgs.TaskId) true = Some st ∧
       m1 = m <| ReduceStatus := st |> <| ReduceFinished := m.(ReduceFinished) - 1 |>
              <| renames := m.(renames) ++ [(a.(StateArgs.FileName), mr_out a.(StateArgs.TaskId))] |>).
Proof using Type.
  unfold report. destruct (StateArgs.Finished a); [|intros [= <-]; by left].
  destruct (Z.eqb_spec a.(StateArgs.Cat) 1) as [H1|H1].
  - rewrite H1. cbn [Z.eqb Pos.eqb].
    destruct (zget (MapStatus m) _) as [[]|] eqn:Hg; cbn [mbind option_bind negb]; [..|done].
    + intros [= <-]. by left.
    + destruct (zset (MapStatus m) _ _) as [st|]; cbn [mbind option_bind]; [|done].
      destruct (zset (ReduceTasks m) _ _) as [rt|]; cbn [mbind option_bind]; [|done].
      intros [= <-]. right; left. do 3 (split; [done|]). by exists st, rt.
  - cbn [mbind option_bind negb]. destruct (Z.eqb_spec a.(StateArgs.Cat) 2) as [H2|H2].
    + destruct (zget (ReduceStatus m) _) as [[]|] eqn:Hg; cbn [mbind option_bind negb]; [..|done].
      * intros [= <-]. by left.
      * destruct (zset (ReduceStatus m) _ _) as [st|]; cbn [mbind option_bind]; [|done].
        intros [= <-]. right; right. do 3 (split; [done|]). by exists st.
    + cbn [mbind option_bind negb]. intros [= <-]. by left.
Qed.

Lemma renamed_same m m1 : renames m1 = renames m → renamed m m1 = [].
Proof using Type. unfold renamed. intros ->. by rewrite drop_all. Qed.

Lemma inv_remove m fs ps p : inv (mkJob m fs ps) → inv (mkJob m fs (delete p ps)).
Proof using Type.
  intros []. constructor; cbn in *; try done.
  - intros q qr [Hqp Hq]%lookup_delete_Some. by apply (inv_procs q).
  - intros q q' qr qr' [_ Hq]%lookup_delete_Some [_ Hq']%lookup_delete_Some.
    by apply (inv_unique q q').
Qed.

(** Nobody else has the id of a worker. *)
Definition alone (w : Z) (ps : gmap nat proc) : Prop := ∀ q qr, ps !! q = Some qr → wid qr ≠ w.

Lemma alone_delete m fs ps p pr :
  inv (mkJob m fs ps) → ps !! p = Some pr → wid pr ≠ 0 → alone (wid pr) (delete p ps).
Proof using Type.
  intros Hinv Hp Hw q qr [Hpq Hq]%lookup_delete_Some Heq.
  by eapply (inv_unique _ _ _ _ _ _ Hinv p q pr qr).
Qed.

Lemma report_map_inv m m1 fs ps a t :
  inv (mkJob m fs ps) → master_ok m1 → alone a.(StateArgs.WorkerId) ps →
  a.(StateArgs.TaskId) = Z.of_nat t → MapStatus m !! t = Some false →
  map_done fs t a.(StateArgs.WorkerId) →
  m1 = m <| MapStatus := <[t := true]> m.(MapStatus) |> <| MapFinished := m.(MapFinished) - 1 |>
         <| ReduceTasks := <[t := a.(StateArgs.WorkerId)]> m.(ReduceTasks) |> →
  inv (mkJob m1 fs ps).
Proof using Type.
  intros Hinv Hok Ha Ht Hst Hd Hm1. pose proof Hinv as [].
  subst m1. constructor; cbn in *; try done.
  - intros t' w Ht' Hw. destruct (decide (t' = t)) as [->|Hne].
    + apply list_lookup_insert_Some in Hw as [(_ & <- & _)|[]]; done.
    + rewrite list_lookup_insert_ne in Ht' by done. rewrite list_lookup_insert_ne in Hw by done. by apply inv_maps.
  - intros q qr Hq. pose proof (inv_procs q qr Hq) as Hok'. destruct qr as [b|b reply]; [done|].
    destruct Hok' as (Hw & Hwr & Hc & Hid & Hout). do 4 (split; [done|]).
    destruct Hout as [(Hcat & t' & c & Htid & Hin & Hn & Hno)|(_ & r & _ & _ & _ & Hall)].
    + left. split; [done|]. exists t', c. do 3 (split; [done|]). cbn.
      destruct (decide (t' = t)) as [->|Hne].
      * intros [_ Hrt]. apply list_lookup_insert_Some in Hrt as [(_ & Hrt & _)|[]]; [|done].
        by apply (Ha q _ Hq).
      * by rewrite !list_lookup_insert_ne by done.
    + by pose proof (Forall_lookup_1 _ _ _ _ Hall Hst).
Qed.

Lemma report_reduce_inv m m1 (fs : FS) ps a r :
  inv (mkJob m fs ps) → master_ok m1 → alone a.(StateArgs.WorkerId) ps →
  a.(StateArgs.TaskId) = Z.of_nat r → ReduceStatus m !! r = Some false →
  a.(StateArgs.FileName) = out_path (Z.of_nat r) a.(StateArgs.WorkerId) →
  fs !! out_path (Z.of_nat r) a.(StateArgs.WorkerId) = output (Z.of_nat r) →
  m1 = m <| ReduceStatus := <[r := true]> m.(ReduceStatus) |>
         <| ReduceFinished := m.(ReduceFinished) - 1 |>
         <| renames := m.(renames) ++ [(a.(StateArgs.FileName), mr_out a.(StateArgs.TaskId))] |> →
  inv (mkJob m1 (foldl rename fs (renamed m m1)) ps).
Proof using All.
  intros Hinv Hok Ha Hr Hst Hfn Hfs Hm1.
  assert (renamed m m1 = [(a.(StateArgs.FileName), mr_out (Z.of_nat r))]) as ->.
  { unfold renamed. subst m1. cbn. by rewrite drop_app_length, Hr. }
  destruct (output_is_Some (Z.of_nat r)) as [text Htext].
  cbn [foldl]. unfold rename. cbn [fst snd]. rewrite Hfn, Hfs, Htext.
  set (fs' := <[mr_out (Z.of_nat r) := text]> _).
  assert (∀ path, path ≠ mr_out (Z.of_nat r) →
    path ≠ out_path (Z.of_nat r) a.(StateArgs.WorkerId) → fs' !! path = fs !! path) as Hsame.
  { intros path H1 H2. unfold fs'. by rewrite lookup_insert_ne, lookup_delete_ne by done. }
  assert (inv (mkJob m fs' ps)) as Hinv'.
  { eapply inv_frame; [exact Hinv|..].
    - intros f Hf. apply Hsame; intros ->; apply Hf; [right; right|right; left]; eauto.
    - intros t w i _ _ _. by apply Hsame.
    - intros r' Hr'. apply Hsame; [|done]. intros Heq. apply mr_out_inj, Nat2Z.inj in Heq.
      congruence.
    - intros q qr Hq. split; intros; apply Hsame; try done.
      intros Heq. apply out_path_inj in Heq as [_ Heq]; [|lia..]. by apply (Ha q qr). }
  clear Hinv. destruct Hinv'. subst m1. constructor; cbn in *; try done.
  - by rewrite length_insert.
  - intros r' Hr'. destruct (decide (r' = r)) as [->|Hne].
    + unfold fs'. by rewrite lookup_insert_eq.
    + rewrite list_lookup_insert_ne in Hr' by done. by apply inv_reduces.
Qed.

Lemma report_inv m fs ps p a :
  inv (mkJob m fs ps) → ps !! p = Some (Asking a) →
  ∃ m1, report a m = Some m1 ∧ workers m1 = workers m ∧
    inv (mkJob m1 (foldl rename fs (renamed m m1)) (delete p ps)).
Proof using All.
  intros Hinv Hp. pose proof (inv_procs _ _ _ _ _ _ Hinv p _ Hp) as (_ & Hw & Hev). cbn in Hw, Hev.
  pose proof (inv_lengths _ Hinv) as [Hlm _]. pose proof (inv_R _ _ _ _ _ _ Hinv) as Hlr. cbn in Hlm, Hlr.
  assert (valid_args a m) as Hva.
  { intros Hf. rewrite Hf in Hev. destruct Hev as [_ Hev]. unfold zlen.
    destruct Hev as [(Hc & t & -> & Ht & _)|(Hc & r & -> & Hr & _)]; split; intros; lia. }
  destruct (report_ok a m) as (m1 & Hrep & Hok1); [by apply (inv_master _ _ _ _ _ _ Hinv)|done|].
  exists m1. split; [done|]. pose proof (inv_remove _ _ _ p Hinv) as Hinv'.
  destruct (report_cases a m m1 Hrep) as [->|[(Hf & Hc & Hg & st & rt & Hst & Hrt & ->)
    |(Hf & Hc & Hg & st & Hst & ->)]].
  - split; [done|]. by rewrite renamed_same.
  - rewrite Hf in Hev. destruct Hev as [Hw0 [(_ & t & Ht & Hlt & Hd)|[? _]]]; [|congruence].
    pose proof (alone_delete _ _ _ _ _ Hinv Hp Hw0) as Ha.
    rewrite Ht in Hg, Hst, Hrt. rewrite zget_lookup in Hg.
    apply zset_Some in Hst as [_ ->], Hrt as [_ ->]. rewrite Nat2Z.id in *.
    split; [done|]. rewrite renamed_same by done. cbn [foldl].
    by apply (report_map_inv m _ fs _ a t).
  - rewrite Hf in Hev. destruct Hev as [Hw0 [[? _]|(_ & r & Hr & Hlt & Hfn & Hfs)]]; [congruence|].
    pose proof (alone_delete _ _ _ _ _ Hinv Hp Hw0) as Ha.
    rewrite Hr in Hg, Hst. rewrite zget_lookup in Hg.
    apply zset_Some in Hst as [_ ->]. rewrite Nat2Z.id in *.
    split; [done|]. by apply (report_reduce_inv m _ fs _ a r).
Qed.
(** Only the lists, the pointers and the number of workers change. *)
Lemma inv_master_change m m' fs ps :
  inv (mkJob m fs ps) → master_ok m' → same_job m m' → MNreduce m' = MNreduce m →
  workers m ≤ workers m' → inv (mkJob m' fs ps).
Proof using HR.
  intros [] Hok (Hms & Hrs & _ & _ & Hrt & Hmt) Hn Hw. constructor; cbn in *;
    rewrite ?Hms, ?Hrs, ?Hrt, ?Hmt; try done; [congruence|lia|].
  intros p pr Hp. pose proof (inv_procs p pr Hp) as Hok'. destruct pr as [a|a reply]; cbn in *.
  - destruct Hok' as (Hid & Hw' & Hev). do 2 (split; [done || lia|]). done.
  - destruct Hok' as (Hw' & Hwr & Hc & Hid & Hout). split; [lia|]. do 3 (split; [done|]).
    unfold MRJob.handed_out in *. by rewrite Hms, Hrt.
Qed.

Lemma assign_inv m fs ps reply0 :
  inv (mkJob m fs ps) →
  ∃ m' reply, assignTask reply0 m = Some (m', reply) ∧ inv (mkJob m' fs ps) ∧
    renames m' = renames m ∧ workers m' = workers m ∧
    reply.(StateReply.WorkerId) = reply0.(StateReply.WorkerId) ∧
    (Worker_returns reply = false → handed_out m' reply0.(StateReply.WorkerId) reply).
Proof using HR.
  intros Hinv. pose proof (inv_master _ _ _ _ _ _ Hinv) as Hok. cbn in Hok.
  destruct (assignTask_ok reply0 m Hok) as (m' & reply & Heq & Hok' & Hsame & Has).
  destruct (assignTask_frame _ _ _ _ Heq) as (Hren & Hwk & Hn & Hid & Hnr).
  exists m', reply. split; [done|]. split; [apply (inv_master_change m); [done..|lia]|].
  do 3 (split; [done|]). intros Hret. destruct Hsame as (Hms & Hrs & _ & _ & Hrt & Hmt).
  unfold MRJob.handed_out. rewrite Hms, Hrt. unfold assigned in Has.
  destruct (0 <? MapFinished m) eqn:Hmf.
  - left. destruct Has as (i & t & _ & Hnext & Hc & Htid & Hfile & _). split; [done|].
    assert (unfinished (MapStatus m) t) as [Ht1 Htu].
    { by destruct Hnext as [(_ & ? & _)|(_ & _ & ? & _)]. }
    replace (Z.of_nat t - 1) with (Z.of_nat (t - 1)) in Htid, Hfile by lia.
    pose proof (inv_tasks _ _ _ _ _ _ Hinv) as Hmt'. cbn in Hmt'.
    rewrite zget_lookup, Hmt', list_lookup_fmap in Hfile.
    destruct (inputs !! (t - 1)%nat) as [[f c]|] eqn:Hin; [|done]. injection Hfile as Hf.
    exists (t - 1)%nat, c. split; [done|]. rewrite <- Hf. split; [done|]. split.
    + rewrite Hnr by lia. apply (inv_nreduce _ _ _ _ _ _ Hinv).
    + intros [? _]. congruence.
  - destruct (0 <? ReduceFinished m) eqn:Hrf.
    + right. destruct Has as (t & (_ & Htu & _) & Hc & Htid & _ & Hnames').
      pose proof (unfinished_le _ _ Htu) as Htl.
      pose proof (inv_R _ _ _ _ _ _ Hinv) as HlR. cbn in HlR. destruct Htu as [Ht1 _].
      split; [done|]. exists (t - 1)%nat. split; [lia|]. split; [lia|]. split; [done|].
      apply count_finished. pose proof (mk_mapf _ Hok). to_prop. lia.
    + unfold Worker_returns in Hret. by rewrite Has in Hret.
Qed.

Lemma inv_call m fs ps p a :
  inv (mkJob m fs ps) → ps !! p = Some (Asking a) →
  ∃ m' reply, RequestHandler a m = Some (m', reply) ∧
    inv (mkJob m' (foldl rename fs (renamed m m'))
      (if Worker_returns reply then delete p ps
       else <[p := Working (Worker_reply a reply) reply]> ps)).
Proof using All.
  intros Hinv Hp. pose proof (inv_procs _ _ _ _ _ _ Hinv p _ Hp) as (Hidle & Hw & Hev).
  cbn in Hw. destruct (report_inv m fs ps p a Hinv Hp) as (m1 & Hrep & Hwk1 & Hinv1).
  unfold RequestHandler. rewrite Hrep. cbn [mbind option_bind]. rewrite Hidle.
  set (ps' := delete p ps) in *. set (fs' := foldl rename fs (renamed m m1)) in *.
  assert (∃ m2 reply0, workers m2 = workers m2 ∧ inv (mkJob m2 fs' ps') ∧
    renames m2 = renames m1 ∧ alone reply0.(StateReply.WorkerId) ps' ∧
    0 < reply0.(StateReply.WorkerId) ≤ workers m2 ∧
    (if a.(StateArgs.WorkerId) =? 0 then
       assignTask (StateReply.zero <| StateReply.WorkerId := a.(StateArgs.WorkerId) |>
         <| StateReply.WorkerId := m1.(workers) + 1 |>) (m1 <| workers := m1.(workers) + 1 |>)
     else assignTask (StateReply.zero <| StateReply.WorkerId := a.(StateArgs.WorkerId) |>) m1)
    = assignTask reply0 m2) as (m2 & reply0 & _ & Hinv2 & Hren2 & Ha & Hw0 & ->).
  { destruct (Z.eqb_spec a.(StateArgs.WorkerId) 0) as [H0|H0].
    - eexists _, _. split; [done|]. split; [|split; [|split; [|split; [|reflexivity]]]].
      + eapply inv_master_change; [exact Hinv1|..]; [|done..|cbn; lia].
        destruct (inv_master _ _ _ _ _ _ Hinv1). by split.
      + done.
      + intros q qr Hq. pose proof (inv_procs _ _ _ _ _ _ Hinv1 q qr Hq) as Hqr.
        change (wid qr ≠ workers m1 + 1).
        unfold wid. destruct qr; cbn in Hqr |- *; lia.
      + change (0 < workers m1 + 1 ≤ workers m1 + 1). lia.
    - eexists m1, _. split; [done|]. split; [done|]. split; [done|]. split; [|split; [|reflexivity]].
      + by apply (alone_delete m fs ps p (Asking a)).
      + change (0 < StateArgs.WorkerId a ≤ workers m1). lia. }
  destruct (assign_inv m2 fs' ps' reply0 Hinv2) as (m' & reply & Heq & Hinv' & Hren & Hwk & Hid & Hout).
  exists m', reply. split; [done|].
  assert (renamed m m' = renamed m m1) as -> by (unfold renamed; congruence). fold fs'.
  destruct (Worker_returns reply) eqn:Hret; [done|]. specialize (Hout eq_refl).
  rewrite <- insert_delete_eq. apply inv_insert; [done|apply lookup_delete_eq|..].
  - unfold Worker_reply. unfold Worker_returns in Hret.
    assert ((reply.(StateReply.Cat) =? 1) || (reply.(StateReply.Cat) =? 2) = true)%bool as ->.
    { by destruct (_ =? 1), (_ =? 2). }
    change (0 < reply.(StateReply.WorkerId) ≤ workers m' ∧
      reply.(StateReply.WorkerId) = reply.(StateReply.WorkerId) ∧
      reply.(StateReply.Cat) = reply.(StateReply.Cat) ∧
      reply.(StateReply.TaskId) = reply.(StateReply.TaskId) ∧
      handed_out m' reply.(StateReply.WorkerId) reply).
    by rewrite Hid, Hwk.
  - intros q qr Hq Heq'. exfalso. apply (Ha q qr Hq). rewrite <- Heq', <- Hid.
    unfold wid, Worker_reply. cbn [args_of]. by destruct (_ || _)%bool.
Qed.
(** ** Reachable jobs *)

Lemma MakeMaster_counts files n m :
  MakeMaster files n = Some m →
  MNreduce m = Z.of_nat n ∧ workers m = 0.
Proof using Type.
  unfold MakeMaster. cbn [mbind option_bind]. intros Hm.
  repeat match type of Hm with
  | (?x ≫= _) = _ => destruct x; cbn [mbind option_bind] in Hm; [|done]
  end. by injection Hm as <-.
Qed.

Lemma started_inv j : started inputs R j → inv j.
Proof using HR.
  intros [m fs Hm Hfs]. destruct (MakeMaster_ok (fst <$> inputs) R) as (m' & Heq & Hok & Hmt & Hms & Hrs).
  rewrite Hm in Heq. injection Heq as <-. destruct (MakeMaster_counts _ _ _ Hm) as [Hn Hw].
  constructor; cbn; try done.
  - by rewrite Hrs, length_replicate.
  - lia.
  - intros t w Ht. rewrite Hms in Ht. by apply lookup_replicate in Ht as [? _].
  - intros r Hr. rewrite Hrs in Hr. by apply lookup_replicate in Hr as [? _].
Qed.

Lemma step_inv j j' : inv j → step mapf reducef sort j j' → inv j'.
Proof using All.
  intros Hinv Hstep. destruct Hstep as [m fs ps p Hp|m fs ps p a m' reply Hp Heq
    |m fs ps p a reply fs' a' Hp Heq|m fs ps p pr fs' Hp Hw].
  - apply inv_insert; [done..| |done]. split; [done|]. split; [|done].
    cbn. pose proof (inv_workers _ _ _ _ _ _ Hinv) as Hwk. cbn in Hwk. lia.
  - destruct (inv_call m fs ps p a Hinv Hp) as (m2 & reply2 & Heq2 & Hinv2).
    rewrite Heq in Heq2. by injection Heq2 as <- <-.
  - by eapply inv_work.
  - by eapply inv_write.
Qed.

Lemma reachable_inv j : reachable mapf reducef sort inputs R j → inv j.
Proof using All. induction 1; [by apply started_inv|by eapply step_inv]. Qed.

(** ** The output *)

Hypothesis Horder : ∀ k vs vs', vs ≡ₚ vs' → reducef k vs = reducef k vs'.

Lemma sequential_pairs (fs : FS) pre :
  (∀ f c, (f, c) ∈ inputs → fs !! f = Some c) →
  foldM (λ kva filename, content ← fs !! filename; Some (kva ++ mapf filename content))
    pre (fst <$> inputs) = Some (pre ++ all_pairs mapf inputs).
Proof using Type.
  intros Hfs. unfold all_pairs.
  assert (kvs mapf inputs <$> seq 0 (length inputs) = (λ fc, mapf fc.1 fc.2) <$> inputs) as ->.
  { apply list_eq. intros i. rewrite !list_lookup_fmap.
    destruct (inputs !! i) as [[f c]|] eqn:Hi.
    - rewrite lookup_seq_lt by by eapply lookup_lt_Some. cbn. unfold kvs. by rewrite Hi.
    - apply lookup_ge_None in Hi. by rewrite lookup_seq_ge. }
  clear - Hfs. revert pre. induction inputs as [|[f c] l IH]; intros pre; [cbn; by rewrite app_nil_r|].
  cbn [fmap list_fmap foldM fst]. rewrite (Hfs f c) by left. cbn [mbind option_bind].
  rewrite IH; [cbn; by rewrite <- app_assoc|]. intros f' c' Hin. apply Hfs. by right.
Qed.

Lemma output_lines r :
  ∃ ks, distinct_keys (bucket (Z.of_nat R) r (all_pairs mapf inputs)) ks ∧
    ∃ text, output r = Some text ∧
      lines text = concat (lines <$> report_lines reducef (all_pairs mapf inputs) ks).
Proof using All.
  unfold MRJob.output.
  assert (concat ((λ t, bucket (Z.of_nat R) r (kvs mapf inputs t)) <$> seq 0 (length inputs))
    = bucket (Z.of_nat R) r (all_pairs mapf inputs)) as ->.
  { unfold all_pairs. by rewrite bucket_concat, <- list_fmap_compose. }
  destruct (reduce_all_ok reducef sort (bucket (Z.of_nat R) r (all_pairs mapf inputs)))
    as (ks & Hks & ->).
  exists ks. split; [done|]. eexists. split; [done|]. rewrite lines_cat. do 2 f_equal.
  rewrite (report_lines_perm _ _ _ _ Horder (sort_perm _)). by apply report_lines_bucket.
Qed.

(** The lines of all the outputs are those of the sequential program. *)
Lemma outputs_lines :
  ∃ texts, length texts = R ∧ (∀ (r : nat) text, texts !! r = Some text → output (Z.of_nat r) = Some text) ∧
    ∃ text, reduce_all reducef sort (all_pairs mapf inputs) = Some text ∧
      concat (lines <$> texts) ≡ₚ lines text.
Proof using All.
  destruct (list_choice (λ r kt,
    distinct_keys (bucket (Z.of_nat R) (Z.of_nat r) (all_pairs mapf inputs)) kt.1 ∧
    output (Z.of_nat r) = Some kt.2 ∧
    lines kt.2 = concat (lines <$> report_lines reducef (all_pairs mapf inputs) kt.1)) R)
    as (kts & Hlen & Hkts).
  { intros r _. destruct (output_lines (Z.of_nat r)) as (ks & Hks & text & Ho & Hl).
    by exists (ks, text). }
  exists (snd <$> kts). split; [by rewrite length_fmap|]. split.
  { intros r text Hr. rewrite list_lookup_fmap in Hr. destruct (kts !! r) as [kt|] eqn:Hkt; [|done].
    injection Hr as <-. apply (Hkts r kt Hkt). }
  destruct (reduce_all_ok reducef sort (all_pairs mapf inputs)) as (ks & Hks & ->).
  eexists. split; [done|]. rewrite lines_cat, (report_lines_perm _ _ _ _ Horder (sort_perm _)).
  assert (concat (fst <$> kts) ≡ₚ ks) as Hp.
  { apply (distinct_keys_buckets R (all_pairs mapf inputs)); [done..|by rewrite length_fmap|].
    intros r k Hr. rewrite list_lookup_fmap in Hr. destruct (kts !! r) as [kt|] eqn:Hkt; [|done].
    injection Hr as <-. apply (Hkts r kt Hkt). }
  assert (concat (lines <$> report_lines reducef (all_pairs mapf inputs) (concat (fst <$> kts)))
    ≡ₚ concat (lines <$> report_lines reducef (all_pairs mapf inputs) ks)) as <-.
  { unfold report_lines. by rewrite Hp. }
  assert (Forall (λ kt, lines kt.2
    = concat (lines <$> report_lines reducef (all_pairs mapf inputs) kt.1)) kts) as Hall.
  { apply Forall_lookup. intros r kt Hkt. apply (Hkts r kt Hkt). }
  clear - Hall. induction Hall as [|kt kts Hkt _ IH]; [done|].
  cbn [fmap list_fmap concat]. unfold report_lines in *. rewrite fmap_app, fmap_app, concat_app.
  by rewrite Hkt, IH.
Qed.
End preservation.

(** ** The theorems *)

(** What a job needs of its inputs: names that are not names of output files, a map
    function whose keys and values are words, a reduce function that does not
    look at the order of the values. *)
Record good_job (mapf : string → string → list KeyValue.t)
    (reducef : string → list string → string) (inputs : list (string * string)) (R : nat) : Prop := {
  good_R : (0 < R)%nat;
  good_names : ∀ f c, (f, c) ∈ inputs → ¬ reserved f;
  good_words : ∀ f c, (f, c) ∈ inputs → Forall word_pair (mapf f c);
  good_order : ∀ k vs vs', vs ≡ₚ vs' → reducef k vs = reducef k vs'
}.

(** C31: No process of a MapReduce job ever fails, for the applications and inputs of
    [good_job] (a reduce task, names that the job does not write to, words): whatever
    other workers did, crashed doing or are doing, the master answers every call and
    every task that was handed out can be carried out. *)
Theorem job_never_fails mapf reducef sort `{!SortsByKey sort} inputs R j p pr :
  good_job mapf reducef inputs R → reachable mapf reducef sort inputs R j →
  j.(procs) !! p = Some pr →
  match pr with
  | Asking a => ∃ m reply, RequestHandler a j.(master) = Some (m, reply)
  | Working a reply =>
      ∃ fs a', Worker_task mapf reducef sort reply j.(files) a = Some (fs, a') ∧
        a'.(StateArgs.Finished) = true ∧ a'.(StateArgs.Idle) = true
  end.
Proof.
  intros [HR Hn Hw _] Hr Hp.
  pose proof (reachable_inv mapf reducef sort inputs R HR Hn Hw j Hr) as Hinv. destruct j as [m fs ps].
  destruct pr as [a|a reply].
  - destruct (inv_call mapf reducef sort inputs R HR Hn Hw m fs ps p a Hinv Hp) as (m' & reply & Heq & _).
    by exists m', reply.
  - destruct (work_ok mapf reducef sort inputs R HR Hn Hw m fs ps p a reply Hinv Hp)
      as (fs' & a' & Heq & _). exists fs', a'. split; [exact Heq|].
    clear - Heq Hinv Hp. pose proof (inv_procs _ _ _ _ _ _ Hinv p _ Hp) as (_ & _ & _ & _ & Hout).
    unfold Worker_task in Heq.
    destruct Hout as [[Hc _]|[Hc _]]; rewrite Hc in Heq; cbn [Z.eqb Pos.eqb] in Heq.
    + unfold mapTask in Heq.
      repeat match type of Heq with (?x ≫= _) = _ => destruct x; cbn [mbind option_bind] in Heq; [|done] end.
      by injection Heq as _ <-.
    + unfold reduceTask in Heq.
      repeat match type of Heq with (?x ≫= _) = _ => destruct x; cbn [mbind option_bind] in Heq; [|done] end.
      by injection Heq as _ <-.
Qed.

(** The outputs of a finished job. *)
Lemma done_outputs mapf reducef sort `{!SortsByKey sort} inputs R j :
  good_job mapf reducef inputs R → reachable mapf reducef sort inputs R j →
  Done j.(master) = true →
  ∃ texts seq_fs text,
    length texts = R ∧
    (∀ (r : nat) t, texts !! r = Some t → j.(files) !! mr_out (Z.of_nat r) = Some t) ∧
    mrsequential mapf reducef sort (fst <$> inputs) j.(files) = Some seq_fs ∧
    seq_fs !! "mr-out-0" = Some text ∧
    concat (lines <$> texts) ≡ₚ lines text.
Proof.
  intros [HR Hn Hw Ho] Hr Hdone.
  pose proof (reachable_inv mapf reducef sort inputs R HR Hn Hw j Hr) as Hinv.
  destruct (outputs_lines mapf reducef sort inputs R HR Hn Hw Ho)
    as (texts & Hlen & Hout & text & Htext & Hperm).
  exists texts, (<["mr-out-0" := text]> j.(files)), text. split; [done|]. split; [|split; [|split]].
  - intros r t Ht. apply (Done_spec _ (inv_master _ _ _ _ _ _ Hinv)) in Hdone as [_ Hred].
    pose proof (lookup_lt_Some _ _ _ Ht) as Hlt. pose proof (inv_R _ _ _ _ _ _ Hinv) as HlR.
    destruct (lookup_lt_is_Some_2 (ReduceStatus j.(master)) r ltac:(lia)) as [b Hb].
    pose proof (Forall_lookup_1 _ _ _ _ Hred Hb) as ->.
    rewrite (inv_reduces _ _ _ _ _ _ Hinv r Hb). by apply Hout.
  - unfold mrsequential. rewrite (sequential_pairs mapf inputs j.(files) []) by apply (inv_inputs _ _ _ _ _ _ Hinv).
    cbn [mbind option_bind app]. by rewrite Htext.
  - by rewrite lookup_insert_eq.
  - done.
Qed.

(** C6: For an application and inputs as word count's ([good_job]: there is a reduce
    task; the input files are not named like files the job writes; every key and value
    that the map function emits for an input is a non-empty ASCII word without blanks;
    the reduce function does not look at the order of the values): when the master
    says that the job is done, every output file [mr-out-r] is there, and together
    their lines are those of the file that the sequential program writes for the same
    inputs, whatever the number of workers, the order of the calls, the tasks done
    twice and the workers that crashed. *)
Theorem job_matches_sequential mapf reducef sort `{!SortsByKey sort} inputs R j :
  good_job mapf reducef inputs R → reachable mapf reducef sort inputs R j →
  Done j.(master) = true →
  ∃ texts seq_fs text,
    length texts = R ∧
    (∀ (r : nat) t, texts !! r = Some t → j.(files) !! mr_out (Z.of_nat r) = Some t) ∧
    mrsequential mapf reducef sort (fst <$> inputs) j.(files) = Some seq_fs ∧
    seq_fs !! "mr-out-0" = Some text ∧
    concat (lines <$> texts) ≡ₚ lines text.
Proof. intros. by eapply done_outputs. Qed.

(** ** Word count, on two files, by two workers of which one crashes *)

Definition ex_inputs : list (string * string) := [("a.txt", "to be or"); ("b.txt", "not to be")].

Definition ex_start : Job :=
  mkJob (default ex_master (MakeMaster (fst <$> ex_inputs) 2)) (list_to_map ex_inputs) ∅.

Definition ex_job (l : list action) : Job :=
  default ex_start (acts WordCount.Map WordCount.Reduce by_key l ex_start).

(** Worker 0 takes the first map task and crashes; worker 1 does everything. *)
Definition ex_busy : list action := [Spawn 0; Spawn 1; Call 0; Call 1].
Definition ex_done : list action :=
  ex_busy ++ [Crash 0; Work 1; Call 1; Work 1; Call 1; Work 1; Call 1; Work 1; Call 1]%nat.

Lemma ex_good : good_job WordCount.Map WordCount.Reduce ex_inputs 2.
Proof.
  split; [lia|..].
  - intros f c Hin Hres. unfold ex_inputs in Hin. rewrite !elem_of_cons in Hin.
    destruct Hin as [?|[?|?%elem_of_nil]]; simplify_eq;
      by destruct Hres as [(? & ? & ? & ?)|[(? & ? & ?)|(? & ?)]].
  - intros. apply WordCount_words.
  - apply WordCount_order.
Defined.

Lemma ex_started : started ex_inputs 2 ex_start.
Proof.
  unfold ex_start. destruct (MakeMaster_ok (fst <$> ex_inputs) 2) as (m & Heq & _).
  rewrite Heq. constructor; [done|]. intros f c Hin. apply elem_of_list_to_map; [|done].
  unfold ex_inputs. cbn. repeat constructor; set_solver.
Qed.

Lemma ex_reachable l :
  is_Some (acts WordCount.Map WordCount.Reduce by_key l ex_start) →
  reachable WordCount.Map WordCount.Reduce by_key ex_inputs 2 (ex_job l).
Proof.
  intros [j Hj]. unfold ex_job. rewrite Hj.
  eapply acts_reachable; [|exact Hj]. apply reach_start, ex_started.
Qed.

Lemma job_never_fails_witness :
  ∃ args reply fs a', procs (ex_job ex_busy) !! 1%nat = Some (Working args reply) ∧
    Worker_task WordCount.Map WordCount.Reduce by_key reply (files (ex_job ex_busy)) args = Some (fs, a').
Proof.
  destruct (procs (ex_job ex_busy) !! 1%nat) as [[?|args reply]|] eqn:Hp.
  1, 3: by vm_compute in Hp.
  pose proof (@job_never_fails WordCount.Map WordCount.Reduce by_key _ ex_inputs 2 (ex_job ex_busy)
    1 (Working args reply) ex_good) as Hw.
  destruct Hw as (fs & a' & Heq & _); [apply ex_reachable, (bool_decide_eq_true_1 _); by vm_compute|exact Hp|].
  by exists args, reply, fs, a'.
Defined.

Lemma job_matches_sequential_witness :
  ∃ texts text, length texts = 2%nat ∧
    (∃ seq_fs, mrsequential WordCount.Map WordCount.Reduce by_key ["a.txt"; "b.txt"]
       (files (ex_job ex_done)) = Some seq_fs ∧ seq_fs !! "mr-out-0" = Some text) ∧
    concat (lines <$> texts) ≡ₚ lines text.
Proof.
  destruct (@job_matches_sequential WordCount.Map WordCount.Reduce by_key _ ex_inputs 2 (ex_job ex_done) ex_good)
    as (texts & seq_fs & text & Hlen & _ & Hseq & Htext & Hp).
  - apply ex_reachable, (bool_decide_eq_true_1 _). by vm_compute.
  - by vm_compute.
  - exists texts, text. split; [done|]. split; [|exact Hp].
    exists seq_fs. split; [exact Hseq|exact Htext].
Defined.
