(* ===== verification/MRTestApps.v ===== *)
(** The MapReduce applications that test the workers ([src/src/mrapps/crash.go],
    [nocrash.go], [mtiming.go], [rtiming.go]).

    [crash.go] and [nocrash.go] draw a number below 1000 at every call: a call of
    [crash.go] exits the process below 330 and sleeps up to ten seconds below 660.
    An application whose functions may exit is a pair of partial functions of the
    draw; [Exiting.step] is the job of [MRJob] with such an application: a map
    task exits before it writes, a reduce task in the middle of its output file.

    [mtiming.go] and [rtiming.go] count the workers of a phase by the files they
    leave in the directory; the clock, [getpid] and [kill(pid, 0)] are arguments. *)
From Stdlib Require Import Ascii.
From stdpp Require Import pretty sorting.
From S2P Require Import Prelude MRMaster MRMasterProps MRWorker MRWorkerProps MRApps MRJob MRJobProps.
Open Scope string_scope. Open Scope list_scope. Open Scope Z_scope.
#[local] Arguments String.append : simpl nomatch.

(** A draw of [maybeCrash]: a number below 1000, and the delay in milliseconds. *)
Record Draw := mkDraw { rr : Z; ms : Z }.

(** The pairs of [Map], the same in both applications *)
Definition crash_kva (filename contents : string) : list KeyValue.t :=
  [KeyValue.mk "a" filename;
   KeyValue.mk "b" (pretty (String.length filename));
   KeyValue.mk "c" (pretty (String.length contents));
   KeyValue.mk "d" "xyzzy"].

(** [sort.Strings] and [strings.Join] *)
Definition sorted_join (values : list string) : string :=
  String.concat " " (merge_sort String.le values).

(** [None] is [os.Exit(1)]; the number is the time slept. *)
Module Crash.
Definition maybeCrash (d : Draw) : option Z :=
  if d.(rr) <? 330 then None
  else if d.(rr) <? 660 then Some d.(ms) else Some 0.

Definition Map (d : Draw) (filename contents : string) : option (list KeyValue.t) :=
  _ ← maybeCrash d; Some (crash_kva filename contents).

Definition Reduce (d : Draw) (key : string) (values : list string) : option string :=
  _ ← maybeCrash d; Some (sorted_join values).
End Crash.

Module NoCrash.
Definition maybeCrash (d : Draw) : option Z :=
  if false && (d.(rr) <? 500) then None else Some 0.

Definition Map (d : Draw) (filename contents : string) : option (list KeyValue.t) :=
  _ ← maybeCrash d; Some (crash_kva filename contents).

Definition Reduce (d : Draw) (key : string) (values : list string) : option string :=
  _ ← maybeCrash d; Some (sorted_join values).
End NoCrash.

(** ** Jobs whose application may exit *)
Module Exiting.
Section exiting.
Context {D : Type} (mapf : D → string → string → option (list KeyValue.t)).
Context (reducef : D → string → list string → option string).
Context (sort : list KeyValue.t → list KeyValue.t).

(** The loop of [reduceTask] with the [n]-th call of [Reduce] on draw [draw n]; the
    flag says that the loop came to its end. *)
Fixpoint reduce_loop (fuel : nat) (draw : nat → D) (n : nat) (l : list KeyValue.t) (i : Z)
    (out : string) : option (string * bool) :=
  match fuel with
  | O => None
  | S fuel =>
      if i <? zlen l then
        j ← run_end (S (length l)) l i (i + 1);
        values ← mapM (λ k, KeyValue.Value <$> zget l k) (zrange i (j - 1));
        kv ← zget l i;
        match reducef (draw n) kv.(KeyValue.Key) values with
        | None => Some (out, false)
        | Some output => reduce_loop fuel draw (S n) l j (out +:+ line kv.(KeyValue.Key) output)
        end
      else Some (out, true)
  end.

Definition reduceTask (draw : nat → D) (reply : StateReply.t) (fs : FS) (args : StateArgs.t)
    : option (FS * option StateArgs.t) :=
  intermediate ← readInterFiles reply.(StateReply.TaskId) reply.(StateReply.FileNames) fs;
  let oname := out_path reply.(StateReply.TaskId) reply.(StateReply.WorkerId) in
  let l := sort intermediate in
  '(text, finished) ← reduce_loop (S (length l)) draw 0 l 0 "";
  Some (<[oname := text]> fs,
        if finished : bool then
          Some (args <| StateArgs.Finished := true |> <| StateArgs.Idle := true |>
                     <| StateArgs.FileName := oname |>)
        else None).

(** The call of [Map] comes before any write. *)
Definition mapTask (draw : nat → D) (reply : StateReply.t) (fs : FS) (args : StateArgs.t)
    : option (FS * option StateArgs.t) :=
  content ← fs !! reply.(StateReply.FileName);
  match mapf (draw 0%nat) reply.(StateReply.FileName) content with
  | None => Some (fs, None)
  | Some kva =>
      '(fs, args) ← mapTask (λ _ _, kva) reply.(StateReply.FileName)
        reply.(StateReply.Nreduce) reply.(StateReply.TaskId) fs args;
      Some (fs, Some args)
  end.

(** A task of a worker: the files it leaves, and its arguments unless it exited. *)
Definition Worker_task (draw : nat → D) (reply : StateReply.t) (fs : FS) (args : StateArgs.t)
    : option (FS * option StateArgs.t) :=
  if reply.(StateReply.Cat) =? 1 then mapTask draw reply fs args
  else if reply.(StateReply.Cat) =? 2 then reduceTask draw reply fs args
  else Some (fs, Some args).

Inductive step : Job → Job → Prop :=
  | step_spawn m fs ps p :
      ps !! p = None → step (mkJob m fs ps) (mkJob m fs (<[p := Asking initial_args]> ps))
  | step_call m fs ps p args m' reply :
      ps !! p = Some (Asking args) →
      RequestHandler args m = Some (m', reply) →
      step (mkJob m fs ps)
        (mkJob m' (foldl rename fs (renamed m m'))
           (if Worker_returns reply then delete p ps
            else <[p := Working (Worker_reply args reply) reply]> ps))
  | step_work m fs ps p args reply draw fs' r :
      ps !! p = Some (Working args reply) →
      Worker_task draw reply fs args = Some (fs', r) →
      step (mkJob m fs ps)
        (mkJob m fs' (match r with Some args' => <[p := Asking args']> ps | None => delete p ps end)).

Inductive reachable (inputs : list (string * string)) (R : nat) : Job → Prop :=
  | reach_start j : started inputs R j → reachable inputs R j
  | reach_step j j' : reachable inputs R j → step j j' → reachable inputs R j'.

(** The steps as functions, for running a job. *)
Inductive action := Spawn (p : nat) | Call (p : nat) | Work (p : nat) (draw : nat → D).

Definition act (a : action) (j : Job) : option Job :=
  let '(mkJob m fs ps) := j in
  match a with
  | Spawn p =>
      match ps !! p with
      | None => Some (mkJob m fs (<[p := Asking initial_args]> ps))
      | Some _ => None
      end
  | Call p =>
      match ps !! p with
      | Some (Asking args) =>
          '(m', reply) ← RequestHandler args m;
          Some (mkJob m' (foldl rename fs (renamed m m'))
            (if Worker_returns reply then delete p ps
             else <[p := Working (Worker_reply args reply) reply]> ps))
      | _ => None
      end
  | Work p draw =>
      match ps !! p with
      | Some (Working args reply) =>
          '(fs', r) ← Worker_task draw reply fs args;
          Some (mkJob m fs'
            (match r with Some args' => <[p := Asking args']> ps | None => delete p ps end))
      | _ => None
      end
  end.

Fixpoint acts (l : list action) (j : Job) : option Job :=
  match l with [] => Some j | a :: l => j ← act a j; acts l j end.

Lemma exiting_act_step a j j' : act a j = Some j' → step j j'.
Proof.
  destruct j as [m fs ps], a as [p|p|p draw]; cbn.
  - destruct (ps !! p) eqn:Hp; [done|]. intros [= <-]. by constructor.
  - destruct (ps !! p) as [[args|]|] eqn:Hp; [|done..].
    destruct (RequestHandler args m) as [[m' reply]|] eqn:Heq; cbn; [|done].
    intros [= <-]. by econstructor.
  - destruct (ps !! p) as [[|args reply]|] eqn:Hp; [done| |done].
    destruct (Worker_task _ _ _ _) as [[fs' r]|] eqn:Heq; cbn; [|done].
    intros [= <-]. by econstructor.
Qed.

Lemma exiting_acts_reachable inputs R l j j' :
  reachable inputs R j → acts l j = Some j' → reachable inputs R j'.
Proof.
  revert j. induction l as [|a l IH]; cbn; intros j Hj Hacts; [by injection Hacts as <-|].
  destruct (act a j) as [j1|] eqn:Hact; cbn in Hacts; [|done].
  eapply IH; [|exact Hacts]. eapply reach_step; [exact Hj|]. by eapply exiting_act_step.
Qed.

(** ** It refines the job of an application that does not exit *)

Context (mapf' : string → string → list KeyValue.t) (reducef' : string → list string → string).
Hypothesis Hmap : ∀ d f c kva, mapf d f c = Some kva → kva = mapf' f c.
Hypothesis Hreduce : ∀ d k vs s, reducef d k vs = Some s → s = reducef' k vs.

Lemma reduce_loop_finished draw fuel n l i out text :
  reduce_loop fuel draw n l i out = Some (text, true) →
  MRWorker.reduce_loop reducef' fuel l i out = Some text.
Proof using Hreduce.
  revert n i out. induction fuel as [|fuel IH]; intros n i out; [done|].
  cbn [reduce_loop MRWorker.reduce_loop].
  destruct (i <? zlen l); [|by intros [= ->]].
  destruct (run_end (S (length l)) l i (i + 1)) as [j|]; cbn [mbind option_bind]; [|done].
  destruct (mapM _ _) as [values|]; cbn [mbind option_bind]; [|done].
  destruct (zget l i) as [kv|]; cbn [mbind option_bind]; [|done].
  destruct (reducef _ _ _) as [s|] eqn:Hs; [|done].
  intros Heq. apply Hreduce in Hs as ->. exact (IH _ _ _ Heq).
Qed.

Lemma reduce_loop_total draw fuel n l i out text :
  MRWorker.reduce_loop reducef' fuel l i out = Some text →
  is_Some (reduce_loop fuel draw n l i out).
Proof using Hreduce.
  revert n i out. induction fuel as [|fuel IH]; intros n i out; [done|].
  cbn [reduce_loop MRWorker.reduce_loop].
  destruct (i <? zlen l); [|by eexists].
  destruct (run_end (S (length l)) l i (i + 1)) as [j|]; cbn [mbind option_bind]; [|done].
  destruct (mapM _ _) as [values|]; cbn [mbind option_bind]; [|done].
  destruct (zget l i) as [kv|]; cbn [mbind option_bind]; [|done].
  destruct (reducef _ _ _) as [s|] eqn:Hs; [|by eexists].
  apply Hreduce in Hs as ->. apply IH.
Qed.

Lemma mapTask_ext f g filename content nreduce t fs args :
  fs !! filename = Some content → f filename content = g filename content →
  MRWorker.mapTask f filename nreduce t fs args = MRWorker.mapTask g filename nreduce t fs args.
Proof using Type. intros Hfs Heq. unfold MRWorker.mapTask. rewrite Hfs. cbn. by rewrite Heq. Qed.

(** A task that is carried out is a task of the application that does not exit; a
    task that exits leaves every file alone but the one it was writing. *)
Lemma Worker_task_finished draw reply fs args fs' args' :
  Worker_task draw reply fs args = Some (fs', Some args') →
  MRWorker.Worker_task mapf' reducef' sort reply fs args = Some (fs', args').
Proof using Hmap Hreduce.
  unfold Worker_task, MRWorker.Worker_task. destruct (_ =? 1).
  - unfold mapTask. destruct (fs !! _) as [c|] eqn:Hfs; cbn; [|done].
    destruct (mapf _ _ _) as [kva|] eqn:Hm; [|done]. apply Hmap in Hm.
    destruct (MRWorker.mapTask _ _ _ _ _ _) as [[fs1 a1]|] eqn:Heq; cbn; [|done].
    intros [= <- <-]. rewrite <- Heq. by eapply mapTask_ext.
  - destruct (_ =? 2); [|by intros [= <- <-]].
    unfold reduceTask, MRWorker.reduceTask, reduce_all.
    destruct (readInterFiles _ _ _) as [inter|]; cbn [mbind option_bind]; [|done].
    destruct (reduce_loop _ _ _ _ _ _) as [[text []]|] eqn:Heq; cbn [mbind option_bind]; [|done..].
    intros [= <- <-]. apply reduce_loop_finished in Heq. by rewrite Heq.
Qed.

Lemma Worker_task_exited draw reply fs args fs' path :
  args.(StateArgs.WorkerId) = reply.(StateReply.WorkerId) →
  Worker_task draw reply fs args = Some (fs', None) →
  ¬ writes (Working args reply) path → fs' !! path = fs !! path.
Proof using Type.
  intros Hw. unfold Worker_task. destruct (_ =? 1) eqn:H1.
  - unfold mapTask. destruct (fs !! _); cbn; [|done].
    destruct (mapf _ _ _); [|by intros [= <-]].
    destruct (MRWorker.mapTask _ _ _ _ _ _) as [[??]|]; cbn; done.
  - destruct (_ =? 2) eqn:H2; [|done]. unfold reduceTask.
    destruct (readInterFiles _ _ _); cbn [mbind option_bind]; [|done].
    destruct (reduce_loop _ _ _ _ _ _) as [[text []]|]; cbn [mbind option_bind]; [done| |done].
    intros [= <-] Hpath. apply lookup_insert_ne. intros <-. apply Hpath. right.
    rewrite Hw. apply Z.eqb_eq in H2. done.
Qed.

Lemma Worker_task_total draw reply fs args :
  is_Some (MRWorker.Worker_task mapf' reducef' sort reply fs args) →
  is_Some (Worker_task draw reply fs args).
Proof using Hmap Hreduce.
  unfold Worker_task, MRWorker.Worker_task. destruct (_ =? 1).
  - unfold mapTask. destruct (fs !! _) as [c|] eqn:Hfs; cbn [mbind option_bind].
    2: { unfold MRWorker.mapTask. rewrite Hfs. by intros []. }
    destruct (mapf _ _ _) as [kva|] eqn:Hm; [|by eexists]. apply Hmap in Hm.
    rewrite (mapTask_ext (λ _ _, kva) mapf' _ c) by done. intros [[fs' a'] ->]. by eexists.
  - destruct (_ =? 2); [|by eexists]. unfold reduceTask, MRWorker.reduceTask, reduce_all.
    destruct (readInterFiles _ _ _) as [inter|]; cbn [mbind option_bind]; [|by intros []].
    destruct (MRWorker.reduce_loop _ _ _ _ _) as [text|] eqn:Heq; [|by intros []]. intros _.
    destruct (reduce_loop_total draw _ 0 _ _ _ _ Heq) as [[text' b] ->]. by eexists.
Qed.

Lemma step_refines inputs R j j' :
  inv mapf' reducef' sort inputs R j → step j j' → MRJob.step mapf' reducef' sort j j'.
Proof using Hmap Hreduce.
  intros Hinv Hstep. destruct Hstep as [| |m fs ps p args reply draw fs' [args'|] Hp Htask].
  - by constructor.
  - by econstructor.
  - econstructor; [done|]. by eapply Worker_task_finished.
  - eapply MRJob.step_crash; [done|]. intros path. eapply Worker_task_exited; [|done].
    by destruct (inv_procs _ _ _ _ _ _ Hinv p _ Hp) as (_ & ? & _).
Qed.

Lemma reachable_refines `{!SortsByKey sort} inputs R j :
  good_job mapf' reducef' inputs R → reachable inputs R j →
  MRJob.reachable mapf' reducef' sort inputs R j.
Proof using Hmap Hreduce.
  intros Hgood Hr. destruct Hgood as [HR Hn Hw _].
  induction Hr as [j Hj|j j' Hr IH Hstep]; [by apply MRJob.reach_start|].
  eapply MRJob.reach_step; [done|]. eapply step_refines; [|done]. by apply reachable_inv.
Qed.
End exiting.
End Exiting.

(** ** The application that crashes *)

Lemma Crash_Map d f c kva : Crash.Map d f c = Some kva → kva = crash_kva f c.
Proof. unfold Crash.Map. destruct (Crash.maybeCrash d); cbn; by intros [= <-]. Qed.

Lemma Crash_Reduce d k vs s : Crash.Reduce d k vs = Some s → s = sorted_join vs.
Proof. unfold Crash.Reduce. destruct (Crash.maybeCrash d); cbn; by intros [= <-]. Qed.

Lemma sorted_join_order vs vs' : vs ≡ₚ vs' → sorted_join vs = sorted_join vs'.
Proof.
  intros Hp. unfold sorted_join. f_equal.
  apply (StronglySorted_unique String.le); [apply StronglySorted_merge_sort; apply _..|].
  by rewrite !merge_sort_Permutation.
Qed.

Lemma pretty_N_go_plain x s : plain s = true → plain (pretty_N_go x s) = true.
Proof.
  revert s. induction (N.lt_wf_0 x) as [x _ IH]; intros s Hs.
  destruct (decide (x = 0)%N) as [->|]; [by rewrite pretty_N_go_0|].
  rewrite pretty_N_go_step by lia. apply IH; [apply N.div_lt; lia|].
  cbn. rewrite Hs, andb_true_r. unfold pretty_N_char. by repeat case_match.
Qed.

Lemma pretty_N_go_long x s : s ≠ "" → pretty_N_go x s ≠ "".
Proof.
  revert s. induction (N.lt_wf_0 x) as [x _ IH]; intros s Hs.
  destruct (decide (x = 0)%N) as [->|]; [by rewrite pretty_N_go_0|].
  rewrite pretty_N_go_step by lia. apply IH; [apply N.div_lt; lia|done].
Qed.

Lemma pretty_nat_word (n : nat) : word (pretty n).
Proof.
  unfold pretty, pretty_nat, pretty, pretty_N. destruct (decide _) as [|Hn]; [by split|].
  split; [by apply pretty_N_go_plain|]. rewrite pretty_N_go_step by lia. by apply pretty_N_go_long.
Qed.

Lemma crash_kva_words f c : word f → Forall word_pair (crash_kva f c).
Proof.
  intros Hf. unfold crash_kva.
  repeat (apply Forall_cons_2; [split; cbn; done || apply pretty_nat_word|]). done.
Qed.

(** The job of [nocrash.go], as [MRJob] takes it. *)
Definition nocrash_map (d : Draw) (f c : string) : list KeyValue.t := default [] (NoCrash.Map d f c).
Definition nocrash_reduce (d : Draw) (k : string) (vs : list string) : string :=
  default "" (NoCrash.Reduce d k vs).

Definition plain_inputs (inputs : list (string * string)) : Prop :=
  ∀ f c, (f, c) ∈ inputs → word f ∧ ¬ reserved f.

Lemma nocrash_good d inputs R :
  (0 < R)%nat → plain_inputs inputs → good_job (nocrash_map d) (nocrash_reduce d) inputs R.
Proof.
  intros HR Hin. split; [done|..].
  - intros f c H. by apply (Hin f c).
  - intros f c H. apply crash_kva_words. by apply (Hin f c).
  - intros k vs vs' Hp. by apply sorted_join_order.
Qed.

(** C30: A job of [crash.go], whose calls exit the worker one time in three, is a job
    of [nocrash.go] in which workers crash, when there is a reduce task and the names
    of the input files are ASCII words without blanks, unlike those of the files the
    job writes ([plain_inputs]; the applications emit the names as values): no task
    that a worker holds ever panics, whatever the draws, so it is carried out or
    exits; and when the master says that the job is done, the lines of the output
    files are those that the sequential program writes for [nocrash.go]. *)
Theorem crashing_job_output sort `{!SortsByKey sort} inputs R j d :
  (0 < R)%nat → plain_inputs inputs →
  Exiting.reachable Crash.Map Crash.Reduce sort inputs R j →
  (∀ p a reply draw, j.(procs) !! p = Some (Working a reply) →
     is_Some (Exiting.Worker_task Crash.Map Crash.Reduce sort draw reply j.(files) a)) ∧
  (Done j.(master) = true →
     ∃ texts seq_fs text,
       length texts = R ∧
       (∀ (r : nat) t, texts !! r = Some t → j.(files) !! mr_out (Z.of_nat r) = Some t) ∧
       mrsequential (nocrash_map d) (nocrash_reduce d) sort (fst <$> inputs) j.(files) = Some seq_fs ∧
       seq_fs !! "mr-out-0" = Some text ∧
       concat (lines <$> texts) ≡ₚ lines text).
Proof.
  intros HR Hin Hreach. pose proof (nocrash_good d inputs R HR Hin) as Hgood.
  apply (Exiting.reachable_refines Crash.Map Crash.Reduce sort (nocrash_map d) (nocrash_reduce d)
    Crash_Map Crash_Reduce) in Hreach; [|done].
  split; [|by apply done_outputs].
  intros p a reply draw Hp. destruct Hgood as [_ Hn Hw _].
  eapply (Exiting.Worker_task_total _ _ _ _ _ Crash_Map Crash_Reduce).
  destruct j as [m fs ps]. pose proof (reachable_inv _ _ _ _ _ HR Hn Hw _ Hreach) as Hinv.
  destruct (work_ok _ _ _ _ _ HR Hn Hw m fs ps p a reply Hinv Hp) as (fs' & a' & Heq & _).
  by eexists.
Qed.

(** *** Three workers: the first exits in its map task, the second after the first
    line of its output file. *)
Definition ct_inputs : list (string * string) := [("in.txt", "some text")].

Definition ct_start : Job :=
  mkJob (default ex_master (MakeMaster (fst <$> ct_inputs) 1)) (list_to_map ct_inputs) ∅.

Definition draws (l : list Z) (n : nat) : Draw := mkDraw (default 999 (l !! n)) 5000.

Definition ct_run : list (@Exiting.action Draw) :=
  [Exiting.Spawn 0; Exiting.Spawn 1; Exiting.Spawn 2;
   Exiting.Call 0; Exiting.Work 0 (draws [329%Z]);
   Exiting.Call 1; Exiting.Work 1 (draws [330%Z]); Exiting.Call 1;
   Exiting.Work 1 (draws [700%Z; 0%Z]);
   Exiting.Call 2; Exiting.Work 2 (draws []); Exiting.Call 2]%nat.

Definition ct_job : Job :=
  default ct_start (Exiting.acts Crash.Map Crash.Reduce by_key ct_run ct_start).

(** What the worker that exited in its reduce task left behind *)
Example ct_partial :
  (λ j, j.(files) !! "out-0-2") <$>
    Exiting.acts Crash.Map Crash.Reduce by_key (take 9 ct_run) ct_start =
  Some (Some (line "a" "in.txt")).
Proof. by vm_compute. Qed.

Lemma ct_plain : plain_inputs ct_inputs.
Proof.
  intros f c [= -> ->]%list_elem_of_singleton. split; [by split|].
  intros [(? & ? & ? & ?)|[(? & ? & ?)|(? & ?)]]; done.
Qed.

Lemma ct_reachable : Exiting.reachable Crash.Map Crash.Reduce by_key ct_inputs 1 ct_job.
Proof.
  unfold ct_job. destruct (Exiting.acts _ _ _ ct_run ct_start) as [j|] eqn:Hj.
  - eapply Exiting.exiting_acts_reachable; [|exact Hj]. apply Exiting.reach_start.
    unfold ct_start. destruct (MakeMaster_ok (fst <$> ct_inputs) 1) as (m & Heq & _).
    rewrite Heq. constructor; [done|]. intros f c Hin. apply elem_of_list_to_map; [|done].
    unfold ct_inputs. cbn. repeat constructor; set_solver.
  - by vm_compute in Hj.
Qed.

Lemma crashing_job_output_witness :
  Done (master ct_job) = true ∧
  ∃ texts seq_fs text,
    mrsequential (nocrash_map (mkDraw 0 0)) (nocrash_reduce (mkDraw 0 0)) by_key ["in.txt"] (files ct_job)
      = Some seq_fs ∧
    seq_fs !! "mr-out-0" = Some text ∧ concat (lines <$> texts) ≡ₚ lines text.
Proof.
  assert (Done (master ct_job) = true) as Hdone by by vm_compute.
  split; [exact Hdone|].
  destruct (@crashing_job_output by_key _ ct_inputs 1 ct_job (mkDraw 0 0)) as [_ Hout].
  - lia.
  - exact ct_plain.
  - exact ct_reachable.
  - destruct (Hout Hdone) as (texts & seq_fs & text & _ & _ & Hseq & Htext & Hp).
    exists texts, seq_fs, text. split; [exact Hseq|]. split; [exact Htext|exact Hp].
Defined.

(** ** The applications that count the workers *)

(** [fmt.Sscanf(name, "mr-worker-<phase>-%d", &xpid)] with no error: the text of the
    format, space that is no newline, a sign, decimal digits of a number of 64
    bits.  What follows the number is not looked at. *)
Module Timing.
Definition prefix_of (phase : string) : string := "mr-worker-" +:+ phase +:+ "-".

Fixpoint literal (pat s : string) : option string :=
  match pat, s with
  | EmptyString, s => Some s
  | String c pat, String c' s => if Ascii.eqb c c' then literal pat s else None
  | _, _ => None
  end.

Definition digit (c : ascii) : option Z :=
  let n := Z.of_N (N_of_ascii c) - 48 in if (0 <=? n) && (n <? 10) then Some n else None.

(** The digits at the front of [s]; [acc] is the value of those before, if any. *)
Fixpoint number (s : string) (acc : option Z) : option Z :=
  match s with
  | String c s' =>
      match digit c with Some n => number s' (Some (default 0 acc * 10 + n)) | None => acc end
  | EmptyString => acc
  end.

Definition int64 (z : Z) : option Z :=
  if (- 2 ^ 63 <=? z) && (z <? 2 ^ 63) then Some z else None.

Definition scan_int (s : string) : option Z :=
  match SkipSpace s with
  | (true, _) => None
  | (false, String "-" s) => z ← number s None; int64 (- z)
  | (false, String "+" s) => z ← number s None; int64 z
  | (false, s) => z ← number s None; int64 z
  end.

Definition Sscanf (phase name : string) : option Z := literal (prefix_of phase) name ≫= scan_int.

Section nparallel.
(** [kill(pid, 0)] finds the process *)
Context (alive : Z → bool).

Definition counted (phase name : string) : bool :=
  match Sscanf phase name with Some xpid => alive xpid | None => false end.

(** The loop over the names of the directory, of which [Readdirnames] gives at most
    1000000. *)
Definition count_names (phase : string) (names : list string) : Z :=
  foldl (λ ret name, if counted phase name then ret + 1 else ret) 0 names.

(** Entering and leaving: the files are a set of names. *)
Definition myfilename (phase : string) (pid : Z) : string := prefix_of phase +:+ pretty pid.

Definition enter (phase : string) (pid : Z) (dir : gset string) : gset string :=
  {[myfilename phase pid]} ∪ dir.

Definition observe (phase : string) (names : list string) : Z :=
  count_names phase (take (Z.to_nat 1000000) names).

(** [os.Remove]; a missing file is a panic. *)
Definition leave (phase : string) (pid : Z) (dir : gset string) : option (gset string) :=
  if decide (myfilename phase pid ∈ dir) then Some (dir ∖ {[myfilename phase pid]}) else None.

(** The calls of one process with no other in between; [names] is the listing. *)
Definition nparallel (phase : string) (pid : Z) (names : list string) (dir : gset string)
    : option (gset string * Z) :=
  let dir := enter phase pid dir in
  let ret := observe phase names in
  dir ← leave phase pid dir; Some (dir, ret).
End nparallel.

(** [now] is the clock as text; [n] is what [nparallel("map")] returns. *)
Definition MMap (now : string) (pid n : Z) : list KeyValue.t :=
  [KeyValue.mk ("times-" +:+ pretty pid) now; KeyValue.mk ("parallel-" +:+ pretty pid) (pretty n)].

Definition MReduce (key : string) (values : list string) : string := sorted_join values.

Definition RMap (filename contents : string) : list KeyValue.t :=
  (λ k, KeyValue.mk k "1") <$> ["a"; "b"; "c"; "d"; "e"; "f"; "g"; "h"; "i"; "j"].

(** [n] is what [nparallel("reduce")] returns. *)
Definition RReduce (n : Z) (key : string) (values : list string) : string := pretty n.
End Timing.

Lemma digit_char x : (x < 10)%N → Timing.digit (pretty_N_char x) = Some (Z.of_N x).
Proof.
  intros Hx. unfold Timing.digit, pretty_N_char.
  assert (x = 0 ∨ x = 1 ∨ x = 2 ∨ x = 3 ∨ x = 4 ∨ x = 5 ∨ x = 6 ∨ x = 7 ∨ x = 8 ∨ x = 9)%N
    by lia. naive_solver.
Qed.

(** Reading what [pretty_N_go] wrote in front of [s] *)
Lemma number_go x s :
  (0 < x)%N → Timing.number (pretty_N_go x s) None = Timing.number s (Some (Z.of_N x)).
Proof.
  revert s. induction (N.lt_wf_0 x) as [x _ IH]; intros s Hx.
  rewrite pretty_N_go_step by done.
  pose proof (N.div_mod x 10 ltac:(done)) as Hdm. pose proof (N.mod_lt x 10 ltac:(done)) as Hm.
  destruct (decide (x `div` 10 = 0)%N) as [H0|H0].
  - rewrite H0, pretty_N_go_0. cbn. rewrite digit_char by done. cbn. do 2 f_equal. lia.
  - rewrite IH by first [lia|apply N.div_lt; lia]. cbn. rewrite digit_char by done. cbn.
    do 2 f_equal. lia.
Qed.

Lemma pretty_N_go_head x s :
  (0 < x)%N → ∃ c s', pretty_N_go x s = String c s' ∧ is_Some (Timing.digit c).
Proof.
  revert s. induction (N.lt_wf_0 x) as [x _ IH]; intros s Hx.
  rewrite pretty_N_go_step by done.
  destruct (decide (x `div` 10 = 0)%N) as [H0|H0].
  - rewrite H0, pretty_N_go_0. eexists _, _. split; [done|].
    rewrite digit_char by (apply N.mod_lt; lia). by eexists.
  - apply IH; [apply N.div_lt; lia|by apply N.neq_0_lt_0].
Qed.

Lemma digit_plain c :
  is_Some (Timing.digit c) →
  Ascii.eqb c nl = false ∧ isSpace c = false ∧ c ≠ "-"%char ∧ c ≠ "+"%char.
Proof.
  intros Hd. assert (bool_decide (is_Some (Timing.digit c)) = true) as Hb by by apply bool_decide_true.
  clear Hd. revert Hb. destruct c as [[] [] [] [] [] [] [] []]; vm_compute; by intros.
Qed.

Lemma scan_int_digit c s :
  is_Some (Timing.digit c) →
  Timing.scan_int (String c s) = Timing.number (String c s) None ≫= Timing.int64.
Proof.
  intros (Hnl & Hsp & Hm & Hp)%digit_plain. unfold Timing.scan_int. cbn [SkipSpace].
  rewrite Hnl, Hsp. generalize (Timing.number (String c s) None). intros r.
  destruct c as [[] [] [] [] [] [] [] []]; done.
Qed.

Lemma scan_int_pretty (p : Z) :
  0 < p < 2 ^ 63 → Timing.scan_int (pretty p) = Some p.
Proof.
  intros Hp. destruct p as [|p|p]; [lia| |lia].
  unfold pretty, pretty_Z, pretty, pretty_positive, pretty, pretty_N. rewrite decide_False by done.
  destruct (pretty_N_go_head (N.pos p) "" ltac:(lia)) as (c & s & Heq & Hd).
  rewrite Heq, scan_int_digit, <- Heq by done. rewrite number_go by lia. cbn.
  unfold Timing.int64. by rewrite (proj2 (Z.leb_le _ _)), (proj2 (Z.ltb_lt _ _)) by lia.
Qed.

Lemma literal_app pat s : Timing.literal pat (pat +:+ s) = Some s.
Proof. induction pat as [|c pat IH]; cbn; [done|]. by rewrite Ascii.eqb_refl. Qed.

Lemma Sscanf_myfilename phase p :
  0 < p < 2 ^ 63 → Timing.Sscanf phase (Timing.myfilename phase p) = Some p.
Proof.
  intros Hp. unfold Timing.Sscanf, Timing.myfilename. rewrite literal_app. by apply scan_int_pretty.
Qed.

Section counting.
Context (alive : Z → bool) (phase : string).

Lemma count_names_filter names :
  Timing.count_names alive phase names =
  Z.of_nat (length (filter (λ f, Timing.counted alive phase f = true) names)).
Proof.
  unfold Timing.count_names.
  enough (∀ k, foldl (λ ret name, if Timing.counted alive phase name then ret + 1 else ret) k names =
    k + Z.of_nat (length (filter (λ f, Timing.counted alive phase f = true) names))) as ->; [done|].
  induction names as [|f names IH]; intros k; cbn [foldl]; [cbn; lia|].
  rewrite IH, filter_cons. destruct (Timing.counted alive phase f); case_decide; try done.
  rewrite length_cons. lia.
Qed.

(** The files of a directory: one per worker of the phase that has not taken its own
    away, and others whose names are not of that form. *)
Context (W : gset Z) (others : gset string).
Hypothesis Hpids : ∀ p, p ∈ W → 0 < p < 2 ^ 63.
Hypothesis Hothers : ∀ f, f ∈ others → Timing.Sscanf phase f = None.

Definition worker_files : gset string := set_map (Timing.myfilename phase) W.

Lemma worker_files_list :
  elements (worker_files ∪ others) ≡ₚ (Timing.myfilename phase <$> elements W) ++ elements others.
Proof using All.
  apply NoDup_Permutation; [apply NoDup_elements|..].
  - apply NoDup_app. split; [|split; [|apply NoDup_elements]].
    + apply NoDup_fmap_2_strong; [|apply NoDup_elements].
      intros p q Hp%elem_of_elements%Hpids Hq%elem_of_elements%Hpids Heq.
      apply (f_equal (Timing.Sscanf phase)) in Heq. rewrite !Sscanf_myfilename in Heq by done.
      by injection Heq.
    + intros f (p & -> & Hp%elem_of_elements)%list_elem_of_fmap Hf%elem_of_elements%Hothers.
      rewrite Sscanf_myfilename in Hf by auto. done.
  - intros f. unfold worker_files. rewrite elem_of_app, list_elem_of_fmap, !elem_of_elements. set_solver.
Qed.

Lemma counted_worker p : p ∈ W → Timing.counted alive phase (Timing.myfilename phase p) = alive p.
Proof using Hpids. intros Hp. unfold Timing.counted. by rewrite Sscanf_myfilename by auto. Qed.

Lemma filter_workers l :
  (∀ p, p ∈ l → p ∈ W) →
  length (filter (λ f, Timing.counted alive phase f = true) (Timing.myfilename phase <$> l)) =
  length (filter (λ p, alive p = true) l).
Proof using Hpids.
  induction l as [|p l IH]; intros Hl; [done|]. rewrite fmap_cons, !filter_cons.
  rewrite counted_worker by (apply Hl; left). case_decide; cbn [length]; rewrite IH; try done;
    intros q Hq; apply Hl; by right.
Qed.

Lemma filter_others l :
  (∀ f, f ∈ l → f ∈ others) → filter (λ f, Timing.counted alive phase f = true) l = [].
Proof using Hothers.
  induction l as [|f l IH]; intros Hl; [done|]. rewrite filter_cons_False; [apply IH|].
  2: { unfold Timing.counted. by rewrite Hothers by (apply Hl; left). }
  intros g Hg. apply Hl. by right.
Qed.

(** [nparallel] counts the live workers of its phase. *)
Theorem observe_counts_workers names :
  names ≡ₚ elements (worker_files ∪ others) → (length names ≤ Z.to_nat 1000000)%nat →
  Timing.observe alive phase names = Z.of_nat (size (filter (λ p, alive p = true) W)).
Proof using All.
  intros Hn Hlen. unfold Timing.observe. rewrite take_ge by exact Hlen.
  rewrite count_names_filter. f_equal. rewrite Hn, worker_files_list, filter_app, length_app.
  rewrite (filter_others (elements others)), Nat.add_0_r by (intros f ?%elem_of_elements; done).
  rewrite (filter_workers (elements W)) by (intros p ?%elem_of_elements; done).
  unfold size, set_size. cbn. apply Permutation_length, NoDup_Permutation.
  - apply NoDup_filter, NoDup_elements.
  - apply NoDup_elements.
  - intros p. rewrite list_elem_of_filter, !elem_of_elements, elem_of_filter. done.
Qed.
End counting.
