(* ===== verification/Harness.v ===== *)
(** What the test harnesses share ([src/src/raft/config.go], [kvraft/config.go],
    [shardmaster/config.go], [shardkv/config.go]): names on the network, the names of
    the client ends, switching ends on and off, and the outcome of a test.

    A server number is a [nat].  [None] is a panic or a [log.Fatal]: an index out of
    range, a nil slice that is indexed, a name that is already taken. *)
From Stdlib Require Import Ascii ZifyNat.
From S2P Require Import Prelude Gob Labrpc.
Open Scope nat_scope.
#[local] Existing Instances eta_Server eta_Network eta_thread eta_world.

(** ** Names: [interface{}] values that are strings or integers *)

Inductive netname := NStr (s : string) | NInt (i : nat).
#[export] Instance netname_eq_dec : EqDecision netname.
Proof. solve_decision. Defined.
#[export] Instance netname_countable : Countable netname.
Proof.
  by refine (inj_countable' (λ n, match n with NStr s => inl s | NInt i => inr i end)
    (λ x, match x with inl s => NStr s | inr i => NInt i end) _); intros [].
Defined.

(** ** [randstring]

    [b] is what the system's random source puts into the slice.  The encoding is that
    of the standard library: three bytes become four characters. *)

Definition base64url : string := "ABCDEFGHIJKLMNOPQRSTUVWXYZabcdefghijklmnopqrstuvwxyz0123456789-_".
Definition b64char (v : nat) : ascii := default "="%char (String.get v base64url).

Fixpoint b64_encode (b : list nat) : string :=
  match b with
  | [] => EmptyString
  | [x] => String (b64char (x / 4)) (String (b64char (x mod 4 * 16)) "==")
  | [x; y] =>
      String (b64char (x / 4)) (String (b64char (x mod 4 * 16 + y / 16))
        (String (b64char (y mod 16 * 4)) "="))
  | x :: y :: z :: b =>
      String (b64char (x / 4)) (String (b64char (x mod 4 * 16 + y / 16))
        (String (b64char (y mod 16 * 4 + z / 64)) (String (b64char (z mod 64)) (b64_encode b))))
  end.

(** [s[0:n]] of the encoding of [2*n] bytes. *)
Definition randstring (n : nat) (b : list nat) : option string :=
  let s := b64_encode b in
  if decide (length b = 2 * n ∧ n ≤ String.length s) then Some (String.substring 0 n s) else None.

(** ** Slices of servers *)

(** [l[i] = x] *)
Definition set_at {A} (l : list A) (i : nat) (x : A) : option (list A) :=
  if decide (i < length l) then Some (<[i := x]> l) else None.

(** [names[i][j]]; indexing a nil slice panics. *)
Definition end_at (names : list (option (list netname))) (i j : nat) : option netname :=
  row ← names !! i; row ← row; row !! j.

(** ** The outcome of a test *)

Inductive outcome (E A : Type) :=
  | Ok (a : A)
  | Fatal (e : E)      (* [t.Fatalf]: the test has failed *)
  | Panic.
Arguments Ok {_ _} _.
Arguments Fatal {_ _} _.
Arguments Panic {_ _}.

Definition obind {E A B} (m : outcome E A) (k : A → outcome E B) : outcome E B :=
  match m with Ok a => k a | Fatal e => Fatal e | Panic => Panic end.

Definition lift_option {E A} (m : option A) : outcome E A :=
  match m with Some a => Ok a | None => Panic end.

Fixpoint ofold {E A B} (f : A → B → outcome E A) (a : A) (l : list B) : outcome E A :=
  match l with [] => Ok a | x :: l => obind (f a x) (λ a, ofold f a l) end.

Declare Scope outcome_scope.
Delimit Scope outcome_scope with outcome.
Notation "x <- m ;; k" := (obind m (λ x, k))
  (at level 100, m at next level, right associativity, format "x  <-  m ;;  '//' k") : outcome_scope.

(** ** Lemmas *)

Lemma set_at_Some {A} (l : list A) i x k :
  set_at l i x = Some k ↔ i < length l ∧ k = <[i := x]> l.
Proof. unfold set_at. case_decide; split; [by intros [= <-]|by intros [_ ->]|done|by intros []]. Qed.

(** To see that a computation succeeds without looking at its result. *)
Lemma succeeds {A} (o : option A) (d : A) :
  match o with Some _ => true | None => false end = true → o = Some (default d o).
Proof. by destruct o. Qed.

(** [lia] with quotients and remainders by constants. *)
Ltac div_lia := zify; Z.div_mod_to_equations; lia.

(** Switching the ends that [f] gives on or off, one after the other; [f] is [None] at
    a panic, and [Some None] where there is nothing to switch. *)
Definition switch {A} (b : bool) (f : A → option (option netname)) (rn : @Network netname _ _)
    (l : list A) : option Network :=
  foldM (λ rn x, o ← f x; Some (match o with Some e => Enable e b rn | None => rn end)) rn l.

Lemma foldM_ext {A B} (f g : A → B → option A) a l :
  (∀ a x, x ∈ l → f a x = g a x) → foldM f a l = foldM g a l.
Proof.
  revert a. induction l as [|x l IH]; intros a Hfg; [done|]. cbn [foldM].
  rewrite Hfg by by left. destruct (g a x) as [a'|]; [|done]. cbn [mbind option_bind].
  apply IH. intros. apply Hfg. by right.
Qed.

(** Exactly these ends are switched, and nothing else of the network changes. *)
Lemma switch_spec {A} b (f : A → option (option netname)) rn l rn' :
  switch b f rn l = Some rn' →
  ∃ en, rn' = rn <| enabled := en |> ∧ (∀ x, x ∈ l → is_Some (f x)) ∧
    ∀ e, en !! e = if decide (Exists (λ x, f x = Some (Some e)) l) then Some b else rn.(enabled) !! e.
Proof.
  unfold switch. revert rn. induction l as [|x l IH]; intros rn Hs; cbn [foldM] in Hs.
  - injection Hs as <-. exists rn.(enabled). split; [by destruct rn|]. split; [by intros x ?%elem_of_nil|].
    intros e. by rewrite decide_False by (by intros ?%Exists_nil).
  - destruct (f x) as [o|] eqn:Hx; cbn [mbind option_bind] in Hs; [|done].
    destruct (IH _ Hs) as (en & -> & Hl & Hen). exists en. split; [by destruct o, rn|].
    split; [by intros y [->|Hy]%elem_of_cons; [rewrite Hx|apply Hl]|].
    intros e. rewrite Hen. destruct (decide (Exists _ l)) as [Hin|Hnin].
    { by rewrite decide_True by by right. }
    destruct (decide (Exists _ (x :: l))) as [[Hfx|Hin]%Exists_cons|Hno]; [| done |].
    + rewrite Hfx in Hx. injection Hx as <-. apply lookup_insert_eq.
    + destruct o as [e'|]; [|done]. cbn. apply lookup_insert_ne. intros ->. apply Hno. by left.
Qed.

(** The new ends were not known, are off, and lead to the servers in turn. *)
Record ends_made (names : list netname) (rn rn' : @Network netname _ _) : Prop := {
  em_nodup : NoDup names;
  em_fresh : ∀ e, e ∈ names → e ∉ rn.(ends);
  em_ends : ∀ e, e ∈ rn'.(ends) ↔ e ∈ names ∨ e ∈ rn.(ends);
  em_new : ∀ j e, names !! j = Some e →
    rn'.(enabled) !! e = Some false ∧ rn'.(connections) !! e = Some (Some (NInt j));
  em_old : ∀ e, e ∉ names → rn'.(enabled) !! e = rn.(enabled) !! e ∧
    rn'.(connections) !! e = rn.(connections) !! e;
  em_servers : rn'.(servers) = rn.(servers)
}.

Lemma make_ends_from k names rn rn' :
  foldM (λ rn '(j, e), rn ← MakeEnd e rn; Some (Connect e (NInt j) rn)) rn
    (imap (λ j e, (k + j, e)) names) = Some rn' →
  NoDup names ∧ (∀ e, e ∈ names → e ∉ rn.(ends)) ∧
  (∀ e, e ∈ rn'.(ends) ↔ e ∈ names ∨ e ∈ rn.(ends)) ∧
  (∀ j e, names !! j = Some e →
    rn'.(enabled) !! e = Some false ∧ rn'.(connections) !! e = Some (Some (NInt (k + j)))) ∧
  (∀ e, e ∉ names → rn'.(enabled) !! e = rn.(enabled) !! e ∧
    rn'.(connections) !! e = rn.(connections) !! e) ∧
  rn'.(servers) = rn.(servers).
Proof.
  revert k rn. induction names as [|e0 names IH]; intros k rn Hf; cbn [imap foldM] in Hf.
  - injection Hf as <-. split_and!; [constructor|by intros e ?%elem_of_nil|set_solver|done|done|done].
  - destruct (MakeEnd e0 rn) as [rn1|] eqn:Hm; cbn [mbind option_bind] in Hf; [|done].
    unfold MakeEnd in Hm. destruct (decide (e0 ∈ ends rn)) as [|Hfresh]; [done|]. injection Hm as <-.
    assert (imap ((λ j e, (k + j, e)) ∘ S) names = imap (λ j (e : netname), (S k + j, e)) names) as Himap.
    { apply imap_ext. intros j e _. cbn. f_equal. lia. }
    rewrite Himap in Hf. apply IH in Hf as (Hnd & Hf & He & Hnew & Hold & Hs). cbn in Hf, He, Hold, Hs.
    assert (e0 ∉ names) as Hnin by (intros Hin; apply (Hf _ Hin), elem_of_union; left; by apply elem_of_singleton).
    split_and!; [by constructor| |intros e; rewrite He, elem_of_cons, elem_of_union, elem_of_singleton; tauto| |..].
    + intros e [->|Hin]%elem_of_cons; [done|]. intros Hr. apply (Hf _ Hin), elem_of_union. by right.
    + intros [|j] e Hj; cbn in Hj.
      * injection Hj as ->. destruct (Hold _ Hnin) as [-> ->]. by rewrite Nat.add_0_r, !lookup_insert_eq.
      * destruct (Hnew _ _ Hj) as [-> ->]. split; [done|]. do 3 f_equal. lia.
    + intros e [Hne Hn]%not_elem_of_cons. destruct (Hold e Hn) as [-> ->].
      by rewrite !lookup_insert_ne by congruence.
    + done.
Qed.

(** Switching works when there are ends to switch. *)
Lemma switch_total {A} b (f : A → option (option netname)) rn l :
  (∀ x, x ∈ l → is_Some (f x)) → is_Some (switch b f rn l).
Proof.
  unfold switch. revert rn. induction l as [|x l IH]; intros rn Hf; [done|]. cbn [foldM].
  destruct (Hf x) as [o ->]; [by left|]. cbn [mbind option_bind]. apply IH. intros. apply Hf. by right.
Qed.

(** Every character of the encoding tells its six bits. *)
Lemma b64char_inj v w : v < 64 → w < 64 → b64char v = b64char w → v = w.
Proof.
  intros Hv Hw Heq.
  assert (forallb (λ p, negb (Ascii.eqb (b64char p.1) (b64char p.2)) || (p.1 =? p.2))
    (list_prod (seq 0 64) (seq 0 64)) = true) as Hall by (vm_compute; reflexivity).
  rewrite forallb_forall in Hall. specialize (Hall (v, w)).
  assert (In (v, w) (list_prod (seq 0 64) (seq 0 64))) as Hin.
  { apply in_prod; apply in_seq; lia. }
  apply Hall in Hin. cbn [fst snd] in Hin. rewrite Heq, Ascii.eqb_refl in Hin. cbn in Hin.
  by apply Nat.eqb_eq.
Qed.

Lemma String_inj c d s t : String c s = String d t → c = d ∧ s = t.
Proof. by intros [= -> ->]. Qed.

Lemma take_3_3 {A} (k : nat) (x y z : A) l : take (3 * S k) (x :: y :: z :: l) = x :: y :: z :: take (3 * k) l.
Proof. by replace (3 * S k) with (S (S (S (3 * k)))) by lia. Qed.

(** The first [4*k] characters determine the first [3*k] bytes. *)
Lemma b64_prefix_inj k b c :
  Forall (λ x, x < 256) b → Forall (λ x, x < 256) c → 3 * k ≤ length b → 3 * k ≤ length c →
  String.substring 0 (4 * k) (b64_encode b) = String.substring 0 (4 * k) (b64_encode c) →
  take (3 * k) b = take (3 * k) c.
Proof.
  revert b c. induction k as [|k IH]; intros b c Hb Hc Lb Lc Heq; [done|].
  destruct b as [|x [|y [|z b]]]; cbn [length] in Lb; [lia..|].
  destruct c as [|x' [|y' [|z' c]]]; cbn [length] in Lc; [lia..|].
  rewrite !take_3_3. rewrite !Forall_cons in Hb, Hc.
  destruct Hb as (Hx & Hy & Hz & Hb), Hc as (Hx' & Hy' & Hz' & Hc).
  replace (4 * S k) with (S (S (S (S (4 * k))))) in Heq by lia.
  cbn [b64_encode String.substring] in Heq.
  apply String_inj in Heq as [E1 Heq]. apply String_inj in Heq as [E2 Heq].
  apply String_inj in Heq as [E3 Heq]. apply String_inj in Heq as [E4 Heq].
  assert (take (3 * k) b = take (3 * k) c) as -> by (apply IH; [done|done|lia|lia|done]).
  apply b64char_inj in E1, E2, E3, E4; [|div_lia..].
  assert (x = x' ∧ y = y' ∧ z = z') as (-> & -> & ->) by div_lia. done.
Qed.

(** The names of the harness ([randstring(20)]) are different when the first fifteen
    of the forty random bytes are. *)
Lemma randstring_inj b c s :
  Forall (λ x, x < 256) b → Forall (λ x, x < 256) c →
  randstring 20 b = Some s → randstring 20 c = Some s → take 15 b = take 15 c.
Proof.
  unfold randstring. intros Hb Hc H1 H2. case_decide as Db; [|done]. case_decide as Dc; [|done].
  apply (b64_prefix_inj 5); [done|done|lia|lia|].
  rewrite <- H2 in H1. by apply (inj Some) in H1.
Qed.

Lemma b64_length b : 4 * length b ≤ 3 * String.length (b64_encode b).
Proof.
  revert b. fix IH 1. intros [|x [|y [|z b]]]; cbn [b64_encode String.length length]; [lia..|].
  specialize (IH b). lia.
Qed.

Lemma randstring_total n b : length b = 2 * n → is_Some (randstring n b).
Proof.
  intros Hb. unfold randstring. rewrite decide_True; [done|]. split; [done|].
  pose proof (b64_length b). lia.
Qed.

(** ** A step of the network of [labrpc.go] that is not a change of its settings *)

Section traffic.
Context {V T W : Type} `{!EqDecision T}.
Context (encode : V → bytes) (decode : T → bytes → option V) (zero : T → V).

Lemma insert_services (h : list (@Server V T W)) sv rs0 rs1 sv' rs :
  h !! sv = Some rs0 → rs1.(services) = rs0.(services) → h !! sv' = Some rs →
  ∃ rs', <[sv := rs1]> h !! sv' = Some rs' ∧ rs'.(services) = rs.(services).
Proof.
  intros H0 H1 Hs. destruct (decide (sv' = sv)) as [->|].
  - rewrite list_lookup_insert_eq by (by eapply lookup_lt_Some). exists rs1. split; [done|congruence].
  - rewrite list_lookup_insert_ne by done. eauto.
Qed.

(** A request that is sent, handled or answered leaves the links alone, and every
    server's services. *)
Lemma exec_links (l : @label netname V T W) (w w' : @world netname _ _ V T W) :
  (∀ o, l ≠ LNet o) → exec encode decode zero l w = Some w' →
  w'.(rn).(ends) = w.(rn).(ends) ∧ w'.(rn).(enabled) = w.(rn).(enabled) ∧
  w'.(rn).(servers) = w.(rn).(servers) ∧ w'.(rn).(connections) = w.(rn).(connections) ∧
  ∀ sv rs, w.(heap) !! sv = Some rs → ∃ rs', w'.(heap) !! sv = Some rs' ∧ rs'.(services) = rs.(services).
Proof.
  intros Hl Hex.
  assert (∀ i t, thread_step encode decode zero l i t w = Some w' →
    w'.(rn).(ends) = w.(rn).(ends) ∧ w'.(rn).(enabled) = w.(rn).(enabled) ∧
    w'.(rn).(servers) = w.(rn).(servers) ∧
    w'.(rn).(connections) = w.(rn).(connections) ∧
    ∀ sv rs, w.(heap) !! sv = Some rs → ∃ rs', w'.(heap) !! sv = Some rs' ∧
      rs'.(services) = rs.(services)) as Hth.
  { intros i t Hs. unfold thread_step in Hs.
    destruct l; destruct (t_pc t); destruct (t_handler t); try done; cbn in Hs;
      try (injection Hs as <-; cbn; split_and!; try done; eauto; fail).
    all: try (unfold processReq_finish in Hs; repeat case_match; simplify_eq; cbn; split_and!; try done; eauto; fail).
    all: apply bind_Some in Hs as (rs0 & Hrs0 & Hs); apply bind_Some in Hs as ((rs1 & [[o1 r1] e1]) & Hd & [= <-]);
      cbn; split_and!; try done; intros sv' rs' Hsv'.
    all: assert (services rs1 = services rs0) as Hss by
      (unfold Server_dispatch in Hd; unbind; repeat case_match; unbind; done).
    all: eapply insert_services; eassumption. }
  destruct (label_thread l) as [i|] eqn:Hi.
  - assert (exec encode decode zero l w = t ← w.(threads) !! i; thread_step encode decode zero l i t w) as Heq.
    { destruct l; try done; injection Hi as <-; done. }
    rewrite Heq in Hex. apply bind_Some in Hex as (t & _ & Hex). by eapply Hth.
  - destruct l; try done; [| |by destruct (Hl o)|]; cbn in Hex;
      repeat case_match; simplify_eq; cbn; split_and!; eauto.
Qed.
End traffic.
