(* ===== verification/RaftConfig.v ===== *)
(** The harness of the Raft tests ([src/src/raft/config.go]): it makes the peers and
    the network between them, connects, disconnects, crashes and restarts them, listens
    to what they apply, and asks them questions.

    A Raft and its persister are pointers that outlive a crash, since a goroutine
    cannot be killed: [made] holds every Raft ever made and [disks] every persister, and
    a pointer is a place in them.  [None] is a panic or a [log.Fatal].  Random names and
    draws are arguments.  The functions that wait for the peers look at the harness
    again and again; what happens between two looks is a function, [evolve]. *)
From stdpp Require Import pretty.
From S2P Require Import Prelude Gob Iface RaftTypes RaftPersist RaftLeader Labrpc Harness.
Open Scope nat_scope.
#[local] Existing Instances eta_Server eta_Network.

(** A Raft that was made: its number, its client ends, its persister. *)
Record instance := mkInstance {
  i_me : nat;
  i_ends : list netname;
  i_disk : nat;
  i_raft : Raft
}.
#[export] Instance eta_instance : Eta instance :=
  λ x, mkInstance x.(i_me) x.(i_ends) x.(i_disk) x.(i_raft).

(** What a listener on an apply channel complains about. *)
Inductive apply_error :=
  | Mismatch (index : Z) (server : nat) (v : iface) (other : nat) (old : iface)
  | OutOfOrder (server : nat) (index : Z).

(** What a test fails with. *)
Inductive failure :=
  | TookTooLong
  | ManyLeaders (term : Z) (n : nat)
  | NoLeader
  | TermsDisagree
  | ClaimsToLead (server : nat)
  | ApplyError (e : apply_error)
  | ValuesDiffer (index : Z) (v w : iface)
  | TooFewDecided (nd : nat) (index : Z) (n : nat)
  | NoAgreement (cmd : iface).

Section raft_config.
Context `{!RaftCodec}.
Context {V T W : Type} `{!EqDecision T}.
(** What reflection finds on the Raft at a place. *)
Context (Raft_methods : nat → list (@method V T W)).
Local Abbreviation Network := (@Network netname _ _).

Record config := mkConfig {
  net : Network;
  heap : list (@Server V T W);
  made : list instance;
  disks : list Persister.t;
  n : nat;
  rafts : list (option nat);
  applyErr : list (option apply_error);
  connected : list bool;
  saved : list (option nat);
  endnames : list (option (list netname));
  logs : list (gmap Z iface);
  rpcs0 : Z;
  cmds0 : Z;
  bytes0 : Z;
  maxIndex : Z;
  maxIndex0 : Z
}.
#[export] Instance eta_config : Eta config := λ c,
  mkConfig c.(net) c.(heap) c.(made) c.(disks) c.(n) c.(rafts) c.(applyErr) c.(connected)
    c.(saved) c.(endnames) c.(logs) c.(rpcs0) c.(cmds0) c.(bytes0) c.(maxIndex) c.(maxIndex0).

(** ** Connecting *)

(** One turn of a loop of [connect]: the end from [i] to [j]. *)
Definition connect_end (cfg : config) (i j : nat) (peer : nat) (rn : Network) : option Network :=
  c ← cfg.(connected) !! peer;
  if c : bool then e ← end_at cfg.(endnames) i j; Some (Enable e true rn) else Some rn.

Definition connect (i : nat) (cfg : config) : option config :=
  c ← set_at cfg.(connected) i true;
  let cfg := cfg <| connected := c |> in
  rn ← foldM (λ rn j, connect_end cfg i j j rn) cfg.(net) (seq 0 cfg.(n));
  rn ← foldM (λ rn j, connect_end cfg j i j rn) rn (seq 0 cfg.(n));
  Some (cfg <| net := rn |>).

(** A peer without ends is passed over. *)
Definition disconnect_end (cfg : config) (i j : nat) (rn : Network) : option Network :=
  row ← cfg.(endnames) !! i;
  match row with
  | None => Some rn
  | Some row => e ← row !! j; Some (Enable e false rn)
  end.

Definition disconnect (i : nat) (cfg : config) : option config :=
  c ← set_at cfg.(connected) i false;
  let cfg := cfg <| connected := c |> in
  rn ← foldM (λ rn j, disconnect_end cfg i j rn) cfg.(net) (seq 0 cfg.(n));
  rn ← foldM (λ rn j, disconnect_end cfg j i rn) rn (seq 0 cfg.(n));
  Some (cfg <| net := rn |>).

(** ** Crashing and starting *)

Definition new_disk (p : Persister.t) (cfg : config) : config * nat :=
  (cfg <| disks := cfg.(disks) ++ [p] |>, length cfg.(disks)).

(** [cfg.saved[i] = cfg.saved[i].Copy()], when there is one. *)
Definition copy_saved (i : nat) (cfg : config) : option config :=
  s ← cfg.(saved) !! i;
  match s with
  | None => Some cfg
  | Some d =>
      p ← cfg.(disks) !! d;
      let '(cfg, d) := new_disk (Persister.Copy p) cfg in
      s ← set_at cfg.(saved) i (Some d); Some (cfg <| saved := s |>)
  end.

(** Lines 118-124. *)
Definition kill_raft (i : nat) (cfg : config) : option config :=
  rf ← cfg.(rafts) !! i;
  match rf with
  | None => Some cfg
  | Some p =>
      x ← cfg.(made) !! p;
      m ← set_at cfg.(made) p (x <| i_raft := Kill x.(i_raft) |>);
      r ← set_at cfg.(rafts) i None;
      Some (cfg <| made := m |> <| rafts := r |>)
  end.

(** Lines 126-130: of the persister only the Raft state is kept. *)
Definition keep_raft_state (i : nat) (cfg : config) : option config :=
  s ← cfg.(saved) !! i;
  match s with
  | None => Some cfg
  | Some d =>
      p ← cfg.(disks) !! d;
      let raftlog := Persister.ReadRaftState p in
      let '(cfg, d) := new_disk (Persister.SaveRaftState raftlog (Persister.mk [] [])) cfg in
      s ← set_at cfg.(saved) i (Some d); Some (cfg <| saved := s |>)
  end.

Definition crash1 (i : nat) (cfg : config) : option config :=
  cfg ← disconnect i cfg;
  let cfg := cfg <| net := DeleteServer (NInt i) cfg.(net) |> in
  cfg ← copy_saved i cfg;
  cfg ← kill_raft i cfg;
  keep_raft_state i cfg.

(** Lines 154-157. *)
Definition make_ends (names : list netname) (rn : Network) : option Network :=
  foldM (λ rn '(j, e), rn ← MakeEnd e rn; Some (Connect e (NInt j) rn)) rn (imap pair names).

(** Lines 165-169. *)
Definition fresh_persister (i : nat) (cfg : config) : option config :=
  s ← cfg.(saved) !! i;
  match s with
  | Some _ => copy_saved i cfg
  | None =>
      let '(cfg, d) := new_disk Persister.MakePersister cfg in
      s ← set_at cfg.(saved) i (Some d); Some (cfg <| saved := s |>)
  end.

(** Lines 211-220: the Raft writes its persister when it is made. *)
Definition launch (i : nat) (ends : list netname) (r : Z) (cfg : config) : option config :=
  s ← cfg.(saved) !! i; d ← s; p ← cfg.(disks) !! d;
  rf ← Make (length ends) (Z.of_nat i) p r;
  ds ← set_at cfg.(disks) d rf.(persister);
  let q := length cfg.(made) in
  rs ← set_at cfg.(rafts) i (Some q);
  let srv := AddService (MakeService "Raft" (Raft_methods q)) MakeServer in
  Some (cfg <| disks := ds |> <| made := cfg.(made) ++ [mkInstance i ends d rf] |>
            <| rafts := rs |> <| heap := cfg.(heap) ++ [srv] |>
            <| net := AddServer (NInt i) (length cfg.(heap)) cfg.(net) |>).

(** [names j] is the string drawn for the end to [j]. *)
Definition start1 (i : nat) (names : nat → string) (r : Z) (cfg : config) : option config :=
  cfg ← crash1 i cfg;
  let ends := (NStr ∘ names) <$> seq 0 cfg.(n) in
  es ← set_at cfg.(endnames) i (Some ends);
  let cfg := cfg <| endnames := es |> in
  rn ← make_ends ends cfg.(net);
  let cfg := cfg <| net := rn |> in
  cfg ← fresh_persister i cfg;
  launch i ends r cfg.

Definition empty_config (n : nat) : config :=
  mkConfig MakeNetwork [] [] [] n (replicate n None) (replicate n None) (replicate n false)
    (replicate n None) (replicate n None) (replicate n ∅) 0 0 0 0 0.

Definition setunreliable (unrel : bool) (cfg : config) : config :=
  cfg <| net := Reliable (negb unrel) cfg.(net) |>.

Definition make_config (n : nat) (unreliable : bool) (names : nat → nat → string) (rs : nat → Z)
    : option config :=
  let cfg := setunreliable unreliable (empty_config n) in
  let cfg := cfg <| net := LongDelays true cfg.(net) |> in
  cfg ← foldM (λ cfg i, start1 i (names i) (rs i) cfg) cfg (seq 0 n);
  foldM (λ cfg i, connect i cfg) cfg (seq 0 n).

Definition setlongreordering (longrel : bool) (cfg : config) : config :=
  cfg <| net := LongReordering longrel cfg.(net) |>.

Definition rpcCount (server : nat) (cfg : config) : option Z :=
  GetCount (NInt server) cfg.(net) cfg.(heap).
Definition rpcTotal (cfg : config) : Z := GetTotalCount cfg.(net).
Definition bytesTotal (cfg : config) : Z := GetTotalBytes cfg.(net).

(** ** The listener on an apply channel *)

(** [old != v]; two byte slices in interfaces cannot be compared. *)
Definition iface_ne (old v : iface) : option bool :=
  match old, v with
  | IBytes _, IBytes _ => None
  | _, _ => Some (negb (bool_decide (old = v)))
  end.

(** Lines 183-189. *)
Definition find_mismatch (i : nat) (m : ApplyMsg.t) (lgs : list (gmap Z iface))
    : option (option apply_error) :=
  foldM (λ err '(j, lg),
    match lg !! m.(ApplyMsg.CommandIndex) with
    | None => Some err
    | Some old =>
        ne ← iface_ne old m.(ApplyMsg.Command);
        Some (if ne : bool
              then Some (Mismatch m.(ApplyMsg.CommandIndex) i m.(ApplyMsg.Command) j old)
              else err)
    end) None (imap pair lgs).

(** [Fatal] is the end of the process: what comes after [log.Fatalf] is not reached. *)
Definition applier (i : nat) (m : ApplyMsg.t) (cfg : config) : outcome apply_error config :=
  if negb m.(ApplyMsg.CommandValid) then Ok cfg
  else
    let index := m.(ApplyMsg.CommandIndex) in
    (err <- lift_option (find_mismatch i m cfg.(logs));;
     lg <- lift_option (cfg.(logs) !! i);;
     let prevok := bool_decide (is_Some (lg !! (index - 1)%Z)) in
     lgs <- lift_option (set_at cfg.(logs) i (<[index := m.(ApplyMsg.Command)]> lg));;
     let cfg := cfg <| logs := lgs |>
                    <| maxIndex := (if cfg.(maxIndex) <? index then index else cfg.(maxIndex))%Z |> in
     let err := if (1 <? index)%Z && negb prevok then Some (OutOfOrder i index) else err in
     match err with Some e => Fatal e | None => Ok cfg end)%outcome.

(** ** Asking the peers *)

Section tests.
Context (evolve : nat → config → config).

(** A test that looks at the harness for the [t]-th time. *)
Definition test (A : Type) : Type := nat * config → outcome failure (A * (nat * config)).
Definition tret {A} (a : A) : test A := λ s, Ok (a, s).
Definition tbind {A B} (m : test A) (k : A → test B) : test B :=
  λ s, obind (m s) (λ '(a, s), k a s).
Definition tfail {A} (e : failure) : test A := λ _, Fatal e.
Definition tlift {A} (m : option A) : test A := λ s, obind (lift_option m) (λ a, Ok (a, s)).
Definition look : test config :=
  λ '(t, cfg), let cfg := evolve t cfg in Ok (cfg, (S t, cfg)).
Definition put (cfg : config) : test unit := λ s, Ok (tt, (s.1, cfg)).

Declare Scope test_scope.
Delimit Scope test_scope with test.
Notation "x <- m ;; k" := (tbind m (λ x, k))
  (at level 100, m at next level, right associativity, format "x  <-  m ;;  '//' k") : test_scope.
Open Scope test_scope.

Fixpoint tfold {A B} (f : A → B → test A) (a : A) (l : list B) : test A :=
  match l with [] => tret a | x :: l => a <- f a x;; tfold f a l end.

(** The Raft of a pointer; a nil pointer is followed, or a lock is never released. *)
Definition raft_at (p : option nat) (cfg : config) : option (nat * instance) :=
  p ← p; x ← cfg.(made) !! p; if x.(i_raft).(mu) then None else Some (p, x).

(** [cfg.rafts[i].GetState()] *)
Definition getState (i : nat) : test (Z * bool) :=
  cfg <- look;;
  p <- tlift (cfg.(rafts) !! i);;
  x <- tlift (raft_at p cfg);;
  tret (GetState x.2.(i_raft)).

(** Lines 313-320: the connected leaders, by term. *)
Definition leaders_by_term (m : nat) : test (gmap Z (list nat)) :=
  tfold (λ leaders i,
    cfg <- look;;
    c <- tlift (cfg.(connected) !! i);;
    if c : bool then
      st <- getState i;;
      tret (if st.2 : bool then <[st.1 := default [] (leaders !! st.1) ++ [i]]> leaders else leaders)
    else tret leaders) ∅ (seq 0 m).

(** Lines 322-330; the map gives its terms in some order. *)
Definition last_term (leaders : list (Z * list nat)) : test Z :=
  tfold (λ last '(term, ls),
    if decide (1 < length ls) then tfail (ManyLeaders term (length ls))
    else tret (if (last <? term)%Z then term else last)) (-1)%Z leaders.

Fixpoint oneLeader_loop (iters : nat) (shuffle : nat → list (Z * list nat) → list (Z * list nat))
    (m : nat) : test nat :=
  match iters with
  | O => tfail NoLeader
  | S iters =>
      leaders <- leaders_by_term m;;
      last <- last_term (shuffle iters (map_to_list leaders));;
      if decide (leaders = ∅) then oneLeader_loop iters shuffle m
      else tlift (ls ← leaders !! last; head ls)
  end.

Definition checkOneLeader shuffle : test nat :=
  cfg <- look;; oneLeader_loop 10 shuffle cfg.(n).

Definition checkTerms : test Z :=
  cfg <- look;;
  tfold (λ term i,
    cfg <- look;;
    c <- tlift (cfg.(connected) !! i);;
    if c : bool then
      st <- getState i;;
      if (term =? -1)%Z then tret st.1
      else if negb (term =? st.1)%Z then tfail TermsDisagree else tret term
    else tret term) (-1)%Z (seq 0 cfg.(n)).

Definition checkNoLeader : test unit :=
  cfg <- look;;
  tfold (λ _ i,
    cfg <- look;;
    c <- tlift (cfg.(connected) !! i);;
    if c : bool then
      st <- getState i;;
      if st.2 : bool then tfail (ClaimsToLead i) else tret tt
    else tret tt) tt (seq 0 cfg.(n)).

(** One turn of [nCommitted]. *)
Definition count_committed (index : Z) (acc : nat * iface) (i : nat) : test (nat * iface) :=
  let '(count, cmd) := acc in
  cfg <- look;;
  err <- tlift (cfg.(applyErr) !! i);;
  match err with
  | Some e => tfail (ApplyError e)
  | None =>
      lg <- tlift (cfg.(logs) !! i);;
      match lg !! index with
      | None => tret (count, cmd)
      | Some cmd1 =>
          ne <- (if decide (0 < count) then tlift (iface_ne cmd cmd1) else tret false);;
          if ne : bool then tfail (ValuesDiffer index cmd cmd1) else tret (count + 1, cmd1)
      end
  end.

Definition nCommitted (index : Z) : test (nat * iface) :=
  cfg <- look;; tfold (count_committed index) (0, INil) (seq 0 (length cfg.(rafts))).

(** [wait]: does a peer have a later term? *)
Fixpoint moved_on (startTerm : Z) (rs : list (option nat)) : test bool :=
  match rs with
  | [] => tret false
  | p :: rs =>
      cfg <- look;;
      x <- tlift (raft_at p cfg);;
      if (startTerm <? (GetState x.2.(i_raft)).1)%Z then tret true else moved_on startTerm rs
  end.

(** The loop of [wait]: [true] when someone has moved on. *)
Fixpoint wait_loop (iters : nat) (index : Z) (m : nat) (startTerm : Z) : test bool :=
  match iters with
  | O => tret false
  | S iters =>
      nd <- nCommitted index;;
      if decide (m ≤ nd.1) then tret false
      else if (-1 <? startTerm)%Z then
        cfg <- look;;
        moved <- moved_on startTerm cfg.(rafts);;
        if moved : bool then tret true else wait_loop iters index m startTerm
      else wait_loop iters index m startTerm
  end.

Definition wait (index : Z) (m : nat) (startTerm : Z) : test iface :=
  moved <- wait_loop 30 index m startTerm;;
  if moved : bool then tret (IInt (-1))
  else
    nd <- nCommitted index;;
    if decide (nd.1 < m) then tfail (TooFewDecided nd.1 index m) else tret nd.2.

(** *** [one] *)

(** Lines 446-462: the server to try next, and the index of a leader that accepted. *)
Fixpoint try_servers (m : nat) (cmd : iface) (starts si : nat) : test (nat * Z) :=
  match si with
  | O => tret (starts, -1)%Z
  | S si =>
      let starts := Nat.modulo (starts + 1) m in
      cfg <- look;;
      c <- tlift (cfg.(connected) !! starts);;
      rf <- (if c : bool then tlift (cfg.(rafts) !! starts) else tret None);;
      match rf with
      | None => try_servers m cmd starts si
      | Some p =>
          cfg <- look;;
          x <- tlift (raft_at (Some p) cfg);;
          r <- tlift (Start cmd x.2.(i_raft));;
          ms <- tlift (set_at cfg.(made) p (x.2 <| i_raft := r.1 |>));;
          ds <- tlift (set_at cfg.(disks) x.2.(i_disk) r.1.(persister));;
          _ <- put (cfg <| made := ms |> <| disks := ds |>);;
          if r.2.2 : bool then tret (starts, r.2.1.1) else try_servers m cmd starts si
      end
  end.

(** Lines 469-484, for as many polls as fit into two seconds. *)
Fixpoint poll (polls : nat) (index : Z) (cmd : iface) (expectedServers : nat) : test bool :=
  match polls with
  | O => tret false
  | S polls =>
      nd <- nCommitted index;;
      if decide (0 < nd.1 ∧ expectedServers ≤ nd.1) then
        ne <- tlift (iface_ne nd.2 cmd);;
        if negb ne then tret true else poll polls index cmd expectedServers
      else poll polls index cmd expectedServers
  end.

(** [turns] has, for every turn that starts within ten seconds, the number of polls. *)
Fixpoint one_loop (turns : list nat) (starts : nat) (cmd : iface) (expectedServers : nat)
    (retry : bool) : test Z :=
  match turns with
  | [] => tfail (NoAgreement cmd)
  | polls :: turns =>
      cfg <- look;;
      si <- try_servers cfg.(n) cmd starts cfg.(n);;
      if negb (si.2 =? -1)%Z then
        ok <- poll polls si.2 cmd expectedServers;;
        if ok : bool then tret si.2
        else if negb retry then tfail (NoAgreement cmd)
        else one_loop turns si.1 cmd expectedServers retry
      else one_loop turns si.1 cmd expectedServers retry
  end.

Definition one (turns : list nat) (cmd : iface) (expectedServers : nat) (retry : bool) : test Z :=
  one_loop turns 0 cmd expectedServers retry.
End tests.

(** ** Start and end of a test *)

(** [late]: more than 120 seconds have passed. *)
Definition checkTimeout (failed late : bool) : outcome failure unit :=
  if negb failed && late then Fatal TookTooLong else Ok tt.

Definition cleanup (failed late : bool) (cfg : config) : outcome failure config :=
  (cfg <- lift_option (foldM (λ cfg i,
     rf ← cfg.(rafts) !! i;
     match rf with
     | None => Some cfg
     | Some p =>
         x ← cfg.(made) !! p;
         m ← set_at cfg.(made) p (x <| i_raft := Kill x.(i_raft) |>);
         Some (cfg <| made := m |>)
     end) cfg (seq 0 (length cfg.(rafts))));;
   rn <- lift_option (Cleanup cfg.(net));;
   _ <- checkTimeout failed late;;
   Ok (cfg <| net := rn |>))%outcome.

Definition begin_test (cfg : config) : config :=
  cfg <| rpcs0 := rpcTotal cfg |> <| bytes0 := bytesTotal cfg |> <| cmds0 := 0%Z |>
      <| maxIndex0 := cfg.(maxIndex) |>.

(** The numbers that are printed: peers, RPCs, bytes, agreements. *)
Definition end_test (failed late : bool) (cfg : config)
    : outcome failure (option (nat * Z * Z * Z)) :=
  (_ <- checkTimeout failed late;;
   Ok (if failed then None
       else Some (cfg.(n), (rpcTotal cfg - cfg.(rpcs0))%Z, (bytesTotal cfg - cfg.(bytes0))%Z,
                  (cfg.(maxIndex) - cfg.(maxIndex0))%Z)))%outcome.
End raft_config.
