(* ===== verification/RaftConfigProps.v ===== *)
(** What the harness of the Raft tests promises ([src/src/raft/config.go]): a message
    goes from a peer to another one exactly when both are connected, and it goes between
    their current incarnations; what an old incarnation still does touches nothing. *)
From S2P Require Import Prelude Gob Iface RaftTypes RaftPersist RaftLog RaftLogProps RaftLeader RaftRecovery Labrpc Harness RaftConfig GobImpl.
Open Scope nat_scope.
#[local] Existing Instances eta_Server eta_Network eta_thread eta_world.

Section network.
Context `{!RaftCodec}.
Context {V T W : Type} `{!EqDecision T}.
Local Abbreviation config := (@config V T W).
Implicit Types (cfg : config).

Lemma end_at_Some (names : list (option (list netname))) i j e :
  end_at names i j = Some e ↔ ∃ row, names !! i = Some (Some row) ∧ row !! j = Some e.
Proof.
  unfold end_at. split.
  - intros He. destruct (names !! i) as [[row|]|] eqn:?; cbn in He; [|done..]. by exists row.
  - by intros (row & -> & He).
Qed.

(** ** What every operation does *)

Lemma connect_spec i cfg cfg' :
  connect i cfg = Some cfg' →
  ∃ en, cfg' = cfg <| connected := <[i := true]> cfg.(connected) |> <| net := cfg.(net) <| enabled := en |> |> ∧
    i < length cfg.(connected) ∧
    ∀ e, en !! e = Some true ↔ cfg.(net).(enabled) !! e = Some true ∨
      ∃ k, k < cfg.(n) ∧ <[i := true]> cfg.(connected) !! k = Some true ∧
        (end_at cfg.(endnames) i k = Some e ∨ end_at cfg.(endnames) k i = Some e).
Proof.
  unfold connect. intros Hc. apply bind_Some in Hc as (c & (Hi & ->)%set_at_Some & Hc).
  apply bind_Some in Hc as (rn1 & H1 & Hc). apply bind_Some in Hc as (rn2 & H2 & [= <-]).
  set (cfg1 := cfg <| connected := _ |>) in *.
  set (f a b j := c ← cfg1.(connected) !! j;
    if c : bool then Some <$> end_at cfg1.(endnames) (a j) (b j) else Some None).
  assert (∀ a b rn l, foldM (λ rn j, connect_end cfg1 (a j) (b j) j rn) rn l = switch true (f a b) rn l) as Hsw.
  { intros a b rn l. apply foldM_ext. intros rn' j _. unfold connect_end, f.
    destruct (connected cfg1 !! j) as [[]|]; [|done..]. cbn. by destruct (end_at _ _ _). }
  rewrite (Hsw (λ _, i) (λ j, j)) in H1. rewrite (Hsw (λ j, j) (λ _, i)) in H2.
  apply switch_spec in H1 as (en1 & -> & _ & H1). apply switch_spec in H2 as (en & -> & _ & H2).
  exists en. split; [done|]. split; [done|]. intros e. rewrite H2. cbn [enabled over]. rewrite H1.
  assert (∀ a b, Exists (λ x, f a b x = Some (Some e)) (seq 0 (n cfg1)) ↔
    ∃ k, k < n cfg ∧ connected cfg1 !! k = Some true ∧ end_at (endnames cfg) (a k) (b k) = Some e) as Hex.
  { intros a b. rewrite Exists_exists. unfold f. split.
    - intros (k & Hk%elem_of_seq & Hf). exists k. split; [change (n cfg1) with (n cfg) in Hk; lia|].
      destruct (connected cfg1 !! k) as [[]|]; cbn in Hf; [|done..].
      destruct (end_at _ _ _) eqn:He; [|done]. by injection Hf as ->.
    - intros (k & Hk & Hup & He). exists k. rewrite elem_of_seq. split; [change (n cfg1) with (n cfg); lia|].
      rewrite Hup. cbn. change (endnames cfg1) with (endnames cfg). by rewrite He. }
  change (connected cfg1) with (<[i := true]> (connected cfg)) in Hex. clear H1 H2 Hsw.
  pose proof (Hex (λ _, i) (λ j, j)) as Hout. pose proof (Hex (λ j, j) (λ _, i)) as Hin. clear Hex.
  split.
  - case_decide as Hd; [intros _; right; apply Hin in Hd as (k & ? & ? & ?); eauto|].
    case_decide as Hd'; [intros _; right; apply Hout in Hd' as (k & ? & ? & ?); eauto|auto].
  - intros Hcase. case_decide as Hd; [done|]. case_decide as Hd'; [done|].
    destruct Hcase as [Hon|(k & Hk & Hup & [He|He])]; [done|destruct Hd'; apply Hout; eauto|destruct Hd; apply Hin; eauto].
Qed.

Lemma disconnect_spec i cfg cfg' :
  disconnect i cfg = Some cfg' →
  ∃ en, cfg' = cfg <| connected := <[i := false]> cfg.(connected) |> <| net := cfg.(net) <| enabled := en |> |> ∧
    i < length cfg.(connected) ∧
    ∀ e, en !! e = Some true ↔ cfg.(net).(enabled) !! e = Some true ∧
      ∀ k, k < cfg.(n) → end_at cfg.(endnames) i k ≠ Some e ∧ end_at cfg.(endnames) k i ≠ Some e.
Proof.
  unfold disconnect. intros Hc. apply bind_Some in Hc as (c & (Hi & ->)%set_at_Some & Hc).
  apply bind_Some in Hc as (rn1 & H1 & Hc). apply bind_Some in Hc as (rn2 & H2 & [= <-]).
  set (cfg1 := cfg <| connected := _ |>) in *.
  set (f a b (j : nat) := row ← cfg1.(endnames) !! a j;
    match row with None => Some None | Some row => Some <$> (row : list netname) !! (b j : nat) end).
  assert (∀ a b rn l, foldM (λ rn j, disconnect_end cfg1 (a j) (b j) rn) rn l = switch false (f a b) rn l) as Hsw.
  { intros a b rn l. apply foldM_ext. intros rn' j _. unfold disconnect_end, f.
    destruct (endnames cfg1 !! a j) as [[row|]|]; [|done..]. cbn. by destruct (row !! b j). }
  rewrite (Hsw (λ _, i) (λ j, j)) in H1. rewrite (Hsw (λ j, j) (λ _, i)) in H2.
  apply switch_spec in H1 as (en1 & -> & _ & H1). apply switch_spec in H2 as (en & -> & _ & H2).
  exists en. split; [done|]. split; [done|]. intros e. rewrite H2. cbn [enabled over]. rewrite H1.
  assert (∀ a b, Exists (λ x, f a b x = Some (Some e)) (seq 0 (n cfg1)) ↔
    ∃ k, k < n cfg ∧ end_at (endnames cfg) (a k) (b k) = Some e) as Hex.
  { intros a b. rewrite Exists_exists. unfold f. split.
    - intros (k & Hk%elem_of_seq & Hf). exists k. split; [change (n cfg1) with (n cfg) in Hk; lia|].
      apply end_at_Some. destruct (endnames cfg1 !! a k) as [[row|]|] eqn:Ha; cbn in Hf; [|done..].
      exists row. split; [done|]. destruct (row !! b k); [|done]. by injection Hf as ->.
    - intros (k & Hk & (row & Ha & He)%end_at_Some). exists k. rewrite elem_of_seq.
      split; [change (n cfg1) with (n cfg); lia|].
      change (endnames cfg1) with (endnames cfg). rewrite Ha. cbn. by rewrite He. }
  clear H1 H2 Hsw. pose proof (Hex (λ _, i) (λ j, j)) as Hout. pose proof (Hex (λ j, j) (λ _, i)) as Hin. clear Hex.
  split.
  - case_decide as Hd; [done|]. case_decide as Hd'; [done|]. intros Hon. split; [done|].
    intros k Hk. split; intros He; [apply Hd', Hout|apply Hd, Hin]; eauto.
  - intros [Hon Hno]. rewrite decide_False by (intros (k & Hk & He)%Hin; by destruct (Hno k Hk)).
    by rewrite decide_False by (intros (k & Hk & He)%Hout; by destruct (Hno k Hk)).
Qed.

Lemma make_ends_spec names rn rn' : make_ends names rn = Some rn' → ends_made names rn rn'.
Proof.
  intros (? & ? & ? & ? & ? & ?)%(make_ends_from 0). by split.
Qed.

(** What [crash1] does after the peer is off the network. *)
Record crashed (i : nat) cfg cfg' (md : list instance) (ds : list Persister.t) (sv : list (option nat)) : Prop := {
  cr_made : cfg.(rafts) !! i = Some None ∧ md = cfg.(made) ∨
    ∃ q x, cfg.(rafts) !! i = Some (Some q) ∧ cfg.(made) !! q = Some x ∧
      md = <[q := x <| i_raft := Kill x.(i_raft) |>]> cfg.(made);
  cr_disks : cfg.(saved) !! i = Some None ∧ ds = [] ∧ sv = cfg.(saved) ∨
    ∃ d p, cfg.(saved) !! i = Some (Some d) ∧ cfg.(disks) !! d = Some p ∧
      ds = [Persister.Copy p; Persister.mk p.(Persister.raftstate) []] ∧
      sv = <[i := Some (S (length cfg.(disks)))]> cfg.(saved);
  cr_cfg : cfg'.(made) = md ∧ cfg'.(disks) = cfg.(disks) ++ ds ∧ cfg'.(saved) = sv ∧
    cfg'.(net) = DeleteServer (NInt i) cfg.(net) ∧ cfg'.(rafts) = <[i := None]> cfg.(rafts);
  cr_same : cfg'.(heap) = cfg.(heap) ∧ cfg'.(n) = cfg.(n) ∧ cfg'.(connected) = cfg.(connected) ∧
    cfg'.(endnames) = cfg.(endnames);
  cr_oracle : cfg'.(applyErr) = cfg.(applyErr) ∧ cfg'.(logs) = cfg.(logs) ∧ cfg'.(maxIndex) = cfg.(maxIndex)
}.

Lemma copy_saved_spec i cfg cfg' :
  copy_saved i cfg = Some cfg' →
  cfg.(saved) !! i = Some None ∧ cfg' = cfg ∨
  ∃ d p, cfg.(saved) !! i = Some (Some d) ∧ cfg.(disks) !! d = Some p ∧
    cfg' = cfg <| disks := cfg.(disks) ++ [Persister.Copy p] |>
               <| saved := <[i := Some (length cfg.(disks))]> cfg.(saved) |>.
Proof.
  unfold copy_saved. intros ([d|] & Hs & Hc)%bind_Some; [right|left; by injection Hc as <-].
  apply bind_Some in Hc as (p & Hp & Hc). cbn [new_disk] in Hc.
  apply bind_Some in Hc as (s & (_ & ->)%set_at_Some & [= <-]). eauto 10.
Qed.

Lemma kill_raft_spec i cfg cfg' :
  kill_raft i cfg = Some cfg' →
  ∃ md, (cfg.(rafts) !! i = Some None ∧ md = cfg.(made) ∨
    ∃ q x, cfg.(rafts) !! i = Some (Some q) ∧ cfg.(made) !! q = Some x ∧
      md = <[q := x <| i_raft := Kill x.(i_raft) |>]> cfg.(made)) ∧
    cfg' = cfg <| made := md |> <| rafts := <[i := None]> cfg.(rafts) |>.
Proof.
  unfold kill_raft. intros ([q|] & Hq & Hc)%bind_Some.
  - apply bind_Some in Hc as (x & Hx & Hc). apply bind_Some in Hc as (md & (_ & ->)%set_at_Some & Hc).
    apply bind_Some in Hc as (rs & (_ & ->)%set_at_Some & [= <-]). eauto 10.
  - injection Hc as <-. exists cfg.(made). split; [by left|].
    rewrite list_insert_id by done. by destruct cfg.
Qed.

Lemma keep_raft_state_spec i cfg cfg' :
  keep_raft_state i cfg = Some cfg' →
  cfg.(saved) !! i = Some None ∧ cfg' = cfg ∨
  ∃ d p, cfg.(saved) !! i = Some (Some d) ∧ cfg.(disks) !! d = Some p ∧
    cfg' = cfg <| disks := cfg.(disks) ++ [Persister.mk p.(Persister.raftstate) []] |>
               <| saved := <[i := Some (length cfg.(disks))]> cfg.(saved) |>.
Proof.
  unfold keep_raft_state. intros ([d|] & Hs & Hc)%bind_Some; [right|left; by injection Hc as <-].
  apply bind_Some in Hc as (p & Hp & Hc). cbn [new_disk] in Hc.
  apply bind_Some in Hc as (s & (_ & ->)%set_at_Some & [= <-]). eauto 10.
Qed.

Lemma crash1_spec i cfg cfg' :
  crash1 i cfg = Some cfg' →
  ∃ cfg1 md ds sv, disconnect i cfg = Some cfg1 ∧ crashed i cfg1 cfg' md ds sv.
Proof.
  unfold crash1. intros Hc. apply bind_Some in Hc as (cfg1 & Hd & Hc). exists cfg1. cbv zeta in Hc.
  apply bind_Some in Hc as (cfg2 & H2 & Hc). apply bind_Some in Hc as (cfg3 & H3 & H4).
  apply copy_saved_spec in H2. apply kill_raft_spec in H3 as (md & Hmd & ->). exists md.
  destruct H2 as [[Hs ->]|(d & p & Hs & Hp & ->)]; cbn in Hs, Hmd.
  - apply keep_raft_state_spec in H4 as [[_ ->]|(d & p & Hs4 & _)]; [|cbn in Hs4; congruence].
    exists [], cfg1.(saved). split; [done|]. split; [done|by left| |done|done]. by rewrite app_nil_r.
  - assert (i < length cfg1.(saved)) as Hi by by eapply lookup_lt_Some.
    apply keep_raft_state_spec in H4 as [[Hs4 _]|(d4 & p4 & Hs4 & Hp4 & ->)];
      cbn in Hs4; rewrite list_lookup_insert_eq in Hs4 by done; [done|]. injection Hs4 as <-.
    cbn in Hp4. rewrite lookup_app_r, Nat.sub_diag in Hp4 by done. injection Hp4 as <-.
    exists [Persister.Copy p; Persister.mk p.(Persister.raftstate) []],
      (<[i := Some (S (length cfg1.(disks)))]> cfg1.(saved)). split; [done|].
    split; [done|right; eauto 10| |done|done]. cbn [made disks saved net rafts over].
    split_and!; [done| | |done|done]; [by rewrite <- app_assoc|].
    by rewrite list_insert_insert_eq, length_app, Nat.add_1_r.
Qed.
Context (Raft_methods : nat → list (@method V T W)).

(** What [start1] makes of the server after the crash: [p0] is what the new persister
    holds, and [rf] the new Raft. *)
Record started (i : nat) (ends : list netname) (r : Z) cfg cfg' (p0 : Persister.t) (rf : Raft)
    (rn : @Network netname _ _) : Prop := {
  so_ends : ends_made ends cfg.(net) rn;
  so_old : cfg.(saved) !! i = Some None ∧ p0 = Persister.MakePersister ∨
    ∃ d, cfg.(saved) !! i = Some (Some d) ∧ cfg.(disks) !! d = Some p0;
  so_make : Make (length ends) (Z.of_nat i) p0 r = Some rf;
  so_server : i < length cfg.(endnames);
  so_cfg : cfg'.(endnames) = <[i := Some ends]> cfg.(endnames) ∧
    cfg'.(disks) = cfg.(disks) ++ [rf.(persister)] ∧
    cfg'.(saved) = <[i := Some (length cfg.(disks))]> cfg.(saved) ∧
    cfg'.(made) = cfg.(made) ++ [mkInstance i ends (length cfg.(disks)) rf] ∧
    cfg'.(rafts) = <[i := Some (length cfg.(made))]> cfg.(rafts) ∧
    cfg'.(heap) = cfg.(heap) ++ [AddService (MakeService "Raft" (Raft_methods (length cfg.(made)))) MakeServer] ∧
    cfg'.(net) = AddServer (NInt i) (length cfg.(heap)) rn;
  so_same : cfg'.(n) = cfg.(n) ∧ cfg'.(connected) = cfg.(connected);
  so_oracle : cfg'.(applyErr) = cfg.(applyErr) ∧ cfg'.(logs) = cfg.(logs) ∧ cfg'.(maxIndex) = cfg.(maxIndex)
}.

Lemma launch_spec i ends r cfg cfg' :
  launch Raft_methods i ends r cfg = Some cfg' →
  ∃ d p rf, cfg.(saved) !! i = Some (Some d) ∧ cfg.(disks) !! d = Some p ∧
    Make (length ends) (Z.of_nat i) p r = Some rf ∧
    cfg' = cfg <| disks := <[d := rf.(persister)]> cfg.(disks) |>
      <| made := cfg.(made) ++ [mkInstance i ends d rf] |>
      <| rafts := <[i := Some (length cfg.(made))]> cfg.(rafts) |>
      <| heap := cfg.(heap) ++ [AddService (MakeService "Raft" (Raft_methods (length cfg.(made)))) MakeServer] |>
      <| net := AddServer (NInt i) (length cfg.(heap)) cfg.(net) |>.
Proof.
  unfold launch. intros (s & Hs & Hc)%bind_Some. apply bind_Some in Hc as (d & -> & Hc).
  apply bind_Some in Hc as (p & Hp & Hc). apply bind_Some in Hc as (rf & Hrf & Hc).
  apply bind_Some in Hc as (ds & (_ & ->)%set_at_Some & Hc).
  apply bind_Some in Hc as (rs & (_ & ->)%set_at_Some & [= <-]). eauto 10.
Qed.

Lemma fresh_persister_spec i cfg cfg' :
  fresh_persister i cfg = Some cfg' →
  ∃ p0, (cfg.(saved) !! i = Some None ∧ p0 = Persister.MakePersister ∨
    ∃ d, cfg.(saved) !! i = Some (Some d) ∧ cfg.(disks) !! d = Some p0) ∧
    i < length cfg.(saved) ∧
    cfg' = cfg <| disks := cfg.(disks) ++ [p0] |>
               <| saved := <[i := Some (length cfg.(disks))]> cfg.(saved) |>.
Proof.
  unfold fresh_persister. intros ([d|] & Hs & Hc)%bind_Some.
  - apply copy_saved_spec in Hc as [[Hs' _]|(d' & p & Hs' & Hp & ->)]; [congruence|].
    exists p. split; [right; exists d'; by split|]. split; [by eapply lookup_lt_Some|]. by destruct p.
  - cbn [new_disk] in Hc. apply bind_Some in Hc as (s & (Hi & ->)%set_at_Some & [= <-]). eauto 10.
Qed.

Lemma start1_spec i names r cfg cfg' :
  start1 Raft_methods i names r cfg = Some cfg' →
  ∃ cfg1 p0 rf rn, crash1 i cfg = Some cfg1 ∧
    started i ((NStr ∘ names) <$> seq 0 cfg.(n)) r cfg1 cfg' p0 rf rn.
Proof.
  unfold start1. intros (cfg1 & Hc1 & Hc)%bind_Some. exists cfg1.
  assert (n cfg1 = n cfg) as Hn.
  { apply crash1_spec in Hc1 as (c & md & ds & sv & (en & -> & _)%disconnect_spec & [_ _ _ (_ & -> & _) _]). done. }
  rewrite Hn in Hc. set (es := (NStr ∘ names) <$> seq 0 (n cfg)) in *. clearbody es.
  apply bind_Some in Hc as (ens & (Hi & ->)%set_at_Some & Hc). cbv zeta in Hc.
  apply bind_Some in Hc as (rn & Hrn & Hc). apply bind_Some in Hc as (cfg2 & Hf & Hl).
  apply fresh_persister_spec in Hf as (p0 & Hp0 & Hlt & ->). cbn in Hp0, Hlt.
  apply launch_spec in Hl as (d & p & rf & Hs & Hp & Hmk & ->). cbn in Hs, Hp.
  rewrite list_lookup_insert_eq in Hs by done. injection Hs as <-.
  rewrite lookup_app_r, Nat.sub_diag in Hp by done. injection Hp as <-.
  exists p0, rf, rn. split; [done|]. split; [by apply make_ends_spec|done|done|done| |done|done].
  split_and!; try done. cbn [disks over]. by rewrite insert_app_r_alt, Nat.sub_diag by done.
Qed.
(** ** The invariant *)

Definition Raft_server (p : nat) : @Server V T W :=
  AddService (MakeService "Raft" (Raft_methods p)) MakeServer.

Definition up cfg (i : nat) : Prop := cfg.(connected) !! i = Some true.

Record harness_ok cfg : Prop := {
  h_size : length cfg.(rafts) = cfg.(n) ∧ length cfg.(connected) = cfg.(n) ∧
    length cfg.(saved) = cfg.(n) ∧ length cfg.(endnames) = cfg.(n);
  h_made p x : cfg.(made) !! p = Some x → x.(i_me) < cfg.(n) ∧ length x.(i_ends) = cfg.(n) ∧
    cfg.(disks) !! x.(i_disk) = Some x.(i_raft).(persister);
  h_link p x j e : cfg.(made) !! p = Some x → x.(i_ends) !! j = Some e →
    e ∈ cfg.(net).(ends) ∧ cfg.(net).(connections) !! e = Some (Some (NInt j));
  h_inj p x j p' x' j' e : cfg.(made) !! p = Some x → x.(i_ends) !! j = Some e →
    cfg.(made) !! p' = Some x' → x'.(i_ends) !! j' = Some e → p = p' ∧ j = j';
  h_disk p x p' x' : cfg.(made) !! p = Some x → cfg.(made) !! p' = Some x' →
    x.(i_disk) = x'.(i_disk) → p = p';
  h_row i row : cfg.(endnames) !! i = Some (Some row) →
    ∃ p x, cfg.(made) !! p = Some x ∧ x.(i_me) = i ∧ x.(i_ends) = row ∧
      (cfg.(rafts) !! i = Some None ∨ cfg.(rafts) !! i = Some (Some p));
  h_raft i p : cfg.(rafts) !! i = Some (Some p) →
    ∃ x sv rs, cfg.(made) !! p = Some x ∧ x.(i_me) = i ∧ cfg.(endnames) !! i = Some (Some x.(i_ends)) ∧
      cfg.(saved) !! i = Some (Some x.(i_disk)) ∧
      cfg.(net).(servers) !! NInt i = Some (Some sv) ∧ cfg.(heap) !! sv = Some rs ∧
      rs.(services) = (Raft_server p).(services);
  h_saved i d : cfg.(saved) !! i = Some (Some d) → d < length cfg.(disks) ∧
    ∀ p x, cfg.(made) !! p = Some x → x.(i_disk) = d → cfg.(rafts) !! i = Some (Some p);
  h_up i : up cfg i → ∃ p, cfg.(rafts) !! i = Some (Some p);
  h_on e : cfg.(net).(enabled) !! e = Some true ↔
    ∃ i j, end_at cfg.(endnames) i j = Some e ∧ up cfg i ∧ up cfg j
}.

Lemma h_at cfg i j e : harness_ok cfg → end_at cfg.(endnames) i j = Some e →
  ∃ p x, cfg.(made) !! p = Some x ∧ x.(i_me) = i ∧ x.(i_ends) !! j = Some e ∧ i < cfg.(n) ∧ j < cfg.(n) ∧
    (cfg.(rafts) !! i = Some None ∨ cfg.(rafts) !! i = Some (Some p)).
Proof.
  intros Hok (row & Hi & Hj)%end_at_Some. destruct (h_row _ Hok _ _ Hi) as (p & x & Hp & Hx & <- & Hr).
  destruct (h_made _ Hok _ _ Hp) as (Hm & Hl & _). exists p, x. split_and!; try done; [lia|].
  rewrite <- Hl. by eapply lookup_lt_Some.
Qed.

(** An end is in one row, at one place. *)
Lemma h_at_inj cfg i j i' j' e : harness_ok cfg →
  end_at cfg.(endnames) i j = Some e → end_at cfg.(endnames) i' j' = Some e → i = i' ∧ j = j'.
Proof.
  intros Hok (p & x & Hp & Hx & He & _)%h_at (p' & x' & Hp' & Hx' & He' & _)%h_at; [|done..].
  destruct (h_inj _ Hok _ _ _ _ _ _ _ Hp He Hp' He') as [<- <-]. simplify_eq. done.
Qed.

Lemma connect_ok i p cfg cfg' : harness_ok cfg → cfg.(rafts) !! i = Some (Some p) →
  connect i cfg = Some cfg' → harness_ok cfg'.
Proof.
  intros Hok Hp (en & -> & Hi & Hen)%connect_spec.
  assert (∀ k, (<[i := true]> cfg.(connected) !! k = Some true) ↔ k = i ∨ up cfg k) as Hup.
  { intros k. unfold up. destruct (decide (k = i)) as [->|Hne].
    - rewrite list_lookup_insert_eq by done. tauto.
    - rewrite list_lookup_insert_ne by done. naive_solver. }
  destruct Hok as [Hs Hm Hl Hin Hd Hrow Hr Hsv Hu Hon].
  split; cbn -[Raft_server]; try done; try (by rewrite length_insert).
  - intros k [->|Hk]%Hup; [by exists p|by apply Hu].
  - intros e. rewrite Hen, Hon. unfold up. cbn. setoid_rewrite Hup. split.
    + intros [(a & b & He & Ha & Hb)|(k & Hk & Hupk & [He|He])]; [eauto 10|exists i, k; auto|exists k, i; auto].
    + intros (a & b & He & Ha & Hb).
      assert (a < n cfg ∧ b < n cfg) as [Han Hbn].
      { by destruct (h_at cfg a b e) as (? & ? & _ & _ & _ & ? & ? & _). }
      destruct Ha as [->|Ha]; [right; exists b; auto|]. destruct Hb as [->|Hb]; [right; exists a; auto|].
      left. eauto 10.
Qed.
Lemma disconnect_ok i cfg cfg' : harness_ok cfg → disconnect i cfg = Some cfg' →
  harness_ok cfg' ∧ ¬ up cfg' i ∧ ∀ k, up cfg' k → up cfg k.
Proof.
  intros Hok (en & -> & Hi & Hen)%disconnect_spec.
  assert (∀ k, (<[i := false]> cfg.(connected) !! k = Some true) ↔ k ≠ i ∧ up cfg k) as Hup.
  { intros k. unfold up. destruct (decide (k = i)) as [->|Hne].
    - rewrite list_lookup_insert_eq by done. naive_solver.
    - rewrite list_lookup_insert_ne by done. naive_solver. }
  split; [|unfold up; cbn; split; [rewrite Hup; by intros []|intros k; rewrite Hup; by intros []]].
  pose proof (h_at_inj cfg) as Hat. pose proof Hok as [Hs Hm Hl Hin Hd Hrow Hr Hsv Hu Hon].
  split; cbn -[Raft_server]; try done; try (by rewrite length_insert).
  - intros k Hk. apply Hup in Hk as [_ Hk]. by apply Hu.
  - intros e. rewrite Hen, Hon. unfold up. cbn. setoid_rewrite Hup. split.
    + intros [(a & b & He & Ha & Hb) Hno]. exists a, b. split; [done|].
      destruct (h_at cfg a b e Hok He) as (? & ? & _ & _ & _ & ? & ? & _).
      split; split; try done; intros ->; [by destruct (Hno b)|by destruct (Hno a)].
    + intros (a & b & He & [Ha Hua] & [Hb Hub]). split; [eauto 10|].
      intros k Hk. split; intros He'; destruct (Hat _ _ _ _ _ Hok He He'); congruence.
Qed.

(** The same Rafts, with the same persisters. *)
Definition same_made (ms ms' : list instance) : Prop :=
  ∀ p, (λ x, (i_me x, i_ends x, i_disk x)) <$> ms !! p = (λ x, (i_me x, i_ends x, i_disk x)) <$> ms' !! p.

Lemma same_made_back ms ms' p x' : same_made ms ms' → ms' !! p = Some x' →
  ∃ x, ms !! p = Some x ∧ i_me x = i_me x' ∧ i_ends x = i_ends x' ∧ i_disk x = i_disk x'.
Proof.
  intros Hs Hp. specialize (Hs p). rewrite Hp in Hs. destruct (ms !! p) as [x|]; [|done].
  cbn in Hs. injection Hs as Em Ee Ed. eauto.
Qed.

Lemma same_made_sym ms ms' : same_made ms ms' → same_made ms' ms.
Proof. intros Hs p. by rewrite Hs. Qed.

Lemma same_made_insert ms p x rf : ms !! p = Some x → same_made ms (<[p := x <| i_raft := rf |>]> ms).
Proof.
  intros Hp q. destruct (decide (q = p)) as [->|].
  - rewrite Hp, list_lookup_insert_eq by by eapply lookup_lt_Some. done.
  - by rewrite list_lookup_insert_ne.
Qed.

(** What depends on the Rafts only through their numbers, ends and persisters. *)
Lemma same_made_ok cfg cfg' : harness_ok cfg → same_made cfg.(made) cfg'.(made) →
  (∀ p x, cfg'.(made) !! p = Some x → cfg'.(disks) !! x.(i_disk) = Some x.(i_raft).(persister)) →
  length cfg'.(disks) = length cfg.(disks) →
  cfg'.(net) = cfg.(net) → cfg'.(heap) = cfg.(heap) → cfg'.(n) = cfg.(n) → cfg'.(rafts) = cfg.(rafts) →
  cfg'.(connected) = cfg.(connected) → cfg'.(saved) = cfg.(saved) → cfg'.(endnames) = cfg.(endnames) →
  harness_ok cfg'.
Proof.
  intros [Hs Hm Hl Hin Hd Hrow Hr Hsv Hu Hon] Hsame Hp Hlen En Eh Enn Er Ec Es Ee.
  unfold up in *.
  split; unfold up; rewrite ?En, ?Eh, ?Enn, ?Er, ?Ec, ?Es, ?Ee; try done.
  - intros p x' Hx'. destruct (same_made_back _ _ p x' Hsame Hx') as (x & Hx & Eme & Eends & _).
    rewrite <- Eme, <- Eends. destruct (Hm _ _ Hx) as (? & ? & _).
    split; [done|]. split; [done|]. by apply (Hp p).
  - intros p x' j e Hx'. destruct (same_made_back _ _ p x' Hsame Hx') as (x & Hx & _ & <- & _). by apply (Hl p x).
  - intros p x' j q y' k e Hx' He Hy' He'.
    destruct (same_made_back _ _ p x' Hsame Hx') as (x & Hx & _ & Ex & _).
    destruct (same_made_back _ _ q y' Hsame Hy') as (y & Hy & _ & Ey & _).
    rewrite <- Ex in He. rewrite <- Ey in He'. by eapply Hin.
  - intros p x' q y' Hx' Hy'.
    destruct (same_made_back _ _ p x' Hsame Hx') as (x & Hx & _ & _ & <-).
    destruct (same_made_back _ _ q y' Hsame Hy') as (y & Hy & _ & _ & <-). by apply (Hd p x q y).
  - intros i row Hi. destruct (Hrow i row Hi) as (p & x & Hx & Hme & Hends & Hraft).
    destruct (same_made_back _ _ p x (same_made_sym _ _ Hsame) Hx) as (x' & Hx' & Em & Een & _).
    exists p, x'. rewrite Em, Een. auto.
  - intros i p Hi. destruct (Hr i p Hi) as (x & sv & rs & Hx & ? & ? & ? & ?).
    destruct (same_made_back _ _ p x (same_made_sym _ _ Hsame) Hx) as (x' & Hx' & Eme & Eends & Edisk).
    exists x', sv, rs. rewrite Eme, Eends, Edisk. auto.
  - intros i d Hi. destruct (Hsv i d Hi) as [Hlt Hq]. split; [by rewrite Hlen|].
    intros p x' Hx' Hdk. destruct (same_made_back _ _ p x' Hsame Hx') as (x & Hx & _ & _ & Ed).
    apply (Hq _ _ Hx). congruence.
Qed.

(** A Raft, current or not, takes a step: it is whatever it is, and its persister too. *)
Definition run (p : nat) (x : instance) (rf : Raft) cfg : config :=
  cfg <| made := <[p := x <| i_raft := rf |>]> cfg.(made) |>
      <| disks := <[x.(i_disk) := rf.(persister)]> cfg.(disks) |>.

Lemma run_ok p x rf cfg : harness_ok cfg → cfg.(made) !! p = Some x → harness_ok (run p x rf cfg).
Proof.
  intros Hok Hp. destruct (h_made _ Hok _ _ Hp) as (_ & _ & Hdk).
  apply (same_made_ok cfg); try done.
  - by apply same_made_insert.
  - intros q y Hy. cbn in Hy |- *. destruct (decide (q = p)) as [->|Hne].
    + rewrite list_lookup_insert_eq in Hy by by eapply lookup_lt_Some. injection Hy as <-. cbn.
      apply list_lookup_insert_eq. by eapply lookup_lt_Some.
    + rewrite list_lookup_insert_ne in Hy by done.
      rewrite list_lookup_insert_ne; [by destruct (h_made _ Hok _ _ Hy) as (_ & _ & ?)|].
      intros Hd. apply Hne. symmetry. by eapply (h_disk _ Hok).
  - cbn. by rewrite length_insert.
Qed.
Lemma same_made_refl ms : same_made ms ms.
Proof. done. Qed.

Lemma crashed_ok i cfg cfg' md ds sv :
  harness_ok cfg → ¬ up cfg i → crashed i cfg cfg' md ds sv → harness_ok cfg'.
Proof.
  intros Hok Hdown [Hmd Hds (Em & Ed & Esv & En & Er) (Eh & Enn & Ec & Ee) _].
  pose proof Hok as [Hs Hm Hl Hin Hd Hrow Hr Hsv Hu Hon].
  assert (same_made cfg.(made) md) as Hsame.
  { destruct Hmd as [[_ ->]|(q & x & _ & Hx & ->)]; [apply same_made_refl|by apply same_made_insert]. }
  assert (∀ p x, md !! p = Some x → cfg.(disks) !! x.(i_disk) = Some x.(i_raft).(persister)) as Hper.
  { intros p x Hx. destruct Hmd as [[_ ->]|(q & y & _ & Hy & ->)]; [by destruct (Hm _ _ Hx) as (_ & _ & ?)|].
    destruct (decide (p = q)) as [->|].
    - rewrite list_lookup_insert_eq in Hx by by eapply lookup_lt_Some. injection Hx as <-. by destruct (Hm _ _ Hy) as (_ & _ & ?).
    - rewrite list_lookup_insert_ne in Hx by done. by destruct (Hm _ _ Hx) as (_ & _ & ?). }
  assert (∀ k, cfg'.(rafts) !! k = if decide (k = i) then (λ _, None) <$> cfg.(rafts) !! i else cfg.(rafts) !! k) as Hraft.
  { intros k. rewrite Er. case_decide as Hk; [subst|by rewrite list_lookup_insert_ne].
    destruct (cfg.(rafts) !! i) eqn:Hi; [rewrite list_lookup_insert_eq; [done|by eapply lookup_lt_Some]|].
    rewrite list_insert_ge; [done|by apply lookup_ge_None]. }
  split; unfold up; rewrite ?Em, ?Enn, ?Ec, ?Ee, ?En; cbn [ends connections enabled DeleteServer over].
  - rewrite Er, length_insert. destruct Hs as (H1 & H2 & H3 & H4).
    split; [done|]. split; [done|]. split; [|done]. rewrite Esv, <- H3. destruct Hds as [(_ & _ & ->)|(? & ? & _ & _ & _ & ->)]; [done|by rewrite length_insert].
  - intros p x' Hx'. destruct (same_made_back _ _ p x' Hsame Hx') as (x & Hx & Eme & Eends & _).
    rewrite <- Eme, <- Eends, Ed. destruct (Hm _ _ Hx) as (? & ? & _).
    split; [done|]. split; [done|]. apply lookup_app_l_Some, (Hper p x' Hx').
  - intros p x' j e Hx'. destruct (same_made_back _ _ p x' Hsame Hx') as (x & Hx & _ & <- & _). by apply (Hl p x).
  - intros p x' j q y' k e Hx' He Hy' He'.
    destruct (same_made_back _ _ p x' Hsame Hx') as (x & Hx & _ & Ex & _).
    destruct (same_made_back _ _ q y' Hsame Hy') as (y & Hy & _ & Ey & _).
    rewrite <- Ex in He. rewrite <- Ey in He'. by eapply Hin.
  - intros p x' q y' Hx' Hy'.
    destruct (same_made_back _ _ p x' Hsame Hx') as (x & Hx & _ & _ & <-).
    destruct (same_made_back _ _ q y' Hsame Hy') as (y & Hy & _ & _ & <-). by apply (Hd p x q y).
  - intros k row Hk. destruct (Hrow k row Hk) as (p & x & Hx & Hme & Hends & Hrk).
    destruct (same_made_back _ _ p x (same_made_sym _ _ Hsame) Hx) as (x' & Hx' & Eme & Een & _).
    exists p, x'. rewrite Eme, Een, Hraft. split_and!; try done. case_decide as Hki; [left|done].
    subst. by destruct Hrk as [->| ->].
  - intros k p. rewrite Hraft. case_decide as Hki; [destruct (rafts cfg !! i); cbn; congruence|]. intros Hk.
    destruct (Hr k p Hk) as (x & sv' & rs & Hx & ? & ? & Hsvk & Hse & ? & ?).
    destruct (same_made_back _ _ p x (same_made_sym _ _ Hsame) Hx) as (x' & Hx' & Eme & Eends & Edisk).
    exists x', sv', rs. rewrite Eme, Eends, Edisk, Eh. split_and!; try done.
    + rewrite Esv. destruct Hds as [(_ & _ & ->)|(? & ? & _ & _ & _ & ->)]; [done|by rewrite list_lookup_insert_ne].
    + unfold DeleteServer, over; cbn. rewrite lookup_insert_ne; [done|congruence].
  - intros k d. rewrite Esv, Ed, length_app. intros Hk.
    assert (∀ x' p, md !! p = Some x' → i_disk x' < length cfg.(disks)) as Hlt.
    { intros x' p Hx'. apply Hper in Hx'. by eapply lookup_lt_Some. }
    destruct (decide (k = i)) as [->|Hki].
    + destruct Hds as [(Hnone & _ & ->)|(d' & p' & Hd' & _ & -> & ->)]; [congruence|].
      rewrite list_lookup_insert_eq in Hk by by eapply lookup_lt_Some. injection Hk as <-. cbn. split; [lia|].
      intros p x' Hx' Hdk. apply Hlt in Hx'. lia.
    + assert (saved cfg !! k = Some (Some d)) as Hk'.
      { destruct Hds as [(_ & _ & ->)|(? & ? & _ & _ & _ & ->)]; [done|by rewrite list_lookup_insert_ne in Hk]. }
      destruct (Hsv k d Hk') as [? Hq]. split; [lia|]. intros p x' Hx' Hdk.
      destruct (same_made_back _ _ p x' Hsame Hx') as (x & Hx & _ & _ & Exd).
      rewrite Hraft, decide_False by done. apply (Hq p x Hx). congruence.
  - intros k Hk. destruct (Hu k Hk) as [p Hp]. exists p. rewrite Hraft, decide_False; [done|]. by intros ->.
  - done.
Qed.
Lemma started_ok i ends r cfg cfg' p0 rf rn :
  harness_ok cfg → cfg.(rafts) !! i = Some None → ¬ up cfg i → length ends = cfg.(n) →
  started i ends r cfg cfg' p0 rf rn → harness_ok cfg'.
Proof.
  intros Hok Hnone Hdown Hlen [Hem _ _ Hi (Ee & Ed & Esv & Em & Er & Eh & En) (Enn & Ec) _].
  pose proof (h_at cfg) as Hat.
  pose proof Hok as [(H1 & H2 & H3 & H4) Hm Hl Hin Hd Hrow Hr Hsv Hu Hon].
  destruct Hem as [Hnd Hfresh Hend Hnew Hold Hserv]. rewrite H4 in Hi.
  set (x0 := mkInstance i ends (length cfg.(disks)) rf) in *.
  assert (∀ p x, cfg'.(made) !! p = Some x →
    cfg.(made) !! p = Some x ∧ x.(i_disk) < length cfg.(disks) ∨ p = length cfg.(made) ∧ x = x0) as Hmade.
  { intros p x Hx. rewrite Em in Hx. apply lookup_app_Some in Hx as [Hx|[Hge Hx]].
    - left. split; [done|]. destruct (Hm _ _ Hx) as (_ & _ & Hdk). by eapply lookup_lt_Some.
    - right. destruct (p - length (made cfg)) as [|k] eqn:Hk; [|done]. injection Hx as <-. split; [lia|done]. }
  assert (∀ p x, cfg.(made) !! p = Some x → cfg'.(made) !! p = Some x) as Hkeep.
  { intros p x Hx. rewrite Em. by apply lookup_app_l_Some. }
  assert (cfg'.(made) !! length cfg.(made) = Some x0) as Hx0.
  { rewrite Em. by apply list_lookup_middle. }
  assert (∀ p x j e, cfg.(made) !! p = Some x → x.(i_ends) !! j = Some e → e ∉ ends) as Hdisj.
  { intros p x j e Hx He Hin'. by apply (Hfresh e Hin'), (Hl p x j e). }
  assert (∀ a b e, end_at cfg'.(endnames) a b = Some e ↔
    a = i ∧ ends !! b = Some e ∨ a ≠ i ∧ end_at cfg.(endnames) a b = Some e) as Hend'.
  { intros a b e. rewrite Ee, !end_at_Some. destruct (decide (a = i)) as [->|Hne].
    - rewrite list_lookup_insert_eq by lia. naive_solver.
    - rewrite list_lookup_insert_ne by done. naive_solver. }
  split; unfold up; rewrite ?Enn, ?Ec, ?En; cbn [Labrpc.ends connections enabled AddServer over].
  - rewrite Er, Esv, Ee, !length_insert. done.
  - intros p x [[Hx Hlt]|[-> ->]]%Hmade.
    + destruct (Hm _ _ Hx) as (? & ? & ?). split; [done|]. split; [done|]. rewrite Ed. by apply lookup_app_l_Some.
    + cbn. split; [done|]. split; [done|]. rewrite Ed. by apply list_lookup_middle.
  - intros p x j e [[Hx _]|[-> ->]]%Hmade He.
    + destruct (Hl p x j e Hx He) as [He1 He2]. pose proof (Hdisj _ _ _ _ Hx He) as Hn.
      destruct (Hold e Hn) as [_ ->]. split; [|done]. apply Hend. by right.
    + cbn in He. destruct (Hnew _ _ He) as [_ ->]. split; [|done]. apply Hend. left. by eapply list_elem_of_lookup_2.
  - intros p x j q y k e [[Hx _]|[-> ->]]%Hmade He [[Hy _]|[-> ->]]%Hmade He'.
    + by eapply Hin.
    + destruct (Hdisj _ _ _ _ Hx He). by eapply list_elem_of_lookup_2.
    + destruct (Hdisj _ _ _ _ Hy He'). by eapply list_elem_of_lookup_2.
    + split; [done|]. by eapply NoDup_lookup.
  - intros p x q y [[Hx Hlt]|[-> ->]]%Hmade [[Hy Hlt']|[-> ->]]%Hmade Hdk; cbn in Hdk; try lia.
    by apply (Hd p x q y).
  - intros k row Hk. rewrite Er. destruct (decide (k = i)) as [->|Hne].
    + rewrite Ee, list_lookup_insert_eq in Hk by lia. injection Hk as <-. exists (length cfg.(made)), x0.
      split_and!; try done. right. apply list_lookup_insert_eq. lia.
    + rewrite Ee, list_lookup_insert_ne in Hk by done. rewrite list_lookup_insert_ne by done.
      destruct (Hrow k row Hk) as (p & x & Hx & ?). exists p, x. split; [by apply Hkeep|done].
  - intros k p. rewrite Er, Esv, Ee. destruct (decide (k = i)) as [->|Hne].
    + rewrite !list_lookup_insert_eq by lia. intros [= <-].
      exists x0, (length cfg.(heap)), (Raft_server (length cfg.(made))). split_and!; try done.
      * by apply lookup_insert_eq.
      * rewrite Eh. by apply list_lookup_middle.
    + rewrite !list_lookup_insert_ne by done. intros Hk.
      destruct (Hr k p Hk) as (x & sv & rs & Hx & ? & ? & ? & Hse & Hhe & ?). exists x, sv, rs.
      split_and!; try done; [by apply Hkeep| |rewrite Eh; by apply lookup_app_l_Some].
      unfold AddServer, over; cbn. rewrite Hserv, lookup_insert_ne; [done|congruence].
  - intros k d. rewrite Er, Esv, Ed, length_app. cbn. destruct (decide (k = i)) as [->|Hne].
    + rewrite !list_lookup_insert_eq by lia. intros [= <-]. split; [lia|].
      intros p x [[Hx Hlt]|[-> ->]]%Hmade Hdk; [lia|done].
    + rewrite !list_lookup_insert_ne by done. intros Hk. destruct (Hsv k d Hk) as [? Hq]. split; [lia|].
      intros p x [[Hx Hlt]|[-> ->]]%Hmade Hdk; [by apply (Hq p x)|]. cbn in Hdk. lia.
  - intros k Hk. destruct (decide (k = i)) as [->|Hne]; [done|]. destruct (Hu k Hk) as [p Hp]. exists p.
    by rewrite Er, list_lookup_insert_ne.
  - intros e. setoid_rewrite Hend'. destruct (decide (e ∈ ends)) as [Hine|Hnine].
    + apply list_elem_of_lookup in Hine as [j Hj]. destruct (Hnew _ _ Hj) as [-> _]. split; [done|].
      intros (a & b & [[-> _]|[_ He]] & Ha & _); [done|].
      destruct (Hat a b e Hok He) as (p & x & Hp & _ & He' & _). destruct (Hdisj p x b e Hp He').
      by eapply list_elem_of_lookup_2.
    + destruct (Hold e Hnine) as [-> _]. rewrite Hon. split.
      * intros (a & b & He & Ha & Hb). exists a, b. split; [|done]. right. split; [|done]. by intros ->.
      * intros (a & b & [[-> He]|[_ He]] & Ha & Hb); [done|]. eauto 10.
Qed.

Lemma crash1_ok i cfg cfg' : harness_ok cfg → crash1 i cfg = Some cfg' →
  harness_ok cfg' ∧ cfg'.(rafts) !! i = Some None ∧ ¬ up cfg' i ∧ cfg'.(n) = cfg.(n).
Proof.
  intros Hok (cfg1 & md & ds & sv & Hd & Hc)%crash1_spec.
  destruct (disconnect_ok _ _ _ Hok Hd) as (Hok1 & Hdown & _).
  pose proof (crashed_ok _ _ _ _ _ _ Hok1 Hdown Hc) as Hok'.
  destruct Hc as [_ _ (_ & _ & _ & _ & Er) (_ & En & Ec & _) _].
  apply disconnect_spec in Hd as (en & Hcfg1 & Hi & _).
  assert (i < length (rafts cfg1)) as Hlt.
  { destruct (h_size _ Hok) as (H1 & H2 & _). rewrite Hcfg1. change (i < length (rafts cfg)). lia. }
  split; [done|]. split; [by rewrite Er, list_lookup_insert_eq|].
  split; [unfold up in *; by rewrite Ec|]. rewrite En, Hcfg1. done.
Qed.

Lemma start1_ok i names r cfg cfg' : harness_ok cfg → start1 Raft_methods i names r cfg = Some cfg' →
  harness_ok cfg'.
Proof.
  intros Hok (cfg1 & p0 & rf & rn & Hc & Hst)%start1_spec.
  destruct (crash1_ok _ _ _ Hok Hc) as (Hok1 & Hr & Hdown & Hn).
  eapply started_ok; [done..| |done]. by rewrite length_fmap, length_seq.
Qed.
(** ** Everything that happens *)

Context (encode : V → bytes) (decode : T → bytes → option V) (zero : T → V).

(** A request that is sent, handled or answered leaves the links alone, and every
    server's services. *)
Record same_links cfg cfg' : Prop := {
  sl_ends : cfg'.(net).(ends) = cfg.(net).(ends);
  sl_enabled : cfg'.(net).(enabled) = cfg.(net).(enabled);
  sl_servers : cfg'.(net).(servers) = cfg.(net).(servers);
  sl_connections : cfg'.(net).(connections) = cfg.(net).(connections);
  sl_heap sv rs : cfg.(heap) !! sv = Some rs →
    ∃ rs', cfg'.(heap) !! sv = Some rs' ∧ rs'.(services) = rs.(services);
  sl_rest : cfg'.(made) = cfg.(made) ∧ cfg'.(disks) = cfg.(disks) ∧ cfg'.(n) = cfg.(n) ∧
    cfg'.(rafts) = cfg.(rafts) ∧ cfg'.(connected) = cfg.(connected) ∧ cfg'.(saved) = cfg.(saved) ∧
    cfg'.(endnames) = cfg.(endnames)
}.

Lemma same_links_ok cfg cfg' : harness_ok cfg → same_links cfg cfg' → harness_ok cfg'.
Proof.
  intros [Hs Hm Hl Hin Hd Hrow Hr Hsv Hu Hon] [E1 E2 E3 E4 Hh (Em & Ed & En & Er & Ec & Es & Ee)].
  unfold up in *. split; unfold up; rewrite ?E1, ?E2, ?E3, ?E4, ?Em, ?Ed, ?En, ?Er, ?Ec, ?Es, ?Ee; try done.
  intros i p Hi. destruct (Hr i p Hi) as (x & sv & rs & ? & ? & ? & ? & ? & Hhe & Hse).
  destruct (Hh _ _ Hhe) as (rs' & ? & Hse'). exists x, sv, rs'. split_and!; try done. by rewrite Hse'.
Qed.

(** A step of the network of [labrpc.go] that is not one of the harness's. *)
Definition traffic (l : @label netname V T W) cfg cfg' : Prop :=
  (∀ o, l ≠ LNet o) ∧ ∃ w w', exec encode decode zero l w = Some w' ∧
    w.(Labrpc.rn) = cfg.(net) ∧ w.(Labrpc.heap) = cfg.(heap) ∧
    cfg' = cfg <| net := w'.(Labrpc.rn) |> <| heap := w'.(Labrpc.heap) |>.

Lemma traffic_links l cfg cfg' : traffic l cfg cfg' → same_links cfg cfg'.
Proof.
  intros (Hl & w & w' & Hex & Hn & Hh & ->).
  destruct (exec_links _ _ _ _ _ _ Hl Hex) as (E1 & E2 & E3 & E4 & Hheap).
  split; try (cbn; congruence); cbn; [|done]. intros sv rs. rewrite <- Hh. apply Hheap.
Qed.

Inductive hstep : config → config → Prop :=
  | hs_connect i p cfg cfg' :
      cfg.(rafts) !! i = Some (Some p) → connect i cfg = Some cfg' → hstep cfg cfg'
  | hs_disconnect i cfg cfg' : disconnect i cfg = Some cfg' → hstep cfg cfg'
  | hs_crash i cfg cfg' : crash1 i cfg = Some cfg' → hstep cfg cfg'
  | hs_start i names r cfg cfg' : start1 Raft_methods i names r cfg = Some cfg' → hstep cfg cfg'
  | hs_run p x rf cfg : cfg.(made) !! p = Some x → hstep cfg (run p x rf cfg)
  | hs_listen i m cfg cfg' : applier i m cfg = Ok cfg' → hstep cfg cfg'
  | hs_traffic l cfg cfg' : traffic l cfg cfg' → hstep cfg cfg'
  | hs_unreliable b cfg : hstep cfg (setunreliable b cfg)
  | hs_reorder b cfg : hstep cfg (setlongreordering b cfg)
  | hs_delays b cfg : hstep cfg (cfg <| net := LongDelays b cfg.(net) |>).

Definition reachable (m : nat) cfg : Prop := rtc hstep (empty_config m) cfg.

Lemma applier_links i m cfg cfg' : applier i m cfg = Ok cfg' → same_links cfg cfg'.
Proof.
  unfold applier. intros Ha. case_match; [injection Ha as <-; split; eauto; done|].
  destruct (find_mismatch _ _ _) as [err|]; cbn in Ha; [|done].
  destruct (cfg.(logs) !! i); cbn in Ha; [|done]. destruct (set_at _ _ _); cbn in Ha; [|done].
  destruct (if _ && _ then _ else _); [done|]. injection Ha as <-. split; eauto; done.
Qed.

Lemma hstep_ok cfg cfg' : harness_ok cfg → hstep cfg cfg' → harness_ok cfg'.
Proof.
  intros Hok Hst. revert Hok.
  destruct Hst as [i p c c' Hp Hc|i c c' Hc|i c c' Hc|i names r c c' Hc|p x rf c Hp|i m c c' Hc|l c c' Hc|b c|b c|b c];
    intros Hok.
  - by eapply connect_ok.
  - by destruct (disconnect_ok _ _ _ Hok Hc).
  - by destruct (crash1_ok _ _ _ Hok Hc).
  - by eapply start1_ok.
  - by apply run_ok.
  - by eapply same_links_ok, applier_links.
  - by eapply same_links_ok, traffic_links.
  - eapply same_links_ok; [done|]. split; eauto; done.
  - eapply same_links_ok; [done|]. split; eauto; done.
  - eapply same_links_ok; [done|]. split; eauto; done.
Qed.

Lemma empty_ok m : harness_ok (empty_config m).
Proof.
  assert (∀ A (x : A) i y, replicate m x !! i = Some y → y = x) as Hrep.
  { by intros A x i y [-> _]%lookup_replicate. }
  split; cbn; try done.
  - by rewrite !length_replicate.
  - intros i row Hi%Hrep. done.
  - intros i p Hi%Hrep. done.
  - intros i d Hi%Hrep. done.
  - intros i Hi. unfold up in Hi. cbn in Hi. by apply Hrep in Hi.
  - intros e. rewrite lookup_empty. split; [done|]. intros (i & j & (row & Hi%Hrep & _)%end_at_Some & _). done.
Qed.

Lemma reachable_ok m cfg : reachable m cfg → harness_ok cfg.
Proof.
  intros Hr. assert (harness_ok (empty_config m)) as Hok by apply empty_ok.
  revert Hok. induction Hr; eauto using hstep_ok.
Qed.
(** ** Who reaches whom *)

Lemma enabled_on cfg e : (readEndnameInfo e cfg.(net)).(i_enabled) = true ↔ cfg.(net).(enabled) !! e = Some true.
Proof. cbn. by destruct (enabled (net cfg) !! e) as [[]|]. Qed.

(** C22: Whatever the test did so far (it connects servers that have a Raft, as every test
    does), and whatever the peers and the network did, a message of a Raft, of any that was
    ever made, to server [j] gets through exactly when that Raft is the current one of its
    server and both servers are connected; and then it goes to the services of the current
    Raft of [j].  A crashed incarnation cannot send, and no message
    reaches one. *)
Theorem harness_links m cfg p x j e :
  reachable m cfg → cfg.(made) !! p = Some x → x.(i_ends) !! j = Some e →
  let info := readEndnameInfo e cfg.(net) in
  (info.(i_enabled) = true ↔ cfg.(rafts) !! x.(i_me) = Some (Some p) ∧ up cfg x.(i_me) ∧ up cfg j) ∧
  (info.(i_enabled) = true →
    info.(i_servername) = Some (NInt j) ∧
    ∃ q sv rs, cfg.(rafts) !! j = Some (Some q) ∧ info.(i_server) = Some sv ∧
      cfg.(heap) !! sv = Some rs ∧ rs.(services) = (Raft_server q).(services)).
Proof.
  intros Hok%reachable_ok Hp He info.
  assert (info.(i_enabled) = true ↔ cfg.(rafts) !! x.(i_me) = Some (Some p) ∧ up cfg x.(i_me) ∧ up cfg j) as Hiff.
  { subst info. rewrite enabled_on, (h_on _ Hok). split.
    - intros (i & j' & Hat & Hi & Hj). destruct (h_at _ _ _ _ Hok Hat) as (q & y & Hq & Hy & He' & _ & _ & Hr).
      destruct (h_inj _ Hok _ _ _ _ _ _ _ Hp He Hq He') as [<- <-]. simplify_eq.
      destruct (h_up _ Hok _ Hi) as [q Hq']. split; [|done]. destruct Hr as [Hr|Hr]; congruence.
    - intros (Hr & Hme & Hj). exists x.(i_me), j. split; [|done].
      destruct (h_raft _ Hok _ _ Hr) as (y & _ & _ & Hy & _ & Hrow & _). simplify_eq.
      apply end_at_Some. eauto. }
  split; [done|]. intros Hon. apply Hiff in Hon as (_ & _ & Hj).
  destruct (h_link _ Hok _ _ _ _ Hp He) as [_ Hco].
  assert (info.(i_servername) = Some (NInt j)) as Hsn by (subst info; cbn; by rewrite Hco).
  split; [done|]. destruct (h_up _ Hok _ Hj) as [q Hq].
  destruct (h_raft _ Hok _ _ Hq) as (y & sv & rs & _ & _ & _ & _ & Hse & Hhe & Hs). exists q, sv, rs.
  split; [done|]. split; [|done]. subst info. cbn in Hsn |- *. rewrite Hsn. cbn. by rewrite Hse.
Qed.

(** ** Restarting *)

(** A Raft that is made without a snapshot believes that its log starts at index 0. *)
Lemma Make_no_snapshot m me' p r rf :
  (0 ≤ me' < Z.of_nat m)%Z →
  Make m me' p r = Some rf → p.(Persister.snapshot) = [] →
  rf.(snapshotIndex) = 0%Z ∧ rf.(commitIndex) = 0%Z.
Proof.
  unfold Make. intros Hme (rf1 & Hb & Hi)%bind_Some Hsn.
  assert (rf1.(persister) = p ∧ rf1.(RaftTypes.me) = me' ∧ rf1.(peers) = m) as (Hp & Hm & Hpe).
  { unfold Make_boot in Hb. apply bind_Some in Hb as (rf0 & H0 & [= <-]).
    assert (rf0.(persister) = p ∧ rf0.(RaftTypes.me) = me' ∧ rf0.(peers) = m) as (<- & <- & <-).
    { unfold readPersist in H0. destruct (_ <? _)%Z; [by injection H0 as <-|].
      apply bind_Some in H0 as ([] & _ & H0). apply bind_Some in H0 as ([] & _ & H0).
      apply bind_Some in H0 as ([] & _ & [= <-]). done. }
    by repeat case_match. }
  destruct (Make_init_spec r rf1) as (rf2 & Heq & _ & _ & _ & Hidx & _ & Hco & _);
    [by rewrite Hm, Hpe|].
  rewrite Heq in Hi. injection Hi as <-. rewrite Hco. split; by rewrite Hidx, Hp, Hsn, decodeSnapShot_nil.
Qed.

(** C23: Restarting a server: the new Raft starts from the Raft state its predecessor wrote
    last, with its term, vote and log when that one had no snapshot; the snapshot is
    dropped, and the log starts at index 0 again.  The predecessor is killed, and whatever it still does and writes, the
    persister the server's next Raft will be given holds what the new one wrote. *)
Theorem restart_from_last_state m cfg i p x names r cfg' :
  reachable m cfg → cfg.(rafts) !! i = Some (Some p) → cfg.(made) !! p = Some x →
  start1 Raft_methods i names r cfg = Some cfg' →
  ∃ q y, cfg'.(rafts) !! i = Some (Some q) ∧ cfg'.(made) !! q = Some y ∧
    Make cfg.(n) (Z.of_nat i) (Persister.mk x.(i_raft).(persister).(Persister.raftstate) []) r = Some y.(i_raft) ∧
    y.(i_raft).(snapshotIndex) = 0%Z ∧
    (recoverable x.(i_raft) → x.(i_raft).(peers) = cfg.(n) → x.(i_raft).(me) = Z.of_nat i →
      x.(i_raft).(persister).(Persister.snapshot) = [] → recovered x.(i_raft) y.(i_raft)) ∧
    (i_raft <$> cfg'.(made) !! p) = Some (Kill x.(i_raft)) ∧
    ∀ z rf, cfg'.(made) !! p = Some z →
      let c := run p z rf cfg' in
      c.(made) !! q = Some y ∧ c.(saved) !! i = Some (Some y.(i_disk)) ∧
      c.(disks) !! y.(i_disk) = Some y.(i_raft).(persister).
Proof.
  intros Hr Hi Hp Hst. pose proof (reachable_ok _ _ Hr) as Hok.
  pose proof (start1_ok _ _ _ _ _ Hok Hst) as Hok'.
  apply start1_spec in Hst as (cfg1 & p0 & rf & rn & Hc & Hst).
  assert (∀ q y, cfg'.(made) !! q = Some y → cfg'.(rafts) !! i = Some (Some q) →
    cfg'.(saved) !! i = Some (Some (i_disk y)) ∧ cfg'.(disks) !! i_disk y = Some (persister (i_raft y))) as Hcur.
  { intros q y Hq Hri. destruct (h_raft _ Hok' _ _ Hri) as (y' & _ & _ & Hy & _ & _ & Hs & _). simplify_eq.
    split; [done|]. by destruct (h_made _ Hok' _ _ Hq) as (_ & _ & ?). }
  destruct (h_raft _ Hok _ _ Hi) as (x' & _ & _ & Hx' & _ & _ & Hsv & _). simplify_eq.
  destruct (h_made _ Hok _ _ Hp) as (_ & _ & Hdk).
  apply crash1_spec in Hc as (cfg0 & md & ds & sv & (en & -> & Hlt & _)%disconnect_spec & Hcr).
  destruct Hcr as [[[Hno _]|(q & y & Hq & Hy & Hmd)] Hds (Em & Ed & Es & _ & Er) (_ & En & _ & Ee) _];
    [cbn in Hno; congruence|]. cbn in Hq, Hy, Hds, Er, Em, Ed, Es, En, Ee, Hmd. simplify_eq.
  destruct Hds as [(Hno & _)|(d & p' & Hd & Hp' & -> & Hsv')]; [congruence|]. simplify_eq.
  destruct Hst as [_ Hold Hmk Hlt' (_ & Ed' & Es' & Em' & Er' & _) _ _].
  assert (p < length (made cfg1)) as Hql.
  { rewrite Em, length_insert. by eapply lookup_lt_Some. }
  rewrite length_fmap, length_seq in Hmk.
  assert (cfg1.(disks) !! S (length cfg.(disks)) = Some (Persister.mk x.(i_raft).(persister).(Persister.raftstate) [])) as Hnew.
  { rewrite Ed, lookup_app_r by lia. by replace (S (length (disks cfg)) - length (disks cfg)) with 1 by lia. }
  assert (p0 = Persister.mk x.(i_raft).(persister).(Persister.raftstate) []) as ->.
  { rewrite Hsv', list_lookup_insert_eq in Hold by by eapply lookup_lt_Some.
    destruct Hold as [[? _]|(d & [= <-] & Hd')]; [done|]. congruence. }
  eexists (length cfg1.(made)), (mkInstance i _ (length cfg1.(disks)) rf).
  assert (cfg'.(rafts) !! i = Some (Some (length (made cfg1)))) as Hri.
  { rewrite Er', list_lookup_insert_eq; [done|]. rewrite Er, length_insert. by eapply lookup_lt_Some. }
  assert (cfg'.(made) !! length (made cfg1) = Some (mkInstance i ((NStr ∘ names) <$> seq 0 (n cfg)) (length cfg1.(disks)) rf)) as Hmq.
  { rewrite Em'. by apply list_lookup_middle. }
  split; [done|]. split; [exact Hmq|]. split; [done|]. split.
  { refine (proj1 (Make_no_snapshot cfg.(n) (Z.of_nat i)
      (Persister.mk x.(i_raft).(persister).(Persister.raftstate) []) r rf _ Hmk eq_refl)). destruct (h_size _ Hok) as (_ & Hc & _). lia. }
  split.
  { intros Hrec Hpe Hme Hsn. destruct (Make_recoverable r _ Hrec) as (rf' & Hmk' & Hre & _).
    assert (Persister.mk x.(i_raft).(persister).(Persister.raftstate) [] = x.(i_raft).(persister)) as Heq.
    { destruct (persister (i_raft x)). cbn in *. by rewrite Hsn. }
    rewrite Heq, <- Hpe, <- Hme, Hmk' in Hmk. injection Hmk as <-. exact Hre. }
  split.
  - rewrite Em', lookup_app_l, Em by done. by rewrite list_lookup_insert_eq by by eapply lookup_lt_Some.
  - intros z rf' Hz c. destruct (Hcur _ _ Hmq Hri) as [Hs Hdd]. subst c. cbn.
    rewrite list_lookup_insert_ne by lia. split; [done|]. split; [done|].
    rewrite list_lookup_insert_ne; [done|]. intros Heq.
    assert (p = length (made cfg1)) as ->; [|lia]. by eapply (h_disk _ Hok').
Qed.
(** ** [make_config] *)

Lemma start1_rafts i names r cfg cfg' : start1 Raft_methods i names r cfg = Some cfg' →
  i < length cfg.(rafts) →
  length cfg'.(rafts) = length cfg.(rafts) ∧
  ∀ k, is_Some (mjoin (cfg'.(rafts) !! k)) ↔ k = i ∨ is_Some (mjoin (cfg.(rafts) !! k)).
Proof.
  intros (cfg1 & p0 & rf & rn & (cfg0 & md & ds & sv & (en & -> & _)%disconnect_spec & Hcr)%crash1_spec & Hst)%start1_spec Hi.
  destruct Hcr as [_ _ (_ & _ & _ & _ & Er) _ _], Hst as [_ _ _ _ (_ & _ & _ & _ & Er' & _) _ _].
  cbn in Er. rewrite Er', Er, list_insert_insert_eq.
  split; [by rewrite length_insert|]. intros k. destruct (decide (k = i)) as [->|].
  - rewrite list_lookup_insert_eq by done. cbn. naive_solver.
  - rewrite list_lookup_insert_ne by done. naive_solver.
Qed.

Lemma start_all_reachable names rs l m cfg cfg' : reachable m cfg → Forall (λ i, i < length cfg.(rafts)) l →
  foldM (λ cfg i, start1 Raft_methods i (names i) (rs i) cfg) cfg l = Some cfg' →
  reachable m cfg' ∧ length cfg'.(rafts) = length cfg.(rafts) ∧
  ∀ i, i ∈ l ∨ is_Some (mjoin (cfg.(rafts) !! i)) → is_Some (mjoin (cfg'.(rafts) !! i)).
Proof.
  revert cfg. induction l as [|i l IH]; intros cfg Hr Hl Hf; cbn in Hf.
  - injection Hf as <-. split_and!; [done|done|]. by intros i [?%elem_of_nil|?].
  - apply Forall_cons in Hl as [Hi Hl]. apply bind_Some in Hf as (cfg1 & Hst & Hf).
    destruct (start1_rafts _ _ _ _ _ Hst Hi) as [Hlen Hk]. rewrite <- Hlen in Hl.
    destruct (IH cfg1) as (Hr' & Hlen' & Hall); [eapply rtc_r; [done|by eapply hs_start]|done|done|].
    split; [done|]. split; [congruence|]. intros k Hin. apply Hall. rewrite Hk.
    destruct Hin as [[->|?]%elem_of_cons|?]; auto.
Qed.

Lemma connect_all_reachable l m cfg cfg' : reachable m cfg →
  (∀ i, i ∈ l → is_Some (mjoin (cfg.(rafts) !! i))) →
  foldM (λ cfg i, connect i cfg) cfg l = Some cfg' → reachable m cfg'.
Proof.
  revert cfg. induction l as [|i l IH]; intros cfg Hr Hl Hf; cbn in Hf; [by injection Hf as <-|].
  apply bind_Some in Hf as (cfg1 & Hc & Hf).
  destruct (Hl i) as [p Hp]; [by left|]. destruct (rafts cfg !! i) as [o|] eqn:Hi; [|done]. cbn in Hp. subst o.
  apply (IH cfg1); [eapply rtc_r; [done|by eapply hs_connect]| |done].
  apply connect_spec in Hc as (en & -> & _). intros k Hk. apply Hl. by right.
Qed.

Lemma make_config_reachable m unreliable names rs cfg :
  make_config Raft_methods m unreliable names rs = Some cfg → reachable m cfg.
Proof.
  unfold make_config. intros (cfg1 & Hst & Hc)%bind_Some.
  apply (start_all_reachable _ _ _ m) in Hst as (Hr & _ & Hall).
  - eapply connect_all_reachable; [done| |done]. intros i Hi. apply Hall. by left.
  - eapply rtc_l; [apply (hs_unreliable unreliable)|]. apply rtc_once, hs_delays.
  - apply Forall_forall. intros i Hi%elem_of_seq. cbn. rewrite length_replicate. lia.
Qed.
End network.

(** ** Two servers, one of which is restarted *)

#[local] Existing Instance codec.

Module Demo.
Definition methods (p : nat) : list (@method unit unit unit) := [].
Definition name (tag i j : nat) : string :=
  String (Ascii.ascii_of_nat (65 + tag)) (String (Ascii.ascii_of_nat (65 + i)) (String (Ascii.ascii_of_nat (65 + j)) "")).
Definition config : Type := @RaftConfig.config unit unit unit.
Definition dflt : config := empty_config 0.
Definition cfg : config := default dflt (make_config methods 2 false (name 0) (λ _, 0%Z)).
Definition restarted : config := default dflt (start1 methods 1 (name 1 1) 0 cfg).
Definition end01 : netname := NStr (name 0 0 1).
Definition inst (p : nat) (c : config) : instance :=
  default (mkInstance 0 [] 0 (zero_Raft 0 0 (Persister.mk [] []))) (c.(made) !! p).

Lemma cfg_made : make_config methods 2 false (name 0) (λ _, 0%Z) = Some cfg.
Proof. vm_compute. reflexivity. Qed.

Lemma cfg_reachable : reachable methods (λ _, []) (λ _ _, None) (λ _, tt) 2 cfg.
Proof. eapply make_config_reachable, cfg_made. Qed.
End Demo.

Lemma harness_links_witness :
  let info := readEndnameInfo Demo.end01 Demo.cfg.(net) in
  (info.(i_enabled) = true ↔ Demo.cfg.(rafts) !! 0 = Some (Some 0) ∧ up Demo.cfg 0 ∧ up Demo.cfg 1) ∧
  (info.(i_enabled) = true →
    info.(i_servername) = Some (NInt 1) ∧
    ∃ q sv rs, Demo.cfg.(rafts) !! 1 = Some (Some q) ∧ info.(i_server) = Some sv ∧
      Demo.cfg.(heap) !! sv = Some rs ∧ rs.(services) = (Raft_server Demo.methods q).(services)).
Proof.
  apply (harness_links Demo.methods (λ _, []) (λ _ _, None) (λ _, ()) 2 Demo.cfg 0 (Demo.inst 0 Demo.cfg) 1 Demo.end01).
  - apply Demo.cfg_reachable.
  - vm_compute. reflexivity.
  - vm_compute. reflexivity.
Defined.

Lemma restart_from_last_state_witness :
  let x := Demo.inst 1 Demo.cfg in let cfg' := Demo.restarted in
  ∃ q y, cfg'.(rafts) !! 1 = Some (Some q) ∧ cfg'.(made) !! q = Some y ∧
    Make 2 1 (Persister.mk x.(i_raft).(persister).(Persister.raftstate) []) 0 = Some y.(i_raft) ∧
    y.(i_raft).(snapshotIndex) = 0%Z ∧
    (recoverable x.(i_raft) → x.(i_raft).(peers) = 2 → x.(i_raft).(me) = 1%Z →
      x.(i_raft).(persister).(Persister.snapshot) = [] → recovered x.(i_raft) y.(i_raft)) ∧
    (i_raft <$> cfg'.(made) !! 1) = Some (Kill x.(i_raft)) ∧
    ∀ z rf, cfg'.(made) !! 1 = Some z →
      let c := run 1 z rf cfg' in
      c.(made) !! q = Some y ∧ c.(saved) !! 1 = Some (Some y.(i_disk)) ∧
      c.(disks) !! y.(i_disk) = Some y.(i_raft).(persister).
Proof.
  apply (restart_from_last_state Demo.methods (λ _, []) (λ _ _, None) (λ _, ()) 2 Demo.cfg 1 1
    (Demo.inst 1 Demo.cfg) (Demo.name 1 1) 0 Demo.restarted).
  - apply Demo.cfg_reachable.
  - vm_compute. reflexivity.
  - vm_compute. reflexivity.
  - vm_compute. reflexivity.
Defined.
