(* ===== verification/RaftOracle.v ===== *)
(** What the checks of the Raft tests see ([src/src/raft/config.go]): the listeners on the
    apply channels accept exactly the deliveries that agree and have no gaps, and what
    [nCommitted] and [one] report was agreed on. *)
From S2P Require Import Prelude Gob Iface RaftTypes RaftPersist RaftLeader Labrpc Harness RaftConfig RaftConfigProps GobImpl.
Open Scope nat_scope.

Section oracle.
Context `{!RaftCodec}.
Context {V T W : Type} `{!EqDecision T}.
Local Abbreviation config := (@config V T W).
Implicit Types (cfg : config).

(** ** The listeners *)

(** What can be compared in an interface. *)
Definition comparable (v : iface) : Prop := match v with IBytes _ => False | _ => True end.

Lemma iface_ne_comparable old v : comparable v → iface_ne old v = Some (negb (bool_decide (old = v))).
Proof. by destruct old, v. Qed.

Definition index_of (m : ApplyMsg.t) : Z := m.(ApplyMsg.CommandIndex).

Lemma iface_ne_Some old v ne : iface_ne old v = Some ne → ne = negb (bool_decide (old = v)).
Proof. by destruct old, v; cbn; intros [= <-]. Qed.

Lemma find_mismatch_spec i m lgs err : find_mismatch i m lgs = Some err →
  (err = None ↔ ∀ j lg old, lgs !! j = Some lg → lg !! index_of m = Some old → old = m.(ApplyMsg.Command)).
Proof.
  unfold find_mismatch, index_of. set (f := λ err '(j, lg), _).
  assert (∀ e j lg, f e (j, lg) = match lg !! m.(ApplyMsg.CommandIndex) with
    | None => Some e
    | Some old => ne ← iface_ne old m.(ApplyMsg.Command);
        Some (if ne : bool
              then Some (Mismatch m.(ApplyMsg.CommandIndex) i m.(ApplyMsg.Command) j old) else e)
    end) as Hf by done.
  clearbody f. intros Hfold.
  assert (∀ (l : list (nat * gmap Z iface)) err0, foldM f err0 l = Some err →
    (err = None ↔ err0 = None ∧ ∀ x old, x ∈ l → x.2 !! m.(ApplyMsg.CommandIndex) = Some old →
      old = m.(ApplyMsg.Command))) as Hall.
  { clear Hfold. induction l as [|[j lg] l IH]; intros err0 Hfold; cbn [foldM] in Hfold.
    { injection Hfold as ->. split; [|by intros []]. intros ->. split; [done|]. by intros x old ?%elem_of_nil. }
    rewrite Hf in Hfold. destruct (lg !! m.(ApplyMsg.CommandIndex)) as [old|] eqn:Hlg; cbn [mbind option_bind] in Hfold.
    - destruct (iface_ne old _) as [ne|] eqn:Hne; cbn [mbind option_bind] in Hfold; [|done].
      apply iface_ne_Some in Hne as ->. rewrite (IH _ Hfold). case_bool_decide as Heq; cbn.
      + split; intros [He Hr]; (split; [done|]); intros x o.
        * intros [->|Hx]%elem_of_cons; [cbn; congruence|by apply Hr].
        * intros Hx. apply Hr. by right.
      + split; [by intros []|]. intros [_ Hr]. destruct Heq. by apply (Hr (j, lg)); [left|].
    - rewrite (IH _ Hfold). split; intros [He Hr]; (split; [done|]); intros x o.
      + intros [->|Hx]%elem_of_cons; [cbn; congruence|by apply Hr].
      + intros Hx. apply Hr. by right. }
  rewrite (Hall _ _ Hfold). split.
  - intros [_ Hr] j lg old Hj. apply (Hr (j, lg)). apply elem_of_lookup_imap. eauto.
  - intros Hr. split; [done|]. intros x old (j & lg & -> & Hj)%elem_of_lookup_imap. cbn. by apply (Hr j).
Qed.

Lemma find_mismatch_total i m lgs : comparable m.(ApplyMsg.Command) → is_Some (find_mismatch i m lgs).
Proof.
  intros Hc. unfold find_mismatch. generalize (@None apply_error) as err0.
  induction (imap pair lgs) as [|[j lg] l IH]; intros err0; cbn [foldM]; [done|].
  destruct (lg !! m.(ApplyMsg.CommandIndex)); [rewrite iface_ne_comparable by done|]; apply IH.
Qed.

(** A delivery: a server, an index and a command. *)
Local Abbreviation delivery := (nat * Z * iface)%type.

(** The deliveries agree on every index, and everything is delivered to a server after
    what comes before it in the log. *)
Definition agreeing (l : list delivery) : Prop :=
  ∀ i j idx v w, (i, idx, v) ∈ l → (j, idx, w) ∈ l → v = w.
Definition gapless (l : list delivery) : Prop :=
  ∀ l1 i idx v l2, l = l1 ++ (i, idx, v) :: l2 → (1 < idx)%Z → ∃ w, (i, (idx - 1)%Z, w) ∈ l1.

(** The harness has logged exactly these deliveries. *)
Record logged cfg (l : list delivery) : Prop := {
  lg_at i idx v : (∃ lg, cfg.(logs) !! i = Some lg ∧ lg !! idx = Some v) ↔ (i, idx, v) ∈ l;
  lg_max i idx v : (i, idx, v) ∈ l → (idx ≤ cfg.(maxIndex))%Z
}.

Definition deliver (i : nat) (idx : Z) (v : iface) : config → outcome apply_error config :=
  applier i (ApplyMsg.mk true v idx).

Lemma deliver_spec i idx v cfg l :
  logged cfg l → i < length cfg.(logs) → comparable v →
  let good := (∀ j w, (j, idx, w) ∈ l → w = v) ∧ ((1 < idx)%Z → ∃ w, (i, (idx - 1)%Z, w) ∈ l) in
  good ∧ (∃ cfg', deliver i idx v cfg = Ok cfg' ∧ logged cfg' (l ++ [(i, idx, v)]) ∧
    length cfg'.(logs) = length cfg.(logs)) ∨
  ¬ good ∧ ∃ e, deliver i idx v cfg = Fatal e.
Proof.
  intros [Hat Hmax] Hi Hc good. unfold deliver, applier. cbn [ApplyMsg.CommandValid negb ApplyMsg.CommandIndex ApplyMsg.Command].
  destruct (find_mismatch_total i (ApplyMsg.mk true v idx) cfg.(logs) Hc) as [err Hfind].
  pose proof (find_mismatch_spec _ _ _ _ Hfind) as Herr. rewrite Hfind.
  unfold index_of in Herr. cbn in Herr. cbn [lift_option obind].
  destruct (lookup_lt_is_Some_2 _ _ Hi) as [lg Hlg]. rewrite Hlg. cbn [lift_option obind].
  unfold set_at. rewrite decide_True by done. cbn [lift_option obind].
  assert (err = None ↔ ∀ j w, (j, idx, w) ∈ l → w = v) as Hagree.
  { rewrite Herr. split.
    - intros Hr j w Hin. apply Hat in Hin as (lg' & Hj & Hw). by eapply Hr.
    - intros Hr j lg' old Hj Hold. apply (Hr j). apply Hat. eauto. }
  assert (bool_decide (is_Some (lg !! (idx - 1)%Z)) = true ↔ ∃ w, (i, (idx - 1)%Z, w) ∈ l) as Hprev.
  { rewrite bool_decide_eq_true. split.
    - intros [w Hw]. exists w. apply Hat. eauto.
    - intros [w (lg' & Hj & Hw)%Hat]. simplify_eq. by rewrite Hw. }
  assert ((if (1 <? idx)%Z && negb (bool_decide (is_Some (lg !! (idx - 1)%Z))) then Some (OutOfOrder i idx) else err)
    = None ↔ good) as Hgood.
  { subst good. rewrite <- Hagree, <- Hprev. destruct (Z.ltb_spec 1 idx), (bool_decide _); cbn; naive_solver lia. }
  cbv zeta. destruct (if _ && _ then _ else _) as [e|].
  { right. split; [by intros Hg%Hgood|]. by exists e. }
  assert good as Hg by by apply Hgood. left. split; [done|]. eexists. split; [done|].
  cbn [logs over]. split; [|by rewrite length_insert]. split; cbn [logs maxIndex over].
  - intros j idx' w. rewrite elem_of_app, list_elem_of_singleton, <- Hat.
    destruct (decide (j = i)) as [->|Hji].
    + rewrite list_lookup_insert_eq by done. split.
      * intros (lg' & [= <-] & Hw). destruct (decide (idx' = idx)) as [->|].
        -- rewrite lookup_insert_eq in Hw. right. congruence.
        -- rewrite lookup_insert_ne in Hw by done. eauto.
      * intros [(lg' & Hlg' & Hw)|[= -> ->]]; (eexists; split; [done|]); [|apply lookup_insert_eq].
        simplify_eq. destruct (decide (idx' = idx)) as [->|]; [|by rewrite lookup_insert_ne].
        rewrite lookup_insert_eq. f_equal. symmetry. destruct Hg as [Hg _]. apply (Hg i), Hat. eauto.
    + rewrite list_lookup_insert_ne by done. naive_solver.
  - intros j idx' w [Hin|Hin]%elem_of_app; [apply Hmax in Hin; case_match; to_prop; lia|].
    apply list_elem_of_singleton in Hin. injection Hin as -> -> ->. case_match; to_prop; lia.
Qed.

Definition deliver_all (l : list delivery) cfg : outcome apply_error config :=
  ofold (λ cfg '(i, idx, v), deliver i idx v cfg) cfg l.

Lemma ofold_app {E A B} (f : A → B → outcome E A) a l k :
  ofold f a (l ++ k) = obind (ofold f a l) (λ a, ofold f a k).
Proof. revert a. induction l as [|x l IH]; intros a; cbn; [done|]. destruct (f a x); cbn; [apply IH|done..]. Qed.

Lemma agreeing_snoc l i idx v : agreeing (l ++ [(i, idx, v)]) ↔
  agreeing l ∧ ∀ j w, (j, idx, w) ∈ l → w = v.
Proof.
  unfold agreeing. setoid_rewrite elem_of_app. setoid_rewrite list_elem_of_singleton. split.
  - intros H1. split; [eauto|]. intros j w Hj. eapply H1; eauto.
  - intros [H1 H2] a b idx' w w' [Hw|Hw] [Hw'|Hw']; simplify_eq; eauto. symmetry. eauto.
Qed.

Lemma gapless_snoc l i idx v : gapless (l ++ [(i, idx, v)]) ↔
  gapless l ∧ ((1 < idx)%Z → ∃ w, (i, (idx - 1)%Z, w) ∈ l).
Proof.
  unfold gapless. split.
  - intros H1. split; [|by apply (H1 l i idx v [])].
    intros l1 i' idx' w l2 -> Hlt. apply (H1 l1 i' idx' w (l2 ++ [(i, idx, v)])); [|done].
    by rewrite <- app_assoc.
  - intros [H1 H2] l1 i' idx' w l2 Heq Hlt. destruct l2 as [|x l2 _] using rev_ind.
    + apply app_inj_tail in Heq as [-> [= -> -> ->]]. auto.
    + rewrite app_comm_cons, app_assoc in Heq. apply app_inj_tail in Heq as [-> _]. by eapply H1.
Qed.

(** The deliveries that go through are the good ones. *)
Lemma deliver_all_spec cfg l :
  logged cfg [] → Forall (λ d, d.1.1 < length cfg.(logs) ∧ comparable d.2) l →
  (agreeing l ∧ gapless l) ∧ (∃ cfg', deliver_all l cfg = Ok cfg' ∧ logged cfg' l ∧
     length cfg'.(logs) = length cfg.(logs)) ∨
  ¬ (agreeing l ∧ gapless l) ∧ ∃ e, deliver_all l cfg = Fatal e.
Proof.
  intros H0 Hl. unfold deliver_all. induction l as [|[[i idx] v] l IH] using rev_ind.
  { left. split; [split; [by intros ????? ?%elem_of_nil|intros [|? ?] ? ? ? ?; discriminate]|by exists cfg]. }
  apply Forall_app in Hl as [Hl [[Hi Hc] _]%Forall_cons]. cbn in Hi, Hc.
  rewrite agreeing_snoc, gapless_snoc, ofold_app.
  destruct (IH Hl) as [[[Ha Hg] (cfg1 & -> & Hlog & Hlen)]|[Hno [e ->]]]; cbn [obind ofold]; [|right; split; [tauto|by exists e]].
  rewrite <- Hlen in Hi |- *.
  destruct (deliver_spec i idx v cfg1 l Hlog Hi Hc) as [[Hgood (cfg2 & -> & Hd)]|[Hbad [e ->]]]; cbn [obind].
  - left. split; [tauto|]. by exists cfg2.
  - right. split; [tauto|]. by exists e.
Qed.
(** ** What grows *)

Definition entry cfg (i : nat) (idx : Z) : option iface := lg ← cfg.(logs) !! i; lg !! idx.

(** The logs agree, there is one for every server, and no listener has complained. *)
Record good cfg : Prop := {
  g_agree i j idx v w : entry cfg i idx = Some v → entry cfg j idx = Some w → v = w;
  g_err i e : cfg.(applyErr) !! i ≠ Some (Some e);
  g_size : length cfg.(logs) = length cfg.(rafts) ∧ length cfg.(applyErr) = length cfg.(rafts)
}.

Definition comparables cfg : Prop := ∀ i idx v, entry cfg i idx = Some v → comparable v.

Record extends cfg cfg' : Prop := {
  e_good : good cfg → good cfg';
  e_entry i idx v : entry cfg i idx = Some v → entry cfg' i idx = Some v;
  e_size : length cfg'.(rafts) = length cfg.(rafts)
}.

#[local] Instance extends_preorder : PreOrder extends.
Proof. split; [by intros c; split|]. intros x y z [] []. split; auto; congruence. Qed.

Lemma extends_same cfg cfg' : cfg'.(applyErr) = cfg.(applyErr) → cfg'.(logs) = cfg.(logs) →
  length cfg'.(rafts) = length cfg.(rafts) → extends cfg cfg'.
Proof.
  intros Ea El Er. split; unfold entry; [|by rewrite El|done]. intros [Hg He Hs].
  unfold entry in Hg. split; unfold entry; rewrite ?El, ?Ea, ?Er; done.
Qed.

Lemma applier_extends i m cfg cfg' : applier i m cfg = Ok cfg' → extends cfg cfg'.
Proof.
  unfold applier. intros Ha. destruct (negb _); [by injection Ha as <-|].
  destruct (find_mismatch i m cfg.(logs)) as [err|] eqn:Hf; cbn in Ha; [|done].
  apply find_mismatch_spec in Hf. unfold index_of in Hf.
  destruct (cfg.(logs) !! i) as [lg|] eqn:Hi; cbn in Ha; [|done].
  destruct (set_at _ _ _) as [lgs|] eqn:Hset; cbn in Ha; [|done]. apply set_at_Some in Hset as [Hlt ->].
  destruct (if _ && _ then _ else err) as [e|] eqn:Herr; [done|]. injection Ha as <-.
  assert (err = None) as Hnone by by destruct (_ && _).
  rewrite Hnone in Hf. destruct Hf as [Hf _]. specialize (Hf eq_refl).
  set (idx0 := m.(ApplyMsg.CommandIndex)) in *. set (v0 := m.(ApplyMsg.Command)) in *.
  assert (∀ j idx v, (lg' ← <[i := <[idx0 := v0]> lg]> cfg.(logs) !! j; lg' !! idx) = Some v →
    entry cfg j idx = Some v ∨ j = i ∧ idx = idx0 ∧ v = v0) as Hnew.
  { intros j idx v. unfold entry. destruct (decide (j = i)) as [->|].
    - rewrite list_lookup_insert_eq, Hi by done. cbn. destruct (decide (idx = idx0)) as [->|].
      + rewrite lookup_insert_eq. intros [= <-]. auto.
      + rewrite lookup_insert_ne by done. auto.
    - rewrite list_lookup_insert_ne by done. auto. }
  assert (∀ j v, entry cfg j idx0 = Some v → v = v0) as Hv.
  { unfold entry. intros j v (lg' & Hj & Hv)%bind_Some. by eapply Hf. }
  split.
  - intros [Hg He Hs]. split; [|done|cbn; by rewrite length_insert]. unfold entry at 1 2. cbn [logs over].
    intros j k idx v w [Hv1|(-> & -> & ->)]%Hnew [Hw1|(-> & E & ->)]%Hnew; eauto;
      [subst idx; eauto|symmetry; eauto].
  - intros j idx v. unfold entry. cbn [logs over]. intros (lg' & Hj & Hw)%bind_Some.
    destruct (decide (j = i)) as [->|]; [|by rewrite list_lookup_insert_ne, Hj by done].
    rewrite list_lookup_insert_eq by done. cbn. simplify_eq.
    destruct (decide (idx = idx0)) as [->|]; [|by rewrite lookup_insert_ne].
    rewrite lookup_insert_eq. f_equal. symmetry. by eapply Hf.
  - done.
Qed.

Context (Raft_methods : nat → list (@method V T W)).
Context (encode : V → bytes) (decode : T → bytes → option V) (zero : T → V).

Lemma hstep_extends cfg cfg' : hstep Raft_methods encode decode zero cfg cfg' → extends cfg cfg'.
Proof.
  assert (∀ i (c c' : config), crash1 i c = Some c' → c'.(applyErr) = c.(applyErr) ∧ c'.(logs) = c.(logs) ∧
    length c'.(rafts) = length c.(rafts)) as Hcrash.
  { intros i c c' (c1 & md & ds & sv & (en & -> & _)%disconnect_spec & [_ _ (_ & _ & _ & _ & Hr) _ (Ha & Hl & _)])%crash1_spec.
    split; [by rewrite Ha|]. split; [by rewrite Hl|]. by rewrite Hr, length_insert. }
  intros Hst. destruct Hst as [i p c c' Hp Hc|i c c' Hc|i c c' Hc|i names r c c' Hc|p x rf c Hp|i m c c' Hc|l c c' Hc|b c|b c|b c].
  - apply connect_spec in Hc as (en & -> & _). by apply extends_same.
  - apply disconnect_spec in Hc as (en & -> & _). by apply extends_same.
  - apply Hcrash in Hc as (? & ? & ?). by apply extends_same.
  - apply start1_spec in Hc as (c1 & p0 & rf & rn & (? & ? & ?)%Hcrash & [_ _ _ _ (_ & _ & _ & _ & Hr & _) _ (Ha & Hl & _)]).
    apply extends_same; [congruence..|]. rewrite Hr, length_insert. congruence.
  - by apply extends_same.
  - by eapply applier_extends.
  - destruct Hc as (_ & w & w' & _ & _ & _ & ->). by apply extends_same.
  - by apply extends_same.
  - by apply extends_same.
  - by apply extends_same.
Qed.

Lemma hsteps_extend cfg cfg' : rtc (hstep Raft_methods encode decode zero) cfg cfg' → extends cfg cfg'.
Proof. induction 1 as [|x y z Hxy _ IH]; [done|]. etrans; [by apply hstep_extends|done]. Qed.
(** ** The questions of a test *)

Section tests.
Context (evolve : nat → config → config).
Hypothesis Hevolve : ∀ t cfg, rtc (hstep Raft_methods encode decode zero) cfg (evolve t cfg).
(** The failures that are allowed for; the panics that are, unless all the commands can
    be compared. *)
Context (E : failure → Prop) (P : Prop).
Hypothesis HP : P ∨ ∀ t cfg, comparables cfg → comparables (evolve t cfg).
Local Abbreviation test := (@test V T W).

Definition fine cfg : Prop := good cfg ∧ (P ∨ comparables cfg).

Definition holds {A} cfg (m : test A) (Q : A → config → Prop) : Prop :=
  ∀ t, fine cfg →
  match m (t, cfg) with
  | Ok (a, (_, cfg')) => fine cfg' ∧ extends cfg cfg' ∧ Q a cfg'
  | Fatal e => E e
  | Panic => P
  end.

Lemma holds_ret {A} cfg (a : A) (Q : A → config → Prop) : Q a cfg → holds cfg (tret a) Q.
Proof. by intros Hq t Hg. Qed.

Lemma holds_fail {A} cfg e (Q : A → config → Prop) : E e → holds cfg (tfail e) Q.
Proof. by intros He t Hg. Qed.

Lemma holds_bind {A B} cfg (m : test A) (k : A → test B) Q R :
  holds cfg m Q →
  (∀ a cfg', fine cfg' → extends cfg cfg' → Q a cfg' → holds cfg' (k a) R) →
  holds cfg (tbind m k) R.
Proof.
  intros Hm Hk t Hg. unfold tbind. specialize (Hm t Hg).
  destruct (m (t, cfg)) as [[a [t1 c1]]|e|]; cbn; [|done..]. destruct Hm as (Hg1 & He1 & Hq).
  specialize (Hk a c1 Hg1 He1 Hq t1 Hg1). destruct (k a (t1, c1)) as [[b [t2 c2]]|e|]; [|done..].
  destruct Hk as (Hg2 & He2 & Hr). split; [done|]. split; [by etrans|done].
Qed.

Lemma holds_wp {A} cfg (m : test A) (Q R : A → config → Prop) :
  holds cfg m Q → (∀ a c, Q a c → R a c) → holds cfg m R.
Proof.
  intros Hm Hqr t Hg. specialize (Hm t Hg). destruct (m (t, cfg)) as [[a [t1 c1]]|e|]; [|done..].
  destruct Hm as (? & ? & ?). auto.
Qed.

Lemma holds_lift {A} cfg (o : option A) (Q : A → config → Prop) :
  (o = None → P) → (∀ a, o = Some a → Q a cfg) → holds cfg (tlift o) Q.
Proof. intros Hp Hq t Hg. unfold tlift. destruct o as [a|]; cbn; [|by apply Hp]. split; [done|]. split; [done|auto]. Qed.

Lemma holds_put cfg cfg' (Q : unit → config → Prop) :
  cfg'.(applyErr) = cfg.(applyErr) → cfg'.(logs) = cfg.(logs) → length cfg'.(rafts) = length cfg.(rafts) →
  Q tt cfg' → holds cfg (put cfg') Q.
Proof.
  intros Ha Hl Hr Hq t Hg. cbn. pose proof (extends_same _ _ Ha Hl Hr) as He.
  destruct Hg as [Hg Hc]. split; [|done]. split; [by apply (e_good _ _ He)|].
  unfold comparables, entry in *. by rewrite Hl.
Qed.

Lemma holds_bind_look {B} cfg (k : config → test B) R :
  (∀ c, fine c → extends cfg c → holds c (k c) R) →
  holds cfg (tbind (look evolve) k) R.
Proof.
  intros Hk. eapply (holds_bind _ _ _ (λ c c', c = c')).
  - intros t [Hg Hc]. cbn. pose proof (hsteps_extend _ _ (Hevolve t cfg)) as He.
    split; [|by split]. split; [by apply (e_good _ _ He)|].
    destruct Hc as [|Hc]; [by left|]. destruct HP as [|Hcmp]; [by left|right; by apply Hcmp].
  - intros c c' Hg He ->. auto.
Qed.

Lemma holds_bind_lift {A B} cfg (o : option A) (k : A → test B) R :
  (o = None → P) → (∀ a, o = Some a → holds cfg (k a) R) → holds cfg (tbind (tlift o) k) R.
Proof.
  intros Hp Hk t Hg. unfold tbind, tlift. destruct o as [a|]; cbn; [|by apply Hp]. by apply Hk.
Qed.

(** A loop with an invariant about what it has been through. *)
Lemma holds_fold {A B} (f : A → B → test A) (I : list B → A → config → Prop) l done a cfg :
  (∀ k a c c', fine c' → extends c c' → I k a c → I k a c') →
  (∀ k x l2 a c, done ++ l = k ++ x :: l2 → fine c → I k a c → holds c (f a x) (λ a' c', I (k ++ [x]) a' c')) →
  fine cfg → I done a cfg →
  holds cfg (tfold f a l) (λ a' c', I (done ++ l) a' c').
Proof.
  intros Hst Hf. revert done a cfg Hf. induction l as [|x l IH]; intros k a cfg Hf Hg Hi; cbn [tfold].
  - apply holds_ret. by rewrite app_nil_r.
  - eapply holds_bind; [by eapply Hf|]. intros a' c' Hg' _ Hi'.
    assert (k ++ x :: l = (k ++ [x]) ++ l) as Heq by by rewrite <- app_assoc.
    rewrite Heq. apply IH; [|done|done]. intros k' y l2 a2 c2 Hk. apply (Hf k' y l2). by rewrite Heq.
Qed.

(** [count] servers have [cmd] at the index: the servers [S]. *)
Definition committed (idx : Z) (S : list nat) (acc : nat * iface) cfg : Prop :=
  NoDup S ∧ length S = acc.1 ∧ ∀ i, i ∈ S → entry cfg i idx = Some acc.2.

Lemma committed_extends idx S acc cfg cfg' : extends cfg cfg' → committed idx S acc cfg → committed idx S acc cfg'.
Proof. intros He (Hnd & Hl & Hs). split; [done|]. split; [done|]. intros i Hi. by apply (e_entry _ _ He), Hs. Qed.

(** Counting finds every server that had the entry at the start, and only servers that
    have it at the end. *)
Lemma nCommitted_holds idx cfg :
  holds cfg (nCommitted evolve idx) (λ acc c, ∃ S, committed idx S acc c ∧
    ∀ i, i < length cfg.(rafts) → is_Some (entry cfg i idx) → i ∈ S).
Proof.
  unfold nCommitted. apply holds_bind_look. intros c Hg1 He1.
  set (I := λ (k : list nat) (acc : nat * iface) c', extends c c' ∧ ∃ S, committed idx S acc c' ∧
    (∀ i, i ∈ S → i ∈ k) ∧ ∀ i, i ∈ k → is_Some (entry cfg i idx) → i ∈ S).
  eapply holds_wp; [apply (holds_fold _ I (seq 0 (length c.(rafts))) [])|].
  - intros k a c' c'' _ He (Hcc & S & Hc & ?). split; [by etrans|]. exists S. split; [by eapply committed_extends|done].
  - intros k i l2 [cnt cmd] c2 Hk _ (Hcc & S & HS & Hsub & Hall0). unfold count_committed.
    assert (i ∉ k) as Hnew.
    { cbn in Hk. assert (NoDup (k ++ i :: l2)) as Hnd by (rewrite <- Hk; apply NoDup_seq).
      apply NoDup_app in Hnd as (_ & Hnd & _). intros Hi. by apply (Hnd i Hi); left. }
    apply holds_bind_look. intros c3' Hf3 He3. pose proof Hf3 as [Hg3 Hcmp].
    apply (committed_extends _ _ _ _ _ He3) in HS. assert (extends c c3') as Hc3 by by etrans.
    assert (∀ v, entry cfg i idx = Some v → entry c3' i idx = Some v) as Hkeep.
    { intros v Hv. by apply (e_entry _ _ Hc3), (e_entry _ _ He1). }
    assert (i < length c3'.(rafts)) as Hin.
    { rewrite (e_size _ _ Hc3). cbn in Hk. assert (i ∈ seq 0 (length c.(rafts))) as Hin%elem_of_seq; [|lia].
      rewrite Hk. apply elem_of_app. right. by left. }
    destruct (g_size _ Hg3) as [Hlogs Herrs].
    apply holds_bind_lift; [intros ?%lookup_ge_None; lia|]. intros err Herr. destruct err as [e|]; [by destruct (g_err _ Hg3 i e)|].
    apply holds_bind_lift; [intros ?%lookup_ge_None; lia|]. intros lg Hlg. destruct (lg !! idx) as [cmd1|] eqn:Hcmd.
    + assert (entry c3' i idx = Some cmd1) as Hent by (unfold entry; by rewrite Hlg).
      eapply (holds_bind _ _ _ (λ ne c, c = c3' ∧ ne = false)).
      * destruct (decide (0 < cnt)) as [Hpos|]; [|by apply holds_ret].
        apply holds_lift.
        { destruct Hcmp as [|Hcmp]; [done|]. by rewrite iface_ne_comparable by by eapply Hcmp. }
        intros ne Hne. split; [done|]. apply iface_ne_Some in Hne as ->.
        destruct HS as (_ & Hlen & Hall). cbn in Hlen, Hall. destruct S as [|j S]; [cbn in Hlen; lia|].
        assert (cmd = cmd1) as -> by (eapply (g_agree _ Hg3); [apply Hall; by left|exact Hent]).
        by rewrite bool_decide_eq_true_2.
      * intros ne c6 _ _ [-> ->]. apply holds_ret. split; [done|]. exists (i :: S). destruct HS as (Hnd & Hlen & Hall).
        cbn in Hlen, Hall. split; [split_and!|split].
        -- constructor; [|done]. intros Hi. by apply Hnew, Hsub.
        -- cbn. lia.
        -- intros j [->|Hj]%elem_of_cons; cbn; [done|]. rewrite (Hall j Hj). f_equal.
           eapply (g_agree _ Hg3); [by apply Hall|done].
        -- intros j [->|Hj]%elem_of_cons; apply elem_of_app; [right; by left|left; by apply Hsub].
        -- intros j [Hj| ->%list_elem_of_singleton]%elem_of_app Hs; [right; by apply Hall0|by left].
    + apply holds_ret. split; [done|]. exists S. split; [done|]. split.
      * intros j Hj. apply elem_of_app. left. by apply Hsub.
      * intros j [Hj| ->%list_elem_of_singleton]%elem_of_app Hs; [by apply Hall0|].
        destruct Hs as [v Hv%Hkeep]. unfold entry in Hv. rewrite Hlg in Hv. cbn in Hv. congruence.
  - done.
  - split; [done|]. exists []. split; [|by split; intros i ?%elem_of_nil]. split; [constructor|]. split; [done|by intros i ?%elem_of_nil].
  - intros acc c' (_ & S & HS & _ & Hall). exists S. split; [done|]. intros i Hi. apply Hall, elem_of_seq.
    rewrite (e_size _ _ He1). lia.
Qed.
(** The other questions may come upon a Raft that is not there. *)
Hypothesis HPanic : P.

(** [Start] changes the Raft and its persister, not what was applied. *)
Lemma try_servers_holds m cmd si starts cfg :
  holds cfg (try_servers evolve m cmd starts si) (λ _ _, True).
Proof.
  revert starts cfg. induction si as [|si IH]; intros starts cfg; cbn [try_servers]; [by apply holds_ret|].
  apply holds_bind_look. intros c1 _ _. apply holds_bind_lift; [done|]. intros c _.
  eapply (holds_bind _ _ _ (λ _ _, True)); [destruct c; [by apply holds_lift|by apply holds_ret]|].
  intros [p|] c2 _ _ _; [|apply IH]. apply holds_bind_look. intros c3 _ _.
  apply holds_bind_lift; [done|]. intros x _. apply holds_bind_lift; [done|]. intros r _.
  apply holds_bind_lift; [done|]. intros ms _. apply holds_bind_lift; [done|]. intros ds _.
  eapply (holds_bind _ _ _ (λ _ _, True)); [by apply holds_put|]. intros _ c4 _ _ _.
  destruct (r.2.2); [by apply holds_ret|apply IH].
Qed.

(** [cmd] is what at least [k] servers have at the index, and at least one. *)
Definition reached (idx : Z) (cmd : iface) (k : nat) cfg : Prop :=
  ∃ S, NoDup S ∧ 0 < length S ∧ k ≤ length S ∧ ∀ i, i ∈ S → entry cfg i idx = Some cmd.

Lemma poll_holds polls idx cmd k cfg :
  holds cfg (poll evolve polls idx cmd k) (λ ok c, ok = true → reached idx cmd k c).
Proof.
  revert cfg. induction polls as [|polls IH]; intros cfg; cbn [poll]; [by apply holds_ret|].
  eapply holds_bind; [apply nCommitted_holds|]. intros [cnt v] c Hg _ (S & (Hnd & Hlen & Hall) & _).
  cbn in Hlen, Hall |- *. case_decide as Hd; [|apply IH]. apply holds_bind_lift; [done|]. intros ne ->%iface_ne_Some.
  case_bool_decide as Heq; cbn; [|apply IH]. apply holds_ret. intros _. subst v. exists S. rewrite Hlen.
  split; [done|]. split; [lia|]. split; [lia|done].
Qed.

Lemma one_loop_holds turns starts cmd k retry cfg : E (NoAgreement cmd) →
  holds cfg (one_loop evolve turns starts cmd k retry) (λ idx c, reached idx cmd k c).
Proof.
  intros HE. revert starts cfg. induction turns as [|polls turns IH]; intros starts cfg; cbn [one_loop];
    [by apply holds_fail|].
  apply holds_bind_look. intros c1 _ _. eapply holds_bind; [apply try_servers_holds|].
  intros [st idx] c2 _ _ _. cbn [fst snd]. destruct (negb _); [|apply IH].
  eapply holds_bind; [apply poll_holds|]. intros ok c3 _ _ Hok.
  destruct ok; [by apply holds_ret, Hok|]. destruct (negb retry); [by apply holds_fail|apply IH].
Qed.

(** [wait]: without the way out for a later term, the servers have the command. *)
Lemma wait_loop_holds iters idx m startTerm cfg :
  holds cfg (wait_loop evolve iters idx m startTerm) (λ moved _, moved = true → (-1 < startTerm)%Z).
Proof.
  assert (∀ rs c, holds c (moved_on evolve startTerm rs) (λ _ _, True)) as Hmoved.
  { induction rs as [|p rs IH]; intros c; cbn [moved_on]; [by apply holds_ret|].
    apply holds_bind_look. intros c1 _ _. apply holds_bind_lift; [done|]. intros x _.
    destruct (_ <? _)%Z; [by apply holds_ret|apply IH]. }
  revert cfg. induction iters as [|iters IH]; intros cfg; cbn [wait_loop]; [by apply holds_ret|].
  eapply holds_bind; [apply nCommitted_holds|]. intros [cnt v] c _ _ _.
  case_decide; [by apply holds_ret|]. destruct (Z.ltb_spec (-1) startTerm); [|apply IH].
  apply holds_bind_look. intros c1 _ _. eapply holds_bind; [apply Hmoved|]. intros [] c2 _ _ _; [by apply holds_ret|apply IH].
Qed.

Lemma wait_holds idx m startTerm cfg : 0 < m → (∀ nd, E (TooFewDecided nd idx m)) →
  holds cfg (wait evolve idx m startTerm)
    (λ cmd c, reached idx cmd m c ∨ cmd = IInt (-1) ∧ (-1 < startTerm)%Z).
Proof.
  intros Hm HE. unfold wait. eapply holds_bind; [apply wait_loop_holds|]. intros [] c _ _ Hmv.
  { apply holds_ret. right. auto. }
  eapply holds_bind; [apply nCommitted_holds|]. intros [cnt v] c' _ _ (S & (Hnd & Hlen & Hall) & _).
  cbn in Hlen, Hall |- *. case_decide as Hd; [by apply holds_fail|]. apply holds_ret. left. exists S.
  rewrite Hlen. split; [done|]. split; [lia|]. split; [lia|done].
Qed.
End tests.
(** ** The properties *)

(** A delivery that was made before is accepted again, and changes nothing. *)
Lemma duplicate_accepted l d : agreeing l → gapless l → d ∈ l →
  agreeing (l ++ [d]) ∧ gapless (l ++ [d]).
Proof.
  destruct d as [[i idx] v]. intros Ha Hg Hd. rewrite agreeing_snoc, gapless_snoc. split.
  - split; [done|]. intros j w Hw. by eapply Ha.
  - split; [done|]. intros Hlt. apply list_elem_of_split in Hd as (l1 & l2 & Hl).
    destruct (Hg l1 i idx v l2 Hl Hlt) as [w Hw]. exists w. rewrite Hl. apply elem_of_app. by left.
Qed.

Lemma make_config_logs m unreliable names rs cfg :
  make_config Raft_methods m unreliable names rs = Some cfg →
  cfg.(logs) = replicate m ∅ ∧ cfg.(applyErr) = replicate m None ∧ length cfg.(rafts) = m.
Proof.
  unfold make_config. intros (cfg1 & Hst & Hc)%bind_Some.
  assert (∀ l c c', foldM (λ (cfg : config) i, start1 Raft_methods i (names i) (rs i) cfg) c l = Some c' →
    c'.(logs) = c.(logs) ∧ c'.(applyErr) = c.(applyErr) ∧ length c'.(rafts) = length c.(rafts)) as Hall.
  { induction l as [|i l IH]; intros c c' Hf; cbn in Hf; [by injection Hf as <-|].
    apply bind_Some in Hf as (c1 & H1 & Hf). destruct (IH _ _ Hf) as (-> & -> & ->).
    apply start1_spec in H1 as (c2 & p0 & rf & rn & (c3 & md & ds & sv & (en & -> & _)%disconnect_spec &
      [_ _ (_ & _ & _ & _ & Hr) _ (Ha & Hl & _)])%crash1_spec & [_ _ _ _ (_ & _ & _ & _ & Hr' & _) _ (Ha' & Hl' & _)]).
    rewrite Ha', Hl', Hr', Ha, Hl, Hr, !length_insert. done. }
  assert (∀ l c c', foldM (λ (cfg : config) i, connect i cfg) c l = Some c' →
    c'.(logs) = c.(logs) ∧ c'.(applyErr) = c.(applyErr) ∧ length c'.(rafts) = length c.(rafts)) as Hcon.
  { induction l as [|i l IH]; intros c c' Hf; cbn in Hf; [by injection Hf as <-|].
    apply bind_Some in Hf as (c1 & H1 & Hf). destruct (IH _ _ Hf) as (-> & -> & ->).
    by apply connect_spec in H1 as (en & -> & _). }
  destruct (Hcon _ _ _ Hc) as (-> & -> & ->), (Hall _ _ _ Hst) as (-> & -> & ->). cbn. by rewrite length_replicate.
Qed.

Lemma listeners_iff m unreliable names rs cfg l :
  make_config Raft_methods m unreliable names rs = Some cfg →
  Forall (λ d, d.1.1 < m ∧ comparable d.2) l →
  ((∃ cfg', deliver_all l cfg = Ok cfg') ↔ agreeing l ∧ gapless l) ∧
  (∀ cfg', deliver_all l cfg = Ok cfg' → ∀ i idx v, entry cfg' i idx = Some v ↔ (i, idx, v) ∈ l) ∧
  deliver_all l cfg ≠ Panic.
Proof.
  intros (Hlogs & _ & _)%make_config_logs Hl.
  assert (logged cfg []) as H0.
  { split; [|by intros i idx v ?%elem_of_nil]. intros i idx v. rewrite Hlogs. split; [|by intros ?%elem_of_nil].
    intros (lg & [-> _]%lookup_replicate & Hv). by rewrite lookup_empty in Hv. }
  destruct (deliver_all_spec cfg l H0) as [[Hgood (cfg' & Heq & Hlog & _)]|[Hbad [e Heq]]].
  { rewrite Hlogs, length_replicate. exact Hl. }
  - rewrite Heq. split; [|split; [|done]].
    + split; [by intros _|]. intros _. by exists cfg'.
    + intros cfg1 [= <-] i idx v. rewrite <- (lg_at _ _ Hlog). unfold entry. split.
      * intros (lg & ? & ?)%bind_Some. eauto.
      * intros (lg & -> & ?). done.
  - rewrite Heq. split; [|by split]. split; [by intros [cfg' ?]|by intros ?].
Qed.

(** C25: The listeners are an exact oracle: from the start, a sequence of deliveries of
    committed commands, to any servers, goes through without a complaint exactly when no two
    of them differ on an index and every server gets an index after the one before it; the
    harness then has logged exactly what was delivered.  (A command that is delivered twice
    is not noticed.) *)
Theorem listeners_exact m unreliable names rs cfg l :
  make_config Raft_methods m unreliable names rs = Some cfg →
  Forall (λ d, d.1.1 < m ∧ comparable d.2) l →
  ((∃ cfg', deliver_all l cfg = Ok cfg') ↔ agreeing l ∧ gapless l) ∧
  (∀ cfg', deliver_all l cfg = Ok cfg' → ∀ i idx v, entry cfg' i idx = Some v ↔ (i, idx, v) ∈ l) ∧
  deliver_all l cfg ≠ Panic.
Proof. apply (listeners_iff m unreliable names rs cfg l). Qed.

(** Counting: when the listeners have not complained and the commands can be compared,
    [nCommitted] never fails, whatever else goes on while it reads the logs one by one: it
    counts every server that had the entry when it began, only servers that have it in the
    end, and its value is the one that all of them agree on. *)
Theorem nCommitted_counts evolve t cfg idx :
  (∀ t c, rtc (hstep Raft_methods encode decode zero) c (evolve t c)) →
  (∀ t c, comparables c → comparables (evolve t c)) →
  good cfg → comparables cfg →
  ∃ count cmd t' cfg', nCommitted evolve idx (t, cfg) = Ok ((count, cmd), (t', cfg')) ∧
    ∃ S, NoDup S ∧ length S = count ∧ (∀ i, i ∈ S → entry cfg' i idx = Some cmd) ∧
      ∀ i, i < length cfg.(rafts) → is_Some (entry cfg i idx) → i ∈ S.
Proof.
  intros Hev Hcmp Hg Hc.
  pose proof (nCommitted_holds evolve Hev (λ _, False) False (or_intror Hcmp) idx cfg t (conj Hg (or_intror Hc))) as Hn.
  destruct (nCommitted evolve idx (t, cfg)) as [[[count cmd] [t' cfg']]|e|]; [|done..].
  destruct Hn as (_ & _ & S & (Hnd & Hlen & Hall) & Hin). exists count, cmd, t', cfg'. split; [done|].
  exists S. cbn in Hlen, Hall. auto.
Qed.

(** C19: Agreement: when [one] returns an index, then at least the servers it was asked for,
    and at least one, have the command there, and no server has another one; if it fails
    the test, then because no agreement was reached in time, never because logs differ. *)
Theorem one_agrees evolve turns cmd k retry t cfg :
  (∀ t c, rtc (hstep Raft_methods encode decode zero) c (evolve t c)) → good cfg →
  match one evolve turns cmd k retry (t, cfg) with
  | Ok (idx, (_, cfg')) => reached idx cmd k cfg' ∧ ∀ i v, entry cfg' i idx = Some v → v = cmd
  | Fatal e => e = NoAgreement cmd
  | Panic => True
  end.
Proof.
  intros Hev Hg.
  pose proof (one_loop_holds evolve Hev (λ e, e = NoAgreement cmd) True (or_introl I) I turns 0 cmd k retry cfg eq_refl t (conj Hg (or_introl I))) as Ho.
  unfold one. destruct (one_loop _ _ _ _ _ _ _) as [[idx [t' cfg']]|e|]; [|done..].
  destruct Ho as ([Hg' _] & _ & Hr). split; [done|]. intros i v Hv.
  destruct Hr as (S & _ & Hne & _ & Hall). destruct S as [|j S]; [cbn in Hne; lia|].
  eapply (g_agree _ Hg'); [exact Hv|]. apply Hall. by left.
Qed.
End oracle.

(** ** Two servers that agree *)

#[local] Existing Instance codec.

Module Agree.
Definition methods : nat → list (@method unit unit unit) := Demo.methods.
Definition cfg : Demo.config := Demo.cfg.
Definition l : list (nat * Z * iface) :=
  [(0, 1%Z, IInt 7); (1, 1%Z, IInt 7); (0, 1%Z, IInt 7); (0, 2%Z, IInt 8)].

(** Server 0 leads. *)
Definition leader : Demo.config :=
  run 0 (Demo.inst 0 cfg) ((Demo.inst 0 cfg).(i_raft) <| tp := 2%Z |> <| currentTerm := 1%Z |>) cfg.

(** After the fourth look, command 7 is delivered at index 1. *)
Definition evolve (t : nat) (c : Demo.config) : Demo.config :=
  if decide (t < 4) then c
  else match deliver (t mod 2) 1 (IInt 7) c with Ok c' => c' | _ => c end.

Lemma evolve_steps t c :
  rtc (hstep methods (λ _, []) (λ _ _, None) (λ _, tt)) c (evolve t c).
Proof.
  unfold evolve. case_decide; [done|]. destruct (deliver _ _ _ _) as [c'|e|] eqn:Hd; [|done..].
  apply rtc_once. by eapply hs_listen.
Qed.

Lemma leader_logs : leader.(logs) = [∅; ∅].
Proof. vm_compute. reflexivity. Qed.

Lemma leader_entry i idx : entry leader i idx = None.
Proof. unfold entry. rewrite leader_logs. destruct i as [|[|i]]; [apply lookup_empty..|done]. Qed.

Lemma leader_good : good leader.
Proof.
  split.
  - intros i j idx v w Hi. rewrite leader_entry in Hi. discriminate Hi.
  - assert (leader.(applyErr) = [None; None]) as -> by (vm_compute; reflexivity). by intros [|[|i]] e.
  - vm_compute. done.
Qed.
End Agree.

Lemma listeners_exact_witness :
  ((∃ cfg', deliver_all Agree.l Agree.cfg = Ok cfg') ↔ agreeing Agree.l ∧ gapless Agree.l) ∧
  (∀ cfg', deliver_all Agree.l Agree.cfg = Ok cfg' → ∀ i idx v, entry cfg' i idx = Some v ↔ (i, idx, v) ∈ Agree.l) ∧
  deliver_all Agree.l Agree.cfg ≠ Panic.
Proof.
  apply (listeners_exact Agree.methods 2 false (Demo.name 0) (λ _, 0%Z)).
  - exact Demo.cfg_made.
  - repeat constructor; cbn; lia.
Defined.

Lemma nCommitted_counts_witness :
  ∃ count cmd t' cfg', nCommitted (λ _ c, c) 1 (0, Agree.leader) = Ok ((count, cmd), (t', cfg')) ∧
    ∃ S, NoDup S ∧ length S = count ∧ (∀ i, i ∈ S → entry cfg' i 1 = Some cmd) ∧
      ∀ i, i < length Agree.leader.(rafts) → is_Some (entry Agree.leader i 1) → i ∈ S.
Proof.
  apply (nCommitted_counts Agree.methods (λ _, []) (λ _ _, None) (λ _, ()) (λ _ c, c) 0 Agree.leader 1).
  - reflexivity.
  - intros _ c Hc. exact Hc.
  - exact Agree.leader_good.
  - intros i idx v Hi. rewrite Agree.leader_entry in Hi. discriminate Hi.
Defined.

Lemma one_agrees_witness :
  (match one Agree.evolve [4] (IInt 7) 2 true (0, Agree.leader) with Ok (idx, _) => Some idx | _ => None end) = Some 1%Z ∧
  match one Agree.evolve [4] (IInt 7) 2 true (0, Agree.leader) with
  | Ok (idx, (_, cfg')) => reached idx (IInt 7) 2 cfg' ∧ ∀ i v, entry cfg' i idx = Some v → v = IInt 7
  | Fatal e => e = NoAgreement (IInt 7)
  | Panic => True
  end.
Proof.
  split; [vm_compute; reflexivity|].
  apply (one_agrees Agree.methods (λ _, []) (λ _ _, None) (λ _, ()) Agree.evolve [4] (IInt 7) 2 true 0).
  - exact Agree.evolve_steps.
  - exact Agree.leader_good.
Defined.
