(* ===== verification/RaftApply.v ===== *)
(** Raft and its tests together: what a peer sends on its apply channel
    ([src/src/raft/raft.go]) against what the listeners of the harness accept
    ([src/src/raft/config.go]).  In the Raft tests there are no snapshots. *)
From S2P Require Import Prelude Gob Iface RaftTypes RaftPersist RaftLog RaftLogProps RaftElection RaftLeader RaftPeer RaftRecovery Labrpc Harness RaftConfig RaftConfigProps RaftOracle GobImpl.
Open Scope Z_scope.

Section sent.
Context `{!RaftCodec}.

(** ** What a step sends *)

(** From commit index [c] to [c']: every message is valid and comes after the one before it
    in the log, and everything up to [c'] has been sent. *)
Record sent (c c' : Z) (ms : list ApplyMsg.t) : Prop := {
  s_valid : Forall (λ m, m.(ApplyMsg.CommandValid) = true) ms;
  s_order l1 m l2 : ms = l1 ++ m :: l2 → 1 < m.(ApplyMsg.CommandIndex) →
    m.(ApplyMsg.CommandIndex) - 1 ≤ c ∨
    ∃ m', m' ∈ l1 ∧ m'.(ApplyMsg.CommandIndex) = m.(ApplyMsg.CommandIndex) - 1;
  s_all j : c < j → j ≤ c' → ∃ m, m ∈ ms ∧ m.(ApplyMsg.CommandIndex) = j
}.

Lemma sent_nil c c' : c' ≤ c → sent c c' [].
Proof. intros Hc. split; [constructor|intros [|? ?] m l2 Heq; discriminate|lia]. Qed.

(** Splitting an append in front of one of its elements. *)
Lemma app_cut {A} (ms ns l1 l2 : list A) m : ms ++ ns = l1 ++ m :: l2 →
  (∃ k, ms = l1 ++ m :: k) ∨ ∃ k, l1 = ms ++ k ∧ ns = k ++ m :: l2.
Proof.
  intros Heq. apply app_eq_app in Heq as [k [[-> Hk]|[-> Hk]]].
  - destruct k as [|x k]; cbn in Hk; [right; exists []; rewrite !app_nil_r; by split|].
    injection Hk as -> ->. left. by exists k.
  - right. by exists k.
Qed.

Lemma sent_app c c1 c2 ms ns : sent c c1 ms → sent c1 c2 ns → sent c c2 (ms ++ ns).
Proof.
  intros [V1 O1 A1] [V2 O2 A2]. split.
  - by apply Forall_app.
  - intros l1 m l2 Heq Hlt. apply app_cut in Heq as [[k Hk]|(k & -> & Hk)]; [by eapply O1|].
    destruct (O2 _ _ _ Hk Hlt) as [Hle|(m' & Hm & Hidx)].
    + destruct (Z.le_gt_cases (ApplyMsg.CommandIndex m - 1) c) as [|Hgt]; [by left|right].
      destruct (A1 _ Hgt Hle) as (m' & Hm & Hidx). exists m'. rewrite elem_of_app. auto.
    + right. exists m'. rewrite elem_of_app. auto.
  - intros j Hj Hj'. destruct (Z.le_gt_cases j c1) as [Hle|Hgt].
    + destruct (A1 j Hj Hle) as (m & Hm & Hidx). exists m. rewrite elem_of_app. auto.
    + destruct (A2 j Hgt Hj') as (m & Hm & Hidx). exists m. rewrite elem_of_app. auto.
Qed.

(** The next index, sent a number of times. *)
Lemma sent_next k ms : ms ≠ [] →
  Forall (λ m, m.(ApplyMsg.CommandValid) = true ∧ m.(ApplyMsg.CommandIndex) = k + 1) ms → sent k (k + 1) ms.
Proof.
  intros Hne Hall. split.
  - eapply Forall_impl; [done|]. by intros ? [].
  - intros l1 m l2 -> _. apply Forall_app in Hall as [_ [[_ Hm] _]%Forall_cons]. left. lia.
  - intros j ? ?. destruct ms as [|m ms]; [done|]. apply Forall_cons in Hall as [[_ Hm] _].
    exists m. split; [by left|lia].
Qed.

(** What [rf'] has sent more than [rf]; without snapshots an index is a place in the log. *)
Record delivers (rf rf' : Raft) : Prop := {
  d_snap : rf'.(snapshotIndex) = rf.(snapshotIndex);
  d_sent : rf.(snapshotIndex) = 0 → ∃ ms,
    applies rf'.(out) = applies rf.(out) ++ ms ∧ sent rf.(commitIndex) rf'.(commitIndex) ms
}.

#[local] Instance delivers_preorder : PreOrder delivers.
Proof.
  split.
  - intros rf. split; [done|]. intros _. exists []. rewrite app_nil_r. split; [done|]. by apply sent_nil.
  - intros x y z [S1 D1] [S2 D2]. split; [congruence|]. intros H0.
    destruct (D1 H0) as (ms & E1 & M1). rewrite <- S1 in H0. destruct (D2 H0) as (ns & E2 & M2).
    exists (ms ++ ns). rewrite E2, E1, app_assoc. split; [done|]. by eapply sent_app.
Qed.

Lemma delivers_quiet rf rf' : rf'.(snapshotIndex) = rf.(snapshotIndex) →
  rf'.(commitIndex) = rf.(commitIndex) → applies rf'.(out) = applies rf.(out) → delivers rf rf'.
Proof.
  intros Hs Hc Ho. split; [done|]. intros _. exists []. rewrite app_nil_r, Hc. split; [done|]. by apply sent_nil.
Qed.

(** Steps that send nothing only write the persister. *)
Ltac quiet := apply delivers_quiet; cbn; rewrite ?applies_app; cbn; rewrite ?app_nil_r; done.

(** A loop that sends what it applies at every index from [k + 1] to [c]. *)
Lemma delivers_loop f rf k c rf' :
  (∀ rf i rf', f rf i = Some rf' → rf'.(snapshotIndex) = rf.(snapshotIndex) ∧ rf'.(commitIndex) = rf.(commitIndex) ∧
    ∃ ms, ms ≠ [] ∧ applies rf'.(out) = applies rf.(out) ++ ms ∧
      Forall (λ m, m.(ApplyMsg.CommandValid) = true ∧ m.(ApplyMsg.CommandIndex) = i + rf.(snapshotIndex)) ms) →
  rf.(snapshotIndex) = 0 → foldM f rf (zrange (k + 1) c) = Some rf' →
  rf'.(snapshotIndex) = 0 ∧ rf'.(commitIndex) = rf.(commitIndex) ∧
  ∃ ms, applies rf'.(out) = applies rf.(out) ++ ms ∧ sent k c ms.
Proof.
  intros Hf. remember (Z.to_nat (c - k)) as d eqn:Hd. revert rf k Hd.
  induction d as [|d IH]; intros rf k Hd Hs Hfold.
  - rewrite zrange_nil in Hfold by lia. injection Hfold as <-. split; [done|]. split; [done|].
    exists []. rewrite app_nil_r. split; [done|]. apply sent_nil. lia.
  - rewrite zrange_cons in Hfold by lia. cbn [foldM] in Hfold. apply bind_Some in Hfold as (rf1 & H1 & Hfold).
    destruct (Hf _ _ _ H1) as (Hs1 & Hc1 & ms & Hne & Ho1 & Hms). rewrite Hs, Z.add_0_r in Hms.
    destruct (IH rf1 (k + 1)) as (Hs' & Hc' & ns & Ho' & Hns); [lia|congruence|done|].
    split; [done|]. split; [congruence|]. exists (ms ++ ns). rewrite Ho', Ho1, app_assoc. split; [done|].
    eapply sent_app; [by apply sent_next|done].
Qed.

Lemma applyAt_sends rf i rf' : applyAt rf i = Some rf' →
  rf'.(snapshotIndex) = rf.(snapshotIndex) ∧ rf'.(commitIndex) = rf.(commitIndex) ∧
  ∃ m, applies rf'.(out) = applies rf.(out) ++ [m] ∧
    m.(ApplyMsg.CommandValid) = true ∧ m.(ApplyMsg.CommandIndex) = i + rf.(snapshotIndex).
Proof.
  unfold applyAt. intros (e & _ & [= <-])%bind_Some. split; [done|]. split; [done|].
  eexists. cbn. rewrite applies_app. cbn. split; [done|]. done.
Qed.

(** The commit index is set, and what is new is applied. *)
Lemma delivers_commit f rf c rf' :
  (∀ rf i rf', f rf i = Some rf' → rf'.(snapshotIndex) = rf.(snapshotIndex) ∧ rf'.(commitIndex) = rf.(commitIndex) ∧
    ∃ ms, ms ≠ [] ∧ applies rf'.(out) = applies rf.(out) ++ ms ∧
      Forall (λ m, m.(ApplyMsg.CommandValid) = true ∧ m.(ApplyMsg.CommandIndex) = i + rf.(snapshotIndex)) ms) →
  rf'.(snapshotIndex) = rf.(snapshotIndex) →
  foldM f (rf <| commitIndex := c |>) (zrange (rf.(commitIndex) + 1 - rf.(snapshotIndex)) (c - rf.(snapshotIndex)))
    = Some rf' → delivers rf rf'.
Proof.
  intros Hf Hs Hfold. split; [done|]. intros H0. rewrite H0, !Z.sub_0_r in Hfold.
  apply delivers_loop in Hfold as (_ & Hc & ms & Ho & Hms); [|done|done].
  exists ms. split; [done|]. cbn in Hc. by rewrite Hc.
Qed.

Lemma applyAt_loop rf i rf' : applyAt rf i = Some rf' →
  rf'.(snapshotIndex) = rf.(snapshotIndex) ∧ rf'.(commitIndex) = rf.(commitIndex) ∧
  ∃ ms, ms ≠ [] ∧ applies rf'.(out) = applies rf.(out) ++ ms ∧
    Forall (λ m, m.(ApplyMsg.CommandValid) = true ∧ m.(ApplyMsg.CommandIndex) = i + rf.(snapshotIndex)) ms.
Proof. intros (? & ? & m & ? & ? & ?)%applyAt_sends. split; [done|]. split; [done|]. exists [m]. auto. Qed.

Lemma applyTwice_loop rf i rf' : applyTwice rf i = Some rf' →
  rf'.(snapshotIndex) = rf.(snapshotIndex) ∧ rf'.(commitIndex) = rf.(commitIndex) ∧
  ∃ ms, ms ≠ [] ∧ applies rf'.(out) = applies rf.(out) ++ ms ∧
    Forall (λ m, m.(ApplyMsg.CommandValid) = true ∧ m.(ApplyMsg.CommandIndex) = i + rf.(snapshotIndex)) ms.
Proof.
  unfold applyTwice. intros (rf1 & (S1 & C1 & m & E1 & V1 & I1)%applyAt_sends & (S2 & C2 & n & E2 & V2 & I2)%applyAt_sends)%bind_Some.
  split; [congruence|]. split; [congruence|]. exists [m; n]. split; [done|]. rewrite E2, E1, <- app_assoc.
  split; [done|]. repeat constructor; try done. by rewrite I2, S1.
Qed.
(** ** The operations of a peer *)

Lemma delivers_updateCommit rf rf' : 0 ≤ rf.(commitIndex) → updateCommit rf = Some rf' → delivers rf rf'.
Proof.
  intros Hc0 Heq. pose proof (st_index _ _ (stable_updateCommit _ _ Heq)) as Hsn.
  unfold updateCommit in Heq. apply bind_Some in Heq as (temp & _ & Heq).
  destruct (Z.ltb_spec rf.(commitIndex) temp) as [Hlt|Hge].
  - cbn [snapshotIndex commitIndex over] in Heq. destruct (Z.leb_spec rf.(snapshotIndex) rf.(commitIndex)) as [Hle|Hgt].
    + by eapply delivers_commit; [apply applyAt_loop|..].
    + split; [done|]. lia.
  - rewrite zrange_nil in Heq by lia. assert (rf' = rf) as -> by (destruct (_ <=? _) in Heq; by injection Heq as <-).
    done.
Qed.

Lemma delivers_ae_commit args rf rf' : ae_commit args rf = Some rf' → delivers rf rf'.
Proof.
  intros Heq. pose proof (st_index _ _ (stable_ae_commit _ _ _ Heq)) as Hsn. unfold ae_commit in Heq.
  destruct (_ <? _); [|by injection Heq as <-].
  by eapply delivers_commit; [apply applyTwice_loop|..].
Qed.

Lemma delivers_ae_term args rf : delivers rf (ae_term args rf).
Proof. unfold ae_term, termUpdate. repeat case_match; quiet. Qed.

Lemma delivers_writeLog b e rf : delivers rf (writeLog b e rf).
Proof. unfold writeLog. quiet. Qed.

Lemma delivers_ae_match args rf rf' : ae_match args rf = Some rf' → delivers rf rf'.
Proof.
  unfold ae_match. intros Heq. destruct (_ <=? _).
  - apply bind_Some in Heq as (l & _ & [= <-]). apply delivers_writeLog.
  - apply bind_Some in Heq as ([] & _ & Heq); [by injection Heq as <-|].
    apply bind_Some in Heq as (l & _ & [= <-]). apply delivers_writeLog.
Qed.

Lemma delivers_ae_ahead args rf rf' : ae_ahead args rf = Some rf' → delivers rf rf'.
Proof.
  unfold ae_ahead. intros (rf1 & Heq & [= <-])%bind_Some. transitivity rf1; [|quiet].
  destruct (_ <? _); [by injection Heq as <-|]. destruct (_ <=? _).
  - apply bind_Some in Heq as (l & _ & [= <-]). apply delivers_writeLog.
  - apply bind_Some in Heq as ([] & _ & Heq); [by injection Heq as <-|].
    apply bind_Some in Heq as (l & _ & [= <-]). apply delivers_writeLog.
Qed.

Lemma delivers_AppendEntries r args rf rf' reply : AppendEntries r args rf = Some (rf', reply) → delivers rf rf'.
Proof.
  unfold AppendEntries. intros Heq. destruct (_ <? _); [by injection Heq as <- _|].
  etrans; [apply (delivers_ae_term args)|]. cbv zeta in Heq. set (rf1 := ae_term args rf) in *. clearbody rf1.
  apply bind_Some in Heq as (m & _ & Heq). destruct m.
  - apply bind_Some in Heq as (rf2 & H2 & Heq). apply bind_Some in Heq as (rf3 & H3 & [= <- _]).
    etrans; [by eapply delivers_ae_match|]. etrans; [by eapply delivers_ae_commit|]. quiet.
  - destruct (_ <=? _).
    + apply bind_Some in Heq as (rf2 & H2 & Heq). apply bind_Some in Heq as (rf3 & H3 & [= <- _]).
      etrans; [by eapply delivers_ae_ahead|]. etrans; [by eapply delivers_ae_commit|]. quiet.
    + apply bind_Some in Heq as (rp & _ & [= <- _]). quiet.
Qed.

Lemma delivers_appendReply r server termTemp ok args reply rf rf' :
  wf rf → appendReply r server termTemp ok args reply rf = Some rf' → delivers rf rf'.
Proof.
  intros Hwf Heq.
  assert (∀ x, wf x → 0 ≤ x.(commitIndex)) as Hpos by (intros x []; lia). unfold appendReply in Heq. destruct (negb (startAppend rf)); [by injection Heq as <-|].
  apply bind_Some in Heq as (rf1 & H1 & Heq).
  assert (delivers rf rf1 ∧ 0 ≤ rf1.(commitIndex)) as [Hd Hc1]; [|etrans; [done|by apply delivers_updateCommit]].
  clear Heq. pose proof (Hpos _ Hwf) as Hc. destruct (_ <? _); [by injection H1 as <-|].
  destruct (ok && _); [injection H1 as <-; split; [unfold termUpdate; quiet|done]|].
  destruct (ok && _).
  { unfold appendRollback in H1. apply bind_Some in H1 as (next & _ & H1). case_match; [|by injection H1 as <-].
    apply bind_Some in H1 as (nx & _ & [= <-]). split; [quiet|done]. }
  destruct (ok && _); [|by injection H1 as <-].
  apply appendSuccess_commit in H1 as [->|(next & m & Hn & Hm & H1)]; [done|].
  set (rf2 := rf <| matchIndex := m |> <| nextIndex := next |>) in *. split.
  - transitivity rf2; [subst rf2; quiet|by apply delivers_updateCommit].
  - apply Hpos. eapply wf_updateCommit; [done|]. destruct Hwf. split; cbn; congruence.
Qed.
Lemma delivers_RequestVote r args rf rf' reply : RequestVote r args rf = Some (rf', reply) → delivers rf rf'.
Proof.
  unfold RequestVote. intros Heq. destruct (_ <? _); [by injection Heq as <- _|].
  transitivity (rv_term args rf); [unfold rv_term, termUpdate; repeat case_match; quiet|].
  cbv zeta in Heq. set (rf1 := rv_term args rf) in *. clearbody rf1.
  destruct (_ || _); [|by injection Heq as <- _]. apply bind_Some in Heq as (t & _ & Heq).
  destruct (upToDate _ _ _); [|by injection Heq as <- _]. injection Heq as <- _. quiet.
Qed.

Lemma delivers_Start cmd rf rf' res : Start cmd rf = Some (rf', res) → delivers rf rf'.
Proof.
  unfold Start. intros Heq. destruct (killed rf); [injection Heq as <- _; quiet|].
  destruct (negb _); [by injection Heq as <- _|]. cbv zeta in Heq.
  set (rf1 := persist (rf <| log := _ |>)) in *. assert (delivers rf rf1) as H1 by (subst rf1; quiet).
  clearbody rf1. apply bind_Some in Heq as (m & _ & [= <- _]). etrans; [exact H1|]. quiet.
Qed.

Lemma delivers_check r rf : delivers rf (oscillator_check r rf).1.
Proof. unfold oscillator_check. repeat case_match; quiet. Qed.

Lemma delivers_tick rf : delivers rf (oscillator_tick rf).
Proof. quiet. Qed.

Lemma delivers_begin rf : delivers rf (startElection_begin rf).
Proof. quiet. Qed.

Lemma delivers_voteReply r t ok reply rf : delivers rf (voteReply r t ok reply rf).
Proof. unfold voteReply, termUpdate. repeat case_match; quiet. Qed.

Lemma delivers_win rf rf' : electionWin rf = Some rf' → delivers rf rf'.
Proof. unfold electionWin. intros Heq. case_match; [|done]. injection Heq as <-. quiet. Qed.

Lemma delivers_top server rf rf' act : Append2_top server rf = Some (rf', act) → delivers rf rf'.
Proof. unfold Append2_top. intros Heq. repeat case_match; unbind; quiet. Qed.

Lemma delivers_installReply r server t ok reply rf rf' :
  installReply r server t ok reply rf = Some rf' → delivers rf rf'.
Proof. unfold installReply, termUpdate. intros Heq. repeat case_match; unbind; quiet. Qed.

Lemma delivers_Kill rf : delivers rf (Kill rf).
Proof. quiet. Qed.

(** A peer that never had a snapshot: what this incarnation has sent is in order. *)
Record in_order (rf : Raft) : Prop := {
  io_rec : recoverable rf;
  io_snap : rf.(snapshotIndex) = 0;
  io_sent : sent 0 rf.(commitIndex) (applies rf.(out))
}.

Lemma in_order_delivers rf rf' : in_order rf → recoverable rf' → delivers rf rf' → in_order rf'.
Proof.
  intros [_ Hs Ho] Hrec [Hs' Hd]. destruct (Hd Hs) as (ms & Hms & Hsent).
  split; [done|congruence|]. rewrite Hms. by eapply sent_app.
Qed.

Lemma in_order_step rf rf' : in_order rf → peer_step rf rf' → rf'.(snapshotIndex) = 0 → in_order rf'.
Proof.
  intros Hio Hst H0. pose proof (recoverable_step _ _ Hst (io_rec _ Hio)) as Hrec.
  pose proof (rec_wf _ (io_rec _ Hio)) as Hwf.
  destruct Hst as [r args rf rf' reply _ Heq|r args rf rf' reply Heq|r args rf rf' reply _ Heq|ss rf rf' _ Heq
    |cmd rf rf' res Heq|r rf|rf|rf|r t ok reply rf|rf rf' Heq|server rf rf' act Heq|r server t ok reply rf rf' Heq
    |r server t ok args reply rf rf' Heq|rf|r rf rf' Heq].
  1-14: apply (in_order_delivers rf); [done|done|].
  - by eapply delivers_RequestVote.
  - by eapply delivers_AppendEntries.
  - destruct (decide (rf.(currentTerm) ≤ args.(SnapArg.Term) ∧ rf.(snapshotIndex) < args.(SnapArg.LastIncludedIndex)))
      as [[Ht Hi]|Hn].
    + destruct (InstallSnapshot_spec r args rf Hwf Ht Hi) as (rf1 & Heq1 & _ & Hin & _). simplify_eq.
      pose proof (io_snap _ Hio). lia.
    + destruct (InstallSnapshot_skip r args rf) as (rf1 & Heq1 & _ & _ & Hs & Hc & Ho); [lia|]. simplify_eq.
      by apply delivers_quiet.
  - destruct (decide (compacts ss rf)) as [Hc|Hn].
    + destruct (persistV2_spec ss rf Hwf Hc) as (e & rf1 & Heq1 & _ & ->). simplify_eq. cbn in H0.
      unfold compacts in Hc. pose proof (io_snap _ Hio). lia.
    + rewrite persistV2_skip in Heq by done. by injection Heq as <-.
  - by eapply delivers_Start.
  - apply delivers_check.
  - apply delivers_tick.
  - apply delivers_begin.
  - apply delivers_voteReply.
  - by eapply delivers_win.
  - by eapply delivers_top.
  - by eapply delivers_installReply.
  - by eapply delivers_appendReply.
  - apply delivers_Kill.
  - destruct (Make_recoverable r _ (io_rec _ Hio)) as (rf1 & Heq1 & Hre & _).
    rewrite Heq in Heq1. injection Heq1 as <-. destruct Hre as (_ & _ & _ & _ & _ & Hc & _).
    split; [done|done|]. rewrite (Make_sends _ _ _ _ _ Heq), Hc, (io_snap _ Hio). by apply sent_nil.
Qed.
(** ** Against the listeners *)

(** The peer of server [i] runs, from an empty persister, through any steps and crashes;
    no snapshot is taken or installed. *)
Definition lab_run (n : nat) (i : nat) (rf : Raft) : Prop :=
  ∃ r rf0, Make n (Z.of_nat i) Persister.MakePersister r = Some rf0 ∧
    rtc (λ rf rf', peer_step rf rf' ∧ rf'.(snapshotIndex) = 0) rf0 rf.

Definition deliveries (i : nat) (rf : Raft) : list (nat * Z * iface) :=
  (λ m, (i, m.(ApplyMsg.CommandIndex), m.(ApplyMsg.Command))) <$> applies rf.(out).

Lemma lab_run_in_order n i rf : (i < n)%nat → lab_run n i rf → in_order rf.
Proof.
  intros Hi (r & rf0 & Hmk & Hrtc). assert (in_order rf0) as H0.
  { destruct (Make_fresh n (Z.of_nat i) r) as (rf1 & Hmk1 & Hrec & _); [lia|].
    rewrite Hmk in Hmk1. injection Hmk1 as <-.
    destruct (Make_no_snapshot n (Z.of_nat i) _ r rf0 ltac:(lia) Hmk eq_refl) as [Hs Hc].
    split; [done|done|]. rewrite (Make_sends _ _ _ _ _ Hmk), Hc. by apply sent_nil. }
  clear Hmk. revert H0. induction Hrtc as [|x y z [Hxy Hsn] _ IH]; [done|]. intros Hx. apply IH. by eapply in_order_step.
Qed.

Lemma deliveries_gapless i rf : in_order rf → gapless (deliveries i rf).
Proof.
  intros [_ _ [_ Ho _]] l1 j idx v l2 Heq Hlt. unfold deliveries in Heq.
  apply fmap_app_inv in Heq as (k1 & k2 & -> & Hk & Happ). symmetry in Hk. apply fmap_cons_inv in Hk as (m & k3 & Hm & -> & ->).
  injection Hm as -> -> ->. destruct (Ho _ _ _ Happ Hlt) as [Hle|(m' & Hm' & Hidx)]; [lia|].
  exists m'.(ApplyMsg.Command). apply list_elem_of_fmap. exists m'. split; [|done]. by rewrite Hidx.
Qed.

Lemma gapless_app l k : gapless l → gapless k → gapless (l ++ k).
Proof.
  intros Hl Hk l1 i idx v l2 Heq Hlt. apply app_cut in Heq as [[k' ->]|(k' & -> & Heq)].
  - by eapply Hl.
  - destruct (Hk _ _ _ _ _ Heq Hlt) as [w Hw]. exists w. apply elem_of_app. by right.
Qed.

(** Gaps are a matter of one server. *)
Lemma gapless_servers l : (∀ i, gapless (filter (λ d, d.1.1 = i) l)) → gapless l.
Proof.
  intros Hall l1 i idx v l2 -> Hlt.
  destruct (Hall i (filter (λ d, d.1.1 = i) l1) i idx v (filter (λ d, d.1.1 = i) l2)) as [w Hw]; [|done|].
  - rewrite filter_app. by rewrite filter_cons_True.
  - exists w. by apply list_elem_of_filter in Hw as [_ Hw].
Qed.
End sent.

(** C18: The Raft tests and Raft: whatever the peers and the network do, crashes included, as
    long as there are no snapshots, the listeners of the harness never complain that a
    command is applied out of order, though [AppendEntries] applies every entry twice and a
    restarted peer begins again at index 1: the only complaint there can be is that two
    deliveries differ on an index. *)
Theorem only_disagreement_is_reported `{!RaftCodec} {V T W : Type} `{!EqDecision T}
    (Raft_methods : nat → list (@method V T W)) m unreliable names rs cfg
    (runs : nat → list Raft) (l : list (nat * Z * iface)) :
  make_config Raft_methods m unreliable names rs = Some cfg →
  (∀ i, Forall (lab_run m i) (runs i)) →
  (∀ i, (i < m)%nat → filter (λ d, d.1.1 = i) l = runs i ≫= deliveries i) →
  Forall (λ d, (d.1.1 < m)%nat ∧ comparable d.2) l →
  (∃ cfg', deliver_all l cfg = Ok cfg') ↔ agreeing l.
Proof.
  intros Hmk Hruns Hl Hcmp.
  destruct (listeners_iff Raft_methods m unreliable names rs cfg l Hmk Hcmp) as (Hiff & _). rewrite Hiff.
  split; [by intros []|]. intros Ha. split; [done|]. apply gapless_servers. intros i.
  destruct (decide (i < m)%nat) as [Hi|Hi].
  - rewrite Hl by done. specialize (Hruns i). induction (runs i) as [|rf rfs IH]; [intros [|? ?] ? ? ? ? ?; discriminate|].
    apply Forall_cons in Hruns as [Hrf Hrfs]. cbn. apply gapless_app; [|by apply IH].
    by eapply deliveries_gapless, lab_run_in_order.
  - assert (filter (λ d, d.1.1 = i) l = []) as ->; [|intros [|? ?] ? ? ? ? ?; discriminate].
    apply elem_of_nil_inv. intros d [Hd Hin]%list_elem_of_filter. rewrite Forall_forall in Hcmp.
    destruct (Hcmp _ Hin). lia.
Qed.

(** ** Two followers that are told that index 1 is committed *)

#[local] Existing Instance codec.

Module Follow.
Definition args : RequestAppendArgs.t := RequestAppendArgs.mk 1 2 0 0 [Log.mk (IInt 7) 1] 1.
Definition nobody : Raft := zero_Raft 0 0 (Persister.mk [] []).
Definition fresh (i : nat) : Raft :=
  default nobody (Make 2 (Z.of_nat i) Persister.MakePersister 0).
Definition told (i : nat) : Raft := default nobody (fst <$> AppendEntries 0 args (fresh i)).
Definition runs (i : nat) : list Raft := if decide (i < 2)%nat then [told i] else [].
Definition l : list (nat * Z * iface) :=
  [(0%nat, 1, IInt 7); (1%nat, 1, IInt 7); (1%nat, 1, IInt 7); (0%nat, 1, IInt 7)].

Lemma told_run i : (i < 2)%nat → lab_run 2 i (told i).
Proof.
  intros Hi. exists 0, (fresh i). split; [destruct i as [|[|i]]; [vm_compute; reflexivity..|lia]|].
  apply rtc_once. split.
  - destruct (AppendEntries 0 args (fresh i)) as [[rf reply]|] eqn:Heq.
    + unfold told. rewrite Heq. by eapply ps_AppendEntries.
    + destruct i as [|[|i]]; [vm_compute in Heq; discriminate..|lia].
  - destruct i as [|[|i]]; [vm_compute; reflexivity..|lia].
Qed.

Lemma runs_ok i : Forall (lab_run 2 i) (runs i).
Proof. unfold runs. case_decide; repeat constructor. by apply told_run. Qed.

Lemma l_runs i : (i < 2)%nat → filter (λ d, d.1.1 = i) l = runs i ≫= deliveries i.
Proof. intros Hi. destruct i as [|[|i]]; [vm_compute; reflexivity..|lia]. Qed.
End Follow.

Lemma only_disagreement_is_reported_witness :
  (∃ cfg', deliver_all Follow.l Agree.cfg = Ok cfg') ↔ agreeing Follow.l.
Proof.
  apply (only_disagreement_is_reported Agree.methods 2 false (Demo.name 0) (λ _, 0) Agree.cfg Follow.runs Follow.l).
  - exact Demo.cfg_made.
  - exact Follow.runs_ok.
  - exact Follow.l_runs.
  - repeat constructor; cbn; lia.
Defined.
