(* ===== verification/GroupHarness.v ===== *)
(** The harness of a replicated service's tests ([src/src/kvraft/config.go], and
    [src/src/shardmaster/config.go], which is the same code for another server): it
    starts and stops the servers, makes clients, and decides who is connected with whom.

    The server is a type [A]; what the harness needs of it are arguments.  As in
    [RaftConfig], the servers and persisters ever made are kept in [made] and [disks],
    and a pointer is a place there; the pointer of a clerk is a place in [clients].
    [None] is a panic or a [log.Fatal].  Random names and draws are arguments. *)
From S2P Require Import Prelude Gob Iface RaftTypes RaftPersist Labrpc Harness.
Open Scope nat_scope.
#[local] Existing Instances eta_Server eta_Network.

(** [rand.Intn(i + 1)] draws a number up to [i]. *)
Definition swap {X} (i j : nat) (l : list X) : list X :=
  match l !! i, l !! j with
  | Some x, Some y => <[j := x]> (<[i := y]> l)
  | _, _ => l
  end.

Definition random_handles {X} (draw : nat → nat) (kvh : list X) : list X :=
  foldl (λ sa i, swap i (Nat.modulo (draw i) (i + 1)) sa) kvh (seq 0 (length kvh)).

Section group.
Context {A : Type} {V T W : Type} `{!EqDecision T}.
(** What is needed of the server: its Raft, [Kill], the start, and the services that
    reflection makes of the server at a place and of its Raft. *)
Context (raft_of : A → Raft) (kill : A → A)
  (start : nat → nat → Persister.t → Z → option A)
  (services_of : nat → list (@Service V T W)).
Local Abbreviation Network := (@Network netname _ _).

Record instance := mkInstance {
  i_me : nat;
  i_ends : list netname;
  i_disk : nat;
  i_server : A
}.
#[export] Instance eta_instance : Eta instance :=
  λ x, mkInstance x.(i_me) x.(i_ends) x.(i_disk) x.(i_server).

Record config := mkConfig {
  net : Network;
  heap : list (@Server V T W);
  made : list instance;
  disks : list Persister.t;
  n : nat;
  kvservers : list (option nat);
  saved : list (option nat);
  endnames : list (option (list netname));
  clerks : gmap nat (list netname);
  clients : list (list netname);          (* the ends of every clerk, in its order *)
  nextClientId : nat
}.
#[export] Instance eta_config : Eta config := λ c,
  mkConfig c.(net) c.(heap) c.(made) c.(disks) c.(n) c.(kvservers) c.(saved) c.(endnames)
    c.(clerks) c.(clients) c.(nextClientId).

(** ** Sizes *)

Definition max_over (size : Persister.t → Z) (cfg : config) : option Z :=
  foldM (λ m i, s ← cfg.(saved) !! i; d ← s; p ← cfg.(disks) !! d;
    Some (if m <? size p then size p else m)%Z) 0%Z (seq 0 cfg.(n)).

Definition LogSize : config → option Z := max_over Persister.RaftStateSize.
Definition SnapshotSize : config → option Z := max_over Persister.SnapshotSize.

(** ** Connections between the servers *)

Definition connectUnlocked (i : nat) (to : list nat) (cfg : config) : option config :=
  rn ← foldM (λ rn t, e ← end_at cfg.(endnames) i t; Some (Enable e true rn)) cfg.(net) to;
  rn ← foldM (λ rn t, e ← end_at cfg.(endnames) t i; Some (Enable e true rn)) rn to;
  Some (cfg <| net := rn |>).

(** The second loop asks for the ends of server [j], the place in [from], where it means
    those of [from[j]]. *)
Definition disconnectUnlocked (i : nat) (from : list nat) (cfg : config) : option config :=
  rn ← foldM (λ rn f,
    row ← cfg.(endnames) !! i;
    match row with
    | None => Some rn
    | Some row => e ← row !! f; Some (Enable e false rn)
    end) cfg.(net) from;
  rn ← foldM (λ rn '(j, f),
    row ← cfg.(endnames) !! j;
    match row with
    | None => Some rn
    | Some _ => e ← end_at cfg.(endnames) f i; Some (Enable e false rn)
    end) rn (imap pair from);
  Some (cfg <| net := rn |>).

Definition All (cfg : config) : list nat := seq 0 cfg.(n).

Definition ConnectAll (cfg : config) : option config :=
  foldM (λ cfg i, connectUnlocked i (All cfg) cfg) cfg (seq 0 cfg.(n)).

Definition partition (p1 p2 : list nat) (cfg : config) : option config :=
  cfg ← foldM (λ cfg i, cfg ← disconnectUnlocked i p2 cfg; connectUnlocked i p1 cfg) cfg p1;
  foldM (λ cfg i, cfg ← disconnectUnlocked i p1 cfg; connectUnlocked i p2 cfg) cfg p2.

(** ** Clients *)

Definition ConnectClientUnlocked (ck : nat) (to : list nat) (cfg : config) : option config :=
  let names := default [] (cfg.(clerks) !! ck) in
  rn ← foldM (λ rn t, s ← names !! t; Some (Enable s true rn)) cfg.(net) to;
  Some (cfg <| net := rn |>).

Definition DisconnectClientUnlocked (ck : nat) (from : list nat) (cfg : config) : option config :=
  let names := default [] (cfg.(clerks) !! ck) in
  rn ← foldM (λ rn f, s ← names !! f; Some (Enable s false rn)) cfg.(net) from;
  Some (cfg <| net := rn |>).

(** A set of ends, one to every server; [names j] is the string drawn for server [j]. *)
Definition make_ends (names : nat → string) (m : nat) (rn : Network) : option (list netname * Network) :=
  let es := (NStr ∘ names) <$> seq 0 m in
  rn ← foldM (λ rn '(j, e), rn ← MakeEnd e rn; Some (Connect e (NInt j) rn)) rn (imap pair es);
  Some (es, rn).

Definition makeClient (to : list nat) (names : nat → string) (draw : nat → nat) (cfg : config)
    : option (nat * config) :=
  '(es, rn) ← make_ends names cfg.(n) cfg.(net);
  let ck := length cfg.(clients) in
  let cfg := cfg <| net := rn |> <| clients := cfg.(clients) ++ [random_handles draw es] |>
                 <| clerks := <[ck := es]> cfg.(clerks) |>
                 <| nextClientId := cfg.(nextClientId) + 1 |> in
  cfg ← ConnectClientUnlocked ck to cfg; Some (ck, cfg).

(** The files that are removed never exist. *)
Definition deleteClient (ck : nat) (cfg : config) : config :=
  cfg <| clerks := delete ck cfg.(clerks) |>.

(** ** Stopping and starting a server *)

Definition new_disk (p : Persister.t) (cfg : config) : config * nat :=
  (cfg <| disks := cfg.(disks) ++ [p] |>, length cfg.(disks)).

Definition copy_saved (i : nat) (cfg : config) : option config :=
  s ← cfg.(saved) !! i;
  match s with
  | None => Some cfg
  | Some d =>
      p ← cfg.(disks) !! d;
      let '(cfg, d) := new_disk (Persister.Copy p) cfg in
      s ← set_at cfg.(saved) i (Some d); Some (cfg <| saved := s |>)
  end.

Definition ShutdownServer (i : nat) (cfg : config) : option config :=
  cfg ← disconnectUnlocked i (All cfg) cfg;
  let cfg := cfg <| net := DeleteServer (NInt i) cfg.(net) |> in
  cfg ← copy_saved i cfg;
  kv ← cfg.(kvservers) !! i;
  match kv with
  | None => Some cfg
  | Some p =>
      x ← cfg.(made) !! p;
      m ← set_at cfg.(made) p (x <| i_server := kill x.(i_server) |>);
      ks ← set_at cfg.(kvservers) i None;
      Some (cfg <| made := m |> <| kvservers := ks |>)
  end.

(** Lines 308-312. *)
Definition fresh_persister (i : nat) (cfg : config) : option config :=
  s ← cfg.(saved) !! i;
  match s with
  | Some _ => copy_saved i cfg
  | None =>
      let '(cfg, d) := new_disk Persister.MakePersister cfg in
      s ← set_at cfg.(saved) i (Some d); Some (cfg <| saved := s |>)
  end.

(** Lines 315-322; [r] is the draw of the election timer. *)
Definition launch (i : nat) (es : list netname) (r : Z) (cfg : config) : option config :=
  s ← cfg.(saved) !! i; d ← s; p ← cfg.(disks) !! d;
  kv ← start (length es) i p r;
  ds ← set_at cfg.(disks) d (raft_of kv).(persister);
  let q := length cfg.(made) in
  ks ← set_at cfg.(kvservers) i (Some q);
  let srv := foldl (λ srv svc, AddService svc srv) MakeServer (services_of q) in
  Some (cfg <| disks := ds |> <| made := cfg.(made) ++ [mkInstance i es d kv] |>
            <| kvservers := ks |> <| heap := cfg.(heap) ++ [srv] |>
            <| net := AddServer (NInt i) (length cfg.(heap)) cfg.(net) |>).

Definition StartServer (i : nat) (names : nat → string) (r : Z) (cfg : config) : option config :=
  '(es, rn) ← make_ends names cfg.(n) cfg.(net);
  rows ← set_at cfg.(endnames) i (Some es);
  let cfg := cfg <| endnames := rows |> <| net := rn |> in
  cfg ← fresh_persister i cfg;
  launch i es r cfg.

(** ** The leader and the partition around it *)

Fixpoint find_leader (ss : list nat) (cfg : config) : option (bool * nat) :=
  match ss with
  | [] => Some (false, 0)
  | i :: ss =>
      p ← cfg.(kvservers) !! i; p ← p; x ← cfg.(made) !! p;
      if (GetState (raft_of x.(i_server))).2 then Some (true, i) else find_leader ss cfg
  end.

Definition Leader (cfg : config) : option (bool * nat) := find_leader (seq 0 cfg.(n)) cfg.

(** Lines 341-355. *)
Definition deal (m l : nat) : option (list nat * list nat) :=
  let p1 := replicate (Nat.div m 2 + 1) 0 in
  let p2 := replicate (Nat.div m 2) 0 in
  '(p1, p2, _) ← foldM (λ '(p1, p2, j) i,
    if decide (i = l) then Some (p1, p2, j)
    else if decide (j < length p1) then p1 ← set_at p1 j i; Some (p1, p2, j + 1)
    else p2 ← set_at p2 (j - length p1) i; Some (p1, p2, j + 1)) (p1, p2, 0) (seq 0 m);
  if decide (length p2 = 0) then None
  else p2 ← set_at p2 (length p2 - 1) l; Some (p1, p2).

Definition make_partition (cfg : config) : option (list nat * list nat) :=
  '(_, l) ← Leader cfg; deal cfg.(n) l.

(** ** Making everything, and the end *)

Definition empty_config (m : nat) : config :=
  mkConfig MakeNetwork [] [] [] m (replicate m None) (replicate m None) (replicate m None) ∅ [] (m + 1000).

Definition make_config (m : nat) (unreliable : bool) (names : nat → nat → string) (rs : nat → Z)
    : option config :=
  cfg ← foldM (λ cfg i, StartServer i (names i) (rs i) cfg) (empty_config m) (seq 0 m);
  cfg ← ConnectAll cfg;
  Some (cfg <| net := Reliable (negb unreliable) cfg.(net) |>).

(** [late]: more than 120 seconds have passed; [Fatal] fails the test. *)
Definition checkTimeout (failed late : bool) : outcome unit unit :=
  if negb failed && late then Fatal tt else Ok tt.

Definition cleanup (failed late : bool) (cfg : config) : outcome unit config :=
  (cfg <- lift_option (foldM (λ cfg i,
     kv ← cfg.(kvservers) !! i;
     match kv with
     | None => Some cfg
     | Some p =>
         x ← cfg.(made) !! p;
         m ← set_at cfg.(made) p (x <| i_server := kill x.(i_server) |>);
         Some (cfg <| made := m |>)
     end) cfg (seq 0 (length cfg.(kvservers))));;
   rn <- lift_option (Cleanup cfg.(net));;
   _ <- checkTimeout failed late;;
   Ok (cfg <| net := rn |>))%outcome.
End group.
