(* ===== verification/GroupProps.v ===== *)
(** What the harness of the services' tests promises ([src/src/kvraft/config.go]): clients
    meet the servers in some order; a partition cuts exactly between its parts, and puts
    the leader in the minority; a server that was shut down never acknowledges anything. *)
From S2P Require Import Prelude Gob Iface RaftTypes RaftPersist Labrpc LabrpcProps Harness GroupHarness.
Open Scope nat_scope.
#[local] Existing Instances eta_Server eta_Network eta_thread eta_world.

(** ** [random_handles] *)

Lemma swap_Permutation {X} i j (l : list X) : swap i j l ≡ₚ l.
Proof.
  unfold swap. destruct (l !! i) as [x|] eqn:Hi; [|done]. destruct (l !! j) as [y|] eqn:Hj; [|done].
  destruct (decide (i = j)) as [->|Hne].
  { simplify_eq. by rewrite list_insert_insert_eq, list_insert_id. }
  by apply Permutation_insert_swap.
Qed.

Lemma random_handles_Permutation {X} draw (l : list X) : random_handles draw l ≡ₚ l.
Proof.
  unfold random_handles. generalize (seq 0 (length l)) as k. intros k. revert l.
  induction k as [|i k IH]; intros l; [done|]. cbn. rewrite IH. apply swap_Permutation.
Qed.

(** ** [make_partition] *)

(** The loop deals the others to the two slices, which are one row of places. *)
Lemma deal_spec m l : 2 ≤ m → l < m →
  ∃ p1 p2, deal m l = Some (p1, p2) ∧ length p1 = Nat.div m 2 + 1 ∧ length p2 = Nat.div m 2 ∧
    last p2 = Some l ∧
    p1 ++ p2 = filter (λ i, i ≠ l) (seq 0 m) ++ replicate (1 - Nat.modulo m 2) 0 ++ [l].
Proof.
  intros Hm Hl. unfold deal. set (h := Nat.div m 2).
  set (f := λ '(p1, p2, j) i, _).
  assert (Hdiv : m = 2 * h + Nat.modulo m 2) by apply Nat.div_mod_eq.
  pose proof (Nat.mod_upper_bound m 2 ltac:(lia)) as Hmod.
  assert (Hoth : ∀ k, k ≤ m → length (filter (λ i, i ≠ l) (seq 0 k)) = if decide (l < k) then k - 1 else k).
  { induction k as [|k IH]; intros Hk; [done|]. rewrite seq_S, filter_app, length_app, IH by lia. cbn.
    unfold filter; cbn. repeat case_decide; cbn; lia. }
  assert (Hloop : ∀ k, k ≤ m → ∃ p1 p2 j, foldM f (replicate (h + 1) 0, replicate h 0, 0) (seq 0 k) = Some (p1, p2, j) ∧
    length p1 = h + 1 ∧ length p2 = h ∧ j = length (filter (λ i, i ≠ l) (seq 0 k)) ∧
    p1 ++ p2 = filter (λ i, i ≠ l) (seq 0 k) ++ replicate (2 * h + 1 - j) 0).
  { induction k as [|k IH]; intros Hk.
    { exists (replicate (h + 1) 0), (replicate h 0), 0. rewrite !length_replicate. split_and!; try done.
      cbn [seq filter list_filter app]. rewrite <- replicate_add. f_equal. lia. }
    destruct IH as (p1 & p2 & j & Hf & H1 & H2 & Hj & Happ); [lia|].
    rewrite seq_S, foldM_app, Hf, filter_app. cbn [mbind option_bind foldM Nat.add].
    assert (j < 2 * h + 1 ∨ k = l) as Hroom.
    { destruct (decide (k = l)); [by right|left]. rewrite Hj, Hoth by lia. case_decide; lia. }
    unfold f at 1. destruct (decide (k = l)) as [->|Hne].
    - exists p1, p2, j. rewrite filter_cons_False, filter_nil, app_nil_r by tauto. done.
    - rewrite filter_cons_True, filter_nil by done. destruct Hroom as [Hroom|]; [|done].
      assert (<[j := k]> (p1 ++ p2) = filter (λ i, i ≠ l) (seq 0 k) ++ k :: replicate (2 * h + 1 - (j + 1)) 0) as Hins.
      { rewrite Happ, Hj, insert_app_r_alt, Nat.sub_diag by done. f_equal. rewrite <- Hj.
        replace (2 * h + 1 - j) with (S (2 * h + 1 - (j + 1))) by lia. done. }
      destruct (decide (j < length p1)) as [Hlt|Hge].
      + unfold set_at. rewrite decide_True by done. cbn. exists (<[j := k]> p1), p2, (j + 1).
        rewrite length_insert, <- insert_app_l, Hins, length_app, <- app_assoc by done. cbn. split_and!; try done; lia.
      + unfold set_at. rewrite decide_True by lia. cbn. exists p1, (<[j - length p1 := k]> p2), (j + 1).
        rewrite length_insert, <- insert_app_r_alt, Hins, length_app, <- app_assoc by lia. cbn. split_and!; try done; lia. }
  destruct (Hloop m) as (p1 & p2 & j & Hf & H1 & H2 & Hj & Happ); [done|].
  rewrite Hf. cbn [mbind option_bind]. rewrite decide_False by lia. unfold set_at. rewrite decide_True by lia.
  cbn [mbind option_bind]. rewrite Hoth, decide_True in Hj by lia.
  exists p1, (<[length p2 - 1 := l]> p2). rewrite length_insert. split_and!; [done..| |].
  - rewrite last_lookup, length_insert. replace (Nat.pred (length p2)) with (length p2 - 1) by lia.
    rewrite list_lookup_insert_eq; [done|lia].
  - assert (<[length p1 + (length p2 - 1) := l]> (p1 ++ p2) = p1 ++ <[length p2 - 1 := l]> p2) as <-.
    { rewrite insert_app_r_alt by lia. f_equal. f_equal. lia. }
    assert (length (filter (λ i, i ≠ l) (seq 0 m)) = m - 1) as Hlen by (rewrite Hoth, decide_True by lia; done).
    rewrite Happ, insert_app_r_alt by lia. f_equal. rewrite Hlen.
    replace (2 * h + 1 - j) with (1 - Nat.modulo m 2 + 1) by lia.
    rewrite replicate_add, insert_app_r_alt, length_replicate by (rewrite length_replicate; lia). f_equal.
    replace (length p1 + (length p2 - 1) - (m - 1) - (1 - Nat.modulo m 2)) with 0 by lia. done.
Qed.

(** With an even number one place stays 0: here server 0 is in both parts. *)
Lemma deal_even : deal 4 1 = Some ([0; 2; 3], [0; 1]).
Proof. reflexivity. Qed.

(** ** Links between the servers *)

Section group.
Context {A : Type} {V T W : Type} `{!EqDecision T}.
Local Abbreviation config := (@config A V T W).
Implicit Types (cfg : config).

(** Every server was started, and no two ends share a name. *)
Record rows_ok cfg : Prop := {
  ro_n : length cfg.(endnames) = cfg.(n);
  ro_row i : i < cfg.(n) → ∃ row, cfg.(endnames) !! i = Some (Some row) ∧ length row = cfg.(n);
  ro_inj i j i' j' e : end_at cfg.(endnames) i j = Some e → end_at cfg.(endnames) i' j' = Some e →
    i = i' ∧ j = j'
}.

(** The links are switched as [want] says, and nothing else changes. *)
Definition relinked (want : nat → nat → option bool) cfg cfg' : Prop :=
  ∃ en, cfg' = cfg <| net := cfg.(net) <| enabled := en |> |> ∧
    (∀ a c e, end_at cfg.(endnames) a c = Some e →
      en !! e = match want a c with Some b => Some b | None => cfg.(net).(enabled) !! e end) ∧
    ∀ e, (∀ a c, end_at cfg.(endnames) a c ≠ Some e) → en !! e = cfg.(net).(enabled) !! e.

Lemma relinked_refl cfg : relinked (λ _ _, None) cfg cfg.
Proof. exists cfg.(net).(enabled). split; [by destruct cfg as [[]]|done]. Qed.

Lemma relinked_trans w1 w2 cfg1 cfg2 cfg3 :
  relinked w1 cfg1 cfg2 → relinked w2 cfg2 cfg3 →
  relinked (λ a c, match w2 a c with Some b => Some b | None => w1 a c end) cfg1 cfg3.
Proof.
  intros (en1 & -> & H1 & F1) (en2 & -> & H2 & F2). exists en2. split; [done|].
  cbn in H2, F2. split.
  - intros a c e He. rewrite (H2 _ _ _ He). destruct (w2 a c); [done|]. by apply H1.
  - intros e He. rewrite F2 by done. by apply F1.
Qed.

Lemma relinked_ext w w' cfg cfg' : (∀ a c, w a c = w' a c) → relinked w cfg cfg' → relinked w' cfg cfg'.
Proof. intros Hw (en & -> & H1 & F). exists en. split; [done|]. split; [|done]. intros a c e. rewrite <- Hw. apply H1. Qed.

Lemma relinked_rows w cfg cfg' : relinked w cfg cfg' → rows_ok cfg → rows_ok cfg'.
Proof. intros (en & -> & _) [Hn Hr Hi]. by split. Qed.

Lemma relinked_n w cfg cfg' : relinked w cfg cfg' → cfg'.(n) = cfg.(n).
Proof. by intros (en & -> & _). Qed.

Lemma rows_end_at cfg i j : rows_ok cfg → i < cfg.(n) → j < cfg.(n) → is_Some (end_at cfg.(endnames) i j).
Proof.
  intros Hok Hi Hj. destruct (ro_row _ Hok i Hi) as (row & Hr & Hl). unfold end_at. rewrite Hr. cbn.
  apply lookup_lt_is_Some. lia.
Qed.

Definition touches (i : nat) (ts : list nat) (a c : nat) : Prop := a = i ∧ c ∈ ts ∨ c = i ∧ a ∈ ts.
#[local] Instance touches_dec i ts a c : Decision (touches i ts a c).
Proof. unfold touches. apply _. Defined.

(** Two loops that switch the ends from [i] to each of [ts], and back. *)
Lemma two_loops b cfg i ts rn1 rn2 {X} (f g : X → option (option netname)) (l l' : list X) (t t' : X → nat) :
  rows_ok cfg → t <$> l = ts → t' <$> l' = ts →
  (∀ x, x ∈ l → f x = Some <$> end_at cfg.(endnames) i (t x)) →
  (∀ x, x ∈ l' → g x = Some <$> end_at cfg.(endnames) (t' x) i) →
  switch b f cfg.(net) l = Some rn1 → switch b g rn1 l' = Some rn2 →
  relinked (λ a c, if decide (touches i ts a c) then Some b else None) cfg (cfg <| net := rn2 |>).
Proof.
  intros Hok Hl Hl' Hf Hg (en1 & -> & _ & H1)%switch_spec (en2 & -> & _ & H2)%switch_spec.
  exists en2. split; [by destruct cfg as [[]]|]. cbn [over enabled] in H2.
  assert (∀ e, Exists (λ x, f x = Some (Some e)) l ↔ ∃ k, k ∈ ts ∧ end_at cfg.(endnames) i k = Some e) as E1.
  { intros e. rewrite Exists_exists, <- Hl. split.
    - intros (x & Hx & He). rewrite Hf in He by done. exists (t x).
      split; [by apply list_elem_of_fmap_2|]. by destruct (end_at _ _ _); simplify_eq/=.
    - intros (k & (x & -> & Hx)%list_elem_of_fmap & He). exists x. split; [done|]. by rewrite Hf, He. }
  assert (∀ e, Exists (λ x, g x = Some (Some e)) l' ↔ ∃ k, k ∈ ts ∧ end_at cfg.(endnames) k i = Some e) as E2.
  { intros e. rewrite Exists_exists, <- Hl'. split.
    - intros (x & Hx & He). rewrite Hg in He by done. exists (t' x).
      split; [by apply list_elem_of_fmap_2|]. by destruct (end_at _ _ _); simplify_eq/=.
    - intros (k & (x & -> & Hx)%list_elem_of_fmap & He). exists x. split; [done|]. by rewrite Hg, He. }
  split.
  - intros a c e He. rewrite H2, H1. destruct (decide (touches i ts a c)) as [Ht|Hno].
    + case_decide as D2; [done|]. case_decide as D1; [done|]. rewrite E1 in D1. rewrite E2 in D2.
      destruct Ht as [[-> Hin]|[-> Hin]]; [destruct D1|destruct D2]; eauto.
    + rewrite decide_False, decide_False; [done|..].
      * intros (k & Hk & He')%E1. apply Hno. destruct (ro_inj _ Hok _ _ _ _ _ He He') as [-> ->]. by left.
      * intros (k & Hk & He')%E2. apply Hno. destruct (ro_inj _ Hok _ _ _ _ _ He He') as [-> ->]. by right.
  - intros e He. rewrite H2, H1, decide_False, decide_False; [done|..].
    + intros (k & Hk & He')%E1. by apply He in He'.
    + intros (k & Hk & He')%E2. by apply He in He'.
Qed.

Lemma switch_fmap {X Y} b (f : Y → option (option netname)) (h : X → Y) rn l :
  switch b f rn (h <$> l) = switch b (λ x, f (h x)) rn l.
Proof.
  unfold switch. revert rn. induction l as [|x l IH]; intros rn; [done|]. cbn [fmap list_fmap foldM].
  destruct (f (h x)); [apply IH|done].
Qed.

Lemma connectUnlocked_spec cfg i to :
  rows_ok cfg → i < cfg.(n) → Forall (λ t, t < cfg.(n)) to →
  ∃ cfg', connectUnlocked i to cfg = Some cfg' ∧
    relinked (λ a c, if decide (touches i to a c) then Some true else None) cfg cfg'.
Proof.
  intros Hok Hi Hto. rewrite Forall_forall in Hto. unfold connectUnlocked.
  set (f t := Some <$> end_at cfg.(endnames) i t). set (g t := Some <$> end_at cfg.(endnames) t i).
  assert (∀ rn, foldM (λ rn t, e ← end_at cfg.(endnames) i t; Some (Enable e true rn)) rn to = switch true f rn to) as ->.
  { intros rn. apply foldM_ext. intros rn' x _. unfold f. by destruct (end_at _ _ _). }
  assert (∀ rn, foldM (λ rn t, e ← end_at cfg.(endnames) t i; Some (Enable e true rn)) rn to = switch true g rn to) as Hg.
  { intros rn. apply foldM_ext. intros rn' x _. unfold g. by destruct (end_at _ _ _). }
  destruct (switch_total true f cfg.(net) to) as [rn1 H1].
  { intros t Ht. unfold f. destruct (rows_end_at cfg i t Hok Hi (Hto _ Ht)) as [e ->]. by eexists. }
  destruct (switch_total true g rn1 to) as [rn2 H2].
  { intros t Ht. unfold g. destruct (rows_end_at cfg t i Hok (Hto _ Ht) Hi) as [e ->]. by eexists. }
  rewrite H1. cbn [mbind option_bind]. rewrite Hg, H2. cbn. eexists. split; [done|].
  eapply (two_loops true cfg i to rn1 rn2 f g to to id id); try done; by rewrite list_fmap_id.
Qed.

Lemma disconnectUnlocked_spec cfg i from :
  rows_ok cfg → i < cfg.(n) → Forall (λ t, t < cfg.(n)) from → length from ≤ cfg.(n) →
  ∃ cfg', disconnectUnlocked i from cfg = Some cfg' ∧
    relinked (λ a c, if decide (touches i from a c) then Some false else None) cfg cfg'.
Proof.
  intros Hok Hi Hfrom Hlen. rewrite Forall_forall in Hfrom. unfold disconnectUnlocked.
  set (f (p : nat * nat) := Some <$> end_at cfg.(endnames) i p.2).
  set (g (p : nat * nat) := Some <$> end_at cfg.(endnames) p.2 i).
  assert (∀ k, snd <$> imap (λ j x, (k + j, x)) from = from) as Hsnd.
  { clear. induction from as [|x l IH]; intros k; [done|]. cbn. f_equal. rewrite <- (IH (S k)) at 2.
    f_equal. apply imap_ext. intros. cbn. f_equal. lia. }
  specialize (Hsnd 0). cbn in Hsnd. change (imap (λ j x, (j, x)) from) with (imap pair from) in Hsnd.
  assert (∀ p, p ∈ imap pair from → p.1 < length from ∧ p.2 ∈ from) as Hin.
  { intros [j x] (k & ? & [= -> ->] & Hk)%elem_of_lookup_imap. cbn.
    split; [by eapply lookup_lt_Some|by eapply list_elem_of_lookup_2]. }
  set (f1 t := Some <$> end_at cfg.(endnames) i t).
  assert (∀ rn, foldM (λ rn f, row ← cfg.(endnames) !! i;
    match row with None => Some rn | Some row => e ← row !! f; Some (Enable e false rn) end) rn from
    = switch false f1 rn from) as ->.
  { intros rn. apply foldM_ext. intros rn' x _. unfold f1, end_at.
    destruct (ro_row _ Hok i Hi) as (row & -> & _). cbn. by destruct (row !! x). }
  assert (∀ rn, foldM (λ rn '(j, f), row ← cfg.(endnames) !! j;
    match row with None => Some rn | Some _ => e ← end_at cfg.(endnames) f i; Some (Enable e false rn) end)
    rn (imap pair from) = switch false g rn (imap pair from)) as Hg.
  { intros rn. apply foldM_ext. intros rn' [j x] [Hj Hx]%Hin. unfold g. cbn [fst snd] in *.
    destruct (ro_row _ Hok j ltac:(lia)) as (row & -> & _). cbn. by destruct (end_at _ _ _). }
  assert (switch false f1 cfg.(net) from = switch false f cfg.(net) (imap pair from)) as ->.
  { transitivity (switch false f1 cfg.(net) (imap pair from).*2); [by rewrite Hsnd|apply (switch_fmap false f1 snd)]. }
  destruct (switch_total false f cfg.(net) (imap pair from)) as [rn1 H1].
  { intros p [_ Hp]%Hin. unfold f. destruct (rows_end_at cfg i p.2 Hok Hi (Hfrom _ Hp)) as [e ->]. by eexists. }
  destruct (switch_total false g rn1 (imap pair from)) as [rn2 H2].
  { intros p [_ Hp]%Hin. unfold g. destruct (rows_end_at cfg p.2 i Hok (Hfrom _ Hp) Hi) as [e ->]. by eexists. }
  rewrite H1. cbn [mbind option_bind]. rewrite Hg, H2. cbn [mbind option_bind]. eexists. split; [done|].
  by eapply (two_loops false cfg i from rn1 rn2 f g (imap pair from) (imap pair from) snd snd).
Qed.

(** One half of [partition]: every server of [l] leaves those of [q] and joins those of [p]. *)
Definition half (p q l : list nat) (a c : nat) : option bool :=
  if decide (Exists (λ i, touches i p a c) l) then Some true
  else if decide (Exists (λ i, touches i q a c) l) then Some false else None.

Lemma half_spec p q l cfg :
  rows_ok cfg → p ## q → Forall (λ t, t < cfg.(n)) p → Forall (λ t, t < cfg.(n)) q →
  length q ≤ cfg.(n) → l ⊆ p →
  ∃ cfg', foldM (λ cfg i, cfg ← disconnectUnlocked i q cfg; connectUnlocked i p cfg) cfg l = Some cfg' ∧
    relinked (half p q l) cfg cfg'.
Proof.
  intros Hok Hpq Hp Hq Hlen. revert cfg Hok Hp Hq Hlen.
  induction l as [|i l IH]; intros cfg Hok Hp Hq Hlen Hl.
  { exists cfg. split; [done|]. eapply relinked_ext; [|apply relinked_refl]. intros a c. unfold half.
    by rewrite !decide_False by (by intros ?%Exists_nil). }
  assert (i ∈ p) as Hip by (apply Hl; by left).
  assert (i < cfg.(n)) as Hi by (rewrite Forall_forall in Hp; auto).
  destruct (disconnectUnlocked_spec cfg i q Hok Hi Hq Hlen) as (c1 & E1 & R1).
  pose proof (relinked_n _ _ _ R1) as N1.
  destruct (connectUnlocked_spec c1 i p) as (c2 & E2 & R2);
    [by eapply relinked_rows|congruence|by rewrite N1|].
  pose proof (relinked_n _ _ _ R2) as N2. rewrite N1 in N2.
  destruct (IH c2) as (c3 & E3 & R3); [by do 2 (eapply relinked_rows; [done|])|by rewrite N2..| |].
  { intros x Hx. apply Hl. by right. }
  exists c3. cbn [foldM]. rewrite E1. cbn [mbind option_bind]. rewrite E2. cbn [mbind option_bind].
  split; [done|]. eapply relinked_ext; [|exact (relinked_trans _ _ _ _ _ (relinked_trans _ _ _ _ _ R1 R2) R3)].
  clear -Hpq Hip Hl. intros a c. unfold half. cbn beta.
  assert (∀ k, k ∈ l → touches k q a c → touches i p a c → False) as Hno.
  { intros k Hk Hq Hp. assert (k ∈ p) by (apply Hl; by right). unfold touches in *. set_solver. }
  repeat case_decide; try done; rewrite ?Exists_cons in *; try tauto.
  revert select (Exists (λ i, touches i q a c) l). intros (k & Hk & Ht)%Exists_exists.
  revert select (_ ∨ _). intros [Ht'|]; [by destruct (Hno k Hk Ht Ht')|done].
Qed.

Definition together (p1 p2 : list nat) (a c : nat) : Prop := a ∈ p1 ∧ c ∈ p1 ∨ a ∈ p2 ∧ c ∈ p2.
#[local] Instance together_dec p1 p2 a c : Decision (together p1 p2 a c).
Proof. unfold together. apply _. Defined.

Lemma Exists_cross p q a c : Exists (λ i, touches i q a c) p ↔ a ∈ p ∧ c ∈ q ∨ a ∈ q ∧ c ∈ p.
Proof.
  rewrite Exists_exists. unfold touches. split.
  - intros (i & Hi & [[-> ?]|[-> ?]]); auto.
  - intros [[Ha Hc]|[Ha Hc]]; eauto.
Qed.

(** Servers are linked when they are in the same part. *)
Lemma partition_spec p1 p2 cfg :
  rows_ok cfg → p1 ++ p2 ≡ₚ seq 0 cfg.(n) →
  ∃ cfg', partition p1 p2 cfg = Some cfg' ∧
    relinked (λ a c, if decide (a < cfg.(n) ∧ c < cfg.(n)) then Some (bool_decide (together p1 p2 a c)) else None) cfg cfg'.
Proof.
  intros Hok Hperm.
  assert (Forall (λ t, t < cfg.(n)) (p1 ++ p2)) as [Hp1 Hp2]%Forall_app.
  { rewrite Hperm. apply Forall_forall. intros x ?%elem_of_seq. lia. }
  assert (NoDup (p1 ++ p2)) as (_ & Hdis & _)%NoDup_app by (rewrite Hperm; apply NoDup_seq).
  assert (length p1 + length p2 = cfg.(n)) as Hlen by (by rewrite <- length_app, Hperm, length_seq).
  destruct (half_spec p1 p2 p1 cfg) as (c1 & E1 & R1); [done|set_solver|done|done|lia|done|].
  pose proof (relinked_n _ _ _ R1) as N1.
  destruct (half_spec p2 p1 p2 c1) as (c2 & E2 & R2); [by eapply relinked_rows|set_solver|by rewrite N1..|lia|done|].
  exists c2. unfold partition. rewrite E1. cbn [mbind option_bind]. split; [done|].
  eapply relinked_ext; [|exact (relinked_trans _ _ _ _ _ R1 R2)]. cbn beta. intros a c. unfold half.
  assert (∀ x, x < cfg.(n) ↔ x ∈ p1 ∨ x ∈ p2) as Hall.
  { intros x. rewrite <- elem_of_app, Hperm, elem_of_seq. lia. }
  rewrite Forall_forall in Hp1, Hp2.
  pose proof (Exists_cross p1 p1 a c) as T1. pose proof (Exists_cross p2 p2 a c) as T2.
  assert (Exists (λ i, touches i p2 a c) p1 ↔ a ∈ p1 ∧ c ∈ p2 ∨ a ∈ p2 ∧ c ∈ p1) as X1 by apply Exists_cross.
  assert (Exists (λ i, touches i p1 a c) p2 ↔ a ∈ p1 ∧ c ∈ p2 ∨ a ∈ p2 ∧ c ∈ p1) as X2.
  { rewrite Exists_cross. tauto. }
  assert (∀ x, x < cfg.(n) → x ∈ p1 ∧ x ∉ p2 ∨ x ∉ p1 ∧ x ∈ p2) as Hone.
  { intros x Hx. pose proof (Hdis x). apply Hall in Hx as [?|?]; tauto. }
  clear -T1 T2 X1 X2 Hall Hone. destruct (decide (a < cfg.(n) ∧ c < cfg.(n))) as [[Ha Hc]|Hn].
  - destruct (Hone a Ha) as [[A1 A2]|[A1 A2]], (Hone c Hc) as [[C1 C2]|[C1 C2]];
      repeat first [rewrite decide_True by tauto | rewrite decide_False by tauto].
    all: symmetry; f_equal; first [apply bool_decide_eq_true_2 | apply bool_decide_eq_false_2]; unfold together; tauto.
  - assert (∀ P, (P → (a ∈ p1 ∨ a ∈ p2) ∧ (c ∈ p1 ∨ c ∈ p2)) → ¬ P) as Hout.
    { intros P HP [?%Hall ?%Hall]%HP. tauto. }
    rewrite !decide_False; [done|..]; apply Hout; tauto.
Qed.
End group.
