(* ===== verification/GroupRun.v ===== *)
(** Whatever the harness of a service does, with its servers and the network running:
    the names of the ends stay different, every server has a persister of its own, and
    the theorems on partitions and on servers that are shut down
    ([src/src/kvraft/config.go], [src/src/shardmaster/config.go]). *)
From S2P Require Import Prelude Gob Iface RaftTypes RaftPersist Labrpc LabrpcProps Harness GroupHarness GroupProps.
Open Scope nat_scope.
#[local] Existing Instances eta_Server eta_Network eta_thread eta_world.

Section group.
Context {A : Type} {V T W : Type} `{!EqDecision T}.
Context (raft_of : A → Raft) (kill : A → A)
  (start : nat → nat → Persister.t → Z → option A)
  (services_of : nat → list (@Service V T W)).
Local Abbreviation config := (@config A V T W).
Implicit Types (cfg : config).

(** ** What the operations do *)

Lemma group_make_ends_spec names m (rn rn' : @Network netname _ _) es :
  make_ends names m rn = Some (es, rn') → length es = m ∧ ends_made es rn rn'.
Proof.
  unfold make_ends. intros (rn1 & Hf & [= <- <-])%bind_Some. split; [by rewrite length_fmap, length_seq|].
  destruct (make_ends_from 0 _ _ _ Hf) as (? & ? & ? & ? & ? & ?). by split.
Qed.

Definition persister_at (i : nat) cfg : Persister.t :=
  match cfg.(saved) !! i with
  | Some (Some d) => default Persister.MakePersister (cfg.(disks) !! d)
  | _ => Persister.MakePersister
  end.

Record started (i : nat) (r : Z) cfg cfg' (es : list netname) (rn : Network) (kv : A) (srv : Server) : Prop := {
  st_ends : ends_made es cfg.(net) rn;
  st_len : length es = cfg.(n);
  st_i : i < length cfg.(endnames) ∧ i < length cfg.(saved) ∧ i < length cfg.(kvservers);
  st_start : start (length es) i (persister_at i cfg) r = Some kv;
  st_names : cfg'.(endnames) = <[i := Some es]> cfg.(endnames);
  st_saved : cfg'.(saved) = <[i := Some (length cfg.(disks))]> cfg.(saved);
  st_disks : cfg'.(disks) = cfg.(disks) ++ [(raft_of kv).(persister)];
  st_made : cfg'.(made) = cfg.(made) ++ [mkInstance i es (length cfg.(disks)) kv];
  st_kv : cfg'.(kvservers) = <[i := Some (length cfg.(made))]> cfg.(kvservers);
  st_heap : cfg'.(heap) = cfg.(heap) ++ [srv];
  st_net : cfg'.(net) = AddServer (NInt i) (length cfg.(heap)) rn;
  st_n : cfg'.(n) = cfg.(n);
  st_clerks : cfg'.(clerks) = cfg.(clerks) ∧ cfg'.(clients) = cfg.(clients)
}.

Lemma group_fresh_persister_spec i cfg cfg' :
  fresh_persister i cfg = Some cfg' →
  i < length cfg.(saved) ∧
  cfg' = cfg <| disks := cfg.(disks) ++ [persister_at i cfg] |>
             <| saved := <[i := Some (length cfg.(disks))]> cfg.(saved) |>.
Proof.
  unfold fresh_persister, persister_at. intros (s & Hs & Hf)%bind_Some. rewrite Hs. destruct s as [d|].
  - unfold copy_saved in Hf. rewrite Hs in Hf. cbn [mbind option_bind] in Hf.
    apply bind_Some in Hf as (p & Hp & Hf). rewrite Hp. cbn in Hf. apply bind_Some in Hf as (s & (Hi & ->)%set_at_Some & [= <-]).
    split; [done|]. by destruct p.
  - cbn in Hf. apply bind_Some in Hf as (s & (Hi & ->)%set_at_Some & [= <-]). done.
Qed.

Lemma StartServer_spec i names r cfg cfg' :
  StartServer raft_of start services_of i names r cfg = Some cfg' →
  ∃ es rn kv srv, started i r cfg cfg' es rn kv srv.
Proof.
  unfold StartServer. intros ([es rn] & [Hlen Hends]%group_make_ends_spec & Hs)%bind_Some.
  apply bind_Some in Hs as (rows & (Hi & ->)%set_at_Some & Hs).
  apply bind_Some in Hs as (c & (Hsv & ->)%group_fresh_persister_spec & Hs).
  unfold launch in Hs. cbn in Hs, Hsv. rewrite list_lookup_insert_eq in Hs by done. cbn [mbind option_bind] in Hs.
  rewrite lookup_app_r, Nat.sub_diag in Hs by done. cbn in Hs.
  apply bind_Some in Hs as (kv & Hkv & Hs). apply bind_Some in Hs as (ds & (_ & ->)%set_at_Some & Hs).
  apply bind_Some in Hs as (ks & (Hk & ->)%set_at_Some & [= <-]).
  eexists es, rn, kv, _. split; try done; cbn. by rewrite insert_app_r_alt, Nat.sub_diag.
Qed.

Lemma makeClient_spec to names draw cfg ck cfg' :
  makeClient to names draw cfg = Some (ck, cfg') →
  ∃ es rn en, length es = cfg.(n) ∧ ends_made es cfg.(net) rn ∧ ck = length cfg.(clients) ∧
    cfg'.(net) = rn <| enabled := en |> ∧ cfg'.(clients) = cfg.(clients) ++ [random_handles draw es] ∧
    cfg'.(clerks) = <[ck := es]> cfg.(clerks) ∧ cfg'.(n) = cfg.(n) ∧ cfg'.(endnames) = cfg.(endnames) ∧
    cfg'.(kvservers) = cfg.(kvservers) ∧ cfg'.(saved) = cfg.(saved) ∧ cfg'.(made) = cfg.(made) ∧
    cfg'.(disks) = cfg.(disks) ∧ cfg'.(heap) = cfg.(heap) ∧
    (∀ e, en !! e = Some true ↔ rn.(enabled) !! e = Some true ∨ ∃ t, t ∈ to ∧ es !! t = Some e) ∧
    ∀ t, t ∈ to → t < cfg.(n).
Proof.
  unfold makeClient. intros ([es rn] & [Hlen Hends]%group_make_ends_spec & Hc)%bind_Some.
  apply bind_Some in Hc as (c & Hc & [= <- <-]). unfold ConnectClientUnlocked in Hc. cbn in Hc.
  rewrite lookup_insert_eq in Hc. cbn in Hc. apply bind_Some in Hc as (rn1 & Hc & [= <-]).
  assert (switch true (λ t, Some <$> es !! t) rn to = Some rn1) as (en & -> & Hall & Hen)%switch_spec.
  { rewrite <- Hc. apply foldM_ext. intros rn' x _. by destruct (es !! x). }
  exists es, rn, en. split_and!; try done.
  - intros e. rewrite Hen. case_decide as Hd.
    + split; [|done]. intros _. right. apply Exists_exists in Hd as (t & Ht & He). exists t. split; [done|].
      by destruct (es !! t); simplify_eq/=.
    + split; [by left|]. intros [?|(t & Ht & He)]; [done|]. destruct Hd. apply Exists_exists. exists t.
      by rewrite He.
  - intros t Ht. destruct (Hall t Ht) as [o Ho]. rewrite <- Hlen. apply lookup_lt_is_Some. by destruct (es !! t).
Qed.

(** The operations that only switch ends. *)
Definition switched cfg cfg' : Prop := ∃ en, cfg' = cfg <| net := cfg.(net) <| enabled := en |> |>.

Lemma switched_trans cfg1 cfg2 cfg3 : switched cfg1 cfg2 → switched cfg2 cfg3 → switched cfg1 cfg3.
Proof. intros [en1 ->] [en2 ->]. by exists en2. Qed.

Lemma foldM_switched {X} (f : config → X → option config) l cfg cfg' :
  (∀ c x c', f c x = Some c' → switched c c') → foldM f cfg l = Some cfg' → switched cfg cfg'.
Proof.
  intros Hf. revert cfg. induction l as [|x l IH]; intros cfg Hl; cbn [foldM] in Hl.
  - injection Hl as <-. exists cfg.(net).(enabled). by destruct cfg as [[]].
  - apply bind_Some in Hl as (c & Hc%Hf & Hl). eapply switched_trans; eauto.
Qed.

Lemma foldM_enabled {X} (f : @Network netname _ _ → X → option Network) l rn rn' :
  (∀ rn x rn', f rn x = Some rn' → ∃ en, rn' = rn <| enabled := en |>) →
  foldM f rn l = Some rn' → ∃ en, rn' = rn <| enabled := en |>.
Proof.
  intros Hf. revert rn. induction l as [|x l IH]; intros rn Hl; cbn [foldM] in Hl.
  - injection Hl as <-. exists rn.(enabled). by destruct rn.
  - apply bind_Some in Hl as (c & [en ->]%Hf & Hl). apply IH in Hl as [en' ->]. by exists en'.
Qed.


Lemma connectUnlocked_switched i to cfg cfg' : connectUnlocked i to cfg = Some cfg' → switched cfg cfg'.
Proof.
  unfold connectUnlocked. intros (rn1 & H1 & (rn2 & H2 & [= <-])%bind_Some)%bind_Some.
  apply foldM_enabled in H1 as [en1 ->]; [|intros c x c' (e & _ & [= <-])%bind_Some; by eexists].
  apply foldM_enabled in H2 as [en2 ->]; [|intros c x c' (e & _ & [= <-])%bind_Some; by eexists].
  by exists en2.
Qed.

Lemma disconnectUnlocked_switched i from cfg cfg' : disconnectUnlocked i from cfg = Some cfg' → switched cfg cfg'.
Proof.
  assert (∀ rn : @Network netname _ _, ∃ en, rn = rn <| enabled := en |>) as Hid by (intros []; by eexists).
  unfold disconnectUnlocked. intros (rn1 & H1 & (rn2 & H2 & [= <-])%bind_Some)%bind_Some.
  apply foldM_enabled in H1 as [en1 ->].
  2:{ intros c x c' (row & _ & Hr)%bind_Some. destruct row; [|injection Hr as <-; apply Hid].
      apply bind_Some in Hr as (e & _ & [= <-]). by eexists. }
  apply foldM_enabled in H2 as [en2 ->]; [by exists en2|].
  intros c [j x] c' (row & _ & Hr)%bind_Some. destruct row; [|injection Hr as <-; apply Hid].
  apply bind_Some in Hr as (e & _ & [= <-]). by eexists.
Qed.

Lemma partition_switched p1 p2 cfg cfg' : partition p1 p2 cfg = Some cfg' → switched cfg cfg'.
Proof.
  unfold partition. intros (c & H1 & H2)%bind_Some.
  eapply switched_trans; eapply foldM_switched; [|exact H1| |exact H2];
    intros c1 x c2 (c3 & ?%disconnectUnlocked_switched & ?%connectUnlocked_switched)%bind_Some;
    by eapply switched_trans.
Qed.

Lemma ConnectAll_switched cfg cfg' : ConnectAll cfg = Some cfg' → switched cfg cfg'.
Proof. apply foldM_switched. intros c x c'. apply connectUnlocked_switched. Qed.

Lemma ConnectClient_switched ck to cfg cfg' : ConnectClientUnlocked ck to cfg = Some cfg' → switched cfg cfg'.
Proof.
  unfold ConnectClientUnlocked. intros (rn & H1 & [= <-])%bind_Some.
  apply foldM_enabled in H1 as [en ->]; [by exists en|]. intros c x c' (e & _ & [= <-])%bind_Some. by eexists.
Qed.

Lemma DisconnectClient_switched ck from cfg cfg' : DisconnectClientUnlocked ck from cfg = Some cfg' → switched cfg cfg'.
Proof.
  unfold DisconnectClientUnlocked. intros (rn & H1 & [= <-])%bind_Some.
  apply foldM_enabled in H1 as [en ->]; [by exists en|]. intros c x c' (e & _ & [= <-])%bind_Some. by eexists.
Qed.

Record stopped (i : nat) cfg cfg' : Prop := {
  sp_net : ∃ c, disconnectUnlocked i (All cfg) cfg = Some c ∧ cfg'.(net) = DeleteServer (NInt i) c.(net);
  sp_i : i < length cfg.(saved) ∧ i < length cfg.(kvservers);
  sp_copy : cfg.(saved) !! i = Some None ∧ cfg'.(saved) = cfg.(saved) ∧ cfg'.(disks) = cfg.(disks) ∨
    ∃ d, cfg.(saved) !! i = Some (Some d) ∧ cfg'.(saved) = <[i := Some (length cfg.(disks))]> cfg.(saved) ∧
      cfg'.(disks) = cfg.(disks) ++ [persister_at i cfg];
  sp_kv : cfg'.(kvservers) = <[i := None]> cfg.(kvservers);
  sp_made : match cfg.(kvservers) !! i with
    | Some (Some p) => ∃ x, cfg.(made) !! p = Some x ∧
        cfg'.(made) = <[p := x <| i_server := kill x.(i_server) |>]> cfg.(made)
    | _ => cfg'.(made) = cfg.(made)
    end;
  sp_rest : cfg'.(n) = cfg.(n) ∧ cfg'.(endnames) = cfg.(endnames) ∧ cfg'.(clerks) = cfg.(clerks) ∧
    cfg'.(clients) = cfg.(clients) ∧ cfg'.(heap) = cfg.(heap)
}.

Lemma group_copy_saved_spec i cfg cfg' : copy_saved i cfg = Some cfg' →
  i < length cfg.(saved) ∧
  (cfg.(saved) !! i = Some None ∧ cfg' = cfg ∨
   ∃ d, cfg.(saved) !! i = Some (Some d) ∧
     cfg' = cfg <| disks := cfg.(disks) ++ [persister_at i cfg] |>
                <| saved := <[i := Some (length cfg.(disks))]> cfg.(saved) |>).
Proof.
  unfold copy_saved, persister_at. intros (s & Hs & Hf)%bind_Some. split; [by eapply lookup_lt_Some|].
  rewrite Hs. destruct s as [d|]; [right|by left; injection Hf as <-]. exists d. split; [done|].
  apply bind_Some in Hf as (p & Hp & Hf). rewrite Hp. cbn in Hf.
  apply bind_Some in Hf as (s & (Hi & ->)%set_at_Some & [= <-]). by destruct p.
Qed.

Lemma ShutdownServer_spec i cfg cfg' : ShutdownServer kill i cfg = Some cfg' → stopped i cfg cfg'.
Proof.
  unfold ShutdownServer. intros (c1 & H1 & Hs)%bind_Some.
  pose proof (disconnectUnlocked_switched _ _ _ _ H1) as [en Hc1]. 
  apply bind_Some in Hs as (c2 & [Hi Hcopy]%group_copy_saved_spec & Hs). cbn in Hi, Hcopy.
  assert (c2.(net) = DeleteServer (NInt i) c1.(net) ∧ c2.(kvservers) = cfg.(kvservers) ∧ c2.(made) = cfg.(made) ∧
    (c2.(n) = cfg.(n) ∧ c2.(endnames) = cfg.(endnames) ∧ c2.(clerks) = cfg.(clerks) ∧
     c2.(clients) = cfg.(clients) ∧ c2.(heap) = cfg.(heap)) ∧
    (cfg.(saved) !! i = Some None ∧ c2.(saved) = cfg.(saved) ∧ c2.(disks) = cfg.(disks) ∨
    ∃ d, cfg.(saved) !! i = Some (Some d) ∧ c2.(saved) = <[i := Some (length cfg.(disks))]> cfg.(saved) ∧
      c2.(disks) = cfg.(disks) ++ [persister_at i cfg])) as (Hn & Hk & Hm & Hr & Hc).
  { destruct Hcopy as [[? ->]|(d & ? & ->)]; rewrite Hc1 in *; split_and!; try done; [by left|right; by exists d]. }
  assert (length c1.(saved) = length cfg.(saved)) as Hl by (by rewrite Hc1). rewrite Hl in Hi. clear Hcopy Hl.
  rewrite Hk, Hm in Hs. apply bind_Some in Hs as (kv & Hkv & Hs).
  assert (i < length cfg.(kvservers)) as Hik by (by eapply lookup_lt_Some).
  destruct kv as [p|].
  - apply bind_Some in Hs as (x & Hx & Hs). apply bind_Some in Hs as (m & (_ & ->)%set_at_Some & Hs).
    apply bind_Some in Hs as (ks & (_ & ->)%set_at_Some & [= <-]).
    split; cbn; try done; [by exists c1|]. rewrite Hkv. by exists x.
  - injection Hs as <-. split; try done; [by exists c1| |by rewrite Hkv].
    by rewrite Hk, list_insert_id.
Qed.

(** ** What always holds *)

Record group_ok cfg : Prop := {
  g_sizes : length cfg.(endnames) = cfg.(n) ∧ length cfg.(kvservers) = cfg.(n) ∧ length cfg.(saved) = cfg.(n);
  g_row i row : cfg.(endnames) !! i = Some (Some row) → length row = cfg.(n);
  g_end i j e : end_at cfg.(endnames) i j = Some e →
    e ∈ cfg.(net).(ends) ∧ cfg.(net).(connections) !! e = Some (Some (NInt j));
  g_inj i j i' j' e : end_at cfg.(endnames) i j = Some e → end_at cfg.(endnames) i' j' = Some e →
    i = i' ∧ j = j';
  g_clerk ck es j e : cfg.(clerks) !! ck = Some es → es !! j = Some e →
    length es = cfg.(n) ∧ e ∈ cfg.(net).(ends) ∧ cfg.(net).(connections) !! e = Some (Some (NInt j)) ∧
    ∀ i k, end_at cfg.(endnames) i k ≠ Some e;
  g_disk p x : cfg.(made) !! p = Some x → x.(i_disk) < length cfg.(disks) ∧
    ∀ j, cfg.(saved) !! j = Some (Some x.(i_disk)) → j = x.(i_me);
  g_saved j d : cfg.(saved) !! j = Some (Some d) → d < length cfg.(disks) ∧
    ∀ k, cfg.(saved) !! k = Some (Some d) → k = j;
  g_server i sv : cfg.(net).(servers) !! NInt i = Some (Some sv) → sv < length cfg.(heap);
  g_run i p : cfg.(kvservers) !! i = Some (Some p) → ∃ x sv, cfg.(made) !! p = Some x ∧ x.(i_me) = i ∧
    cfg.(saved) !! i = Some (Some x.(i_disk)) ∧ cfg.(net).(servers) !! NInt i = Some (Some sv)
}.

Lemma end_at_insert (names : list (option (list netname))) i row a c e :
  i < length names → end_at (<[i := Some row]> names) a c = Some e ↔
  a = i ∧ row !! c = Some e ∨ a ≠ i ∧ end_at names a c = Some e.
Proof.
  intros Hi. unfold end_at. destruct (decide (a = i)) as [->|Hne].
  - rewrite list_lookup_insert_eq by done. cbn. tauto.
  - rewrite list_lookup_insert_ne by done. tauto.
Qed.

Lemma switched_ok cfg cfg' : switched cfg cfg' → group_ok cfg → group_ok cfg'.
Proof. intros [en ->] []. by split. Qed.

Lemma StartServer_ok i r cfg cfg' es rn kv srv : started i r cfg cfg' es rn kv srv → group_ok cfg → group_ok cfg'.
Proof.
  intros [[Hnd Hfr Hends Hnew Hold Hsrv] Hlen (Hi & Hi' & Hi'') _ Hnames Hsaved Hdisks Hmade Hkv Hheap Hnet Hn [Hck _]]
    [(S1 & S2 & S3) Hrow Hend Hinj Hclerk Hdisk Hsv Hserver Hrun].
  assert (∀ e, e ∈ cfg.(net).(ends) → e ∉ es) as Hnot by (intros e He Hin; by apply (Hfr e Hin)).
  assert (∀ a c e, end_at cfg.(endnames) a c = Some e → e ∉ es) as Hnot'.
  { intros a c e He. by apply Hnot, (Hend _ _ _ He). }
  assert (∀ e, e ∈ es → ∀ a c, end_at (endnames cfg) a c ≠ Some e) as Hnot''.
  { intros e He a c Ha. by apply (Hnot' _ _ _ Ha). }
  split; rewrite ?Hnames, ?Hsaved, ?Hdisks, ?Hmade, ?Hkv, ?Hheap, ?Hnet, ?Hn, ?Hck; cbn [AddServer ends connections servers over].
  - by rewrite !length_insert.
  - intros a row. destruct (decide (a = i)) as [->|?].
    + rewrite list_lookup_insert_eq by done. by intros [= <-].
    + rewrite list_lookup_insert_ne by done. apply Hrow.
  - intros a c e [[-> He]|[Hne He]]%end_at_insert; [| |done].
    + split; [apply Hends; left; by eapply list_elem_of_lookup_2|]. by apply Hnew.
    + destruct (Hend _ _ _ He) as [He1 He2]. split; [apply Hends; by right|].
      destruct (Hold e) as [_ ->]; [by eapply Hnot'|done].
  - intros a c a' c' e [[-> He]|[Hne He]]%end_at_insert [[-> He']|[Hne' He']]%end_at_insert; try done.
    + split; [done|]. by eapply NoDup_lookup.
    + by destruct (Hnot'' e (list_elem_of_lookup_2 _ _ _ He) a' c').
    + by destruct (Hnot'' e (list_elem_of_lookup_2 _ _ _ He') a c).
    + by eapply Hinj.
  - intros ck l j e Hl He. destruct (Hclerk _ _ _ _ Hl He) as (L1 & L2 & L3 & L4).
    split; [done|]. split; [apply Hends; by right|]. destruct (Hold e) as [_ ->]; [by apply Hnot|].
    split; [done|]. intros a c [[-> Hin]|[_ Ha]]%end_at_insert; [|by apply L4 in Ha|done].
    apply (Hnot e L2). by eapply list_elem_of_lookup_2.
  - intros p x [Hx|[Hp Hx]]%lookup_snoc_Some; rewrite length_app; cbn.
    + destruct Hx as [_ Hx]. destruct (Hdisk _ _ Hx) as [D1 D2]. split; [lia|]. intros j.
      destruct (decide (j = i)) as [->|]; [rewrite list_lookup_insert_eq by done; intros [=]; lia|].
      rewrite list_lookup_insert_ne by done. apply D2.
    + subst x. cbn. split; [lia|]. intros j. destruct (decide (j = i)) as [->|]; [done|].
      rewrite list_lookup_insert_ne by done. intros [? _]%Hsv. lia.
  - intros j d. rewrite length_app. cbn. destruct (decide (j = i)) as [->|Hne].
    + rewrite list_lookup_insert_eq by done. intros [= <-]. split; [lia|]. intros k.
      destruct (decide (k = i)) as [->|]; [done|]. rewrite list_lookup_insert_ne by done. intros [? _]%Hsv. lia.
    + rewrite list_lookup_insert_ne by done. intros Hd. destruct (Hsv _ _ Hd) as [D1 D2]. split; [lia|]. intros k.
      destruct (decide (k = i)) as [->|]; [rewrite list_lookup_insert_eq by done; intros [=]; lia|].
      rewrite list_lookup_insert_ne by done. apply D2.
  - intros a sv. rewrite length_app. cbn. destruct (decide (a = i)) as [->|].
    + rewrite lookup_insert_eq. intros [= <-]. lia.
    + rewrite lookup_insert_ne, Hsrv by congruence. intros ?%Hserver. lia.
  - intros a p. destruct (decide (a = i)) as [->|].
    + rewrite !list_lookup_insert_eq by done. intros [= <-]. eexists _, _.
      rewrite lookup_app_r, Nat.sub_diag, lookup_insert_eq by done. by split_and!.
    + rewrite !list_lookup_insert_ne by done. intros (x & sv & X1 & X2 & X3 & X4)%Hrun. exists x, sv.
      rewrite lookup_insert_ne, Hsrv by congruence. split_and!; try done. by apply lookup_app_l_Some.
Qed.

Lemma makeClient_ok to names draw cfg ck cfg' :
  makeClient to names draw cfg = Some (ck, cfg') → group_ok cfg → group_ok cfg'.
Proof.
  intros (es & rn & en & Hlen & [Hnd Hfr Hends Hnew Hold Hsrv] & -> & Hnet & _ & Hck & Hn & Hnames & Hkv & Hsaved & Hmade & Hdisks & Hheap & _)%makeClient_spec
    [HS Hrow Hend Hinj Hclerk Hdisk Hsv Hserver Hrun].
  assert (∀ e, e ∈ cfg.(net).(ends) → e ∉ es) as Hnot by (intros e He Hin; by apply (Hfr e Hin)).
  split; rewrite ?Hnames, ?Hsaved, ?Hdisks, ?Hmade, ?Hkv, ?Hheap, ?Hnet, ?Hn, ?Hck; cbn [ends connections servers over]; try done.
  - intros i j e [He1 He2]%Hend. split; [apply Hends; by right|]. destruct (Hold e) as [_ ->]; [by apply Hnot|done].
  - intros ck l j e. destruct (decide (ck = length (clients cfg))) as [->|Hne].
    + rewrite lookup_insert_eq. intros [= <-] He. assert (e ∈ es) as Hin by (by eapply list_elem_of_lookup_2).
      split; [done|]. split; [apply Hends; by left|]. split; [by apply Hnew|]. intros i k [Hi _]%Hend.
      by apply (Hnot e).
    + rewrite lookup_insert_ne by done. intros Hl He. destruct (Hclerk _ _ _ _ Hl He) as (? & Hin & ? & ?).
      split; [done|]. split; [apply Hends; by right|]. destruct (Hold e) as [_ ->]; [by apply Hnot|done].
  - intros i sv. rewrite Hsrv. apply Hserver.
  - intros i p (x & sv & ?)%Hrun. exists x, sv. by rewrite Hsrv.
Qed.

Lemma deleteClient_ok ck cfg : group_ok cfg → group_ok (deleteClient ck cfg).
Proof.
  intros [HS Hrow Hend Hinj Hclerk Hdisk Hsv Hserver Hrun]. split; try done.
  intros k l j e. cbn. rewrite lookup_delete_Some. intros [_ ?]. by apply (Hclerk k).
Qed.

Lemma made_insert (m : list (@instance A)) p x a q y :
  m !! p = Some x → <[p := x <| i_server := a |>]> m !! q = Some y →
  ∃ z, m !! q = Some z ∧ z.(i_disk) = y.(i_disk) ∧ z.(i_me) = y.(i_me) ∧ z.(i_ends) = y.(i_ends).
Proof.
  intros Hx [(<- & <- & _)|[? ?]]%list_lookup_insert_Some; [by exists x|by exists y].
Qed.

Lemma made_insert' (m : list (@instance A)) p x a q z :
  m !! p = Some x → m !! q = Some z →
  ∃ y, <[p := x <| i_server := a |>]> m !! q = Some y ∧ y.(i_disk) = z.(i_disk) ∧ y.(i_me) = z.(i_me).
Proof.
  intros Hx Hz. destruct (decide (p = q)) as [->|Hne].
  - rewrite list_lookup_insert_eq by (by eapply lookup_lt_Some). simplify_eq. by eexists.
  - rewrite list_lookup_insert_ne by done. by exists z.
Qed.

Lemma stopped_ok i cfg cfg' : stopped i cfg cfg' → group_ok cfg → group_ok cfg'.
Proof.
  intros [(c & [en ->]%disconnectUnlocked_switched & Hnet) [Hi Hi'] Hcopy Hkv Hmade (Hn & Hnames & Hck & _ & Hheap)]
    [(S1 & S2 & S3) Hrow Hend Hinj Hclerk Hdisk Hsv Hserver Hrun].
  assert (∀ p x, cfg'.(made) !! p = Some x → ∃ y, cfg.(made) !! p = Some y ∧
    y.(i_disk) = x.(i_disk) ∧ y.(i_me) = x.(i_me)) as Hold.
  { intros p x Hx. destruct (cfg.(kvservers) !! i) as [[q|]|]; [|rewrite Hmade in Hx; by exists x..].
    destruct Hmade as (z & Hz & E). rewrite E in Hx. destruct (made_insert _ _ _ _ _ _ Hz Hx) as (y & ? & ? & ? & _). eauto. }
  assert (∀ p x, cfg.(made) !! p = Some x → ∃ y, cfg'.(made) !! p = Some y ∧
    y.(i_disk) = x.(i_disk) ∧ y.(i_me) = x.(i_me)) as Hkeep.
  { intros p x Hx. destruct (cfg.(kvservers) !! i) as [[q|]|]; [|rewrite Hmade; by exists x..].
    destruct Hmade as (z & Hz & ->). by apply made_insert'. }
  assert (length cfg.(disks) ≤ length cfg'.(disks) ∧ length cfg'.(saved) = length cfg.(saved) ∧
    ∀ j d, cfg'.(saved) !! j = Some (Some d) →
      j = i ∧ d = length cfg.(disks) ∧ d < length cfg'.(disks) ∨ cfg.(saved) !! j = Some (Some d)) as (Hle & Hls & Hnew).
  { destruct Hcopy as [(_ & -> & ->)|(d & _ & -> & ->)]; [by auto|].
    rewrite length_app, length_insert. cbn. split_and!; [lia|done|]. intros j d' [(-> & [= <-] & _)|[_ ?]]%list_lookup_insert_Some; [left|by right].
    split_and!; [done..|lia]. }
  split; rewrite ?Hnames, ?Hkv, ?Hheap, ?Hnet, ?Hn, ?Hck; cbn [DeleteServer ends connections servers over net]; try done.
  - rewrite length_insert. by rewrite Hls.
  - intros p x (y & Hy & E1 & E2)%Hold. destruct (Hdisk _ _ Hy) as [D1 D2]. rewrite <- E1, <- E2.
    split; [lia|]. intros j [(-> & ? & _)|?]%Hnew; [lia|auto].
  - intros j d Hd. split; [apply Hnew in Hd as [(_ & _ & ?)|[? _]%Hsv]; lia|].
    intros k Hk. apply Hnew in Hd as [(-> & -> & _)|[? Hd]%Hsv], Hk as [(-> & ? & _)|Hk]; try done; try lia; [|auto].
    apply Hsv in Hk as [? _]. lia.
  - intros j sv. destruct (decide (j = i)) as [->|]; [by rewrite lookup_insert_eq|].
    rewrite lookup_insert_ne by congruence. apply Hserver.
  - intros j p. destruct (decide (j = i)) as [->|Hne]; [rewrite list_lookup_insert_eq by done; done|].
    rewrite list_lookup_insert_ne by done. intros (x & sv & X1 & X2 & X3 & X4)%Hrun.
    destruct (Hkeep _ _ X1) as (y & Y1 & Y2 & Y3). exists y, sv. rewrite lookup_insert_ne by congruence.
    rewrite Y2, Y3. split_and!; try done.
    destruct Hcopy as [(_ & -> & _)|(d & _ & -> & _)]; [done|by rewrite list_lookup_insert_ne].
Qed.

(** ** Everything that happens *)

Context (encode : V → bytes) (decode : T → bytes → option V) (zero : T → V).

(** What the harness does between the steps of the network. *)
Inductive gstep : config → config → Prop :=
  | gs_start i names r cfg cfg' : StartServer raft_of start services_of i names r cfg = Some cfg' → gstep cfg cfg'
  | gs_shutdown i cfg cfg' : ShutdownServer kill i cfg = Some cfg' → gstep cfg cfg'
  | gs_connect i to cfg cfg' : connectUnlocked i to cfg = Some cfg' → gstep cfg cfg'
  | gs_disconnect i from cfg cfg' : disconnectUnlocked i from cfg = Some cfg' → gstep cfg cfg'
  | gs_connect_all cfg cfg' : ConnectAll cfg = Some cfg' → gstep cfg cfg'
  | gs_partition p1 p2 cfg cfg' : partition p1 p2 cfg = Some cfg' → gstep cfg cfg'
  | gs_client to names draw ck cfg cfg' : makeClient to names draw cfg = Some (ck, cfg') → gstep cfg cfg'
  | gs_delete ck cfg : gstep cfg (deleteClient ck cfg)
  | gs_connect_client ck to cfg cfg' : ConnectClientUnlocked ck to cfg = Some cfg' → gstep cfg cfg'
  | gs_disconnect_client ck from cfg cfg' : DisconnectClientUnlocked ck from cfg = Some cfg' → gstep cfg cfg'
  | gs_reliable b cfg : gstep cfg (cfg <| net := Reliable b cfg.(net) |>)
  | gs_reorder b cfg : gstep cfg (cfg <| net := LongReordering b cfg.(net) |>)
  | gs_delays b cfg : gstep cfg (cfg <| net := LongDelays b cfg.(net) |>).

(** The server [p], even one that was shut down, goes on: it writes to its persister. *)
Definition run (p : nat) (x : @instance A) (a : A) cfg : config :=
  cfg <| made := <[p := x <| i_server := a |>]> cfg.(made) |>
      <| disks := <[x.(i_disk) := (raft_of a).(persister)]> cfg.(disks) |>.

Local Abbreviation world := (@world netname _ _ V T W).

Inductive lstep : config * world → config * world → Prop :=
  | ls_harness cfg cfg' w : gstep cfg cfg' →
      lstep (cfg, w) (cfg', w <| rn := cfg'.(net) |> <| Labrpc.heap := cfg'.(heap) |>)
  | ls_run p x a cfg w : cfg.(made) !! p = Some x → lstep (cfg, w) (run p x a cfg, w)
  | ls_traffic l cfg w w' : (∀ o, l ≠ LNet o) → exec encode decode zero l w = Some w' →
      lstep (cfg, w) (cfg <| net := w'.(rn) |> <| heap := w'.(Labrpc.heap) |>, w').

Definition sync (s : config * world) : Prop := s.2.(rn) = s.1.(net) ∧ s.2.(Labrpc.heap) = s.1.(heap).

Lemma lstep_sync s s' : lstep s s' → sync s → sync s'.
Proof. by intros [] [? ?]. Qed.

Lemma gstep_ok cfg cfg' : gstep cfg cfg' → group_ok cfg → group_ok cfg'.
Proof.
  intros Hst. destruct Hst as [i names r c c' (es & rn & kv & srv & Hs)%StartServer_spec|i c c' Hs%ShutdownServer_spec| | | | | | | | | | |].
  - by eapply StartServer_ok.
  - by eapply stopped_ok.
  - by eapply switched_ok, connectUnlocked_switched.
  - by eapply switched_ok, disconnectUnlocked_switched.
  - by eapply switched_ok, ConnectAll_switched.
  - by eapply switched_ok, partition_switched.
  - by eapply makeClient_ok.
  - apply deleteClient_ok.
  - by eapply switched_ok, ConnectClient_switched.
  - by eapply switched_ok, DisconnectClient_switched.
  - by intros [].
  - by intros [].
  - by intros [].
Qed.

Lemma group_run_ok p x a cfg : cfg.(made) !! p = Some x → group_ok cfg → group_ok (run p x a cfg).
Proof.
  intros Hx [HS Hrow Hend Hinj Hclerk Hdisk Hsv Hserver Hrun]. split; cbn; try done; rewrite ?length_insert; try done.
  - intros q y Hy. destruct (made_insert _ _ _ _ _ _ Hx Hy) as (z & Hz & <- & <- & _). by apply (Hdisk q).
  - intros i q (y & sv & Hy & ? & ? & ?)%Hrun. destruct (made_insert' _ _ _ a _ _ Hx Hy) as (z & ? & E1 & E2).
    exists z, sv. by rewrite E1, E2.
Qed.

Lemma lstep_ok s s' : lstep s s' → sync s → group_ok s.1 → group_ok s'.1.
Proof.
  intros Hst. destruct Hst as [c c' w|p x a c w|l c w w' Hl Hex].
  - intros _. by apply gstep_ok.
  - intros _. by apply group_run_ok.
  - intros [Hn Hh] [HS Hrow Hend Hinj Hclerk Hdisk Hsv Hserver Hrun]. cbn [fst snd] in *.
    destruct (exec_links _ _ _ _ _ _ Hl Hex) as (E1 & E2 & E3 & E4 & Hheap).
    split; cbn; rewrite ?E1, ?E2, ?E3, ?E4, ?Hn; try done.
    intros i sv [rs Hrs]%Hserver%lookup_lt_is_Some. rewrite Hh in Hheap.
    destruct (Hheap _ _ Hrs) as (rs' & ? & _). by eapply lookup_lt_Some.
Qed.

(** ** Every server is started first *)

Definition all_started cfg : Prop := ∀ i, i < cfg.(n) → ∃ row, cfg.(endnames) !! i = Some (Some row).

Lemma gstep_rows cfg cfg' : gstep cfg cfg' → cfg'.(n) = cfg.(n) ∧
  (∀ i row, cfg.(endnames) !! i = Some (Some row) → ∃ row', cfg'.(endnames) !! i = Some (Some row')).
Proof.
  assert (∀ c c' : config, switched c c' → n c' = n c ∧ ∀ i row, endnames c !! i = Some (Some row) →
    ∃ row', endnames c' !! i = Some (Some row')) as Hsw by (intros c c' [en ->]; eauto).
  intros Hst. destruct Hst as [i names r c c' (es & rn & kv & srv & Hs)%StartServer_spec|i c c' Hs%ShutdownServer_spec
    | | | | |to names draw ck c c' (? & ? & ? & ? & ? & ? & ? & ? & ? & ? & E & ?)%makeClient_spec| | | | | |].
  - split; [apply Hs|]. intros j row Hj. rewrite (st_names _ _ _ _ _ _ _ _ Hs).
    destruct (decide (j = i)) as [->|]; [rewrite list_lookup_insert_eq by apply Hs|rewrite list_lookup_insert_ne by done]; eauto.
  - destruct Hs as [_ _ _ _ _ (E1 & E2 & _)]. rewrite E1, E2. eauto.
  - by eapply Hsw, connectUnlocked_switched.
  - by eapply Hsw, disconnectUnlocked_switched.
  - by eapply Hsw, ConnectAll_switched.
  - by eapply Hsw, partition_switched.
  - rewrite E. eauto.
  - eauto.
  - by eapply Hsw, ConnectClient_switched.
  - by eapply Hsw, DisconnectClient_switched.
  - eauto.
  - eauto.
  - eauto.
Qed.

Lemma lstep_started s s' : lstep s s' → all_started s.1 → all_started s'.1.
Proof.
  intros [c c' w Hst|p x a c w _|l c w w' _ _]; [|done..]. cbn. intros Ha i.
  destruct (gstep_rows _ _ Hst) as [-> Hr]. intros [row Hi]%Ha. eauto.
Qed.

Lemma group_empty_ok m : group_ok (empty_config m).
Proof.
  assert (∀ X (x : X) i y, replicate m x !! i = Some y → y = x) as Hrep.
  { by intros X x i y [-> _]%lookup_replicate. }
  split; cbn; try done; try (by intros ? ? ?%Hrep).
  - by rewrite !length_replicate.
  - unfold end_at. intros i j e. destruct (replicate m None !! i) as [row|] eqn:Hi; [|done].
    by rewrite (Hrep _ _ _ _ Hi).
  - unfold end_at. intros i j i' j' e. destruct (replicate m None !! i) as [row|] eqn:Hi; [|done].
    by rewrite (Hrep _ _ _ _ Hi).
Qed.

Lemma make_config_spec m unreliable names rs cfg :
  make_config raft_of start services_of m unreliable names rs = Some cfg →
  group_ok cfg ∧ all_started cfg ∧ cfg.(n) = m.
Proof.
  unfold make_config. intros (c1 & H1 & (c2 & H2 & [= <-])%bind_Some)%bind_Some.
  assert (∀ k, k ≤ m → ∀ c, foldM (λ cfg i, StartServer raft_of start services_of i (names i) (rs i) cfg) (empty_config m) (seq 0 k) = Some c →
    group_ok c ∧ c.(n) = m ∧ ∀ i, i < k → ∃ row, c.(endnames) !! i = Some (Some row)) as Hloop.
  { induction k as [|k IH]; intros Hk c Hf.
    - injection Hf as <-. split; [apply group_empty_ok|]. split; [done|]. lia.
    - rewrite seq_S, foldM_app in Hf. apply bind_Some in Hf as (c0 & Hc0 & Hf).
      destruct (IH ltac:(lia) _ Hc0) as (Hok & Hn & Hr). apply bind_Some in Hf as (c' & Hst & [= <-]). cbn in Hst.
      apply StartServer_spec in Hst as (es & rn & kv & srv & Hst). split; [by eapply StartServer_ok|].
      destruct Hst as [_ _ (Hi & _) _ E _ _ _ _ _ _ En _]. split; [congruence|]. rewrite E. intros i Hik.
      destruct (decide (i = k)) as [->|]; [rewrite list_lookup_insert_eq by done; eauto|].
      rewrite list_lookup_insert_ne by done. apply Hr. lia. }
  destruct (Hloop m ltac:(lia) _ H1) as (Hok & Hn & Hr). apply ConnectAll_switched in H2.
  apply (switched_ok _ _ H2) in Hok. destruct H2 as [en ->]. cbn in *.
  split; [by destruct Hok|]. split; [|done]. intros i. cbn. rewrite Hn. apply Hr.
Qed.

(** The harness was made, and then anything happened. *)
Definition reachable (m : nat) (s : config * world) : Prop :=
  ∃ unreliable names rs cfg w, make_config raft_of start services_of m unreliable names rs = Some cfg ∧
    sync (cfg, w) ∧ rtc lstep (cfg, w) s.

Lemma lsteps_ok s s' : rtc lstep s s' → group_ok s.1 → all_started s.1 → sync s →
  group_ok s'.1 ∧ all_started s'.1 ∧ sync s' ∧ s'.1.(n) = s.1.(n).
Proof.
  induction 1 as [s|s s1 s' Hst _ IH]; [done|]. intros Hok Ha Hs.
  assert (s1.1.(n) = s.1.(n)) as Hn.
  { destruct Hst as [c c' w Hst|p x a c w _|l c w w' _ _]; [|done..]. by destruct (gstep_rows _ _ Hst). }
  rewrite <- Hn. apply IH; [by eapply lstep_ok|by eapply lstep_started|by eapply lstep_sync].
Qed.

Lemma group_reachable_ok m s : reachable m s → group_ok s.1 ∧ all_started s.1 ∧ sync s ∧ s.1.(n) = m.
Proof.
  intros (u & names & rs & cfg & w & (Hok & Ha & Hn)%make_config_spec & Hs & Hst).
  destruct (lsteps_ok _ _ Hst) as (? & ? & ? & Hn'); [done..|]. cbn in Hn'. split_and!; try done. congruence.
Qed.

(** *** After a server was shut down *)

(** No server uses the persister [d] any more. *)
Definition retired (d : nat) cfg : Prop :=
  d < length cfg.(disks) ∧ ∀ j, cfg.(saved) !! j ≠ Some (Some d).

(** The server object [sv] is not the one called [i] any more. *)
Definition unused (i sv : nat) cfg : Prop :=
  sv < length cfg.(heap) ∧ cfg.(net).(servers) !! NInt i ≠ Some (Some sv).

Lemma gstep_retired d cfg cfg' : gstep cfg cfg' → retired d cfg → retired d cfg'.
Proof.
  assert (∀ c c' : config, switched c c' → retired d c → retired d c') as Hsw by (by intros c c' [en ->]).
  intros Hst. destruct Hst as [i names r c c' (es & rn & kv & srv & Hs)%StartServer_spec|i c c' Hs%ShutdownServer_spec
    | | | | |to names draw ck c c' (? & ? & ? & ? & ? & ? & ? & ? & ? & ? & ? & ? & E1 & ? & E2 & ?)%makeClient_spec| | | | | |];
    try done.
  - destruct Hs as [_ _ (_ & Hi & _) _ _ E1 E2 _ _ _ _ _ _]. intros [Hd Hno]. unfold retired.
    rewrite E1, E2, length_app. split; [lia|]. intros j. cbn.
    intros [(_ & [= <-] & _)|[_ Hj]]%list_lookup_insert_Some; [lia|by apply Hno in Hj].
  - intros [Hd Hno]. unfold retired.
    destruct (sp_copy _ _ _ Hs) as [(_ & -> & ->)|(d' & _ & -> & ->)]; [done|]. rewrite length_app. split; [lia|].
    intros j. intros [(_ & [= <-] & _)|[_ Hj]]%list_lookup_insert_Some; [lia|by apply Hno in Hj].
  - by eapply Hsw, connectUnlocked_switched.
  - by eapply Hsw, disconnectUnlocked_switched.
  - by eapply Hsw, ConnectAll_switched.
  - by eapply Hsw, partition_switched.
  - unfold retired. by rewrite E1, E2.
  - by eapply Hsw, ConnectClient_switched.
  - by eapply Hsw, DisconnectClient_switched.
Qed.

Lemma gstep_unused i sv cfg cfg' : gstep cfg cfg' → unused i sv cfg → unused i sv cfg'.
Proof.
  assert (∀ c c' : config, switched c c' → unused i sv c → unused i sv c') as Hsw by (by intros c c' [en ->]).
  intros Hst. destruct Hst as [j names r c c' (es & rn & kv & srv & Hs)%StartServer_spec|j c c' Hs%ShutdownServer_spec
    | | | | |to names draw ck c c' (? & ? & ? & ? & [_ _ _ _ _ Hsv] & ? & E1 & ? & ? & ? & ? & ? & ? & ? & ? & E2 & ?)%makeClient_spec| | | | | |];
    try done.
  - destruct Hs as [[_ _ _ _ _ Hsv] _ _ _ _ _ _ _ _ E1 E2 _ _]. intros [Hd Hno]. unfold unused.
    rewrite E1, E2, length_app. split; [lia|]. cbn. destruct (decide (j = i)) as [->|].
    + rewrite lookup_insert_eq. intros [= <-]. lia.
    + rewrite lookup_insert_ne, Hsv by congruence. done.
  - destruct Hs as [(c1 & [en ->]%disconnectUnlocked_switched & E1) _ _ _ _ (_ & _ & _ & _ & E2)].
    intros [Hd Hno]. unfold unused. rewrite E1, E2. split; [done|]. cbn. destruct (decide (j = i)) as [->|].
    + by rewrite lookup_insert_eq.
    + by rewrite lookup_insert_ne by congruence.
  - by eapply Hsw, connectUnlocked_switched.
  - by eapply Hsw, disconnectUnlocked_switched.
  - by eapply Hsw, ConnectAll_switched.
  - by eapply Hsw, partition_switched.
  - unfold unused. rewrite E1, E2. cbn. by rewrite Hsv.
  - by eapply Hsw, ConnectClient_switched.
  - by eapply Hsw, DisconnectClient_switched.
Qed.

Lemma lsteps_retired d s s' : rtc lstep s s' → retired d s.1 → retired d s'.1.
Proof.
  induction 1 as [s|s s1 s' Hst _ IH]; [done|]. intros Hd. apply IH.
  destruct Hst as [c c' w Hst|p x a c w _|l c w w' _ _]; [by eapply gstep_retired| |done].
  destruct Hd as [Hd Hno]. split; [|done]. cbn. by rewrite length_insert.
Qed.

Lemma lstep_unanswered i sv k s s' : lstep s s' → sync s → unused i sv s.1 →
  unanswered (NInt i) sv k s.2 → unused i sv s'.1 ∧ unanswered (NInt i) sv k s'.2.
Proof.
  intros Hst. destruct Hst as [c c' w Hst|p x a c w Hp|l c w w' Hl Hex]; cbn; intros [Hn Hh] Hu Ht; [|done|].
  { split; [by eapply gstep_unused|done]. }
  cbn in Hn, Hh. destruct (exec_links _ _ _ _ _ _ Hl Hex) as (_ & _ & E3 & _ & Hheap).
  destruct Hu as [Hlt Hno]. rewrite <- Hn in Hno. split.
  - split; cbn; [|by rewrite E3]. apply lookup_lt_is_Some in Hlt as [rs Hrs]. rewrite <- Hh in Hrs.
    destruct (Hheap _ _ Hrs) as (rs' & ? & _). by eapply lookup_lt_Some.
  - eapply exec_unanswered; [exact Hex| |done]. unfold gone.
    destruct (servers (Labrpc.rn w) !! NInt i) as [[sv'|]|]; cbn; congruence.
Qed.

Lemma lsteps_unanswered i sv k s s' : rtc lstep s s' → sync s → unused i sv s.1 →
  unanswered (NInt i) sv k s.2 → unanswered (NInt i) sv k s'.2.
Proof.
  induction 1 as [s|s s1 s' Hst _ IH]; [done|]. intros Hs Hu Ht.
  destruct (lstep_unanswered _ _ _ _ _ Hst Hs Hu Ht). apply IH; [by eapply lstep_sync|done..].
Qed.

Lemma started_rows_ok cfg : group_ok cfg → all_started cfg → rows_ok cfg.
Proof.
  intros Hok Ha. split; [apply Hok| |apply Hok]. intros i [row Hi]%Ha. exists row. split; [done|].
  by apply (g_row _ Hok i).
Qed.

Lemma find_leader_spec ss cfg b l : find_leader raft_of ss cfg = Some (b, l) →
  if b then l ∈ ss ∧ ∃ p x, cfg.(kvservers) !! l = Some (Some p) ∧ cfg.(made) !! p = Some x ∧
    (GetState (raft_of x.(i_server))).2 = true
  else l = 0.
Proof.
  induction ss as [|i ss IH]; cbn; [by intros [= <- <-]|].
  intros (o & Ho & (p & -> & (x & Hx & Hl)%bind_Some)%bind_Some)%bind_Some. case_match eqn:Hg.
  - injection Hl as <- <-. split; [by left|]. eauto 10.
  - apply IH in Hl. destruct b; [|done]. destruct Hl as [? Hl]. split; [by right|done].
Qed.

(** With an odd number of servers the two slices are the two parts of the servers. *)
Lemma deal_odd m l : 3 ≤ m → Nat.odd m = true → l < m →
  ∃ p1 p2, deal m l = Some (p1, p2) ∧ p1 ++ p2 ≡ₚ seq 0 m ∧ l ∈ p2 ∧ length p2 < length p1.
Proof.
  intros Hm Hodd Hl. destruct (deal_spec m l) as (p1 & p2 & Hd & H1 & H2 & Hlast & Happ); [lia|done|].
  exists p1, p2. split; [done|].
  assert (Nat.modulo m 2 = 1) as Hmod.
  { apply Nat.odd_spec in Hodd as [k ->]. div_lia. }
  rewrite Hmod in Happ. cbn in Happ. split; [|split; [|lia]].
  - rewrite Happ. apply NoDup_Permutation; [|apply NoDup_seq|].
    + apply NoDup_app. split_and!; [apply NoDup_filter, NoDup_seq| |apply NoDup_singleton].
      intros x [? _]%list_elem_of_filter ?%list_elem_of_singleton. done.
    + intros x. rewrite elem_of_app, list_elem_of_filter, list_elem_of_singleton, elem_of_seq.
      destruct (decide (x = l)) as [->|]; [|tauto]. split; [lia|by right].
  - rewrite last_lookup in Hlast. by eapply list_elem_of_lookup_2.
Qed.

Lemma ShutdownServer_total i cfg :
  group_ok cfg → all_started cfg → i < cfg.(n) → is_Some (ShutdownServer kill i cfg).
Proof.
  intros Hok Ha Hi. pose proof (g_sizes _ Hok) as (S1 & S2 & S3).
  assert (rows_ok cfg) as Hrows by (by apply started_rows_ok).
  destruct (disconnectUnlocked_spec cfg i (All cfg)) as (c1 & H1 & en & -> & _); [done|done| |by unfold All; rewrite length_seq|].
  { apply Forall_forall. unfold All. intros x ?%elem_of_seq. lia. }
  unfold ShutdownServer. rewrite H1. cbn [mbind option_bind]. unfold copy_saved. cbn.
  destruct (lookup_lt_is_Some_2 cfg.(saved) i ltac:(lia)) as [s Hs].
  destruct (lookup_lt_is_Some_2 cfg.(kvservers) i ltac:(lia)) as [kv Hkv].
  rewrite Hs. cbn [mbind option_bind].
  assert (∀ c : config, c.(kvservers) = cfg.(kvservers) → c.(made) = cfg.(made) →
    is_Some (kv ← c.(kvservers) !! i;
      match kv with
      | None => Some c
      | Some p => x ← c.(made) !! p; m ← set_at c.(made) p (x <| i_server := kill x.(i_server) |>);
          ks ← set_at c.(kvservers) i None; Some (c <| made := m |> <| kvservers := ks |>)
      end)) as Hend.
  { intros c -> ->. rewrite Hkv. cbn. destruct kv as [p|]; [|by eexists].
    destruct (g_run _ Hok _ _ Hkv) as (x & sv & Hx & _). rewrite Hx. cbn. unfold set_at.
    rewrite !decide_True by (by eapply lookup_lt_Some). by eexists. }
  destruct s as [d|]; [|by apply Hend].
  destruct (g_saved _ Hok _ _ Hs) as [Hd _]. destruct (lookup_lt_is_Some_2 _ _ Hd) as [p Hp]. rewrite Hp.
  cbn. assert (∀ x, set_at cfg.(saved) i x = Some (<[i := x]> cfg.(saved))) as ->.
  { intros x. unfold set_at. by rewrite decide_True by lia. }
  cbn [mbind option_bind]. by apply Hend.
Qed.

(** C21: Around a leader, of an odd number of at least three servers, [make_partition] and
    [partition] always succeed: every server is in exactly one part, the leader in the
    smaller one, and from then on a message goes from a server to another exactly when
    they are in the same part; the clients keep their connections.  This holds whatever the
    test, the servers and the network did since the harness was made. *)
Theorem partition_isolates_leader m cfg w b l :
  reachable m (cfg, w) → 3 ≤ m → Nat.odd m = true → Leader raft_of cfg = Some (b, l) →
  ∃ p1 p2 cfg', make_partition raft_of cfg = Some (p1, p2) ∧ partition p1 p2 cfg = Some cfg' ∧
    p1 ++ p2 ≡ₚ seq 0 m ∧ l ∈ p2 ∧ length p2 < length p1 ∧
    (∀ i j e, end_at cfg'.(endnames) i j = Some e →
      cfg'.(net).(connections) !! e = Some (Some (NInt j)) ∧
      ((readEndnameInfo e cfg'.(net)).(i_enabled) = true ↔ together p1 p2 i j)) ∧
    ∀ ck es e, cfg.(clerks) !! ck = Some es → e ∈ es →
      cfg'.(net).(enabled) !! e = cfg.(net).(enabled) !! e.
Proof.
  intros (Hok & Ha & _ & Hn)%group_reachable_ok Hm Hodd HL. cbn in Hok, Ha, Hn.
  assert (l < m) as Hl.
  { apply find_leader_spec in HL. destruct b; [|lia]. destruct HL as [Hin%elem_of_seq _]. lia. }
  destruct (deal_odd m l) as (p1 & p2 & Hd & Hperm & Hin & Hlt); [done..|].
  destruct (partition_spec p1 p2 cfg) as (cfg' & Hp & en & -> & Hset & Hrest);
    [by apply started_rows_ok|by rewrite Hn|].
  exists p1, p2. eexists. split; [unfold make_partition; rewrite HL; cbn; by rewrite Hn|]. split; [exact Hp|].
  split_and!; try done.
  - cbn. intros i j e He. split; [by apply (g_end _ Hok _ _ _ He)|]. rewrite (Hset _ _ _ He), decide_True.
    { case_bool_decide; cbn; by split. }
    destruct (g_sizes _ Hok) as (S1 & _). unfold end_at in He.
    destruct (endnames cfg !! i) as [[row|]|] eqn:Hi; cbn in He; [|done..].
    apply (g_row _ Hok) in Hi as Hr. apply lookup_lt_Some in He, Hi. lia.
  - cbn. intros ck es e Hck (j & Hj)%list_elem_of_lookup. apply Hrest.
    apply (g_clerk _ Hok _ _ _ _ Hck Hj).
Qed.

(** C20: [ShutdownServer] always succeeds, and it is final.  The server's links are down, the
    next one will start from what it persisted.  Whatever happens afterwards (the old server
    goes on, servers are started, the network delivers): no request that was with the
    server is ever answered by more than a failure, and what the old server still persists
    goes to a persister that no later server is started from; so it never acknowledges
    what is then lost. *)
Theorem shutdown_is_final m cfg w i :
  reachable m (cfg, w) → i < m →
  ∃ cfg1, ShutdownServer kill i cfg = Some cfg1 ∧
    (∀ j e, end_at cfg1.(endnames) i j = Some e ∨ end_at cfg1.(endnames) j i = Some e →
      (readEndnameInfo e cfg1.(net)).(i_enabled) = false) ∧
    persister_at i cfg1 = persister_at i cfg ∧
    ∀ cfg' w', rtc lstep (cfg1, w <| rn := cfg1.(net) |> <| Labrpc.heap := cfg1.(heap) |>) (cfg', w') →
      (∀ p x, cfg.(kvservers) !! i = Some (Some p) → cfg.(made) !! p = Some x →
        ∀ j, cfg'.(saved) !! j ≠ Some (Some x.(i_disk))) ∧
      (∀ sv k t, cfg.(net).(servers) !! NInt i = Some (Some sv) →
        w.(threads) !! k = Some t → waits_on (NInt i) sv t →
        ∃ t', w'.(threads) !! k = Some t' ∧ (waits_on (NInt i) sv t' ∨ t'.(t_pc) = Replied no_reply)).
Proof.
  intros (Hok & Ha & Hsync & Hn)%group_reachable_ok Hi. cbn in Hok, Ha, Hn. rewrite <- Hn in Hi.
  destruct (ShutdownServer_total i cfg Hok Ha Hi) as [cfg1 H1]. exists cfg1. split; [done|].
  apply ShutdownServer_spec in H1 as [(c & Hc & Hnet) [Hs Hk] Hcopy Hkv Hmade (En & Enames & Eck & Ecl & Eheap)].
  split_and!.
  - rewrite Enames. intros j e He.
    destruct (disconnectUnlocked_spec cfg i (All cfg)) as (c' & Hc' & en & E & Hset & _);
      [by apply started_rows_ok|done| |by unfold All; rewrite length_seq|].
    { apply Forall_forall. unfold All. intros x ?%elem_of_seq. lia. }
    rewrite Hc in Hc'. injection Hc' as ->. rewrite Hnet, E. cbn.
    assert (∀ a c, end_at (endnames cfg) a c = Some e → a < cfg.(n) ∧ c < cfg.(n)) as Hb.
    { unfold end_at. intros a b Hac. destruct (endnames cfg !! a) as [[row|]|] eqn:Hr; cbn in Hac; [|done..].
      pose proof (g_sizes _ Hok) as (S1 & _). apply (g_row _ Hok) in Hr as Hl. apply lookup_lt_Some in Hac, Hr. lia. }
    destruct He as [He|He]; rewrite (Hset _ _ _ He), decide_True; try done; destruct (Hb _ _ He);
      [left|right]; (split; [done|apply elem_of_seq; lia]).
  - unfold persister_at at 1. destruct Hcopy as [(E & E1 & E2)|(d & E & -> & ->)].
    + unfold persister_at. by rewrite E1, E.
    + rewrite list_lookup_insert_eq by done. by rewrite lookup_app_r, Nat.sub_diag.
  - intros cfg' w' Hst. split.
    + intros p x Hp Hx. destruct (g_run _ Hok _ _ Hp) as (y & _ & Hy & _ & Hsv & _).
      rewrite Hx in Hy. injection Hy as <-.
      destruct (g_saved _ Hok _ _ Hsv) as [Hd Hone].
      assert (retired x.(i_disk) cfg1) as Hret.
      { destruct Hcopy as [(E & _)|(d & E & E1 & E2)]; [congruence|].
        unfold retired. rewrite E1, E2, length_app. split; [lia|].
        intros j [(_ & [=] & _)|[Hne Hj]]%list_lookup_insert_Some; [lia|]. by apply Hne, eq_sym, Hone. }
      apply (lsteps_retired _ _ _ Hst Hret).
    + intros sv k t Hsv Hk' Ht. apply (lsteps_unanswered i sv k _ _ Hst); [done| |by exists t; auto].
      cbn. split; [rewrite Eheap; by apply (g_server _ Hok i)|]. rewrite Hnet. cbn. by rewrite lookup_insert_eq.
Qed.
End group.
