(* ===== verification/ShardMaster.v ===== *)
(** The shard master as it stands ([src/src/shardmaster]): its data, the server, whose
    handlers do nothing yet, and the client's retry loops.

    As in [KVClient], the network and the servers are a function: what the [k]-th call
    sees when it goes to a server.  A loop runs for a number of rounds through the
    servers; [None] is a loop still running. *)
From S2P Require Import Prelude Gob Iface RaftTypes RaftPersist RaftLog RaftLeader GobImpl KVServer.
Open Scope Z_scope.

(** ** Data ([common.go]) *)

Definition NShards : Z := 10.

Module Config.
Record t := mk { Num : Z; Shards : list Z; Groups : gomap Z (list string) }.
(** A configuration whose fields were not set; [Shards] is an array. *)
Definition zero : t := mk 0 (replicate (Z.to_nat NShards) 0) None.
End Config.

Module JoinArgs.
Record t := mk { Servers : gomap Z (list string) }.
End JoinArgs.

Module LeaveArgs.
Record t := mk { GIDs : list Z }.
End LeaveArgs.

Module MoveArgs.
Record t := mk { Shard : Z; GID : Z }.
End MoveArgs.

Module QueryArgs.
Record t := mk { Num : Z }.
End QueryArgs.

(** The replies of [Join], [Leave] and [Move]. *)
Module Reply.
Record t := mk { WrongLeader : bool; Err : string }.
Definition zero : t := mk false "".
End Reply.

Module QueryReply.
Record t := mk { WrongLeader : bool; Err : string; Config : Config.t }.
Definition zero : t := mk false "" Config.zero.
End QueryReply.

(** ** The server ([server.go]) *)

Record ShardMaster := mkShardMaster { sm_me : Z; sm_rf : Raft; configs : list Config.t }.

(** The handlers leave the server and the reply as they are. *)
Definition Join (_ : JoinArgs.t) (reply : Reply.t) (sm : ShardMaster) : ShardMaster * Reply.t := (sm, reply).
Definition Leave (_ : LeaveArgs.t) (reply : Reply.t) (sm : ShardMaster) : ShardMaster * Reply.t := (sm, reply).
Definition Move (_ : MoveArgs.t) (reply : Reply.t) (sm : ShardMaster) : ShardMaster * Reply.t := (sm, reply).
Definition Query_handler (_ : QueryArgs.t) (reply : QueryReply.t) (sm : ShardMaster)
    : ShardMaster * QueryReply.t := (sm, reply).

Definition sm_Kill (sm : ShardMaster) : ShardMaster := mkShardMaster sm.(sm_me) (Kill sm.(sm_rf)) sm.(configs).
Definition sm_Raft (sm : ShardMaster) : Raft := sm.(sm_rf).

Definition first_config : Config.t := Config.mk 0 (replicate (Z.to_nat NShards) 0) (Some ∅).

(** [n] is the number of servers, [r] the draw of the election timer; [None] is a panic
    of [Make]. *)
Definition sm_StartServer `{!RaftCodec} (n : nat) (me : Z) (p : Persister.t) (r : Z) : option ShardMaster :=
  rf ← Make n me p r; Some (mkShardMaster me rf [first_config]).

(** ** The client ([client.go]) *)

(** The number of servers of a clerk. *)
Record Clerk := mkClerk { servers : nat }.
Definition MakeClerk (n : nat) : Clerk := mkClerk n.

Section loop.
Context {R A : Type} (v : bool → R → option A) (net : nat → nat → bool * R).

(** [for _, srv := range ck.servers]; [k] counts the calls. *)
Fixpoint each_server (k : nat) (ss : list nat) : option A * nat :=
  match ss with
  | [] => (None, k)
  | s :: ss =>
      let '(ok, reply) := net k s in
      match v ok reply with Some a => (Some a, k) | None => each_server (S k) ss end
  end.

Fixpoint master_loop (n rounds k : nat) : option A :=
  match rounds with
  | O => None
  | S rounds =>
      match each_server k (seq 0 n) with
      | (Some a, _) => Some a
      | (None, k) => master_loop n rounds k
      end
  end.
End loop.

Definition Query_verdict (ok : bool) (r : QueryReply.t) : option Config.t :=
  if ok && negb r.(QueryReply.WrongLeader) then Some r.(QueryReply.Config) else None.
Definition done_verdict (ok : bool) (r : Reply.t) : option unit :=
  if ok && negb r.(Reply.WrongLeader) then Some tt else None.

Definition Query (rounds : nat) (net : QueryArgs.t → nat → nat → bool * QueryReply.t) (num : Z) (ck : Clerk)
    : option Config.t := master_loop Query_verdict (net (QueryArgs.mk num)) ck.(servers) rounds 0.
Definition Clerk_Join (rounds : nat) (net : JoinArgs.t → nat → nat → bool * Reply.t)
    (servers' : gomap Z (list string)) (ck : Clerk) : option unit :=
  master_loop done_verdict (net (JoinArgs.mk servers')) ck.(servers) rounds 0.
Definition Clerk_Leave (rounds : nat) (net : LeaveArgs.t → nat → nat → bool * Reply.t)
    (gids : list Z) (ck : Clerk) : option unit :=
  master_loop done_verdict (net (LeaveArgs.mk gids)) ck.(servers) rounds 0.
Definition Clerk_Move (rounds : nat) (net : MoveArgs.t → nat → nat → bool * Reply.t)
    (shard gid : Z) (ck : Clerk) : option unit :=
  master_loop done_verdict (net (MoveArgs.mk shard gid)) ck.(servers) rounds 0.

(** ** Properties *)

Section props.
Context {R A : Type} (v : bool → R → option A) (net : nat → nat → bool * R).

(** What the [k]-th call brings, when the servers are called in turn. *)
Definition turn (n k : nat) : option A :=
  let '(ok, reply) := net k (k mod n)%nat in v ok reply.

Lemma each_server_spec n j k s :
  (s + j = n)%nat → (j ≠ 0 → k mod n = s)%nat →
  match each_server v net k (seq s j) with
  | (Some a, i) => (k ≤ i < k + j)%nat ∧ turn n i = Some a ∧ ∀ i', (k ≤ i' < i)%nat → turn n i' = None
  | (None, k') => k' = (k + j)%nat ∧ ∀ i', (k ≤ i' < k + j)%nat → turn n i' = None
  end.
Proof.
  revert k s. induction j as [|j IH]; intros k s Hn Hk; cbn [seq each_server]; [split; [lia|intros; lia]|].
  specialize (Hk ltac:(done)).
  assert (turn n k = let '(ok, reply) := net k s in v ok reply) as Ht by (unfold turn; by rewrite Hk).
  destruct (net k s) as [ok reply]. destruct (v ok reply) as [a|]; [split_and!; [lia|lia|done|intros; lia]|].
  assert (j ≠ 0 → S k mod n = S s)%nat as Hk'.
  { intros Hj. rewrite <- Nat.add_1_r, Nat.Div0.add_mod, Hk.
    rewrite (Nat.mod_small 1) by lia. rewrite Nat.mod_small; lia. }
  specialize (IH (S k) (S s) ltac:(lia) Hk').
  destruct (each_server v net (S k) (seq (S s) j)) as [[a|] i].
  - destruct IH as (H1 & H2 & H3). split_and!; [lia|lia|done|]. intros i' Hi'.
    destruct (decide (i' = k)) as [->|]; [done|apply H3; lia].
  - destruct IH as [-> H3]. split; [lia|]. intros i' Hi'.
    destruct (decide (i' = k)) as [->|]; [done|apply H3; lia].
Qed.

(** The loop returns what the first call brings that brings anything. *)
Lemma master_loop_spec n rounds k : (n ≠ 0 → k mod n = 0)%nat →
  match master_loop v net n rounds k with
  | Some a => ∃ i, (k ≤ i < k + rounds * n)%nat ∧ turn n i = Some a ∧ ∀ i', (k ≤ i' < i)%nat → turn n i' = None
  | None => ∀ i', (k ≤ i' < k + rounds * n)%nat → turn n i' = None
  end.
Proof.
  revert k. induction rounds as [|rounds IH]; intros k Hk; cbn [master_loop]; [intros; lia|].
  pose proof (each_server_spec n n k 0 ltac:(lia) Hk) as Hr.
  destruct (each_server v net k (seq 0 n)) as [[a|] k'].
  - destruct Hr as (H1 & H2 & H3). exists k'. split_and!; [lia|lia|done|done].
  - destruct Hr as [-> H3]. assert (n ≠ 0 → (k + n) mod n = 0)%nat as Hk'.
    { intros Hn. rewrite Nat.Div0.add_mod, Hk, Nat.Div0.mod_same by done. by apply Nat.Div0.mod_0_l. }
    specialize (IH _ Hk'). destruct (master_loop v net n rounds (k + n)) as [a|].
    + destruct IH as (i & H4 & H5 & H6). exists i. split_and!; [lia|lia|done|]. intros i' Hi'.
      destruct (decide (i' < k + n)%nat); [apply H3; lia|apply H6; lia].
    + intros i' Hi'. destruct (decide (i' < k + n)%nat); [apply H3; lia|apply IH; lia].
Qed.

Lemma master_loop_first n rounds a :
  master_loop v net n rounds 0 = Some a ↔
  ∃ i, (i < rounds * n)%nat ∧ turn n i = Some a ∧ ∀ i', (i' < i)%nat → turn n i' = None.
Proof.
  assert (n ≠ 0 → 0 mod n = 0)%nat as H0 by (intros; by apply Nat.Div0.mod_0_l).
  pose proof (master_loop_spec n rounds 0 H0) as Hs. split.
  - intros E. rewrite E in Hs. destruct Hs as (i & Hi & Ht & Hf). exists i. split; [lia|]. split; [done|].
    intros i' Hi'. apply Hf. lia.
  - intros (i & Hi & Ht & Hf). destruct (master_loop v net n rounds 0) as [b|].
    + destruct Hs as (j & Hj & Hb & Hfj). destruct (lt_eq_lt_dec i j) as [[Hlt| ->]|Hlt]; [|congruence|].
      * rewrite Hfj in Ht by lia. done.
      * rewrite Hf in Hb by lia. done.
    + rewrite Hs in Ht by lia. done.
Qed.
End props.

Lemma Query_first rounds net num ck c :
  Query rounds net num ck = Some c ↔
  ∃ i, (i < rounds * ck.(servers))%nat ∧ turn Query_verdict (net (QueryArgs.mk num)) ck.(servers) i = Some c ∧
    ∀ i', (i' < i)%nat → turn Query_verdict (net (QueryArgs.mk num)) ck.(servers) i' = None.
Proof. apply master_loop_first. Qed.

(** With the handlers as they are, a clerk takes the first server that can be reached for
    the leader, and what it gets is the configuration without groups. *)
Lemma Query_of_skeleton rounds (up : nat → nat → bool) sm num ck c :
  Query rounds (λ args k s, (up k s, (Query_handler args QueryReply.zero sm).2)) num ck = Some c →
  c = Config.zero.
Proof.
  intros (i & _ & Ht & _)%Query_first. unfold turn, Query_verdict in Ht. cbn in Ht.
  destruct (up _ _); cbn in Ht; [by injection Ht|done].
Qed.
