(* ===== verification/ServiceHarness.v ===== *)
(** The harness for the two services: the key/value tests
    ([src/src/kvraft/config.go]), with their statistics, and the tests of the shard master
    ([src/src/shardmaster/config.go]). *)
From S2P Require Import Prelude Gob Iface RaftTypes RaftPersist RaftLog GobImpl KVServer ShardMaster.
From S2P Require Import Labrpc LabrpcProps Harness GroupHarness GroupProps GroupRun.
Open Scope nat_scope.
#[local] Existing Instances eta_Server eta_Network eta_thread eta_world.

(** ** Key/value servers *)

Module KV.
Section kv.
Context `{!RaftCodec} {V T W : Type} `{!EqDecision T}.
(** What reflection says of the methods of the server made as the [q]-th, and of its Raft. *)
Context (KVServer_methods Raft_methods : nat → list (@method V T W)).

(** [StartKVServer] as the harness uses it; a panic and a server that never returns are
    [None]. *)
Definition start (max : Z) (n i : nat) (p : Persister.t) (r : Z) : option KVServer :=
  match StartKVServer n (Z.of_nat i) p max r with Ret kv => Some kv | _ => None end.

Definition services_of (q : nat) : list Service :=
  [MakeService "KVServer" (KVServer_methods q); MakeService "Raft" (Raft_methods q)].

(** What the harness of the key/value tests has in addition. *)
Record config := mkConfig {
  grp : @GroupHarness.config KVServer V T W;
  maxraftstate : Z;
  rpcs0 : Z;
  ops : Z                (* an [int32] *)
}.

Definition StartServer (i : nat) (names : nat → string) (r : Z) (cfg : config) : option config :=
  g ← GroupHarness.StartServer kv_rf (start cfg.(maxraftstate)) services_of i names r cfg.(grp);
  Some (mkConfig g cfg.(maxraftstate) cfg.(rpcs0) cfg.(ops)).

Definition make_config (m : nat) (unreliable : bool) (max : Z) (names : nat → nat → string) (rs : nat → Z)
    : option config :=
  g ← GroupHarness.make_config kv_rf (start max) services_of m unreliable names rs;
  Some (mkConfig g max 0 0).

Definition rpcTotal (cfg : config) : Z := GetTotalCount cfg.(grp).(net).

Definition begin_test (cfg : config) : config :=
  mkConfig cfg.(grp) cfg.(maxraftstate) (rpcTotal cfg) 0.

Definition op (cfg : config) : config :=
  mkConfig cfg.(grp) cfg.(maxraftstate) cfg.(rpcs0) (AddInt32 cfg.(ops) 1).

(** The numbers that are printed: servers, RPCs, calls of the clerks. *)
Definition end_test (failed late : bool) (cfg : config) : outcome unit (option (nat * Z * Z)) :=
  (_ <- checkTimeout failed late;;
   Ok (if failed then None
       else Some (cfg.(grp).(n), (rpcTotal cfg - cfg.(rpcs0))%Z, cfg.(ops))))%outcome.
End kv.
End KV.

(** ** Shard masters

    The code is that of the key/value tests without the statistics, for another server. *)

Module Master.
Section master.
Context `{!RaftCodec} {V T W : Type} `{!EqDecision T}.
Context (ShardMaster_methods Raft_methods : nat → list (@method V T W)).
Local Abbreviation config := (@GroupHarness.config ShardMaster V T W).

Definition start (n i : nat) (p : Persister.t) (r : Z) : option ShardMaster :=
  sm_StartServer n (Z.of_nat i) p r.
Definition services_of (q : nat) : list Service :=
  [MakeService "ShardMaster" (ShardMaster_methods q); MakeService "Raft" (Raft_methods q)].

Definition random_handles {X} : (nat → nat) → list X → list X := GroupHarness.random_handles.
Definition checkTimeout : bool → bool → outcome unit unit := GroupHarness.checkTimeout.
Definition cleanup : bool → bool → config → outcome unit config := GroupHarness.cleanup sm_Kill.
Definition LogSize : config → option Z := GroupHarness.LogSize.
Definition connectUnlocked : nat → list nat → config → option config := GroupHarness.connectUnlocked.
Definition disconnectUnlocked : nat → list nat → config → option config := GroupHarness.disconnectUnlocked.
Definition All : config → list nat := GroupHarness.All.
Definition ConnectAll : config → option config := GroupHarness.ConnectAll.
Definition partition : list nat → list nat → config → option config := GroupHarness.partition.
Definition makeClient : list nat → (nat → string) → (nat → nat) → config → option (nat * config) :=
  GroupHarness.makeClient.
Definition deleteClient : nat → config → config := GroupHarness.deleteClient.
Definition ConnectClientUnlocked : nat → list nat → config → option config := GroupHarness.ConnectClientUnlocked.
Definition DisconnectClientUnlocked : nat → list nat → config → option config :=
  GroupHarness.DisconnectClientUnlocked.
Definition ShutdownServer : nat → config → option config := GroupHarness.ShutdownServer sm_Kill.
Definition StartServer : nat → (nat → string) → Z → config → option config :=
  GroupHarness.StartServer sm_rf start services_of.
Definition Leader : config → option (bool * nat) := GroupHarness.Leader sm_rf.
Definition make_partition : config → option (list nat * list nat) := GroupHarness.make_partition sm_rf.
Definition make_config : nat → bool → (nat → nat → string) → (nat → Z) → option config :=
  GroupHarness.make_config sm_rf start services_of.
End master.
End Master.

(** ** Runs with three key/value servers *)

#[local] Existing Instance codec.

Module Demo.
Definition methods (q : nat) : list (@method unit unit unit) := [].
Definition services_of : nat → list (@Service unit unit unit) := KV.services_of methods methods.
Definition start := KV.start (-1).
Definition encode (_ : unit) : bytes := [].
Definition decode (_ : unit) (_ : bytes) : option unit := Some tt.
Definition zero (_ : unit) : unit := tt.
Definition name (tag i j : nat) : string := String.concat "" (replicate tag "a" ++ replicate i "b" ++ replicate j "c").

Definition config : Type := @GroupHarness.config KVServer unit unit unit.
Definition world : Type := @Labrpc.world netname _ _ unit unit unit.
Definition cfg0 : config := default (empty_config 0)
  (GroupHarness.make_config kv_rf start services_of 3 false (name 1) (λ _, 0%Z)).
Definition world_for (c : config) : world := mkWorld c.(net) true c.(heap) [] tt [].

(** Server 1 becomes the leader. *)
Definition inst (p : nat) (c : config) : instance := default
  (mkInstance 0 [] 0 (mkKV 0 (zero_Raft 0 0 (Persister.mk [] [])) false 0 None ∅ None 0 ∅ 0 [])) (c.(made) !! p).
Definition led : KVServer :=
  let kv := (inst 1 cfg0).(i_server) in kv <| kv_rf := kv.(kv_rf) <| tp := 2%Z |> |>.
Definition cfg_led : config := run kv_rf 1 (inst 1 cfg0) led cfg0.

(** A client's request is with server 0. *)
Definition clients : option (nat * config) := makeClient [0; 1; 2] (λ j, name 2 0 j) (λ _, 0) cfg0.
Definition client : nat * config := default (0, cfg0) clients.
Definition req := make_req (λ _ : unit, tt) encode (NStr (name 2 0 0)) "KVServer.Get" tt.
Definition with_world (w : world) (c : config) : world := w <| rn := c.(net) |> <| Labrpc.heap := c.(heap) |>.
Definition w1 : world := with_world (world_for cfg0) client.2.
Definition w2 : world := w1
  <| rn := w1.(rn) <| count := AddInt32 w1.(rn).(count) 1 |> <| nbytes := AddInt64 w1.(rn).(nbytes) (zlen req.(args)) |> |>
  <| threads := [mkThread req Arrived NotStarted] |>.
Definition thread := mkThread req (processReq_enter req 0 w2.(rn)) NotStarted.
Definition w3 : world := set_thread 0 thread w2.
Definition cfg2 : config := client.2 <| net := w2.(rn) |> <| heap := w2.(Labrpc.heap) |>.
Definition cfg3 : config := cfg2 <| net := w3.(rn) |> <| heap := w3.(Labrpc.heap) |>.

Lemma cfg0_made : GroupHarness.make_config kv_rf start services_of 3 false (name 1) (λ _, 0%Z) = Some cfg0.
Proof. apply succeeds. vm_compute. reflexivity. Qed.

Definition step := lstep kv_rf kv_Kill start services_of encode decode zero.

Lemma led_reachable : reachable kv_rf kv_Kill start services_of encode decode zero 3 (cfg_led, world_for cfg0).
Proof.
  exists false, (name 1), (λ _, 0%Z), cfg0, (world_for cfg0). split; [exact cfg0_made|]. split; [done|].
  apply rtc_once, ls_run. vm_compute. reflexivity.
Qed.

Lemma client_made : clients = Some (client.1, client.2).
Proof.
  transitivity (Some client); [apply succeeds; vm_compute; reflexivity|apply f_equal, surjective_pairing].
Qed.

Lemma called : exec encode decode zero (LCall req) w1 = Some w2.
Proof. reflexivity. Qed.

Lemma entered : exec encode decode zero (LEnter 0 0) w2 = Some w3.
Proof. reflexivity. Qed.

Lemma not_net l : (match l with LNet _ => False | _ => True end) → ∀ o, l ≠ @LNet netname unit unit unit o.
Proof. by intros Hl o ->. Qed.

Lemma step1 : step (cfg0, world_for cfg0) (client.2, w1).
Proof. exact (ls_harness _ _ _ _ _ _ _ cfg0 client.2 (world_for cfg0) (gs_client _ _ _ _ _ _ _ _ cfg0 client.2 client_made)). Qed.

Lemma step2 : step (client.2, w1) (cfg2, w2).
Proof. exact (ls_traffic _ _ _ _ _ _ _ (LCall req) client.2 w1 w2 (not_net (LCall req) I) called). Qed.

Lemma step3 : step (cfg2, w2) (cfg3, w3).
Proof. exact (ls_traffic _ _ _ _ _ _ _ (LEnter 0 0) cfg2 w2 w3 (not_net (LEnter 0 0) I) entered). Qed.

Lemma waiting_reachable : reachable kv_rf kv_Kill start services_of encode decode zero 3 (cfg3, w3).
Proof.
  exists false, (name 1), (λ _, 0%Z), cfg0, (world_for cfg0). split; [exact cfg0_made|]. split; [done|].
  exact (rtc_l _ _ _ _ step1 (rtc_l _ _ _ _ step2 (rtc_l _ _ _ _ step3 (rtc_refl _ _)))).
Qed.

(** The request is with the first server object, that of server 0. *)
Lemma waiting : waits_on (NInt 0) 0 thread ∧ cfg3.(net).(servers) !! NInt 0 = Some (Some 0) ∧
  w3.(threads) !! 0 = Some thread.
Proof. split; [|split]; vm_compute; done. Qed.

Lemma leads : GroupHarness.Leader kv_rf cfg_led = Some (true, 1).
Proof. vm_compute. reflexivity. Qed.
End Demo.

Lemma partition_isolates_leader_witness :
  ∃ p1 p2 cfg', make_partition kv_rf Demo.cfg_led = Some (p1, p2) ∧ partition p1 p2 Demo.cfg_led = Some cfg' ∧
    p1 ++ p2 ≡ₚ seq 0 3 ∧ 1 ∈ p2 ∧ length p2 < length p1 ∧
    (∀ i j e, end_at cfg'.(endnames) i j = Some e →
      cfg'.(net).(connections) !! e = Some (Some (NInt j)) ∧
      ((readEndnameInfo e cfg'.(net)).(i_enabled) = true ↔ together p1 p2 i j)) ∧
    ∀ ck es e, Demo.cfg_led.(clerks) !! ck = Some es → e ∈ es →
      cfg'.(net).(enabled) !! e = Demo.cfg_led.(net).(enabled) !! e.
Proof.
  apply (partition_isolates_leader kv_rf kv_Kill Demo.start Demo.services_of Demo.encode Demo.decode Demo.zero 3
    Demo.cfg_led (Demo.world_for Demo.cfg0) true 1).
  - exact Demo.led_reachable.
  - apply le_n.
  - reflexivity.
  - exact Demo.leads.
Defined.

Lemma shutdown_is_final_witness :
  ∃ cfg1, ShutdownServer kv_Kill 0 Demo.cfg3 = Some cfg1 ∧
    (∀ j e, end_at cfg1.(endnames) 0 j = Some e ∨ end_at cfg1.(endnames) j 0 = Some e →
      (readEndnameInfo e cfg1.(net)).(i_enabled) = false) ∧
    persister_at 0 cfg1 = persister_at 0 Demo.cfg3 ∧
    ∀ cfg' w', rtc Demo.step (cfg1, Demo.with_world Demo.w3 cfg1) (cfg', w') →
      (∀ p x, Demo.cfg3.(kvservers) !! 0 = Some (Some p) → Demo.cfg3.(made) !! p = Some x →
        ∀ j, cfg'.(saved) !! j ≠ Some (Some x.(i_disk))) ∧
      (∀ sv k t, Demo.cfg3.(net).(servers) !! NInt 0 = Some (Some sv) →
        Demo.w3.(threads) !! k = Some t → waits_on (NInt 0) sv t →
        ∃ t', w'.(threads) !! k = Some t' ∧ (waits_on (NInt 0) sv t' ∨ t'.(t_pc) = Replied no_reply)).
Proof.
  apply (shutdown_is_final kv_rf kv_Kill Demo.start Demo.services_of Demo.encode Demo.decode Demo.zero 3
    Demo.cfg3 Demo.w3 0).
  - exact Demo.waiting_reachable.
  - lia.
Defined.
