(* ===== verification/ShardKV.v ===== *)
(** The sharded key/value store as it stands ([src/src/shardkv]): its client, which finds
    the group of servers that owns a key, and the server, whose handlers do nothing yet.

    The network is a function: what the [k]-th call sees when it goes to the server of a
    name; what the master answers to the [q]-th query is another ([None]: the query goes
    on for ever).  A loop runs for a number of rounds; [None] is a loop still running. *)
From Stdlib Require Import Ascii.
From S2P Require Import Prelude Gob Iface RaftTypes RaftPersist RaftLog RaftLeader GobImpl KVServer ShardMaster.
Open Scope Z_scope.

Module PutAppendArgs.
Record t := mk { Key : string; Value : string; Op : string }.
End PutAppendArgs.

Module GetArgs.
Record t := mk { Key : string }.
End GetArgs.

Definition ErrWrongGroup : Err := "ErrWrongGroup".

(** ** The client ([client.go]) *)

Definition key2shard (key : string) : Z :=
  let shard := match key with EmptyString => 0 | String c _ => Z.of_nat (nat_of_ascii c) end in
  Z.rem shard NShards.

(** [make_end] and the network are the function that is called. *)
Record Clerk := mkClerk { sm : ShardMaster.Clerk; config : Config.t }.
Definition MakeClerk (masters : nat) : Clerk := mkClerk (ShardMaster.MakeClerk masters) Config.zero.

Inductive verdict (A : Type) :=
  | Return (a : A)
  | Break          (* ask the master *)
  | Next.          (* try the next server of the group *)
Arguments Return {_} _.
Arguments Break {_}.
Arguments Next {_}.

Definition Get_verdict (ok : bool) (reply : GetReply.t) : verdict string :=
  let err := reply.(GetReply.Err) in
  if ok && (bool_decide (err = OK) || bool_decide (err = ErrNoKey)) then Return reply.(GetReply.Value)
  else if ok && bool_decide (err = ErrWrongGroup) then Break
  else Next.

Definition PutAppend_verdict (ok : bool) (err : Err) : verdict unit :=
  if ok && bool_decide (err = OK) then Return tt
  else if ok && bool_decide (err = ErrWrongGroup) then Break
  else Next.

Section loop.
Context {R A : Type} (v : bool → R → verdict A) (net : nat → string → bool * R)
  (ask : nat → option Config.t).

(** The loop over the servers of the group. *)
Fixpoint try_group (k : nat) (servers : list string) : option A * nat :=
  match servers with
  | [] => (None, k)
  | srv :: servers =>
      let '(ok, reply) := net k srv in
      match v ok reply with
      | Return a => (Some a, k)
      | Break => (None, S k)
      | Next => try_group (S k) servers
      end
  end.

(** The servers of the group that owns the key, if there are any; indexing out of
    [Shards] would panic. *)
Definition owners (key : string) (c : Config.t) : option (option (list string)) :=
  gid ← c.(Config.Shards) !! Z.to_nat (key2shard key);
  Some (g ← c.(Config.Groups); g !! gid).

Fixpoint shard_loop (key : string) (rounds k q : nat) (c : Config.t) : option (A * Config.t) :=
  match rounds with
  | O => None
  | S rounds =>
      o ← owners key c;
      let '(a, k) := match o with Some servers => try_group k servers | None => (None, k) end in
      match a with
      | Some a => Some (a, c)
      | None => c ← ask q; shard_loop key rounds k (S q) c
      end
  end.
End loop.

(** [mrounds] bounds the rounds of each query; [mnet q] is what its calls see. *)
Definition ask_master (mrounds : nat) (mnet : nat → QueryArgs.t → nat → nat → bool * QueryReply.t)
    (ck : Clerk) (q : nat) : option Config.t := Query mrounds (mnet q) (-1) ck.(sm).

Definition Clerk_Get (rounds mrounds : nat) (net : GetArgs.t → nat → string → bool * GetReply.t)
    (mnet : nat → QueryArgs.t → nat → nat → bool * QueryReply.t) (key : string) (ck : Clerk)
    : option (string * Clerk) :=
  '(x, c) ← shard_loop Get_verdict (net (GetArgs.mk key)) (ask_master mrounds mnet ck) key rounds 0 0 ck.(config);
  Some (x, mkClerk ck.(sm) c).

Definition Clerk_PutAppend (rounds mrounds : nat) (net : PutAppendArgs.t → nat → string → bool * Err)
    (mnet : nat → QueryArgs.t → nat → nat → bool * QueryReply.t) (key value op : string) (ck : Clerk)
    : option Clerk :=
  '(_, c) ← shard_loop PutAppend_verdict (net (PutAppendArgs.mk key value op)) (ask_master mrounds mnet ck)
    key rounds 0 0 ck.(config);
  Some (mkClerk ck.(sm) c).

Definition Clerk_Put rounds mrounds net mnet (key value : string) : Clerk → option Clerk :=
  Clerk_PutAppend rounds mrounds net mnet key value "Put".
Definition Clerk_Append rounds mrounds net mnet (key value : string) : Clerk → option Clerk :=
  Clerk_PutAppend rounds mrounds net mnet key value "Append".

(** ** The server ([server.go]) *)

Record ShardKV := mkShardKV { skv_me : Z; skv_rf : Raft; gid : Z; masters : nat; maxraftstate : Z }.

Definition Get_handler (_ : GetArgs.t) (reply : GetReply.t) (kv : ShardKV) : ShardKV * GetReply.t := (kv, reply).
Definition PutAppend_handler (_ : PutAppendArgs.t) (reply : Err) (kv : ShardKV) : ShardKV * Err := (kv, reply).

Definition skv_Kill (kv : ShardKV) : ShardKV :=
  mkShardKV kv.(skv_me) (Kill kv.(skv_rf)) kv.(gid) kv.(masters) kv.(maxraftstate).

Definition skv_StartServer `{!RaftCodec} (n : nat) (me : Z) (p : Persister.t) (max gid : Z) (masters : nat) (r : Z)
    : option ShardKV :=
  rf ← Make n me p r; Some (mkShardKV me rf gid masters max).

(** ** Properties *)

(** Every key has one of the ten shards, and only its first byte matters. *)
Lemma key2shard_range key : 0 ≤ key2shard key < NShards.
Proof. unfold key2shard, NShards. destruct key; apply Z.rem_bound_pos; lia. Qed.

Lemma owners_total key c : length c.(Config.Shards) = Z.to_nat NShards → is_Some (owners key c).
Proof.
  intros Hl. unfold owners. pose proof (key2shard_range key) as Hk. unfold NShards in *.
  destruct (lookup_lt_is_Some_2 c.(Config.Shards) (Z.to_nat (key2shard key))) as [g ->]; [lia|by eexists].
Qed.

Section props.
Context {R A : Type} (v : bool → R → verdict A) (net : nat → string → bool * R) (ask : nat → option Config.t).

Lemma try_group_Some k servers a k' :
  try_group v net k servers = (Some a, k') →
  ∃ i srv, servers !! i = Some srv ∧ k' = (k + i)%nat ∧ v (net k' srv).1 (net k' srv).2 = Return a ∧
    ∀ j s, (j < i)%nat → servers !! j = Some s → v (net (k + j)%nat s).1 (net (k + j)%nat s).2 = Next.
Proof.
  revert k. induction servers as [|s servers IH]; intros k; cbn [try_group]; [done|].
  destruct (net k s) as [ok r] eqn:Hn. destruct (v ok r) as [b| |] eqn:Hv; [|done|].
  - intros [= -> <-]. exists 0%nat, s. rewrite Nat.add_0_r, Hn. split_and!; try done. lia.
  - intros (i & srv & H1 & -> & H2 & H3)%IH. exists (S i), srv. split_and!; [done|lia| |].
    + by replace (k + S i)%nat with (S k + i)%nat by lia.
    + intros [|j] s' Hj Hs; [injection Hs as <-; by rewrite Nat.add_0_r, Hn|].
      replace (k + S j)%nat with (S k + j)%nat by lia. apply H3; [lia|done].
Qed.

(** Which configuration the clerk has when the [q]-th query was answered. *)
Definition config_at (c0 : Config.t) (q : nat) : option Config.t :=
  match q with O => Some c0 | S q => ask q end.

Lemma shard_loop_Some key rounds k q c0 c a c' :
  config_at c0 q = Some c → shard_loop v net ask key rounds k q c = Some (a, c') →
  ∃ q' k' servers srv, config_at c0 q' = Some c' ∧ owners key c' = Some (Some servers) ∧
    srv ∈ servers ∧ v (net k' srv).1 (net k' srv).2 = Return a.
Proof.
  revert k q c. induction rounds as [|rounds IH]; intros k q c Hq; cbn [shard_loop]; [done|].
  intros (o & Ho & Hl)%bind_Some.
  destruct (match o with Some servers => try_group v net k servers | None => (None, k) end) as [[b|] k'] eqn:Ht.
  - injection Hl as -> ->. destruct o as [servers|]; [|done].
    apply try_group_Some in Ht as (i & srv & Hi & _ & Hv & _). exists q, k', servers, srv.
    split_and!; try done. by eapply list_elem_of_lookup_2.
  - apply bind_Some in Hl as (c1 & Hask & Hl). by apply (IH k' (S q) c1).
Qed.

(** One server of the group answers, the others fail or are not the leader. *)
Lemma try_group_answers servers s a : s ∈ servers → (∀ k, v (net k s).1 (net k s).2 = Return a) →
  (∀ k t, t ∈ servers → t ≠ s → v (net k t).1 (net k t).2 = Next) →
  ∀ k, ∃ k', try_group v net k servers = (Some a, k').
Proof.
  intros Hs Ha. induction servers as [|t servers IH]; intros Hn k; [by apply elem_of_nil in Hs|].
  cbn [try_group]. destruct (decide (t = s)) as [->|Hne].
  - specialize (Ha k). destruct (net k s) as [ok r]. cbn in Ha. rewrite Ha. eauto.
  - specialize (Hn k t) as Ht. destruct (net k t) as [ok r]. cbn in Ht. rewrite Ht by (by (try left)).
    apply IH; [by apply elem_of_cons in Hs as [->|]|]. intros. apply Hn; [by right|done].
Qed.
End props.

Lemma Get_verdict_Return ok r x :
  Get_verdict ok r = Return x ↔ ok = true ∧ (r.(GetReply.Err) = OK ∨ r.(GetReply.Err) = ErrNoKey) ∧ x = r.(GetReply.Value).
Proof.
  unfold Get_verdict. destruct ok; cbn; [|split; [done|by intros [? _]]].
  case_bool_decide as H1; cbn; [|case_bool_decide as H2; cbn].
  - split; [intros [= <-]; auto|by intros (_ & _ & ->)].
  - split; [intros [= <-]; auto|by intros (_ & _ & ->)].
  - split; [by case_bool_decide|]. by intros (_ & [?|?] & _).
Qed.

(** C26: A value that [Get] of the sharded client returns was the answer ([OK], or [ErrNoKey])
    of a server of the group that owns the key's shard, in the configuration the clerk then
    has, which is the one it had or one a query of the master returned.  And it does return
    one: when the master's configuration names a group for the shard and one server of that
    group answers, the others failing or denying to be the leader, then a clerk whose own
    configuration leads nowhere asks the master once and gets that server's answer. *)
Theorem Get_asks_the_owner mrounds net mnet key ck :
  (∀ rounds x ck', Clerk_Get rounds mrounds net mnet key ck = Some (x, ck') →
    (ck'.(config) = ck.(config) ∨ ∃ q, Query mrounds (mnet q) (-1) ck.(sm) = Some ck'.(config)) ∧
    ∃ k srv servers reply, owners key ck'.(config) = Some (Some servers) ∧ srv ∈ servers ∧
      net (GetArgs.mk key) k srv = (true, reply) ∧
      (reply.(GetReply.Err) = OK ∨ reply.(GetReply.Err) = ErrNoKey) ∧ x = reply.(GetReply.Value)) ∧
  (∀ c servers s reply o,
    owners key ck.(config) = Some o →
    (∀ old t, o = Some old → t ∈ old → ∀ k x, Get_verdict (net (GetArgs.mk key) k t).1 (net (GetArgs.mk key) k t).2 ≠ Return x) →
    Query mrounds (mnet 0%nat) (-1) ck.(sm) = Some c → owners key c = Some (Some servers) → s ∈ servers →
    reply.(GetReply.Err) = OK → (∀ k, net (GetArgs.mk key) k s = (true, reply)) →
    (∀ k t, t ∈ servers → t ≠ s → (net (GetArgs.mk key) k t).1 = false ∨
      (net (GetArgs.mk key) k t).2.(GetReply.Err) = ErrWrongLeader) →
    Clerk_Get 2 mrounds net mnet key ck = Some (reply.(GetReply.Value), mkClerk ck.(sm) c)).
Proof.
  split.
  - unfold Clerk_Get. intros rounds x ck' ([y c] & Hl & [= <- <-])%bind_Some.
    destruct (shard_loop_Some _ _ _ key rounds 0 0 ck.(config) ck.(config) _ _ eq_refl Hl)
      as (q & k & servers & srv & Hq & Ho & Hs & Hv).
    split; [destruct q as [|q]; [left; by injection Hq|right; by exists q]|].
    apply Get_verdict_Return in Hv as (Hok & Herr & ->). exists k, srv, servers, (net (GetArgs.mk key) k srv).2.
    split_and!; try done. rewrite <- Hok. by destruct (net _ k srv).
  - intros c servers s reply o Ho Hold Hq Hos Hs Hok Hans Hoth. unfold Clerk_Get. cbn [shard_loop]. rewrite Ho.
    cbn [mbind option_bind].
    destruct (match o with Some l => try_group Get_verdict (net (GetArgs.mk key)) 0 l | None => (None, 0%nat) end) as [[a|] k'] eqn:Ht.
    { destruct o as [old|]; [|done]. apply try_group_Some in Ht as (i & srv & Hi & -> & Hv & _).
      by destruct (Hold old srv eq_refl (list_elem_of_lookup_2 _ _ _ Hi) (0 + i)%nat a). }
    assert (ask_master mrounds mnet ck 0 = Some c) as -> by exact Hq. cbn [mbind option_bind]. rewrite Hos.
    cbn [mbind option_bind].
    destruct (try_group_answers Get_verdict (net (GetArgs.mk key)) servers s reply.(GetReply.Value)) with (k := k')
      as [k'' ->]; [done| | |done].
    + intros k. rewrite Hans. apply Get_verdict_Return. auto.
    + intros k t Hin Hne. destruct (Hoth k t Hin Hne) as [Hf|He]; unfold Get_verdict.
      * by rewrite Hf.
      * rewrite He. by rewrite !andb_false_r.
Qed.

(** With the handlers as they are, no call of [Get] returns: the reply's error stays empty. *)
Lemma Get_of_skeleton rounds mrounds (up : nat → string → bool) mnet kv key ck :
  Clerk_Get rounds mrounds (λ args k srv, (up k srv, (Get_handler args GetReply.zero kv).2)) mnet key ck = None.
Proof.
  assert (∀ k x b, Get_verdict b (Get_handler k GetReply.zero kv).2 ≠ Return x) as Hno.
  { intros k x b (_ & [?|?] & _)%Get_verdict_Return; done. }
  destruct (Clerk_Get _ _ _ _ _ _) as [[x ck']|] eqn:Hg; [|done]. unfold Clerk_Get in Hg.
  apply bind_Some in Hg as ([y c] & Hl & _).
  destruct (shard_loop_Some _ _ _ key rounds 0 0 ck.(config) ck.(config) _ _ eq_refl Hl)
    as (q & k & servers & srv & _ & _ & _ & Hv). by apply Hno in Hv.
Qed.

(** ** A run *)

Module Demo.
Definition reply : GetReply.t := GetReply.mk OK "x".
Definition conf : Config.t := Config.mk 1 (replicate 10 100) (Some {[100 := ["a"; "b"]]}).
(** The server "b" leads its group, the second of three masters theirs. *)
Definition net (_ : GetArgs.t) (_ : nat) (srv : string) : bool * GetReply.t :=
  if decide (srv = "b") then (true, reply) else (true, GetReply.mk ErrWrongLeader "").
Definition mnet (_ : nat) (_ : QueryArgs.t) (_ : nat) (s : nat) : bool * QueryReply.t :=
  (negb (s =? 0)%nat, QueryReply.mk (negb (s =? 1)%nat) "" conf).
End Demo.

Lemma Get_asks_the_owner_witness :
  Clerk_Get 2 1 Demo.net Demo.mnet "k" (MakeClerk 3) = Some ("x", mkClerk (ShardMaster.mkClerk 3) Demo.conf).
Proof.
  apply (proj2 (Get_asks_the_owner 1 Demo.net Demo.mnet "k" (MakeClerk 3)) Demo.conf ["a"; "b"] "b" Demo.reply None).
  - reflexivity.
  - discriminate.
  - vm_compute. reflexivity.
  - vm_compute. reflexivity.
  - right. left.
  - reflexivity.
  - reflexivity.
  - intros k t _ Hne. right. unfold Demo.net. destruct (decide (t = "b")); [contradiction|reflexivity].
Defined.
