(* ===== verification/ShardConfig.v ===== *)
(** The harness of the sharded key/value tests ([src/src/shardkv/config.go]): three
    shard masters and three groups of servers, which it starts and stops.

    As in [GroupHarness], the servers and persisters ever made are kept in [made] and
    [disks], and a pointer is a place there.  The names of servers are strings here.
    Random names and draws are arguments; [None] is a panic. *)
From stdpp Require Import pretty.
From S2P Require Import Prelude Gob Iface RaftTypes RaftPersist RaftLog GobImpl KVServer ShardMaster ShardKV.
From S2P Require Import Labrpc Harness GroupHarness MRWorkerProps.
Open Scope nat_scope.
#[local] Existing Instances eta_Server eta_Network.

(** ** Names *)

Definition mastername (i : nat) : string := "master" +:+ pretty i.
Definition servername (gid : Z) (i : nat) : string := "server-" +:+ pretty gid +:+ "-" +:+ pretty i.

Section shard.
Context `{!RaftCodec} {V T W : Type} `{!EqDecision T}.
(** What reflection says of the methods of the server made as the [q]-th and of a shard
    master, and of their Rafts. *)
Context (ShardKV_methods kv_Raft_methods ShardMaster_methods sm_Raft_methods : nat → list (@method V T W)).
Local Abbreviation Network := (@Network netname _ _).

Record group := mkGroup {
  g_gid : Z;
  g_servers : list (option nat);
  g_saved : list (option nat);
  g_endnames : list (option (list netname));
  g_mendnames : list (option (list netname))
}.
#[export] Instance eta_group : Eta group :=
  λ g, mkGroup g.(g_gid) g.(g_servers) g.(g_saved) g.(g_endnames) g.(g_mendnames).

Record config := mkConfig {
  net : Network;
  heap : list (@Server V T W);
  made : list (@instance ShardKV);
  disks : list Persister.t;
  nmasters : nat;
  masterservers : list (option ShardMaster);
  mck : list netname;                     (* the ends of the harness's own clerk *)
  ngroups : nat;
  n : nat;
  groups : list (option group);
  clerks : gmap nat (list netname);
  clients : list (list netname);          (* the ends of every clerk *)
  nextClientId : nat;
  maxraftstate : Z
}.
#[export] Instance eta_config : Eta config := λ c,
  mkConfig c.(net) c.(heap) c.(made) c.(disks) c.(nmasters) c.(masterservers) c.(mck) c.(ngroups)
    c.(n) c.(groups) c.(clerks) c.(clients) c.(nextClientId) c.(maxraftstate).

Definition group_at (gi : nat) (cfg : config) : option group := g ← cfg.(groups) !! gi; g.
Definition set_group (gi : nat) (g : group) (cfg : config) : config :=
  cfg <| groups := <[gi := Some g]> cfg.(groups) |>.

(** ** Ends *)

(** A new end that is connected and on; also what the closures given to [MakeClerk] and to
    [StartServer] do with the server they are asked for. *)
Definition open_end (e sn : netname) (rn : Network) : option Network :=
  rn ← MakeEnd e rn; Some (Enable e true (Connect e sn rn)).

Definition make_end (servername : string) (name : string) (cfg : config) : option config :=
  rn ← open_end (NStr name) (NStr servername) cfg.(net); Some (cfg <| net := rn |>).

(** One end to each of [m] servers. *)
Definition open_ends (to : nat → string) (names : nat → string) (m : nat) (rn : Network)
    : option (list netname * Network) :=
  rn ← foldM (λ rn j, open_end (NStr (names j)) (NStr (to j)) rn) rn (seq 0 m);
  Some ((NStr ∘ names) <$> seq 0 m, rn).

(** ** Clients *)

(** [endnames] has a place for every server of a group and is filled for every master. *)
Definition makeClient (names : nat → string) (cfg : config) : option (nat * config) :=
  '(endnames, rn) ← foldM (λ '(endnames, rn) j,
    endnames ← set_at endnames j (NStr (names j));
    rn ← open_end (NStr (names j)) (NStr (mastername j)) rn; Some (endnames, rn))
    (replicate cfg.(n) (NStr ""), cfg.(net)) (seq 0 cfg.(nmasters));
  let ck := length cfg.(clients) in
  Some (ck, cfg <| net := rn |> <| clients := cfg.(clients) ++ [take cfg.(nmasters) endnames] |>
                <| clerks := <[ck := endnames]> cfg.(clerks) |> <| nextClientId := cfg.(nextClientId) + 1 |>).

(** The files that are removed never exist. *)
Definition deleteClient (ck : nat) (cfg : config) : config := cfg <| clerks := delete ck cfg.(clerks) |>.

(** ** The masters *)

(** The persister of a master is only its own. *)
Definition StartMasterServer (i : nat) (names : nat → string) (r : Z) (cfg : config) : option config :=
  '(es, rn) ← open_ends mastername names cfg.(nmasters) cfg.(net);
  sm ← sm_StartServer (length es) (Z.of_nat i) Persister.MakePersister r;
  ms ← set_at cfg.(masterservers) i (Some sm);
  let srv := AddService (MakeService "Raft" (sm_Raft_methods i))
    (AddService (MakeService "ShardMaster" (ShardMaster_methods i)) MakeServer) in
  Some (cfg <| masterservers := ms |> <| heap := cfg.(heap) ++ [srv] |>
            <| net := AddServer (NStr (mastername i)) (length cfg.(heap)) rn |>).

Definition shardclerk (names : nat → string) (cfg : config) : option (list netname * config) :=
  '(es, rn) ← open_ends mastername names cfg.(nmasters) cfg.(net); Some (es, cfg <| net := rn |>).

(** ** Stopping and starting a server *)

Definition copy_saved (i : nat) (cfg : config) (g : group) : option (config * group) :=
  s ← g.(g_saved) !! i;
  match s with
  | None => Some (cfg, g)
  | Some d =>
      p ← cfg.(disks) !! d;
      s ← set_at g.(g_saved) i (Some (length cfg.(disks)));
      Some (cfg <| disks := cfg.(disks) ++ [Persister.Copy p] |>, g <| g_saved := s |>)
  end.

(** Lines 159-167: indexing the names of a server that was not started panics. *)
Definition stop_sending (i : nat) (g : group) (rn : Network) : option Network :=
  rn ← foldM (λ rn j, e ← end_at g.(g_endnames) i j; Some (Enable e false rn)) rn (seq 0 (length g.(g_servers)));
  row ← g.(g_mendnames) !! i;
  Some (foldl (λ rn e, Enable e false rn) rn (default [] row)).

Definition ShutdownServer (gi i : nat) (cfg : config) : option config :=
  g ← group_at gi cfg;
  rn ← stop_sending i g cfg.(net);
  let cfg := cfg <| net := DeleteServer (NStr (servername g.(g_gid) i)) rn |> in
  '(cfg, g) ← copy_saved i cfg g;
  kv ← g.(g_servers) !! i;
  match kv with
  | None => Some (set_group gi g cfg)
  | Some p =>
      x ← cfg.(made) !! p;
      m ← set_at cfg.(made) p (x <| i_server := skv_Kill x.(i_server) |>);
      ks ← set_at g.(g_servers) i None;
      Some (set_group gi (g <| g_servers := ks |>) (cfg <| made := m |>))
  end.

Definition ShutdownGroup (gi : nat) (cfg : config) : option config :=
  foldM (λ cfg i, ShutdownServer gi i cfg) cfg (seq 0 cfg.(n)).

(** Lines 236-240. *)
Definition fresh_persister (i : nat) (cfg : config) (g : group) : option (config * group) :=
  s ← g.(g_saved) !! i;
  match s with
  | Some _ => copy_saved i cfg g
  | None =>
      s ← set_at g.(g_saved) i (Some (length cfg.(disks)));
      Some (cfg <| disks := cfg.(disks) ++ [Persister.MakePersister] |>, g <| g_saved := s |>)
  end.

(** Lines 243-258; [r] is the draw of the election timer. *)
Definition launch (gi i : nat) (es : list netname) (r : Z) (cfg : config) (g : group) : option config :=
  s ← g.(g_saved) !! i; d ← s; p ← cfg.(disks) !! d;
  kv ← skv_StartServer (length es) (Z.of_nat i) p cfg.(maxraftstate) g.(g_gid) cfg.(nmasters) r;
  ds ← set_at cfg.(disks) d kv.(skv_rf).(persister);
  let q := length cfg.(made) in
  ks ← set_at g.(g_servers) i (Some q);
  let srv := AddService (MakeService "Raft" (kv_Raft_methods q))
    (AddService (MakeService "ShardKV" (ShardKV_methods q)) MakeServer) in
  Some (set_group gi (g <| g_servers := ks |>)
    (cfg <| disks := ds |> <| made := cfg.(made) ++ [mkInstance i es d kv] |> <| heap := cfg.(heap) ++ [srv] |>
         <| net := AddServer (NStr (servername g.(g_gid) i)) (length cfg.(heap)) cfg.(net) |>)).

Definition StartServer (gi i : nat) (names mnames : nat → string) (r : Z) (cfg : config) : option config :=
  g ← group_at gi cfg;
  '(es, rn) ← open_ends (servername g.(g_gid)) names cfg.(n) cfg.(net);
  rows ← set_at g.(g_endnames) i (Some es);
  '(mes, rn) ← open_ends mastername mnames cfg.(nmasters) rn;
  mrows ← set_at g.(g_mendnames) i (Some mes);
  let g := g <| g_endnames := rows |> <| g_mendnames := mrows |> in
  '(cfg, g) ← fresh_persister i (cfg <| net := rn |>) g;
  launch gi i es r cfg g.

Definition StartGroup (gi : nat) (names mnames : nat → nat → string) (rs : nat → Z) (cfg : config) : option config :=
  foldM (λ cfg i, StartServer gi i (names i) (mnames i) (rs i) cfg) cfg (seq 0 cfg.(n)).

(** ** What the master is told *)

Definition joinm_args (gis : list nat) (cfg : config) : option (gmap Z (list string)) :=
  foldM (λ m g, g ← group_at g cfg;
    Some (<[g.(g_gid) := servername g.(g_gid) <$> seq 0 cfg.(n)]> m)) ∅ gis.

(** [mnet] is what the calls of the harness's clerk see. *)
Definition joinm (rounds : nat) (mnet : JoinArgs.t → nat → nat → bool * Reply.t) (gis : list nat) (cfg : config)
    : option unit :=
  m ← joinm_args gis cfg; Clerk_Join rounds mnet (Some m) (ShardMaster.MakeClerk (length cfg.(mck))).
Definition join rounds mnet (gi : nat) : config → option unit := joinm rounds mnet [gi].

Definition leavem (rounds : nat) (mnet : LeaveArgs.t → nat → nat → bool * Reply.t) (gis : list nat) (cfg : config)
    : option unit :=
  gids ← foldM (λ gids g, g ← group_at g cfg; Some (gids ++ [g.(g_gid)])) [] gis;
  Clerk_Leave rounds mnet gids (ShardMaster.MakeClerk (length cfg.(mck))).
Definition leave rounds mnet (gi : nat) : config → option unit := leavem rounds mnet [gi].

(** ** Making everything, checks, and the end *)

Definition empty_config (m : nat) (max : Z) : config :=
  mkConfig MakeNetwork [] [] [] 3 (replicate 3 None) [] 3 m (replicate 3 None) ∅ [] 0 max.

Definition new_group (gi m k : nat) : group :=
  mkGroup (100 + Z.of_nat gi) (replicate m None) (replicate m None) (replicate m None) (replicate k None).

(** The names and draws: of the masters, of the harness's clerk, of each group's servers. *)
Definition make_config (m : nat) (unreliable : bool) (max : Z) (mnames : nat → nat → string) (mrs : nat → Z)
    (cnames : nat → string) (snames smnames : nat → nat → nat → string) (srs : nat → nat → Z) : option config :=
  cfg ← foldM (λ cfg i, StartMasterServer i (mnames i) (mrs i) cfg) (empty_config m max) (seq 0 3);
  '(es, cfg) ← shardclerk cnames cfg;
  let cfg := cfg <| mck := es |> in
  cfg ← foldM (λ cfg gi,
    gs ← set_at cfg.(groups) gi (Some (new_group gi cfg.(n) cfg.(nmasters)));
    foldM (λ cfg i, StartServer gi i (snames gi i) (smnames gi i) (srs gi i) cfg) (cfg <| groups := gs |>)
      (seq 0 cfg.(n))) cfg (seq 0 cfg.(ngroups));
  Some (cfg <| clerks := ∅ |> <| nextClientId := cfg.(n) + 1000 |>
            <| net := Reliable (negb unreliable) cfg.(net) |>).

Inductive too_big := StateTooBig (size : Z) | SnapshotNotEmpty.

Definition checklogs (cfg : config) : outcome too_big unit :=
  ofold (λ _ gi, ofold (λ _ i,
    (p <- lift_option (g ← group_at gi cfg; s ← g.(g_saved) !! i; d ← s; cfg.(disks) !! d);;
     let raft := Persister.RaftStateSize p in
     let snap := zlen (Persister.ReadSnapshot p) in
     if (0 <=? cfg.(maxraftstate))%Z && (8 * cfg.(maxraftstate) <? raft)%Z then Fatal (StateTooBig raft)
     else if (cfg.(maxraftstate) <? 0)%Z && (0 <? snap)%Z then Fatal SnapshotNotEmpty
     else Ok tt)%outcome) tt (seq 0 cfg.(n))) tt (seq 0 cfg.(ngroups)).

Definition cleanup (failed late : bool) (cfg : config) : outcome unit config :=
  (cfg <- lift_option (foldM (λ cfg gi, ShutdownGroup gi cfg) cfg (seq 0 cfg.(ngroups)));;
   rn <- lift_option (Cleanup cfg.(net));;
   _ <- GroupHarness.checkTimeout failed late;;
   Ok (cfg <| net := rn |>))%outcome.
End shard.
