(* ===== verification/ShardProps.v ===== *)
(** What the harness of the sharded tests promises ([src/src/shardkv/config.go]): the names
    are different, and after [make_config] every master and every server of the three
    groups is on the network under the name the master is told; and what it takes for
    granted: that there are as many servers in a group as there are masters. *)
From stdpp Require Import pretty.
From S2P Require Import Prelude Gob Iface RaftTypes RaftPersist RaftLog GobImpl KVServer ShardMaster ShardKV.
From S2P Require Import Labrpc Harness GroupHarness MRWorkerProps ShardConfig.
Open Scope nat_scope.
#[local] Existing Instances eta_Server eta_Network.

(** ** Names *)

Lemma mastername_inj i j : mastername i = mastername j → i = j.
Proof. unfold mastername. intros Heq. by apply (inj (String.append _)), (inj pretty) in Heq. Qed.

Lemma servername_inj g i g' i' : (0 ≤ g)%Z → (0 ≤ g')%Z → servername g i = servername g' i' → g = g' ∧ i = i'.
Proof.
  unfold servername. intros Hg Hg' Heq. apply (inj (String.append _)) in Heq.
  apply nodash_split in Heq as [H1 H2]; [|by apply pretty_nodash..]. by apply (inj pretty) in H1, H2.
Qed.

Lemma mastername_servername i g j : mastername i ≠ servername g j.
Proof. done. Qed.

Section shard.
Context `{!RaftCodec} {V T W : Type} `{!EqDecision T}.
Context (ShardKV_methods kv_Raft_methods ShardMaster_methods sm_Raft_methods : nat → list (@method V T W)).
Local Abbreviation config := (@config V T W).
Implicit Types (cfg : config) (g : group).

Definition kv_server (q : nat) : @Server V T W :=
  AddService (MakeService "Raft" (kv_Raft_methods q)) (AddService (MakeService "ShardKV" (ShardKV_methods q)) MakeServer).
Definition sm_server (i : nat) : @Server V T W :=
  AddService (MakeService "Raft" (sm_Raft_methods i)) (AddService (MakeService "ShardMaster" (ShardMaster_methods i)) MakeServer).

(** ** What the operations do *)

Lemma open_ends_servers to names m (rn rn' : @Network netname _ _) es :
  open_ends to names m rn = Some (es, rn') → rn'.(servers) = rn.(servers) ∧ length es = m.
Proof.
  unfold open_ends. intros (r & Hf & [= <- <-])%bind_Some. split; [|by rewrite length_fmap, length_seq].
  revert rn Hf. induction (seq 0 m) as [|j l IH]; intros rn Hf; cbn [foldM] in Hf; [by injection Hf as <-|].
  apply bind_Some in Hf as (r1 & Ho & Hf). apply IH in Hf. rewrite Hf. unfold open_end, MakeEnd in Ho.
  apply bind_Some in Ho as (r2 & Hm & [= <-]). case_decide; [done|]. by injection Hm as <-.
Qed.

Record started (gi i : nat) cfg cfg' g g' (x : instance) : Prop := {
  st_group : group_at gi cfg = Some g;
  st_groups : cfg'.(groups) = <[gi := Some g']> cfg.(groups);
  st_gid : g'.(g_gid) = g.(g_gid);
  st_servers : g'.(g_servers) = <[i := Some (length cfg.(made))]> g.(g_servers);
  st_mend : i < length g.(g_mendnames) ∧ length g'.(g_mendnames) = length g.(g_mendnames);
  st_i : i < length g.(g_servers);
  st_made : cfg'.(made) = cfg.(made) ++ [x] ∧ x.(i_me) = i;
  st_heap : cfg'.(heap) = cfg.(heap) ++ [kv_server (length cfg.(made))];
  st_net : cfg'.(net).(Labrpc.servers) =
    <[NStr (servername g.(g_gid) i) := Some (length cfg.(heap))]> cfg.(net).(Labrpc.servers);
  st_rest : cfg'.(n) = cfg.(n) ∧ cfg'.(nmasters) = cfg.(nmasters) ∧ cfg'.(ngroups) = cfg.(ngroups) ∧
    cfg'.(mck) = cfg.(mck)
}.

Lemma shard_fresh_persister_spec i cfg g cfg' g' : fresh_persister i cfg g = Some (cfg', g') →
  ∃ p, cfg' = cfg <| disks := cfg.(disks) ++ [p] |> ∧
    g' = g <| g_saved := <[i := Some (length cfg.(disks))]> g.(g_saved) |> ∧ i < length g.(g_saved).
Proof.
  unfold fresh_persister, copy_saved. intros (s & Hs & Hf)%bind_Some. destruct s as [d|].
  - rewrite Hs in Hf. cbn [mbind option_bind] in Hf. apply bind_Some in Hf as (p & Hp & Hf).
    apply bind_Some in Hf as (sv & (Hi & ->)%set_at_Some & [= <- <-]). by eexists.
  - apply bind_Some in Hf as (sv & (Hi & ->)%set_at_Some & [= <- <-]). by eexists.
Qed.

Lemma shard_StartServer_spec gi i names mnames r cfg cfg' :
  StartServer ShardKV_methods kv_Raft_methods gi i names mnames r cfg = Some cfg' →
  ∃ g g' x, started gi i cfg cfg' g g' x.
Proof.
  unfold StartServer. intros (g & Hg & ([es rn1] & [Hs1 _]%open_ends_servers & Hs)%bind_Some)%bind_Some.
  apply bind_Some in Hs as (rows & (_ & ->)%set_at_Some & Hs).
  apply bind_Some in Hs as ([mes rn2] & [Hs2 _]%open_ends_servers & Hs).
  apply bind_Some in Hs as (mrows & (Hi & ->)%set_at_Some & Hs).
  apply bind_Some in Hs as ([c g1] & (p & -> & -> & Hsv)%shard_fresh_persister_spec & Hs).
  unfold launch in Hs. cbn in Hs, Hsv. rewrite list_lookup_insert_eq in Hs by done. cbn [mbind option_bind] in Hs.
  rewrite lookup_app_r, Nat.sub_diag in Hs by done. cbn in Hs.
  apply bind_Some in Hs as (kv & _ & Hs). apply bind_Some in Hs as (ds & (_ & ->)%set_at_Some & Hs).
  apply bind_Some in Hs as (ks & (Hk & ->)%set_at_Some & [= <-]).
  eexists g, _, _. split; try done; cbn.
  - split; [done|]. by rewrite length_insert.
  - by rewrite Hs2, Hs1.
Qed.

(** ** Who is on the network *)

Definition serves (name : string) (srv : @Server V T W) cfg : Prop :=
  ∃ sv rs, cfg.(net).(Labrpc.servers) !! NStr name = Some (Some sv) ∧ cfg.(heap) !! sv = Some rs ∧
    rs.(services) = srv.(services).

Record is_up (gi i : nat) (gid : Z) cfg : Prop := {
  up_ex : ∃ g p x, group_at gi cfg = Some g ∧ g.(g_gid) = gid ∧ g.(g_servers) !! i = Some (Some p) ∧
    cfg.(made) !! p = Some x ∧ x.(i_me) = i ∧ serves (servername gid i) (kv_server p) cfg
}.

Lemma serves_other name name' srv srv' cfg cfg' :
  serves name srv cfg → name' ≠ name →
  cfg'.(heap) = cfg.(heap) ++ [srv'] →
  cfg'.(net).(Labrpc.servers) = <[NStr name' := Some (length cfg.(heap))]> cfg.(net).(Labrpc.servers) →
  serves name srv cfg'.
Proof.
  intros (sv & rs & Hs & Hh & Hr) Hne E1 E2. exists sv, rs. rewrite E1, E2, lookup_insert_ne by congruence.
  split_and!; try done. by apply lookup_app_l_Some.
Qed.

Lemma serves_new name srv cfg cfg' :
  cfg'.(heap) = cfg.(heap) ++ [srv] →
  cfg'.(net).(Labrpc.servers) = <[NStr name := Some (length cfg.(heap))]> cfg.(net).(Labrpc.servers) →
  serves name srv cfg'.
Proof.
  intros E1 E2. exists (length cfg.(heap)), srv. rewrite E1, E2, lookup_insert_eq, lookup_app_r, Nat.sub_diag by done.
  by split_and!.
Qed.

Lemma group_at_insert gi gj g (l : list (option group)) :
  gi < length l → (g' ← <[gi := Some g]> l !! gj; g') = if decide (gj = gi) then Some g else (g' ← l !! gj; g').
Proof.
  intros Hl. case_decide as E; [subst; by rewrite list_lookup_insert_eq|by rewrite list_lookup_insert_ne].
Qed.

Lemma group_at_lt gi cfg g : group_at gi cfg = Some g → gi < length cfg.(groups).
Proof. unfold group_at. intros (o & Ho & _)%bind_Some. by eapply lookup_lt_Some. Qed.

Lemma started_up gi i cfg cfg' g g' x : started gi i cfg cfg' g g' x → is_up gi i g.(g_gid) cfg'.
Proof.
  intros [Hg Egs Egid Es [_ _] Hi [Em Hme] Eh En _]. split. exists g', (length cfg.(made)), x.
  unfold group_at. rewrite Egs, group_at_insert, decide_True by (try done; by eapply group_at_lt).
  rewrite Es, list_lookup_insert_eq, Em, lookup_app_r, Nat.sub_diag by done.
  split_and!; try done. by eapply serves_new.
Qed.

Lemma started_keeps_up gi i cfg cfg' g g' x gj j gid : started gi i cfg cfg' g g' x →
  (0 ≤ gid)%Z → (0 ≤ g.(g_gid))%Z → (gj = gi → j ≠ i) → (gid = g.(g_gid) → gj = gi) →
  is_up gj j gid cfg → is_up gj j gid cfg'.
Proof.
  intros [Hg Egs Egid Es [_ _] Hi [Em Hme] Eh En _] Hpos Hpos' Hne Hgid [(h & p & y & H1 & H2 & H3 & H4 & H5 & H6)].
  assert (serves (servername gid j) (kv_server p) cfg') as Hs.
  { eapply serves_other; [done| |done|done]. intros [Eg <-]%servername_inj; [|done..].
    by apply (Hne (Hgid (eq_sym Eg))). }
  assert (cfg'.(made) !! p = Some y) as Hm by (rewrite Em; by apply lookup_app_l_Some).
  split. unfold group_at. rewrite Egs. destruct (decide (gj = gi)) as [->|Hgj].
  - exists g', p, y. rewrite group_at_insert, decide_True by (try done; by eapply group_at_lt).
    rewrite Hg in H1. injection H1 as <-. rewrite Egid, Es, list_lookup_insert_ne by (symmetry; by apply Hne).
    by split_and!.
  - exists h, p, y. rewrite group_at_insert, decide_False by (try done; by eapply group_at_lt). by split_and!.
Qed.

(** ** [make_config] *)

Lemma StartMasterServer_spec i names r cfg cfg' :
  StartMasterServer ShardMaster_methods sm_Raft_methods i names r cfg = Some cfg' →
  cfg'.(heap) = cfg.(heap) ++ [sm_server i] ∧
  cfg'.(net).(Labrpc.servers) = <[NStr (mastername i) := Some (length cfg.(heap))]> cfg.(net).(Labrpc.servers) ∧
  cfg'.(n) = cfg.(n) ∧ cfg'.(nmasters) = cfg.(nmasters) ∧ cfg'.(ngroups) = cfg.(ngroups) ∧
  cfg'.(groups) = cfg.(groups).
Proof.
  unfold StartMasterServer. intros ([es rn] & [Hs _]%open_ends_servers & Hm)%bind_Some.
  apply bind_Some in Hm as (sm & _ & Hm). apply bind_Some in Hm as (ms & _ & [= <-]). cbn. by rewrite Hs.
Qed.

(** The masters are up, and the sizes are those of a harness with [m] servers a group. *)
Record base (m : nat) cfg : Prop := {
  b_n : cfg.(n) = m;
  b_masters : cfg.(nmasters) = 3;
  b_groups : length cfg.(groups) = 3;
  b_ngroups : cfg.(ngroups) = 3;
  b_serve i : i < 3 → serves (mastername i) (sm_server i) cfg
}.

Lemma base_started m gi i cfg cfg' g g' x : started gi i cfg cfg' g g' x → base m cfg → base m cfg'.
Proof.
  intros [_ Eg _ _ _ _ _ Eh En (E1 & E2 & E3 & _)] [B1 B2 B3 B4 B5].
  split; rewrite ?E1, ?E2, ?E3, ?Eg, ?length_insert; try done.
  intros k Hk. eapply serves_other; [by apply B5| |done|done]. done.
Qed.

(** The servers of the group: [gi] has gid [100 + gi]. *)
Definition gid_of (gi : nat) : Z := (100 + Z.of_nat gi)%Z.

(** The first groups are up, and the first [k] servers of group [gi]. *)
Record groups_up (m gi k : nat) cfg : Prop := {
  u_base : base m cfg;
  u_up gj j : gj < gi ∧ j < m ∨ gj = gi ∧ j < k → is_up gj j (gid_of gj) cfg;
  u_room gj : gj < gi → m ≤ 3
}.

Definition current (gi : nat) cfg : Prop :=
  ∃ g, group_at gi cfg = Some g ∧ g.(g_gid) = gid_of gi ∧ length g.(g_mendnames) = 3.

Lemma StartServer_up m gi k names mnames r cfg cfg' :
  StartServer ShardKV_methods kv_Raft_methods gi k names mnames r cfg = Some cfg' →
  groups_up m gi k cfg → current gi cfg → groups_up m gi (S k) cfg' ∧ current gi cfg' ∧ k < 3.
Proof.
  intros (g & g' & x & Hst)%shard_StartServer_spec [Hb Hup Hroom] (g0 & Hg0 & Hgid & Hm).
  pose proof (st_group _ _ _ _ _ _ _ Hst) as Hg. rewrite Hg0 in Hg. injection Hg as <-.
  destruct (st_mend _ _ _ _ _ _ _ Hst) as [Hk Hm']. split_and!; [split|..].
  - by eapply base_started.
  - intros gj j Hj. destruct (decide (gj = gi ∧ j = k)) as [[-> ->]|Hne].
    + rewrite <- Hgid. by eapply started_up.
    + eapply started_keeps_up; [exact Hst|unfold gid_of; lia|rewrite Hgid; unfold gid_of; lia| |rewrite Hgid; unfold gid_of; lia|].
      * intros -> ->. by apply Hne.
      * apply Hup. lia.
  - done.
  - exists g'. split; [|split; [by rewrite (st_gid _ _ _ _ _ _ _ Hst)|congruence]].
    unfold group_at. rewrite (st_groups _ _ _ _ _ _ _ Hst), group_at_insert, decide_True; [done..|].
    by eapply group_at_lt.
  - lia.
Qed.

Lemma group_loop_up m gi names mnames rs cfg cfg' k :
  foldM (λ cfg i, StartServer ShardKV_methods kv_Raft_methods gi i (names i) (mnames i) (rs i) cfg) cfg (seq 0 k) = Some cfg' →
  groups_up m gi 0 cfg → current gi cfg → groups_up m gi k cfg' ∧ current gi cfg' ∧ k ≤ 3.
Proof.
  revert cfg'. induction k as [|k IH]; intros cfg' Hf Hup Hc; [injection Hf as <-; split_and!; [done..|lia]|].
  rewrite seq_S, foldM_app in Hf. apply bind_Some in Hf as (c & Hf & Hs). cbn in Hs.
  apply bind_Some in Hs as (c' & Hs & [= <-]). destruct (IH _ Hf Hup Hc) as (Hu & Hc' & _).
  destruct (StartServer_up _ _ _ _ _ _ _ _ Hs Hu Hc') as (? & ? & ?). split_and!; [done..|lia].
Qed.

Lemma new_group_up m gi cfg k :
  gi < length cfg.(groups) → groups_up m gi 0 cfg → k = 3 →
  let cfg' := cfg <| groups := <[gi := Some (new_group gi m k)]> cfg.(groups) |> in
  groups_up m gi 0 cfg' ∧ current gi cfg'.
Proof.
  intros Hgi [[B1 B2 B3 B4 B5] Hup Hroom] -> cfg'. split; [split; [split|..]|]; try done.
  - cbn. by rewrite length_insert.
  - intros gj j [[Hj ?]|[-> ?]]; [|lia].
    destruct (Hup gj j) as [(g & p & y & H1 & H2)]; [lia|]. split. exists g, p, y. split; [|exact H2].
    unfold group_at in *. cbn. rewrite group_at_insert, decide_False by (try done; lia). done.
  - exists (new_group gi m 3). split; [|split; [done|apply length_replicate]].
    unfold group_at. cbn. by rewrite group_at_insert, decide_True.
Qed.

Lemma masters_up m max mnames mrs k cfg :
  foldM (λ cfg i, StartMasterServer ShardMaster_methods sm_Raft_methods i (mnames i) (mrs i) cfg)
    (empty_config m max) (seq 0 k) = Some cfg →
  cfg.(n) = m ∧ cfg.(nmasters) = 3 ∧ cfg.(ngroups) = 3 ∧ cfg.(groups) = replicate 3 None ∧
  ∀ i, i < k → serves (mastername i) (sm_server i) cfg.
Proof.
  revert cfg. induction k as [|k IH]; intros cfg Hf; [injection Hf as <-; split_and!; [done..|lia]|].
  rewrite seq_S, foldM_app in Hf. apply bind_Some in Hf as (c & Hf & Hs). cbn in Hs.
  apply bind_Some in Hs as (c' & (Eh & En & E1 & E2 & E3 & E4)%StartMasterServer_spec & [= <-]).
  destruct (IH _ Hf) as (B1 & B2 & B3 & B4 & B5). split_and!; try congruence. intros i Hi.
  destruct (decide (i = k)) as [->|]; [by eapply serves_new|].
  eapply serves_other; [apply B5; lia| |done|done]. by intros ?%mastername_inj.
Qed.

Lemma groups_loop_up m names mnames rs cfg cfg' k : k ≤ 3 → m ≠ 0 →
  foldM (λ cfg gi,
    gs ← set_at cfg.(groups) gi (Some (new_group gi cfg.(n) cfg.(nmasters)));
    foldM (λ cfg i, StartServer ShardKV_methods kv_Raft_methods gi i (names gi i) (mnames gi i) (rs gi i) cfg)
      (cfg <| groups := gs |>) (seq 0 cfg.(n))) cfg (seq 0 k) = Some cfg' →
  groups_up m 0 0 cfg → groups_up m k 0 cfg'.
Proof.
  intros Hk Hm. revert Hk cfg'. induction k as [|k IH]; intros Hk cfg' Hf Hup; [by injection Hf as <-|].
  rewrite seq_S, foldM_app in Hf. apply bind_Some in Hf as (c & Hf & Hs). cbn [foldM Nat.add] in Hs.
  specialize (IH ltac:(lia) _ Hf Hup). apply bind_Some in Hs as (c' & Hs & [= <-]).
  apply bind_Some in Hs as (gs & (Hi & ->)%set_at_Some & Hs).
  destruct (u_base _ _ _ _ IH) as [B1 B2 _ _ _]. rewrite B1, B2 in Hs.
  destruct (new_group_up _ _ _ 3 Hi IH eq_refl) as [Hn Hc].
  destruct (group_loop_up _ _ _ _ _ _ _ _ Hs Hn Hc) as ([Hb Hu Hr] & _ & H3). split; [done| |].
  - intros gj j Hj. apply Hu. lia.
  - intros gj Hgj. lia.
Qed.

Lemma makeClient_room names cfg ck cfg' : makeClient names cfg = Some (ck, cfg') → cfg.(nmasters) ≤ cfg.(n).
Proof.
  unfold makeClient. intros ([es rn] & Hf & _)%bind_Some.
  assert (∀ k es0 rn0, foldM (λ '(endnames, rn) j,
    endnames ← set_at endnames j (NStr (names j));
    rn ← open_end (NStr (names j)) (NStr (mastername j)) rn; Some (endnames, rn)) (es0, rn0) (seq 0 k) = Some (es, rn) →
    length es = length es0 ∧ k ≤ length es0) as Hloop.
  { clear Hf. revert es rn. intros es rn k. revert es rn. induction k as [|k IH]; intros es rn es0 rn0 Hf.
    - injection Hf as -> ->. split; [done|lia].
    - rewrite seq_S, foldM_app in Hf. apply bind_Some in Hf as ([es1 rn1] & Hf & Hs). apply IH in Hf as [H1 H2].
      cbn in Hs. apply bind_Some in Hs as ([es2 rn2] & Hs & [= <- <-]).
      apply bind_Some in Hs as (es3 & (Hk & ->)%set_at_Some & (? & _ & [= <- <-])%bind_Some).
      rewrite length_insert. lia. }
  apply Hloop in Hf as [_ Hf]. by rewrite length_replicate in Hf.
Qed.

(** When [make_config] of the sharded tests returns, the three masters are on the network
    under their names, and every server of the three groups under the name that the master
    is told when the group joins; the names of different servers are different.  But it
    returns only for groups of at most three servers, and then [makeClient] works only for
    groups of at least three, since the names of the ends to the masters are kept in
    slices that are as long as a group, and the other way round. *)
Theorem sharded_groups_are_up m unreliable max mnames mrs cnames snames smnames srs cfg :
  make_config ShardKV_methods kv_Raft_methods ShardMaster_methods sm_Raft_methods m unreliable max
    mnames mrs cnames snames smnames srs = Some cfg → 0 < m →
  (∀ i, i < 3 → serves (mastername i) (sm_server i) cfg) ∧
  (∀ gi, gi < 3 → ∃ gid names, joinm_args [gi] cfg = Some {[gid := names]} ∧ length names = m ∧
    ∀ i name, names !! i = Some name → ∃ g p x, group_at gi cfg = Some g ∧ g.(g_gid) = gid ∧
      g.(g_servers) !! i = Some (Some p) ∧ cfg.(made) !! p = Some x ∧ x.(i_me) = i ∧
      serves name (kv_server p) cfg) ∧
  m ≤ 3 ∧ (∀ names ck cfg', makeClient names cfg = Some (ck, cfg') → m = 3).
Proof.
  unfold make_config. intros (c1 & H1 & ([es c2] & H2 & (c3 & H3 & [= <-])%bind_Some)%bind_Some)%bind_Some Hm.
  destruct (masters_up _ _ _ _ _ _ H1) as (B1 & B2 & B3 & B4 & B5).
  unfold shardclerk in H2. apply bind_Some in H2 as ([es' rn] & [Hs _]%open_ends_servers & [= <- <-]).
  cbn [ngroups over] in H3. rewrite B3 in H3.
  eapply groups_loop_up in H3; [|lia|by apply Nat.neq_0_lt_0|].
  - destruct H3 as [[C1 C2 C3 C4 C5] Hup Hroom].
    assert (m ≤ 3) as Hm3 by (apply (Hroom 0); lia). split_and!.
    + intros i Hi. by destruct (C5 i Hi) as (sv & rs & ?); exists sv, rs.
    + intros gi Hgi. exists (gid_of gi), (servername (gid_of gi) <$> seq 0 m).
      destruct (Hup gi 0) as [(g & _ & _ & Hg & Hgid & _)]; [lia|].
      split; [|split; [by rewrite length_fmap, length_seq|]].
      { unfold joinm_args. cbn [foldM]. unfold group_at in *. cbn [groups over n] in *. rewrite Hg.
        cbn [mbind option_bind]. rewrite Hgid. by rewrite C1. }
      intros i name (j & -> & [-> Hj]%lookup_seq)%list_lookup_fmap_Some.
      destruct (Hup gi (0 + i)) as [(g' & p & x & ? & ? & ? & ? & ? & sv & rs & ?)]; [lia|].
      exists g', p, x. split_and!; try done. by exists sv, rs.
    + done.
    + intros names ck cfg' Hmk%makeClient_room. cbn in Hmk. lia.
  - split; [split; try done|lia|lia].
    + cbn. by rewrite B4.
    + intros i Hi. destruct (B5 i Hi) as (sv & rs & S1 & S2 & S3). exists sv, rs. cbn. by rewrite Hs.
Qed.
End shard.

(** ** A run with groups of three *)

#[local] Existing Instance codec.

Module Demo.
Definition methods (q : nat) : list (@method unit unit unit) := [].
Definition name (first i j k : nat) : string := String (Ascii.ascii_of_nat (first + 9 * i + 3 * j + k)) "".
Definition made : option (@config unit unit unit) :=
  make_config methods methods methods methods 3 false (-1) (name 0 0) (λ _, 0%Z) (name 9 0 0) (name 12) (name 39)
    (λ _ _, 0%Z).
Definition cfg : @config unit unit unit := default (empty_config 0 0) made.
Lemma shard_cfg_made : made = Some cfg.
Proof. apply succeeds. vm_compute. reflexivity. Qed.
End Demo.

Lemma sharded_groups_are_up_witness :
  (∀ i, i < 3 → serves (mastername i) (sm_server Demo.methods Demo.methods i) Demo.cfg) ∧
  (∀ gi, gi < 3 → ∃ gid names, joinm_args [gi] Demo.cfg = Some {[gid := names]} ∧ length names = 3 ∧
    ∀ i name, names !! i = Some name → ∃ g p x, group_at gi Demo.cfg = Some g ∧ g.(g_gid) = gid ∧
      g.(g_servers) !! i = Some (Some p) ∧ Demo.cfg.(made) !! p = Some x ∧ x.(i_me) = i ∧
      serves name (kv_server Demo.methods Demo.methods p) Demo.cfg) ∧
  3 ≤ 3 ∧ (∀ names ck cfg', makeClient names Demo.cfg = Some (ck, cfg') → 3 = 3).
Proof.
  apply (sharded_groups_are_up Demo.methods Demo.methods Demo.methods Demo.methods 3 false (-1) (Demo.name 0 0)
    (λ _, 0%Z) (Demo.name 9 0 0) (Demo.name 12) (Demo.name 39) (λ _ _, 0%Z) Demo.cfg).
  - exact Demo.shard_cfg_made.
  - lia.
Defined.
