(* ===== verification/PorcVisual.v ===== *)
(** The data that the visualization of a check is drawn from
    ([src/src/porcupine/visualization.go], [computeVisualizationData]): every operation
    with its times, the partial linearizations with the states they go through, and for
    every operation the longest of them that has it.

    The two functions that describe are arguments, for what [fillDefault] gives the
    model; [sort.Slice] is another, and need not be stable.  A model that is asked to
    describe or to step with a value that is missing or is the other one panics, which
    is [None], as an index out of range and a step that is not accepted are. *)
From S2P Require Import Prelude PorcBitset PorcChecker PorcLin PorcList PorcSearch PorcSingle PorcOps PorcParallel.
From S2P Require Import PorcKV PorcProps.
Open Scope Z_scope.
Import entry.

Record historyElement := mkElement { ClientId : Z; Start : Z; End : Z; Description : string }.
#[export] Instance eta_historyElement : Eta historyElement :=
  λ h, mkElement h.(ClientId) h.(Start) h.(End) h.(Description).

Record linearizationStep := mkStep { Index : Z; StateDescription : string }.

Record partitionVisualizationData := mkData {
  History : list historyElement;
  PartialLinearizations : list (list linearizationStep);
  Largest : gmap Z Z
}.

Section visualization.
Context {In Out St : Type} (step : St → In → Out → bool * St) (init : St).
Context (describe_op : In → Out → string) (describe_state : St → string).
Context (sort_longest : list (list Z) → list (list Z)).
Local Abbreviation entry := (entry.t In Out).
Local Abbreviation value := (value In Out).

Definition DescribeOperation (call : option value) (ret : value) : option string :=
  match call, ret with Some (VIn i), VOut o => Some (describe_op i o) | _, _ => None end.

Record values := mkValues {
  history : list historyElement;
  callValue : gmap Z value;
  returnValue : gmap Z value
}.

Definition read_entry (st : values) (elem : entry) : option values :=
  let '(mkValues hs cv rv) := st in
  h ← zget hs elem.(id);
  if elem.(kind) then
    d ← DescribeOperation (cv !! elem.(id)) elem.(val);
    hs ← zset hs elem.(id) (h <| End := elem.(time) |> <| Description := d |>);
    Some (mkValues hs cv (<[elem.(id) := elem.(val)]> rv))
  else
    hs ← zset hs elem.(id) (h <| ClientId := elem.(clientId) |> <| Start := elem.(time) |>);
    Some (mkValues hs (<[elem.(id) := elem.(val)]> cv) rv).

Definition read_history (E : list entry) : option values :=
  foldM read_entry (mkValues (replicate (Z.to_nat (zlen E / 2)) (mkElement 0 0 0 "")) ∅ ∅) E.

(** The variables of the loop over one partial linearization. *)
Record playing := mkPlaying {
  state : St;
  linearization : list linearizationStep;
  largestSize : gmap Z Z;
  largestIndex : gmap Z Z
}.

Definition play (v : values) (i len : Z) (p : playing) (histId : Z) : option playing :=
  match v.(callValue) !! histId, v.(returnValue) !! histId with
  | Some (VIn inp), Some (VOut out) =>
      let '(ok, st) := step p.(state) inp out in
      if ok : bool then
        let lin := p.(linearization) ++ [mkStep histId (describe_state st)] in
        Some (if default 0 (p.(largestSize) !! histId) <? len then
          mkPlaying st lin (<[histId := len]> p.(largestSize)) (<[histId := i]> p.(largestIndex))
        else mkPlaying st lin p.(largestSize) p.(largestIndex))
      else None
  | _, _ => None
  end.

Definition play_all (v : values) (partials : list (list Z))
    : option (list (list linearizationStep) * gmap Z Z * gmap Z Z) :=
  foldM (λ '(ls, size, index) '(i, partial),
    p ← foldM (play v i (zlen partial)) (mkPlaying init [] size index) partial;
    Some (ls ++ [p.(linearization)], p.(largestSize), p.(largestIndex)))
    ([], ∅, ∅) (imap (λ i p, (Z.of_nat i, p)) partials).

Definition compute_partition (E : list entry) (partials : list (list Z)) : option partitionVisualizationData :=
  v ← read_history E;
  '(ls, _, index) ← play_all v (sort_longest partials);
  Some (mkData v.(history) ls index).

Definition computeVisualizationData (info : @linearizationInfo In Out) : option (list partitionVisualizationData) :=
  foldM (λ data '(i, E),
    ps ← zget info.(partialLinearizations) i; d ← compute_partition E ps; Some (data ++ [d]))
    [] (imap (λ i E, (Z.of_nat i, E)) info.(history_)).

(** ** Reading the history *)

(** What was read of the entries of [P]. *)
Record read_of (n : Z) (P : list entry) (v : values) : Prop := {
  r_len : zlen v.(history) = n;
  r_call c : c ∈ P → is_call c → v.(callValue) !! c.(id) = Some c.(val) ∧
    ∃ h, zget v.(history) c.(id) = Some h ∧ h.(ClientId) = c.(clientId) ∧ h.(Start) = c.(time);
  r_return r : r ∈ P → is_return r → v.(returnValue) !! r.(id) = Some r.(val) ∧
    ∃ h, zget v.(history) r.(id) = Some h ∧ h.(End) = r.(time) ∧
      DescribeOperation (v.(callValue) !! r.(id)) r.(val) = Some h.(Description)
}.

Lemma read_entry_ok n P e Q v :
  matched (P ++ e :: Q) → 0 ≤ e.(id) < n → read_of n P v →
  ∃ v', read_entry v e = Some v' ∧ read_of n (P ++ [e]) v'.
Proof.
  intros HE Hid [Hlen Hc Hr]. destruct v as [hs cv rv]. cbn [history callValue returnValue] in *.
  assert (∀ x, x ∈ P → x.(kind) = e.(kind) → x.(id) ≠ e.(id)) as Hother.
  { intros x Hx Hk Heq. pose proof (matched_NoDup _ HE) as Hnd.
    assert (x = e) as -> by (apply (matched_unique _ x e HE); [set_solver..|done|done]).
    apply NoDup_app in Hnd as (_ & Hn & _). apply (Hn e Hx). by left. }
  destruct (zget_lt hs e.(id)) as [h Hh]; [lia|].
  unfold read_entry. rewrite Hh. cbn [mbind option_bind]. destruct (e.(kind)) eqn:Hk.
  - destruct (m_return _ HE e) as (c & Hcc & Hcid & Hp); [set_solver|done|].
    assert (c ∈ P) as HcP by (eapply precedes_before; [by apply matched_NoDup|done]).
    destruct (Hc c HcP Hcc) as [Hcv _]. rewrite <- Hcid, Hcv.
    pose proof (m_typed _ HE c ltac:(set_solver)) as Ht1. pose proof (m_typed _ HE e ltac:(set_solver)) as Ht2.
    unfold is_call in Hcc. rewrite Hcc in Ht1. rewrite Hk in Ht2. destruct Ht1 as [inp Hinp], Ht2 as [out Hout].
    rewrite Hinp, Hout. cbn [DescribeOperation mbind option_bind].
    rewrite zset_lt by lia. cbn [mbind option_bind]. eexists. split; [done|]. rewrite Hcid.
    set (h' := h <| End := _ |> <| Description := _ |>).
    assert (∀ j, zget (<[Z.to_nat e.(id) := h']> hs) j = if decide (j = e.(id)) then Some h' else zget hs j) as Hg.
    { intros j. assert (zset hs e.(id) h' = Some (<[Z.to_nat e.(id) := h']> hs)) as Hz by (apply zset_lt; lia).
      case_decide as E; [subst; by eapply zget_zset_eq|by eapply zget_zset_ne]. }
    split; cbn [history callValue returnValue].
    + unfold zlen in *. by rewrite length_insert.
    + intros x [Hx|Hx]%elem_of_app Hxc; [|apply list_elem_of_singleton in Hx as ->; unfold is_call in Hxc; congruence].
      destruct (Hc x Hx Hxc) as (? & h0 & Hh0 & E1 & E2). split; [done|]. rewrite Hg. case_decide as E.
      * exists h'. rewrite E in Hh0. rewrite Hh in Hh0. injection Hh0 as ->. done.
      * by exists h0.
    + intros x [Hx|Hx]%elem_of_app Hxr.
      * assert (x.(id) ≠ e.(id)) as Hne by (apply Hother; [done|congruence]).
        destruct (Hr x Hx Hxr) as (? & h0 & ? & ?). rewrite lookup_insert_ne by done. split; [done|].
        exists h0. by rewrite Hg, decide_False.
      * apply list_elem_of_singleton in Hx as ->. rewrite lookup_insert_eq. split; [congruence|].
        exists h'. rewrite Hg, decide_True by done. rewrite <- Hcid, Hcv, Hinp, Hout. done.
  - rewrite zset_lt by lia. cbn [mbind option_bind]. eexists. split; [done|].
    set (h' := h <| ClientId := _ |> <| Start := _ |>).
    assert (∀ j, zget (<[Z.to_nat e.(id) := h']> hs) j = if decide (j = e.(id)) then Some h' else zget hs j) as Hg.
    { intros j. assert (zset hs e.(id) h' = Some (<[Z.to_nat e.(id) := h']> hs)) as Hz by (apply zset_lt; lia).
      case_decide as E; [subst; by eapply zget_zset_eq|by eapply zget_zset_ne]. }
    split; cbn [history callValue returnValue].
    + unfold zlen in *. by rewrite length_insert.
    + intros x [Hx|Hx]%elem_of_app Hxc.
      * assert (x.(id) ≠ e.(id)) as Hne by (apply Hother; [done|congruence]).
        destruct (Hc x Hx Hxc) as (? & h0 & ? & ?). rewrite lookup_insert_ne by done. split; [done|].
        exists h0. by rewrite Hg, decide_False.
      * apply list_elem_of_singleton in Hx as ->. rewrite lookup_insert_eq. split; [done|].
        exists h'. by rewrite Hg, decide_True.
    + intros x [Hx|Hx]%elem_of_app Hxr; [|apply list_elem_of_singleton in Hx as ->; unfold is_return in Hxr; congruence].
      destruct (m_return _ HE x) as (c & Hcc & Hcid & Hp); [set_solver|done|].
      assert (c ∈ P) as HcP.
      { apply list_elem_of_split in Hx as (P1 & P2 & ->). apply elem_of_app. left.
        eapply (precedes_before c x P1 (P2 ++ e :: Q)).
        - pose proof (matched_NoDup _ HE) as Hnd. by rewrite <- app_assoc in Hnd.
        - by rewrite <- app_assoc in Hp. }
      assert (x.(id) ≠ e.(id)) as Hne.
      { rewrite <- Hcid. apply Hother; [done|]. unfold is_call in Hcc. congruence. }
      destruct (Hr x Hx Hxr) as (? & h0 & ? & ? & ?). split; [done|]. exists h0.
      by rewrite Hg, decide_False, lookup_insert_ne by done.
Qed.

Lemma read_history_ok E : matched E → numbered E →
  ∃ v, read_history E = Some v ∧ read_of (zlen E / 2) E v.
Proof.
  intros HE Hn. unfold read_history. set (v0 := mkValues _ _ _).
  assert (∀ Q P v, E = P ++ Q → read_of (zlen E / 2) P v →
    ∃ v', foldM read_entry v Q = Some v' ∧ read_of (zlen E / 2) E v') as Hloop.
  { induction Q as [|e Q IH]; intros P v HPQ Hv; [rewrite app_nil_r in HPQ; subst P; by exists v|].
    destruct (read_entry_ok (zlen E / 2) P e Q v) as (v' & Hv' & Hr'); [by rewrite <- HPQ| |done|].
    { apply Hn, list_elem_of_fmap_2. rewrite HPQ. set_solver. }
    cbn [foldM]. rewrite Hv'. cbn [mbind option_bind]. apply (IH (P ++ [e])); [by rewrite <- app_assoc|done]. }
  apply (Hloop E []); [done|]. split; [|by intros ? ?%elem_of_nil..].
  subst v0. cbn [history]. unfold zlen at 1. rewrite length_replicate.
  assert (0 ≤ zlen E / 2) by (apply Z.div_pos; [apply zlen_nonneg|lia]). lia.
Qed.

(** ** Playing the linearizations *)

(** The operations in this order, with the states they lead to. *)
Inductive shows (E : list entry) : St → list Z → list linearizationStep → Prop :=
  | shows_nil s : shows E s [] []
  | shows_cons s i inp out s' σ ls :
      op_of E i inp out → step s inp out = (true, s') → shows E s' σ ls →
      shows E s (i :: σ) (mkStep i (describe_state s') :: ls).

(** The largest of the linearizations in [ps] that have the operation. *)
Definition largest_in (ps : list (list Z)) (size index : gmap Z Z) : Prop :=
  ∀ x, match index !! x with
  | Some i => ∃ σ, zget ps i = Some σ ∧ x ∈ σ ∧ size !! x = Some (zlen σ) ∧
      ∀ σ', σ' ∈ ps → x ∈ σ' → zlen σ' ≤ zlen σ
  | None => size !! x = None ∧ ∀ σ, σ ∈ ps → x ∉ σ
  end.

Section playing.
Context (E : list entry) (v : values).
Hypothesis Hread : ∀ i inp out, op_of E i inp out →
  v.(callValue) !! i = Some (VIn inp) ∧ v.(returnValue) !! i = Some (VOut out).

(** [σ2] is still to be played; the maps say the largest of the earlier ones and of [σ1]. *)
Definition partly (ps : list (list Z)) (σ σ1 : list Z) (size index : gmap Z Z) : Prop :=
  ∀ x, match index !! x with
  | Some i => ∃ σ', zget (ps ++ [σ]) i = Some σ' ∧ x ∈ σ' ∧ size !! x = Some (zlen σ') ∧
      (∀ σ'', σ'' ∈ ps → x ∈ σ'' → zlen σ'' ≤ zlen σ') ∧ (x ∈ σ1 → zlen σ ≤ zlen σ')
  | None => size !! x = None ∧ (∀ σ', σ' ∈ ps → x ∉ σ') ∧ x ∉ σ1
  end.

Lemma play_ok ps σ σ1 σ2 s lin size index :
  σ = σ1 ++ σ2 → NoDup σ → accepts step E s σ2 → partly ps σ σ1 size index →
  ∃ p ls, foldM (play v (zlen ps) (zlen σ)) (mkPlaying s lin size index) σ2 = Some p ∧
    p.(linearization) = lin ++ ls ∧ shows E s σ2 ls ∧ partly ps σ σ p.(largestSize) p.(largestIndex).
Proof using All.
  intros Hσ Hnd Hacc. revert σ1 lin size index Hσ.
  induction Hacc as [s|s i inp out s' σ2 Hop Hst Hacc IH]; intros σ1 lin size index Hσ Hp.
  { eexists _, []. rewrite app_nil_r in Hσ. subst σ1. split; [done|]. cbn. rewrite app_nil_r.
    split_and!; [done|constructor|done]. }
  destruct (Hread _ _ _ Hop) as [Hc Hr]. cbn [foldM].
  set (lin' := lin ++ [mkStep i (describe_state s')]).
  assert (play v (zlen ps) (zlen σ) (mkPlaying s lin size index) i =
    Some (if default 0 (size !! i) <? zlen σ
      then mkPlaying s' lin' (<[i := zlen σ]> size) (<[i := zlen ps]> index)
      else mkPlaying s' lin' size index)) as ->.
  { unfold play. rewrite Hc, Hr. cbn [state]. by rewrite Hst. }
  cbn [mbind option_bind].
  assert (i ∉ σ1) as Hi by (intros Hin; rewrite Hσ in Hnd; apply NoDup_app in Hnd as (_ & Hn & _); apply (Hn i Hin); by left).
  assert (∃ size' index', (if default 0 (size !! i) <? zlen σ
    then mkPlaying s' lin' (<[i := zlen σ]> size) (<[i := zlen ps]> index)
    else mkPlaying s' lin' size index) = mkPlaying s' lin' size' index' ∧ partly ps σ (σ1 ++ [i]) size' index')
    as (size' & index' & -> & Hp').
  { destruct (Z.ltb_spec (default 0 (size !! i)) (zlen σ)) as [Hlt|Hge]; (do 2 eexists; split; [done|]).
    - intros x. destruct (decide (x = i)) as [->|Hne].
      + rewrite !lookup_insert_eq. exists σ. rewrite zget_last. split; [done|]. split; [rewrite Hσ; set_solver|].
        split; [done|]. split; [|done]. intros σ'' Hin Hx. specialize (Hp i).
        destruct (index !! i) as [k|]; [|by destruct Hp as (_ & Hno & _); apply Hno in Hin].
        destruct Hp as (σ' & _ & _ & Hs & Hmax & _). rewrite Hs in Hlt. cbn in Hlt. specialize (Hmax _ Hin Hx). lia.
      + rewrite !lookup_insert_ne by done. specialize (Hp x). destruct (index !! x) as [k|].
        * destruct Hp as (σ' & H1 & H2 & H3 & H4 & H5). exists σ'. split_and!; try done.
          intros [?|?%list_elem_of_singleton]%elem_of_app; [auto|done].
        * destruct Hp as (H1 & H2 & H3). split_and!; try done. set_solver.
    - intros x. specialize (Hp x) as Hpx. destruct (index !! x) as [k|] eqn:Hx.
      + destruct Hpx as (σ' & H1 & H2 & H3 & H4 & H5). exists σ'. split_and!; try done.
        intros [?|Heq%list_elem_of_singleton]%elem_of_app; [auto|subst x]. rewrite H3 in Hge. done.
      + destruct Hpx as (H1 & H2 & H3). split_and!; try done.
        intros [?|Heq%list_elem_of_singleton]%elem_of_app; [auto|subst x]. rewrite H1 in Hge. cbn in Hge.
        assert (0 < zlen σ); [|lia]. rewrite Hσ, zlen_app, zlen_cons. pose proof (zlen_nonneg σ1). pose proof (zlen_nonneg σ2). lia. }
  destruct (IH (σ1 ++ [i]) lin' size' index') as (p & ls & Hf & Hl & Hsh & Hpp); [by rewrite <- app_assoc|done|].
  exists p, (mkStep i (describe_state s') :: ls). split; [done|]. split_and!; [|by econstructor|done].
  rewrite Hl. subst lin'. by rewrite <- app_assoc.
Qed.
End playing.

Lemma read_of_ops E v n : matched E → read_of n E v → ∀ i inp out, op_of E i inp out →
  v.(callValue) !! i = Some (VIn inp) ∧ v.(returnValue) !! i = Some (VOut out).
Proof.
  intros HE Hv i inp out (c & r & Hc & Hr & Hcc & Hrr & <- & Hid & Hi & Ho). rewrite <- Hi, <- Ho, <- Hid. split.
  - rewrite Hid. by apply (r_call _ _ _ Hv).
  - by apply (r_return _ _ _ Hv).
Qed.

Lemma play_all_ok E v n partials : matched E → read_of n E v →
  Forall (λ σ, NoDup σ ∧ accepts step E init σ) partials →
  ∃ ls size index, play_all v partials = Some (ls, size, index) ∧
    Forall2 (shows E init) partials ls ∧ largest_in partials size index.
Proof.
  intros HE Hv Hall. pose proof (read_of_ops E v n HE Hv) as Hread. unfold play_all.
  induction partials as [|σ ps IH] using rev_ind.
  { exists [], ∅, ∅. split; [done|]. split; [constructor|]. intros x. rewrite !lookup_empty. split; [done|].
    by intros σ ?%elem_of_nil. }
  apply Forall_app in Hall as [Hall [[Hnd Hacc] _]%Forall_cons].
  destruct (IH Hall) as (ls & size & index & Hf & Hls & Hbig). clear IH.
  rewrite imap_app, foldM_app, Hf. cbn [mbind option_bind imap foldM]. rewrite Nat.add_0_r.
  change (Z.of_nat (List.length ps)) with (zlen ps).
  assert (partly ps σ [] size index) as Hp.
  { intros x. specialize (Hbig x). destruct (index !! x) as [i|].
    - destruct Hbig as (σ' & H1 & H2 & H3 & H4). exists σ'. split_and!; try done.
      + rewrite zget_app_l; [done|]. apply zget_Some_range in H1. lia.
      + by intros ?%elem_of_nil.
    - destruct Hbig. split_and!; try done. by intros ?%elem_of_nil. }
  destruct (play_ok E v Hread ps σ [] σ init [] size index eq_refl Hnd Hacc Hp) as (p & l & -> & Hl & Hsh & Hp').
  cbn [mbind option_bind]. do 3 eexists. split; [done|]. split.
  - apply Forall2_app; [done|]. constructor; [|done]. by rewrite Hl.
  - intros x. specialize (Hp' x). destruct (p.(largestIndex) !! x) as [i|].
    + destruct Hp' as (σ' & H1 & H2 & H3 & H4 & H5). exists σ'. split_and!; try done.
      intros σ'' [?|Heq%list_elem_of_singleton]%elem_of_app ?; [auto|subst σ''; auto].
    + destruct Hp' as (H1 & H2 & H3). split; [done|].
      intros σ'' [?|Heq%list_elem_of_singleton]%elem_of_app; [auto|by subst σ''].
Qed.

(** The picture of one partition. *)
Record drawn (E : list entry) (partials : list (list Z)) (d : partitionVisualizationData) : Prop := {
  d_ops c r inp out : c ∈ E → r ∈ E → is_call c → is_return r → r.(id) = c.(id) →
    c.(val) = VIn inp → r.(val) = VOut out →
    zget d.(History) c.(id) = Some (mkElement c.(clientId) c.(time) r.(time) (describe_op inp out));
  d_partials : Forall2 (shows E init) (sort_longest partials) d.(PartialLinearizations);
  d_largest x : match d.(Largest) !! x with
    | Some i => ∃ σ, zget (sort_longest partials) i = Some σ ∧ x ∈ σ ∧
        ∀ σ', σ' ∈ partials → x ∈ σ' → zlen σ' ≤ zlen σ
    | None => ∀ σ, σ ∈ partials → x ∉ σ
    end
}.

Lemma compute_partition_ok E partials :
  matched E → numbered E → sort_longest partials ≡ₚ partials →
  Forall (partial_linearization step E init) partials →
  ∃ d, compute_partition E partials = Some d ∧ drawn E partials d.
Proof.
  intros HE Hn Hsort Hps. destruct (read_history_ok E HE Hn) as (v & Hv & Hr).
  destruct (play_all_ok E v _ (sort_longest partials) HE Hr) as (ls & size & index & Hf & Hls & Hbig).
  { rewrite Hsort. eapply Forall_impl; [exact Hps|]. by intros σ []. }
  unfold compute_partition. rewrite Hv. cbn [mbind option_bind]. rewrite Hf. cbn [mbind option_bind].
  eexists. split; [done|]. split; cbn [History PartialLinearizations Largest]; [|done|].
  - intros c r inp out Hc Hr' Hcc Hrr Hid Hi Ho. destruct (r_call _ _ _ Hr c Hc Hcc) as (Hcv & h & Hh & E1 & E2).
    destruct (r_return _ _ _ Hr r Hr' Hrr) as (_ & h' & Hh' & E3 & E4). rewrite Hid, Hh in Hh'. injection Hh' as <-.
    rewrite Hid, Hcv, Hi, Ho in E4. injection E4 as E4. rewrite Hh. destruct h; cbn in *; congruence.
  - intros x. specialize (Hbig x). destruct (index !! x) as [i|].
    + destruct Hbig as (σ & H1 & H2 & _ & H4). exists σ. split_and!; try done. intros σ' Hσ'. apply H4. by rewrite Hsort.
    + intros σ Hσ. apply Hbig. by rewrite Hsort.
Qed.

Lemma compute_ok hs pss :
  Forall (λ E, matched E ∧ numbered E) hs → (∀ l, sort_longest l ≡ₚ l) →
  Forall2 (λ E ps, Forall (partial_linearization step E init) ps) hs pss →
  ∃ ds, computeVisualizationData (mkInfo hs pss) = Some ds ∧
    List.length ds = List.length hs ∧
    ∀ k E ps, hs !! k = Some E → pss !! k = Some ps → ∃ d, ds !! k = Some d ∧ drawn E ps d.
Proof.
  intros Hhs Hsort Hps. unfold computeVisualizationData. cbn [history_ partialLinearizations].
  assert (∀ k, (k ≤ List.length hs)%nat → ∃ ds, foldM (λ data '(i, E),
    ps ← zget pss i; d ← compute_partition E ps; Some (data ++ [d])) []
    (imap (λ i E, (Z.of_nat i, E)) (take k hs)) = Some ds ∧ List.length ds = k ∧
    ∀ j E ps, (j < k)%nat → hs !! j = Some E → pss !! j = Some ps → ∃ d, ds !! j = Some d ∧ drawn E ps d) as Hloop.
  { induction k as [|k IH]; intros Hk; [exists []; split_and!; [done|done|intros; lia]|].
    destruct IH as (ds & Hf & Hl & Hd); [lia|]. destruct (lookup_lt_is_Some_2 hs k ltac:(lia)) as [E HE].
    destruct (Forall2_lookup_l _ _ _ _ _ Hps HE) as (ps & Hp & Hall).
    rewrite (take_S_r _ _ _ HE), imap_app, foldM_app, Hf. cbn [mbind option_bind imap foldM].
    rewrite length_take_le, Nat.add_0_r, zget_lookup, Hp by lia. cbn [mbind option_bind].
    rewrite Forall_lookup in Hhs. destruct (Hhs _ _ HE) as [Hm Hn].
    destruct (compute_partition_ok E ps Hm Hn (Hsort ps) Hall) as (d & -> & Hdr). cbn [mbind option_bind].
    exists (ds ++ [d]). split; [done|]. split; [rewrite length_app; cbn; lia|].
    intros j E' ps' Hj HE' Hps'. destruct (decide (j = k)) as [->|].
    - simplify_eq. exists d. split; [|done]. by rewrite lookup_app_r, Nat.sub_diag.
    - destruct (Hd j E' ps') as (d' & Hd' & ?); [lia|done..|]. exists d'. split; [|done]. by apply lookup_app_l_Some. }
  destruct (Hloop (List.length hs)) as (ds & Hf & Hl & Hd); [done|].
  rewrite firstn_all in Hf. exists ds. split; [done|]. split; [done|]. intros k E ps HE.
  apply (Hd k E ps); [by apply lookup_lt_Some in HE|done].
Qed.
End visualization.

(** The model of the store describes no states; [fmt.Sprintf] with %v of a string is the
    string. *)
Definition DescribeState (state : string) : string := state.

(** C24: For a history of the key/value store that is not empty and whose times are
    apart ([timed]: an operation returns after it was called, and none is called at
    the very time an operation returns; with equal times the order of the unstable
    sort would matter), the verbose check without a timeout answers, and the
    visualization's data can be computed from what it gives, without the panic of a
    partial linearization that the model does not accept. Every operation of a key has
    its client, its times and its description; every partial linearization is shown
    with the states it goes through, and each is a linearization of some operations of
    its key; and for every operation that is in one of them, [Largest] is the place of
    a longest one. *)
Theorem visualization_shows_partials sort `{!SortsByTime sort} H order kill shuffle sort_longest :
  H ≠ [] → timed H → order ≡ₚ seq 0 (List.length (KvModel.Partition H)) →
  (∀ l : list nat, shuffle l ≡ₚ l) → (∀ l : list (list Z), sort_longest l ≡ₚ l) →
  ∃ res info ds,
    CheckOperationsVerbose sort KvModel.KvModel H (Some <$> order) kill shuffle = Some (res, info) ∧
    info.(history_) = makeEntries sort <$> KvModel.Partition H ∧
    computeVisualizationData KvModel.Step KvModel.Init KvModel.DescribeOperation DescribeState sort_longest info = Some ds ∧
    List.length ds = List.length (KvModel.Partition H) ∧
    ∀ k E ps, info.(history_) !! k = Some E → info.(partialLinearizations) !! k = Some ps →
      Forall (partial_linearization KvModel.Step E KvModel.Init) ps ∧
      ∃ d, ds !! k = Some d ∧ drawn KvModel.Step KvModel.Init KvModel.DescribeOperation DescribeState sort_longest E ps d.
Proof.
  intros Hne Ht Hp Hsh Hsort.
  destruct (checkParallel_partials (fillDefault KvModel.KvModel) ShallowEqual eq_refl
    (ShallowEqual_steps KvModel.Step) (makeEntries sort <$> KvModel.Partition H)
    (kv_partitions sort H Ht) order kill shuffle) as (res & [hs pss] & Hres & Hh & Hps).
  { by apply kv_hs_ne. }
  { by rewrite length_fmap. }
  { done. }
  cbn [history_ partialLinearizations] in Hh, Hps. subst hs.
  destruct (compute_ok KvModel.Step KvModel.Init KvModel.DescribeOperation DescribeState sort_longest _ pss
    (kv_partitions sort H Ht) Hsort Hps) as (ds & Hc & Hl & Hd).
  exists res, (mkInfo (makeEntries sort <$> KvModel.Partition H) pss), ds.
  split; [exact Hres|]. split; [done|]. split; [done|]. split; [by rewrite Hl, length_fmap|].
  intros k E ps HE Hk. cbn in HE, Hk. split; [|by apply (Hd k)].
  by apply (Forall2_lookup_lr _ _ _ _ _ _ Hps HE Hk).
Qed.

(** ** A picture *)

Module Demo.
Definition info : @linearizationInfo KvInput.t KvOutput.t :=
  match CheckOperationsVerbose sort_by_time KvModel.KvModel example_history [Some 0%nat; Some 1%nat] (λ _ _, false) (λ l, l) with
  | Some (_, i) => i
  | None => mkInfo [] []
  end.
Definition data := computeVisualizationData KvModel.Step KvModel.Init KvModel.DescribeOperation DescribeState (λ l, l) info.
End Demo.

#[local] Existing Instance sort_by_time_sorts.
Lemma visualization_shows_partials_witness :
  ∃ res info ds,
    CheckOperationsVerbose sort_by_time KvModel.KvModel example_history (Some <$> [0; 1]%nat) (λ _ _, false) (λ l, l)
      = Some (res, info) ∧
    info.(history_) = makeEntries sort_by_time <$> KvModel.Partition example_history ∧
    computeVisualizationData KvModel.Step KvModel.Init KvModel.DescribeOperation DescribeState (λ l, l) info = Some ds ∧
    List.length ds = List.length (KvModel.Partition example_history) ∧
    ∀ k E ps, info.(history_) !! k = Some E → info.(partialLinearizations) !! k = Some ps →
      Forall (partial_linearization KvModel.Step E KvModel.Init) ps ∧
      ∃ d, ds !! k = Some d ∧ drawn KvModel.Step KvModel.Init KvModel.DescribeOperation DescribeState (λ l, l) E ps d.
Proof.
  apply (visualization_shows_partials sort_by_time example_history [0; 1]%nat (λ _ _, false) (λ l, l) (λ l, l));
    [done|apply example_timed|vm_compute; reflexivity|done|done].
Defined.

(** The picture of the example, computed. *)
Example data_drawn : ∃ ds, Demo.data = Some ds ∧ List.length ds = 2%nat.
Proof. vm_compute. eexists. split; reflexivity. Qed.
